(* ===== verification/_CoqProject ===== *)
-Q . S2P
Prelude.v
Kernel.v
Text.v
Errors.v
Ledger.v
Driver.v
MemStore.v
Signals.v
Dispatcher.v
JoinSet.v
TokenPool.v
RunPool.v
Binding.v
Engine.v
Sample.v
Machine.v
Carry.v
Turns.v
Attempts.v
Commits.v
Awaits.v
Progress.v
Api.v
Waits.v
Stranded.v
Usage.v
Eligibility.v
Wire.v
WireSample.v
Keys.v
BlobCache.v
Bolt.v
BoltSample.v
BoltStore.v
BoltStage.v
BoltRead.v
BoltWrite.v
BoltView.v
BoltOps.v
BoltContract.v
BoltRefine.v
BoltEngine.v
Opening.v
BoltOpen.v
BoltBatch.v
Observe.v
Lifecycle.v
Gen.v
Views.v
Fakes.v
Tracing.v
Metrics.v
