(* ===== verification/Prelude.v ===== *)
(** * Verification of durable

    durable (Go) runs fixed, linear pipelines whose progress survives crashes.  A client
    schedules a run of a pipeline on a resource; the engine keeps the run's record in a
    store, calls the handler of each step in order, retries and parks, and on a permanent
    failure unwinds the succeeded steps in reverse.  This library models the program's own
    logic as executable Gallina definitions that follow the code, and proves what makes
    each part correct.

    ** The program's parts and the files that model them

    The shared vocabulary:
    - kernel/kernel.go, phases, parks, failures, outcomes: Kernel;
    - fail.go and await.go, what a handler's error says (Go's error tree): Errors;
    - engine/ids.go, the bounds on recorded text: Text;
    - store/driver/driver.go, the records and the Store contract: Driver.  The contract is
      the class [Driver.Store] with its laws [Driver.StoreLaws]; the engine's theorems are
      proved against it, and [MemStore.mem_store_laws] discharges it.

    The deciding core:
    - internal/ledger/ledger.go, from the topology and the facts of a run to its next
      operation: Ledger;
    - pipelinedef/pipelinedef.go, engine/bind.go, engine/middleware.go, definitions, their
      binding and the mutexes' exclusion sets: Binding.

    Shared state, one mutex-protected step per operation:
    - internal/watchset, dirtyset, frozen: Signals; internal/joinset: JoinSet;
    - internal/tokenpool: TokenPool; internal/runpool: RunPool;
    - internal/dispatcher, a transition system whose steps are the actions between two
      scheduling points: Dispatcher.

    The engine (engine/):
    - Engine: a state monad over the [World] (the store, the pools, joins, timers, dirty
      marks, attempts, and the trace of events); every function a worker calls, up to
      [processRun] (engine.go: runForward, runUnwind, parkAwait, awaitGate, cancelOperation,
      the completions);
    - Api: options, Start's recovery, Schedule, Status, Cancel, the lookups and retention
      (pipeline.go, run.go, result.go, lookup.go); Waits: Wait, one step per access to
      shared state (run.go); Lifecycle: Start and Stop in the order of the code, and a
      worker's turns with what others do between them;
    - Observe: the observer's events, the store wrapper and Stats (engine/observer.go,
      observe/); Views: what a handler or reducer reads (invocation.go, state.go, typed.go).

    The stores:
    - store/mem: MemStore;
    - store/bbolt: Keys (row keys), BlobCache, Bolt (bbolt's buckets, a class with the
      documented laws), BoltStore (every operation of store.go), BoltOpen (Open, sweep,
      Close), BoltBatch (a write that bolt.DB.Batch runs again);
    - store/internal/storagepb/convert.go: Wire;
    - store/store.go and store/bbolt/open.go, drivers and URI options: Opening.

    Around them:
    - cmd/protoc-gen-durable: Gen (what the generator accepts and the definitions it writes);
    - durabletest: Fakes; contrib/durableotel: Tracing and Metrics.

    The worker calls the store through [Driver.Store], the ledger through the record's
    facts ([Engine.factsOf]), the definitions through [Engine.definition], the pools and
    sets as fields of the world, and handlers through [e_call], which may change the world
    (a handler may use the client API).  The dispatcher decides when a worker runs; it is
    modelled apart, since a worker is a function of the key.

    ** What the theorems show

    - A run's life.  Machine is the abstract state machine of one run, with its invariants
      ([run_states_consistent], [resolved_operations_final], [reconciliation_progresses]).
      Carry proves that the worker refines it whatever handlers, reducers and store answer
      ([worker_refines_machine]), that carrying the record is re-reading it
      ([carrying_is_rereading]), and the order of operations ([worked_runs_in_order]).
      Attempts: a handler is called only for an attempt the store holds.  Commits: every
      transition a worker makes accounts for what is in flight.  Turns: a worker returns,
      whatever record it finds ([workers_return]).  Progress: a run whose handlers succeed,
      in a pipeline without classes over a store that takes its transitions, ends in
      success.  Lifecycle: an engine that drains calls no handler, whenever it begins to
      ([stopping_starts_nothing]).  Views: a read that cannot be decoded ends the attempt,
      of a step or of its unwind ([failed_read_invalidates]).
    - The ledger: exact on every branch, and independent of Go's map order.
    - Admission: Usage ([Schedule_correct], with what others do between its admission and
      its creation, [recover_correct], the run-class pool a start makes, options and
      retention), Awaits (the cycle check), Eligibility (the order of the run-class line),
      Binding ([bindDefinition_correct]; [deployment_exclusion]: a deployment adds no pair
      of runs its mutexes exclude to what an earlier one left), MemStore
      ([mutex_exclusion]).
    - Waiting: Waits ([Wait_correct]): a call of Wait among goroutines that end runs and
      then notify them.
    - No lost wakes, no leaked tokens, one worker per key: Signals, JoinSet, TokenPool,
      RunPool, Dispatcher.
    - The bbolt store against the contract.  BoltView is the store's meaning (a map of runs
      to what their rows say), BoltStage, BoltRead and BoltWrite relate rows to it, BoltOps
      every operation, BoltContract the contract's view of a transition.  BoltRefine states
      it over histories: reads answer the history, transitions follow the contract,
      reaps take the oldest, drains end.  A transition with an outcome follows the contract
      when its cursor names no step, as the engine's do ([terminal_overlay_diverges] is the
      difference otherwise).  BoltBatch: creation excludes, its function run again or not
      ([create_admits_exclusively]).  BoltEngine: the transitions a worker makes are ones
      the store takes as the contract says, up to its encoding
      ([worker_transitions_kept]).  WireSample and
      BoltSample hold the round trips of the encoding ([records_roundtrip]) and lawful
      instances of the protobuf and bbolt classes.
    - Observation, generation, testing, tracing: wrapping the store for observers changes
      nothing ([observation_transparent]); the generator accepts the well declared
      descriptors and what it writes binds ([generate_correct], [generated_binds]); the
      fake invocation answers as the engine's ([fake_matches_engine]); an attempt's span
      links to the scheduling trace ([attempts_link_to_scheduler]); the counters count the
      events ([Metrics.metrics_follow_events]).
    - Stranded, BoltBatch, BoltEngine, BoltOpen, Opening, BlobCache, Lifecycle and Gen also
      hold the places where the code does not do what it or a comment says: a waiter left
      without a wake, a batch that answers both ways, an empty state lost, a counter below
      zero, a byte count that wraps, a jitter that panics.

    Sample is a small deployment on the in-memory store, the input of most witnesses.

    ** Bounds and fuel

    - [Engine.processRun] takes fuel, a number of turns; [None] is fuel run out.
      [Turns.workers_return]: [4 * steps + 6] turns are enough, unless a handler parks its
      run again in the attempt that hands it what it waited for - one that does so on an
      ended run is called for ever ([Turns.parking_goes_round]).  The safety theorems hold
      for any fuel.
    - [Engine.awaitCycle] visits at most [maxVisited] (1024) runs, as the code does;
      [Awaits.awaitCycle_correct] is exact below it.
    - [BoltStore.Drain] takes sweeps of [stageDrainPerSweep] rows; [BoltRefine.sweeps] are
      enough ([drain_frees_stages], [reopening_keeps_runs]).
    - [Api.sweep_loop] takes batches; [Usage.sweep_complete] gives a number that is enough.
    - Integers are [Z] with the wrap-around of their width written out where the code can
      overflow (attempt counters, byte counts, durations).

    ** What is left to parameters

    bbolt ([Bolt.BoltLaws]) and protobuf ([Wire.ProtobufLaws], [Views]' decoder) by their
    documented laws; url.Parse; handlers, reducers and observers; the order of Go's map
    iterations; what an OpenTelemetry propagator documents.  The retry backoff (floating
    point and math/rand), entropy and the clock are values of the configuration or the
    world.

    ** Not modelled

    The text the generator writes around a definition and the plugin's main; log lines;
    WithClock, WithLogger and the arithmetic of WithRetryPolicy; the tickers and goroutines
    that call the sweeps; descriptions, units and histogram bounds of the instruments; the
    conformance tests of store/storetest; the check before the loop of Wait that the engine
    has started; examples/ and internal/perfcompare, programs that use the library; the
    generated protobuf code. *)
From stdpp Require Export base gmap sets list strings sorting.
From Stdlib Require Export ZArith Lia Ascii.

Declare Scope go_scope.
Delimit Scope go_scope with go.

(** ** Machine integers

    [int64], [uint32] and [uint64] values are [Z]; an operation that can leave
    the range is written with its wrap-around. *)

Definition wrap_u (w z : Z) : Z := (z mod 2 ^ w)%Z.
Definition wrap_i64 (z : Z) : Z := ((z + 2 ^ 63) mod 2 ^ 64 - 2 ^ 63)%Z.
Definition max_i64 : Z := (2 ^ 63 - 1)%Z.
Definition min_i64 : Z := (- 2 ^ 63)%Z.
Lemma wrap_i64_small z : (min_i64 <= z <= max_i64)%Z → wrap_i64 z = z.
Proof. unfold wrap_i64, min_i64, max_i64. intros. rewrite Z.mod_small by lia. lia. Qed.

Notation "x +u32 y" := (wrap_u 32 (x + y)) (at level 50, left associativity) : go_scope.
Notation "x +u64 y" := (wrap_u 64 (x + y)) (at level 50, left associativity) : go_scope.

(** ** Time

    [time.Time] is the number of nanoseconds since the zero time (1 January
    year 1 UTC): the zero value is [0], and [IsZero] tests for it.  Location
    and monotonic readings play no part in the code.  [time.Duration] is an
    [int64] of nanoseconds, also a [Z]. *)

Abbreviation Time := Z.
Abbreviation Duration := Z.

Definition time_zero : Time := 0%Z.
Definition IsZero (t : Time) : bool := (t =? 0)%Z.
Definition Before (t u : Time) : bool := (t <? u)%Z.
Definition After (t u : Time) : bool := (u <? t)%Z.
Definition TimeAdd (t : Time) (d : Duration) : Time := (t + d)%Z.
(** [Time.Sub] saturates at the extreme durations. *)
Definition TimeSub (t u : Time) : Duration :=
  Z.max min_i64 (Z.min max_i64 (t - u)).
Definition second : Duration := 1000000000%Z.
(** The Unix epoch as a [Time]; [UnixNano] is an [int64]. *)
Definition unix_epoch : Time := (62135596800 * second)%Z.
Definition UnixNano (t : Time) : Z := wrap_i64 (t - unix_epoch).

(** ** Byte slices

    A [[]byte] is [None] when nil and [Some] of its contents otherwise: the code
    distinguishes a nil slice from an empty one. *)

Abbreviation bytes := (option string).
Definition blen (b : bytes) : Z :=
  match b with None => 0 | Some s => Z.of_nat (String.length s) end.

(** ** Results: Go's (value, error) pairs *)

Inductive result (E A : Type) : Type :=
| Ok (a : A)
| Err (e : E).
Arguments Ok {E A} a.
Arguments Err {E A} e.

(** ** Tactics *)

(** Case analysis on the scrutinee of a match in the goal or a hypothesis,
    keeping the equation. *)
Ltac dmatch_goal :=
  match goal with
  | |- context [match ?x with _ => _ end] => destruct x eqn:?
  end.
Ltac dmatch_hyp H :=
  match type of H with
  | context [match ?x with _ => _ end] => destruct x eqn:?
  end.
(** Boolean integer comparisons to propositions, then arithmetic. *)
Ltac zbool :=
  repeat match goal with
  | H : (_ <? _)%Z = true |- _ => apply Z.ltb_lt in H
  | H : (_ <? _)%Z = false |- _ => apply Z.ltb_ge in H
  | H : (_ <=? _)%Z = true |- _ => apply Z.leb_le in H
  | H : (_ <=? _)%Z = false |- _ => apply Z.leb_gt in H
  | H : (_ =? _)%Z = true |- _ => apply Z.eqb_eq in H
  | H : (_ =? _)%Z = false |- _ => apply Z.eqb_neq in H
  | H : (_ && _) = true |- _ => apply andb_true_iff in H as [? ?]
  | H : negb _ = true |- _ => apply negb_true_iff in H
  | H : negb _ = false |- _ => apply negb_false_iff in H
  | H : bool_decide _ = true |- _ => apply bool_decide_eq_true in H
  | H : bool_decide _ = false |- _ => apply bool_decide_eq_false in H
  end.
Ltac zlia := zbool; lia.

Create HintDb durable.

(** ** Sorting strings: Go's [sort.Strings]

    A Go string compares bytewise, which is stdpp's [String.le]. *)

Definition sort_strings (l : list string) : list string := merge_sort String.le l.

Lemma sort_strings_perm l : sort_strings l ≡ₚ l.
Proof. apply merge_sort_Permutation. Qed.

Lemma sort_strings_perm_eq l k : l ≡ₚ k → sort_strings l = sort_strings k.
Proof.
  intros H. apply (StronglySorted_unique String.le).
  - apply StronglySorted_merge_sort; apply _.
  - apply StronglySorted_merge_sort; apply _.
  - by rewrite !sort_strings_perm.
Qed.

(** ** Strings *)

Lemma append_nil_l s : EmptyString +:+ s = s.
Proof. done. Qed.
Lemma append_cons c s s' : String c s +:+ s' = String c (s +:+ s').
Proof. done. Qed.
Lemma append_assoc s1 s2 s3 : s1 +:+ (s2 +:+ s3) = (s1 +:+ s2) +:+ s3.
Proof. induction s1 as [|c s1 IH]; [done|]. rewrite !append_cons. by rewrite IH. Qed.
Lemma append_nil_r s : s +:+ EmptyString = s.
Proof. induction s as [|c s IH]; [done|]. rewrite append_cons. by rewrite IH. Qed.
Lemma append_length s1 s2 :
  String.length (s1 +:+ s2) = String.length s1 + String.length s2.
Proof. induction s1 as [|c s1 IH]; [done|]. rewrite append_cons. simpl. by rewrite IH. Qed.
#[export] Hint Rewrite append_nil_l append_cons append_nil_r append_length : durable.

(** ** Lists and maps *)

Section lists.
Context {A : Type}.
Implicit Types (l : list A).

Lemma list_filter_all (P : A → Prop) `{∀ x, Decision (P x)} l :
  Forall P l → filter P l = l.
Proof.
  induction 1 as [|x l Hx _ IH]; [done|]. by rewrite filter_cons_True, IH.
Qed.

Lemma list_filter_none (P : A → Prop) `{∀ x, Decision (P x)} l :
  Forall (λ x, ¬ P x) l → filter P l = [].
Proof.
  induction 1 as [|x l Hx _ IH]; [done|]. by rewrite filter_cons_False, IH.
Qed.

End lists.

Lemma bind_nil {A B} (l : list A) : (l ≫= λ _, []) = @nil B.
Proof. induction l as [|x l IH]; [done|exact IH]. Qed.
Lemma bind_singletons {A B} (f : A → B) l : (l ≫= λ x, [f x]) = f <$> l.
Proof. induction l as [|x l IH]; [done|]. simpl. by f_equal. Qed.
Lemma app_nil {A} (l k : list A) : l ++ k = [] ↔ l = [] ∧ k = [].
Proof. destruct l; naive_solver. Qed.
Lemma NoDup_fmap_elem {A B} (f : A → B) l x y :
  NoDup (f <$> l) → x ∈ l → y ∈ l → f x = f y → x = y.
Proof.
  intros Hn [i Hi]%list_elem_of_lookup [j Hj]%list_elem_of_lookup Hf.
  assert (i = j) as ->; [|congruence].
  eapply NoDup_lookup; [exact Hn|by rewrite list_lookup_fmap, Hi|]. by rewrite list_lookup_fmap, Hj, Hf.
Qed.
Lemma fmap_sublist {A B} (f : A → B) l l' : l `sublist_of` l' → f <$> l `sublist_of` f <$> l'.
Proof. induction 1; csimpl; by constructor. Qed.

Lemma filter_fewer {A} (P Q : A → Prop) `{!∀ x, Decision (P x), !∀ x, Decision (Q x)} l :
  (∀ x, x ∈ l → P x → Q x) →
  length (filter P l) <= length (filter Q l) ∧
  ((∃ x, x ∈ l ∧ Q x ∧ ¬ P x) → length (filter P l) < length (filter Q l)).
Proof.
  induction l as [|y l IH]; intros Himp; [split; [done|by intros (x & ?%elem_of_nil & _)]|].
  destruct IH as [Hle Hlt]; [intros x Hx; apply Himp; by right|].
  pose proof (Himp y ltac:(left)) as Hy. rewrite !filter_cons.
  destruct (decide (P y)) as [HP|HP], (decide (Q y)) as [HQ|HQ]; simpl; try tauto; (split; [lia|]).
  - intros (x & [->|Hx]%elem_of_cons & HQx & HPx); [done|]. assert (∃ x, x ∈ l ∧ Q x ∧ ¬ P x) as Hl by eauto.
    specialize (Hlt Hl). lia.
  - intros _. lia.
  - intros (x & [->|Hx]%elem_of_cons & HQx & HPx); [done|]. apply Hlt. eauto.
Qed.

(** The values of a Go map lookup with a zero default: [m[k]]. *)
Definition map_get {K V} `{Countable K} (zero : V) (m : gmap K V) (k : K) : V :=
  default zero (m !! k).

(** One order in which [range] may visit a map: any permutation of its
    entries. *)
Definition map_order {K V} `{Countable K} (m : gmap K V) (l : list (K * V)) : Prop :=
  l ≡ₚ map_to_list m.

Lemma map_order_canonical {K V} `{Countable K} (m : gmap K V) :
  map_order m (map_to_list m).
Proof. unfold map_order. reflexivity. Qed.

Lemma map_order_elem {K V} `{Countable K} (m : gmap K V) l k v :
  map_order m l → (k, v) ∈ l ↔ m !! k = Some v.
Proof. intros Hm. rewrite Hm. apply elem_of_map_to_list. Qed.

Lemma map_order_nodup {K V} `{Countable K} (m : gmap K V) l :
  map_order m l → NoDup l.*1.
Proof. intros Hm. rewrite Hm. apply NoDup_fst_map_to_list. Qed.

Lemma map_keys_entries {K V} `{Countable K} (zero : V) (m : gmap K V) :
  (λ k, (k, map_get zero m k)) <$> (map_to_list m).*1 = map_to_list m.
Proof.
  rewrite <-list_fmap_compose. rewrite <-(list_fmap_id (map_to_list m)) at 2.
  apply list_fmap_ext. intros i [k v] Hi. simpl. unfold map_get.
  apply list_elem_of_lookup_2, elem_of_map_to_list in Hi. by rewrite Hi.
Qed.

(** Counting the entries of a map: what one update changes. *)
Section map_count.
Context {K V : Type} `{Countable K} (P : K * V → Prop) `{!∀ x, Decision (P x)}.

Definition map_count (m : gmap K V) : nat := size (filter P m).

Definition counted (m : gmap K V) (k : K) : nat :=
  match m !! k with
  | Some v => if decide (P (k, v)) then 1 else 0
  | None => 0
  end.

Lemma map_count_delete m k : map_count m = map_count (delete k m) + counted m k.
Proof.
  unfold map_count, counted. destruct (m !! k) as [v|] eqn:Hk.
  - rewrite <-(insert_delete_id m k v Hk) at 1. rewrite map_filter_insert. case_decide.
    + rewrite map_size_insert_None; [lia|].
      apply map_lookup_filter_None. left. apply lookup_delete_eq.
    + rewrite delete_delete_eq. lia.
  - rewrite delete_id by done. lia.
Qed.

Lemma map_count_insert m k v :
  map_count (<[k := v]> m) + counted m k =
  map_count m + (if decide (P (k, v)) then 1 else 0).
Proof.
  rewrite (map_count_delete m k), (map_count_delete (<[k:=v]> m) k), delete_insert_eq.
  unfold counted at 1. rewrite lookup_insert_eq. lia.
Qed.

Lemma map_count_pos m k v : m !! k = Some v → P (k, v) → 1 <= map_count m.
Proof.
  intros Hk HP. rewrite (map_count_delete m k). unfold counted. rewrite Hk.
  rewrite decide_True by done. lia.
Qed.

Lemma map_count_empty : map_count ∅ = 0.
Proof. unfold map_count. rewrite map_filter_empty. apply map_size_empty. Qed.
End map_count.
