(* ===== verification/Kernel.v ===== *)
(** * Kernel: the shared vocabulary of kernel/kernel.go

    Identifiers are strings.  The [uint8] enumerations are inductive types; where
    the code gives the zero value no name the constructor is [...Zero].  Pointers
    to values ([*Await], [*Wake], [*Failure]) are options. *)
From S2P Require Import Prelude.

Abbreviation PipelineID := string.
Abbreviation ResourceID := string.
Abbreviation RunID := string.
Abbreviation StepID := string.

Inductive Phase := PhaseZero | PhaseForward | PhaseUnwind | PhaseDone.
#[export] Instance Phase_eq_dec : EqDecision Phase.
Proof. solve_decision. Defined.

Definition Phase_String (p : Phase) : string :=
  match p with
  | PhaseForward => "forward"
  | PhaseUnwind => "unwind"
  | PhaseDone => "done"
  | PhaseZero => "unknown"
  end.

Inductive AwaitMode := AwaitModeZero | AwaitModeAll | AwaitModeAny.
#[export] Instance AwaitMode_eq_dec : EqDecision AwaitMode.
Proof. solve_decision. Defined.

Definition AwaitMode_String (m : AwaitMode) : string :=
  match m with
  | AwaitModeAll => "all"
  | AwaitModeAny => "any"
  | AwaitModeZero => "unknown"
  end.

Record Await := mkAwait {
  Await_Mode : AwaitMode;
  Await_Targets : list RunID;
  Await_Deadline : Time;
  Await_CancelCascade : bool;
}.
#[export] Instance Await_eq_dec : EqDecision Await.
Proof. solve_decision. Defined.

Record Wake := mkWake {
  Wake_Targets : list RunID;
  Wake_Done : list RunID;
  Wake_Expired : bool;
}.
#[export] Instance Wake_eq_dec : EqDecision Wake.
Proof. solve_decision. Defined.

(** [Wake.Pending]: the targets not in Done, in Targets order. *)
Definition Wake_Pending (w : Wake) : list RunID :=
  match Wake_Done w with
  | [] => Wake_Targets w
  | _ =>
    let done : gset RunID := list_to_set (Wake_Done w) in
    filter (λ id, id ∉ done) (Wake_Targets w)
  end.

Inductive Outcome := OutcomeZero | OutcomeSuccess | OutcomeFailure.
#[export] Instance Outcome_eq_dec : EqDecision Outcome.
Proof. solve_decision. Defined.

Definition Outcome_String (o : Outcome) : string :=
  match o with
  | OutcomeSuccess => "success"
  | OutcomeFailure => "failure"
  | OutcomeZero => "unknown"
  end.

Inductive FailureKind := FailureKindSystem | FailureKindUser | FailureKindCanceled.
#[export] Instance FailureKind_eq_dec : EqDecision FailureKind.
Proof. solve_decision. Defined.

Definition FailureKind_String (k : FailureKind) : string :=
  match k with
  | FailureKindUser => "user"
  | FailureKindCanceled => "canceled"
  | FailureKindSystem => "system"
  end.

Record Failure := mkFailure {
  Failure_StepID : StepID;
  Failure_Phase : Phase;
  Failure_Attempt : Z;
  Failure_Message : string;
  Failure_At : Time;
  Failure_Kind : FailureKind;
  Failure_Reason : string;
}.
#[export] Instance Failure_eq_dec : EqDecision Failure.
Proof. solve_decision. Defined.

(** ** Facts *)

(** [Pending] and [Done] split the targets, and [Pending] keeps their order. *)
Lemma Wake_Pending_spec w :
  Wake_Pending w = filter (λ id, id ∉ Wake_Done w) (Wake_Targets w).
Proof.
  unfold Wake_Pending. destruct (Wake_Done w) as [|d ds] eqn:E.
  - symmetry. apply list_filter_all, Forall_true. intros x. apply not_elem_of_nil.
  - apply list_filter_iff. intros x. rewrite elem_of_list_to_set. done.
Qed.

Lemma Wake_Pending_elem w id :
  id ∈ Wake_Pending w ↔ id ∈ Wake_Targets w ∧ id ∉ Wake_Done w.
Proof. rewrite Wake_Pending_spec, list_elem_of_filter. tauto. Qed.
