(* ===== verification/Text.v ===== *)
(** * Text: identifiers and free text (engine/ids.go)

    Strings are byte strings; [rune_size] is the decoder of unicode/utf8, of which
    the code uses validity, rune starts and replacement of invalid runs. *)
From S2P Require Import Prelude.

Definition byte (c : ascii) : nat := nat_of_ascii c.
Definition between (lo hi : nat) (c : ascii) : bool := (lo <=? byte c) && (byte c <=? hi).
(** A continuation byte. *)
Definition cont (c : ascii) : bool := between 128 191 c.
(** [utf8.RuneStart]. *)
Definition RuneStart (c : ascii) : bool := negb (cont c).

(** The bounds of the second byte after a first one, and the size of the rune. *)
Definition lead (c : ascii) : option (nat * nat * nat) :=
  if between 194 223 c then Some (2, 128, 191)
  else if between 224 224 c then Some (3, 160, 191)
  else if between 225 236 c then Some (3, 128, 191)
  else if between 237 237 c then Some (3, 128, 159)
  else if between 238 239 c then Some (3, 128, 191)
  else if between 240 240 c then Some (4, 144, 191)
  else if between 241 243 c then Some (4, 128, 191)
  else if between 244 244 c then Some (4, 128, 143)
  else None.

(** The size of the well-formed rune a byte list starts with. *)
Definition rune_size (s : list ascii) : option nat :=
  match s with
  | [] => None
  | c :: s =>
    if byte c <? 128 then Some 1
    else match lead c with
    | None => None
    | Some (n, lo, hi) =>
      match s with
      | c1 :: s =>
        if between lo hi c1 then
          if decide (n = 2) then Some 2
          else match s with
          | c2 :: s =>
            if cont c2 then
              if decide (n = 3) then Some 3
              else match s with c3 :: _ => if cont c3 then Some 4 else None | [] => None end
            else None
          | [] => None
          end
        else None
      | [] => None
      end
    end
  end.

(** [utf8.ValidString]; [skip] counts the bytes left of the rune being read. *)
Fixpoint valid_from (skip : nat) (s : list ascii) : bool :=
  match s with
  | [] => true
  | _ :: s' =>
    match skip with
    | S k => valid_from k s'
    | 0 => match rune_size s with Some (S k) => valid_from k s' | _ => false end
    end
  end.
Definition ValidString (s : list ascii) : bool := valid_from 0 s.

(** [strings.ToValidUTF8]: each run of invalid bytes becomes one [repl]. *)
Fixpoint to_valid (repl : list ascii) (skip : nat) (invalid : bool) (s : list ascii)
    : list ascii :=
  match s with
  | [] => []
  | c :: s' =>
    match skip with
    | S k => c :: to_valid repl k false s'
    | 0 =>
      match rune_size s with
      | Some (S k) => c :: to_valid repl k false s'
      | _ => (if invalid then [] else repl) ++ to_valid repl 0 true s'
      end
    end
  end.

(** [utf8.RuneError] encoded, and the truncation mark U+2026. *)
Definition RuneError : list ascii := ascii_of_nat <$> [239; 191; 189].
Definition truncationMark : list ascii := ascii_of_nat <$> [226; 128; 166].
Definition DefaultTextLimit : Z := 4096.

Definition sanitize (s : list ascii) : list ascii :=
  if ValidString s then s else to_valid RuneError 0 false s.

(** The loop that moves the cut back to a rune start. *)
Fixpoint back_to_start (s : list ascii) (cut : nat) : nat :=
  match cut with
  | 0 => 0
  | S cut' =>
    match s !! cut with
    | Some c => if RuneStart c then cut else back_to_start s cut'
    | None => cut
    end
  end.

Definition bound (limit : Z) (s : list ascii) : list ascii :=
  let s := sanitize s in
  let limit := if (limit <=? 0)%Z then DefaultTextLimit else limit in
  if (Z.of_nat (length s) <=? limit)%Z then s
  else
    let cut := back_to_start s (Z.to_nat (limit - Z.of_nat (length truncationMark))) in
    take cut s ++ truncationMark.

Definition sanitizeText (s : string) : string :=
  String.string_of_list_ascii (sanitize (String.list_ascii_of_string s)).
Definition boundText (limit : Z) (s : string) : string :=
  String.string_of_list_ascii (bound limit (String.list_ascii_of_string s)).
Definition invalidID (s : string) : bool :=
  let s := String.list_ascii_of_string s in
  existsb (λ c, byte c =? 0) s || negb (ValidString s).

(** ** Runes *)

Lemma rune_size_spec s n :
  rune_size s = Some n →
  1 ≤ n ≤ length s ∧ (∀ i c, 0 < i → i < n → s !! i = Some c → cont c = true) ∧
  (∀ t, rune_size (take n s ++ t) = Some n).
Proof.
  unfold rune_size. destruct s as [|c s]; [done|].
  destruct (byte c <? 128) eqn:Hc.
  { intros [= <-]. simpl. rewrite Hc. split; [lia|]. split; [lia|done]. }
  destruct (lead c) as [[[m lo] hi]|] eqn:Hl; [|done].
  assert (128 ≤ lo ∧ hi ≤ 191) as [Hlo Hhi].
  { unfold lead in Hl. repeat case_match; simplify_eq; lia. }
  destruct s as [|c1 s]; [done|]. destruct (between lo hi c1) eqn:H1; [|done].
  assert (cont c1 = true) as Hc1.
  { unfold cont, between in *. apply andb_true_iff in H1 as [?%Nat.leb_le ?%Nat.leb_le].
    apply andb_true_iff. split; apply Nat.leb_le; lia. }
  destruct (decide (m = 2)) as [->|Hm2].
  { intros [= <-]. simpl. rewrite Hc, Hl, H1. split; [lia|]. split; [|done].
    intros i x ? ? Hi. destruct i as [|[|i]]; [lia| |lia]. simpl in Hi. by simplify_eq. }
  destruct s as [|c2 s]; [done|]. destruct (cont c2) eqn:Hc2; [|done].
  destruct (decide (m = 3)) as [->|Hm3].
  { intros [= <-]. simpl. rewrite Hc, Hl, H1, Hc2. split; [lia|]. split; [|done].
    intros i x ? ? Hi. destruct i as [|[|[|i]]]; [lia| | |lia]; simpl in Hi; by simplify_eq. }
  destruct s as [|c3 s]; [done|]. destruct (cont c3) eqn:Hc3; [|done].
  intros [= <-]. simpl. rewrite Hc, Hl, H1, Hc2, Hc3, !decide_False by done.
  split; [lia|]. split; [|done].
  intros i x ? ? Hi. destruct i as [|[|[|[|i]]]]; [lia| | | |lia]; simpl in Hi; by simplify_eq.
Qed.

(** Valid text, rune by rune. *)
Inductive valid : list ascii → Prop :=
| valid_nil : valid []
| valid_rune s n : rune_size s = Some n → valid (drop n s) → valid s.

Lemma valid_from_skip k s : k ≤ length s → valid_from k s = valid_from 0 (drop k s).
Proof.
  revert k. induction s as [|c s IH]; intros k Hk; simpl in Hk.
  - by destruct k.
  - destruct k as [|k]; [done|]. simpl. apply IH. lia.
Qed.

Lemma valid_spec s : ValidString s = true ↔ valid s.
Proof.
  unfold ValidString. split.
  - remember (length s) as n eqn:Hn. revert s Hn.
    induction (lt_wf n) as [n _ IH]. intros s -> Hv. destruct s as [|c s]; [constructor|].
    cbn [valid_from] in Hv. destruct (rune_size (c :: s)) as [[|k]|] eqn:Hr; try done.
    destruct (rune_size_spec _ _ Hr) as (Hlen & _ & _). simpl in Hlen.
    eapply (valid_rune _ (S k)); [done|]. simpl. rewrite valid_from_skip in Hv by lia.
    eapply (IH (length (drop k s))); [rewrite length_drop; simpl; lia|done|done].
  - induction 1 as [|s n Hr Hv IH]; [done|].
    destruct (rune_size_spec _ _ Hr) as (Hlen & _ & _).
    destruct s as [|c s]; [done|]. destruct n as [|n]; [lia|].
    cbn [valid_from]. rewrite Hr. simpl in IH, Hlen. rewrite valid_from_skip by lia. done.
Qed.

Lemma rune_size_app s t n : rune_size s = Some n → rune_size (s ++ t) = Some n.
Proof.
  intros Hr. destruct (rune_size_spec _ _ Hr) as (Hlen & _ & Hext).
  rewrite <-(take_drop n s), <-app_assoc. apply Hext.
Qed.

Lemma valid_app s t : valid s → valid t → valid (s ++ t).
Proof.
  induction 1 as [|s n Hr Hv IH]; intros Ht; [done|].
  destruct (rune_size_spec _ _ Hr) as (Hlen & _ & _).
  apply (valid_rune _ n); [by apply rune_size_app|].
  rewrite drop_app_le by lia. by apply IH.
Qed.

(** A valid text cut before a rune start is valid. *)
Lemma valid_take s cut :
  valid s → (∀ c, s !! cut = Some c → RuneStart c = true) → valid (take cut s).
Proof.
  intros Hv. revert cut. induction Hv as [|s n Hr Hv IH]; intros cut Hcut.
  { rewrite take_nil. constructor. }
  destruct (rune_size_spec _ _ Hr) as (Hlen & Hcont & Hext).
  destruct (decide (cut = 0)) as [->|Hpos]; [constructor|].
  destruct (decide (cut < n)) as [Hlt|Hge].
  - exfalso. destruct (lookup_lt_is_Some_2 s cut) as [c Hc]; [lia|].
    specialize (Hcont cut c ltac:(lia) Hlt Hc). specialize (Hcut c Hc).
    unfold RuneStart in Hcut. by rewrite Hcont in Hcut.
  - rewrite <-(take_drop n s), take_app_ge by (rewrite length_take_le; lia).
    rewrite length_take_le by lia. apply valid_app.
    + apply (valid_rune _ n); [rewrite <-(app_nil_r (take n s)); apply Hext|].
      rewrite drop_ge; [constructor|]. rewrite length_take_le; lia.
    + apply IH. intros c. rewrite lookup_drop. replace (n + (cut - n)) with cut by lia.
      apply Hcut.
Qed.

Lemma to_valid_skip repl k inv s :
  k ≤ length s → to_valid repl k inv s = take k s ++ to_valid repl 0 (if decide (k = 0) then inv else false) (drop k s).
Proof.
  revert k inv. induction s as [|c s IH]; intros k inv Hk; simpl in Hk.
  - by destruct k.
  - destruct k as [|k]; [done|]. simpl. f_equal. rewrite IH by lia.
    destruct (decide (k = 0)); done.
Qed.

Lemma to_valid_valid repl inv s : valid repl → valid (to_valid repl 0 inv s).
Proof.
  intros Hrepl. remember (length s) as n eqn:Hn. revert s inv Hn.
  induction (lt_wf n) as [n _ IH]. intros s inv ->. destruct s as [|c s]; [constructor|].
  cbn [to_valid]. destruct (rune_size (c :: s)) as [[|k]|] eqn:Hr.
  - destruct (rune_size_spec _ _ Hr) as (Hlen & _ & _). lia.
  - destruct (rune_size_spec _ _ Hr) as (Hlen & _ & Hext). simpl in Hlen.
    rewrite to_valid_skip by lia. change (c :: take k s ++ ?x) with (take (S k) (c :: s) ++ x).
    apply valid_app.
    + apply (valid_rune _ (S k)); [rewrite <-(app_nil_r (take (S k) (c :: s))); apply Hext|].
      rewrite drop_ge; [constructor|]. rewrite length_take_le; simpl; lia.
    + eapply IH; [|done]. rewrite length_drop. simpl. lia.
  - apply valid_app; [destruct inv; [constructor|done]|]. eapply IH; [|done]. simpl. lia.
Qed.

Lemma sanitize_valid s : valid (sanitize s).
Proof.
  unfold sanitize. destruct (ValidString s) eqn:Hv; [by apply valid_spec|].
  apply to_valid_valid, valid_spec. vm_compute. reflexivity.
Qed.

Lemma back_to_start_spec s cut :
  cut < length s →
  back_to_start s cut ≤ cut ∧
  (back_to_start s cut = 0 ∨
   ∃ c, s !! back_to_start s cut = Some c ∧ RuneStart c = true).
Proof.
  induction cut as [|cut IH]; intros Hlt; [by split; [|left]|].
  cbn [back_to_start]. destruct (lookup_lt_is_Some_2 s (S cut) Hlt) as [c Hc]. rewrite Hc.
  destruct (RuneStart c) eqn:Hs; [split; [lia|right; eauto]|].
  destruct (IH ltac:(lia)) as [? ?]. split; [lia|done].
Qed.

(** ** Properties *)

(** C40: bounded text is valid UTF-8 and at most [max limit 3] bytes, the limit
    itself when the truncation mark fits it; text that is valid and within the
    limit is kept as it is, and longer text is cut to a prefix and marked. *)
Theorem bound_correct limit s :
  (0 < limit)%Z →
  ValidString (bound limit s) = true ∧
  (Z.of_nat (length (bound limit s)) <= Z.max limit 3)%Z ∧
  (ValidString s = true → (Z.of_nat (length s) <= limit)%Z → bound limit s = s) ∧
  ((limit < Z.of_nat (length (sanitize s)))%Z →
   ∃ cut, bound limit s = take cut (sanitize s) ++ truncationMark).
Proof.
  intros Hlim. unfold bound. rewrite (proj2 (Z.leb_gt _ _) Hlim).
  pose proof (sanitize_valid s) as Hv.
  assert (ValidString s = true → sanitize s = s) as Hid by (unfold sanitize; by intros ->).
  set (t := sanitize s) in *. clearbody t.
  destruct (Z.of_nat (length t) <=? limit)%Z eqn:Hfit; zbool.
  { split; [by apply valid_spec|]. split; [lia|]. split; [auto|lia]. }
  change (length truncationMark) with 3.
  destruct (back_to_start_spec t (Z.to_nat (limit - Z.of_nat 3))) as [Hle Hcut]; [lia|].
  set (cut := back_to_start t _) in *. clearbody cut.
  split; [|split; [|split; [|by exists cut]]].
  - apply valid_spec, valid_app; [|apply valid_spec; vm_compute; reflexivity].
    destruct Hcut as [->|(c & Hc & Hs)]; [constructor|].
    apply valid_take; [done|]. intros c' Hc'. by simplify_eq.
  - rewrite length_app, length_take. change (length truncationMark) with 3. lia.
  - intros Hvs Hlen. rewrite (Hid Hvs) in Hfit. lia.
Qed.

(** With a limit of 1 or 2 bytes, which the option accepts, a longer text is
    recorded as the 3-byte mark: more than the limit. *)
Theorem bound_exceeds_small_limit limit s :
  (0 < limit < 3)%Z → (limit < Z.of_nat (length (sanitize s)))%Z →
  bound limit s = truncationMark ∧ (limit < Z.of_nat (length (bound limit s)))%Z.
Proof.
  intros Hlim Hlen.
  assert (bound limit s = truncationMark) as ->.
  { unfold bound. rewrite (proj2 (Z.leb_gt limit 0)) by lia.
    rewrite (proj2 (Z.leb_gt _ limit)) by lia. change (length truncationMark) with 3.
    assert (Z.to_nat (limit - Z.of_nat 3) = 0) as -> by lia. done. }
  split; [done|]. change (length truncationMark) with 3. lia.
Qed.

Lemma bound_correct_witness :
  bound 5 (String.list_ascii_of_string "abcdefgh") = String.list_ascii_of_string "ab" ++ truncationMark ∧
  ValidString (bound 5 (String.list_ascii_of_string "abcdefgh")) = true.
Proof.
  split; [vm_compute; reflexivity|].
  apply (bound_correct 5 (String.list_ascii_of_string "abcdefgh")). reflexivity.
Defined.

Lemma bound_exceeds_small_limit_witness :
  bound 2 (String.list_ascii_of_string "abcdefgh") = truncationMark.
Proof.
  apply (bound_exceeds_small_limit 2 (String.list_ascii_of_string "abcdefgh")).
  - split; reflexivity.
  - vm_compute. reflexivity.
Defined.
