(* ===== verification/Errors.v ===== *)
(** * Errors: the resolution vocabulary of handlers (fail.go, await.go)

    A Go error is a tree: its own type, and the errors it wraps.  [errors.As] walks
    it in preorder.  Errors not of this module's types are [EOther]: their message,
    the interfaces they implement, what they wrap.  A nil error is [None]. *)
From S2P Require Import Prelude Kernel.

Inductive goerr :=
| EOther (msg : string) (reason : option string) (kind : option FailureKind)
    (wraps : list goerr)
| EPermanent (err : goerr) (kind : FailureKind) (kindSet : bool) (reason : string)
| EAwait (park : Await) (timeout : Duration)
| EPreempted (cause : string)
| EStopping.

(** [errors.As]: the errors it visits, in order. *)
Fixpoint chain (e : goerr) : list goerr :=
  e :: match e with
       | EOther _ _ _ wraps =>
         (fix chains (l : list goerr) : list goerr :=
            match l with [] => [] | e :: l => chain e ++ chains l end) wraps
       | EPermanent err _ _ _ => chain err
       | _ => []
       end.
Fixpoint find_map {A B} (f : A → option B) (l : list A) : option B :=
  match l with
  | [] => None
  | x :: l => match f x with Some y => Some y | None => find_map f l end
  end.
Definition as_ {B} (f : goerr → option B) (e : option goerr) : option B :=
  e ≫= λ e, find_map f (chain e).

(** ** fail.go *)

(** The interfaces [FailureReasoner] and [FailureKinder]. *)
Definition reasoner (e : goerr) : option string :=
  match e with EOther _ r _ _ => r | _ => None end.
Definition kinder (e : goerr) : option FailureKind :=
  match e with EOther _ _ k _ => k | _ => None end.

Inductive FailOption := WithUserKind | WithReason (reason : string).

Record permanentError := mkPermanent {
  pe_err : goerr;
  pe_kind : FailureKind;
  pe_kindSet : bool;
  pe_reason : string;
}.
Definition apply_option (e : permanentError) (o : FailOption) : permanentError :=
  match o with
  | WithUserKind => mkPermanent (pe_err e) FailureKindUser true (pe_reason e)
  | WithReason r => mkPermanent (pe_err e) (pe_kind e) (pe_kindSet e) r
  end.

Definition Fail (err : option goerr) (opts : list FailOption) : goerr :=
  let err := default (EOther "unspecified permanent failure" None None []) err in
  let pe := foldl apply_option (mkPermanent err FailureKindSystem false "") opts in
  EPermanent (pe_err pe) (pe_kind pe) (pe_kindSet pe) (pe_reason pe).

Definition reasonOf (err : option goerr) : string := default "" (as_ reasoner err).
Definition failureKind (e : permanentError) : FailureKind :=
  if pe_kindSet e then pe_kind e
  else default FailureKindSystem (as_ kinder (Some (pe_err e))).
Definition failureReason (e : permanentError) : string :=
  if bool_decide (pe_reason e ≠ "") then pe_reason e else reasonOf (Some (pe_err e)).

Definition asPermanent (err : option goerr) : option permanentError :=
  as_ (λ e, match e with
            | EPermanent err k ks r => Some (mkPermanent err k ks r)
            | _ => None
            end) err.
Definition FailureInfo (err : option goerr) : FailureKind * string * bool :=
  match asPermanent err with
  | None => (FailureKindSystem, "", false)
  | Some pe => (failureKind pe, failureReason pe, true)
  end.
Definition FailureCause (err : option goerr) : option goerr := pe_err <$> asPermanent err.
Definition FailureReason (err : option goerr) : string := reasonOf err.

(** ** await.go *)

Inductive AwaitOption := WithAwaitTimeout (d : Duration) | WithCancelCascade.

Definition apply_await (e : Await * Duration) (o : AwaitOption) : Await * Duration :=
  let '(park, timeout) := e in
  match o with
  | WithAwaitTimeout d => (park, if (0 <? d)%Z then d else timeout)
  | WithCancelCascade =>
    (mkAwait (Await_Mode park) (Await_Targets park) (Await_Deadline park) true, timeout)
  end.

(** The loop of [dedupeRunIDs] over the ids, with those seen. *)
Fixpoint dedupe_in (seen : gset RunID) (ids : list RunID) : list RunID :=
  match ids with
  | [] => []
  | id :: ids =>
    if decide (id ∈ seen) then dedupe_in seen ids
    else id :: dedupe_in ({[id]} ∪ seen) ids
  end.
Definition dedupeRunIDs (ids : list RunID) : list RunID := dedupe_in ∅ ids.

Definition newAwait (mode : AwaitMode) (ids : list RunID) (opts : list AwaitOption) : goerr :=
  let '(park, timeout) :=
    foldl apply_await (mkAwait mode (dedupeRunIDs ids) time_zero false, 0%Z) opts in
  EAwait park timeout.
Definition AwaitRun (id : RunID) (opts : list AwaitOption) : goerr :=
  newAwait AwaitModeAll [id] opts.
Definition AwaitAll (ids : list RunID) (opts : list AwaitOption) : goerr :=
  newAwait AwaitModeAll ids opts.
Definition AwaitAny (ids : list RunID) (opts : list AwaitOption) : goerr :=
  newAwait AwaitModeAny ids opts.

Definition asAwait (err : option goerr) : option (Await * Duration) :=
  as_ (λ e, match e with EAwait park timeout => Some (park, timeout) | _ => None end) err.
Definition AwaitRequest (err : option goerr) : option Await := fst <$> asAwait err.
Definition AwaitTimeout (err : option goerr) : Duration :=
  match asAwait err with Some (_, timeout) => timeout | None => 0%Z end.

(** [strings.Join]. *)
Fixpoint join (sep : string) (l : list string) : string :=
  match l with
  | [] => ""
  | [s] => s
  | s :: l => s +:+ sep +:+ join sep l
  end.

(** The [Error] methods. *)
Fixpoint Error (e : goerr) : string :=
  match e with
  | EOther msg _ _ _ => msg
  | EPermanent err _ _ _ => "durable: permanent failure: " +:+ Error err
  | EAwait park _ =>
    match Await_Targets park with
    | [id] => "durable: awaiting run " +:+ id
    | ids =>
      "durable: awaiting " +:+ AwaitMode_String (Await_Mode park) +:+ " of runs [" +:+
        join " " ids +:+ "]"
    end
  | EPreempted cause =>
    if bool_decide (cause = "") then "durable: attempt preempted by cancellation"
    else "durable: attempt preempted by cancellation: " +:+ cause
  | EStopping => "durable: engine stopping"
  end.

(** ** Facts *)

Lemma dedupe_in_spec seen ids :
  NoDup (dedupe_in seen ids) ∧ sublist (dedupe_in seen ids) ids ∧
  (∀ id, id ∈ dedupe_in seen ids ↔ id ∈ ids ∧ id ∉ seen).
Proof.
  revert seen. induction ids as [|x ids IH]; intros seen; simpl.
  { split; [constructor|]. split; [constructor|]. set_solver. }
  case_decide as Hx.
  - destruct (IH seen) as (Hnd & Hsub & Hin). split; [done|]. split; [by constructor|].
    intros id. rewrite Hin. set_solver.
  - destruct (IH ({[x]} ∪ seen)) as (Hnd & Hsub & Hin). split.
    { apply NoDup_cons. split; [|done]. rewrite Hin. set_solver. }
    split; [by constructor|]. intros id. rewrite elem_of_cons, Hin.
    destruct (decide (id = x)); set_solver.
Qed.

Lemma foldl_options_err pe opts : pe_err (foldl apply_option pe opts) = pe_err pe.
Proof. revert pe. induction opts as [|[] opts IH]; intros pe; simpl; [done|by rewrite IH..]. Qed.

Definition is_user (o : FailOption) : bool := match o with WithUserKind => true | _ => false end.
Definition user_kind (opts : list FailOption) : bool := existsb is_user opts.
(** The last [WithReason]. *)
Definition last_reason (opts : list FailOption) : string :=
  foldl (λ r o, match o with WithReason r' => r' | _ => r end) "" opts.

Lemma foldl_options pe opts :
  foldl apply_option pe opts =
    mkPermanent (pe_err pe)
      (if user_kind opts then FailureKindUser else pe_kind pe)
      (user_kind opts || pe_kindSet pe)
      (foldl (λ r o, match o with WithReason r' => r' | _ => r end) (pe_reason pe) opts).
Proof.
  revert pe. induction opts as [|o opts IH]; intros pe; simpl; [by destruct pe|].
  rewrite IH. destruct o; simpl; [|done]. f_equal; by destruct (user_kind opts).
Qed.

(** An error that only wraps another: [fmt.Errorf] with one verb [%w]. *)
Definition wrap (msg : string) (e : goerr) : goerr := EOther msg None None [e].

Lemma chain_wrap msg e : chain (wrap msg e) = wrap msg e :: chain e.
Proof. simpl. by rewrite app_nil_r. Qed.

Lemma as_wrap {B} (f : goerr → option B) msg e :
  f (wrap msg e) = None → as_ f (Some (wrap msg e)) = as_ f (Some e).
Proof. intros Hf. unfold as_. cbn [mbind option_bind]. rewrite chain_wrap. simpl. by rewrite Hf. Qed.

Fixpoint wraps (msgs : list string) (e : goerr) : goerr :=
  match msgs with [] => e | m :: msgs => wrap m (wraps msgs e) end.

Lemma as_wraps {B} (f : goerr → option B) msgs e :
  (∀ m e, f (wrap m e) = None) → as_ f (Some (wraps msgs e)) = as_ f (Some e).
Proof.
  intros Hf. induction msgs as [|m msgs IH]; [done|]. cbn [wraps]. by rewrite as_wrap.
Qed.

(** ** Properties *)

(** A permanent failure is recognized through any wrapping, with its cause; an
    explicit kind or reason wins over what the cause carries, an absent or empty
    one falls back to the first of the cause's errors that has it, and then to the
    system kind and no reason. *)
Theorem Fail_recognized msgs err opts :
  let e := Some (wraps msgs (Fail (Some err) opts)) in
  FailureCause e = Some err ∧
  FailureInfo e =
    (if user_kind opts then FailureKindUser
     else default FailureKindSystem (as_ kinder (Some err)),
     if bool_decide (last_reason opts ≠ "") then last_reason opts
     else default "" (as_ reasoner (Some err)), true).
Proof.
  cbv zeta. unfold FailureCause, FailureInfo, asPermanent. rewrite as_wraps by done.
  unfold Fail. rewrite foldl_options. simpl. split; [done|].
  unfold failureKind, failureReason. simpl. rewrite orb_false_r.
  by destruct (user_kind opts).
Qed.

(** A park is recognized through any wrapping, with its targets in order and
    each once, the last positive timeout, and whether cancellation cascades. *)
Theorem Await_recognized msgs mode ids opts :
  let e := Some (wraps msgs (newAwait mode ids opts)) in
  ∃ park, AwaitRequest e = Some park ∧ Await_Mode park = mode ∧
    Await_Targets park = dedupeRunIDs ids ∧ NoDup (Await_Targets park) ∧
    sublist (Await_Targets park) ids ∧ (∀ id, id ∈ Await_Targets park ↔ id ∈ ids) ∧
    (Await_CancelCascade park = true ↔ WithCancelCascade ∈ opts) ∧
    AwaitTimeout e =
      foldl (λ t o, match o with
                    | WithAwaitTimeout d => if (0 <? d)%Z then d else t
                    | _ => t
                    end) 0%Z opts ∧
    asPermanent e = None.
Proof.
  cbv zeta. unfold AwaitRequest, AwaitTimeout, asAwait, asPermanent. rewrite !as_wraps by done.
  unfold newAwait.
  assert (∀ park t, ∃ park', foldl apply_await (park, t) opts =
    (park', foldl (λ t o, match o with
                          | WithAwaitTimeout d => if (0 <? d)%Z then d else t
                          | _ => t
                          end) t opts) ∧
    Await_Mode park' = Await_Mode park ∧ Await_Targets park' = Await_Targets park ∧
    (Await_CancelCascade park' = true ↔
     Await_CancelCascade park = true ∨ WithCancelCascade ∈ opts)) as Hf.
  { induction opts as [|o opts IH]; intros park t; simpl.
    { exists park. split; [done|]. do 2 (split; [done|]). rewrite elem_of_nil. tauto. }
    destruct o as [d|]; simpl.
    - destruct (IH park (if (0 <? d)%Z then d else t)) as (p & -> & ? & ? & Hc).
      exists p. do 3 (split; [done|]). rewrite Hc, elem_of_cons. naive_solver.
    - destruct (IH (mkAwait (Await_Mode park) (Await_Targets park) (Await_Deadline park) true) t)
        as (p & -> & ? & ? & Hc).
      exists p. do 3 (split; [done|]). rewrite Hc, elem_of_cons. simpl. naive_solver. }
  destruct (Hf (mkAwait mode (dedupeRunIDs ids) time_zero false) 0%Z) as (p & -> & Hm & Ht & Hc).
  destruct (dedupe_in_spec ∅ ids) as (Hnd & Hsub & Hin).
  exists p. simpl in *. rewrite Ht. do 5 (split; [done|]).
  split; [intros id; unfold dedupeRunIDs; rewrite Hin; set_solver|]. split; [|done].
  rewrite Hc. naive_solver.
Qed.
