(* ===== verification/Ledger.v ===== *)
(** * Ledger: reconciliation of execution facts (internal/ledger/ledger.go)

    Pure functions from the topology of a pipeline and the durable facts of a run
    to the next operation.  A Go [range] over a map visits its entries in an
    unspecified order: the scans take the visiting order as a list of entries,
    and [NextForward_deterministic] shows that the choice does not matter. *)
From S2P Require Import Prelude.

Inductive OpState := OpNone | OpUnresolved | OpSucceeded | OpFailed.
#[export] Instance OpState_eq_dec : EqDecision OpState.
Proof. solve_decision. Defined.

Record Step := mkStep {
  Step_ID : string;
  Step_Unwind : bool;
  Step_Retired : bool;
}.
#[export] Instance Step_eq_dec : EqDecision Step.
Proof. solve_decision. Defined.

Abbreviation Topology := (list Step).

(** [Topology.index]: the first position of a step id. *)
Fixpoint index (t : Topology) (id : string) : option nat :=
  match t with
  | [] => None
  | s :: t' => if bool_decide (Step_ID s = id) then Some 0 else S <$> index t' id
  end.

Record Facts := mkFacts {
  Facts_Forward : gmap string OpState;
  Facts_Unwind : gmap string OpState;
}.

Inductive Kind :=
| KindRunForward
| KindForwardComplete
| KindRunUnwind
| KindUnwindComplete
| KindInvalid.
#[export] Instance Kind_eq_dec : EqDecision Kind.
Proof. solve_decision. Defined.

Record Decision := mkDecision {
  Decision_Kind : Kind;
  Decision_Step : string;
  Decision_Reason : string;
}.

Definition invalid (reason : string) : Decision :=
  mkDecision KindInvalid "" reason.
Definition run_forward (id : string) : Decision := mkDecision KindRunForward id "".
Definition run_unwind (id : string) : Decision := mkDecision KindRunUnwind id "".

(** [f.Forward[id]] and [f.Unwind[id]]: absent reads as the zero value. *)
Definition fwd (f : Facts) (id : string) : OpState :=
  map_get OpNone (Facts_Forward f) id.
Definition unw (f : Facts) (id : string) : OpState :=
  map_get OpNone (Facts_Unwind f) id.

Definition sortedIDs (m : gmap string OpState) : list string :=
  sort_strings (map_to_list m).*1.

Definition multiple_forward (a b : string) : Decision :=
  invalid ("multiple unresolved forward operations: " +:+ a +:+ ", " +:+ b).
Definition forward_failed (id : string) : Decision :=
  invalid ("forward facts contain a permanent failure for step " +:+ id +:+
           " but the run is in the forward phase").
Definition forward_vanished : Decision :=
  invalid "unreachable: forward violation vanished on re-derivation".

Fixpoint forward_violation_in (f : Facts) (ids : list string) (unresolved : string)
    : Decision :=
  match ids with
  | [] => forward_vanished
  | id :: ids' =>
    match fwd f id with
    | OpUnresolved =>
      if bool_decide (unresolved ≠ "") then multiple_forward unresolved id
      else forward_violation_in f ids' id
    | OpFailed => forward_failed id
    | _ => forward_violation_in f ids' unresolved
    end
  end.

Definition forwardViolation (f : Facts) : Decision :=
  forward_violation_in f (sortedIDs (Facts_Forward f)) "".

Definition unwind_vanished : Decision :=
  invalid "unreachable: unwind violation vanished on re-derivation".

Fixpoint unwind_violation_in (f : Facts) (ids : list string) (seen : string)
    : Decision :=
  match ids with
  | [] => unwind_vanished
  | id :: ids' =>
    if bool_decide (unw f id = OpUnresolved) then
      if bool_decide (seen ≠ "") then
        invalid ("multiple unresolved unwind operations: " +:+ seen +:+ ", " +:+ id)
      else unwind_violation_in f ids' id
    else unwind_violation_in f ids' seen
  end.

Definition unwindViolation (f : Facts) : Decision :=
  unwind_violation_in f (sortedIDs (Facts_Unwind f)) "".

(** The scan that opens [NextForward]: [None] when it meets a violation,
    otherwise the unresolved step, or the empty string. *)
Fixpoint scan_forward (ord : list (string * OpState)) (unresolved : string)
    : option string :=
  match ord with
  | [] => Some unresolved
  | (id, st) :: ord' =>
    match st with
    | OpUnresolved =>
      if bool_decide (unresolved ≠ "") then None else scan_forward ord' id
    | OpFailed => None
    | _ => scan_forward ord' unresolved
    end
  end.

(** [frontier := -1; for i, s := range topo ...]: the last succeeded position. *)
Fixpoint forward_frontier (f : Facts) (i : Z) (topo : Topology) (frontier : Z) : Z :=
  match topo with
  | [] => frontier
  | s :: topo' =>
    forward_frontier f (i + 1) topo'
      (if bool_decide (fwd f (Step_ID s) = OpSucceeded) && (frontier <? i)%Z
       then i else frontier)
  end.

(** [for i := frontier + 1; i < len(topo); i++ ...] on the rest of the topology. *)
Fixpoint forward_rest (f : Facts) (topo : Topology) : Decision :=
  match topo with
  | [] => mkDecision KindForwardComplete "" ""
  | s :: topo' =>
    if Step_Retired s then forward_rest f topo'
    else if bool_decide (fwd f (Step_ID s) ≠ OpNone) then
      invalid ("inconsistent forward facts for step " +:+ Step_ID s)
    else run_forward (Step_ID s)
  end.

Definition NextForward_in (ord : list (string * OpState)) (topo : Topology) (f : Facts)
    : Decision :=
  match scan_forward ord "" with
  | None => forwardViolation f
  | Some unresolved =>
    if bool_decide (unresolved ≠ "") then
      match index topo unresolved with
      | None => invalid ("unresolved forward step " +:+ unresolved +:+
                         " is not present in the current pipeline definition")
      | Some _ => run_forward unresolved
      end
    else
      let frontier := forward_frontier f 0 topo (-1) in
      forward_rest f (drop (Z.to_nat (frontier + 1)) topo)
  end.

Definition NextForward (topo : Topology) (f : Facts) : Decision :=
  NextForward_in (map_to_list (Facts_Forward f)) topo f.

(** The scan that opens [NextUnwind]. *)
Fixpoint scan_unwind (ord : list (string * OpState)) (seen : string) : option string :=
  match ord with
  | [] => Some seen
  | (id, st) :: ord' =>
    if bool_decide (st = OpUnresolved) then
      if bool_decide (seen ≠ "") then None else scan_unwind ord' id
    else scan_unwind ord' seen
  end.

Definition unwind_resolved (f : Facts) (s : Step) : bool :=
  bool_decide (unw f (Step_ID s) = OpSucceeded) ||
  bool_decide (unw f (Step_ID s) = OpFailed).

(** [frontier := len(topo); for i, s := range topo ...]: the first resolved
    position. *)
Fixpoint unwind_frontier (f : Facts) (i : Z) (topo : Topology) (frontier : Z) : Z :=
  match topo with
  | [] => frontier
  | s :: topo' =>
    unwind_frontier f (i + 1) topo'
      (if unwind_resolved f s && (i <? frontier)%Z then i else frontier)
  end.

(** [for i := frontier - 1; i >= 0; i-- ...] on the reversed prefix. *)
Fixpoint unwind_rest (f : Facts) (rtopo : Topology) : Decision :=
  match rtopo with
  | [] => mkDecision KindUnwindComplete "" ""
  | s :: rtopo' =>
    if negb (Step_Unwind s) then unwind_rest f rtopo'
    else if bool_decide (fwd f (Step_ID s) ≠ OpSucceeded) then unwind_rest f rtopo'
    else match unw f (Step_ID s) with
         | OpNone | OpUnresolved => run_unwind (Step_ID s)
         | _ => unwind_rest f rtopo'
         end
  end.

Definition NextUnwind_in (ord : list (string * OpState)) (topo : Topology) (f : Facts)
    : Decision :=
  match scan_unwind ord "" with
  | None => unwindViolation f
  | Some _ =>
    let frontier := unwind_frontier f 0 topo (Z.of_nat (length topo)) in
    unwind_rest f (reverse (take (Z.to_nat frontier) topo))
  end.

Definition NextUnwind (topo : Topology) (f : Facts) : Decision :=
  NextUnwind_in (map_to_list (Facts_Unwind f)) topo f.

(** ** Abstract specification *)

(** Facts never leave an operation with an empty step id unresolved: Engine.Bind
    refuses empty step ids. *)
Definition named (m : gmap string OpState) : Prop := m !! "" ≠ Some OpUnresolved.

Definition no_unresolved (m : gmap string OpState) : Prop :=
  ∀ id, m !! id ≠ Some OpUnresolved.
Definition no_failed (m : gmap string OpState) : Prop :=
  ∀ id, m !! id ≠ Some OpFailed.

Definition succeeded (f : Facts) (s : Step) : Prop := fwd f (Step_ID s) = OpSucceeded.
Definition resolved (f : Facts) (s : Step) : Prop :=
  unw f (Step_ID s) = OpSucceeded ∨ unw f (Step_ID s) = OpFailed.
Definition eligible (f : Facts) (s : Step) : Prop :=
  Step_Unwind s = true ∧ succeeded f s.

(** [pre] ends at the forward frontier: it is empty or its last step succeeded. *)
Definition at_frontier (f : Facts) (pre : Topology) : Prop :=
  pre = [] ∨ ∃ p s, pre = p ++ [s] ∧ succeeded f s.
(** [post] starts at the unwind frontier. *)
Definition at_unwind_frontier (f : Facts) (post : Topology) : Prop :=
  post = [] ∨ ∃ s p, post = s :: p ∧ resolved f s.

Inductive ForwardSpec (topo : Topology) (f : Facts) : Decision → Prop :=
| FS_failed id :
    Facts_Forward f !! id = Some OpFailed →
    ForwardSpec topo f (forward_failed id)
| FS_multiple a b :
    a ≠ b → Facts_Forward f !! a = Some OpUnresolved →
    Facts_Forward f !! b = Some OpUnresolved →
    ForwardSpec topo f (multiple_forward a b)
| FS_pinned id n :
    no_failed (Facts_Forward f) →
    Facts_Forward f !! id = Some OpUnresolved →
    (∀ id', Facts_Forward f !! id' = Some OpUnresolved → id' = id) →
    index topo id = Some n →
    ForwardSpec topo f (run_forward id)
| FS_orphan id :
    no_failed (Facts_Forward f) →
    Facts_Forward f !! id = Some OpUnresolved →
    (∀ id', Facts_Forward f !! id' = Some OpUnresolved → id' = id) →
    index topo id = None →
    ForwardSpec topo f
      (invalid ("unresolved forward step " +:+ id +:+
                " is not present in the current pipeline definition"))
| FS_next pre mid s post :
    no_failed (Facts_Forward f) → no_unresolved (Facts_Forward f) →
    topo = pre ++ mid ++ s :: post →
    at_frontier f pre →
    Forall (λ x, Step_Retired x = true) mid →
    Step_Retired s = false → fwd f (Step_ID s) = OpNone →
    Forall (λ x, ¬ succeeded f x) (mid ++ s :: post) →
    ForwardSpec topo f (run_forward (Step_ID s))
| FS_complete pre mid :
    no_failed (Facts_Forward f) → no_unresolved (Facts_Forward f) →
    topo = pre ++ mid →
    at_frontier f pre →
    Forall (λ x, Step_Retired x = true ∧ ¬ succeeded f x) mid →
    ForwardSpec topo f (mkDecision KindForwardComplete "" "").

Inductive UnwindSpec (topo : Topology) (f : Facts) : Decision → Prop :=
| US_multiple a b :
    a ≠ b → Facts_Unwind f !! a = Some OpUnresolved →
    Facts_Unwind f !! b = Some OpUnresolved →
    UnwindSpec topo f
      (invalid ("multiple unresolved unwind operations: " +:+ a +:+ ", " +:+ b))
| US_next pre s mid post :
    topo = (pre ++ s :: mid) ++ post →
    at_unwind_frontier f post →
    Forall (λ x, ¬ resolved f x) (pre ++ s :: mid) →
    eligible f s →
    Forall (λ x, ¬ eligible f x) mid →
    UnwindSpec topo f (run_unwind (Step_ID s))
| US_complete pre post :
    topo = pre ++ post →
    at_unwind_frontier f post →
    Forall (λ x, ¬ resolved f x ∧ ¬ eligible f x) pre →
    UnwindSpec topo f (mkDecision KindUnwindComplete "" "").

(** Executing a decision: the reconciliation loop of a run whose operations
    resolve as the oracle says, with the steps executed in order. *)
Definition resolve_forward (f : Facts) (id : string) : Facts :=
  mkFacts (<[id := OpSucceeded]> (Facts_Forward f)) (Facts_Unwind f).
Definition resolve_unwind (f : Facts) (id : string) (st : OpState) : Facts :=
  mkFacts (Facts_Forward f) (<[id := st]> (Facts_Unwind f)).

Fixpoint drive_forward (fuel : nat) (topo : Topology) (f : Facts)
    : list string * Decision :=
  match fuel with
  | O => ([], invalid "out of fuel")
  | S fuel' =>
    let d := NextForward topo f in
    match Decision_Kind d with
    | KindRunForward =>
      let '(done, last) :=
        drive_forward fuel' topo (resolve_forward f (Decision_Step d)) in
      (Decision_Step d :: done, last)
    | _ => ([], d)
    end
  end.

Fixpoint drive_unwind (fuel : nat) (oracle : string → bool) (topo : Topology) (f : Facts)
    : list string * Decision :=
  match fuel with
  | O => ([], invalid "out of fuel")
  | S fuel' =>
    let d := NextUnwind topo f in
    match Decision_Kind d with
    | KindRunUnwind =>
      let id := Decision_Step d in
      let '(done, last) :=
        drive_unwind fuel' oracle topo
          (resolve_unwind f id (if oracle id then OpSucceeded else OpFailed)) in
      (id :: done, last)
    | _ => ([], d)
    end
  end.

(** ** The scans *)

Definition unresolved_ids (l : list (string * OpState)) : list string :=
  (filter (λ e, e.2 = OpUnresolved) l).*1.
Definition has_failed (l : list (string * OpState)) : Prop :=
  ∃ id, (id, OpFailed) ∈ l.

Lemma unresolved_ids_elem l id : id ∈ unresolved_ids l ↔ (id, OpUnresolved) ∈ l.
Proof.
  unfold unresolved_ids. rewrite list_elem_of_fmap. split.
  - intros ([id' st] & -> & [Hst Hin]%list_elem_of_filter). simpl in *. by subst.
  - intros Hin. exists (id, OpUnresolved). split; [done|].
    by apply list_elem_of_filter.
Qed.

Lemma unresolved_ids_nodup l : NoDup l.*1 → NoDup (unresolved_ids l).
Proof.
  unfold unresolved_ids. induction l as [|[id st] l IH]; intros Hnd; [constructor|].
  apply NoDup_cons in Hnd as [Hnin Hnd]. rewrite filter_cons. simpl in *.
  case_decide; [|by auto]. apply NoDup_cons. split; [|by auto].
  intros (e & He & [_ Hin]%list_elem_of_filter)%list_elem_of_fmap.
  apply Hnin, list_elem_of_fmap. by exists e.
Qed.

(** What a scan returns, given whether it met a failure. *)
Definition scan_result (acc : string) (ids : list string) : option string :=
  if bool_decide (acc = "") then
    match ids with [] => Some "" | [u] => Some u | _ => None end
  else match ids with [] => Some acc | _ => None end.

Lemma scan_unwind_spec l acc :
  Forall (.≠ "") (unresolved_ids l) →
  scan_unwind l acc = scan_result acc (unresolved_ids l).
Proof.
  unfold scan_result.
  revert acc; induction l as [|[id st] l IH]; intros acc Hn; simpl.
  { by case_bool_decide; subst. }
  unfold unresolved_ids in *. rewrite filter_cons in *. simpl in *.
  case_decide as Hst.
  - rewrite bool_decide_eq_true_2 by done. simpl in Hn. inversion Hn; subst.
    case_bool_decide as Hacc; [by rewrite bool_decide_eq_false_2|].
    rewrite IH, bool_decide_eq_false_2, bool_decide_eq_true_2 by (done || tauto).
    simpl. by destruct (filter _ l).
  - rewrite bool_decide_eq_false_2 by done. by apply IH.
Qed.

Lemma scan_forward_failed l acc : has_failed l → scan_forward l acc = None.
Proof.
  intros [id Hin]. revert acc; induction l as [|[id' st] l IH]; intros acc.
  { by apply not_elem_of_nil in Hin. }
  apply elem_of_cons in Hin as [[= <- <-]|Hin]; [done|]. simpl.
  destruct st; try case_bool_decide; auto.
Qed.

Lemma scan_forward_spec l acc :
  ¬ has_failed l → scan_forward l acc = scan_unwind l acc.
Proof.
  revert acc; induction l as [|[id st] l IH]; intros acc Hf; [done|]. simpl.
  assert (¬ has_failed l).
  { intros [id' Hin]. apply Hf. exists id'. by right. }
  destruct st; repeat case_bool_decide; try done; try by apply IH.
  exfalso. apply Hf. exists id. by left.
Qed.

Lemma has_failed_dec l : {has_failed l} + {¬ has_failed l}.
Proof.
  induction l as [|[id st] l IH].
  - right. intros [id H]. by apply not_elem_of_nil in H.
  - destruct (decide (st = OpFailed)) as [->|Hst].
    { left. exists id. by left. }
    destruct IH as [IH|IH]; [left|right].
    + destruct IH as [id' ?]. exists id'. by right.
    + intros [id' [[= _ <-]|?]%elem_of_cons]; [done|]. apply IH. by exists id'.
Qed.

(** A list of at most one element is determined by its multiset. *)
Lemma scan_result_perm acc l k : l ≡ₚ k → scan_result acc l = scan_result acc k.
Proof.
  intros H. unfold scan_result.
  destruct l as [|x [|y l]], k as [|u [|v k]];
    try (apply Permutation_length in H; simpl in H; lia); try done.
  apply Permutation_singleton_inj in H as ->. done.
Qed.

Lemma unresolved_ids_perm l k : l ≡ₚ k → unresolved_ids l ≡ₚ unresolved_ids k.
Proof. intros H. unfold unresolved_ids. by rewrite H. Qed.

Lemma has_failed_perm l k : l ≡ₚ k → has_failed l → has_failed k.
Proof. intros H [id ?]. exists id. by rewrite <-H. Qed.

Lemma map_order_named m l :
  map_order m l → named m → Forall (.≠ "") (unresolved_ids l).
Proof.
  intros Hl Hn. apply Forall_forall. intros id Hid ->.
  apply unresolved_ids_elem, (map_order_elem _ _ _ _ Hl) in Hid. done.
Qed.

Lemma scan_forward_perm l k acc :
  l ≡ₚ k → Forall (.≠ "") (unresolved_ids l) →
  scan_forward l acc = scan_forward k acc.
Proof.
  intros H Hn. destruct (has_failed_dec l) as [Hf|Hf].
  - rewrite !scan_forward_failed; eauto using has_failed_perm.
  - rewrite !scan_forward_spec; [|by eauto using has_failed_perm, Permutation_sym|done].
    rewrite !scan_unwind_spec; [|by rewrite <-(unresolved_ids_perm _ _ H)|done].
    by apply scan_result_perm, unresolved_ids_perm.
Qed.

Lemma scan_unwind_perm l k acc :
  l ≡ₚ k → Forall (.≠ "") (unresolved_ids l) →
  scan_unwind l acc = scan_unwind k acc.
Proof.
  intros H Hn. rewrite !scan_unwind_spec; [|by rewrite <-(unresolved_ids_perm _ _ H)|done].
  by apply scan_result_perm, unresolved_ids_perm.
Qed.

(** ** Violations are re-derived, never lost *)

Lemma fwd_lookup f id st : st ≠ OpNone → fwd f id = st ↔ Facts_Forward f !! id = Some st.
Proof. unfold fwd, map_get. intros. destruct (_ !! id); simpl; naive_solver. Qed.

Lemma unw_lookup f id st : st ≠ OpNone → unw f id = st ↔ Facts_Unwind f !! id = Some st.
Proof. unfold unw, map_get. intros. destruct (_ !! id); simpl; naive_solver. Qed.

Lemma sorted_entries_perm m :
  (λ id, (id, map_get OpNone m id)) <$> sortedIDs m ≡ₚ map_to_list m.
Proof.
  unfold sortedIDs. rewrite sort_strings_perm. by rewrite map_keys_entries.
Qed.

Lemma sorted_entries_forward f :
  (λ id, (id, fwd f id)) <$> sortedIDs (Facts_Forward f) ≡ₚ
  map_to_list (Facts_Forward f).
Proof. apply sorted_entries_perm. Qed.

Lemma sorted_entries_unwind f :
  (λ id, (id, unw f id)) <$> sortedIDs (Facts_Unwind f) ≡ₚ
  map_to_list (Facts_Unwind f).
Proof. apply sorted_entries_perm. Qed.

Lemma sortedIDs_nodup m : NoDup (sortedIDs m).
Proof. unfold sortedIDs. rewrite sort_strings_perm. apply NoDup_fst_map_to_list. Qed.

Lemma forward_violation_cases f topo ids acc :
  NoDup ids → acc ∉ ids → (acc = "" ∨ fwd f acc = OpUnresolved) →
  ForwardSpec topo f (forward_violation_in f ids acc) ∨
  scan_forward ((λ id, (id, fwd f id)) <$> ids) acc ≠ None.
Proof.
  revert acc; induction ids as [|id ids IH]; intros acc Hnd Hacc Hu; [by right|].
  apply NoDup_cons in Hnd as [Hnin Hnd]. apply not_elem_of_cons in Hacc as [Hne Hacc].
  simpl. destruct (fwd f id) eqn:Hid; try (apply IH; done).
  - case_bool_decide as Hb; [|by apply IH; auto]. left. destruct Hu as [|Hu]; [done|].
    apply FS_multiple; [done|by apply fwd_lookup..].
  - left. apply FS_failed. by apply fwd_lookup.
Qed.

Lemma forwardViolation_spec topo f :
  named (Facts_Forward f) →
  scan_forward (map_to_list (Facts_Forward f)) "" = None →
  ForwardSpec topo f (forwardViolation f).
Proof.
  intros Hn Hs. pose proof (sorted_entries_forward f) as Hperm.
  rewrite <-(scan_forward_perm _ _ "" Hperm) in Hs.
  2:{ rewrite unresolved_ids_perm by exact Hperm.
      eapply map_order_named; [apply map_order_canonical|done]. }
  unfold forwardViolation. revert Hs. clear Hperm.
  generalize (sortedIDs_nodup (Facts_Forward f)).
  generalize (sortedIDs (Facts_Forward f)) as ids.
  induction ids as [|id ids IH]; intros Hnd Hs; [done|].
  apply NoDup_cons in Hnd as [Hnin Hnd]. revert Hs. simpl.
  destruct (fwd f id) eqn:Hid; try (apply IH; done).
  - intros Hs.
    destruct (forward_violation_cases f topo ids id Hnd Hnin (or_intror Hid))
      as [?|Hc]; [done|].
    by destruct Hc.
  - intros _. apply FS_failed. by apply fwd_lookup.
Qed.

Lemma unwind_violation_cases f topo ids acc :
  NoDup ids → acc ∉ ids → unw f acc = OpUnresolved →
  UnwindSpec topo f (unwind_violation_in f ids acc) ∨
  scan_unwind ((λ id, (id, unw f id)) <$> ids) acc ≠ None.
Proof.
  revert acc; induction ids as [|id ids IH]; intros acc Hnd Hacc Hu; [by right|].
  apply NoDup_cons in Hnd as [Hnin Hnd]. apply not_elem_of_cons in Hacc as [Hne Hacc].
  simpl. case_bool_decide as Hid; [|by apply IH].
  case_bool_decide as Hb; [|by apply IH]. left.
  apply US_multiple; [done|by apply unw_lookup..].
Qed.

Lemma unwindViolation_spec topo f :
  named (Facts_Unwind f) →
  scan_unwind (map_to_list (Facts_Unwind f)) "" = None →
  UnwindSpec topo f (unwindViolation f).
Proof.
  intros Hn Hs. pose proof (sorted_entries_unwind f) as Hperm.
  rewrite <-(scan_unwind_perm _ _ "" Hperm) in Hs.
  2:{ rewrite unresolved_ids_perm by exact Hperm.
      eapply map_order_named; [apply map_order_canonical|done]. }
  unfold unwindViolation. revert Hs. clear Hperm.
  generalize (sortedIDs_nodup (Facts_Unwind f)).
  generalize (sortedIDs (Facts_Unwind f)) as ids.
  induction ids as [|id ids IH]; intros Hnd Hs; [done|].
  apply NoDup_cons in Hnd as [Hnin Hnd]. revert Hs. simpl.
  case_bool_decide as Hid; [|by apply IH].
  intros Hs.
  destruct (unwind_violation_cases f topo ids id Hnd Hnin) as [?|Hc]; [done..|].
  by destruct Hc.
Qed.

(** ** Frontiers *)

Lemma unwind_resolved_spec f s : unwind_resolved f s = true ↔ resolved f s.
Proof.
  unfold unwind_resolved, resolved.
  rewrite orb_true_iff, !bool_decide_eq_true. done.
Qed.

Lemma forward_frontier_split f i topo fr :
  (fr < i)%Z →
  ∃ pre post, topo = pre ++ post ∧ Forall (λ x, ¬ succeeded f x) post ∧
    at_frontier f pre ∧
    forward_frontier f i topo fr =
      if bool_decide (pre = []) then fr else (i + Z.of_nat (length pre) - 1)%Z.
Proof.
  revert i fr; induction topo as [|s topo IH]; intros i fr Hlt.
  { exists [], []. repeat split; try constructor; done. }
  simpl. rewrite (proj2 (Z.ltb_lt fr i)) by done. rewrite andb_true_r.
  destruct (IH (i + 1)%Z (if bool_decide (fwd f (Step_ID s) = OpSucceeded) then i else fr))
    as (pre & post & -> & Hpost & Hpre & ->); [case_bool_decide; lia|].
  destruct pre as [|p pre].
  - rewrite (bool_decide_eq_true_2 ([] = [])) by done. case_bool_decide as Hs.
    + exists [s], post. repeat split; [done| |simpl; lia].
      right. by exists [], s.
    + exists [], (s :: post). repeat split; [|by left]. by constructor.
  - exists (s :: p :: pre), post. repeat split; [done| |simpl; lia].
    right. destruct Hpre as [|(q & t & -> & Ht)]; [done|]. by exists (s :: q), t.
Qed.

Lemma unwind_frontier_found f i topo fr :
  (fr <= i)%Z → unwind_frontier f i topo fr = fr.
Proof.
  revert i; induction topo as [|s topo IH]; intros i Hle; [done|]. simpl.
  rewrite (proj2 (Z.ltb_ge i fr)), andb_false_r by done. apply IH; lia.
Qed.

Lemma unwind_frontier_split f i topo :
  ∃ pre post, topo = pre ++ post ∧ Forall (λ x, ¬ resolved f x) pre ∧
    at_unwind_frontier f post ∧
    unwind_frontier f i topo (i + Z.of_nat (length topo)) =
      (i + Z.of_nat (length pre))%Z.
Proof.
  revert i; induction topo as [|s topo IH]; intros i.
  { exists [], []. repeat split; [constructor|by left]. }
  replace (i + Z.of_nat (length (s :: topo)))%Z
    with (i + 1 + Z.of_nat (length topo))%Z by (simpl; lia).
  simpl unwind_frontier.
  rewrite (proj2 (Z.ltb_lt i _)) by lia. rewrite andb_true_r.
  destruct (unwind_resolved f s) eqn:Hs.
  - exists [], (s :: topo). apply unwind_resolved_spec in Hs.
    repeat split; [constructor|right; by exists s, topo|].
    rewrite unwind_frontier_found by lia. simpl; lia.
  - destruct (IH (i + 1)%Z) as (pre & post & -> & Hpre & Hpost & He).
    exists (s :: pre), post. repeat split; [|done|].
    + constructor; [|done]. rewrite <-unwind_resolved_spec. by rewrite Hs.
    + rewrite He. simpl; lia.
Qed.

Lemma forward_rest_spec f post :
  (∀ id, fwd f id ≠ OpUnresolved) → (∀ id, fwd f id ≠ OpFailed) →
  Forall (λ x, ¬ succeeded f x) post →
  (∃ mid s rest, post = mid ++ s :: rest ∧
    Forall (λ x, Step_Retired x = true) mid ∧ Step_Retired s = false ∧
    fwd f (Step_ID s) = OpNone ∧ forward_rest f post = run_forward (Step_ID s)) ∨
  (Forall (λ x, Step_Retired x = true ∧ ¬ succeeded f x) post ∧
   forward_rest f post = mkDecision KindForwardComplete "" "").
Proof.
  intros Hu Hf. induction 1 as [|s post Hs Hpost IH]; [right; by split|]. simpl.
  destruct (Step_Retired s) eqn:Hr.
  - destruct IH as [(mid & t & rest & -> & Hmid & Ht)|[Hall ->]].
    + left. exists (s :: mid), t, rest. split; [done|]. split; [by constructor|done].
    + right. split; [by constructor|done].
  - assert (fwd f (Step_ID s) = OpNone) as Hn.
    { unfold succeeded in Hs. specialize (Hu (Step_ID s)). specialize (Hf (Step_ID s)).
      by destruct (fwd f (Step_ID s)). }
    rewrite bool_decide_eq_false_2 by tauto. left. by exists [], s, post.
Qed.

(** The loop of [NextUnwind] runs over the reversed prefix below the frontier. *)
Lemma unwind_rest_spec f pre :
  Forall (λ x, ¬ resolved f x) pre →
  (∃ p s mid, pre = p ++ s :: mid ∧ eligible f s ∧ Forall (λ x, ¬ eligible f x) mid ∧
    unwind_rest f (reverse pre) = run_unwind (Step_ID s)) ∨
  (Forall (λ x, ¬ eligible f x) pre ∧
   unwind_rest f (reverse pre) = mkDecision KindUnwindComplete "" "").
Proof.
  induction pre as [|s pre IH] using rev_ind; intros Hres; [right; by split|].
  apply Forall_app in Hres as [Hres Hs]. rewrite Forall_singleton in Hs.
  rewrite reverse_app. change (reverse [s] ++ reverse pre) with (s :: reverse pre).
  assert (eligible f s ∧ unwind_rest f (s :: reverse pre) = run_unwind (Step_ID s) ∨
          ¬ eligible f s ∧ unwind_rest f (s :: reverse pre) = unwind_rest f (reverse pre))
    as [[He Heq]|[He Heq]].
  { simpl. unfold eligible, succeeded, resolved in *.
    destruct (Step_Unwind s); simpl; [|right; naive_solver].
    case_bool_decide as Hf; [right; naive_solver|].
    left. destruct (unw f (Step_ID s)); try done; exfalso; apply Hs; auto. }
  - left. exists pre, s, []. by split_and!.
  - specialize (IH Hres) as [(p & t & mid & -> & Ht & Hmid & Hr)|[Hall Hr]].
    + left. exists p, t, (mid ++ [s]). rewrite <-app_assoc. split; [done|].
      split; [done|]. split; [|by rewrite Heq, Hr].
      apply Forall_app; split; [done|by constructor].
    + right. split; [|by rewrite Heq, Hr].
      apply Forall_app; split; [done|by constructor].
Qed.

(** ** The two reconciliations meet their specification *)

Lemma NextForward_in_perm ord topo f :
  map_order (Facts_Forward f) ord → named (Facts_Forward f) →
  NextForward_in ord topo f = NextForward topo f.
Proof.
  intros Hord Hn. unfold NextForward, NextForward_in.
  rewrite (scan_forward_perm ord (map_to_list (Facts_Forward f))); [done|done|].
  by eapply map_order_named.
Qed.

Lemma NextUnwind_in_perm ord topo f :
  map_order (Facts_Unwind f) ord → named (Facts_Unwind f) →
  NextUnwind_in ord topo f = NextUnwind topo f.
Proof.
  intros Hord Hn. unfold NextUnwind, NextUnwind_in.
  rewrite (scan_unwind_perm ord (map_to_list (Facts_Unwind f))); [done|done|].
  by eapply map_order_named.
Qed.

Lemma canonical_named m :
  named m → Forall (.≠ "") (unresolved_ids (map_to_list m)).
Proof. apply map_order_named, map_order_canonical. Qed.

Lemma scan_forward_Some f u :
  named (Facts_Forward f) →
  scan_forward (map_to_list (Facts_Forward f)) "" = Some u →
  no_failed (Facts_Forward f) ∧
  (u = "" ∧ no_unresolved (Facts_Forward f) ∨
   u ≠ "" ∧ Facts_Forward f !! u = Some OpUnresolved ∧
   ∀ id, Facts_Forward f !! id = Some OpUnresolved → id = u).
Proof.
  intros Hn Hs. pose proof (canonical_named _ Hn) as Hids.
  destruct (has_failed_dec (map_to_list (Facts_Forward f))) as [Hf|Hf].
  { by rewrite scan_forward_failed in Hs. }
  split.
  { intros id Hid. apply Hf. exists id. by apply elem_of_map_to_list. }
  rewrite scan_forward_spec, scan_unwind_spec in Hs by done.
  assert (∀ id, id ∈ unresolved_ids (map_to_list (Facts_Forward f)) ↔
                Facts_Forward f !! id = Some OpUnresolved) as Hin.
  { intros id. by rewrite unresolved_ids_elem, elem_of_map_to_list. }
  unfold scan_result in Hs. simpl in Hs.
  destruct (unresolved_ids _) as [|v [|w ids]]; simplify_eq.
  - left. split; [done|]. intros id Hid%Hin. by apply not_elem_of_nil in Hid.
  - right. inversion Hids; subst. split; [done|]. split.
    + apply Hin. by left.
    + intros id Hid%Hin. by apply list_elem_of_singleton in Hid.
Qed.

Lemma NextForward_sound topo f :
  named (Facts_Forward f) → ForwardSpec topo f (NextForward topo f).
Proof.
  intros Hn. unfold NextForward, NextForward_in.
  destruct (scan_forward _ "") as [u|] eqn:Hs; [|by apply forwardViolation_spec].
  apply scan_forward_Some in Hs as (Hf & [(-> & Hu)|(Hu & Hid & Huniq)]); [| |done].
  2:{ rewrite bool_decide_eq_true_2 by done.
      destruct (index topo u) eqn:Hix; [by eapply FS_pinned|by eapply FS_orphan]. }
  simpl. destruct (forward_frontier_split f 0 topo (-1)) as (pre & post & -> & Hpost & Hpre & ->);
    [done|].
  assert (drop (Z.to_nat ((if bool_decide (pre = []) then -1 else 0 + Z.of_nat (length pre) - 1) + 1))
    (pre ++ post) = post) as ->.
  { case_bool_decide; [by subst|].
    replace (Z.to_nat _) with (length pre) by lia. by rewrite drop_app_length. }
  destruct (forward_rest_spec f post) as [(mid & s & rest & -> & Hmid & Hr & Hnone & ->)|[Hall ->]].
  - intros id H%fwd_lookup; [|done]. by apply (Hu id).
  - intros id H%fwd_lookup; [|done]. by apply (Hf id).
  - done.
  - by eapply FS_next.
  - by eapply FS_complete.
Qed.

Lemma NextUnwind_sound topo f :
  named (Facts_Unwind f) → UnwindSpec topo f (NextUnwind topo f).
Proof.
  intros Hn. unfold NextUnwind, NextUnwind_in.
  destruct (scan_unwind _ "") as [u|] eqn:Hs; [|by apply unwindViolation_spec].
  destruct (unwind_frontier_split f 0 topo) as (pre & post & Htopo & Hres & Hpost & Hfr).
  rewrite !Z.add_0_l in Hfr. rewrite Hfr, Nat2Z.id. subst topo.
  rewrite take_app_length.
  destruct (unwind_rest_spec f pre Hres) as [(p & s & mid & -> & He & Hmid & ->)|[Hall ->]].
  - by eapply US_next.
  - eapply US_complete; [done..|]. apply Forall_forall. intros x Hx.
    split; [by eapply Forall_forall in Hres|by eapply Forall_forall in Hall].
Qed.

(** *** A decision names a step of the topology *)

Lemma forwardViolation_kind f : Decision_Kind (forwardViolation f) = KindInvalid.
Proof.
  unfold forwardViolation. generalize (sortedIDs (Facts_Forward f)) ""; intros ids.
  induction ids as [|id ids IH]; intros u; simpl; [done|].
  destruct (fwd f id); [auto|case_bool_decide; [done|auto]|auto|done].
Qed.
Lemma unwindViolation_kind f : Decision_Kind (unwindViolation f) = KindInvalid.
Proof.
  unfold unwindViolation. generalize (sortedIDs (Facts_Unwind f)) ""; intros ids.
  induction ids as [|id ids IH]; intros u; simpl; [done|].
  case_bool_decide; [case_bool_decide; [done|auto]|auto].
Qed.

Lemma index_elem topo id : is_Some (index topo id) → id ∈ Step_ID <$> topo.
Proof.
  induction topo as [|s topo IH]; simpl; [by intros [? ?]|].
  case_bool_decide as Hs; [intros _; subst; left|].
  intros Hi. right. apply IH. destruct (index topo id); [by eexists|by destruct Hi].
Qed.

Lemma forward_rest_step f topo d :
  forward_rest f topo = d →
  (Decision_Kind d = KindRunForward → Decision_Step d ∈ Step_ID <$> topo) ∧
  Decision_Kind d ≠ KindRunUnwind ∧ Decision_Kind d ≠ KindUnwindComplete.
Proof.
  intros <-. induction topo as [|s topo [IH1 IH2]]; simpl; [done|].
  destruct (Step_Retired s); [split; [intros H; right; by apply IH1|done]|].
  case_bool_decide; [done|]. split; [intros _; left|done].
Qed.

Lemma NextForward_step topo f :
  let d := NextForward topo f in
  (Decision_Kind d = KindRunForward → Decision_Step d ∈ Step_ID <$> topo) ∧
  Decision_Kind d ≠ KindRunUnwind ∧ Decision_Kind d ≠ KindUnwindComplete.
Proof.
  intros d. unfold d, NextForward, NextForward_in.
  destruct (scan_forward _ "") as [u|].
  2:{ by rewrite forwardViolation_kind. }
  case_bool_decide as Hu.
  - destruct (index topo u) eqn:Hi; [|done]. split; [|done]. intros _. simpl.
    apply index_elem. by rewrite Hi.
  - edestruct (forward_rest_step f (drop (Z.to_nat (forward_frontier f 0 topo (-1) + 1)) topo))
      as [H1 H2]; [done|]. split; [|done]. intros H%H1.
    apply list_elem_of_fmap in H as (s & -> & Hs). apply list_elem_of_fmap. exists s.
    split; [done|]. by eapply subseteq_drop.
Qed.

Lemma unwind_rest_step f topo d :
  unwind_rest f topo = d →
  (Decision_Kind d = KindRunUnwind → Decision_Step d ∈ Step_ID <$> topo) ∧
  Decision_Kind d ≠ KindRunForward ∧ Decision_Kind d ≠ KindForwardComplete.
Proof.
  intros <-. induction topo as [|s topo [IH1 IH2]]; simpl; [done|].
  assert ((Decision_Kind (unwind_rest f topo) = KindRunUnwind →
    Decision_Step (unwind_rest f topo) ∈ Step_ID s :: (Step_ID <$> topo)) ∧
    Decision_Kind (unwind_rest f topo) ≠ KindRunForward ∧
    Decision_Kind (unwind_rest f topo) ≠ KindForwardComplete) as IH.
  { split; [intros H; right; by apply IH1|done]. }
  destruct (negb (Step_Unwind s)); [done|]. case_bool_decide; [done|].
  destruct (unw f (Step_ID s)); try done; split; try done; intros _; left.
Qed.

Lemma NextUnwind_step topo f :
  let d := NextUnwind topo f in
  (Decision_Kind d = KindRunUnwind → Decision_Step d ∈ Step_ID <$> topo) ∧
  Decision_Kind d ≠ KindRunForward ∧ Decision_Kind d ≠ KindForwardComplete.
Proof.
  intros d. unfold d, NextUnwind, NextUnwind_in.
  destruct (scan_unwind _ "") as [u|].
  2:{ by rewrite unwindViolation_kind. }
  edestruct unwind_rest_step as [H1 H2]; [reflexivity|]. split; [|exact H2]. intros H%H1.
  apply list_elem_of_fmap in H as (s & -> & Hs). apply list_elem_of_fmap. exists s.
  split; [done|]. rewrite elem_of_reverse in Hs. apply elem_of_take in Hs as (i & Hi & _). by eapply list_elem_of_lookup_2.
Qed.

(** ** Whole passes *)

Lemma resolve_forward_succeeded f id s :
  succeeded (resolve_forward f id) s ↔ Step_ID s = id ∨ succeeded f s.
Proof.
  unfold succeeded, fwd, map_get, resolve_forward. simpl.
  rewrite lookup_insert. case_decide; simpl; naive_solver.
Qed.

Lemma resolve_forward_none f id x :
  x ≠ id → fwd (resolve_forward f id) x = fwd f x.
Proof. intros. unfold fwd, map_get. simpl. by rewrite lookup_insert_ne. Qed.

Lemma resolve_unwind_other f id st x :
  x ≠ id → unw (resolve_unwind f id st) x = unw f x.
Proof. intros. unfold unw, map_get. simpl. by rewrite lookup_insert_ne. Qed.

(** Settled facts: nothing is unresolved or failed. *)
Definition settled (m : gmap string OpState) : Prop := no_failed m ∧ no_unresolved m.

Lemma settled_named m : settled m → named m.
Proof. intros [_ H]. apply H. Qed.

Lemma settled_insert m id : settled m → settled (<[id := OpSucceeded]> m).
Proof.
  intros [Hf Hu]. split; intros id'; rewrite lookup_insert; case_decide; done || auto.
Qed.

Lemma settled_unresolved_ids m :
  no_unresolved m → unresolved_ids (map_to_list m) = [].
Proof.
  intros Hu. destruct (unresolved_ids _) as [|v l] eqn:Hl; [done|].
  assert (v ∈ unresolved_ids (map_to_list m)) as Hv by (rewrite Hl; left).
  apply unresolved_ids_elem, elem_of_map_to_list in Hv. by apply Hu in Hv.
Qed.

Lemma settled_scan m : settled m → scan_forward (map_to_list m) "" = Some "".
Proof.
  intros Hset. rewrite scan_forward_spec, scan_unwind_spec.
  - by rewrite settled_unresolved_ids by apply Hset.
  - by apply canonical_named, settled_named.
  - intros [id Hid]. apply elem_of_map_to_list in Hid. by apply Hset in Hid.
Qed.

Lemma at_frontier_nil f pre k :
  at_frontier f (pre ++ k) → Forall (λ x, ¬ succeeded f x) k → k = [].
Proof.
  intros [Hnil|(p & s & Hp & Hs)] Hk; [by apply app_eq_nil in Hnil as [_ ->]|].
  destruct k as [|t k _] using rev_ind; [done|].
  rewrite app_assoc in Hp. apply app_inj_tail in Hp as [_ ->].
  apply Forall_app in Hk as [_ Hk]. by inversion Hk.
Qed.

(** The forward frontier splits a topology in one way. *)
Lemma at_frontier_unique f pre post pre' post' :
  pre ++ post = pre' ++ post' →
  at_frontier f pre → Forall (λ x, ¬ succeeded f x) post →
  at_frontier f pre' → Forall (λ x, ¬ succeeded f x) post' →
  pre = pre'.
Proof.
  intros Heq Hpre Hpost Hpre' Hpost'.
  apply app_eq_inv in Heq as [(k & -> & ->)|(k & -> & ->)].
  - apply Forall_app in Hpost' as [Hk _].
    by rewrite (at_frontier_nil f pre' k), app_nil_r.
  - apply Forall_app in Hpost as [Hk _].
    by rewrite (at_frontier_nil f pre k), app_nil_r.
Qed.

(** On settled facts the decision is read off a topology split at its frontier. *)
Lemma NextForward_split pre post f :
  settled (Facts_Forward f) → at_frontier f pre →
  Forall (λ x, ¬ succeeded f x) post →
  NextForward (pre ++ post) f = forward_rest f post.
Proof.
  intros Hset Hpre Hpost. unfold NextForward, NextForward_in.
  rewrite settled_scan by done. simpl.
  destruct (forward_frontier_split f 0 (pre ++ post) (-1))
    as (pre' & post' & Heq & Hpost' & Hpre' & ->); [done|].
  assert (pre = pre') as <- by eauto using at_frontier_unique.
  apply app_inv_head in Heq as <-. f_equal.
  case_bool_decide; [by subst|].
  replace (Z.to_nat _) with (length pre) by lia. by rewrite drop_app_length.
Qed.

Lemma drive_forward_split fuel pre post f :
  settled (Facts_Forward f) → at_frontier f pre →
  NoDup (Step_ID <$> post) → Forall (λ x, fwd f (Step_ID x) = OpNone) post →
  length post < fuel →
  drive_forward fuel (pre ++ post) f =
    (Step_ID <$> filter (λ x, Step_Retired x = false) post,
     mkDecision KindForwardComplete "" "").
Proof.
  revert pre post f; induction fuel as [|fuel IH]; intros pre post f Hset Hpre Hnd Hnone Hlen;
    [lia|].
  simpl. rewrite NextForward_split; [|done..|].
  2:{ eapply Forall_impl; [exact Hnone|]. unfold succeeded. intros x ->. done. }
  clear Hpre. revert pre. induction post as [|s post IHpost]; intros pre; [done|].
  apply NoDup_cons in Hnd as [Hnin Hnd]. apply Forall_cons in Hnone as [Hs Hnone].
  simpl. rewrite filter_cons. destruct (Step_Retired s) eqn:Hr.
  - (* a retired step is passed over *)
    rewrite decide_False by done. simpl in Hlen.
    specialize (IHpost Hnd Hnone ltac:(lia) (pre ++ [s])).
    rewrite <-app_assoc in IHpost. exact IHpost.
  - rewrite bool_decide_eq_false_2 by tauto. rewrite decide_True by done. simpl.
    rewrite cons_middle, app_assoc, IH; [done| |right; exists pre, s|done| |simpl in *; lia].
    + by apply settled_insert.
    + split; [done|]. apply resolve_forward_succeeded. by left.
    + apply Forall_forall. intros x Hx. rewrite resolve_forward_none.
      * by eapply Forall_forall in Hnone.
      * intros Heq. apply Hnin. rewrite <-Heq. by apply list_elem_of_fmap_2.
Qed.

#[export] Instance eligible_dec f s : base.Decision (eligible f s).
Proof. unfold eligible, succeeded. apply _. Defined.

Lemma at_unwind_frontier_nil f k post :
  at_unwind_frontier f (k ++ post) → Forall (λ x, ¬ resolved f x) k → k = [].
Proof.
  intros [Hnil|(s & p & Hp & Hs)] Hk; [by apply app_eq_nil in Hnil as [-> _]|].
  destruct k as [|t k]; [done|]. simplify_eq/=. by inversion Hk.
Qed.

Lemma at_unwind_frontier_unique f pre post pre' post' :
  pre ++ post = pre' ++ post' →
  Forall (λ x, ¬ resolved f x) pre → at_unwind_frontier f post →
  Forall (λ x, ¬ resolved f x) pre' → at_unwind_frontier f post' →
  pre = pre'.
Proof.
  intros Heq Hpre Hpost Hpre' Hpost'.
  apply app_eq_inv in Heq as [(k & -> & ->)|(k & -> & ->)].
  - apply Forall_app in Hpre as [_ Hk].
    by rewrite (at_unwind_frontier_nil f k post), app_nil_r.
  - apply Forall_app in Hpre' as [_ Hk].
    by rewrite (at_unwind_frontier_nil f k post'), app_nil_r.
Qed.

Lemma NextUnwind_split pre post f :
  no_unresolved (Facts_Unwind f) → Forall (λ x, ¬ resolved f x) pre →
  at_unwind_frontier f post →
  NextUnwind (pre ++ post) f = unwind_rest f (reverse pre).
Proof.
  intros Hu Hpre Hpost. unfold NextUnwind, NextUnwind_in.
  rewrite scan_unwind_spec by (apply canonical_named, Hu).
  rewrite settled_unresolved_ids by done. simpl.
  destruct (unwind_frontier_split f 0 (pre ++ post))
    as (pre' & post' & Heq & Hpre' & Hpost' & Hfr).
  rewrite !Z.add_0_l in Hfr. rewrite Hfr, Nat2Z.id.
  assert (pre = pre') as <- by eauto using at_unwind_frontier_unique.
  by rewrite take_app_length.
Qed.

Lemma drive_unwind_split fuel oracle pre post f :
  no_unresolved (Facts_Unwind f) → Forall (λ x, ¬ resolved f x) pre →
  at_unwind_frontier f post → NoDup (Step_ID <$> pre) → length pre < fuel →
  drive_unwind fuel oracle (pre ++ post) f =
    (reverse (Step_ID <$> filter (eligible f) pre),
     mkDecision KindUnwindComplete "" "").
Proof.
  revert pre post f; induction fuel as [|fuel IH]; intros pre post f Hu Hpre Hpost Hnd Hlen;
    [lia|].
  simpl. rewrite NextUnwind_split by done.
  destruct (unwind_rest_spec f pre Hpre) as [(p & s & mid & -> & He & Hmid & ->)|[Hall ->]].
  2:{ by rewrite list_filter_none. }
  simpl. rewrite fmap_app in Hnd.
  apply NoDup_app in Hnd as (Hndp & Hdisj & _).
  apply Forall_app in Hpre as [Hp _].
  set (st := if oracle (Step_ID s) then OpSucceeded else OpFailed).
  assert (st ≠ OpUnresolved) as Hst by (unfold st; by destruct (oracle _)).
  rewrite <-app_assoc. simpl. rewrite IH; [| | | |done|rewrite length_app in Hlen; simpl in Hlen; lia].
  - rewrite filter_app, filter_cons_True, (list_filter_none _ mid) by done.
    rewrite fmap_app. simpl. by rewrite reverse_snoc.
  - intros id. simpl. rewrite lookup_insert. case_decide; [congruence|apply Hu].
  - apply Forall_forall. intros x Hx. unfold resolved.
    rewrite resolve_unwind_other; [by eapply Forall_forall in Hp|].
    intros Heq. apply (Hdisj (Step_ID x)); [by apply list_elem_of_fmap_2|].
    rewrite Heq. simpl. left.
  - right. exists s, (mid ++ post). split; [done|]. unfold resolved, unw, map_get. simpl.
    rewrite lookup_insert_eq. simpl. unfold st. destruct (oracle _); auto.
Qed.

(** ** Properties *)

(** C14: the decision does not depend on the order in which Go's randomized map
    iteration visits the facts, forward or unwind, violations included: any two
    visiting orders give the same kind, step and reason. *)
Theorem NextForward_deterministic topo f ord1 ord2 uord1 uord2 :
  map_order (Facts_Forward f) ord1 → map_order (Facts_Forward f) ord2 →
  map_order (Facts_Unwind f) uord1 → map_order (Facts_Unwind f) uord2 →
  named (Facts_Forward f) → named (Facts_Unwind f) →
  NextForward_in ord1 topo f = NextForward_in ord2 topo f ∧
  NextUnwind_in uord1 topo f = NextUnwind_in uord2 topo f.
Proof.
  intros. by rewrite (NextForward_in_perm ord1), (NextForward_in_perm ord2),
    (NextUnwind_in_perm uord1), (NextUnwind_in_perm uord2).
Qed.

(** C15: NextForward implements the abstract reconciliation rule on every branch:
    a failed fact or two unresolved ones are reported, a single unresolved step
    is always selected (or reported when the topology lost it), and otherwise the
    first non-retired step past the last succeeded one runs; the "unreachable"
    and "inconsistent" reasons are never returned. *)
Theorem NextForward_correct topo f :
  named (Facts_Forward f) → ForwardSpec topo f (NextForward topo f).
Proof. apply NextForward_sound. Qed.

(** C16: NextUnwind implements the abstract unwind rule: below the first resolved
    unwind, the last step that succeeded forward and declares unwind is
    selected, and completion means no such step is left. *)
Theorem NextUnwind_correct topo f :
  named (Facts_Unwind f) → UnwindSpec topo f (NextUnwind topo f).
Proof. apply NextUnwind_sound. Qed.

(** From no facts, a run whose operations all succeed executes exactly the
    non-retired steps, each once and in topology order, and then completes; at
    most one reconciliation per step and one to conclude are needed. *)
Theorem forward_pass_complete topo u fuel :
  NoDup (Step_ID <$> topo) → length topo < fuel →
  drive_forward fuel topo (mkFacts ∅ u) =
    (Step_ID <$> filter (λ s, Step_Retired s = false) topo,
     mkDecision KindForwardComplete "" "").
Proof.
  intros Hnd Hfuel. apply (drive_forward_split fuel [] topo); [|by left|done| |done].
  - by split; intros id; simpl; rewrite lookup_empty.
  - by apply Forall_forall.
Qed.

(** C17: from a run's failure on, whatever each unwind resolves to, exactly the
    steps that succeeded forward and declare unwind are unwound, each once and in
    reverse topology order, and then the unwind completes. *)
Theorem unwind_pass_complete topo f oracle fuel :
  Facts_Unwind f = ∅ → NoDup (Step_ID <$> topo) → length topo < fuel →
  drive_unwind fuel oracle topo f =
    (reverse (Step_ID <$> filter (eligible f) topo),
     mkDecision KindUnwindComplete "" "").
Proof.
  intros Hu Hnd Hfuel. pose proof (drive_unwind_split fuel oracle topo [] f) as Hd.
  rewrite app_nil_r in Hd. apply Hd; [| |by left|done|done].
  - intros id. rewrite Hu, lookup_empty. done.
  - apply Forall_forall. intros x _ Hres. unfold resolved, unw, map_get in Hres.
    rewrite Hu in Hres. by destruct Hres.
Qed.

(** ** Witnesses *)

Definition ex_topo : Topology :=
  [mkStep "select" false false; mkStep "old" true true;
   mkStep "reserve" true false; mkStep "create" true false].
Definition ex_facts : Facts :=
  mkFacts {[ "select" := OpSucceeded; "reserve" := OpSucceeded ]} ∅.
Definition ex_bad_facts : Facts :=
  mkFacts {[ "a" := OpUnresolved; "b" := OpUnresolved; "c" := OpUnresolved ]} ∅.

Lemma NextForward_deterministic_witness :
  let ord := map_to_list (Facts_Forward ex_bad_facts) in
  NextForward_in ord ex_topo ex_bad_facts = multiple_forward "a" "b" ∧
  (NextForward_in ord ex_topo ex_bad_facts =
     NextForward_in (reverse ord) ex_topo ex_bad_facts ∧
   NextUnwind_in [] ex_topo ex_bad_facts = NextUnwind_in [] ex_topo ex_bad_facts).
Proof.
  split; [vm_compute; reflexivity|].
  apply NextForward_deterministic.
  - apply map_order_canonical.
  - unfold map_order. apply reverse_Permutation.
  - unfold map_order. vm_compute. apply Permutation_refl.
  - unfold map_order. vm_compute. apply Permutation_refl.
  - vm_compute; discriminate.
  - vm_compute; discriminate.
Defined.

Lemma NextForward_correct_witness :
  NextForward ex_topo ex_facts = run_forward "create" ∧
  ForwardSpec ex_topo ex_facts (NextForward ex_topo ex_facts).
Proof.
  split; [vm_compute; reflexivity|].
  apply NextForward_correct. vm_compute; discriminate.
Defined.

Lemma NextUnwind_correct_witness :
  NextUnwind ex_topo ex_facts = run_unwind "reserve" ∧
  UnwindSpec ex_topo ex_facts (NextUnwind ex_topo ex_facts).
Proof.
  split; [vm_compute; reflexivity|].
  apply NextUnwind_correct. vm_compute; discriminate.
Defined.

Lemma forward_pass_complete_witness :
  drive_forward 5 ex_topo (mkFacts ∅ ∅) =
    (["select"; "reserve"; "create"], mkDecision KindForwardComplete "" "").
Proof.
  apply (forward_pass_complete ex_topo ∅ 5); [|simpl; lia].
  apply (bool_decide_unpack _). vm_compute. exact I.
Defined.

Lemma unwind_pass_complete_witness :
  drive_unwind 5 (λ _, false) ex_topo ex_facts =
    (["reserve"], mkDecision KindUnwindComplete "" "").
Proof.
  apply (unwind_pass_complete ex_topo ex_facts (λ _, false) 5); [reflexivity| |simpl; lia].
  apply (bool_decide_unpack _). vm_compute. exact I.
Defined.
