(* ===== verification/Driver.v ===== *)
(** * Driver: the store SPI (store/driver/driver.go)

    The records the engine and a store exchange, the pure operations on them, and
    the store contract: [Store] is the interface of operations, [StoreLaws] what
    an implementation promises and what the engine's theorems rely on.

    Records are values here: the contract has stores copy what they are given and
    hand out copies, so [Clone] is the identity. *)
From S2P Require Import Prelude Kernel.

Inductive OpStatus := OpNone | OpUnresolved | OpSucceeded | OpFailed.
#[export] Instance OpStatus_eq_dec : EqDecision OpStatus.
Proof. solve_decision. Defined.

Record OperationRecord := mkOp {
  Op_Status : OpStatus;
  Op_Attempts : Z;
  Op_State : bytes;
  Op_Failure : option Failure;
  Op_Order : Z;
}.
#[export] Instance OperationRecord_eq_dec : EqDecision OperationRecord.
Proof. solve_decision. Defined.

Definition op_zero : OperationRecord := mkOp OpNone 0 None None 0.

Record StepRecord := mkStepRecord {
  SR_Forward : OperationRecord;
  SR_Unwind : OperationRecord;
}.
#[export] Instance StepRecord_eq_dec : EqDecision StepRecord.
Proof. solve_decision. Defined.

Definition sr_zero : StepRecord := mkStepRecord op_zero op_zero.

(** [StepRecord.Op], and assignment through the pointer it returns. *)
Definition Op (sr : StepRecord) (phase : Phase) : OperationRecord :=
  match phase with PhaseUnwind => SR_Unwind sr | _ => SR_Forward sr end.
Definition set_Op (phase : Phase) (op : OperationRecord) (sr : StepRecord) : StepRecord :=
  match phase with
  | PhaseUnwind => mkStepRecord (SR_Forward sr) op
  | _ => mkStepRecord op (SR_Unwind sr)
  end.

Record CancelRequest := mkCancel {
  Cancel_Cause : string;
  Cancel_At : Time;
}.
#[export] Instance CancelRequest_eq_dec : EqDecision CancelRequest.
Proof. solve_decision. Defined.

Record Cursor := mkCursor {
  Cursor_Phase : Phase;
  Cursor_StepID : StepID;
  Cursor_Attempts : Z;
  Cursor_Awaiting : option Await;
  Cursor_Awaited : option Wake;
  Cursor_NextAttemptAt : Time;
  Cursor_LastError : string;
  Cursor_LastReason : string;
  Cursor_LastErrorAt : Time;
  Cursor_UpdatedAt : Time;
  Cursor_StartedAt : Time;
}.

Record OpWrite := mkOpWrite {
  OpWrite_StepID : StepID;
  OpWrite_Phase : Phase;
  OpWrite_Record : OperationRecord;
}.

Record Transition := mkTransition {
  T_Cursor : Cursor;
  T_Ops : list OpWrite;
  T_Failure : option Failure;
  T_Output : bytes;
  T_Outcome : option Outcome;
}.

Record RunRecord := mkRun {
  Run_RunID : RunID;
  Run_PipelineID : PipelineID;
  Run_ResourceID : ResourceID;
  Run_Annotations : gmap string string;
  Run_Input : bytes;
  Run_Phase : Phase;
  Run_Steps : gmap StepID StepRecord;
  Run_Failure : option Failure;
  Run_Output : bytes;
  Run_Outcome : option Outcome;
  Run_NextAttemptAt : Time;
  Run_Awaiting : option Await;
  Run_Awaited : option Wake;
  Run_LastError : string;
  Run_LastReason : string;
  Run_LastErrorAt : Time;
  Run_Cancel : option CancelRequest;
  Run_CreatedAt : Time;
  Run_UpdatedAt : Time;
  Run_StartedAt : Time;
}.
#[export] Instance RunRecord_eq_dec : EqDecision RunRecord.
Proof. solve_decision. Defined.

(** ** Field updates *)
Definition set_Input (x : bytes) (r : RunRecord) : RunRecord :=
  mkRun (Run_RunID r) (Run_PipelineID r) (Run_ResourceID r) (Run_Annotations r) x
    (Run_Phase r) (Run_Steps r) (Run_Failure r) (Run_Output r) (Run_Outcome r)
    (Run_NextAttemptAt r) (Run_Awaiting r) (Run_Awaited r) (Run_LastError r)
    (Run_LastReason r) (Run_LastErrorAt r) (Run_Cancel r) (Run_CreatedAt r)
    (Run_UpdatedAt r) (Run_StartedAt r).
Definition set_Phase (x : Phase) (r : RunRecord) : RunRecord :=
  mkRun (Run_RunID r) (Run_PipelineID r) (Run_ResourceID r) (Run_Annotations r)
    (Run_Input r) x (Run_Steps r) (Run_Failure r) (Run_Output r) (Run_Outcome r)
    (Run_NextAttemptAt r) (Run_Awaiting r) (Run_Awaited r) (Run_LastError r)
    (Run_LastReason r) (Run_LastErrorAt r) (Run_Cancel r) (Run_CreatedAt r)
    (Run_UpdatedAt r) (Run_StartedAt r).
Definition set_Steps (x : gmap StepID StepRecord) (r : RunRecord) : RunRecord :=
  mkRun (Run_RunID r) (Run_PipelineID r) (Run_ResourceID r) (Run_Annotations r)
    (Run_Input r) (Run_Phase r) x (Run_Failure r) (Run_Output r) (Run_Outcome r)
    (Run_NextAttemptAt r) (Run_Awaiting r) (Run_Awaited r) (Run_LastError r)
    (Run_LastReason r) (Run_LastErrorAt r) (Run_Cancel r) (Run_CreatedAt r)
    (Run_UpdatedAt r) (Run_StartedAt r).
Definition set_Failure (x : option Failure) (r : RunRecord) : RunRecord :=
  mkRun (Run_RunID r) (Run_PipelineID r) (Run_ResourceID r) (Run_Annotations r)
    (Run_Input r) (Run_Phase r) (Run_Steps r) x (Run_Output r) (Run_Outcome r)
    (Run_NextAttemptAt r) (Run_Awaiting r) (Run_Awaited r) (Run_LastError r)
    (Run_LastReason r) (Run_LastErrorAt r) (Run_Cancel r) (Run_CreatedAt r)
    (Run_UpdatedAt r) (Run_StartedAt r).
Definition set_Output (x : bytes) (r : RunRecord) : RunRecord :=
  mkRun (Run_RunID r) (Run_PipelineID r) (Run_ResourceID r) (Run_Annotations r)
    (Run_Input r) (Run_Phase r) (Run_Steps r) (Run_Failure r) x (Run_Outcome r)
    (Run_NextAttemptAt r) (Run_Awaiting r) (Run_Awaited r) (Run_LastError r)
    (Run_LastReason r) (Run_LastErrorAt r) (Run_Cancel r) (Run_CreatedAt r)
    (Run_UpdatedAt r) (Run_StartedAt r).
Definition set_Outcome (x : option Outcome) (r : RunRecord) : RunRecord :=
  mkRun (Run_RunID r) (Run_PipelineID r) (Run_ResourceID r) (Run_Annotations r)
    (Run_Input r) (Run_Phase r) (Run_Steps r) (Run_Failure r) (Run_Output r) x
    (Run_NextAttemptAt r) (Run_Awaiting r) (Run_Awaited r) (Run_LastError r)
    (Run_LastReason r) (Run_LastErrorAt r) (Run_Cancel r) (Run_CreatedAt r)
    (Run_UpdatedAt r) (Run_StartedAt r).
Definition set_NextAttemptAt (x : Time) (r : RunRecord) : RunRecord :=
  mkRun (Run_RunID r) (Run_PipelineID r) (Run_ResourceID r) (Run_Annotations r)
    (Run_Input r) (Run_Phase r) (Run_Steps r) (Run_Failure r) (Run_Output r)
    (Run_Outcome r) x (Run_Awaiting r) (Run_Awaited r) (Run_LastError r)
    (Run_LastReason r) (Run_LastErrorAt r) (Run_Cancel r) (Run_CreatedAt r)
    (Run_UpdatedAt r) (Run_StartedAt r).
Definition set_Awaiting (x : option Await) (r : RunRecord) : RunRecord :=
  mkRun (Run_RunID r) (Run_PipelineID r) (Run_ResourceID r) (Run_Annotations r)
    (Run_Input r) (Run_Phase r) (Run_Steps r) (Run_Failure r) (Run_Output r)
    (Run_Outcome r) (Run_NextAttemptAt r) x (Run_Awaited r) (Run_LastError r)
    (Run_LastReason r) (Run_LastErrorAt r) (Run_Cancel r) (Run_CreatedAt r)
    (Run_UpdatedAt r) (Run_StartedAt r).
Definition set_Awaited (x : option Wake) (r : RunRecord) : RunRecord :=
  mkRun (Run_RunID r) (Run_PipelineID r) (Run_ResourceID r) (Run_Annotations r)
    (Run_Input r) (Run_Phase r) (Run_Steps r) (Run_Failure r) (Run_Output r)
    (Run_Outcome r) (Run_NextAttemptAt r) (Run_Awaiting r) x (Run_LastError r)
    (Run_LastReason r) (Run_LastErrorAt r) (Run_Cancel r) (Run_CreatedAt r)
    (Run_UpdatedAt r) (Run_StartedAt r).
Definition set_LastError (x : string) (r : RunRecord) : RunRecord :=
  mkRun (Run_RunID r) (Run_PipelineID r) (Run_ResourceID r) (Run_Annotations r)
    (Run_Input r) (Run_Phase r) (Run_Steps r) (Run_Failure r) (Run_Output r)
    (Run_Outcome r) (Run_NextAttemptAt r) (Run_Awaiting r) (Run_Awaited r) x
    (Run_LastReason r) (Run_LastErrorAt r) (Run_Cancel r) (Run_CreatedAt r)
    (Run_UpdatedAt r) (Run_StartedAt r).
Definition set_LastReason (x : string) (r : RunRecord) : RunRecord :=
  mkRun (Run_RunID r) (Run_PipelineID r) (Run_ResourceID r) (Run_Annotations r)
    (Run_Input r) (Run_Phase r) (Run_Steps r) (Run_Failure r) (Run_Output r)
    (Run_Outcome r) (Run_NextAttemptAt r) (Run_Awaiting r) (Run_Awaited r)
    (Run_LastError r) x (Run_LastErrorAt r) (Run_Cancel r) (Run_CreatedAt r)
    (Run_UpdatedAt r) (Run_StartedAt r).
Definition set_LastErrorAt (x : Time) (r : RunRecord) : RunRecord :=
  mkRun (Run_RunID r) (Run_PipelineID r) (Run_ResourceID r) (Run_Annotations r)
    (Run_Input r) (Run_Phase r) (Run_Steps r) (Run_Failure r) (Run_Output r)
    (Run_Outcome r) (Run_NextAttemptAt r) (Run_Awaiting r) (Run_Awaited r)
    (Run_LastError r) (Run_LastReason r) x (Run_Cancel r) (Run_CreatedAt r)
    (Run_UpdatedAt r) (Run_StartedAt r).
Definition set_Cancel (x : option CancelRequest) (r : RunRecord) : RunRecord :=
  mkRun (Run_RunID r) (Run_PipelineID r) (Run_ResourceID r) (Run_Annotations r)
    (Run_Input r) (Run_Phase r) (Run_Steps r) (Run_Failure r) (Run_Output r)
    (Run_Outcome r) (Run_NextAttemptAt r) (Run_Awaiting r) (Run_Awaited r)
    (Run_LastError r) (Run_LastReason r) (Run_LastErrorAt r) x (Run_CreatedAt r)
    (Run_UpdatedAt r) (Run_StartedAt r).
Definition set_UpdatedAt (x : Time) (r : RunRecord) : RunRecord :=
  mkRun (Run_RunID r) (Run_PipelineID r) (Run_ResourceID r) (Run_Annotations r)
    (Run_Input r) (Run_Phase r) (Run_Steps r) (Run_Failure r) (Run_Output r)
    (Run_Outcome r) (Run_NextAttemptAt r) (Run_Awaiting r) (Run_Awaited r)
    (Run_LastError r) (Run_LastReason r) (Run_LastErrorAt r) (Run_Cancel r)
    (Run_CreatedAt r) x (Run_StartedAt r).
Definition set_StartedAt (x : Time) (r : RunRecord) : RunRecord :=
  mkRun (Run_RunID r) (Run_PipelineID r) (Run_ResourceID r) (Run_Annotations r)
    (Run_Input r) (Run_Phase r) (Run_Steps r) (Run_Failure r) (Run_Output r)
    (Run_Outcome r) (Run_NextAttemptAt r) (Run_Awaiting r) (Run_Awaited r)
    (Run_LastError r) (Run_LastReason r) (Run_LastErrorAt r) (Run_Cancel r)
    (Run_CreatedAt r) (Run_UpdatedAt r) x.

(** ** Operations on a record *)

(** [RunRecord.Terminal]. *)
Definition Terminal (r : RunRecord) : bool := bool_decide (Run_Outcome r ≠ None).

(** [RunRecord.Step]: the entry for a step, created when absent. *)
Definition Step (r : RunRecord) (id : StepID) : StepRecord :=
  default sr_zero (Run_Steps r !! id).
(** Assignment through the pointers: [*rec.Step(id) = sr] and
    [*rec.Step(id).Op(phase) = op]. *)
Definition put_Step (id : StepID) (sr : StepRecord) (r : RunRecord) : RunRecord :=
  set_Steps (<[id := sr]> (Run_Steps r)) r.
Definition put_Op (id : StepID) (phase : Phase) (op : OperationRecord) (r : RunRecord)
    : RunRecord :=
  put_Step id (set_Op phase op (Step r id)) r.

(** [RunRecord.CompactTerminal]: the terminal-stage retention rule. *)
Definition compact_steps (m : gmap StepID StepRecord) : gmap StepID StepRecord :=
  (λ sr, mkStepRecord op_zero (SR_Unwind sr)) <$>
    filter (λ e, Op_Status (SR_Unwind e.2) = OpFailed) m.
Definition CompactTerminal (r : RunRecord) : RunRecord :=
  let r := set_Input None r in
  let r := set_LastErrorAt time_zero (set_NextAttemptAt time_zero r) in
  let r := set_LastReason "" (set_LastError "" r) in
  let r := set_Awaited None (set_Awaiting None r) in
  set_Steps (compact_steps (Run_Steps r)) r.

(** [RunRecord.UnwindFailures], visiting the steps in the order [ord]. *)
Definition order_le (a b : Z * Failure) : Prop := (a.1 <= b.1)%Z.
#[export] Instance order_le_dec : RelDecision order_le.
Proof. intros a b. unfold order_le. apply _. Defined.
Fixpoint found_failures (ord : list (StepID * StepRecord)) : list (Z * Failure) :=
  match ord with
  | [] => []
  | (_, sr) :: ord' =>
    match Op_Status (SR_Unwind sr), Op_Failure (SR_Unwind sr) with
    | OpFailed, Some f => (Op_Order (SR_Unwind sr), f) :: found_failures ord'
    | _, _ => found_failures ord'
    end
  end.
Definition UnwindFailures_in (ord : list (StepID * StepRecord)) : list Failure :=
  (merge_sort order_le (found_failures ord)).*2.
Definition UnwindFailures (r : RunRecord) : list Failure :=
  UnwindFailures_in (map_to_list (Run_Steps r)).

(** [maxU32] and [RunRecord.NextOrder]. *)
Definition maxU32 (a : Z) (rest : list Z) : Z :=
  foldl (λ a v, if (a <? v)%Z then v else a) a rest.
Definition max_order_in (ord : list (StepID * StepRecord)) : Z :=
  foldl (λ max e, maxU32 max [Op_Order (SR_Forward e.2); Op_Order (SR_Unwind e.2)])
    0%Z ord.
Definition NextOrder (r : RunRecord) : Z :=
  (max_order_in (map_to_list (Run_Steps r)) +u32 1)%go.

(** ** The store interface *)

Inductive StoreError :=
| ErrRunNotFound
| ErrRunTerminal
| ErrStore (msg : string).
#[export] Instance StoreError_eq_dec : EqDecision StoreError.
Proof. solve_decision. Defined.

(** driver.Store: the operations the engine calls.  A write returns the next
    store state, a read only its answer.  [CreateRun] answers (existing, created). *)
Class Store (S : Type) := {
  CreateRun : S → RunRecord → list PipelineID →
    S * result StoreError (option RunRecord * bool);
  GetRun : S → RunID → result StoreError RunRecord;
  GetRunHead : S → RunID → result StoreError RunRecord;
  ApplyTransition : S → RunID → Transition → S * result StoreError unit;
  ReapTerminal : S → Time → Z → S * result StoreError Z;
  RequestCancel : S → RunID → CancelRequest → S * result StoreError bool;
  ListNonterminal : S → result StoreError (list RunRecord);
  GetActiveRunID : S → PipelineID → ResourceID → result StoreError (option RunID);
}.

(** ** The store contract *)

(** What a transition does to a record: operation rows, then the cursor with its
    in-flight operation as an unresolved entry, then the write-once facts; an
    Outcome compacts the record to its terminal stage. *)
Definition write_ops (ops : list OpWrite) (r : RunRecord) : RunRecord :=
  foldl (λ r ow, put_Op (OpWrite_StepID ow) (OpWrite_Phase ow) (OpWrite_Record ow) r) r ops.

Definition write_cursor (c : Cursor) (r : RunRecord) : RunRecord :=
  let r := set_Phase (Cursor_Phase c) r in
  let r := set_NextAttemptAt (Cursor_NextAttemptAt c) r in
  let r := set_LastError (Cursor_LastError c) r in
  let r := set_LastReason (Cursor_LastReason c) r in
  let r := set_LastErrorAt (Cursor_LastErrorAt c) r in
  let r := set_Awaiting (Cursor_Awaiting c) r in
  let r := set_Awaited (Cursor_Awaited c) r in
  let r := set_UpdatedAt (Cursor_UpdatedAt c) r in
  set_StartedAt (Cursor_StartedAt c) r.

Definition unresolved_op (attempts : Z) (op : OperationRecord) : OperationRecord :=
  mkOp OpUnresolved attempts (Op_State op) (Op_Failure op) (Op_Order op).

Definition overlay_cursor (c : Cursor) (r : RunRecord) : RunRecord :=
  if bool_decide (Cursor_StepID c = "") then r
  else put_Op (Cursor_StepID c) (Cursor_Phase c)
         (unresolved_op (Cursor_Attempts c)
            (Op (Step r (Cursor_StepID c)) (Cursor_Phase c))) r.

Definition write_failure (f : option Failure) (r : RunRecord) : RunRecord :=
  match f with Some _ => set_Failure f r | None => r end.

Definition record_after (t : Transition) (r : RunRecord) : RunRecord :=
  let r := overlay_cursor (T_Cursor t) (write_cursor (T_Cursor t) (write_ops (T_Ops t) r)) in
  let r := write_failure (T_Failure t) r in
  match T_Outcome t with
  | Some oc => CompactTerminal (set_Output (T_Output t) (set_Outcome (Some oc) r))
  | None => r
  end.

(** Two records that agree on everything a head carries. *)
Definition same_head (h r : RunRecord) : Prop :=
  set_Steps ∅ (set_Output None (set_Input None h)) =
  set_Steps ∅ (set_Output None (set_Input None r)).

(** A record as Schedule builds it: a fresh nonterminal run. *)
Definition stored (r : RunRecord) : RunRecord :=
  if Terminal r then CompactTerminal r else r.

(** What every driver promises, on the states [ok] its operations keep it in. *)
Class StoreLaws (S : Type) `{Store S} (ok : S → Prop) := {
  law_id s id r : ok s → GetRun s id = Ok r → Run_RunID r = id;
  law_head s id h : ok s → GetRunHead s id = Ok h →
    ∃ r, GetRun s id = Ok r ∧ same_head h r;
  law_head_missing s id : ok s → GetRunHead s id = Err ErrRunNotFound →
    GetRun s id = Err ErrRunNotFound;
  law_apply s s' id t r : ok s → GetRun s id = Ok r →
    ApplyTransition s id t = (s', Ok tt) →
    Terminal r = false ∧ GetRun s' id = Ok (record_after t r);
  law_apply_ok s s' id t res : ok s → ApplyTransition s id t = (s', res) → ok s';
  law_apply_err s s' id t e id' : ok s → ApplyTransition s id t = (s', Err e) →
    GetRun s' id' = GetRun s id';
  law_apply_other s s' id id' t res : ok s → ApplyTransition s id t = (s', res) →
    id' ≠ id → GetRun s' id' = GetRun s id';
  law_apply_terminal s s' id t r : ok s → GetRun s id = Ok r → Terminal r = true →
    ApplyTransition s id t = (s', Ok tt) → False;
  law_cancel_ok s s' id req res : ok s → RequestCancel s id req = (s', res) → ok s';
  law_cancel_err s s' id req e id' : ok s → RequestCancel s id req = (s', Err e) →
    GetRun s' id' = GetRun s id';
  law_cancel s s' id req b r : ok s → GetRun s id = Ok r →
    RequestCancel s id req = (s', Ok b) →
    Terminal r = false ∧
    GetRun s' id = Ok (if b then set_Cancel (Some req) r else r) ∧
    (b = true ↔ Run_Cancel r = None);
  law_cancel_other s s' id id' req res : ok s → RequestCancel s id req = (s', res) →
    id' ≠ id → GetRun s' id' = GetRun s id';
}.

(** ** Facts about records *)

Lemma Op_set_Op phase op sr : Op (set_Op phase op sr) phase = op.
Proof. by destruct phase. Qed.

Lemma set_Op_Op phase sr : set_Op phase (Op sr phase) sr = sr.
Proof. by destruct phase, sr. Qed.

Lemma Step_put_Step id sr r : Step (put_Step id sr r) id = sr.
Proof. unfold Step, put_Step. simpl. by rewrite lookup_insert_eq. Qed.

Lemma Step_put_Step_ne id id' sr r : id ≠ id' → Step (put_Step id sr r) id' = Step r id'.
Proof. intros. unfold Step, put_Step. simpl. by rewrite lookup_insert_ne. Qed.

Lemma Op_put_Op id phase op r : Op (Step (put_Op id phase op r) id) phase = op.
Proof. unfold put_Op. by rewrite Step_put_Step, Op_set_Op. Qed.

Lemma put_Step_twice id sr sr' r : put_Step id sr (put_Step id sr' r) = put_Step id sr r.
Proof. unfold put_Step. simpl. unfold set_Steps. simpl. by rewrite insert_insert_eq. Qed.

Lemma put_Op_twice id phase op op' r :
  put_Op id phase op (put_Op id phase op' r) = put_Op id phase op r.
Proof.
  unfold put_Op. rewrite put_Step_twice, Step_put_Step. by destruct phase.
Qed.

Lemma put_Step_id id r : is_Some (Run_Steps r !! id) → put_Step id (Step r id) r = r.
Proof.
  intros [sr Hsr]. unfold put_Step, Step. rewrite Hsr. simpl.
  rewrite insert_id by done. by destruct r.
Qed.

#[export] Hint Rewrite Op_set_Op set_Op_Op Step_put_Step Op_put_Op put_Step_twice
  put_Op_twice : durable.

(** Every operation on the fields of a record keeps its identity. *)
Definition identity (r : RunRecord) : RunID * PipelineID * ResourceID :=
  (Run_RunID r, Run_PipelineID r, Run_ResourceID r).

Lemma write_ops_identity ops r : identity (write_ops ops r) = identity r.
Proof. revert r; induction ops as [|ow ops IH]; intros r; [done|]. simpl. by rewrite IH. Qed.

Lemma overlay_cursor_identity c r : identity (overlay_cursor c r) = identity r.
Proof. unfold overlay_cursor. by case_bool_decide. Qed.

Lemma write_failure_identity f r : identity (write_failure f r) = identity r.
Proof. by destruct f. Qed.

(** The record of a transition before its outcome, if any, is committed. *)
Definition record_before_outcome (t : Transition) (r : RunRecord) : RunRecord :=
  write_failure (T_Failure t)
    (overlay_cursor (T_Cursor t) (write_cursor (T_Cursor t) (write_ops (T_Ops t) r))).

Lemma record_before_outcome_identity t r :
  identity (record_before_outcome t r) = identity r.
Proof.
  unfold record_before_outcome. rewrite write_failure_identity, overlay_cursor_identity.
  apply write_ops_identity.
Qed.

Lemma record_after_identity t r : identity (record_after t r) = identity r.
Proof.
  rewrite <-(record_before_outcome_identity t r). unfold record_after.
  by destruct (T_Outcome t).
Qed.

Lemma write_ops_outcome ops r : Run_Outcome (write_ops ops r) = Run_Outcome r.
Proof. revert r; induction ops as [|ow ops IH]; intros r; [done|]. simpl. by rewrite IH. Qed.

Lemma record_after_outcome t r :
  Run_Outcome (record_after t r) =
    match T_Outcome t with Some oc => Some oc | None => Run_Outcome r end.
Proof.
  unfold record_after, overlay_cursor. destruct (T_Outcome t); [done|].
  destruct (T_Failure t); case_bool_decide; simpl; apply write_ops_outcome.
Qed.

Lemma Terminal_spec r : Terminal r = true ↔ Run_Outcome r ≠ None.
Proof. apply bool_decide_eq_true. Qed.

Lemma Terminal_false r : Terminal r = false ↔ Run_Outcome r = None.
Proof.
  unfold Terminal. rewrite bool_decide_eq_false. destruct (Run_Outcome r); naive_solver.
Qed.
