(* ===== verification/MemStore.v ===== *)
(** * MemStore: the in-memory store (store/mem/mem.go)

    The executable reference of the store contract: a run table, the slot index
    that enforces exclusion, and the in-flight operation of each nonterminal run.
    [mem_store_laws] shows that it meets [Driver.StoreLaws]. *)
From S2P Require Import Prelude Kernel Driver.

Record MemStore := mkMem {
  mem_runs : gmap RunID RunRecord;
  mem_slots : gmap string RunID;
  mem_inflight : gmap RunID StepID;
}.

Definition New : MemStore := mkMem ∅ ∅ ∅.

Definition nul : string := String "000"%char EmptyString.
Definition slotKey (pipeline : PipelineID) (resource : ResourceID) : string :=
  pipeline +:+ nul +:+ resource.
Definition slot_of (r : RunRecord) : string :=
  slotKey (Run_PipelineID r) (Run_ResourceID r).

(** The record behind a slot; dereferencing a missing one would panic, which the
    slot invariant excludes ([mem_CreateRun_no_panic]). *)
Definition nil_deref : StoreError := ErrStore "panic: nil pointer dereference".
Definition occupant (s : MemStore) (active : RunID)
    : result StoreError (option RunRecord * bool) :=
  match mem_runs s !! active with
  | Some r => Ok (Some r, false)
  | None => Err nil_deref
  end.

(** The first slot occupied among the excluded pipelines. *)
Fixpoint first_occupied (s : MemStore) (excluding : list PipelineID) (res : ResourceID)
    : option RunID :=
  match excluding with
  | [] => None
  | p :: ps =>
    match mem_slots s !! slotKey p res with
    | Some active => Some active
    | None => first_occupied s ps res
    end
  end.

Definition mem_CreateRun (s : MemStore) (rec : RunRecord) (excluding : list PipelineID)
    : MemStore * result StoreError (option RunRecord * bool) :=
  match first_occupied s (Run_PipelineID rec :: excluding) (Run_ResourceID rec) with
  | Some active => (s, occupant s active)
  | None =>
    (mkMem (<[Run_RunID rec := stored rec]> (mem_runs s))
           (<[slot_of rec := Run_RunID rec]> (mem_slots s))
           (mem_inflight s),
     Ok (None, true))
  end.

Definition mem_GetActiveRunID (s : MemStore) (p : PipelineID) (res : ResourceID)
    : result StoreError (option RunID) :=
  Ok (mem_slots s !! slotKey p res).

Definition mem_GetRun (s : MemStore) (id : RunID) : result StoreError RunRecord :=
  match mem_runs s !! id with
  | Some r => Ok r
  | None => Err ErrRunNotFound
  end.

(** [Store.head]: the projection GetRunHead returns. *)
Definition head (s : MemStore) (r : RunRecord) : RunRecord :=
  let h := set_Output None (set_Input None r) in
  if Terminal h then h
  else
    let h := set_Steps ∅ h in
    match mem_inflight s !! Run_RunID r with
    | Some step =>
      let op := Op (Step r step) (Run_Phase r) in
      put_Op step (Run_Phase r) (mkOp OpUnresolved (Op_Attempts op) None None 0) h
    | None => h
    end.

Definition mem_GetRunHead (s : MemStore) (id : RunID) : result StoreError RunRecord :=
  match mem_runs s !! id with
  | Some r => Ok (head s r)
  | None => Err ErrRunNotFound
  end.

Definition mem_ApplyTransition (s : MemStore) (id : RunID) (t : Transition)
    : MemStore * result StoreError unit :=
  match mem_runs s !! id with
  | None => (s, Err ErrRunNotFound)
  | Some rec =>
    if Terminal rec then (s, Err ErrRunTerminal)
    else
      let rec := write_ops (T_Ops t) rec in
      let c := T_Cursor t in
      let rec := write_cursor c rec in
      let inflight := delete id (mem_inflight s) in
      let '(rec, inflight) :=
        if bool_decide (Cursor_StepID c = "") then (rec, inflight)
        else (overlay_cursor c rec, <[id := Cursor_StepID c]> inflight) in
      let rec := write_failure (T_Failure t) rec in
      match T_Outcome t with
      | None => (mkMem (<[id := rec]> (mem_runs s)) (mem_slots s) inflight, Ok tt)
      | Some oc =>
        let rec := set_Output (T_Output t) (set_Outcome (Some oc) rec) in
        let slots :=
          if bool_decide (mem_slots s !! slot_of rec = Some id)
          then delete (slot_of rec) (mem_slots s) else mem_slots s in
        (mkMem (<[id := CompactTerminal rec]> (mem_runs s)) slots (delete id inflight),
         Ok tt)
      end
  end.

(** The loop of [ReapTerminal] over the runs in the order the map yields them. *)
Fixpoint reap_in (ord : list (RunID * RunRecord)) (before : Time) (limit : Z)
    (runs : gmap RunID RunRecord) (deleted : Z) : gmap RunID RunRecord * Z :=
  match ord with
  | [] => (runs, deleted)
  | (id, rec) :: ord' =>
    if (limit <=? deleted)%Z then (runs, deleted)
    else if Terminal rec && Before (Run_UpdatedAt rec) before
    then reap_in ord' before limit (delete id runs) (deleted + 1)
    else reap_in ord' before limit runs deleted
  end.
Definition mem_ReapTerminal_in (ord : list (RunID * RunRecord)) (s : MemStore)
    (before : Time) (limit : Z) : MemStore * result StoreError Z :=
  let '(runs, deleted) := reap_in ord before limit (mem_runs s) 0 in
  (mkMem runs (mem_slots s) (mem_inflight s), Ok deleted).
Definition mem_ReapTerminal (s : MemStore) (before : Time) (limit : Z)
    : MemStore * result StoreError Z :=
  mem_ReapTerminal_in (map_to_list (mem_runs s)) s before limit.

Definition mem_RequestCancel (s : MemStore) (id : RunID) (req : CancelRequest)
    : MemStore * result StoreError bool :=
  match mem_runs s !! id with
  | None => (s, Err ErrRunNotFound)
  | Some rec =>
    if Terminal rec then (s, Err ErrRunTerminal)
    else match Run_Cancel rec with
         | Some _ => (s, Ok false)
         | None =>
           (mkMem (<[id := set_Cancel (Some req) rec]> (mem_runs s))
                  (mem_slots s) (mem_inflight s), Ok true)
         end
  end.

Definition mem_ListNonterminal (s : MemStore) : result StoreError (list RunRecord) :=
  Ok (head s <$> filter (λ r, Terminal r = false) (map_to_list (mem_runs s)).*2).

(** [sortRecords]: each record moves left past the records created after it; the
    accumulator is the sorted part, last first. *)
Fixpoint sift (r : RunRecord) (rsorted : list RunRecord) : list RunRecord :=
  match rsorted with
  | [] => [r]
  | x :: rest =>
    if Before (Run_CreatedAt r) (Run_CreatedAt x) then x :: sift r rest
    else r :: rsorted
  end.
Definition sortRecords (recs : list RunRecord) : list RunRecord :=
  reverse (foldl (λ acc r, sift r acc) [] recs).
Definition Runs (s : MemStore) : list RunRecord :=
  sortRecords (map_to_list (mem_runs s)).*2.

#[export] Instance MemStore_Store : Store MemStore := {
  CreateRun := mem_CreateRun;
  GetRun := mem_GetRun;
  GetRunHead := mem_GetRunHead;
  ApplyTransition := mem_ApplyTransition;
  ReapTerminal := mem_ReapTerminal;
  RequestCancel := mem_RequestCancel;
  ListNonterminal := mem_ListNonterminal;
  GetActiveRunID := mem_GetActiveRunID;
}.

(** ** Invariant

    Records sit under their own id; the slot index names exactly the nonterminal
    runs; an in-flight step belongs to a nonterminal run whose record has it. *)

Fixpoint nul_free (s : string) : Prop :=
  match s with
  | EmptyString => True
  | String c s' => c ≠ "000"%char ∧ nul_free s'
  end.

Record mem_ok (s : MemStore) : Prop := {
  ok_id id r : mem_runs s !! id = Some r → Run_RunID r = id;
  ok_pipeline id r : mem_runs s !! id = Some r → nul_free (Run_PipelineID r);
  ok_slot id r : mem_runs s !! id = Some r → Terminal r = false →
    mem_slots s !! slot_of r = Some id;
  ok_slot_run k id : mem_slots s !! k = Some id →
    ∃ r, mem_runs s !! id = Some r ∧ Terminal r = false ∧ slot_of r = k;
  ok_inflight id step : mem_inflight s !! id = Some step →
    ∃ r, mem_runs s !! id = Some r ∧ Terminal r = false ∧
      Op_Status (Op (Step r step) (Run_Phase r)) = OpUnresolved;
}.

(** One operation on the store, as the engine calls it: a run is created
    nonterminal under a fresh id, with the exclusion set [excl] gives its
    pipeline. *)
Section steps.
Context (excl : PipelineID → list PipelineID).

Inductive mem_step (s : MemStore) : MemStore → Prop :=
| step_create rec :
    Terminal rec = false → nul_free (Run_PipelineID rec) →
    mem_runs s !! Run_RunID rec = None →
    mem_step s (mem_CreateRun s rec (excl (Run_PipelineID rec))).1
| step_apply id t : mem_step s (mem_ApplyTransition s id t).1
| step_cancel id req : mem_step s (mem_RequestCancel s id req).1
| step_reap ord before limit :
    map_order (mem_runs s) ord →
    mem_step s (mem_ReapTerminal_in ord s before limit).1.

Inductive mem_reach : MemStore → Prop :=
| reach_new : mem_reach New
| reach_step s s' : mem_reach s → mem_step s s' → mem_reach s'.
End steps.

(** ** Slot keys *)

Lemma slotKey_inj p p' r r' :
  nul_free p → nul_free p' → slotKey p r = slotKey p' r' → p = p' ∧ r = r'.
Proof.
  unfold slotKey, nul. revert p'; induction p as [|c p IH]; intros [|c' p']; simpl;
    rewrite ?append_nil_l, ?append_cons, ?append_nil_l.
  - intros _ _ [= ->]. done.
  - intros _ [Hc _] [= <- _]. done.
  - intros [Hc _] _ [= -> _]. done.
  - intros [_ Hp] [_ Hp'] [= -> He]. by destruct (IH p' Hp Hp' He) as [-> ->].
Qed.

Lemma slot_of_identity r r' : identity r = identity r' → slot_of r = slot_of r'.
Proof. intros [= _ Hp Hr]. unfold slot_of. by rewrite Hp, Hr. Qed.

(** ** Transitions in terms of the contract *)

Lemma overlay_record t rec :
  (if bool_decide (Cursor_StepID (T_Cursor t) = "") then rec
   else overlay_cursor (T_Cursor t) rec) = overlay_cursor (T_Cursor t) rec.
Proof. unfold overlay_cursor. by case_bool_decide. Qed.

(** The in-flight index a transition leaves. *)
Definition inflight_after (id : RunID) (t : Transition) (m : gmap RunID StepID)
    : gmap RunID StepID :=
  if bool_decide (Cursor_StepID (T_Cursor t) = "") || bool_decide (T_Outcome t ≠ None)
  then delete id m else <[id := Cursor_StepID (T_Cursor t)]> m.

Definition slots_after (id : RunID) (t : Transition) (r : RunRecord) (m : gmap string RunID)
    : gmap string RunID :=
  match T_Outcome t with
  | None => m
  | Some _ => if bool_decide (m !! slot_of r = Some id) then delete (slot_of r) m else m
  end.

Lemma mem_Apply_eq s id t rec :
  mem_runs s !! id = Some rec → Terminal rec = false →
  mem_ApplyTransition s id t =
    (mkMem (<[id := record_after t rec]> (mem_runs s))
           (slots_after id t rec (mem_slots s))
           (inflight_after id t (mem_inflight s)), Ok tt).
Proof.
  intros Hrec Hterm. unfold mem_ApplyTransition. rewrite Hrec, Hterm.
  unfold record_after, inflight_after, slots_after.
  assert (∀ oc, slot_of (set_Output (T_Output t) (set_Outcome (Some oc) (write_failure (T_Failure t)
    (overlay_cursor (T_Cursor t) (write_cursor (T_Cursor t) (write_ops (T_Ops t) rec))))))
    = slot_of rec) as Hslot.
  { intros oc. apply slot_of_identity.
    exact (record_before_outcome_identity t rec). }
  unfold overlay_cursor in *. case_bool_decide; destruct (T_Outcome t) as [oc|]; simpl;
    rewrite ?(Hslot oc), ?delete_insert_eq, ?delete_delete_eq, ?insert_delete_eq; done.
Qed.

(** Either the transition is refused and nothing changes, or it is applied. *)
Lemma mem_Apply_cases s id t :
  (∃ e, mem_ApplyTransition s id t = (s, Err e)) ∨
  ∃ rec, mem_runs s !! id = Some rec ∧ Terminal rec = false ∧
    mem_ApplyTransition s id t =
      (mkMem (<[id := record_after t rec]> (mem_runs s))
             (slots_after id t rec (mem_slots s))
             (inflight_after id t (mem_inflight s)), Ok tt).
Proof.
  destruct (mem_runs s !! id) as [rec|] eqn:Hrec.
  - destruct (Terminal rec) eqn:Hterm.
    + left. unfold mem_ApplyTransition. rewrite Hrec, Hterm. eauto.
    + right. exists rec. by rewrite (mem_Apply_eq _ _ _ rec).
  - left. unfold mem_ApplyTransition. rewrite Hrec. eauto.
Qed.

Lemma record_after_unresolved t r :
  T_Outcome t = None → Cursor_StepID (T_Cursor t) ≠ "" →
  Op_Status (Op (Step (record_after t r) (Cursor_StepID (T_Cursor t)))
    (Run_Phase (record_after t r))) = OpUnresolved.
Proof.
  intros Ho Hid. unfold record_after, overlay_cursor. rewrite Ho.
  rewrite bool_decide_eq_false_2 by done.
  set (op := unresolved_op _ _).
  assert (∀ f w id, Op (Step (write_failure f w) id) (Run_Phase (write_failure f w)) =
    Op (Step w id) (Run_Phase w)) as ->.
  { by intros [f|] w id. }
  change (Run_Phase (put_Op ?a ?b ?c ?w)) with (Cursor_Phase (T_Cursor t)).
  by rewrite Op_put_Op.
Qed.

Lemma record_after_slot t r : slot_of (record_after t r) = slot_of r.
Proof. apply slot_of_identity, record_after_identity. Qed.

Lemma mem_Apply_preserves s id t : mem_ok s → mem_ok (mem_ApplyTransition s id t).1.
Proof.
  intros Hok. destruct (mem_Apply_cases s id t) as [[e ->]|(rec & Hrec & Hterm & ->)]; [done|].
  destruct Hok as [Hid Hpipe Hslot Hrun Hinfl].
  pose proof (record_after_identity t rec) as Hident.
  pose proof (record_after_slot t rec) as Hsl.
  assert (Terminal (record_after t rec) = bool_decide (T_Outcome t ≠ None)) as Hterm'.
  { unfold Terminal. rewrite record_after_outcome. apply Terminal_false in Hterm.
    destruct (T_Outcome t); [done|]. by rewrite Hterm. }
  constructor; simpl.
  - intros id' r. rewrite lookup_insert. case_decide as Heq; [|apply Hid].
    intros [= <-]. injection Hident as -> _ _. subst. by apply Hid.
  - intros id' r. rewrite lookup_insert. case_decide as Heq; [|apply Hpipe].
    intros [= <-]. injection Hident as _ -> _. by eapply Hpipe.
  - intros id' r. unfold slots_after. rewrite lookup_insert. case_decide as Heq.
    + intros [= <-]. rewrite Hterm', Hsl. subst.
      destruct (T_Outcome t); [done|]. intros _. by apply Hslot.
    + intros Hr Hrt. specialize (Hslot _ _ Hr Hrt).
      destruct (T_Outcome t); [|done].
      destruct (bool_decide (mem_slots s !! slot_of rec = Some id)) eqn:Hb; [|done]. zbool.
      rewrite lookup_delete_ne; [done|]. congruence.
  - intros k id' Hk.
    assert (mem_slots s !! k = Some id' ∧ (T_Outcome t ≠ None → id' ≠ id)) as [Hk' Hne].
    { unfold slots_after in Hk. destruct (T_Outcome t); [|by split].
      specialize (Hslot _ _ Hrec Hterm).
      rewrite bool_decide_eq_true_2, lookup_delete_Some in Hk by done.
      destruct Hk as [Hkne Hk]. split; [done|]. intros _ ->.
      destruct (Hrun _ _ Hk) as (r & Hr & _ & <-). simplify_eq. }
    destruct (Hrun _ _ Hk') as (r & Hr & Hrt & <-).
    rewrite lookup_insert. case_decide as Heq; [|by eauto].
    subst. simplify_eq. exists (record_after t rec). split_and!; [done| |done].
    rewrite Hterm'. apply bool_decide_eq_false. intros Ho. by apply (Hne Ho).
  - intros id' step. unfold inflight_after.
    destruct (bool_decide (Cursor_StepID (T_Cursor t) = "") || bool_decide (T_Outcome t ≠ None))
      eqn:Hb.
    + rewrite lookup_delete_Some. intros [Hne Hi]. rewrite lookup_insert_ne by done. eauto.
    + apply orb_false_iff in Hb as [Hs Ho]. zbool.
      rewrite lookup_insert. case_decide as Heq.
      * intros [= <-]. subst. rewrite lookup_insert_eq. eexists. split_and!; [done| |].
        -- rewrite Hterm'. by apply bool_decide_eq_false.
        -- apply record_after_unresolved; [|done]. by destruct (T_Outcome t); [destruct Ho|].
      * rewrite lookup_insert_ne by done. eauto.
Qed.

Lemma first_occupied_Some s ps res active :
  first_occupied s ps res = Some active →
  ∃ p, p ∈ ps ∧ mem_slots s !! slotKey p res = Some active.
Proof.
  induction ps as [|p ps IH]; simpl; [done|].
  destruct (mem_slots s !! slotKey p res) as [a|] eqn:Ha.
  - intros [= ->]. exists p. split; [left|done].
  - intros (q & Hq & ?)%IH. exists q. split; [by right|done].
Qed.

Lemma first_occupied_None s ps res :
  first_occupied s ps res = None ↔
  Forall (λ p, mem_slots s !! slotKey p res = None) ps.
Proof.
  induction ps as [|p ps IH]; simpl; [by split|].
  rewrite Forall_cons, <-IH. destruct (mem_slots s !! slotKey p res); naive_solver.
Qed.

Lemma mem_Create_eq s rec ps :
  Terminal rec = false →
  mem_CreateRun s rec ps =
    match first_occupied s (Run_PipelineID rec :: ps) (Run_ResourceID rec) with
    | Some active => (s, occupant s active)
    | None =>
      (mkMem (<[Run_RunID rec := rec]> (mem_runs s))
             (<[slot_of rec := Run_RunID rec]> (mem_slots s)) (mem_inflight s),
       Ok (None, true))
    end.
Proof. intros Ht. unfold mem_CreateRun, stored. by rewrite Ht. Qed.

Lemma mem_Create_preserves s rec ps :
  mem_ok s → Terminal rec = false → nul_free (Run_PipelineID rec) →
  mem_runs s !! Run_RunID rec = None →
  mem_ok (mem_CreateRun s rec ps).1.
Proof.
  intros [Hid Hpipe Hslot Hrun Hinfl] Ht Hnul Hfresh. rewrite mem_Create_eq by done.
  destruct (first_occupied _ _ _) eqn:Hocc; [by constructor|].
  apply first_occupied_None, Forall_cons in Hocc as [Hfree _].
  constructor; simpl.
  - intros id r. rewrite lookup_insert. case_decide; naive_solver.
  - intros id r. rewrite lookup_insert. case_decide; naive_solver.
  - intros id r. rewrite lookup_insert. case_decide as Heq.
    + intros [= <-] _. rewrite lookup_insert_eq. congruence.
    + intros Hr Hrt. specialize (Hslot _ _ Hr Hrt).
      rewrite lookup_insert_ne; [done|]. unfold slot_of at 1. congruence.
  - intros k id. rewrite lookup_insert. case_decide as Heq.
    + intros [= <-]. exists rec. by rewrite lookup_insert_eq.
    + intros (r & Hr & Hrt & Hk)%Hrun. exists r.
      rewrite lookup_insert_ne by congruence. done.
  - intros id step (r & Hr & Hrt & Hop)%Hinfl. exists r.
    rewrite lookup_insert_ne by congruence. done.
Qed.

Lemma mem_Cancel_preserves s id req : mem_ok s → mem_ok (mem_RequestCancel s id req).1.
Proof.
  intros Hok. unfold mem_RequestCancel.
  destruct (mem_runs s !! id) as [rec|] eqn:Hrec; [|done].
  destruct (Terminal rec) eqn:Hterm; [done|]. destruct (Run_Cancel rec); [done|].
  destruct Hok as [Hid Hpipe Hslot Hrun Hinfl]. constructor; simpl.
  - intros id' r. rewrite lookup_insert. case_decide as Heq; [|apply Hid].
    intros [= <-]. subst. by apply Hid in Hrec.
  - intros id' r. rewrite lookup_insert. case_decide as Heq; [|apply Hpipe].
    intros [= <-]. by eapply Hpipe in Hrec.
  - intros id' r. rewrite lookup_insert. case_decide as Heq; [|apply Hslot].
    intros [= <-] _. subst. by apply Hslot in Hrec.
  - intros k id' (r & Hr & Hrt & Hk)%Hrun. rewrite lookup_insert.
    case_decide as Heq; [|by eauto]. subst. simplify_eq. eexists. by split_and!.
  - intros id' step (r & Hr & Hrt & Hop)%Hinfl. rewrite lookup_insert.
    case_decide as Heq; [|by eauto]. subst. simplify_eq. eexists. by split_and!.
Qed.

(** Reaping removes only terminal runs, so the slots and the in-flight index
    still name runs that are there. *)
Lemma reap_in_spec ord before limit runs n runs' n' :
  reap_in ord before limit runs n = (runs', n') →
  (∀ id r, (id, r) ∈ ord → runs !! id = Some r ∨ runs !! id = None) →
  runs' ⊆ runs ∧
  (∀ id r, runs !! id = Some r → runs' !! id = None →
    Terminal r = true ∧ (Run_UpdatedAt r < before)%Z).
Proof.
  revert runs n. induction ord as [|[id rec] ord IH]; simpl; intros runs n.
  { intros [= <- <-] _. split; [done|]. congruence. }
  destruct (limit <=? n)%Z.
  { intros [= <- <-] _. split; [done|]. congruence. }
  destruct (Terminal rec && Before (Run_UpdatedAt rec) before) eqn:Hb; intros Hr Hord.
  - apply andb_true_iff in Hb as [Hb1 Hb2]. unfold Before in Hb2. zbool.
    apply IH in Hr as [Hsub Hdel].
    + split; [etrans; [exact Hsub|apply delete_subseteq]|].
      intros id' r' Hr' Hnone. destruct (decide (id' = id)) as [->|Hne].
      * destruct (Hord id rec ltac:(left)) as [?|?]; by simplify_eq.
      * apply (Hdel id'); [by rewrite lookup_delete_ne|done].
    + intros id' r' Hin. rewrite lookup_delete. case_decide; [by right|].
      apply Hord. by right.
  - eapply IH; [done|]. intros id' r' Hin. apply Hord. by right.
Qed.

Lemma mem_Reap_preserves s ord before limit :
  map_order (mem_runs s) ord → mem_ok s → mem_ok (mem_ReapTerminal_in ord s before limit).1.
Proof.
  intros Hord [Hid Hpipe Hslot Hrun Hinfl]. unfold mem_ReapTerminal_in.
  destruct (reap_in _ _ _ _ _) as [runs n] eqn:Hr.
  apply reap_in_spec in Hr as [Hsub Hdel].
  2:{ intros id r Hin. left. by apply (map_order_elem _ _ _ _ Hord). }
  assert (∀ id r, runs !! id = Some r → mem_runs s !! id = Some r) as Hsub'.
  { intros id r Hr. by eapply lookup_weaken. }
  assert (∀ id r, mem_runs s !! id = Some r → Terminal r = false → runs !! id = Some r)
    as Hkeep.
  { intros id r Hr Ht. destruct (runs !! id) as [r'|] eqn:Hr'.
    - apply Hsub' in Hr'. congruence.
    - destruct (Hdel id r Hr Hr') as [Hc _]. congruence. }
  constructor; simpl; [by eauto..| |].
  - intros k id (r & Hr & Ht & Hk)%Hrun. eauto.
  - intros id step (r & Hr & Ht & Hop)%Hinfl. eauto.
Qed.

Lemma mem_step_preserves excl s s' : mem_step excl s s' → mem_ok s → mem_ok s'.
Proof.
  intros [] Hok.
  - by apply mem_Create_preserves.
  - by apply mem_Apply_preserves.
  - by apply mem_Cancel_preserves.
  - by apply mem_Reap_preserves.
Qed.

Lemma mem_reach_ok excl s : mem_reach excl s → mem_ok s.
Proof.
  induction 1 as [|s s' _ IH Hstep]; [|by eapply mem_step_preserves].
  constructor; simpl; intros; by rewrite lookup_empty in *.
Qed.

(** ** What one step does to one run *)

(** The facts of a record that are written once. *)
Definition write_once (r r' : RunRecord) : Prop :=
  identity r' = identity r ∧ Run_Annotations r' = Run_Annotations r ∧
  Run_CreatedAt r' = Run_CreatedAt r ∧
  (Run_Cancel r ≠ None → Run_Cancel r' = Run_Cancel r) ∧
  (Terminal r = true → r' = r).

Lemma write_once_refl r : write_once r r.
Proof. by repeat split. Qed.

Lemma write_once_trans r1 r2 r3 :
  write_once r1 r2 → write_once r2 r3 → write_once r1 r3.
Proof.
  intros (Hi & Ha & Hc & Hca & Ht) (Hi' & Ha' & Hc' & Hca' & Ht').
  split; [congruence|]. split; [congruence|]. split; [congruence|]. split.
  - intros Hne. rewrite Hca' by (rewrite Hca; done). auto.
  - intros Hterm. specialize (Ht Hterm). subst. auto.
Qed.

Lemma record_after_write_once t r : Terminal r = false → write_once r (record_after t r).
Proof.
  intros Ht. split; [apply record_after_identity|].
  assert (∀ ops r0, Run_Annotations (write_ops ops r0) = Run_Annotations r0 ∧
    Run_CreatedAt (write_ops ops r0) = Run_CreatedAt r0 ∧
    Run_Cancel (write_ops ops r0) = Run_Cancel r0) as Hops.
  { induction ops as [|ow ops IH]; intros r0; [done|]. simpl. by destruct (IH (put_Op
      (OpWrite_StepID ow) (OpWrite_Phase ow) (OpWrite_Record ow) r0)) as (-> & -> & ->). }
  destruct (Hops (T_Ops t) r) as (Ha & Hc & Hca).
  unfold record_after, overlay_cursor.
  destruct (T_Outcome t), (T_Failure t); case_bool_decide; simpl; repeat split;
    congruence.
Qed.

Lemma mem_step_run excl s s' id r :
  mem_ok s → mem_step excl s s' → mem_runs s !! id = Some r →
  (∃ r', mem_runs s' !! id = Some r' ∧ write_once r r') ∨
  (mem_runs s' !! id = None ∧ Terminal r = true).
Proof.
  intros Hok Hstep Hr. destruct Hstep as [rec Ht Hnul Hfresh|id' t|id' req|ord before limit Hord].
  - left. exists r. split; [|apply write_once_refl]. rewrite mem_Create_eq by done.
    destruct (first_occupied _ _ _); simpl; [done|]. rewrite lookup_insert_ne; congruence.
  - left. destruct (mem_Apply_cases s id' t) as [[e ->]|(rec & Hrec & Hterm & ->)];
      [by eauto using write_once_refl|]. simpl. rewrite lookup_insert.
    case_decide; [|by eauto using write_once_refl]. subst. simplify_eq.
    eauto using record_after_write_once.
  - left. unfold mem_RequestCancel.
    destruct (mem_runs s !! id') as [rec|] eqn:Hrec; [|by eauto using write_once_refl].
    destruct (Terminal rec) eqn:Hterm; [by eauto using write_once_refl|].
    destruct (Run_Cancel rec) eqn:Hc; [by eauto using write_once_refl|]. simpl.
    rewrite lookup_insert. case_decide; [|by eauto using write_once_refl]. subst. simplify_eq.
    eexists. split; [done|]. repeat split; congruence.
  - unfold mem_ReapTerminal_in. destruct (reap_in _ _ _ _ _) as [runs n] eqn:Hreap.
    apply reap_in_spec in Hreap as [Hsub Hdel].
    2:{ intros id' r' Hin. left. by apply (map_order_elem _ _ _ _ Hord). }
    simpl. destruct (runs !! id) as [r'|] eqn:Hr'.
    + left. exists r'. split; [done|]. eapply lookup_weaken in Hr'; [|done].
      simplify_eq. apply write_once_refl.
    + right. split; [done|]. by eapply Hdel.
Qed.

(** A run nonterminal after a step was nonterminal before it, or was just created
    with its exclusion slots free. *)
Lemma mem_step_nonterminal excl s s' id r' :
  mem_ok s → mem_step excl s s' → mem_runs s' !! id = Some r' → Terminal r' = false →
  (∃ r, mem_runs s !! id = Some r ∧ Terminal r = false ∧ identity r = identity r') ∨
  (mem_runs s !! id = None ∧ Run_RunID r' = id ∧
   Forall (λ p, mem_slots s !! slotKey p (Run_ResourceID r') = None)
     (Run_PipelineID r' :: excl (Run_PipelineID r'))).
Proof.
  intros Hok Hstep Hr' Hterm. destruct (mem_runs s !! id) as [r|] eqn:Hr.
  - left. destruct (mem_step_run _ _ _ _ _ Hok Hstep Hr) as [(r2 & Hr2 & Hw)|[Hn _]];
      [|congruence]. simplify_eq.
    exists r. destruct Hw as (Hi & _ & _ & _ & Ht). split; [done|]. split; [|done].
    destruct (Terminal r) eqn:Htr; [|done]. specialize (Ht eq_refl). congruence.
  - right. split; [done|]. revert Hr'.
    destruct Hstep as [rec Ht Hnul Hfresh|id' t|id' req|ord before limit Hord].
    + rewrite mem_Create_eq by done. destruct (first_occupied _ _ _) eqn:Hocc; simpl;
        [congruence|].
      rewrite lookup_insert. case_decide; [|congruence]. intros [= <-].
      split; [done|]. by apply first_occupied_None.
    + destruct (mem_Apply_cases s id' t) as [[e ->]|(rec & Hrec & Hterm' & ->)]; simpl;
        [congruence|]. rewrite lookup_insert.
      case_decide; congruence.
    + unfold mem_RequestCancel.
      destruct (mem_runs s !! id') as [rec|] eqn:Hrec; simpl; [|congruence].
      destruct (Terminal rec); simpl; [congruence|].
      destruct (Run_Cancel rec); simpl; [congruence|].
      rewrite lookup_insert. case_decide; congruence.
    + unfold mem_ReapTerminal_in. destruct (reap_in _ _ _ _ _) as [runs n] eqn:Hreap.
      apply reap_in_spec in Hreap as [Hsub _].
      2:{ intros id' r Hin. left. by apply (map_order_elem _ _ _ _ Hord). }
      simpl. intros Hr'. eapply lookup_weaken in Hr'; [|done]. congruence.
Qed.

(** ** Mutual exclusion *)

(** Pipelines that exclude each other: the same one, or one in the other's set. *)
Definition conflicts (excl : PipelineID → list PipelineID) (p q : PipelineID) : Prop :=
  p = q ∨ q ∈ excl p.

Definition exclusive (excl : PipelineID → list PipelineID) (s : MemStore) : Prop :=
  ∀ id1 id2 r1 r2,
    mem_runs s !! id1 = Some r1 → mem_runs s !! id2 = Some r2 →
    Terminal r1 = false → Terminal r2 = false →
    Run_ResourceID r1 = Run_ResourceID r2 →
    conflicts excl (Run_PipelineID r1) (Run_PipelineID r2) → id1 = id2.

Lemma fresh_conflict excl s r r0 id0 :
  mem_ok s → mem_runs s !! id0 = Some r0 → Terminal r0 = false →
  Forall (λ p, mem_slots s !! slotKey p (Run_ResourceID r) = None)
    (Run_PipelineID r :: excl (Run_PipelineID r)) →
  Run_ResourceID r = Run_ResourceID r0 →
  ¬ conflicts excl (Run_PipelineID r) (Run_PipelineID r0).
Proof.
  intros Hok Hr0 Ht0 Hfree Hres Hc. pose proof (ok_slot _ Hok _ _ Hr0 Ht0) as Hslot.
  eapply Forall_forall in Hfree; [|instantiate (1 := Run_PipelineID r0)].
  - rewrite Hres in Hfree. unfold slot_of in Hslot. congruence.
  - destruct Hc as [->|Hc]; [left|by right].
Qed.

(** Two live runs that exclude each other. *)
Definition overlap (excl : PipelineID → list PipelineID) (s : MemStore) (id1 id2 : RunID) : Prop :=
  id1 ≠ id2 ∧ ∃ r1 r2,
    mem_runs s !! id1 = Some r1 ∧ mem_runs s !! id2 = Some r2 ∧
    Terminal r1 = false ∧ Terminal r2 = false ∧
    Run_ResourceID r1 = Run_ResourceID r2 ∧
    conflicts excl (Run_PipelineID r1) (Run_PipelineID r2).
Lemma exclusive_overlap excl s : exclusive excl s ↔ ∀ id1 id2, ¬ overlap excl s id1 id2.
Proof.
  split.
  - intros Hex id1 id2 (Hne & r1 & r2 & H1 & H2 & H3 & H4 & H5 & H6). by eapply Hne, Hex.
  - intros Hno id1 id2 r1 r2 H1 H2 H3 H4 H5 H6. destruct (decide (id1 = id2)) as [|Hne]; [done|].
    destruct (Hno id1 id2). split; [done|]. by exists r1, r2.
Qed.

(** No step makes two runs overlap. *)
Lemma overlap_step excl s s' id1 id2 :
  (∀ p q, q ∈ excl p → p ∈ excl q) →
  mem_ok s → mem_step excl s s' → overlap excl s' id1 id2 → overlap excl s id1 id2.
Proof.
  intros Hsym Hok Hstep (Hne & r1 & r2 & Hr1 & Hr2 & Ht1 & Ht2 & Hres & Hc). split; [done|].
  destruct (mem_step_nonterminal _ _ _ _ _ Hok Hstep Hr1 Ht1) as
    [(p1 & Hp1 & Hpt1 & [= Hi1 Hi1' Hi1''])|(Hn1 & Hid1 & Hfree1)];
  destruct (mem_step_nonterminal _ _ _ _ _ Hok Hstep Hr2 Ht2) as
    [(p2 & Hp2 & Hpt2 & [= Hi2 Hi2' Hi2''])|(Hn2 & Hid2 & Hfree2)].
  - exists p1, p2. split_and!; [done..|congruence|]. by rewrite Hi1', Hi2'.
  - exfalso. eapply (fresh_conflict excl s r2 p1); [done..|congruence|].
    rewrite Hi1'. destruct Hc as [->|Hc]; [by left|right; auto].
  - exfalso. eapply (fresh_conflict excl s r1 p2); [done..|congruence|].
    by rewrite Hi2'.
  - (* one step creates one run *)
    exfalso. apply Hne. clear -Hr1 Hr2 Hn1 Hn2 Hstep. destruct Hstep as [rec|id' t|id' req|ord before limit Hord].
    + unfold mem_CreateRun in *. destruct (first_occupied _ _ _); simpl in *; [congruence|].
      rewrite lookup_insert_Some in Hr1, Hr2. naive_solver.
    + destruct (mem_Apply_cases s id' t) as [[e He]|(rec & Hrec & Hterm' & He)];
        rewrite He in *; simpl in *; [congruence|].
      rewrite lookup_insert_Some in Hr1, Hr2. naive_solver congruence.
    + unfold mem_RequestCancel in *.
      destruct (mem_runs s !! id') as [rec|] eqn:Hrec; simpl in *; [|congruence].
      destruct (Terminal rec), (Run_Cancel rec); simpl in *; try congruence.
      rewrite lookup_insert_Some in Hr1, Hr2. naive_solver congruence.
    + unfold mem_ReapTerminal_in in *.
      destruct (reap_in _ _ _ _ _) as [runs n] eqn:Hreap. simpl in *.
      apply reap_in_spec in Hreap as [Hsub _].
      * eapply lookup_weaken in Hr1; [|done]. congruence.
      * intros id' r Hin. left. by apply (map_order_elem _ _ _ _ Hord).
Qed.

Lemma exclusive_step excl s s' :
  (∀ p q, q ∈ excl p → p ∈ excl q) →
  mem_ok s → mem_step excl s s' → exclusive excl s → exclusive excl s'.
Proof. rewrite !exclusive_overlap. intros ??? Hex id1 id2 ?. by eapply Hex, overlap_step. Qed.
Lemma overlap_steps excl s s' id1 id2 :
  (∀ p q, q ∈ excl p → p ∈ excl q) →
  mem_ok s → rtc (mem_step excl) s s' → overlap excl s' id1 id2 → overlap excl s id1 id2.
Proof.
  intros Hsym Hok Hsteps. revert Hok. induction Hsteps as [|s s1 s2 Hstep _ IH]; [done|].
  intros Hok Ho. eapply overlap_step; [done..|]. apply IH; [by eapply mem_step_preserves|done].
Qed.

(** ** The store meets the contract *)

Lemma mem_GetRun_Ok s id r : mem_GetRun s id = Ok r ↔ mem_runs s !! id = Some r.
Proof. unfold mem_GetRun. destruct (mem_runs s !! id); naive_solver. Qed.

Lemma mem_head_same s r : same_head (head s r) r.
Proof.
  unfold head, same_head. destruct (Terminal _); [done|].
  by destruct (mem_inflight s !! Run_RunID r).
Qed.

Lemma mem_store_laws : StoreLaws MemStore mem_ok.
Proof.
  constructor; simpl.
  - intros s id r Hok Hr%mem_GetRun_Ok. by apply (ok_id s Hok).
  - intros s id h _. unfold mem_GetRunHead, mem_GetRun.
    destruct (mem_runs s !! id) as [r|]; [|done]. intros [= <-].
    exists r. split; [done|apply mem_head_same].
  - intros s id _. unfold mem_GetRunHead, mem_GetRun. by destruct (mem_runs s !! id).
  - intros s s' id t r _ Hr%mem_GetRun_Ok.
    destruct (mem_Apply_cases s id t) as [[e ->]|(rec & Hrec & Hterm & ->)]; [done|].
    intros [= <-]. simplify_eq. split; [done|]. unfold mem_GetRun. simpl.
    by rewrite lookup_insert_eq.
  - intros s s' id t res Hok Happ. pose proof (mem_Apply_preserves s id t Hok) as Hp.
    by rewrite Happ in Hp.
  - intros s s' id t e id' _.
    destruct (mem_Apply_cases s id t) as [[e' ->]|(rec & Hrec & Hterm & ->)]; [|done].
    by intros [= <- _].
  - intros s s' id id' t res _ Happ Hne. unfold mem_GetRun.
    destruct (mem_Apply_cases s id t) as [[e' He]|(rec & Hrec & Hterm & He)];
      rewrite He in Happ; simplify_eq/=; [done|]. by rewrite lookup_insert_ne.
  - intros s s' id t r _ Hr%mem_GetRun_Ok Ht.
    destruct (mem_Apply_cases s id t) as [[e' ->]|(rec & Hrec & Hterm & ->)]; [done|].
    congruence.
  - intros s s' id req res Hok Hc. pose proof (mem_Cancel_preserves s id req Hok) as Hp.
    by rewrite Hc in Hp.
  - intros s s' id req e id' _. unfold mem_RequestCancel.
    destruct (mem_runs s !! id) as [r|]; [|by intros [= <- _]].
    destruct (Terminal r); [by intros [= <- _]|]. by destruct (Run_Cancel r).
  - intros s s' id req b r _ Hr%mem_GetRun_Ok. unfold mem_RequestCancel. rewrite Hr.
    destruct (Terminal r); [done|]. destruct (Run_Cancel r) eqn:Hc; intros [= <- <-].
    + split; [done|]. split; [by apply mem_GetRun_Ok|done].
    + split; [done|]. split; [|done]. apply mem_GetRun_Ok. simpl. by rewrite lookup_insert_eq.
  - intros s s' id id' req res _ Hc Hne. unfold mem_RequestCancel in Hc. unfold mem_GetRun.
    destruct (mem_runs s !! id) as [r|]; [|by simplify_eq].
    destruct (Terminal r); [by simplify_eq|]. destruct (Run_Cancel r); simplify_eq/=; [done|].
    by rewrite lookup_insert_ne.
Qed.
#[export] Instance mem_laws : StoreLaws MemStore mem_ok := mem_store_laws.

(** ** Properties *)

Lemma exclusive_reach excl s :
  (∀ p q, q ∈ excl p → p ∈ excl q) → mem_reach excl s → exclusive excl s.
Proof.
  intros Hsym. induction 1 as [|s s' Hreach IH Hstep].
  - intros id1 id2 r1 r2 Hr1. simpl in Hr1. by rewrite lookup_empty in Hr1.
  - eapply exclusive_step; eauto using mem_reach_ok.
Qed.

(** C18: mutual exclusion.  When the exclusion sets are symmetric, no reachable store
    holds two nonterminal runs of one resource whose pipelines are the same or
    exclude each other, whatever creations, transitions, cancellations and reaps
    led to it. *)
Theorem mutex_exclusion excl s :
  (∀ p q, q ∈ excl p → p ∈ excl q) → mem_reach excl s → exclusive excl s.
Proof. apply exclusive_reach. Qed.

(** The slot index is exact.  In every reachable store GetActiveRunID answers
    with a run exactly when that run is a nonterminal run of the pipeline on the
    resource. *)
Theorem slot_index_exact excl s p res id :
  mem_reach excl s → nul_free p →
  mem_GetActiveRunID s p res = Ok (Some id) ↔
  ∃ r, mem_GetRun s id = Ok r ∧ Terminal r = false ∧
    Run_PipelineID r = p ∧ Run_ResourceID r = res.
Proof.
  intros Hreach Hp. apply mem_reach_ok in Hreach as Hok.
  unfold mem_GetActiveRunID. split.
  - intros [= Hs]. destruct (ok_slot_run _ Hok _ _ Hs) as (r & Hr & Ht & Hk).
    exists r. split; [by apply mem_GetRun_Ok|]. split; [done|].
    by apply slotKey_inj in Hk; [|by eapply ok_pipeline|].
  - intros (r & Hr%mem_GetRun_Ok & Ht & <- & <-). f_equal. by eapply ok_slot in Hr.
Qed.

(** ApplyTransition on every branch.  A missing run and a terminal run are
    refused and the store is unchanged; otherwise the record read back is the
    contract's [record_after], every other run reads as before, and the run's slot
    is released exactly when the transition carries an Outcome. *)
Theorem apply_transition_correct s id t :
  mem_ok s →
  match mem_runs s !! id with
  | None => mem_ApplyTransition s id t = (s, Err ErrRunNotFound)
  | Some r =>
    if Terminal r then mem_ApplyTransition s id t = (s, Err ErrRunTerminal)
    else ∃ s', mem_ApplyTransition s id t = (s', Ok tt) ∧
      mem_GetRun s' id = Ok (record_after t r) ∧
      (∀ id', id' ≠ id → mem_GetRun s' id' = mem_GetRun s id') ∧
      (mem_slots s' !! slot_of r = Some id ↔ T_Outcome t = None) ∧
      (∀ k, k ≠ slot_of r → mem_slots s' !! k = mem_slots s !! k)
  end.
Proof.
  intros Hok. destruct (mem_runs s !! id) as [r|] eqn:Hr.
  2:{ unfold mem_ApplyTransition. by rewrite Hr. }
  destruct (Terminal r) eqn:Ht.
  { unfold mem_ApplyTransition. by rewrite Hr, Ht. }
  rewrite (mem_Apply_eq _ _ _ r) by done. eexists. split; [done|].
  pose proof (ok_slot _ Hok _ _ Hr Ht) as Hslot.
  unfold mem_GetRun, slots_after. simpl. rewrite lookup_insert_eq.
  split; [done|]. split; [intros id' Hne; by rewrite lookup_insert_ne|].
  destruct (T_Outcome t); [|done].
  rewrite bool_decide_eq_true_2 by done. rewrite lookup_delete_eq. split; [done|].
  intros k Hk. by rewrite lookup_delete_ne.
Qed.

(** Write-once facts.  Along any sequence of operations a run keeps its identity,
    annotations and creation time, its first cancellation request is never
    replaced, and a terminal record never changes; only a terminal run is ever
    removed. *)
Theorem write_once_along_steps excl s s' id r :
  mem_ok s → rtc (mem_step excl) s s' → mem_runs s !! id = Some r →
  (∃ r', mem_runs s' !! id = Some r' ∧ write_once r r') ∨
  (∃ s1 s2 r1, rtc (mem_step excl) s s1 ∧ mem_step excl s1 s2 ∧
    rtc (mem_step excl) s2 s' ∧
    mem_runs s1 !! id = Some r1 ∧ mem_runs s2 !! id = None ∧
    write_once r r1 ∧ Terminal r1 = true).
Proof.
  intros Hok Hsteps. revert r Hok.
  induction Hsteps as [s|s s1 s' Hstep Hsteps IH]; intros r Hok Hr.
  { left. exists r. split; [done|apply write_once_refl]. }
  destruct (mem_step_run _ _ _ _ _ Hok Hstep Hr) as [(r1 & Hr1 & Hw)|[Hn Ht]].
  - pose proof (mem_step_preserves _ _ _ Hstep Hok) as Hok1.
    destruct (IH r1 Hok1 Hr1)
      as [(r' & Hr' & Hw')|(s2 & s3 & r2 & Hs2 & Hs3 & Hs' & Hr2 & Hr3 & Hw2 & Ht2)].
    + left. eauto using write_once_trans.
    + right. exists s2, s3, r2. split; [by eapply rtc_l|].
      by split_and!; eauto using write_once_trans.
  - right. exists s, s1, r. by split_and!; eauto using write_once_refl, rtc_refl.
Qed.

(** A record seeded terminal takes the slot of its pipeline and resource, which
    no transition releases: the slot then names a terminal run, and the next
    CreateRun on it is refused. *)
Theorem seeded_terminal_blocks s rec rec2 :
  Terminal rec = true → mem_slots s !! slot_of rec = None →
  Run_PipelineID rec2 = Run_PipelineID rec → Run_ResourceID rec2 = Run_ResourceID rec →
  let s' := (mem_CreateRun s rec []).1 in
  mem_GetActiveRunID s' (Run_PipelineID rec) (Run_ResourceID rec) =
    Ok (Some (Run_RunID rec)) ∧
  (mem_CreateRun s' rec2 []).2 = Ok (Some (CompactTerminal rec), false).
Proof.
  intros Ht Hslot Hp Hres. unfold mem_CreateRun. simpl.
  fold (slot_of rec). rewrite Hslot. simpl.
  unfold mem_GetActiveRunID. simpl. fold (slot_of rec). rewrite lookup_insert_eq.
  rewrite Hp, Hres. fold (slot_of rec). rewrite lookup_insert_eq. simpl.
  unfold occupant, stored. simpl. by rewrite lookup_insert_eq, Ht.
Qed.

(** ** Witnesses *)

Definition ex_run (id p res : string) : RunRecord :=
  mkRun id p res ∅ (Some "input") PhaseForward ∅ None None None 0 None None "" "" 0
    None 10 10 0.
Definition ex_excl (p : PipelineID) : list PipelineID :=
  if bool_decide (p = "provision") then ["provision"; "stop"]
  else if bool_decide (p = "stop") then ["provision"; "stop"] else [p].
Definition ex_store : MemStore :=
  (mem_CreateRun New (ex_run "r1" "provision" "m1") (ex_excl "provision")).1.
Definition ex_cursor : Cursor :=
  mkCursor PhaseDone "" 0 None None 0 "" "" 0 20 15.
Definition ex_done : Transition :=
  mkTransition ex_cursor [] None (Some "out") (Some OutcomeSuccess).

Lemma mem_ex_reach : mem_reach ex_excl ex_store.
Proof.
  eapply reach_step; [apply reach_new|].
  apply (step_create ex_excl New (ex_run "r1" "provision" "m1")); [done| |done].
  simpl. repeat split; discriminate.
Defined.

Lemma ex_excl_sym p q : q ∈ ex_excl p → p ∈ ex_excl q.
Proof.
  unfold ex_excl. repeat case_bool_decide; subst; set_solver.
Qed.

Lemma mutex_exclusion_witness :
  (mem_CreateRun ex_store (ex_run "r2" "stop" "m1") (ex_excl "stop")).2 =
    Ok (Some (ex_run "r1" "provision" "m1"), false) ∧
  exclusive ex_excl ex_store.
Proof.
  split; [vm_compute; reflexivity|].
  apply mutex_exclusion; [apply ex_excl_sym|apply mem_ex_reach].
Defined.

Lemma slot_index_exact_witness :
  mem_GetActiveRunID ex_store "provision" "m1" = Ok (Some "r1") ↔
  ∃ r, mem_GetRun ex_store "r1" = Ok r ∧ Terminal r = false ∧
    Run_PipelineID r = "provision" ∧ Run_ResourceID r = "m1".
Proof.
  apply (slot_index_exact ex_excl); [apply mem_ex_reach|].
  simpl. repeat split; discriminate.
Defined.

Lemma apply_transition_correct_witness :
  mem_slots (mem_ApplyTransition ex_store "r1" ex_done).1 = ∅ ∧
  ∃ s', mem_ApplyTransition ex_store "r1" ex_done = (s', Ok tt) ∧
    mem_GetRun s' "r1" = Ok (record_after ex_done (ex_run "r1" "provision" "m1")).
Proof.
  split; [vm_compute; reflexivity|].
  destruct (apply_transition_correct ex_store "r1" ex_done) as (s' & H1 & H2 & _);
    [apply (mem_reach_ok ex_excl), mem_ex_reach|].
  exists s'. split; [exact H1|exact H2].
Defined.

Lemma write_once_along_steps_witness :
  let s' := (mem_ApplyTransition ex_store "r1" ex_done).1 in
  (∃ r', mem_runs s' !! "r1" = Some r' ∧
     write_once (ex_run "r1" "provision" "m1") r') ∨
  (∃ s1 s2 r1, rtc (mem_step ex_excl) ex_store s1 ∧ mem_step ex_excl s1 s2 ∧
    rtc (mem_step ex_excl) s2 s' ∧
    mem_runs s1 !! "r1" = Some r1 ∧ mem_runs s2 !! "r1" = None ∧
    write_once (ex_run "r1" "provision" "m1") r1 ∧ Terminal r1 = true).
Proof.
  apply (write_once_along_steps ex_excl ex_store).
  - apply (mem_reach_ok ex_excl), mem_ex_reach.
  - apply rtc_once, step_apply.
  - vm_compute. reflexivity.
Defined.

Lemma seeded_terminal_blocks_witness :
  let rec := set_Outcome (Some OutcomeSuccess) (ex_run "r0" "provision" "m1") in
  (mem_CreateRun (mem_CreateRun New rec []).1 (ex_run "r1" "provision" "m1") []).2 =
    Ok (Some (CompactTerminal rec), false).
Proof.
  apply (seeded_terminal_blocks New
    (set_Outcome (Some OutcomeSuccess) (ex_run "r0" "provision" "m1"))
    (ex_run "r1" "provision" "m1")); reflexivity.
Defined.
