(* ===== verification/Signals.v ===== *)
(** * Signals: the small shared-state primitives

    - [WatchSet]: the one-shot broadcast of internal/watchset/watchset.go;
    - [Signals]: its single-slot signals;
    - [DirtySet]: the test-and-clear flags of internal/dirtyset/dirtyset.go, with
      the write-then-mark, take-then-read protocol its users follow;
    - [Frozen]: the write-once map of internal/frozen/frozen.go.

    A channel is a number; a mutex-protected section is one step, and what a method
    does after unlocking is a step of its own. *)
From S2P Require Import Prelude.

(** ** Set of internal/watchset: Watch, cancel, Notify *)

Module WatchSet.
Section watchset.
Context {K : Type} `{Countable K}.

Record Set_ := mkSet {
  watchers : gmap K (list nat);
  (** channels taken by a [Notify] that has yet to close them *)
  closing : list nat;
  closed : gset nat;
  next : nat;
}.

Definition init : Set_ := mkSet ∅ [] ∅ 0.

Definition Watch (s : Set_) (k : K) : Set_ * nat :=
  let ch := next s in
  (mkSet (<[k := map_get [] (watchers s) k ++ [ch]]> (watchers s)) (closing s) (closed s)
     (S ch), ch).

(** The loop of [cancel]: the first occurrence of the channel. *)
Fixpoint cut (ch : nat) (chs : list nat) : list nat :=
  match chs with
  | [] => []
  | c :: chs => if decide (c = ch) then chs else c :: cut ch chs
  end.

Definition cut_entry (k : K) (ch : nat) (m : gmap K (list nat)) : gmap K (list nat) :=
  match m !! k with Some chs => <[k := cut ch chs]> m | None => m end.
Definition drop_empty (k : K) (m : gmap K (list nat)) : gmap K (list nat) :=
  if decide (length (map_get [] m k) = 0) then delete k m else m.
Definition cancel (s : Set_) (k : K) (ch : nat) : Set_ :=
  mkSet (drop_empty k (cut_entry k ch (watchers s))) (closing s) (closed s) (next s).

(** [Notify], its locked section; the channels are then closed one by one. *)
Definition Notify (s : Set_) (k : K) : Set_ :=
  mkSet (delete k (watchers s)) (closing s ++ map_get [] (watchers s) k) (closed s) (next s).

(** One [close] of the loop: [None] is the panic on a closed channel. *)
Definition close (s : Set_) (ch : nat) : option Set_ :=
  if decide (ch ∈ closed s) then None
  else Some (mkSet (watchers s) (cut ch (closing s)) ({[ch]} ∪ closed s) (next s)).

Inductive step : Set_ → Set_ → Prop :=
| step_watch s k : step s (Watch s k).1
| step_cancel s k ch : step s (cancel s k ch)
| step_notify s k : step s (Notify s k)
| step_close s ch s' : ch ∈ closing s → close s ch = Some s' → step s s'.

Inductive reach : Set_ → Prop :=
| reach_init : reach init
| reach_step s s' : reach s → step s s' → reach s'.

(** A channel is registered under one key, or taken once, or closed. *)
Record ws_ok (s : Set_) : Prop := {
  ok_nodup k l : watchers s !! k = Some l → NoDup l ∧ l ≠ [];
  ok_closing : NoDup (closing s);
  ok_disjoint k k' l l' ch : watchers s !! k = Some l → watchers s !! k' = Some l' →
    ch ∈ l → ch ∈ l' → k = k';
  ok_apart k l ch : watchers s !! k = Some l → ch ∈ l → ch ∉ closing s ∧ ch ∉ closed s;
  ok_open ch : ch ∈ closing s → ch ∉ closed s;
  ok_fresh ch : (∃ k l, watchers s !! k = Some l ∧ ch ∈ l) ∨ ch ∈ closing s ∨ ch ∈ closed s →
    ch < next s;
}.

Lemma cut_sublist ch l : sublist (cut ch l) l.
Proof.
  induction l as [|c l IH]; simpl; [done|]. case_decide; [by apply sublist_cons|].
  by apply sublist_skip.
Qed.

Lemma cut_elem ch l c : NoDup l → c ∈ cut ch l ↔ c ∈ l ∧ c ≠ ch.
Proof.
  induction 1 as [|x l Hx Hnd IH]; simpl; [set_solver|]. case_decide; set_solver.
Qed.

Lemma cut_absent ch l : ch ∉ l → cut ch l = l.
Proof.
  induction l as [|c l IH]; simpl; [done|]. intros Hn. case_decide; [set_solver|].
  f_equal. apply IH. set_solver.
Qed.

Lemma Watch_ok s k : ws_ok s → ws_ok (Watch s k).1.
Proof.
  intros Hok. assert (∀ l, watchers s !! k = Some l → next s ∉ l) as Hf.
  { intros l Hl Hin. pose proof (ok_fresh _ Hok (next s)). naive_solver lia. }
  assert (∀ k' l, (watchers (Watch s k).1) !! k' = Some l →
    ∀ ch, ch ∈ l → (k' = k ∧ ch = next s) ∨ ∃ l', watchers s !! k' = Some l' ∧ ch ∈ l') as Hin.
  { intros k' l. simpl. rewrite lookup_insert. case_decide as Hk; [|naive_solver].
    intros [= <-] ch. subst. unfold map_get. destruct (watchers s !! k') as [l'|] eqn:Hl; simpl.
    - rewrite elem_of_app, list_elem_of_singleton. naive_solver.
    - rewrite list_elem_of_singleton. naive_solver. }
  assert (∀ P : Prop, (∃ k' l', watchers s !! k' = Some l' ∧ next s ∈ l') → P) as Hnf.
  { intros P Hw. pose proof (ok_fresh _ Hok (next s)). exfalso. naive_solver lia. }
  constructor.
  - intros k' l. simpl. rewrite lookup_insert. case_decide as Hk; [|apply (ok_nodup _ Hok)].
    intros [= <-]. subst. unfold map_get. destruct (watchers s !! k') as [l'|] eqn:Hl; simpl.
    + split; [|intros [_ ?]%app_eq_nil; done]. apply NoDup_app. split; [by eapply ok_nodup|].
      split; [|apply NoDup_singleton]. intros x Hx ->%list_elem_of_singleton. by eapply Hf.
    + split; [apply NoDup_singleton|done].
  - apply (ok_closing _ Hok).
  - intros k1 k2 l1 l2 ch H1 H2 Hc1 Hc2.
    destruct (Hin _ _ H1 _ Hc1) as [[-> ->]|(l1' & ? & ?)];
      destruct (Hin _ _ H2 _ Hc2) as [[-> ?]|(l2' & ? & ?)]; [done| | |].
    + eapply Hnf. eauto.
    + eapply Hnf. subst. eauto.
    + by eapply ok_disjoint.
  - intros k1 l1 ch H1 Hc1. destruct (Hin _ _ H1 _ Hc1) as [[-> ->]|(l1' & ? & ?)];
      [|by apply (ok_apart _ Hok k1 l1')].
    pose proof (ok_fresh _ Hok (next s)) as Hlt. simpl.
    split; intros ?; assert (next s < next s) by auto; lia.
  - apply (ok_open _ Hok).
  - intros ch Hch. simpl. destruct Hch as [(k1 & l1 & H1 & Hc1)|Hc].
    + destruct (Hin _ _ H1 _ Hc1) as [[-> ->]|(l1' & ? & ?)]; [lia|].
      pose proof (ok_fresh _ Hok ch). naive_solver lia.
    + pose proof (ok_fresh _ Hok ch (or_intror Hc)). lia.
Qed.

Lemma cut_entry_lookup k ch m k' :
  cut_entry k ch m !! k' = if decide (k' = k) then cut ch <$> m !! k else m !! k'.
Proof.
  unfold cut_entry. destruct (decide (k' = k)) as [->|Hne]; destruct (m !! k) eqn:Hk; try done.
  - by rewrite lookup_insert_eq.
  - by rewrite lookup_insert_ne.
Qed.

Lemma drop_empty_lookup k m k' :
  drop_empty k m !! k' =
    if decide (k' = k) then match m !! k with Some [] => None | x => x end else m !! k'.
Proof.
  unfold drop_empty, map_get. destruct (decide (k' = k)) as [->|Hne].
  - destruct (m !! k) as [[|c l]|] eqn:Hk; simpl; rewrite ?lookup_delete_eq; done.
  - case_decide; [by rewrite lookup_delete_ne|done].
Qed.

Lemma cancel_lookup s k ch k' l :
  watchers (cancel s k ch) !! k' = Some l →
  ∃ l', watchers s !! k' = Some l' ∧ l = (if decide (k' = k) then cut ch l' else l') ∧
    (k' = k → l ≠ []).
Proof.
  unfold cancel. simpl. rewrite drop_empty_lookup. intros Hl.
  destruct (decide (k' = k)) as [->|Hne].
  - rewrite cut_entry_lookup, decide_True in Hl by done.
    destruct (watchers s !! k) as [l0|]; simpl in Hl; [|done]. exists l0. split; [done|].
    destruct (cut ch l0); [done|]. by injection Hl as <-.
  - rewrite cut_entry_lookup, decide_False in Hl by done. by exists l.
Qed.

Lemma cancel_ok s k ch : ws_ok s → ws_ok (cancel s k ch).
Proof.
  intros Hok.
  assert (∀ k' l c, watchers (cancel s k ch) !! k' = Some l → c ∈ l →
    ∃ l', watchers s !! k' = Some l' ∧ c ∈ l') as Hin.
  { intros k' l c (l' & Hl' & -> & _)%cancel_lookup Hc. exists l'. split; [done|].
    case_decide; [|done]. by eapply elem_of_sublist, cut_sublist. }
  constructor.
  - intros k' l (l' & Hl' & -> & Hne)%cancel_lookup. destruct (ok_nodup _ Hok _ _ Hl').
    case_decide; [|done]. split; [by eapply sublist_NoDup, cut_sublist|by apply Hne].
  - apply (ok_closing _ Hok).
  - intros k1 k2 l1 l2 c H1 H2 Hc1 Hc2.
    destruct (Hin _ _ _ H1 Hc1) as (? & ? & ?), (Hin _ _ _ H2 Hc2) as (? & ? & ?).
    by eapply ok_disjoint.
  - intros k1 l1 c H1 Hc1. destruct (Hin _ _ _ H1 Hc1) as (l' & ? & ?). by apply (ok_apart _ Hok k1 l').
  - apply (ok_open _ Hok).
  - intros c [(k1 & l1 & H1 & Hc1)|Hc]; apply (ok_fresh _ Hok); [left|by right].
    destruct (Hin _ _ _ H1 Hc1) as (? & ? & ?). eauto.
Qed.

Lemma Notify_ok s k : ws_ok s → ws_ok (Notify s k).
Proof.
  intros Hok.
  assert (∀ k' l, watchers (Notify s k) !! k' = Some l → k' ≠ k ∧ watchers s !! k' = Some l) as Hl.
  { intros k' l. simpl. rewrite lookup_delete. case_decide; naive_solver. }
  assert (∀ ch, ch ∈ map_get [] (watchers s) k → ∃ l, watchers s !! k = Some l ∧ ch ∈ l) as Hm.
  { intros ch. unfold map_get. destruct (watchers s !! k); simpl; [eauto|].
    by intros ?%not_elem_of_nil. }
  constructor.
  - intros k' l [_ ?]%Hl. by eapply ok_nodup.
  - simpl. apply NoDup_app. split; [by apply ok_closing|]. split.
    + intros x Hx (l & Hl' & Hin)%Hm. destruct (ok_apart _ Hok k l x Hl' Hin). done.
    + unfold map_get. destruct (watchers s !! k) eqn:Hk; simpl; [by eapply ok_nodup|constructor].
  - intros k1 k2 l1 l2 c [_ H1]%Hl [_ H2]%Hl. by eapply ok_disjoint.
  - intros k1 l1 c [Hne H1]%Hl Hc. simpl. rewrite elem_of_app.
    destruct (ok_apart _ Hok k1 l1 c H1 Hc). split; [|done].
    intros [?|(l & Hl' & Hin)%Hm]; [done|]. apply Hne. by eapply ok_disjoint.
  - intros c. simpl. rewrite elem_of_app. intros [?|(l & Hl' & Hin)%Hm]; [by apply ok_open|].
    by apply (ok_apart _ Hok k l).
  - intros c. simpl. rewrite elem_of_app.
    intros [(k1 & l1 & [_ H1]%Hl & Hc)|[[?|(l & Hl' & Hin)%Hm]|?]];
      apply (ok_fresh _ Hok); eauto 6.
Qed.

Lemma close_ok s ch s' : ws_ok s → ch ∈ closing s → close s ch = Some s' → ws_ok s'.
Proof.
  intros Hok Hin. unfold close. case_decide; [done|]. intros [= <-].
  pose proof (ok_closing _ Hok) as Hnd.
  constructor; simpl.
  - apply (ok_nodup _ Hok).
  - by eapply sublist_NoDup, cut_sublist.
  - apply (ok_disjoint _ Hok).
  - intros k l c Hl Hc. destruct (ok_apart _ Hok k l c Hl Hc). rewrite cut_elem by done. set_solver.
  - intros c. rewrite cut_elem by done. intros [Hc Hne]. pose proof (ok_open _ Hok c Hc). set_solver.
  - intros c Hc. apply (ok_fresh _ Hok). destruct Hc as [?|[Hc|Hc]]; [by left| |].
    + rewrite cut_elem in Hc by done. naive_solver.
    + apply elem_of_union in Hc as [->%elem_of_singleton|?]; naive_solver.
Qed.

Lemma step_ok s s' : ws_ok s → step s s' → ws_ok s'.
Proof.
  intros Hok Hs. destruct Hs; eauto using Watch_ok, cancel_ok, Notify_ok, close_ok.
Qed.

Lemma watch_reach_ok s : reach s → ws_ok s.
Proof.
  induction 1 as [|s s' _ IH Hs]; [|by eapply step_ok].
  constructor; simpl; intros *; rewrite ?lookup_empty; try done; try set_solver.
  apply NoDup_nil_2.
Qed.

(** Whatever the interleaving of Watch, cancel, Notify and the closes a Notify
    still owes, no channel is closed twice (which would panic), and a channel still
    registered is open. *)
Theorem close_never_panics s ch :
  reach s →
  (ch ∈ closing s → is_Some (close s ch)) ∧
  (∀ k l, watchers s !! k = Some l → ch ∈ l → ch ∉ closed s ∧ ch ∉ closing s).
Proof.
  intros Hok%watch_reach_ok. split.
  - intros Hc%(ok_open _ Hok). unfold close. rewrite decide_False by done. by eexists.
  - intros k l Hl Hc. by destruct (ok_apart _ Hok k l ch Hl Hc).
Qed.

(** No watcher misses a Notify: once registered, a channel stays registered or
    owed a close or closed through every step but its own cancel, and a Notify of
    its key moves it on. *)
Theorem watcher_not_missed s s' k ch l :
  reach s → watchers s !! k = Some l → ch ∈ l → step s s' →
  (∃ l', watchers s' !! k = Some l' ∧ ch ∈ l') ∨ ch ∈ closing s' ∨
  s' = cancel s k ch.
Proof.
  intros Hok%watch_reach_ok Hl Hin Hs. destruct Hs as [s k'|s k' ch'|s k'|s ch' s' Hc' Hcl].
  - left. simpl. rewrite lookup_insert. case_decide as Hk; [|eauto]. subst k'. eexists. split; [done|].
    unfold map_get. rewrite Hl. simpl. apply elem_of_app. by left.
  - assert (watchers (cancel s k' ch') !! k =
      if decide (k = k') then match cut ch' l with [] => None | x => Some x end else Some l) as Hw.
    { unfold cancel. simpl. rewrite drop_empty_lookup, !cut_entry_lookup.
      destruct (decide (k = k')) as [<-|Hne]; [|done].
      rewrite decide_True, Hl by done. simpl. by destruct (cut ch' l). }
    rewrite Hw. destruct (decide (k = k')) as [<-|Hk]; [|eauto].
    destruct (decide (ch' = ch)) as [->|Hch]; [by right; right|]. left.
    assert (ch ∈ cut ch' l) as Hcut by (apply cut_elem; [by eapply ok_nodup|done]).
    destruct (cut ch' l); [by apply not_elem_of_nil in Hcut|eauto].
  - destruct (decide (k' = k)) as [->|Hk].
    + right. left. simpl. apply elem_of_app. right. unfold map_get. by rewrite Hl.
    + left. exists l. split; [|done]. simpl. by rewrite lookup_delete_ne.
  - left. unfold close in Hcl. case_decide; [done|]. injection Hcl as <-. eauto.
Qed.
End watchset.

Definition ex_set : @Set_ nat _ _ := Notify (Watch (Watch (init (K:=nat)) 3).1 4).1 3.

Lemma watch_ex_reach : reach ex_set.
Proof. repeat (eapply reach_step; [|constructor]). constructor. Qed.

Lemma close_never_panics_witness : is_Some (close ex_set 0).
Proof.
  destruct (close_never_panics ex_set 0 watch_ex_reach) as [Hc _]. apply Hc. left.
Defined.

Lemma watcher_not_missed_witness :
  (∃ l', watchers (Notify ex_set 4) !! 4 = Some l' ∧ 1 ∈ l') ∨ 1 ∈ closing (Notify ex_set 4) ∨
  Notify ex_set 4 = cancel ex_set 4 1.
Proof.
  apply (watcher_not_missed ex_set (Notify ex_set 4) 4 1 [1] watch_ex_reach);
    [reflexivity|left|constructor].
Defined.
End WatchSet.

(** ** Signals of internal/watchset: Arm, Disarm, Fire, and the waiter's receive *)

Module Signals.
Section signals.
Context {K : Type} `{Countable K}.

(** [armed] gives the key's channel, [full] the channels whose single slot holds an
    undelivered signal. *)
Record Signals := mkSignals {
  armed : gmap K nat;
  full : gset nat;
  next : nat;
}.

Definition init : Signals := mkSignals ∅ ∅ 0.

Definition Arm (s : Signals) (k : K) : Signals * nat :=
  (mkSignals (<[k := next s]> (armed s)) (full s) (S (next s)), next s).
Definition Disarm (s : Signals) (k : K) : Signals :=
  mkSignals (delete k (armed s)) (full s) (next s).
Definition Fire (s : Signals) (k : K) : Signals :=
  match armed s !! k with
  | Some ch => mkSignals (armed s) ({[ch]} ∪ full s) (next s)
  | None => s
  end.
Definition Len (s : Signals) : nat := size (armed s).
(** The waiter's receive: [None] while it would block. *)
Definition receive (s : Signals) (ch : nat) : option Signals :=
  if decide (ch ∈ full s) then Some (mkSignals (armed s) (full s ∖ {[ch]}) (next s)) else None.

Inductive op := Arm_ (k : K) | Disarm_ (k : K) | Fire_ (k : K) | Receive_ (ch : nat).

Definition exec (o : op) (s : Signals) : option Signals :=
  match o with
  | Arm_ k => Some (Arm s k).1
  | Disarm_ k => Some (Disarm s k)
  | Fire_ k => Some (Fire s k)
  | Receive_ ch => receive s ch
  end.
Fixpoint exec_all (os : list op) (s : Signals) : option Signals :=
  match os with
  | [] => Some s
  | o :: os => match exec o s with Some s => exec_all os s | None => None end
  end.

Definition leaves (k : K) (ch : nat) (o : op) : Prop :=
  match o with Arm_ k' | Disarm_ k' => k' ≠ k | Receive_ ch' => ch' ≠ ch | Fire_ _ => True end.

Lemma signals_exec_leaves k ch o s s' :
  leaves k ch o → exec o s = Some s' → armed s !! k = Some ch →
  armed s' !! k = Some ch ∧ (ch ∈ full s' ↔ ch ∈ full s ∨ o = Fire_ k ∨
    (∃ k', o = Fire_ k' ∧ armed s !! k' = Some ch)).
Proof.
  intros Hl He Hk. destruct o as [k'|k'|k'|ch']; simpl in *.
  - injection He as <-. simpl. rewrite lookup_insert_ne by done. naive_solver.
  - injection He as <-. simpl. rewrite lookup_delete_ne by done. naive_solver.
  - injection He as <-. unfold Fire. destruct (armed s !! k') as [ch'|] eqn:Hk'; simpl.
    + split; [done|]. rewrite elem_of_union, elem_of_singleton. naive_solver.
    + split; [done|]. naive_solver.
  - unfold receive in He. case_decide; [|done]. injection He as <-. simpl.
    split; [done|]. set_solver.
Qed.

Lemma signals_exec_all_leaves k ch os s s' :
  Forall (leaves k ch) os → exec_all os s = Some s' → armed s !! k = Some ch →
  armed s' !! k = Some ch ∧ (ch ∈ full s ∨ Fire_ k ∈ os → ch ∈ full s').
Proof.
  revert s. induction os as [|o os IH]; intros s Hl He Hk; simpl in He.
  { injection He as <-. split; [done|]. set_solver. }
  apply Forall_cons in Hl as [Ho Hl]. destruct (exec o s) as [s1|] eqn:He1; [|done].
  destruct (signals_exec_leaves k ch o s s1 Ho He1 Hk) as [Hk1 Hf1].
  destruct (IH s1 Hl He Hk1) as [Hk2 Hf2]. split; [done|].
  rewrite elem_of_cons. naive_solver.
Qed.

(** A Fire between Arm and the receive is not missed: whatever operations
    follow the Arm, short of a receive on its channel and of a Disarm or another Arm
    of its key, once the key was fired the receive goes through; the fires coalesce
    into the one slot. *)
Theorem fire_not_missed s k os s' :
  let '(s1, ch) := Arm s k in
  Forall (leaves k ch) os → exec_all os s1 = Some s' → Fire_ k ∈ os →
  ∃ s2, receive s' ch = Some s2 ∧ receive s2 ch = None.
Proof.
  simpl. intros Hl He Hf.
  destruct (signals_exec_all_leaves k (next s) os _ s' Hl He) as [_ Hfull];
    [simpl; apply lookup_insert_eq|].
  eexists. unfold receive. rewrite decide_True by auto. split; [done|]. simpl.
  rewrite decide_False by set_solver. done.
Qed.
End signals.

Definition ex_ops : list (@op nat) := [Fire_ 4; Arm_ 5; Fire_ 5; Receive_ 1; Fire_ 4].

Lemma fire_not_missed_witness :
  ∃ s' s2, exec_all ex_ops (Arm init 4).1 = Some s' ∧ receive s' 0 = Some s2.
Proof.
  destruct (exec_all ex_ops (Arm init 4).1) as [s'|] eqn:He; [|discriminate He].
  destruct (fire_not_missed init 4 ex_ops s') as (s2 & Hr & _).
  - repeat constructor; simpl; lia.
  - exact He.
  - left.
  - exists s', s2. split; [reflexivity|exact Hr].
Defined.
End Signals.

(** ** The dirty set, and the protocol of its users *)

Module DirtySet.
Section dirtyset.
Context {K : Type} `{Countable K}.

Definition Set_ : Type := gset K.
Definition Mark (s : Set_) (k : K) : Set_ := {[k]} ∪ s.
Definition Take (s : Set_) (k : K) : Set_ * bool := (s ∖ {[k]}, bool_decide (k ∈ s)).

(** One key's users: writers change [stored] and then mark; the reader takes, and
    when told reloads its [copy]. *)
Record users := mkUsers {
  marks : Set_;
  stored : nat;
  copy : nat;
  writing : nat;     (** writers between their write and their mark *)
  reloading : bool;  (** the reader is between its Take and its read *)
}.

Inductive step (k : K) : users → users → Prop :=
| step_write u v :
    step k u (mkUsers (marks u) v (copy u) (S (writing u)) (reloading u))
| step_mark u n :
    writing u = S n →
    step k u (mkUsers (Mark (marks u) k) (stored u) (copy u) n (reloading u))
| step_other u k' : k' ≠ k →
    step k u (mkUsers (Mark (marks u) k') (stored u) (copy u) (writing u) (reloading u))
| step_take_other u k' : k' ≠ k →
    step k u (mkUsers (Take (marks u) k').1 (stored u) (copy u) (writing u) (reloading u))
| step_take u :
    reloading u = false →
    step k u (mkUsers (Take (marks u) k).1 (stored u) (copy u) (writing u)
                (Take (marks u) k).2)
| step_read u :
    reloading u = true →
    step k u (mkUsers (marks u) (stored u) (stored u) (writing u) false).

Inductive reach (k : K) : users → Prop :=
| reach_init v : reach k (mkUsers ∅ v v 0 false)
| reach_step u u' : reach k u → step k u u' → reach k u'.

(** Under write-then-mark and take-then-read no update is missed: a reader
    whose copy differs from the stored value is reloading, or its key is marked, or
    a writer has yet to mark it; so with the writers done, an unset mark means the
    copy is current. *)
Theorem update_not_missed k u :
  reach k u →
  (copy u ≠ stored u → reloading u = true ∨ k ∈ marks u ∨ 0 < writing u) ∧
  (writing u = 0 → reloading u = false → (Take (marks u) k).2 = false → copy u = stored u).
Proof.
  intros Hr. assert (copy u ≠ stored u → reloading u = true ∨ k ∈ marks u ∨ 0 < writing u) as Hi.
  { induction Hr as [v|u u' _ IH Hs]; [done|].
    destruct Hs; simpl in *; intros Hne.
    - right. right. lia.
    - right. left. unfold Mark. set_solver.
    - destruct (IH Hne) as [?|[?|?]]; [auto| |auto]. right. left. unfold Mark. set_solver.
    - destruct (IH Hne) as [?|[?|?]]; [auto| |auto]. right. left. unfold Take. set_solver.
    - destruct (IH Hne) as [?|[?|?]]; [congruence| |auto]. left. unfold Take. simpl.
      by apply bool_decide_eq_true_2.
    - done. }
  split; [done|]. intros Hw Hrl Ht. unfold Take in Ht. simpl in Ht. zbool.
  destruct (decide (copy u = stored u)) as [?|Hne]; [done|].
  destruct (Hi Hne) as [?|[?|?]]; [congruence|done|lia].
Qed.
End dirtyset.

Definition ex_users : @users nat _ _ := mkUsers (Mark ∅ 3) 8 7 0 false.

Lemma dirty_ex_reach : reach 3 ex_users.
Proof.
  eapply reach_step; [eapply reach_step; [apply (reach_init 3 7)|apply (step_write 3 _ 8)]|].
  apply (step_mark 3 (mkUsers ∅ 8 7 1 false) 0). reflexivity.
Qed.

Lemma update_not_missed_witness : 3 ∈ marks ex_users.
Proof.
  destruct (update_not_missed 3 ex_users dirty_ex_reach) as [Hi _].
  destruct Hi as [Hi|[Hi|Hi]]; [simpl; discriminate|discriminate Hi|exact Hi|simpl in Hi; lia].
Defined.
End DirtySet.

(** ** The write-then-read-only map *)

Module Frozen.
Section frozen.
Context {K V : Type} `{Countable K}.

Record Map := mkMap {
  m : gmap K V;
  frozen : bool;
}.

Definition empty : Map := mkMap ∅ false.
(** [None] is the panic of a Put after Freeze. *)
Definition Put (f : Map) (k : K) (v : V) : option Map :=
  if frozen f then None else Some (mkMap (<[k := v]> (m f)) false).
Definition Get (f : Map) (k : K) : option V := m f !! k.
Definition Len (f : Map) : nat := size (m f).
Definition Freeze (f : Map) : Map := mkMap (m f) true.
Definition Frozen (f : Map) : bool := frozen f.

(** [Range] with a callback that threads a state, visits the entries in the order
    [l] and stops at the first [false]. *)
Fixpoint Range_in {S : Type} (l : list (K * V)) (fn : S → K → V → S * bool) (s : S) : S :=
  match l with
  | [] => s
  | (k, v) :: l => let '(s, go) := fn s k v in if go then Range_in l fn s else s
  end.
Definition Range {S : Type} (f : Map) (fn : S → K → V → S * bool) (s : S) : S :=
  Range_in (map_to_list (m f)) fn s.

Inductive op := Put_ (k : K) (v : V) | Freeze_.
Definition exec (o : op) (f : Map) : option Map :=
  match o with Put_ k v => Put f k v | Freeze_ => Some (Freeze f) end.
Fixpoint exec_all (os : list op) (f : Map) : option Map :=
  match os with
  | [] => Some f
  | o :: os => match exec o f with Some f => exec_all os f | None => None end
  end.

(** A frozen map is read-only: operations that succeed from it on are freezes,
    every entry and the length stay, and any Put panics; before the freeze a Get
    returns the last value put. *)
Theorem frozen_read_only f os f' :
  exec_all os (Freeze f) = Some f' →
  f' = Freeze f ∧ Forall (λ o, o = Freeze_) os ∧ (∀ k v, Put f' k v = None) ∧
  (∀ k v g, Put f k v = Some g → Get g k = Some v ∧ ∀ k', k' ≠ k → Get g k' = Get f k').
Proof.
  intros He. assert (f' = Freeze f ∧ Forall (λ o, o = Freeze_) os) as [-> Hos].
  { revert He. induction os as [|o os IH]; simpl; [by intros [= <-]|].
    destruct o as [k v|]; simpl; [done|]. intros [-> ?]%IH. split; [done|]. by constructor. }
  do 2 (split; [done|]). split; [done|]. intros k v g. unfold Put. destruct (frozen f); [done|].
  intros [= <-]. unfold Get. simpl. rewrite lookup_insert_eq. split; [done|].
  intros k' Hk. by rewrite lookup_insert_ne.
Qed.
End frozen.

Lemma frozen_read_only_witness :
  exec_all [Freeze_; Freeze_] (Freeze (mkMap {[1 := 2]} false)) =
    Some (Freeze (mkMap {[1 := 2]} false)).
Proof.
  destruct (exec_all [Freeze_; Freeze_] (Freeze (mkMap {[1 := 2]} false))) as [f'|] eqn:He;
    [|discriminate He].
  destruct (frozen_read_only (mkMap {[1 := 2]} false) [Freeze_; Freeze_] f' He) as (-> & _).
  reflexivity.
Defined.
End Frozen.
