(* ===== verification/Dispatcher.v ===== *)
(** * Dispatcher: the single-flight scheduler of internal/dispatcher/dispatcher.go

    A state machine over goroutines: each [Dispatch] call that finds no worker
    starts one, identified by a number, and each blocking point, each mutex section
    and each channel operation of its body is a step.  Everything the dispatcher
    does not decide is an input of a step: which goroutine moves, when a delay
    elapses, what the callback [Run] returns, when the context is done. *)
From S2P Require Import Prelude Signals.

Section dispatcher.
Context {K : Type} `{Countable K}.

(** Where a worker's goroutine stands. *)
Inductive phase :=
| Arming (delay : Duration)     (** marked active, about to arm and spawn *)
| Waiting (ch : nat)            (** in the select over delay, wake and context *)
| Woken                         (** out of the select, about to disarm *)
| Stopping                      (** the context ended the wait, about to disarm *)
| Queued                        (** at the semaphore *)
| Stopped                       (** the context ended it: about to clear *)
| Running                       (** inside Run *)
| Ran (redispatchIn : Duration) (again : bool)      (** Run returned: release the semaphore *)
| Exiting (redispatchIn : Duration) (again : bool)  (** about to clear *)
| Cleared (redispatchIn : Duration) (again : bool)  (** cleared, about to check the context *)
| Redispatch (redispatchIn : Duration).             (** about to Dispatch again *)

Record Dispatcher := mkD {
  concurrency : Z;
  sem : nat;                     (** entries in the semaphore channel *)
  wakes : Signals.Signals (K:=K);
  active : gset K;
  repoke : gset K;
  workers : gmap nat (K * phase);
  spawned : nat;
  done : bool;                   (** the context is done *)
  (** keys dispatched since their last Run started: not part of the program *)
  owed : gset K;
}.

(** [New]: [None] is its panic; the other members of the configuration are not
    nil. *)
Definition New (concurrency : Z) : option Dispatcher :=
  if (concurrency <? 0)%Z then None
  else Some (mkD concurrency 0 Signals.init ∅ ∅ ∅ 0 false ∅).

Definition set_workers (d : Dispatcher) (ws : gmap nat (K * phase)) : Dispatcher :=
  mkD (concurrency d) (sem d) (wakes d) (active d) (repoke d) ws (spawned d) (done d) (owed d).
Definition set_wakes (d : Dispatcher) (s : Signals.Signals) : Dispatcher :=
  mkD (concurrency d) (sem d) s (active d) (repoke d) (workers d) (spawned d) (done d) (owed d).
Definition set_sem (d : Dispatcher) (n : nat) : Dispatcher :=
  mkD (concurrency d) n (wakes d) (active d) (repoke d) (workers d) (spawned d) (done d) (owed d).
Definition set_active (d : Dispatcher) (a r : gset K) : Dispatcher :=
  mkD (concurrency d) (sem d) (wakes d) a r (workers d) (spawned d) (done d) (owed d).
Definition move (d : Dispatcher) (i : nat) (k : K) (p : phase) : Dispatcher :=
  set_workers d (<[i := (k, p)]> (workers d)).
Definition exit (d : Dispatcher) (i : nat) : Dispatcher :=
  set_workers d (delete i (workers d)).

(** The locked section of [Dispatch]: a re-poke, or a new worker [i]. *)
Definition dispatch (d : Dispatcher) (i : nat) (k : K) (delay : Duration) : Dispatcher :=
  if decide (k ∈ active d) then set_active d (active d) ({[k]} ∪ repoke d)
  else move (set_active d ({[k]} ∪ active d) (repoke d)) i k (Arming delay).

(** [Dispatch] by a caller. *)
Definition Dispatch (d : Dispatcher) (k : K) (delay : Duration) : Dispatcher :=
  let d' := dispatch d (spawned d) k delay in
  mkD (concurrency d') (sem d') (wakes d') (active d') (repoke d') (workers d')
    (S (spawned d)) (done d') ({[k]} ∪ owed d').

Definition Wake (d : Dispatcher) (k : K) : Dispatcher :=
  set_wakes d (Signals.Fire (wakes d) k).
Definition clearActive (d : Dispatcher) (k : K) : Dispatcher * bool :=
  (set_active d (active d ∖ {[k]}) (repoke d ∖ {[k]}), bool_decide (k ∈ repoke d)).
Definition IsActive (d : Dispatcher) (k : K) : bool := bool_decide (k ∈ active d).
Definition Active (d : Dispatcher) : nat := size (active d).
Definition Delayed (d : Dispatcher) : nat := Signals.Len (wakes d).

(** What the environment decides in a worker's step. *)
Inductive choice :=
| Go            (** the ready continuation: timer, semaphore, next statement *)
| ByWake        (** the select takes the wake channel *)
| ByDone        (** the select takes the context *)
| Returns (redispatchIn : Duration) (again : bool).  (** what Run returns *)

(** One step of worker [i]; [None] when it cannot take it. *)
Definition work (d : Dispatcher) (i : nat) (c : choice) : option Dispatcher :=
  match workers d !! i with
  | None => None
  | Some (k, p) =>
    match p, c with
    | Arming delay, Go =>
      if (0 <? delay)%Z then
        let '(s, ch) := Signals.Arm (wakes d) k in
        Some (move (set_wakes d s) i k (Waiting ch))
      else Some (move d i k Queued)
    | Waiting _, Go => Some (move d i k Woken)
    | Waiting ch, ByWake =>
      match Signals.receive (wakes d) ch with
      | Some s => Some (move (set_wakes d s) i k Woken)
      | None => None
      end
    | Waiting _, ByDone => if done d then Some (move d i k Stopping) else None
    | Woken, Go => Some (move (set_wakes d (Signals.Disarm (wakes d) k)) i k Queued)
    | Stopping, Go => Some (move (set_wakes d (Signals.Disarm (wakes d) k)) i k Stopped)
    | Queued, Go =>
      if (0 <? concurrency d)%Z then
        if (Z.of_nat (sem d) <? concurrency d)%Z then
          let d := move (set_sem d (S (sem d))) i k Running in
          Some (mkD (concurrency d) (sem d) (wakes d) (active d) (repoke d) (workers d)
                  (spawned d) (done d) (owed d ∖ {[k]}))
        else None
      else
        let d := move d i k Running in
        Some (mkD (concurrency d) (sem d) (wakes d) (active d) (repoke d) (workers d)
                (spawned d) (done d) (owed d ∖ {[k]}))
    | Queued, ByDone =>
      if (0 <? concurrency d)%Z && done d then Some (move d i k Stopped) else None
    | Stopped, Go => Some (exit (clearActive d k).1 i)
    | Running, Returns r again => Some (move d i k (Ran r again))
    | Ran r again, Go =>
      if (0 <? concurrency d)%Z then
        match sem d with
        | 0 => None
        | S n => Some (move (set_sem d n) i k (Exiting r again))
        end
      else Some (move d i k (Exiting r again))
    | Exiting r again, Go =>
      let '(d, poked) := clearActive d k in
      let '(r, again) := if poked then (0%Z, true) else (r, again) in
      Some (move d i k (Cleared r again))
    | Cleared r again, Go =>
      if again && negb (done d) then Some (move d i k (Redispatch r)) else Some (exit d i)
    | Redispatch r, Go => Some (dispatch (exit d i) i k r)
    | _, _ => None
    end
  end.

Inductive label :=
| LDispatch (k : K) (delay : Duration)
| LWake (k : K)
| LDone
| LWork (i : nat) (c : choice).

Definition exec (l : label) (d : Dispatcher) : option Dispatcher :=
  match l with
  | LDispatch k delay => Some (Dispatch d k delay)
  | LWake k => Some (Wake d k)
  | LDone => Some (mkD (concurrency d) (sem d) (wakes d) (active d) (repoke d) (workers d)
                    (spawned d) true (owed d))
  | LWork i c => work d i c
  end.
Fixpoint exec_all (ls : list label) (d : Dispatcher) : option Dispatcher :=
  match ls with
  | [] => Some d
  | l :: ls => match exec l d with Some d => exec_all ls d | None => None end
  end.

Inductive reach (c : Z) : Dispatcher → Prop :=
| reach_init d : New c = Some d → reach c d
| reach_step l d d' : reach c d → exec l d = Some d' → reach c d'.

(** ** Invariants, by concern *)

(** The worker occupies its key. *)
Definition owns (p : phase) : bool :=
  match p with Cleared _ _ | Redispatch _ => false | _ => true end.
(** The worker holds a semaphore slot. *)
Definition holds (p : phase) : bool := match p with Running | Ran _ _ => true | _ => false end.
(** A Run of the key is still ahead of the worker. *)
Definition will_run (p : phase) : bool :=
  match p with
  | Arming _ | Waiting _ | Woken | Queued | Redispatch _ => true
  | Cleared _ again => again
  | _ => false
  end.
(** The worker is in, or past, its Run and has yet to clear. *)
Definition finishing (p : phase) : bool :=
  match p with Running | Ran _ _ | Exiting _ _ => true | _ => false end.
Definition armed_phase (p : phase) : bool :=
  match p with Waiting _ | Woken | Stopping => true | _ => false end.
Definition stopping (p : phase) : bool :=
  match p with Stopping | Stopped => true | _ => false end.

Abbreviation workers_map := (gmap nat (K * phase)).
Implicit Types (ws : workers_map).

(** At most one worker owns a key, and the owned keys are the active ones. *)
Record single_flight ws (act rep : gset K) (n : nat) : Prop := {
  sf_single i j k p q : ws !! i = Some (k, p) → ws !! j = Some (k, q) →
    owns p = true → owns q = true → i = j;
  sf_active k : k ∈ act ↔ ∃ i p, ws !! i = Some (k, p) ∧ owns p = true;
  sf_repoke k : k ∈ rep → k ∈ act;
  sf_ids i x : ws !! i = Some x → i < n;
}.

Definition is_holder (x : nat * (K * phase)) : Prop := holds x.2.2 = true.
#[export] Instance is_holder_dec x : Decision (is_holder x) := decide (holds x.2.2 = true).

(** The semaphore counts the workers in their Run. *)
Definition slots (c : Z) (sem : nat) ws : Prop :=
  (0 < c)%Z → sem = map_count is_holder ws ∧ (Z.of_nat sem <= c)%Z.

(** A key is armed exactly while its owner waits, on the owner's channel. *)
Record arming ws (s : Signals.Signals (K:=K)) (act : gset K) : Prop := {
  ar_armed i k p : ws !! i = Some (k, p) → owns p = true →
    (armed_phase p = true ↔ is_Some (Signals.armed s !! k));
  ar_channel i k ch : ws !! i = Some (k, Waiting ch) → Signals.armed s !! k = Some ch;
  ar_owner k : is_Some (Signals.armed s !! k) → k ∈ act;
}.

(** A dispatch whose Run has not started will be honored. *)
Definition honored ws (rep : gset K) (dn : bool) (k : K) : Prop :=
  dn = true ∨ (∃ i p, ws !! i = Some (k, p) ∧ will_run p = true) ∨
  (k ∈ rep ∧ ∃ i p, ws !! i = Some (k, p) ∧ finishing p = true).

Record d_ok (c : Z) (d : Dispatcher) : Prop := {
  ok_concurrency : concurrency d = c;
  ok_single : single_flight (workers d) (active d) (repoke d) (spawned d);
  ok_slots : slots (concurrency d) (sem d) (workers d);
  ok_arming : arming (workers d) (wakes d) (active d);
  ok_stop i k p : workers d !! i = Some (k, p) → stopping p = true → done d = true;
  ok_owed k : k ∈ owed d → honored (workers d) (repoke d) (done d) k;
}.

(** Lookup in an updated worker map. *)
Ltac wlookup :=
  repeat match goal with
  | H : <[_:=_]> _ !! _ = Some _ |- _ =>
    apply lookup_insert_Some in H as [[? ?]|[? H]]; simplify_eq
  | H : delete _ _ !! _ = Some _ |- _ => apply lookup_delete_Some in H as [? H]
  end.

(** *** Single flight *)

Lemma sf_move ws act rep n i k p p' :
  single_flight ws act rep n → ws !! i = Some (k, p) → owns p' = owns p →
  single_flight (<[i := (k, p')]> ws) act rep n.
Proof.
  intros [Hs Ha Hr Hi] Hw Ho. constructor.
  - intros i1 i2 k' p1 p2 H1 H2 Ho1 Ho2. wlookup; try done;
      (eapply Hs; [eassumption|eassumption|congruence..]).
  - intros k'. rewrite Ha. split.
    + intros (j & q & Hj & Hq). destruct (decide (j = i)) as [->|Hne].
      * simplify_eq. exists i, p'. rewrite lookup_insert_eq. split; [done|congruence].
      * exists j, q. by rewrite lookup_insert_ne.
    + intros (j & q & Hj & Hq).
      apply lookup_insert_Some in Hj as [[<- [= <- <-]]|[_ Hj]]; [|by eauto].
      exists i, p. split; [done|congruence].
  - done.
  - intros j x Hj. apply lookup_insert_Some in Hj as [[<- _]|[_ Hj]]; eauto.
Qed.

(** The locked section of [clearActive], by the owner. *)
Lemma sf_clear ws ws' act rep n i k p :
  single_flight ws act rep n → ws !! i = Some (k, p) → owns p = true →
  (∀ j, j ≠ i → ws' !! j = ws !! j) →
  (∀ k' p', ws' !! i = Some (k', p') → k' = k ∧ owns p' = false) →
  single_flight ws' (act ∖ {[k]}) (rep ∖ {[k]}) n.
Proof.
  intros [Hs Ha Hr Hi] Hw Ho Hother Hself. constructor.
  - intros i1 i2 k' p1 p2 H1 H2 Ho1 Ho2.
    destruct (decide (i1 = i)) as [->|N1]; [destruct (Hself _ _ H1); congruence|].
    destruct (decide (i2 = i)) as [->|N2]; [destruct (Hself _ _ H2); congruence|].
    rewrite Hother in H1, H2 by done. by eapply Hs.
  - intros k'. rewrite elem_of_difference, elem_of_singleton, Ha. split.
    + intros [(j & q & Hj & Hq) Hk]. exists j, q. split; [|done].
      rewrite Hother; [done|]. intros ->. congruence.
    + intros (j & q & Hj & Hq). destruct (decide (j = i)) as [->|Nj];
        [destruct (Hself _ _ Hj); congruence|].
      rewrite Hother in Hj by done. split; [eauto|]. intros ->. apply Nj. by eapply Hs.
  - set_solver.
  - intros j x Hj. destruct (decide (j = i)) as [->|Nj]; [by eapply Hi|].
    rewrite Hother in Hj by done. by eapply Hi.
Qed.

(** A new owner for an inactive key, at an identifier with no owner. *)
Lemma sf_add ws act rep n n' i k delay :
  single_flight ws act rep n → k ∉ act → i < n' → n ≤ n' →
  (∀ k' p', ws !! i = Some (k', p') → owns p' = false) →
  single_flight (<[i := (k, Arming delay)]> ws) ({[k]} ∪ act) rep n'.
Proof.
  intros [Hs Ha Hr Hi] Hk Hlt Hle Hself.
  assert (∀ j q, ws !! j = Some (k, q) → owns q = true → False) as Hno.
  { intros j q Hj Hq. apply Hk, Ha. eauto. }
  constructor.
  - intros i1 i2 k' p1 p2 H1 H2 Ho1 Ho2. wlookup; try done; try (exfalso; by eapply Hno).
    by eapply Hs.
  - intros k'. rewrite elem_of_union, elem_of_singleton, Ha. split.
    + intros [->|(j & q & Hj & Hq)].
      * exists i, (Arming delay). by rewrite lookup_insert_eq.
      * exists j, q. rewrite lookup_insert_ne; [done|]. intros <-.
        rewrite (Hself _ _ Hj) in Hq. done.
    + intros (j & q & Hj & Hq). wlookup; [by left|right; eauto].
  - set_solver.
  - intros j x Hj. apply lookup_insert_Some in Hj as [[<- _]|[_ Hj]]; [done|].
    specialize (Hi _ _ Hj). lia.
Qed.

Lemma sf_exit ws act rep n i :
  single_flight ws act rep n → (∀ k p, ws !! i = Some (k, p) → owns p = false) →
  single_flight (delete i ws) act rep n.
Proof.
  intros [Hs Ha Hr Hi] Hself. constructor.
  - intros i1 i2 k' p1 p2 H1 H2. wlookup. by eapply Hs.
  - intros k'. rewrite Ha. split.
    + intros (j & q & Hj & Hq). exists j, q. split; [|done]. rewrite lookup_delete_ne; [done|].
      intros ->. rewrite (Hself _ _ Hj) in Hq. done.
    + intros (j & q & Hj & Hq). wlookup. eauto.
  - done.
  - intros j x Hj. wlookup. eauto.
Qed.

Lemma sf_repoke_add ws act rep n n' k :
  single_flight ws act rep n → k ∈ act → n ≤ n' →
  single_flight ws act ({[k]} ∪ rep) n'.
Proof.
  intros [Hs Ha Hr Hi] Hk Hle. constructor; [done|done|set_solver|].
  intros i x Hx. specialize (Hi _ _ Hx). lia.
Qed.

(** *** The semaphore *)

Lemma slots_move c n ws i k p p' :
  slots c n ws → ws !! i = Some (k, p) → holds p' = holds p → slots c n (<[i := (k, p')]> ws).
Proof.
  intros Hs Hw Hh Hc. destruct (Hs Hc) as [-> Hle].
  pose proof (map_count_insert is_holder ws i (k, p')) as Hcount.
  unfold counted in Hcount. rewrite Hw in Hcount.
  destruct (decide (is_holder (i, (k, p')))) as [A|A], (decide (is_holder (i, (k, p)))) as [B|B];
    unfold is_holder in A, B; simpl in A, B; try congruence; lia.
Qed.

Lemma slots_enter c n ws i k :
  slots c n ws → ws !! i = Some (k, Queued) → (Z.of_nat n < c)%Z →
  slots c (S n) (<[i := (k, Running)]> ws).
Proof.
  intros Hs Hw Hlt Hc. destruct (Hs Hc) as [-> Hle].
  pose proof (map_count_insert is_holder ws i (k, Running)) as Hcount.
  unfold counted in Hcount. rewrite Hw in Hcount. repeat case_decide; try done; lia.
Qed.

Lemma slots_leave c n ws i k r again :
  slots c (S n) ws → ws !! i = Some (k, Ran r again) →
  slots c n (<[i := (k, Exiting r again)]> ws).
Proof.
  intros Hs Hw Hc. destruct (Hs Hc) as [Hn Hle].
  pose proof (map_count_insert is_holder ws i (k, Exiting r again)) as Hcount.
  unfold counted in Hcount. rewrite Hw in Hcount. repeat case_decide; try done; lia.
Qed.

Lemma slots_delete c n ws i :
  slots c n ws → (∀ k p, ws !! i = Some (k, p) → holds p = false) → slots c n (delete i ws).
Proof.
  intros Hs Hw Hc. destruct (Hs Hc) as [-> Hle].
  pose proof (map_count_delete is_holder ws i) as Hcount. unfold counted in Hcount.
  destruct (ws !! i) as [[k p]|] eqn:Hi; [|lia]. specialize (Hw k p eq_refl).
  case_decide as Hh; [|lia]. unfold is_holder in Hh. simpl in Hh. congruence.
Qed.

Lemma slots_add c n ws i k p :
  slots c n ws → holds p = false → (∀ k p, ws !! i = Some (k, p) → holds p = false) →
  slots c n (<[i := (k, p)]> ws).
Proof.
  intros Hs Hp Hw Hc. destruct (Hs Hc) as [-> Hle].
  pose proof (map_count_insert is_holder ws i (k, p)) as Hcount. unfold counted in Hcount.
  rewrite (decide_False (P := is_holder (i, (k, p)))) in Hcount
    by (unfold is_holder; simpl; congruence).
  destruct (ws !! i) as [[k' p']|] eqn:Hi; [|lia]. specialize (Hw k' p' eq_refl).
  case_decide as Hh; [|lia]. unfold is_holder in Hh. simpl in Hh. congruence.
Qed.

(** *** Arming *)

Lemma ar_map ws s s' act :
  arming ws s act → Signals.armed s' = Signals.armed s → arming ws s' act.
Proof. intros [Ha Hc Ho] He. constructor; rewrite He; done. Qed.

Lemma ar_move ws s act i k p p' :
  arming ws s act → ws !! i = Some (k, p) → owns p' = owns p →
  armed_phase p' = armed_phase p → (∀ ch, p' ≠ Waiting ch) →
  arming (<[i := (k, p')]> ws) s act.
Proof.
  intros [Ha Hc Ho] Hw Hown Harm Hnw. constructor.
  - intros j k' q Hj Hq. apply lookup_insert_Some in Hj as [[<- [= <- <-]]|[_ Hj]]; [|eauto].
    rewrite Harm. apply (Ha i k p Hw). congruence.
  - intros j k' ch Hj. apply lookup_insert_Some in Hj as [[_ [= _ ?]]|[_ Hj]]; [|eauto].
    by destruct (Hnw ch).
  - done.
Qed.

(** A step of the owner that sets or clears the arming of its key. *)
Lemma ar_owner_step ws s s' act i k p p' rep n :
  single_flight ws act rep n → arming ws s act → ws !! i = Some (k, p) →
  owns p = true → owns p' = true →
  (∀ k', k' ≠ k → Signals.armed s' !! k' = Signals.armed s !! k') →
  (armed_phase p' = true ↔ is_Some (Signals.armed s' !! k)) →
  (∀ ch, p' = Waiting ch → Signals.armed s' !! k = Some ch) →
  arming (<[i := (k, p')]> ws) s' act.
Proof.
  intros Hsf [Ha Hc Ho] Hw Hown Hown' Hother Harm Hch.
  assert (∀ j k' q, i ≠ j → ws !! j = Some (k', q) → owns q = true → k' ≠ k) as Hne.
  { intros j k' q Hij Hj Hq ->. apply Hij. by eapply (sf_single _ _ _ _ Hsf). }
  constructor.
  - intros j k' q Hj Hq. apply lookup_insert_Some in Hj as [[<- [= <- <-]]|[Hij Hj]]; [done|].
    rewrite Hother by (by eapply Hne). eauto.
  - intros j k' ch Hj. apply lookup_insert_Some in Hj as [[<- [= <- ?]]|[Hij Hj]]; [by apply Hch|].
    rewrite Hother by (by eapply Hne). eauto.
  - intros k' Hk'. destruct (decide (k' = k)) as [->|Hk].
    + apply (sf_active _ _ _ _ Hsf). eauto.
    + rewrite Hother in Hk' by done. by apply Ho.
Qed.

Lemma ar_clear ws ws' s act i k p rep n :
  single_flight ws act rep n → arming ws s act → ws !! i = Some (k, p) →
  owns p = true → armed_phase p = false →
  (∀ j, j ≠ i → ws' !! j = ws !! j) →
  (∀ k' p', ws' !! i = Some (k', p') → owns p' = false) →
  arming ws' s (act ∖ {[k]}).
Proof.
  intros Hsf [Ha Hc Ho] Hw Hown Harm Hother Hself. constructor.
  - intros j k' q Hj Hq. destruct (decide (j = i)) as [->|Hji].
    + rewrite (Hself _ _ Hj) in Hq. done.
    + rewrite Hother in Hj by done. eauto.
  - intros j k' ch Hj. destruct (decide (j = i)) as [->|Hji]; [by specialize (Hself _ _ Hj)|].
    rewrite Hother in Hj by done. eauto.
  - intros k' Hk'. apply elem_of_difference. split; [by apply Ho|].
    intros ->%elem_of_singleton. apply (Ha i k p Hw Hown) in Hk'. congruence.
Qed.

Lemma ar_add ws s act i k delay :
  arming ws s act → k ∉ act → (∀ k' p', ws !! i = Some (k', p') → owns p' = false) →
  arming (<[i := (k, Arming delay)]> ws) s ({[k]} ∪ act).
Proof.
  intros [Ha Hc Ho] Hk Hself. constructor.
  - intros j k' q Hj Hq. apply lookup_insert_Some in Hj as [[<- [= <- <-]]|[_ Hj]]; [|eauto].
    split; [done|]. intros Hs. by destruct Hk; apply Ho.
  - intros j k' ch Hj. apply lookup_insert_Some in Hj as [[_ [=]]|[_ Hj]]. eauto.
  - intros k' Hs%Ho. set_solver.
Qed.

Lemma ar_exit ws s act i :
  arming ws s act → arming (delete i ws) s act.
Proof.
  intros [Ha Hc Ho]. constructor; [|..|done].
  - intros j k q Hj. wlookup. eauto.
  - intros j k ch Hj. wlookup. eauto.
Qed.

(** *** Owed runs *)

Lemma owner_class p : owns p = true →
  will_run p = true ∨ finishing p = true ∨ stopping p = true.
Proof. destruct p; simpl; auto. Qed.

Lemma hon_move ws rep dn i k p p' k' :
  honored ws rep dn k' → ws !! i = Some (k, p) →
  (k' = k → will_run p = true → dn = true ∨ will_run p' = true) →
  (k' = k → finishing p = true → k ∈ rep → finishing p' = true ∨ will_run p' = true) →
  honored (<[i := (k, p')]> ws) rep dn k'.
Proof.
  intros [Hd|[(j & q & Hj & Hq)|(Hr & j & q & Hj & Hq)]] Hw Hwr Hfin; [by left| |].
  - destruct (decide (j = i)) as [->|Hne].
    + rewrite Hw in Hj. injection Hj as <- <-. destruct (Hwr eq_refl Hq) as [?|?]; [by left|].
      right. left. exists i, p'. by rewrite lookup_insert_eq.
    + right. left. exists j, q. by rewrite lookup_insert_ne.
  - destruct (decide (j = i)) as [->|Hne].
    + rewrite Hw in Hj. injection Hj as <- <-. right.
      destruct (Hfin eq_refl Hq Hr) as [?|?]; [right; split; [done|]|left];
        exists i, p'; by rewrite lookup_insert_eq.
    + right. right. split; [done|]. exists j, q. by rewrite lookup_insert_ne.
Qed.

Lemma hon_exit ws rep dn i k' :
  honored ws rep dn k' →
  (∀ p, ws !! i = Some (k', p) → will_run p = false ∧ finishing p = false ∨ dn = true) →
  honored (delete i ws) rep dn k'.
Proof.
  intros [Hd|[(j & q & Hj & Hq)|(Hr & j & q & Hj & Hq)]] Hi; [by left| |];
    (destruct (decide (j = i)) as [->|Hne];
      [destruct (Hi q Hj) as [[? ?]|?]; [congruence|by left]|]).
  - right. left. exists j, q. by rewrite lookup_delete_ne.
  - right. right. split; [done|]. exists j, q. by rewrite lookup_delete_ne.
Qed.

Lemma hon_done ws rep k : honored ws rep true k.
Proof. by left. Qed.

Lemma hon_repoke ws rep rep' dn k :
  honored ws rep dn k → rep ⊆ rep' → honored ws rep' dn k.
Proof. intros [?|[?|[? ?]]] Hsub; unfold honored; set_solver. Qed.

(** *** The locked section of Dispatch, by a caller or a redispatching worker *)

Lemma dispatch_ok c d i k delay :
  d_ok c d → i < S (spawned d) →
  (∀ k' p', workers d !! i = Some (k', p') → owns p' = false ∧ holds p' = false ∧
     (will_run p' = true → k' = k)) →
  let d' := dispatch (exit d i) i k delay in
  single_flight (workers d') (active d') (repoke d') (S (spawned d)) ∧
  slots (concurrency d') (sem d') (workers d') ∧
  arming (workers d') (wakes d') (active d') ∧
  (∀ j k p, workers d' !! j = Some (k, p) → stopping p = true → done d = true) ∧
  (∀ k', honored (workers d) (repoke d) (done d) k' ∨ k' = k →
     honored (workers d') (repoke d') (done d) k').
Proof.
  intros [Hc Hsf Hsl Har Hst Hhon] Hlt Hself.
  assert (∀ k' p', workers d !! i = Some (k', p') → owns p' = false) as Hno
    by (intros k' p' Hi; by destruct (Hself _ _ Hi)).
  pose proof (sf_exit _ _ _ _ i Hsf Hno) as Hsf'.
  assert (slots (concurrency d) (sem d) (delete i (workers d))) as Hsl'
    by (apply slots_delete; [done|]; intros k' p' Hi; by destruct (Hself _ _ Hi) as (_ & ? & _)).
  pose proof (ar_exit _ _ _ i Har) as Har'.
  assert (∀ k', honored (workers d) (repoke d) (done d) k' → k' ≠ k →
    honored (delete i (workers d)) (repoke d) (done d) k') as Hhon'.
  { intros k' Hk' Hne. apply hon_exit; [done|]. intros p Hp. left.
    destruct (Hself _ _ Hp) as (H1 & H2 & H3). split.
    - destruct (will_run p); [by destruct Hne; apply H3|done].
    - by destruct p. }
  unfold dispatch. simpl. destruct (decide (k ∈ active d)) as [Hk|Hk]; simpl.
  - split; [eapply sf_repoke_add; [exact Hsf'|done|lia]|]. split; [done|]. split; [done|]. split.
    { intros j k' p Hj. wlookup. eauto. }
    intros k' Hk'. destruct (decide (k' = k)) as [->|Hne].
    + apply (sf_active _ _ _ _ Hsf') in Hk as (j & p & Hj & Hp).
      destruct (owner_class p Hp) as [?|[?|Hs]].
      * right. left. eauto.
      * right. right. split; [set_solver|eauto].
      * left. apply lookup_delete_Some in Hj as [_ Hj]. eauto.
    + apply (hon_repoke _ (repoke d)); [|set_solver]. apply Hhon'; [|done]. by destruct Hk'.
  - assert (∀ k' p', delete i (workers d) !! i = Some (k', p') → owns p' = false) as Hno'
      by (intros k' p'; by rewrite lookup_delete_eq).
    split; [eapply sf_add; (done || lia)|].
    split; [apply slots_add; [done|done|intros k' p'; by rewrite lookup_delete_eq]|].
    split; [by apply ar_add|]. split.
    { intros j k' p Hj Hp. apply lookup_insert_Some in Hj as [[_ [= _ <-]]|[_ Hj]]; [done|].
      wlookup. eauto. }
    intros k' Hk'. destruct (decide (k' = k)) as [->|Hne].
    + right. left. exists i, (Arming delay). by rewrite lookup_insert_eq.
    + destruct Hk' as [Hk'|?]; [|done]. specialize (Hhon' _ Hk' Hne).
      destruct Hhon' as [?|[(j & q & Hj & Hq)|(Hr & j & q & Hj & Hq)]]; [by left| |];
        assert (i ≠ j) by (intros ->; by rewrite lookup_delete_eq in Hj).
      * right. left. exists j, q. by rewrite lookup_insert_ne.
      * right. right. split; [done|]. exists j, q. by rewrite lookup_insert_ne.
Qed.

(** *** Every step keeps the invariants *)

(** A move of a worker that keeps its owning, its slot and its arming. *)
Lemma move_ok c d i k p p' :
  d_ok c d → workers d !! i = Some (k, p) →
  owns p' = owns p → holds p' = holds p → armed_phase p' = armed_phase p →
  (∀ ch, p' ≠ Waiting ch) → (stopping p' = true → done d = true) →
  (will_run p = true → done d = true ∨ will_run p' = true) →
  (finishing p = true → k ∈ repoke d → finishing p' = true ∨ will_run p' = true) →
  d_ok c (move d i k p').
Proof.
  intros [Hc Hsf Hsl Har Hst Hhon] Hw Ho Hh Ha Hnw Hs Hwr Hfin. constructor; simpl; [done|..].
  - by eapply sf_move.
  - by eapply slots_move.
  - by eapply ar_move.
  - intros j k' q Hj Hq. apply lookup_insert_Some in Hj as [[_ [= _ <-]]|[_ Hj]]; eauto.
  - intros k' Hk'. eapply hon_move; eauto.
Qed.

(** A step of the owner on the arming of its key, possibly taking it out of its
    wait. *)
Lemma owner_move_ok c d i k p p' s :
  d_ok c d → workers d !! i = Some (k, p) → owns p = true → owns p' = true →
  holds p = false → holds p' = false →
  (∀ k', k' ≠ k → Signals.armed s !! k' = Signals.armed (wakes d) !! k') →
  (armed_phase p' = true ↔ is_Some (Signals.armed s !! k)) →
  (∀ ch, p' = Waiting ch → Signals.armed s !! k = Some ch) →
  (stopping p' = true → done d = true) →
  (will_run p = true → done d = true ∨ will_run p' = true) → finishing p = false →
  d_ok c (move (set_wakes d s) i k p').
Proof.
  intros [Hc Hsf Hsl Har Hst Hhon] Hw Ho Ho' Hh Hh' Hoth Harm Hch Hs Hwr Hfin.
  constructor; simpl; [done|..].
  - eapply sf_move; [done|done|congruence].
  - eapply slots_move; [done|done|congruence].
  - by eapply ar_owner_step.
  - intros j k' q Hj Hq. apply lookup_insert_Some in Hj as [[_ [= _ <-]]|[_ Hj]]; eauto.
  - intros k' Hk'. eapply hon_move; [by apply Hhon|done|done|congruence].
Qed.

(** Starting the Run, with the dispatches so far honored. *)
Lemma run_ok c d i k n :
  d_ok c d → workers d !! i = Some (k, Queued) →
  slots (concurrency d) n (<[i := (k, Running)]> (workers d)) →
  d_ok c (mkD (concurrency d) n (wakes d) (active d) (repoke d)
            (<[i := (k, Running)]> (workers d)) (spawned d) (done d) (owed d ∖ {[k]})).
Proof.
  intros [Hc Hsf Hsl Har Hst Hhon] Hw Hslots. constructor; simpl; [done|..].
  - by eapply sf_move.
  - done.
  - by eapply ar_move.
  - intros j k' q Hj Hq. apply lookup_insert_Some in Hj as [[_ [= _ <-]]|[_ Hj]]; [done|eauto].
  - intros k' [Hk' Hne]%elem_of_difference. eapply hon_move; [by apply Hhon|done| |];
      intros ->; set_solver.
Qed.

(** The clear of an owner that has stopped waiting. *)
Lemma clear_ok c d i k p ws' :
  d_ok c d → workers d !! i = Some (k, p) → owns p = true → armed_phase p = false →
  will_run p = false →
  (∀ j, j ≠ i → ws' !! j = workers d !! j) →
  (∀ k' p', ws' !! i = Some (k', p') → k' = k ∧ owns p' = false ∧ holds p' = false) →
  slots (concurrency d) (sem d) ws' →
  (done d = true ∨ ∃ p', ws' !! i = Some (k, p') ∧ (k ∈ repoke d → will_run p' = true)) →
  d_ok c (set_workers (clearActive d k).1 ws').
Proof.
  intros [Hc Hsf Hsl Har Hst Hhon] Hw Ho Ha Hwr Hother Hself Hslots Hcase.
  constructor; simpl; [done|..].
  - eapply sf_clear; [done|done|done|done|]. intros k' p' Hi. by destruct (Hself _ _ Hi) as (? & ? & _).
  - done.
  - eapply ar_clear; [done|done|done|done|done|done|].
    intros k' p' Hi. by destruct (Hself _ _ Hi) as (_ & ? & _).
  - intros j k' q Hj Hq. destruct (decide (j = i)) as [->|Hne].
    + destruct (Hself _ _ Hj) as (_ & ? & _). by destruct q.
    + rewrite Hother in Hj by done. eauto.
  - intros k' Hk'. destruct Hcase as [Hd|(p' & Hi & Hrep)]; [by left|].
    destruct (Hhon k' Hk') as [?|[(j & q & Hj & Hq)|(Hr & j & q & Hj & Hq)]]; [by left| |].
    + destruct (decide (j = i)) as [->|Hne]; [congruence|].
      right. left. exists j, q. by rewrite Hother.
    + destruct (decide (k' = k)) as [->|Hk].
      * right. left. exists i, p'. auto.
      * right. right. split; [set_solver|]. exists j, q.
        rewrite Hother; [done|]. intros ->. congruence.
Qed.

Lemma exit_ok c d i k p :
  d_ok c d → workers d !! i = Some (k, p) → owns p = false → holds p = false →
  (will_run p = true → done d = true) → d_ok c (exit d i).
Proof.
  intros [Hc Hsf Hsl Har Hst Hhon] Hw Ho Hh Hwr.
  assert (∀ k' p', workers d !! i = Some (k', p') → owns p' = false ∧ holds p' = false ∧
    (will_run p' = true → done d = true) ∧ finishing p' = false) as Hself.
  { intros k' p' Hi. rewrite Hw in Hi. injection Hi as <- <-. by destruct p. }
  constructor; simpl; [done|..].
  - apply sf_exit; [done|]. intros k' p' Hi. by destruct (Hself _ _ Hi).
  - apply slots_delete; [done|]. intros k' p' Hi. by destruct (Hself _ _ Hi) as (_ & ? & _).
  - by apply ar_exit.
  - intros j k' q Hj. wlookup. eauto.
  - intros k' Hk'. apply hon_exit; [by apply Hhon|]. intros p' Hi.
    destruct (Hself _ _ Hi) as (_ & _ & Hwr' & Hf). destruct (will_run p'); auto.
Qed.

Lemma receive_armed s ch s' :
  Signals.receive s ch = Some s' → Signals.armed s' = Signals.armed (K:=K) s.
Proof. unfold Signals.receive. case_decide; [|done]. by intros [= <-]. Qed.

Lemma wakes_ok c d s :
  d_ok c d → Signals.armed s = Signals.armed (wakes d) → d_ok c (set_wakes d s).
Proof. intros [Hc Hsf Hsl Har Hst Hhon] He. constructor; simpl; eauto using ar_map. Qed.

Lemma work_ok c d i ch d' : d_ok c d → work d i ch = Some d' → d_ok c d'.
Proof.
  intros Hok. pose proof Hok as [Hc Hsf Hsl Har Hst Hhon]. unfold work.
  destruct (workers d !! i) as [[k p]|] eqn:Hw; [|done].
  destruct p as [delay|cn| | | | | |r again|r again|r again|r], ch; try done.
  - (* Arming *) destruct (0 <? delay)%Z; [|intros [= <-]; eapply move_ok; simpl; eauto; done].
    simpl. intros [= <-]. eapply owner_move_ok; simpl; eauto.
    + intros k' Hne. by rewrite lookup_insert_ne.
    + rewrite lookup_insert_eq. split; [by eexists|done].
    + intros ch [= <-]. apply lookup_insert_eq.
  - (* Waiting, timer *) intros [= <-]. eapply move_ok; simpl; eauto; done.
  - (* Waiting, wake *) destruct (Signals.receive (wakes d) cn) as [s|] eqn:Hr; [|done].
    intros [= <-]. apply receive_armed in Hr.
    eapply (move_ok c (set_wakes d s)); simpl; eauto using wakes_ok; done.
  - (* Waiting, context *) destruct (done d) eqn:Hd; [|done]. intros [= <-].
    eapply move_ok; simpl; eauto; done.
  - (* Woken *) intros [= <-]. eapply owner_move_ok; simpl; eauto; try done.
    + intros k' Hne. by rewrite lookup_delete_ne.
    + rewrite lookup_delete_eq. split; [done|by intros []].
  - (* Stopping *) intros [= <-]. eapply owner_move_ok; simpl; eauto; try done.
    + intros k' Hne. by rewrite lookup_delete_ne.
    + rewrite lookup_delete_eq. split; [done|by intros []].
  - (* Queued *) destruct (0 <? concurrency d)%Z eqn:Hcc.
    + destruct (Z.of_nat (sem d) <? concurrency d)%Z eqn:Hroom; [|done]. intros [= <-].
      apply (run_ok c d i k); [done..|]. apply slots_enter; [done|done|zlia].
    + intros [= <-]. apply (run_ok c d i k); [done..|]. intros ?. zlia.
  - (* Queued, context *) destruct ((0 <? concurrency d)%Z && done d) eqn:Hd; [|done].
    apply andb_true_iff in Hd as [_ Hd]. intros [= <-]. eapply move_ok; simpl; eauto; done.
  - (* Stopped *) intros [= <-]. assert (done d = true) as Hd by (by eapply Hst).
    apply (clear_ok c d i k Stopped); simpl; try done.
    + intros j Hj. by rewrite lookup_delete_ne.
    + intros k' p'. by rewrite lookup_delete_eq.
    + apply slots_delete; [done|]. intros k' p' Hi. rewrite Hw in Hi. by injection Hi as <- <-.
    + by left.
  - (* Running *) intros [= <-]. eapply move_ok; simpl; eauto; done.
  - (* Ran *) destruct (0 <? concurrency d)%Z eqn:Hcc.
    + destruct (sem d) as [|n] eqn:Hn; [done|]. intros [= <-]. constructor; simpl; [done|..].
      * by eapply sf_move.
      * by apply slots_leave.
      * by eapply ar_move.
      * intros j k' q Hj Hq. apply lookup_insert_Some in Hj as [[_ [= _ <-]]|[_ Hj]]; [done|eauto].
      * intros k' Hk'. eapply hon_move; [by apply Hhon|done|done|by left].
    + intros [= <-]. constructor; simpl; [done|..].
      * by eapply sf_move.
      * intros ?. zlia.
      * by eapply ar_move.
      * intros j k' q Hj Hq. apply lookup_insert_Some in Hj as [[_ [= _ <-]]|[_ Hj]]; [done|eauto].
      * intros k' Hk'. eapply hon_move; [by apply Hhon|done|done|by left].
  - (* Exiting *) simpl.
    assert (∀ r' again', (k ∈ repoke d → again' = true) →
      d_ok c (set_workers (clearActive d k).1 (<[i := (k, Cleared r' again')]> (workers d)))) as Hcl.
    { intros r' again' Hrep. apply (clear_ok c d i k (Exiting r again)); simpl; try done.
      - intros j Hj. by rewrite lookup_insert_ne.
      - intros k' p'. rewrite lookup_insert_eq. by intros [= <- <-].
      - by eapply slots_move.
      - right. eexists. rewrite lookup_insert_eq. by split. }
    case_bool_decide as Hr; intros [= <-]; by apply Hcl.
  - (* Cleared *) destruct (again && negb (done d)) eqn:Ha; intros [= <-].
    + apply andb_true_iff in Ha as [-> Ha]. eapply move_ok; simpl; eauto; done.
    + eapply exit_ok; simpl; eauto. intros Hag. simpl in Hag. rewrite Hag in Ha.
      by destruct (done d).
  - (* Redispatch *) intros [= <-]. 
    assert (i < S (spawned d)) as Hlt by (pose proof (sf_ids _ _ _ _ Hsf _ _ Hw); lia).
    destruct (dispatch_ok c d i k r Hok Hlt) as (H1 & H2 & H3 & H4 & H5).
    { intros k' p' Hi. rewrite Hw in Hi. by injection Hi as <- <-. }
    assert (spawned (dispatch (exit d i) i k r) = spawned d ∧
            done (dispatch (exit d i) i k r) = done d ∧
            owed (dispatch (exit d i) i k r) = owed d ∧
            concurrency (dispatch (exit d i) i k r) = concurrency d) as (E1 & E2 & E3 & E4).
    { unfold dispatch. by case_decide. }
    constructor; rewrite ?E1, ?E2, ?E3; [congruence| |done|done|done|auto].
    destruct H1 as [S1 S2 S3 S4]. constructor; [done..|].
    intros j x Hj. unfold dispatch in Hj. destruct (decide (j = i)) as [->|Hne];
      [by eapply sf_ids|]. case_decide; simpl in Hj;
      rewrite ?lookup_insert_ne, ?lookup_delete_ne in Hj by done; by eapply sf_ids.
Qed.

Lemma dispatcher_exec_ok c l d d' : d_ok c d → exec l d = Some d' → d_ok c d'.
Proof.
  intros Hok He. destruct l as [k delay|k| |i ch]; simpl in He.
  - injection He as <-. pose proof Hok as [Hc Hsf Hsl Har Hst Hhon].
    assert (workers d !! spawned d = None) as Hnone.
    { destruct (workers d !! spawned d) as [x|] eqn:Hx; [|done].
      pose proof (sf_ids _ _ _ _ Hsf _ _ Hx). lia. }
    assert (exit d (spawned d) = d) as Eex.
    { unfold exit, set_workers. rewrite delete_id by done. by destruct d. }
    destruct (dispatch_ok c d (spawned d) k delay Hok ltac:(lia)) as (H1 & H2 & H3 & H4 & H5);
      [intros ? ?; by rewrite Hnone|]. rewrite Eex in *.
    assert (done (dispatch d (spawned d) k delay) = done d ∧
            owed (dispatch d (spawned d) k delay) = owed d ∧
            concurrency (dispatch d (spawned d) k delay) = concurrency d) as (E2 & E3 & E4).
    { unfold dispatch. by case_decide. }
    constructor; simpl; rewrite ?E2, ?E3; [congruence|done|done|done|done|].
    intros k' [->%elem_of_singleton|Hk']%elem_of_union; auto.
  - injection He as <-. apply wakes_ok; [done|]. unfold Signals.Fire. by destruct (_ !! _).
  - injection He as <-. destruct Hok as [Hc Hsf Hsl Har Hst Hhon].
    constructor; simpl; eauto using hon_done.
  - by eapply work_ok.
Qed.

Lemma dispatcher_reach_ok c d : reach c d → d_ok c d.
Proof.
  induction 1 as [d Hn|l d d' _ IH He]; [|by eapply dispatcher_exec_ok].
  unfold New in Hn. destruct (c <? 0)%Z eqn:Hc; [done|]. injection Hn as <-.
  constructor; simpl; [done|..|set_solver].
  - constructor; try (intros *; by rewrite lookup_empty); [|set_solver].
    intros k. split; [set_solver|]. intros (i & p & Hi & _). by rewrite lookup_empty in Hi.
  - intros _. rewrite map_count_empty. split; [done|zlia].
  - constructor; simpl; [intros *; by rewrite lookup_empty..|].
    intros k. rewrite lookup_empty. by intros [].
  - intros *. by rewrite lookup_empty.
Qed.

(** *** Channels are distinct *)

Record chan_ok (s : Signals.Signals (K:=K)) : Prop := {
  ch_fresh k ch : Signals.armed s !! k = Some ch → ch < Signals.next s;
  ch_key k k' ch : Signals.armed s !! k = Some ch → Signals.armed s !! k' = Some ch → k = k';
}.

Lemma chan_sub s s' :
  chan_ok s → Signals.next s' = Signals.next s →
  (∀ k ch, Signals.armed s' !! k = Some ch → Signals.armed s !! k = Some ch) → chan_ok s'.
Proof.
  intros [Hf Hk] Hn Ha. constructor; rewrite ?Hn; eauto.
Qed.

Lemma chan_arm s k : chan_ok s → chan_ok (Signals.Arm s k).1.
Proof.
  intros [Hf Hk]. constructor; simpl.
  - intros k' ch Hl. apply lookup_insert_Some in Hl as [[_ <-]|[_ Hl]]; [lia|].
    specialize (Hf _ _ Hl). lia.
  - intros k1 k2 ch H1 H2.
    apply lookup_insert_Some in H1 as [[<- <-]|[? H1]];
      apply lookup_insert_Some in H2 as [[<- E]|[? H2]]; try done.
    + specialize (Hf _ _ H2). lia.
    + subst. specialize (Hf _ _ H1). lia.
    + eauto.
Qed.

Lemma dispatch_wakes d i k delay : wakes (dispatch d i k delay) = wakes d.
Proof. unfold dispatch. by case_decide. Qed.

Lemma exec_chan l d d' : chan_ok (wakes d) → exec l d = Some d' → chan_ok (wakes d').
Proof.
  intros Hok He. destruct l as [k delay|k| |i c]; simpl in He.
  - injection He as <-. simpl. by rewrite dispatch_wakes.
  - injection He as <-. simpl. unfold Signals.Fire. destruct (Signals.armed (wakes d) !! k); [|done].
    by eapply chan_sub.
  - by injection He as <-.
  - unfold work in He. destruct (workers d !! i) as [[k p]|]; [|done].
    destruct p, c; try done; repeat case_match; simplify_eq; simpl; rewrite ?dispatch_wakes; try done;
      try (match goal with H : clearActive _ _ = _ |- _ => injection H as <- _ end; done).
    + match goal with H : Signals.Arm _ _ = _ |- _ => injection H as <- <- end.
      by apply chan_arm.
    + match goal with H : Signals.receive _ _ = _ |- _ => unfold Signals.receive in H end.
      case_decide; [|done]. simplify_eq. by eapply chan_sub.
    + eapply chan_sub; [done|done|]. simpl. intros k' ch. by intros [_ ?]%lookup_delete_Some.
    + eapply chan_sub; [done|done|]. simpl. intros k' ch. by intros [_ ?]%lookup_delete_Some.
Qed.

Lemma reach_chan c d : reach c d → chan_ok (wakes d).
Proof.
  induction 1 as [d Hn|l d d' _ IH He]; [|by eapply exec_chan].
  unfold New in Hn. case_match; [done|]. injection Hn as <-.
  constructor; simpl; intros *; by rewrite lookup_empty.
Qed.

(** *** A worker's wait through the steps of others *)

Definition others (i : nat) (l : label) : Prop :=
  match l with LWork j _ => j ≠ i | _ => True end.

Lemma others_keep_worker c i l d d' x :
  d_ok c d → others i l → exec l d = Some d' → workers d !! i = Some x →
  workers d' !! i = Some x.
Proof.
  intros Hok Ho He Hx. destruct l as [k delay|k| |j ch]; simpl in *.
  - injection He as <-. simpl. unfold dispatch. case_decide; [done|]. simpl.
    rewrite lookup_insert_ne; [done|]. intros Heq.
    pose proof (sf_ids _ _ _ _ (ok_single _ _ Hok) _ _ Hx). lia.
  - by injection He as <-.
  - by injection He as <-.
  - unfold work in He. destruct (workers d !! j) as [[k p]|]; [|done].
    destruct p, ch; try done; repeat case_match; simplify_eq; simpl;
      repeat match goal with H : clearActive _ _ = _ |- _ => injection H as <- _; simpl end;
      unfold dispatch; try case_decide; simpl;
      rewrite ?lookup_insert_ne, ?lookup_delete_ne by done; done.
Qed.

(** Only the owner of a waiting channel takes its signal. *)
Lemma others_keep_signal c i k ch l d d' :
  d_ok c d → chan_ok (wakes d) → others i l → exec l d = Some d' →
  workers d !! i = Some (k, Waiting ch) → ch ∈ Signals.full (wakes d) →
  ch ∈ Signals.full (wakes d').
Proof.
  intros Hok Hch Ho He Hw Hf. destruct l as [k' delay|k'| |j cc]; simpl in *.
  - injection He as <-. simpl. by rewrite dispatch_wakes.
  - injection He as <-. simpl. unfold Signals.Fire.
    destruct (Signals.armed (wakes d) !! k'); simpl; [set_solver|done].
  - by injection He as <-.
  - unfold work in He. destruct (workers d !! j) as [[k' p]|] eqn:Hj; [|done].
    destruct p as [| cn | | | | | | | | |], cc; try done; repeat case_match; simplify_eq; simpl;
      rewrite ?dispatch_wakes; try done;
      try (match goal with H : clearActive _ _ = _ |- _ => injection H as <- _; simpl end; done);
      try (match goal with H : Signals.Arm _ _ = _ |- _ => injection H as <- <-; simpl end; done).
    match goal with H : Signals.receive _ _ = _ |- _ => unfold Signals.receive in H end.
    case_decide; [|done]. simplify_eq. simpl. apply elem_of_difference. split; [done|].
    intros ->%elem_of_singleton.
    pose proof (ar_channel _ _ _ (ok_arming _ _ Hok) _ _ _ Hw) as A1.
    pose proof (ar_channel _ _ _ (ok_arming _ _ Hok) _ _ _ Hj) as A2.
    pose proof (ch_key _ Hch _ _ _ A1 A2) as ->. apply Ho.
    by eapply (sf_single _ _ _ _ (ok_single _ _ Hok)).
Qed.

(** ** Properties *)

(** C31: single flight: in every reachable state at most one worker occupies a key,
    from its Dispatch to its clear, so no two Runs of a key overlap; [IsActive] is
    true exactly for the occupied keys. *)
Theorem single_worker_per_key c d k :
  reach c d →
  (∀ i j p q, workers d !! i = Some (k, p) → workers d !! j = Some (k, q) →
     owns p = true → owns q = true → i = j) ∧
  (IsActive d k = true ↔ ∃ i p, workers d !! i = Some (k, p) ∧ owns p = true).
Proof.
  intros Hok%dispatcher_reach_ok. split.
  - intros i j p q. apply (sf_single _ _ _ _ (ok_single _ _ Hok)).
  - unfold IsActive. rewrite bool_decide_eq_true. apply (sf_active _ _ _ _ (ok_single _ _ Hok)).
Qed.

(** With a positive concurrency the Runs in progress never exceed it, and the
    semaphore has exactly one entry per Run in progress, so its release never
    blocks. *)
Theorem concurrency_bound c d :
  reach c d → (0 < c)%Z →
  (Z.of_nat (map_count is_holder (workers d)) <= c)%Z ∧
  sem d = map_count is_holder (workers d) ∧
  (∀ i k r again, workers d !! i = Some (k, Ran r again) → is_Some (work d i Go)).
Proof.
  intros Hok%dispatcher_reach_ok Hc. pose proof (ok_slots _ _ Hok) as Hs.
  rewrite (ok_concurrency _ _ Hok) in Hs. destruct (Hs Hc) as [Hn Hle].
  split; [lia|]. split; [done|]. intros i k r again Hw. unfold work. rewrite Hw.
  pose proof (map_count_pos is_holder _ _ _ Hw eq_refl).
  case_match; [|by eexists]. destruct (sem d); [lia|by eexists].
Qed.

(** C32: no dispatch is lost: unless the context is done, every key dispatched since
    its last Run started has a worker that will run it or a re-poke its finishing
    worker will honor; so once every worker is gone, each dispatched key has been
    run. *)
Theorem dispatch_not_lost c d k :
  reach c d → done d = false → k ∈ owed d →
  ((∃ i p, workers d !! i = Some (k, p) ∧ will_run p = true) ∨
   (k ∈ repoke d ∧ ∃ i p, workers d !! i = Some (k, p) ∧ finishing p = true)) ∧
  workers d ≠ ∅.
Proof.
  intros Hok%dispatcher_reach_ok Hd Hk. destruct (ok_owed _ _ Hok k Hk) as [?|Hcase]; [congruence|].
  split; [done|]. intros He. rewrite He in Hcase.
  destruct Hcase as [(i & p & Hi & _)|(_ & i & p & Hi & _)]; by rewrite lookup_empty in Hi.
Qed.

(** A Wake after a delayed Dispatch returned is not missed: while the worker
    waits out its delay, after a Wake of its key it can leave the wait by it,
    whatever the other goroutines do in between. *)
Theorem wake_not_missed c d i k ch ls d' :
  reach c d → workers d !! i = Some (k, Waiting ch) →
  Forall (others i) ls → exec_all ls (Wake d k) = Some d' →
  workers d' !! i = Some (k, Waiting ch) ∧
  ∃ d2, work d' i ByWake = Some d2 ∧ workers d2 !! i = Some (k, Woken).
Proof.
  intros Hr Hw Hls He.
  assert (reach c (Wake d k)) as Hr' by (eapply reach_step; [done|exact (eq_refl (exec (LWake k) d))]).
  assert (ch ∈ Signals.full (wakes (Wake d k))) as Hf.
  { simpl. unfold Signals.Fire.
    rewrite (ar_channel _ _ _ (ok_arming _ _ (dispatcher_reach_ok _ _ Hr)) _ _ _ Hw). simpl. set_solver. }
  assert (workers (Wake d k) !! i = Some (k, Waiting ch)) as Hw' by done.
  clear Hw Hr. generalize dependent (Wake d k). clear d.
  induction ls as [|l ls IH]; intros d He Hr Hf Hw; simpl in He.
  - injection He as <-. split; [done|]. unfold work. rewrite Hw. unfold Signals.receive.
    rewrite decide_True by done. eexists. split; [done|]. simpl. apply lookup_insert_eq.
  - apply Forall_cons in Hls as [Hl Hls]. destruct (exec l d) as [d1|] eqn:He1; [|done].
    apply (IH Hls d1); [done|by eapply reach_step| |].
    + eapply others_keep_signal; eauto using dispatcher_reach_ok, reach_chan.
    + eapply others_keep_worker; eauto using dispatcher_reach_ok.
Qed.

(** No worker deadlocks: in every reachable state a worker not in its Run can
    take its next step, except one queued at a full semaphore, and then another
    worker holds a slot. *)
Theorem workers_progress c d i k p :
  reach c d → workers d !! i = Some (k, p) →
  is_Some (work d i Go) ∨ p = Running ∨
  (p = Queued ∧ (0 < c <= Z.of_nat (map_count is_holder (workers d)))%Z).
Proof.
  intros Hok%dispatcher_reach_ok Hw. unfold work. rewrite Hw.
  pose proof (ok_slots _ _ Hok) as Hs. pose proof (ok_concurrency _ _ Hok) as Hc.
  destruct p as [delay|cn| | | | | |r again|r again|r again|r];
    try (left; repeat case_match; by eexists); [|by right; left|].
  - destruct (0 <? concurrency d)%Z eqn:Hpos; [|by left; eexists].
    destruct (Z.of_nat (sem d) <? concurrency d)%Z eqn:Hroom; [by left; eexists|].
    right. right. split; [done|]. zbool. destruct (Hs Hpos) as [<- ?]. lia.
  - left. destruct (0 <? concurrency d)%Z eqn:Hpos; [|by eexists]. zbool.
    destruct (Hs Hpos) as [Hn _]. pose proof (map_count_pos is_holder _ _ _ Hw eq_refl).
    destruct (sem d); [lia|by eexists].
Qed.
End dispatcher.

(** ** Witnesses: concurrency 1; key 7 runs while key 8 waits out a delay *)

Abbreviation dispatcher := (@Dispatcher nat _ _).
Definition ex_labels : list (@label nat) :=
  [LDispatch 7 0%Z; LWork 0 Go; LWork 0 Go; LDispatch 8 5%Z; LWork 1 Go; LDispatch 7 0%Z].
Definition ex_state : dispatcher :=
  match New 1 with
  | Some d => match exec_all ex_labels d with Some d => d | None => d end
  | None => mkD 0 0 Signals.init ∅ ∅ ∅ 0 false ∅
  end.

Lemma dispatcher_exec_all_reach c ls (d d' : dispatcher) : reach c d → exec_all ls d = Some d' → reach c d'.
Proof.
  revert d. induction ls as [|l ls IH]; simpl; intros d Hr; [by intros [= <-]|].
  destruct (exec l d) eqn:He; [|done]. apply IH. by eapply reach_step.
Qed.

Lemma dispatcher_ex_reach : reach 1 ex_state.
Proof.
  eapply (dispatcher_exec_all_reach 1 ex_labels); [apply reach_init; reflexivity|]. vm_compute. reflexivity.
Qed.

Lemma single_worker_per_key_witness : IsActive ex_state 7 = true.
Proof.
  destruct (single_worker_per_key 1 ex_state 7 dispatcher_ex_reach) as [_ Ha].
  apply Ha. exists 0, Running. split; reflexivity.
Defined.

Lemma concurrency_bound_witness : sem ex_state = 1.
Proof.
  destruct (concurrency_bound 1 ex_state dispatcher_ex_reach ltac:(lia)) as (_ & Hs & _).
  rewrite Hs. vm_compute. reflexivity.
Defined.

Lemma dispatch_not_lost_witness : workers ex_state ≠ ∅.
Proof.
  destruct (dispatch_not_lost 1 ex_state 7 dispatcher_ex_reach eq_refl) as [_ Hw]; [|exact Hw].
  vm_compute. reflexivity.
Defined.

Lemma wake_not_missed_witness :
  ∃ d' d2, exec_all [LWork 0 (Returns 9%Z true); LWork 0 Go] (Wake ex_state 8) = Some d' ∧
    work d' 1 ByWake = Some d2 ∧ workers d2 !! 1 = Some (8, Woken).
Proof.
  destruct (exec_all [LWork 0 (Returns 9%Z true); LWork 0 Go] (Wake ex_state 8)) as [d'|] eqn:He;
    [|discriminate He].
  destruct (wake_not_missed 1 ex_state 1 8 0 [LWork 0 (Returns 9%Z true); LWork 0 Go] d' dispatcher_ex_reach)
    as (_ & d2 & H2 & H3); [vm_compute; reflexivity| |exact He|].
  - repeat constructor; simpl; lia.
  - exists d', d2. split; [reflexivity|]. split; [exact H2|exact H3].
Defined.

Lemma workers_progress_witness :
  is_Some (work ex_state 1 Go) ∨ Waiting 0 = Running ∨
  (Waiting 0 = Queued ∧ (0 < 1 <= Z.of_nat (map_count is_holder (workers ex_state)))%Z).
Proof.
  apply (workers_progress 1 ex_state 1 8 (Waiting 0) dispatcher_ex_reach). vm_compute. reflexivity.
Defined.
