(* ===== verification/JoinSet.v ===== *)
(** * JoinSet: the keyed join of internal/joinset/joinset.go

    Waiters registered on a set of keys with a threshold; completing a key marks it
    on every waiter registered for it and reports those that crossed their
    threshold.  The mutex makes each operation one step.  [Complete] visits a map:
    its order is the parameter [ord]; its dereference of a missing waiter would
    panic ([None]), which the invariant [js_ok] excludes. *)
From S2P Require Import Prelude.

Section joinset.
Context {K W : Type} `{Countable K} `{Countable W}.

Record waiter := mkWaiter {
  w_keys : list K;
  w_need : Z;
  w_done : gset K;
  w_since : Time;
  w_kicked : bool;
}.

Record JoinSet := mkSet {
  js_waiters : gmap W waiter;
  js_byKey : gmap K (gset W);
}.

Definition js_empty : JoinSet := mkSet ∅ ∅.

(** The members of a key: [s.byKey[k]]. *)
Definition members (s : JoinSet) (k : K) : gset W := map_get ∅ (js_byKey s) k.

(** The loop of [Register] over the keys: duplicates collapse. *)
Fixpoint register_keys (w : W) (keys : list K) (byKey : gmap K (gset W)) (acc : list K)
    : gmap K (gset W) * list K :=
  match keys with
  | [] => (byKey, acc)
  | k :: keys' =>
    let ms := map_get ∅ byKey k in
    if bool_decide (w ∈ ms) then register_keys w keys' byKey acc
    else register_keys w keys' (<[k := {[w]} ∪ ms]> byKey) (acc ++ [k])
  end.

Definition Register (s : JoinSet) (w : W) (keys : list K) (need : Z) (now : Time)
    : JoinSet * bool :=
  match js_waiters s !! w with
  | Some _ => (s, false)
  | None =>
    let '(byKey, ks) := register_keys w keys (js_byKey s) [] in
    let wt := mkWaiter ks (Z.min (Z.max need 1) (Z.of_nat (length ks))) ∅ now false in
    (mkSet (<[w := wt]> (js_waiters s)) byKey, true)
  end.

Definition mark_done (k : K) (wt : waiter) : waiter :=
  mkWaiter (w_keys wt) (w_need wt) ({[k]} ∪ w_done wt) (w_since wt) (w_kicked wt).
Definition set_kicked (wt : waiter) : waiter :=
  mkWaiter (w_keys wt) (w_need wt) (w_done wt) (w_since wt) true.
Definition done_count (wt : waiter) : Z := Z.of_nat (size (w_done wt)).

Definition Mark (s : JoinSet) (w : W) (k : K) : JoinSet :=
  match js_waiters s !! w with
  | None => s
  | Some wt =>
    if bool_decide (w ∈ members s k)
    then mkSet (<[w := mark_done k wt]> (js_waiters s)) (js_byKey s)
    else s
  end.

(** The condition under which [Complete] reports a waiter. *)
Definition crosses (wt : waiter) : bool :=
  negb (w_kicked wt) && (0 <? w_need wt)%Z && (w_need wt <=? done_count wt)%Z.

(** The loop of [Complete] over the members of the key, in the order [ord]. *)
Fixpoint complete_in (ord : list W) (k : K) (ws : gmap W waiter) (kicks : list W)
    : option (gmap W waiter * list W) :=
  match ord with
  | [] => Some (ws, kicks)
  | w :: ord' =>
    match ws !! w with
    | None => None
    | Some wt =>
      let wt := mark_done k wt in
      if crosses wt
      then complete_in ord' k (<[w := set_kicked wt]> ws) (kicks ++ [w])
      else complete_in ord' k (<[w := wt]> ws) kicks
    end
  end.
Definition Complete_in (ord : list W) (s : JoinSet) (k : K) : option (JoinSet * list W) :=
  match complete_in ord k (js_waiters s) [] with
  | Some (ws, kicks) => Some (mkSet ws (js_byKey s), kicks)
  | None => None
  end.
Definition Complete (s : JoinSet) (k : K) : option (JoinSet * list W) :=
  Complete_in (elements (members s k)) s k.

Definition done_keys (wt : waiter) : list K :=
  filter (λ k, k ∈ w_done wt) (w_keys wt).
Definition Done (s : JoinSet) (w : W) : list K * bool :=
  match js_waiters s !! w with
  | None => ([], false)
  | Some wt => (done_keys wt, true)
  end.

(** The loop of [Remove] over the waiter's keys. *)
Fixpoint remove_keys (w : W) (keys : list K) (byKey : gmap K (gset W))
    : gmap K (gset W) :=
  match keys with
  | [] => byKey
  | k :: keys' =>
    let ms := map_get ∅ byKey k ∖ {[w]} in
    remove_keys w keys'
      (if bool_decide (size ms = 0) then delete k byKey else <[k := ms]> byKey)
  end.
Definition Remove (s : JoinSet) (w : W) : JoinSet * option Time :=
  match js_waiters s !! w with
  | None => (s, None)
  | Some wt =>
    (mkSet (delete w (js_waiters s)) (remove_keys w (w_keys wt) (js_byKey s)),
     Some (w_since wt))
  end.

Definition Len (s : JoinSet) : nat := size (js_waiters s).

(** ** Operations as a step function, and traces of them *)

Inductive op :=
| ORegister (w : W) (keys : list K) (need : Z) (now : Time)
| OMark (w : W) (k : K)
| OComplete (k : K)
| ORemove (w : W).

Definition exec (o : op) (s : JoinSet) : option (JoinSet * list W) :=
  match o with
  | ORegister w keys need now => Some ((Register s w keys need now).1, [])
  | OMark w k => Some (Mark s w k, [])
  | OComplete k => Complete s k
  | ORemove w => Some ((Remove s w).1, [])
  end.

(** A trace, with the waiters it kicked in order. *)
Fixpoint exec_all (os : list op) (s : JoinSet) : option (JoinSet * list W) :=
  match os with
  | [] => Some (s, [])
  | o :: os' =>
    match exec o s with
    | None => None
    | Some (s1, k1) =>
      match exec_all os' s1 with
      | None => None
      | Some (s2, k2) => Some (s2, k1 ++ k2)
      end
    end
  end.

(** ** Invariant *)

Record waiter_ok (wt : waiter) : Prop := {
  wok_nodup : NoDup (w_keys wt);
  wok_done k : k ∈ w_done wt → k ∈ w_keys wt;
  wok_need : (w_need wt = 0 ∧ w_keys wt = [] ∨
              1 <= w_need wt <= Z.of_nat (length (w_keys wt)))%Z;
  wok_kicked : w_kicked wt = true → (0 < w_need wt <= done_count wt)%Z;
}.

Record js_ok (s : JoinSet) : Prop := {
  ok_index k w : w ∈ members s k ↔
    ∃ wt, js_waiters s !! w = Some wt ∧ k ∈ w_keys wt;
  ok_nonempty k ms : js_byKey s !! k = Some ms → ms ≠ ∅;
  ok_waiter w wt : js_waiters s !! w = Some wt → waiter_ok wt;
}.

(** ** Register *)

Lemma register_keys_spec w keys byKey acc byKey' ks :
  register_keys w keys byKey acc = (byKey', ks) →
  (∀ k, w ∈ map_get ∅ byKey k ↔ k ∈ acc) →
  NoDup acc →
  NoDup ks ∧
  (∀ k, k ∈ ks ↔ k ∈ acc ∨ k ∈ keys) ∧
  (∀ k w', w' ∈ map_get ∅ byKey' k ↔ w' ∈ map_get ∅ byKey k ∨ (w' = w ∧ k ∈ ks)) ∧
  ((∀ k ms, byKey !! k = Some ms → ms ≠ ∅) → ∀ k ms, byKey' !! k = Some ms → ms ≠ ∅).
Proof.
  revert byKey acc. induction keys as [|k keys IH]; intros byKey acc; simpl.
  { intros [= <- <-] Hacc Hnd. split; [done|]. split; [set_solver|]. split; [|done].
    intros k w'. split; [by left|]. intros [?|[-> Hk]]; [done|by apply Hacc]. }
  case_bool_decide as Hin; intros Hr Hacc Hnd.
  - destruct (IH _ _ Hr Hacc Hnd) as (Hnd' & Hks & Hby & Hne). split; [done|].
    split; [|done]. intros k'. rewrite Hks. apply Hacc in Hin. set_solver.
  - assert (∀ k', map_get ∅ (<[k:={[w]} ∪ map_get ∅ byKey k]> byKey) k' =
      if decide (k = k') then {[w]} ∪ map_get ∅ byKey k' else map_get ∅ byKey k') as Hget.
    { intros k'. unfold map_get at 1. rewrite lookup_insert. case_decide; by subst. }
    destruct (IH _ _ Hr) as (Hnd' & Hks & Hby & Hne).
    + intros k'. rewrite Hget. case_decide; [subst; set_solver|].
      rewrite Hacc. set_solver.
    + apply NoDup_app. split; [done|]. split; [|apply NoDup_singleton].
      intros x Hx ->%list_elem_of_singleton. by apply Hin, Hacc.
    + split; [done|]. split; [intros k'; rewrite Hks; set_solver|]. split.
      * intros k' w'. rewrite Hby, Hget, Hks. case_decide; [subst|]; set_solver.
      * intros Hne0. apply Hne. intros k' ms. rewrite lookup_insert.
        case_decide; [|by apply Hne0]. intros [= <-]. set_solver.
Qed.

Lemma clamp_need need n :
  (let m := Z.min (Z.max need 1) (Z.of_nat n) in
   m = 0 ∧ n = O ∨ 1 <= m <= Z.of_nat n)%Z.
Proof. simpl. lia. Qed.

Lemma Register_ok s w keys need now : js_ok s → js_ok (Register s w keys need now).1.
Proof.
  intros [Hidx Hne Hw]. unfold Register.
  destruct (js_waiters s !! w) as [wt|] eqn:Hlk; [by constructor|].
  destruct (register_keys _ _ _ _) as [byKey ks] eqn:Hr.
  apply register_keys_spec in Hr as (Hnd & Hks & Hby & Hne').
  - constructor; simpl.
    + intros k w'. unfold members. simpl. rewrite Hby, lookup_insert.
      rewrite (Hidx k w'). case_decide; naive_solver.
    + intros k ms. apply Hne', Hne.
    + intros w' wt. rewrite lookup_insert. case_decide; [|apply Hw].
      intros [= <-]. constructor; simpl; [done|set_solver| |done].
      destruct (clamp_need need (length ks)) as [[-> Hz]|?]; [left|by right].
      split; [done|]. by destruct ks.
  - intros k. split; [|by intros ?%not_elem_of_nil].
    intros Hk. apply Hidx in Hk as (wt & Hwt & _). congruence.
  - constructor.
Qed.

(** ** Mark and Complete *)

Lemma mark_done_ok k wt : k ∈ w_keys wt → waiter_ok wt → waiter_ok (mark_done k wt).
Proof.
  intros Hk [Hnd Hdone Hneed Hkick]. constructor; simpl; [done|set_solver|done|].
  intros Hkicked. specialize (Hkick Hkicked). unfold done_count in *. simpl.
  assert (size (w_done wt) ≤ size ({[k]} ∪ w_done wt)) by (apply subseteq_size; set_solver).
  lia.
Qed.

Lemma set_kicked_ok wt : crosses wt = true → waiter_ok wt → waiter_ok (set_kicked wt).
Proof.
  intros Hc [Hnd Hdone Hneed Hkick]. constructor; simpl; [done..|].
  intros _. unfold crosses in Hc. zbool. unfold done_count in *. simpl. lia.
Qed.

(** A waiter after one of its keys completed. *)
Definition completed (k : K) (wt : waiter) : waiter :=
  let wt := mark_done k wt in if crosses wt then set_kicked wt else wt.

Lemma completed_ok k wt : k ∈ w_keys wt → waiter_ok wt → waiter_ok (completed k wt).
Proof.
  intros Hk Hok. unfold completed. pose proof (mark_done_ok k wt Hk Hok).
  destruct (crosses _) eqn:Hc; auto using set_kicked_ok.
Qed.

Lemma completed_keys k wt : w_keys (completed k wt) = w_keys wt.
Proof. unfold completed. by destruct (crosses _). Qed.

(** The waiters [Complete k] reports. *)
Definition kicked_by (s : JoinSet) (k : K) (w : W) : Prop :=
  ∃ wt, js_waiters s !! w = Some wt ∧ k ∈ w_keys wt ∧ crosses (mark_done k wt) = true.

Lemma complete_in_spec ord k ws kicks :
  NoDup ord → (∀ w, w ∈ ord → is_Some (ws !! w)) →
  ∃ ws' new, complete_in ord k ws kicks = Some (ws', kicks ++ new) ∧
    (∀ w, ws' !! w = if decide (w ∈ ord) then completed k <$> ws !! w else ws !! w) ∧
    sublist new ord ∧
    (∀ w, w ∈ new ↔ w ∈ ord ∧ ∃ wt, ws !! w = Some wt ∧ crosses (mark_done k wt) = true).
Proof.
  revert ws kicks. induction ord as [|w ord IH]; intros ws kicks Hnd Hin.
  { exists ws, []. rewrite app_nil_r. split; [done|]. split; [by intros w|].
    split; [constructor|]. intros w. set_solver. }
  apply NoDup_cons in Hnd as [Hnin Hnd]. simpl.
  destruct (Hin w ltac:(left)) as [wt Hwt]. rewrite Hwt.
  assert (∀ x, ∃ ws' new,
    complete_in ord k (<[w := completed k wt]> ws) x = Some (ws', x ++ new) ∧
    (∀ w', ws' !! w' = if decide (w' ∈ w :: ord) then completed k <$> ws !! w' else ws !! w') ∧
    sublist new ord ∧
    (∀ w', w' ∈ new ↔ w' ∈ ord ∧
      ∃ wt', ws !! w' = Some wt' ∧ crosses (mark_done k wt') = true)) as Hx.
  { intros x. destruct (IH (<[w := completed k wt]> ws) x) as (ws' & new & He & Hws & Hsub & Hnew);
      [done| |].
    { intros w' Hw'. rewrite lookup_insert. case_decide; [by eexists|]. apply Hin. by right. }
    exists ws', new. split; [done|]. split; [|split; [done|]].
    - intros w'. rewrite Hws, lookup_insert. destruct (decide (w' = w)) as [->|Hww].
      + rewrite decide_False, decide_True, decide_True, Hwt by (done || by left). done.
      + rewrite (decide_False (P:=w = w')) by congruence.
        repeat case_decide; [done|exfalso..|done].
        * by match goal with H : ¬ _ |- _ => apply H; right end.
        * match goal with H : _ ∈ _ :: _ |- _ => apply elem_of_cons in H as [?|?]; done end.
    - intros w'. rewrite Hnew. split; intros [Hw' Hc]; (split; [done|]).
      + rewrite lookup_insert_ne in Hc by (intros ->; done). done.
      + rewrite lookup_insert_ne by (intros ->; done). done. }
  unfold completed in Hx at 1. destruct (crosses (mark_done k wt)) eqn:Hc.
  - destruct (Hx (kicks ++ [w])) as (ws' & new & He & Hws & Hsub & Hnew).
    exists ws', (w :: new). rewrite He, <-app_assoc. split; [done|]. split; [done|].
    split; [by constructor|]. intros w'. rewrite elem_of_cons, Hnew, elem_of_cons.
    split; [intros [->|?]; naive_solver|]. intros [[->|?] ?]; naive_solver.
  - destruct (Hx kicks) as (ws' & new & He & Hws & Hsub & Hnew).
    exists ws', new. rewrite He. split; [done|]. split; [done|].
    split; [by constructor|]. intros w'. rewrite Hnew, elem_of_cons.
    split; [naive_solver|]. intros [[->|?] (wt' & ? & ?)]; [congruence|naive_solver].
Qed.

(** One [Complete] in any visiting order: every registered member is completed, the
    rest keep their state, the reported waiters are [kicked_by], each once. *)
Lemma Complete_in_spec ord s k :
  js_ok s → ord ≡ₚ elements (members s k) →
  ∃ s' kicks, Complete_in ord s k = Some (s', kicks) ∧
    js_byKey s' = js_byKey s ∧
    (∀ w, js_waiters s' !! w =
      (λ wt, if decide (k ∈ w_keys wt) then completed k wt else wt) <$> js_waiters s !! w) ∧
    NoDup kicks ∧ (∀ w, w ∈ kicks ↔ kicked_by s k w).
Proof.
  intros Hok Hord.
  assert (∀ w, w ∈ ord ↔ w ∈ members s k) as Hmem.
  { intros w. rewrite Hord. apply elem_of_elements. }
  destruct (complete_in_spec ord k (js_waiters s) []) as (ws & new & He & Hws & Hsub & Hnew).
  { rewrite Hord. apply NoDup_elements. }
  { intros w [wt [Hwt _]]%Hmem%(ok_index s Hok). by eexists. }
  exists (mkSet ws (js_byKey s)), new. unfold Complete_in. rewrite He. split; [done|].
  split; [done|]. split; [|split].
  - intros w. simpl. rewrite Hws. destruct (js_waiters s !! w) as [wt|] eqn:Hwt; simpl.
    + destruct (decide (k ∈ w_keys wt)) as [Hk|Hk].
      * rewrite decide_True; [done|]. apply Hmem, (ok_index s Hok). eauto.
      * rewrite decide_False; [done|]. intros [wt' [? ?]]%Hmem%(ok_index s Hok). congruence.
    + by case_decide.
  - eapply sublist_NoDup; [|done]. rewrite Hord. apply NoDup_elements.
  - intros w. rewrite Hnew, Hmem, (ok_index s Hok). unfold kicked_by.
    split; [|naive_solver]. intros [(wt & ? & ?) (wt' & ? & ?)]. exists wt. by simplify_eq.
Qed.

Lemma Complete_ok s k s' kicks : js_ok s → Complete s k = Some (s', kicks) → js_ok s'.
Proof.
  intros Hok Hc. destruct (Complete_in_spec _ s k Hok (reflexivity _)) as (s1 & k1 & He & Hby & Hws & _).
  unfold Complete in Hc. rewrite He in Hc. injection Hc as <- <-.
  destruct Hok as [Hidx Hne Hw]. constructor.
  - intros k' w. unfold members. rewrite Hby. rewrite (Hidx k' w), Hws.
    destruct (js_waiters s !! w) as [wt|]; simpl; [|naive_solver].
    split; intros (wt' & [= <-] & Hk'); eexists; (split; [done|]).
    + case_decide; [by rewrite completed_keys|done].
    + case_decide; [by rewrite completed_keys in Hk'|done].
  - intros k' ms. rewrite Hby. apply Hne.
  - intros w wt'. rewrite Hws. destruct (js_waiters s !! w) as [wt|] eqn:Hwt; [|done].
    intros [= <-]. case_decide; [apply completed_ok; [done|]|]; by eapply Hw.
Qed.

Lemma Mark_ok s w k : js_ok s → js_ok (Mark s w k).
Proof.
  intros Hok. unfold Mark. destruct (js_waiters s !! w) as [wt|] eqn:Hwt; [|done].
  case_bool_decide as Hm; [|done]. destruct Hok as [Hidx Hne Hw].
  apply Hidx in Hm as (wt' & ? & Hk). simplify_eq. constructor; simpl.
  - intros k' w'. unfold members. simpl. rewrite (Hidx k' w'), lookup_insert.
    case_decide; [subst; simpl|done]. split; intros (? & ? & ?); simplify_eq; eauto.
  - apply Hne.
  - intros w' wt'. rewrite lookup_insert. case_decide; [|apply Hw].
    intros [= <-]. eauto using mark_done_ok.
Qed.

(** ** Remove *)

Lemma remove_keys_spec w keys byKey :
  (∀ k w', w' ∈ map_get ∅ (remove_keys w keys byKey) k ↔
     w' ∈ map_get ∅ byKey k ∧ ¬ (w' = w ∧ k ∈ keys)) ∧
  ((∀ k ms, byKey !! k = Some ms → ms ≠ ∅) →
   ∀ k ms, remove_keys w keys byKey !! k = Some ms → ms ≠ ∅).
Proof.
  revert byKey. induction keys as [|k keys IH]; intros byKey; simpl.
  { split; [|done]. intros k w'. rewrite elem_of_nil. tauto. }
  set (ms := map_get ∅ byKey k ∖ {[w]}).
  set (by1 := if bool_decide _ then _ else _).
  assert (∀ k', map_get ∅ by1 k' = if decide (k = k') then ms else map_get ∅ byKey k') as Hget.
  { intros k'. unfold by1, map_get. case_bool_decide as Hsz.
    - apply size_empty_inv in Hsz. rewrite lookup_delete. case_decide; [|done].
      simpl. symmetry. by apply leibniz_equiv.
    - rewrite lookup_insert. by case_decide. }
  destruct (IH by1) as [Hmem Hne]. split.
  - intros k' w'. rewrite Hmem, Hget, elem_of_cons. case_decide; [subst k'|].
    + unfold ms. set_solver.
    + assert (k' ≠ k) by congruence. tauto.
  - intros Hne0. apply Hne. intros k' ms'. unfold by1. case_bool_decide as Hsz.
    + rewrite lookup_delete. case_decide; [done|apply Hne0].
    + rewrite lookup_insert. case_decide; [|apply Hne0]. intros [= <-] ->. by apply Hsz.
Qed.

Lemma Remove_ok s w : js_ok s → js_ok (Remove s w).1.
Proof.
  intros Hok. unfold Remove. destruct (js_waiters s !! w) as [wt|] eqn:Hwt; [|done].
  destruct Hok as [Hidx Hne Hw].
  destruct (remove_keys_spec w (w_keys wt) (js_byKey s)) as [Hmem Hne'].
  constructor; simpl.
  - intros k w'. unfold members. simpl. rewrite Hmem, (Hidx k w'), lookup_delete.
    case_decide as Hww; [subst w'|naive_solver]. naive_solver.
  - apply Hne', Hne.
  - intros w' wt'. rewrite lookup_delete. case_decide; [done|apply Hw].
Qed.

Lemma js_empty_ok : js_ok js_empty.
Proof.
  constructor; simpl.
  - intros k w. unfold members, map_get. simpl. rewrite lookup_empty. simpl.
    set_solver.
  - intros k ms. by rewrite lookup_empty.
  - intros w wt. by rewrite lookup_empty.
Qed.

Lemma joinset_exec_ok o s : js_ok s → ∃ s' kicks, exec o s = Some (s', kicks) ∧ js_ok s'.
Proof.
  intros Hok. destruct o as [w keys need now|w k|k|w]; simpl;
    eauto using Register_ok, Mark_ok, Remove_ok.
  destruct (Complete_in_spec _ s k Hok (reflexivity _)) as (s' & kicks & He & _).
  exists s', kicks. split; [done|]. by eapply Complete_ok.
Qed.

(** ** One waiter through a trace *)

Definition occurrences (w : W) (l : list W) : nat := length (filter (λ x, x = w) l).

Lemma occurrences_app w l k : occurrences w (l ++ k) = occurrences w l + occurrences w k.
Proof. unfold occurrences. by rewrite filter_app, length_app. Qed.

Lemma occurrences_nodup w l :
  NoDup l → occurrences w l = if decide (w ∈ l) then 1 else 0.
Proof.
  unfold occurrences. induction 1 as [|x l Hx Hnd IH]; [done|].
  rewrite filter_cons. destruct (decide (x = w)) as [->|Hne].
  - rewrite decide_True by left. simpl. rewrite IH, decide_False by done. done.
  - rewrite IH. destruct (decide (w ∈ l)).
    + rewrite decide_True by (by right). done.
    + rewrite decide_False; [done|]. intros [?|?]%elem_of_cons; congruence.
Qed.

(** The operations that leave the registration of [w] to [Complete]. *)
Definition leaves (w : W) (o : op) : Prop :=
  match o with
  | OMark w' _ | ORemove w' => w' ≠ w
  | ORegister _ _ _ _ | OComplete _ => True
  end.

(** The kick flag of a waiter nobody marks: kicked exactly when satisfied. *)
Definition satisfied (wt : waiter) : bool :=
  ((0 <? w_need wt) && (w_need wt <=? done_count wt))%Z.

Definition next_kicks (wt wt' : waiter) : nat :=
  if w_kicked wt' && negb (w_kicked wt) then 1 else 0.

Lemma joinset_exec_leaves w o s s' kicks wt :
  js_ok s → leaves w o → exec o s = Some (s', kicks) →
  js_waiters s !! w = Some wt → w_kicked wt = satisfied wt →
  ∃ wt', js_waiters s' !! w = Some wt' ∧ w_keys wt' = w_keys wt ∧
    w_need wt' = w_need wt ∧ w_since wt' = w_since wt ∧ w_kicked wt' = satisfied wt' ∧
    w_done wt ⊆ w_done wt' ∧ (∀ k, o = OComplete k → k ∈ w_keys wt → k ∈ w_done wt') ∧
    (w_kicked wt = true → w_kicked wt' = true) ∧
    occurrences w kicks = next_kicks wt wt'.
Proof.
  intros Hok Hl He Hwt Hk.
  assert (∀ s2, s' = s2 → kicks = [] → js_waiters s2 !! w = Some wt →
    (∀ k, o ≠ OComplete k) → 
    ∃ wt', js_waiters s' !! w = Some wt' ∧ w_keys wt' = w_keys wt ∧
    w_need wt' = w_need wt ∧ w_since wt' = w_since wt ∧ w_kicked wt' = satisfied wt' ∧
    w_done wt ⊆ w_done wt' ∧ (∀ k, o = OComplete k → k ∈ w_keys wt → k ∈ w_done wt') ∧
    (w_kicked wt = true → w_kicked wt' = true) ∧
    occurrences w kicks = next_kicks wt wt') as Hsame.
  { intros s2 -> -> Hs Ho. exists wt. repeat (split; [done|]). split; [naive_solver|].
    split; [done|]. unfold next_kicks. by destruct (w_kicked wt). }
  destruct o as [w' keys need now|w' k|k|w']; simpl in *.
  - injection He as <- <-. apply (Hsame _ eq_refl eq_refl); [|done].
    unfold Register. destruct (js_waiters s !! w') eqn:Hw'; [done|].
    destruct (register_keys _ _ _ _). simpl.
    rewrite lookup_insert_ne; [done|]. intros ->. congruence.
  - injection He as <- <-. apply (Hsame _ eq_refl eq_refl); [|done].
    unfold Mark. destruct (js_waiters s !! w'); [|done]. case_bool_decide; [|done].
    simpl. by rewrite lookup_insert_ne.
  - destruct (Complete_in_spec _ s k Hok (reflexivity _))
      as (s1 & k1 & He1 & _ & Hws & Hnd & Hkicks).
    unfold Complete in He. rewrite He1 in He. injection He as <- <-.
    rewrite (occurrences_nodup w _ Hnd). rewrite Hws, Hwt. simpl.
    assert (Hkw : w ∈ k1 ↔ k ∈ w_keys wt ∧ crosses (mark_done k wt) = true).
    { rewrite Hkicks. unfold kicked_by. naive_solver. }
    destruct (decide (k ∈ w_keys wt)) as [Hin|Hin].
    + unfold completed, next_kicks. destruct (crosses (mark_done k wt)) eqn:Hc.
      * rewrite decide_True by naive_solver. eexists. repeat (split; [done|]).
        unfold crosses in Hc. zbool. simpl in *.
        split. { unfold satisfied, done_count in *. simpl in *. symmetry.
                 apply andb_true_iff. split; [apply Z.ltb_lt|apply Z.leb_le]; lia. }
        split; [set_solver|]. split; [set_solver|].
        split; [done|]. match goal with H : w_kicked wt = false |- _ => by rewrite H end.
      * rewrite decide_False by naive_solver. eexists. repeat (split; [done|]). simpl.
        split; [|split; [set_solver|split; [set_solver|split; [done|]]]].
        -- destruct (w_kicked wt) eqn:Hkd; [|unfold crosses in Hc; simpl in Hc;
             rewrite Hkd in Hc; by unfold satisfied].
           pose proof (ok_waiter s Hok w wt Hwt) as Hwok.
           pose proof (wok_kicked _ (mark_done_ok k wt Hin Hwok) Hkd) as Hb.
           symmetry. apply andb_true_iff. split; [apply Z.ltb_lt|apply Z.leb_le]; lia.
        -- by destruct (w_kicked wt).
    + rewrite decide_False by naive_solver. exists wt. repeat (split; [done|]).
      split; [naive_solver|]. split; [done|].
      unfold next_kicks. by destruct (w_kicked wt).
  - injection He as <- <-. apply (Hsame _ eq_refl eq_refl); [|done].
    unfold Remove. destruct (js_waiters s !! w') as [wt'|]; [|done].
    simpl. by rewrite lookup_delete_ne.
Qed.

Lemma joinset_exec_all_leaves w os s s' kicks wt :
  js_ok s → Forall (leaves w) os → exec_all os s = Some (s', kicks) →
  js_waiters s !! w = Some wt → w_kicked wt = satisfied wt →
  ∃ wt', js_waiters s' !! w = Some wt' ∧ w_keys wt' = w_keys wt ∧
    w_need wt' = w_need wt ∧ w_since wt' = w_since wt ∧ w_kicked wt' = satisfied wt' ∧
    w_done wt ⊆ w_done wt' ∧ (∀ k, OComplete k ∈ os → k ∈ w_keys wt → k ∈ w_done wt') ∧
    (w_kicked wt = true → w_kicked wt' = true) ∧
    occurrences w kicks = next_kicks wt wt'.
Proof.
  revert s kicks wt. induction os as [|o os IH]; intros s kicks wt Hok Hl He Hwt Hk; simpl in He.
  { injection He as <- <-. exists wt. repeat (split; [done|]).
    split; [intros k ?%elem_of_nil; done|]. split; [done|].
    unfold next_kicks. by destruct (w_kicked wt). }
  apply Forall_cons in Hl as [Ho Hl].
  destruct (joinset_exec_ok o s Hok) as (s1 & k1 & He1 & Hok1). rewrite He1 in He.
  destruct (exec_all os s1) as [[s2 k2]|] eqn:He2; [|done]. injection He as <- <-.
  destruct (joinset_exec_leaves w o s s1 k1 wt Hok Ho He1 Hwt Hk)
    as (wt1 & Hwt1 & Hks1 & Hn1 & Hs1 & Hk1 & Hd1 & Hc1 & Hm1 & Hocc1).
  destruct (IH s1 k2 wt1 Hok1 Hl He2 Hwt1 Hk1)
    as (wt2 & Hwt2 & Hks2 & Hn2 & Hs2 & Hk2 & Hd2 & Hc2 & Hm2 & Hocc2).
  exists wt2. split; [done|]. do 4 (split; [congruence|]).
  split; [set_solver|]. split.
  { intros k [<-|Hin]%elem_of_cons Hkk; [apply Hd2; by apply Hc1|].
    apply Hc2; [done|]. by rewrite Hks1. }
  split; [auto|].
  rewrite occurrences_app, Hocc1, Hocc2. unfold next_kicks.
  destruct (w_kicked wt), (w_kicked wt1), (w_kicked wt2); simpl; naive_solver.
Qed.

Lemma exec_all_ok os s : js_ok s →
  ∃ s' kicks, exec_all os s = Some (s', kicks) ∧ js_ok s'.
Proof.
  revert s. induction os as [|o os IH]; intros s Hok; [by exists s, []|]. simpl.
  destruct (joinset_exec_ok o s Hok) as (s1 & k1 & -> & Hok1).
  destruct (IH s1 Hok1) as (s2 & k2 & -> & Hok2). by exists s2, (k1 ++ k2).
Qed.

Lemma joinset_exec_all_reach os s kicks : exec_all os js_empty = Some (s, kicks) → js_ok s.
Proof.
  intros He. destruct (exec_all_ok os js_empty js_empty_ok) as (s' & k' & He' & Hok).
  congruence.
Qed.

(** ** Properties *)

(** From the empty set no sequence of operations panics, and at its end the two
    indexes agree: [byKey] has exactly the registered waiters of each key and no
    empty entry, every waiter has distinct keys, its done keys among them, and a
    threshold in [1, len(keys)] (0 without keys). *)
Theorem operations_keep_index os :
  ∃ s kicks, exec_all os js_empty = Some (s, kicks) ∧ js_ok s.
Proof. apply exec_all_ok, js_empty_ok. Qed.

(** In a reachable set [Complete k] visits the waiters of [k] in any order with
    the same effect: each has [k] done, no other waiter changes, and the reported
    waiters are, each once, those not reported before whose done count is now at
    least their threshold. *)
Theorem Complete_correct os s kicks0 k ord :
  exec_all os js_empty = Some (s, kicks0) → ord ≡ₚ elements (members s k) →
  ∃ s' kicks, Complete_in ord s k = Some (s', kicks) ∧
    js_byKey s' = js_byKey s ∧
    (∀ w, js_waiters s' !! w =
      (λ wt, if decide (k ∈ w_keys wt) then completed k wt else wt) <$> js_waiters s !! w) ∧
    NoDup kicks ∧
    (∀ w, w ∈ kicks ↔ ∃ wt, js_waiters s !! w = Some wt ∧ k ∈ w_keys wt ∧
       w_kicked wt = false ∧
       (0 < w_need wt <= Z.of_nat (size ({[k]} ∪ w_done wt)))%Z).
Proof.
  intros Hr Hord.
  destruct (Complete_in_spec ord s k (joinset_exec_all_reach _ _ _ Hr) Hord)
    as (s' & kicks & He & Hby & Hws & Hnd & Hk).
  exists s', kicks. do 4 (split; [done|]). intros w. rewrite Hk. unfold kicked_by.
  split; intros (wt & ? & ? & Hc); exists wt; (split; [done|]); (split; [done|]).
  - unfold crosses in Hc. zbool. unfold done_count in *. simpl in *.
    split; [done|lia].
  - destruct Hc as [Hkd Hn]. unfold crosses, done_count. simpl. rewrite Hkd. simpl.
    apply andb_true_iff. split; [apply Z.ltb_lt|apply Z.leb_le]; lia.
Qed.

(** A park of [w] registered below its threshold and left alone, neither marked
    nor removed, is kicked at most once by the operations that follow, and exactly
    when the keys completed since bring its done count to the threshold; its keys,
    threshold and stamp do not change, and every key of it completed is done. *)
Theorem kicked_exactly_once os0 s kicks0 w wt os s' kicks :
  exec_all os0 js_empty = Some (s, kicks0) →
  js_waiters s !! w = Some wt → w_kicked wt = false →
  (w_need wt = 0 ∨ done_count wt < w_need wt)%Z →
  Forall (leaves w) os → exec_all os s = Some (s', kicks) →
  ∃ wt', js_waiters s' !! w = Some wt' ∧ w_keys wt' = w_keys wt ∧
    w_need wt' = w_need wt ∧ w_since wt' = w_since wt ∧
    (∀ k, OComplete k ∈ os → k ∈ w_keys wt → k ∈ w_done wt') ∧
    occurrences w kicks =
      if decide (0 < w_need wt ∧ w_need wt <= done_count wt')%Z then 1 else 0.
Proof.
  intros Hr Hwt Hkd Hlt Hl He.
  assert (w_kicked wt = satisfied wt) as Hsat.
  { rewrite Hkd. symmetry. unfold satisfied. apply andb_false_iff.
    destruct Hlt; [left; apply Z.ltb_ge|right; apply Z.leb_gt]; lia. }
  destruct (joinset_exec_all_leaves w os s s' kicks wt (joinset_exec_all_reach _ _ _ Hr) Hl He Hwt Hsat)
    as (wt' & Hwt' & Hks & Hn & Hs & Hk' & _ & Hc & _ & Hocc).
  exists wt'. do 5 (split; [done|]). rewrite Hocc. unfold next_kicks.
  rewrite Hkd, Hk', andb_true_r. unfold satisfied. rewrite Hn.
  case_decide as Hd; destruct (0 <? w_need wt)%Z eqn:?, (w_need wt <=? done_count wt')%Z eqn:?;
    zbool; simpl; try done; exfalso; lia.
Qed.

(** [Complete] reports a registered waiter not reported before whose threshold
    its [Mark]s had already reached, at the first completion of one of its keys,
    even of a key already done. *)
Theorem Complete_kicks_marked os s kicks0 w wt k :
  exec_all os js_empty = Some (s, kicks0) →
  js_waiters s !! w = Some wt → w_kicked wt = false →
  (0 < w_need wt <= done_count wt)%Z → k ∈ w_keys wt →
  ∃ s' kicks, Complete s k = Some (s', kicks) ∧ w ∈ kicks.
Proof.
  intros Hr Hwt Hkd Hn Hk.
  destruct (Complete_in_spec _ s k (joinset_exec_all_reach _ _ _ Hr) (reflexivity _))
    as (s' & kicks & He & _ & _ & _ & Hkicks).
  exists s', kicks. split; [done|]. apply Hkicks. exists wt. split; [done|]. split; [done|].
  unfold crosses, done_count in *. simpl. rewrite Hkd. simpl.
  assert (size (w_done wt) ≤ size ({[k]} ∪ w_done wt)) by (apply subseteq_size; set_solver).
  apply andb_true_iff. split; [apply Z.ltb_lt|apply Z.leb_le]; lia.
Qed.
End joinset.

(** ** Witnesses: keys and waiters are numbers *)

Definition ex_register : list (@op nat nat) := [ORegister 7 [1; 2; 2; 3] 2 5%Z].
Definition ex_trace : list (@op nat nat) := [OComplete 2; OMark 8 1; OComplete 3; OComplete 1].

Definition state_after (os : list (@op nat nat)) : @JoinSet nat nat _ _ _ _ :=
  match exec_all os js_empty with Some (s, _) => s | None => js_empty end.
Definition kicks_after (os : list (@op nat nat)) (s : @JoinSet nat nat _ _ _ _) : list nat :=
  match exec_all os s with Some (_, k) => k | None => [] end.

Lemma Complete_correct_witness :
  ∃ s' kicks, Complete_in [7] (state_after ex_register) 2 = Some (s', kicks).
Proof.
  destruct (Complete_correct ex_register (state_after ex_register) [] 2 [7])
    as (s' & kicks & He & _); [vm_compute; reflexivity|vm_compute; reflexivity|].
  exists s', kicks. exact He.
Defined.

Definition ex_waiter : @waiter nat _ _ := mkWaiter [1; 2; 3] 2 ∅ 5%Z false.

Lemma kicked_exactly_once_witness :
  occurrences 7 (kicks_after ex_trace (state_after ex_register)) = 1.
Proof.
  destruct (kicked_exactly_once ex_register (state_after ex_register) [] 7 ex_waiter ex_trace
    (state_after (ex_register ++ ex_trace)) (kicks_after ex_trace (state_after ex_register)))
    as (wt' & Hwt & _ & _ & _ & _ & Hocc);
    [vm_compute; reflexivity|vm_compute; reflexivity|reflexivity|right; vm_compute; reflexivity
    | |vm_compute; reflexivity|].
  - repeat constructor. simpl. lia.
  - rewrite Hocc. vm_compute in Hwt. injection Hwt as <-. reflexivity.
Defined.

Definition ex_marked : list (@op nat nat) := ex_register ++ [OMark 7 1; OMark 7 2].

Lemma Complete_kicks_marked_witness :
  ∃ s' kicks, Complete (state_after ex_marked) 1 = Some (s', kicks) ∧ 7 ∈ kicks.
Proof.
  apply (Complete_kicks_marked ex_marked (state_after ex_marked) [] 7
    (mkWaiter [1; 2; 3] 2 {[1; 2]} 5%Z false) 1);
    [vm_compute; reflexivity|vm_compute; reflexivity|reflexivity|split; vm_compute; done|left].
Defined.
