(* ===== verification/TokenPool.v ===== *)
(** * TokenPool: the counting token pool of internal/tokenpool/tokenpool.go

    Tokens per key with a FIFO of parked waiters.  The pool wakes nobody: its
    operations return the waiters to kick, and the caller delivers.  [state] pairs a
    pool with what its caller owes: the kicks not yet consumed by an operation of
    the kicked waiter, and the tokens handed out per key.  The mutex makes each
    operation one step. *)
From S2P Require Import Prelude.

Section tokenpool.
Context {K W : Type} `{Countable K} `{Countable W}.

Record class := mkClass {
  c_capacity : Z;
  c_inUse : Z;
  c_waiters : list W;
}.

Record Pool := mkPool {
  p_capacity : gmap K Z;
  p_classes : gmap K class;
  p_parked : gmap W (K * Time);
}.

Record Usage := mkUsage {
  u_Capacity : Z;
  u_InUse : Z;
  u_Waiting : Z;
}.

Definition New (capacity : gmap K Z) : Pool := mkPool capacity ∅ ∅.

(** [nextWaiter]: the head waiter, when the class has free capacity. *)
Definition nextWaiter (c : class) : option W :=
  if (c_inUse c <? c_capacity c)%Z then head (c_waiters c) else None.

Definition drop_waiter (w : W) (c : class) : class :=
  mkClass (c_capacity c) (c_inUse c) (filter (λ x, x ≠ w) (c_waiters c)).
Definition set_inUse (z : Z) (c : class) : class :=
  mkClass (c_capacity c) z (c_waiters c).
Definition enqueue (w : W) (c : class) : class :=
  if decide (w ∈ c_waiters c) then c
  else mkClass (c_capacity c) (c_inUse c) (c_waiters c ++ [w]).

Definition set_class (p : Pool) (k : K) (c : class) : Pool :=
  mkPool (p_capacity p) (<[k := c]> (p_classes p)) (p_parked p).
Definition set_parked (p : Pool) (m : gmap W (K * Time)) : Pool :=
  mkPool (p_capacity p) (p_classes p) m.

(** Removing [w] from the line of [key]; the wake its departure exposes. *)
Definition vacate (p : Pool) (w : W) (key : K) : Pool * list W :=
  match p_classes p !! key with
  | None => (p, [])
  | Some c =>
    let c := drop_waiter w c in
    (set_class p key c, option_list (nextWaiter c))
  end.

(** The closure [unpark] of [Acquire]. *)
Definition unpark (p : Pool) (w : W) (samePending : bool) : Pool * list W :=
  match p_parked p !! w with
  | None => (p, [])
  | Some (key, _) =>
    let '(p, kicks) := vacate (set_parked p (delete w (p_parked p))) w key in
    (p, if samePending then [] else kicks)
  end.

Record grant := mkGrant {
  g_granted : bool;
  g_held : bool;
  g_waited : Duration;
  g_kicks : list W;
}.

Definition Acquire (p : Pool) (k : K) (w : W) (bypass : bool) (now : Time) : Pool * grant :=
  let prior := p_parked p !! w in
  if bypass then
    let '(p, kicks) := unpark p w false in (p, mkGrant true false 0%Z kicks)
  else match p_capacity p !! k with
  | None => let '(p, kicks) := unpark p w false in (p, mkGrant true false 0%Z kicks)
  | Some cap =>
    let p := match p_classes p !! k with
             | Some _ => p
             | None => set_class p k (mkClass cap 0 [])
             end in
    let c := map_get (mkClass cap 0 []) (p_classes p) k in
    if (c_inUse c <? c_capacity c)%Z then
      let same := match prior with Some (key, _) => bool_decide (key = k) | None => false end in
      let '(p, kicks) := unpark p w same in
      let c := map_get (mkClass cap 0 []) (p_classes p) k in
      let c := set_inUse (c_inUse c + 1) c in
      (set_class p k c,
       mkGrant true true
         (match prior with Some (_, since) => TimeSub now since | None => 0%Z end)
         (kicks ++ option_list (nextWaiter c)))
    else
      let '(p, kicks) :=
        match prior with
        | Some (key, _) => if decide (key = k) then (p, []) else vacate p w key
        | None => (p, [])
        end in
      let c := map_get (mkClass cap 0 []) (p_classes p) k in
      let p := set_class p k (enqueue w c) in
      let since := match prior with Some (_, since) => since | None => now end in
      (set_parked p (<[w := (k, since)]> (p_parked p)), mkGrant false false 0%Z kicks)
  end.

(** [Release]; [None] is its panic. *)
Definition Release (p : Pool) (k : K) : option (Pool * option W) :=
  match p_classes p !! k with
  | None => None
  | Some c =>
    if (c_inUse c <=? 0)%Z then None
    else let c := set_inUse (c_inUse c - 1) c in Some (set_class p k c, nextWaiter c)
  end.

Definition Clear (p : Pool) (w : W) : Pool * option W :=
  match p_parked p !! w with
  | None => (p, None)
  | Some (key, _) =>
    let '(p, kicks) := vacate (set_parked p (delete w (p_parked p))) w key in
    (p, head kicks)
  end.

Definition ParkedOn (p : Pool) (w : W) : option K := fst <$> p_parked p !! w.

Definition Snapshot (p : Pool) : option (gmap K Usage) :=
  if decide (size (p_classes p) = 0) then None
  else Some ((λ c, mkUsage (c_capacity c) (c_inUse c) (Z.of_nat (length (c_waiters c))))
             <$> p_classes p).

(** ** Invariant *)

Record tp_ok (p : Pool) : Prop := {
  ok_capacity k c : p_classes p !! k = Some c → p_capacity p !! k = Some (c_capacity c);
  ok_inUse k c : p_classes p !! k = Some c → (0 <= c_inUse c <= Z.max 0 (c_capacity c))%Z;
  ok_nodup k c : p_classes p !! k = Some c → NoDup (c_waiters c);
  ok_line k c w : p_classes p !! k = Some c →
    w ∈ c_waiters c ↔ ∃ since, p_parked p !! w = Some (k, since);
  ok_parked w k since : p_parked p !! w = Some (k, since) → is_Some (p_classes p !! k);
}.

Lemma tokenpool_New_ok capacity : tp_ok (New capacity).
Proof. constructor; intros *; by rewrite ?lookup_empty. Qed.

(** The wake a class exposes. *)
Definition exposed (p : Pool) (k : K) : option W := p_classes p !! k ≫= nextWaiter.

Lemma drop_absent w c : w ∉ c_waiters c → drop_waiter w c = c.
Proof.
  intros Hw. destruct c as [cap u ws]. unfold drop_waiter; simpl in *. f_equal.
  apply list_filter_all, Forall_forall. naive_solver.
Qed.

(** Unparking, uniformly: [w] is dropped from every line. *)
Definition without (p : Pool) (w : W) : Pool :=
  mkPool (p_capacity p) (drop_waiter w <$> p_classes p) (delete w (p_parked p)).

Lemma without_absent p w : tp_ok p → p_parked p !! w = None → without p w = p.
Proof.
  intros Hok Hw. destruct p as [cap cl pk]. unfold without; simpl in *. f_equal.
  - apply map_eq. intros k. rewrite lookup_fmap. destruct (cl !! k) as [c|] eqn:Hc; [|done].
    simpl. f_equal. apply drop_absent. rewrite (ok_line _ Hok k c w Hc). simpl.
    intros [? ?]. congruence.
  - by apply delete_id.
Qed.

Lemma vacate_without p w key since :
  tp_ok p → p_parked p !! w = Some (key, since) →
  (vacate (set_parked p (delete w (p_parked p))) w key) =
    (without p w, option_list (exposed (without p w) key)).
Proof.
  intros Hok Hw. destruct (ok_parked _ Hok _ _ _ Hw) as [c Hc].
  unfold vacate. simpl. rewrite Hc. unfold exposed. simpl. rewrite lookup_fmap, Hc. simpl.
  f_equal. unfold set_class, set_parked, without. simpl. f_equal.
  apply map_eq. intros k. rewrite lookup_insert, lookup_fmap.
  case_decide as Hk; [subst; by rewrite Hc|].
  destruct (p_classes p !! k) as [c'|] eqn:Hc'; [|done]. simpl. f_equal.
  symmetry. apply drop_absent. rewrite (ok_line _ Hok k c' w Hc'). intros [? ?]. congruence.
Qed.

Lemma unpark_without p w same :
  tp_ok p →
  unpark p w same =
    (without p w, match p_parked p !! w with
                  | Some (key, _) =>
                    if same then [] else option_list (exposed (without p w) key)
                  | None => []
                  end).
Proof.
  intros Hok. unfold unpark. destruct (p_parked p !! w) as [[key since]|] eqn:Hw.
  - by rewrite (vacate_without p w key since Hok Hw).
  - by rewrite without_absent.
Qed.

Lemma without_ok p w : tp_ok p → tp_ok (without p w).
Proof.
  intros [Hcap Huse Hnd Hline Hpk]. constructor; simpl.
  - intros k c. rewrite lookup_fmap. intros (c' & Hc & ->)%fmap_Some. by apply (Hcap k c').
  - intros k c. rewrite lookup_fmap. intros (c' & Hc & ->)%fmap_Some. by apply (Huse k c').
  - intros k c. rewrite lookup_fmap. intros (c' & Hc & ->)%fmap_Some. simpl.
    apply NoDup_filter. by eapply Hnd.
  - intros k c w'. rewrite lookup_fmap. intros (c' & Hc & ->)%fmap_Some. simpl.
    rewrite list_elem_of_filter, (Hline k c' w' Hc), lookup_delete. case_decide; naive_solver.
  - intros w' k since. rewrite lookup_delete, lookup_fmap. case_decide; [done|].
    intros [c ->]%Hpk. by eexists.
Qed.

(** ** What [Acquire] does, case by case *)

(** The class record created on first use. *)
Definition ensure (p : Pool) (k : K) (cap : Z) : Pool :=
  match p_classes p !! k with
  | Some _ => p
  | None => set_class p k (mkClass cap 0 [])
  end.

Lemma ensure_ok p k cap : tp_ok p → p_capacity p !! k = Some cap → tp_ok (ensure p k cap).
Proof.
  intros Hok Hcap. unfold ensure. destruct (p_classes p !! k) eqn:Hk; [done|].
  constructor; simpl.
  - intros k' c. rewrite lookup_insert. case_decide; [|apply (ok_capacity _ Hok)].
    intros [= <-]. by subst.
  - intros k' c. rewrite lookup_insert. case_decide; [|apply (ok_inUse _ Hok)].
    intros [= <-]. simpl. lia.
  - intros k' c. rewrite lookup_insert. case_decide; [|apply (ok_nodup _ Hok)].
    intros [= <-]. constructor.
  - intros k' c w. rewrite lookup_insert. case_decide; [|apply (ok_line _ Hok)].
    intros [= <-]. simpl. rewrite elem_of_nil. split; [done|]. subst k'.
    intros [since Hs]. destruct (ok_parked _ Hok _ _ _ Hs). congruence.
  - intros w k' since Hs. destruct (ok_parked _ Hok _ _ _ Hs) as [c Hc].
    rewrite lookup_insert. case_decide; [by eexists|by exists c].
Qed.

Lemma ensure_class p k cap :
  ∃ c, p_classes (ensure p k cap) !! k = Some c ∧
    (p_classes p !! k = Some c ∨ p_classes p !! k = None ∧ c = mkClass cap 0 []).
Proof.
  unfold ensure. destruct (p_classes p !! k) as [c|] eqn:Hk; [by exists c; auto|].
  exists (mkClass cap 0 []). simpl. rewrite lookup_insert_eq. auto.
Qed.

Lemma ensure_other p k cap k' : k' ≠ k → p_classes (ensure p k cap) !! k' = p_classes p !! k'.
Proof.
  intros Hk. unfold ensure. destruct (p_classes p !! k); [done|].
  simpl. by rewrite lookup_insert_ne.
Qed.

Lemma ensure_parked p k cap : p_parked (ensure p k cap) = p_parked p.
Proof. unfold ensure. by destruct (p_classes p !! k). Qed.
Lemma ensure_capacity p k cap : p_capacity (ensure p k cap) = p_capacity p.
Proof. unfold ensure. by destruct (p_classes p !! k). Qed.

(** The wake handed on when [w] leaves the line it is parked in. *)
Definition handed_on (p : Pool) (w : W) : list W :=
  match p_parked p !! w with
  | Some (key, _) => option_list (exposed (without p w) key)
  | None => []
  end.
(** The same, kept back when the line is that of [k]. *)
Definition handed_on_but (k : K) (p : Pool) (w : W) : list W :=
  match p_parked p !! w with
  | Some (key, _) => if decide (key = k) then [] else option_list (exposed (without p w) key)
  | None => []
  end.
Definition parked_for (p : Pool) (w : W) (now : Time) : Duration :=
  match p_parked p !! w with Some (_, since) => TimeSub now since | None => 0%Z end.
Definition since_of (p : Pool) (w : W) (now : Time) : Time :=
  match p_parked p !! w with Some (_, since) => since | None => now end.

Lemma Acquire_token_less p k w bypass now :
  tp_ok p → bypass = true ∨ p_capacity p !! k = None →
  Acquire p k w bypass now = (without p w, mkGrant true false 0%Z (handed_on p w)).
Proof.
  intros Hok Hb. unfold Acquire, handed_on. rewrite (unpark_without p w false Hok).
  destruct Hb as [-> | ->]; [done|]. by destruct bypass.
Qed.

Lemma Acquire_grant p k w now cap c :
  tp_ok p → p_capacity p !! k = Some cap → p_classes (ensure p k cap) !! k = Some c →
  (c_inUse c < c_capacity c)%Z →
  Acquire p k w false now =
    (let c' := set_inUse (c_inUse c + 1) (drop_waiter w c) in
     (set_class (without (ensure p k cap) w) k c',
      mkGrant true true (parked_for p w now)
        (handed_on_but k (ensure p k cap) w ++ option_list (nextWaiter c')))).
Proof.
  intros Hok Hcap Hc Hfree. unfold Acquire. rewrite Hcap. fold (ensure p k cap).
  pose proof (ensure_ok p k cap Hok Hcap) as Hok'.
  unfold map_get at 1 2. rewrite Hc. simpl.
  rewrite (proj2 (Z.ltb_lt _ _) Hfree), unpark_without by done. simpl.
  unfold map_get. rewrite lookup_fmap, Hc. simpl. unfold handed_on_but, parked_for.
  rewrite ensure_parked. destruct (p_parked p !! w) as [[key since]|]; [|done].
  case_decide as Hk; [by rewrite (bool_decide_eq_true_2 _ Hk)|].
  by rewrite (bool_decide_eq_false_2 _ Hk).
Qed.

Lemma Acquire_park p k w now cap c :
  tp_ok p → p_capacity p !! k = Some cap → p_classes (ensure p k cap) !! k = Some c →
  (c_capacity c <= c_inUse c)%Z →
  ∃ q, Acquire p k w false now = (q, mkGrant false false 0%Z
         (handed_on_but k (ensure p k cap) w)) ∧
    p_capacity q = p_capacity p ∧
    p_parked q = <[w := (k, since_of p w now)]> (p_parked p) ∧
    p_classes q !! k = Some (enqueue w c) ∧
    (∀ k', k' ≠ k → p_classes q !! k' = drop_waiter w <$> p_classes p !! k').
Proof.
  intros Hok Hcap Hc Hfull. unfold Acquire. rewrite Hcap. fold (ensure p k cap).
  pose proof (ensure_ok p k cap Hok Hcap) as Hok'.
  unfold map_get at 1 2. rewrite Hc. simpl.
  rewrite (proj2 (Z.ltb_ge _ _) Hfull). unfold handed_on_but, since_of. rewrite ensure_parked.
  assert (∀ k', k' ≠ k → (∀ since, p_parked p !! w ≠ Some (k', since)) →
    p_classes (ensure p k cap) !! k' = drop_waiter w <$> p_classes p !! k') as Hsame.
  { intros k' Hk' Hw. rewrite ensure_other by done.
    destruct (p_classes p !! k') as [c'|] eqn:Hc'; [|done]. simpl. f_equal. symmetry.
    apply drop_absent. rewrite (ok_line _ Hok k' c' w Hc'). intros [since ?]. by eapply Hw. }
  assert (p_capacity (ensure p k cap) = p_capacity p ∧
          p_parked (ensure p k cap) = p_parked p) as [Ec Ep].
  { split; [apply ensure_capacity|apply ensure_parked]. }
  destruct (p_parked p !! w) as [[key since]|] eqn:Hw; [destruct (decide (key = k)) as [->|Hkey]|].
  - eexists. split; [reflexivity|]. simpl. rewrite Ec, Ep. do 2 (split; [done|]).
    rewrite lookup_insert_eq. unfold map_get. rewrite Hc. split; [done|].
    intros k' Hk'. rewrite lookup_insert_ne by done. apply Hsame; [done|]. naive_solver.
  - unfold vacate. destruct (ok_parked _ Hok _ _ _ Hw) as [pc Hpc].
    rewrite ensure_other, Hpc by done. simpl.
    eexists. split; [unfold exposed; simpl; rewrite lookup_fmap, ensure_other, Hpc by done;
      reflexivity|]. simpl. rewrite Ec, Ep. do 2 (split; [done|]).
    rewrite lookup_insert_eq. unfold map_get. rewrite lookup_insert_ne, Hc by done.
    split; [done|]. intros k' Hk'. rewrite lookup_insert_ne, lookup_insert by done.
    case_decide; [subst; by rewrite Hpc|]. apply Hsame; [done|]. naive_solver.
  - eexists. split; [reflexivity|]. simpl. rewrite Ec, Ep. do 2 (split; [done|]).
    rewrite lookup_insert_eq. unfold map_get. rewrite Hc. split; [done|].
    intros k' Hk'. rewrite lookup_insert_ne by done. apply Hsame; [done|]. naive_solver.
Qed.

(** ** The invariant, operation by operation *)

(** Changing the token count of one class keeps the rest of the invariant. *)
Lemma set_inUse_ok p k c z :
  tp_ok p → p_classes p !! k = Some c → (0 <= z <= Z.max 0 (c_capacity c))%Z →
  tp_ok (set_class p k (set_inUse z c)).
Proof.
  intros Hok Hc Hz. constructor; simpl.
  - intros k' c'. rewrite lookup_insert. case_decide; [|apply (ok_capacity _ Hok)].
    intros [= <-]. subst. simpl. by apply (ok_capacity _ Hok).
  - intros k' c'. rewrite lookup_insert. case_decide; [|apply (ok_inUse _ Hok)].
    intros [= <-]. by subst.
  - intros k' c'. rewrite lookup_insert. case_decide; [|apply (ok_nodup _ Hok)].
    intros [= <-]. subst. by apply (ok_nodup _ Hok k' c).
  - intros k' c' w. rewrite lookup_insert. case_decide; [|apply (ok_line _ Hok)].
    intros [= <-]. subst. by apply (ok_line _ Hok k' c).
  - intros w k' since Hs. rewrite lookup_insert. case_decide; [by eexists|].
    by eapply (ok_parked _ Hok).
Qed.

Lemma park_ok p q k w since c :
  tp_ok p → p_capacity q = p_capacity p →
  p_parked q = <[w := (k, since)]> (p_parked p) →
  p_classes p !! k = Some c → p_classes q !! k = Some (enqueue w c) →
  (∀ k', k' ≠ k → p_classes q !! k' = drop_waiter w <$> p_classes p !! k') → tp_ok q.
Proof.
  intros Hok Hcap Hpk Hc Hqc Hq.
  assert (∀ k' c', p_classes q !! k' = Some c' → ∃ c0, p_classes p !! k' = Some c0 ∧
    c_capacity c' = c_capacity c0 ∧ c_inUse c' = c_inUse c0 ∧ NoDup (c_waiters c') ∧
    ∀ w', w' ∈ c_waiters c' ↔
      if decide (k' = k) then w' = w ∨ w' ∈ c_waiters c0 else w' ≠ w ∧ w' ∈ c_waiters c0) as Hall.
  { intros k' c' Hk'. destruct (decide (k' = k)) as [->|Hne].
    - rewrite Hqc in Hk'. injection Hk' as <-. exists c. split; [done|].
      pose proof (ok_nodup _ Hok _ _ Hc). unfold enqueue. case_decide as Hw.
      + do 3 (split; [done|]). naive_solver.
      + do 2 (split; [done|]). simpl. split.
        * apply NoDup_app. split; [done|]. split; [|apply NoDup_singleton].
          intros x Hx ->%list_elem_of_singleton. done.
        * intros w'. rewrite elem_of_app, list_elem_of_singleton. tauto.
    - rewrite (Hq _ Hne) in Hk'. apply fmap_Some in Hk' as (c0 & Hc0 & ->).
      exists c0. do 3 (split; [done|]). simpl. split.
      + apply NoDup_filter. by eapply ok_nodup.
      + intros w'. by rewrite list_elem_of_filter. }
  constructor.
  - intros k' c' (c0 & Hc0 & -> & _)%Hall. rewrite Hcap. by apply (ok_capacity _ Hok).
  - intros k' c' (c0 & Hc0 & -> & -> & _)%Hall. by apply (ok_inUse _ Hok k').
  - by intros k' c' (c0 & _ & _ & _ & ? & _)%Hall.
  - intros k' c' w' (c0 & Hc0 & _ & _ & _ & Hin)%Hall. rewrite Hin, Hpk, lookup_insert.
    pose proof (ok_line _ Hok k' c0 w' Hc0). repeat case_decide; subst; naive_solver.
  - intros w' k' since'. rewrite Hpk, lookup_insert. case_decide as Hw.
    + intros [= <- <-]. by eexists.
    + intros [c' Hc']%(ok_parked _ Hok). destruct (decide (k' = k)) as [->|Hne]; [by eexists|].
      rewrite (Hq _ Hne), Hc'. by eexists.
Qed.

Lemma Acquire_ok p k w bypass now : tp_ok p → tp_ok (Acquire p k w bypass now).1.
Proof.
  intros Hok. destruct bypass.
  { rewrite Acquire_token_less by auto. by apply without_ok. }
  destruct (p_capacity p !! k) as [cap|] eqn:Hcap.
  2:{ rewrite Acquire_token_less by auto. by apply without_ok. }
  destruct (ensure_class p k cap) as (c & Hc & _).
  pose proof (ensure_ok p k cap Hok Hcap) as Hok'.
  destruct (Z.lt_ge_cases (c_inUse c) (c_capacity c)) as [Hfree|Hfull].
  - rewrite (Acquire_grant p k w now cap c) by done. simpl.
    apply set_inUse_ok; [by apply without_ok|simpl; by rewrite lookup_fmap, Hc|].
    pose proof (ok_inUse _ Hok' _ _ Hc). simpl. lia.
  - destruct (Acquire_park p k w now cap c Hok Hcap Hc Hfull) as (q & -> & Hqc & Hpk & Hk & Hq).
    simpl. eapply (park_ok (ensure p k cap)); [done|by rewrite ensure_capacity|
      by rewrite ensure_parked|done|done|].
    intros k' Hne. by rewrite (Hq k' Hne), ensure_other.
Qed.

Lemma tokenpool_Release_ok p k p' kick : tp_ok p → Release p k = Some (p', kick) → tp_ok p'.
Proof.
  intros Hok. unfold Release. destruct (p_classes p !! k) as [c|] eqn:Hc; [|done].
  destruct (c_inUse c <=? 0)%Z eqn:Hz; [done|]. intros [= <- _].
  apply set_inUse_ok; [done..|]. pose proof (ok_inUse _ Hok _ _ Hc). zlia.
Qed.

Lemma Clear_without p w : tp_ok p → Clear p w = (without p w, head (handed_on p w)).
Proof.
  intros Hok. unfold Clear, handed_on. destruct (p_parked p !! w) as [[key since]|] eqn:Hw.
  - by rewrite (vacate_without p w key since Hok Hw).
  - by rewrite without_absent.
Qed.

(** ** The caller's side: owed kicks and tokens out *)

Record state := mkState {
  s_pool : Pool;
  s_owed : gset W;
  s_held : gmap K Z;
}.

Inductive op :=
| TAcquire (k : K) (w : W) (bypass : bool) (now : Time)
| TRelease (k : K)
| TClear (w : W).

(** An operation of a waiter consumes the kick it was owed. *)
Definition exec (o : op) (s : state) : option state :=
  match o with
  | TAcquire k w bypass now =>
    let '(p, g) := Acquire (s_pool s) k w bypass now in
    Some (mkState p (s_owed s ∖ {[w]} ∪ list_to_set (g_kicks g))
      (if g_held g then <[k := (map_get 0%Z (s_held s) k + 1)%Z]> (s_held s) else s_held s))
  | TRelease k =>
    match Release (s_pool s) k with
    | None => None
    | Some (p, kick) =>
      Some (mkState p (s_owed s ∪ list_to_set (option_list kick))
        (<[k := (map_get 0%Z (s_held s) k - 1)%Z]> (s_held s)))
    end
  | TClear w =>
    let '(p, kick) := Clear (s_pool s) w in
    Some (mkState p (s_owed s ∖ {[w]} ∪ list_to_set (option_list kick)) (s_held s))
  end.

Definition init (capacity : gmap K Z) : state := mkState (New capacity) ∅ ∅.

Inductive reach (capacity : gmap K Z) : state → Prop :=
| reach_init : reach capacity (init capacity)
| reach_step o s s' : reach capacity s → exec o s = Some s' → reach capacity s'.

Definition inUse (p : Pool) (k : K) : Z :=
  match p_classes p !! k with Some c => c_inUse c | None => 0%Z end.

(** No stranded waiter: a wake a class exposes is owed. *)
Definition served (p : Pool) (owed : gset W) : Prop :=
  ∀ k h, exposed p k = Some h → h ∈ owed.

Record st_ok (capacity : gmap K Z) (s : state) : Prop := {
  st_pool : tp_ok (s_pool s);
  st_capacity : p_capacity (s_pool s) = capacity;
  st_served : served (s_pool s) (s_owed s);
  st_held k : inUse (s_pool s) k = map_get 0%Z (s_held s) k;
}.

(** A class [w] is not parked in keeps its wake owed while [w] acts. *)
Lemma served_other p owed w k h :
  tp_ok p → served p owed → (∀ since, p_parked p !! w ≠ Some (k, since)) →
  exposed (without p w) k = Some h → h ∈ owed ∖ {[w]}.
Proof.
  intros Hok Hs Hw. unfold exposed. simpl. rewrite lookup_fmap.
  destruct (p_classes p !! k) as [c|] eqn:Hc; [|done]. simpl.
  assert (w ∉ c_waiters c) as Hnin.
  { rewrite (ok_line _ Hok k c w Hc). intros [since ?]. by eapply Hw. }
  rewrite drop_absent by done. intros Hn.
  assert (exposed p k = Some h) as He by (unfold exposed; by rewrite Hc).
  apply elem_of_difference. split; [by eapply Hs|].
  unfold nextWaiter in Hn. case_match; [|done].
  intros ->%elem_of_singleton. apply Hnin. destruct (c_waiters c); [done|].
  simpl in Hn. injection Hn as ->. left.
Qed.

Lemma served_without p owed w :
  tp_ok p → served p owed →
  served (without p w) (owed ∖ {[w]} ∪ list_to_set (handed_on p w)).
Proof.
  intros Hok Hs k h Hh. unfold handed_on.
  destruct (p_parked p !! w) as [[key since]|] eqn:Hw.
  - destruct (decide (key = k)) as [->|Hk].
    + rewrite Hh. simpl. set_solver.
    + apply elem_of_union_l. apply (served_other p owed w k h Hok Hs); [naive_solver|done].
  - apply elem_of_union_l. apply (served_other p owed w k h Hok Hs); [naive_solver|done].
Qed.

Lemma handed_on_but_other k p w key since :
  p_parked p !! w = Some (key, since) → key ≠ k → handed_on_but k p w = handed_on p w.
Proof. intros Hw Hk. unfold handed_on_but, handed_on. rewrite Hw. by case_decide. Qed.

(** The wakes of the classes other than [k] stay owed when [w] leaves its line. *)
Lemma served_but p owed w k k' h :
  tp_ok p → served p owed → k' ≠ k → exposed (without p w) k' = Some h →
  h ∈ owed ∖ {[w]} ∪ list_to_set (handed_on_but k p w).
Proof.
  intros Hok Hs Hk' Hh. destruct (p_parked p !! w) as [[key since]|] eqn:Hw.
  - destruct (decide (key = k')) as [->|Hk].
    + unfold handed_on_but. rewrite Hw, decide_False, Hh by done. simpl. set_solver.
    + apply elem_of_union_l. apply (served_other p owed w k' h Hok Hs); [naive_solver|done].
  - apply elem_of_union_l. apply (served_other p owed w k' h Hok Hs); [naive_solver|done].
Qed.

Lemma ensure_served p owed k cap : served p owed → served (ensure p k cap) owed.
Proof.
  intros Hs k' h. unfold exposed. destruct (decide (k' = k)) as [->|Hk].
  - destruct (ensure_class p k cap) as (c & -> & [Hc|[Hc ->]]); simpl; intros Hh.
    + eapply Hs. unfold exposed. by rewrite Hc.
    + unfold nextWaiter in Hh. by case_match.
  - rewrite ensure_other by done. apply Hs.
Qed.

Lemma ensure_inUse p k cap k' : inUse (ensure p k cap) k' = inUse p k'.
Proof.
  unfold inUse. destruct (decide (k' = k)) as [->|Hk].
  - by destruct (ensure_class p k cap) as (c & -> & [->|[-> ->]]).
  - by rewrite ensure_other.
Qed.

Lemma without_inUse p w k : inUse (without p w) k = inUse p k.
Proof. unfold inUse. simpl. rewrite lookup_fmap. by destruct (p_classes p !! k). Qed.

Lemma Acquire_capacity p k w bypass now :
  tp_ok p → p_capacity (Acquire p k w bypass now).1 = p_capacity p.
Proof.
  intros Hok. destruct bypass; [by rewrite Acquire_token_less by auto|].
  destruct (p_capacity p !! k) as [cap|] eqn:Hcap; [|by rewrite Acquire_token_less by auto].
  destruct (ensure_class p k cap) as (c & Hc & _).
  destruct (Z.lt_ge_cases (c_inUse c) (c_capacity c)) as [Hfree|Hfull].
  - rewrite (Acquire_grant p k w now cap c) by done. simpl. apply ensure_capacity.
  - by destruct (Acquire_park p k w now cap c Hok Hcap Hc Hfull) as (q & -> & ? & _).
Qed.

Lemma Acquire_inUse p k w bypass now k' :
  tp_ok p →
  inUse (Acquire p k w bypass now).1 k' =
    (inUse p k' + if decide (k' = k) then
                    if g_held (Acquire p k w bypass now).2 then 1 else 0 else 0)%Z.
Proof.
  intros Hok.
  assert (bypass = true ∨ p_capacity p !! k = None →
    inUse (Acquire p k w bypass now).1 k' =
    (inUse p k' + if decide (k' = k) then
                    if g_held (Acquire p k w bypass now).2 then 1 else 0 else 0)%Z) as Hless.
  { intros Hl. rewrite Acquire_token_less by done. simpl. rewrite without_inUse.
    case_decide; lia. }
  destruct bypass; [auto|]. destruct (p_capacity p !! k) as [cap|] eqn:Hcap; [|auto].
  clear Hless. destruct (ensure_class p k cap) as (c & Hc & Hp).
  destruct (Z.lt_ge_cases (c_inUse c) (c_capacity c)) as [Hfree|Hfull].
  - rewrite (Acquire_grant p k w now cap c) by done. simpl. case_decide as Hk.
    + subst k'. unfold inUse at 1. simpl. rewrite lookup_insert_eq. simpl.
      rewrite <-(ensure_inUse p k cap k). unfold inUse. by rewrite Hc.
    + unfold inUse at 1. simpl. rewrite lookup_insert_ne, lookup_fmap by done.
      rewrite ensure_other by done. unfold inUse. destruct (p_classes p !! k'); simpl; lia.
  - destruct (Acquire_park p k w now cap c Hok Hcap Hc Hfull) as (q & -> & _ & _ & Hk & Hq).
    simpl. unfold inUse at 1. destruct (decide (k' = k)) as [->|Hne].
    + rewrite Hk. rewrite <-(ensure_inUse p k cap k). unfold inUse. rewrite Hc.
      unfold enqueue. case_decide; simpl; lia.
    + rewrite (Hq _ Hne). unfold inUse. destruct (p_classes p !! k'); simpl; lia.
Qed.

Lemma Acquire_served p owed k w bypass now :
  tp_ok p → served p owed →
  served (Acquire p k w bypass now).1
    (owed ∖ {[w]} ∪ list_to_set (g_kicks (Acquire p k w bypass now).2)).
Proof.
  intros Hok Hs. destruct bypass.
  { rewrite Acquire_token_less by auto. by apply served_without. }
  destruct (p_capacity p !! k) as [cap|] eqn:Hcap.
  2:{ rewrite Acquire_token_less by auto. by apply served_without. }
  destruct (ensure_class p k cap) as (c & Hc & _).
  pose proof (ensure_ok p k cap Hok Hcap) as Hok'.
  pose proof (ensure_served p owed k cap Hs) as Hs'.
  destruct (Z.lt_ge_cases (c_inUse c) (c_capacity c)) as [Hfree|Hfull].
  - rewrite (Acquire_grant p k w now cap c) by done. simpl. intros k' h.
    unfold exposed. simpl. rewrite lookup_insert. rewrite list_to_set_app.
    case_decide as Hk; simpl.
    + intros ->. simpl. set_solver.
    + intros Hh. pose proof (served_but _ owed w k k' h Hok' Hs' ltac:(done) Hh). set_solver.
  - destruct (Acquire_park p k w now cap c Hok Hcap Hc Hfull) as (q & -> & _ & _ & Hk & Hq).
    simpl. intros k' h. unfold exposed. destruct (decide (k' = k)) as [->|Hne].
    + rewrite Hk. simpl. unfold nextWaiter. replace (c_inUse (enqueue w c)) with (c_inUse c);
        [replace (c_capacity (enqueue w c)) with (c_capacity c)|];
        [|unfold enqueue; by case_decide..].
      by rewrite (proj2 (Z.ltb_ge _ _) Hfull).
    + rewrite (Hq _ Hne), <-(ensure_other p k cap k' Hne). intros Hh.
      apply (served_but _ owed w k k' h Hok' Hs' Hne).
      unfold exposed. simpl. by rewrite lookup_fmap.
Qed.

Lemma inUse_insert p k c k' :
  inUse (set_class p k c) k' = if decide (k' = k) then c_inUse c else inUse p k'.
Proof.
  unfold inUse. simpl. rewrite lookup_insert. repeat case_decide; subst; done.
Qed.

Lemma tokenpool_exec_ok capacity o s s' : st_ok capacity s → exec o s = Some s' → st_ok capacity s'.
Proof.
  intros [Hok Hcap Hs Hh] He. destruct o as [k w bypass now|k|w]; simpl in He.
  - pose proof (Acquire_ok (s_pool s) k w bypass now Hok) as H1.
    pose proof (Acquire_capacity (s_pool s) k w bypass now Hok) as H2.
    pose proof (Acquire_served (s_pool s) (s_owed s) k w bypass now Hok Hs) as H3.
    pose proof (λ k', Acquire_inUse (s_pool s) k w bypass now k' Hok) as H4.
    destruct (Acquire _ _ _ _ _) as [p g]. injection He as <-. simpl in *.
    constructor; simpl; [done|congruence|done|]. intros k'. rewrite H4, Hh.
    destruct (g_held g); [|case_decide; lia]. unfold map_get. rewrite lookup_insert.
    repeat case_decide; subst; simpl; (done || lia).
  - destruct (Release (s_pool s) k) as [[p kick]|] eqn:Hr; [|done]. injection He as <-.
    constructor; simpl; [by eapply tokenpool_Release_ok|..]; unfold Release in Hr;
      destruct (p_classes (s_pool s) !! k) as [c|] eqn:Hc; try done;
      destruct (c_inUse c <=? 0)%Z eqn:Hz; try done; injection Hr as <- <-; [done| |].
    + intros k' h. unfold exposed. simpl. rewrite lookup_insert. case_decide as Hk; simpl.
      * intros ->. simpl. set_solver.
      * intros Hx. apply elem_of_union_l. by eapply Hs.
    + intros k'. rewrite inUse_insert, Hh. unfold map_get. rewrite lookup_insert.
      repeat case_decide; subst; try done. simpl.
      specialize (Hh k). unfold inUse in Hh. rewrite Hc in Hh. unfold map_get in Hh. lia.
  - rewrite Clear_without in He by done. injection He as <-. constructor; simpl;
      [by apply without_ok|done| |intros k; by rewrite without_inUse].
    pose proof (served_without (s_pool s) (s_owed s) w Hok Hs) as Hw.
    replace (option_list (head (handed_on (s_pool s) w))) with (handed_on (s_pool s) w);
      [done|]. unfold handed_on. destruct (p_parked (s_pool s) !! w) as [[key ?]|]; [|done].
    by destruct (exposed _ key).
Qed.

Lemma tokenpool_reach_ok capacity s : reach capacity s → st_ok capacity s.
Proof.
  induction 1 as [|o s s' _ IH He]; [|by eapply tokenpool_exec_ok].
  constructor; simpl; [apply tokenpool_New_ok|done| |].
  - intros k h. unfold exposed. simpl. by rewrite lookup_empty.
  - intros k. unfold inUse, map_get. simpl. by rewrite !lookup_empty.
Qed.

(** ** The line of a key *)

Definition line (p : Pool) (k : K) : list W :=
  match p_classes p !! k with Some c => c_waiters c | None => [] end.

Lemma line_without p w k : line (without p w) k = filter (λ x, x ≠ w) (line p k).
Proof. unfold line. simpl. rewrite lookup_fmap. by destruct (p_classes p !! k). Qed.

Lemma line_insert p k c k' :
  line (set_class p k c) k' = if decide (k' = k) then c_waiters c else line p k'.
Proof. unfold line. simpl. rewrite lookup_insert. repeat case_decide; subst; done. Qed.

Lemma ensure_line p k cap k' : line (ensure p k cap) k' = line p k'.
Proof.
  unfold line. destruct (decide (k' = k)) as [->|Hk].
  - by destruct (ensure_class p k cap) as (c & -> & [->|[-> ->]]).
  - by rewrite ensure_other.
Qed.

Lemma Acquire_line p k w bypass now k' :
  tp_ok p →
  line (Acquire p k w bypass now).1 k' =
    if g_granted (Acquire p k w bypass now).2 then filter (λ x, x ≠ w) (line p k')
    else if decide (k' = k) then
      if decide (w ∈ line p k) then line p k else line p k ++ [w]
    else filter (λ x, x ≠ w) (line p k').
Proof.
  intros Hok. destruct bypass.
  { rewrite Acquire_token_less by auto. apply line_without. }
  destruct (p_capacity p !! k) as [cap|] eqn:Hcap.
  2:{ rewrite Acquire_token_less by auto. apply line_without. }
  destruct (ensure_class p k cap) as (c & Hc & _).
  assert (c_waiters c = line p k) as Hl.
  { rewrite <-(ensure_line p k cap k). unfold line. by rewrite Hc. }
  destruct (Z.lt_ge_cases (c_inUse c) (c_capacity c)) as [Hfree|Hfull].
  - rewrite (Acquire_grant p k w now cap c) by done. simpl.
    rewrite line_insert, line_without, ensure_line. simpl. case_decide; subst; [|done].
    by rewrite Hl.
  - destruct (Acquire_park p k w now cap c Hok Hcap Hc Hfull) as (q & -> & _ & _ & Hk & Hq).
    simpl. unfold line at 1. destruct (decide (k' = k)) as [->|Hne].
    + rewrite Hk. unfold enqueue. rewrite <-Hl. by case_decide.
    + rewrite (Hq _ Hne). unfold line. by destruct (p_classes p !! k').
Qed.

(** ** Properties *)

(** In every reachable pool the tokens in use of a key are the tokens handed
    out and not returned; they never exceed the key's capacity, an unlimited key
    has none, and [Release] panics exactly when none is out. *)
Theorem tokens_conserved capacity s k :
  reach capacity s →
  inUse (s_pool s) k = map_get 0%Z (s_held s) k ∧
  (0 <= map_get 0 (s_held s) k <= Z.max 0 (map_get 0 capacity k))%Z ∧
  (exec (TRelease k) s = None ↔ map_get 0%Z (s_held s) k = 0%Z).
Proof.
  intros [Hok Hcap _ Hh]%tokenpool_reach_ok. rewrite <-Hh. unfold inUse. simpl. unfold Release.
  destruct (p_classes (s_pool s) !! k) as [c|] eqn:Hc.
  - pose proof (ok_inUse _ Hok k c Hc). pose proof (ok_capacity _ Hok k c Hc) as Hk.
    rewrite Hcap in Hk. unfold map_get. rewrite Hk. simpl. split; [done|]. split; [done|].
    destruct (c_inUse c <=? 0)%Z eqn:Hz; zbool; split; try done; lia.
  - split; [done|]. split; [lia|]. done.
Qed.

(** No wake is lost: whenever a key has free capacity and waiters, its head
    waiter is owed a kick it has not yet consumed. *)
Theorem no_stranded_waiter capacity s k c h rest :
  reach capacity s → p_classes (s_pool s) !! k = Some c →
  (c_inUse c < c_capacity c)%Z → c_waiters c = h :: rest → h ∈ s_owed s.
Proof.
  intros [_ _ Hs _]%tokenpool_reach_ok Hc Hfree Hw. apply (Hs k h). unfold exposed. rewrite Hc. simpl.
  unfold nextWaiter. by rewrite (proj2 (Z.ltb_lt _ _) Hfree), Hw.
Qed.

(** [Acquire] in a reachable pool: bypassing or an unlimited key proceeds
    without a token; with free capacity a token is granted, reporting the time
    parked; otherwise the waiter is parked on the key, keeping the time of an
    earlier park.  A granted waiter is parked nowhere. *)
Theorem Acquire_correct capacity s k w bypass now :
  reach capacity s →
  let p := s_pool s in
  let '(p', g) := Acquire p k w bypass now in
  if bypass || bool_decide (capacity !! k = None) then
    g_granted g = true ∧ g_held g = false ∧ g_waited g = 0%Z ∧ ParkedOn p' w = None
  else if (inUse p k <? map_get 0 capacity k)%Z then
    g_granted g = true ∧ g_held g = true ∧ g_waited g = parked_for p w now ∧
    ParkedOn p' w = None ∧ inUse p' k = (inUse p k + 1)%Z
  else
    g_granted g = false ∧ g_held g = false ∧ g_waited g = 0%Z ∧
    p_parked p' !! w = Some (k, since_of p w now) ∧ w ∈ line p' k.
Proof.
  intros [Hok Hcapacity _ _]%tokenpool_reach_ok p. fold p in Hok, Hcapacity.
  pose proof (Acquire_inUse p k w bypass now k Hok) as Hu.
  pose proof (Acquire_line p k w bypass now k Hok) as Hl.
  rewrite decide_True in Hu by done. rewrite (decide_True (P:=k = k)) in Hl by done.
  rewrite <-Hcapacity.
  assert (ParkedOn (without p w) w = None) as Hun
    by (unfold ParkedOn; simpl; by rewrite lookup_delete_eq).
  destruct bypass; [by rewrite Acquire_token_less by auto|]. cbn [orb].
  case_bool_decide as Hun'; [by rewrite Acquire_token_less by auto|].
  destruct (p_capacity p !! k) as [cap|] eqn:Hcap; [|done].
  destruct (ensure_class p k cap) as (c & Hc & Hp).
  assert (inUse p k = c_inUse c ∧ c_capacity c = cap) as [Eu Ec].
  { rewrite <-(ensure_inUse p k cap k). unfold inUse. rewrite Hc. split; [done|].
    pose proof (ok_capacity _ (ensure_ok p k cap Hok Hcap) k c Hc) as E.
    rewrite ensure_capacity, Hcap in E. by injection E. }
  unfold map_get. rewrite Hcap. cbn [default from_option id]. rewrite <-Ec, Eu.
  destruct (Z.lt_ge_cases (c_inUse c) (c_capacity c)) as [Hfree|Hfull].
  - rewrite (proj2 (Z.ltb_lt _ _) Hfree).
    rewrite (Acquire_grant p k w now cap c) in * by done. simpl in *.
    do 3 (split; [done|]). split; [|lia]. unfold ParkedOn. simpl. by rewrite lookup_delete_eq.
  - rewrite (proj2 (Z.ltb_ge _ _) Hfull).
    destruct (Acquire_park p k w now cap c Hok Hcap Hc Hfull) as (q & Hq & _ & Hpk & _).
    rewrite Hq in Hl |- *. simpl in Hl |- *. do 3 (split; [done|]).
    split; [by rewrite Hpk, lookup_insert_eq|]. rewrite Hl. case_decide; [done|].
    apply elem_of_app. right. by apply list_elem_of_singleton.
Qed.

(** The lines are FIFO: an operation leaves every line as it was, takes the
    acting waiter out of it, or appends the acting waiter at its tail; the waiters
    it kicks are heads of lines with free capacity. *)
Theorem lines_are_fifo capacity s k w bypass now k' :
  reach capacity s →
  let p := s_pool s in
  let l := line p k' in
  let l' := line (Acquire p k w bypass now).1 k' in
  (l' = filter (λ x, x ≠ w) l ∨ l' = l ∨ (w ∉ l ∧ l' = l ++ [w])) ∧
  line (Clear p w).1 k' = filter (λ x, x ≠ w) l ∧
  (∀ q kick, Release p k = Some (q, kick) → line q k' = l ∧
     (∀ h, kick = Some h → ∃ rest, line p k = h :: rest)).
Proof.
  intros [Hok _ _ _]%tokenpool_reach_ok p l l'. subst l l'. fold p in Hok. split; [|split].
  - rewrite Acquire_line by done. destruct (g_granted _); [auto|].
    destruct (decide (k' = k)) as [->|]; [|auto]. case_decide; auto.
  - rewrite Clear_without by done. apply line_without.
  - intros q kick. unfold Release. destruct (p_classes p !! k) as [c|] eqn:Hc; [|done].
    destruct (c_inUse c <=? 0)%Z; [done|]. intros [= <- <-]. split.
    + rewrite line_insert. case_decide; [|done]. subst. unfold line. by rewrite Hc.
    + intros h. unfold line. rewrite Hc. unfold nextWaiter. simpl.
      case_match; [|done]. destruct (c_waiters c); [done|]. intros [= ->]. by eexists.
Qed.
End tokenpool.

(** ** Witnesses: one token for key 1; waiter 5 holds it, 6 and 7 wait, 5 releases *)

Definition ex_capacity : gmap nat Z := {[1 := 1%Z]}.
Definition ex_ops : list (@op nat nat) :=
  [TAcquire 1 5 false 10%Z; TAcquire 1 6 false 20%Z; TAcquire 1 7 false 30%Z; TRelease 1].

Fixpoint exec_all (os : list (@op nat nat)) (s : @state nat nat _ _ _ _) :=
  match os with
  | [] => Some s
  | o :: os => match exec o s with None => None | Some s => exec_all os s end
  end.
Definition ex_state : @state nat nat _ _ _ _ :=
  match exec_all ex_ops (init ex_capacity) with Some s => s | None => init ex_capacity end.

Lemma tokenpool_exec_all_reach capacity os s s' :
  reach capacity s → exec_all os s = Some s' → reach capacity s'.
Proof.
  revert s. induction os as [|o os IH]; simpl; intros s Hr; [by intros [= <-]|].
  destruct (exec o s) eqn:He; [|done]. apply IH. by eapply reach_step.
Qed.

Lemma tokenpool_ex_reach : reach ex_capacity ex_state.
Proof.
  eapply (tokenpool_exec_all_reach _ ex_ops); [constructor|]. vm_compute. reflexivity.
Qed.

Lemma tokens_conserved_witness : inUse (s_pool ex_state) 1 = 0%Z.
Proof.
  destruct (tokens_conserved ex_capacity ex_state 1 tokenpool_ex_reach) as [Hu _].
  rewrite Hu. vm_compute. reflexivity.
Defined.

Lemma no_stranded_waiter_witness : 6 ∈ s_owed ex_state.
Proof.
  apply (no_stranded_waiter ex_capacity ex_state 1 (mkClass 1 0 [6; 7]) 6 [7] tokenpool_ex_reach);
    reflexivity.
Defined.

Lemma Acquire_correct_witness :
  g_waited (Acquire (s_pool ex_state) 1 6 false 50%Z).2 = 30%Z.
Proof.
  pose proof (Acquire_correct ex_capacity ex_state 1 6 false 50%Z tokenpool_ex_reach) as Hc.
  vm_compute in Hc. vm_compute. tauto.
Defined.

Lemma lines_are_fifo_witness :
  line (Clear (s_pool ex_state) 6).1 1 = [7].
Proof.
  destruct (lines_are_fifo ex_capacity ex_state 1 6 false 50%Z 1 tokenpool_ex_reach) as (_ & Hc & _).
  rewrite Hc. vm_compute. reflexivity.
Defined.
