(* ===== verification/RunPool.v ===== *)
(** * RunPool: the ordered pool of internal/runpool/runpool.go

    Tokens per key held by members, handed out along a line sorted by a place the
    caller supplies.  [O] is a totally ordered type: [R x y] is
    [cmp.Compare(x, y) <= 0].  [cls] assigns each member its key, which the callers
    never vary.  [Release] and [Clear] return [None] where the code would
    dereference a missing class.  The mutex makes each operation one step. *)
From S2P Require Import Prelude.

Section runpool.
Context {K W O : Type} `{Countable K} `{Countable W}.
Context (R : relation O) `{!RelDecision R} `{!TotalOrder R}.

Record class := mkClass {
  c_capacity : Z;
  c_inUse : Z;
  c_line : list (W * O);
  c_sidelined : Z;
}.

Record Pool := mkPool {
  p_capacity : gmap K Z;
  p_classes : gmap K class;
  p_holders : gmap W K;
  p_pending : gmap W K;
  p_sidelined : gset W;
  p_parked : gset W;
}.

Record Usage := mkUsage {
  u_Capacity : Z;
  u_InUse : Z;
  u_Waiting : Z;
  u_Pending : Z;
}.

Definition New (capacity : gmap K Z) : Pool := mkPool capacity ∅ ∅ ∅ ∅ ∅.

Definition set_class (p : Pool) (k : K) (c : class) : Pool :=
  mkPool (p_capacity p) (<[k := c]> (p_classes p)) (p_holders p) (p_pending p)
    (p_sidelined p) (p_parked p).

Definition classFor (p : Pool) (k : K) : option (Pool * class) :=
  match p_capacity p !! k with
  | None => None
  | Some cap =>
    match p_classes p !! k with
    | Some c => Some (p, c)
    | None => let c := mkClass cap 0 [] 0 in Some (set_class p k c, c)
    end
  end.

Definition pendingCount (c : class) : Z := (Z.of_nat (length (c_line c)) + c_sidelined c)%Z.

(** [index]: the place in the line, [None] for -1. *)
Definition index (c : class) (w : W) : option nat :=
  fst <$> list_find (λ x, x.1 = w) (c_line c).

(** [slices.BinarySearchFunc]: the smallest index whose order is not below [o]. *)
Fixpoint binary_search (fuel : nat) (line : list (W * O)) (o : O) (i j : nat) : nat :=
  match fuel with
  | 0 => i
  | S fuel =>
    if decide (i < j) then
      let h := (i + j) / 2 in
      match line !! h with
      | Some (_, x) =>
        if decide (R o x) then binary_search fuel line o i h
        else binary_search fuel line o (S h) j
      | None => i
      end
    else i
  end.

(** [insert], with the index it returns. *)
Definition insert (c : class) (w : W) (order : O) : class * nat :=
  let i := binary_search (length (c_line c)) (c_line c) order 0 (length (c_line c)) in
  (mkClass (c_capacity c) (c_inUse c)
     (take i (c_line c) ++ (w, order) :: drop i (c_line c)) (c_sidelined c), i).

Definition remove_at (c : class) (i : nat) : class :=
  mkClass (c_capacity c) (c_inUse c) (delete i (c_line c)) (c_sidelined c).
Definition add_inUse (d : Z) (c : class) : class :=
  mkClass (c_capacity c) (c_inUse c + d) (c_line c) (c_sidelined c).
Definition add_sidelined (d : Z) (c : class) : class :=
  mkClass (c_capacity c) (c_inUse c) (c_line c) (c_sidelined c + d).

(** [head]. *)
Definition head (c : class) : option W :=
  if (c_inUse c <? c_capacity c)%Z then fst <$> list.head (c_line c) else None.

Definition Admit (p : Pool) (k : K) (w : W) (order : O) (maxPending : Z) : Pool * bool :=
  match classFor p k with
  | None => (p, true)
  | Some (p, c) =>
    if decide (is_Some (p_holders p !! w)) then (p, true)
    else if decide (is_Some (p_pending p !! w)) then (p, true)
    else if ((0 <? maxPending) && (maxPending <=? pendingCount c))%Z then (p, false)
    else
      let p := mkPool (p_capacity p) (p_classes p) (p_holders p) (<[w := k]> (p_pending p))
                 (p_sidelined p) (p_parked p) in
      (set_class p k (insert c w order).1, true)
  end.

(** The first half of [Acquire]: [w] pending and in line, with its index. *)
Definition join (p : Pool) (k : K) (c : class) (w : W) (order : O) : Pool * class * nat :=
  let pending := if decide (is_Some (p_pending p !! w)) then p_pending p
                 else <[w := k]> (p_pending p) in
  match index c w with
  | Some idx =>
    (mkPool (p_capacity p) (p_classes p) (p_holders p) pending (p_sidelined p) (p_parked p),
     c, idx)
  | None =>
    let c := if decide (w ∈ p_sidelined p) then add_sidelined (-1) c else c in
    let '(c, idx) := insert c w order in
    (mkPool (p_capacity p) (<[k := c]> (p_classes p)) (p_holders p) pending
       (p_sidelined p ∖ {[w]}) (p_parked p), c, idx)
  end.

Definition Acquire (p : Pool) (k : K) (w : W) (order : O) : Pool * bool * option W :=
  match classFor p k with
  | None => (p, true, None)
  | Some (p, c) =>
    if decide (is_Some (p_holders p !! w)) then (p, true, None)
    else
      let '(p, c, idx) := join p k c w order in
      if (c_capacity c <=? c_inUse c + Z.of_nat idx)%Z then
        (mkPool (p_capacity p) (p_classes p) (p_holders p) (p_pending p) (p_sidelined p)
           ({[w]} ∪ p_parked p), false, None)
      else
        let c := add_inUse 1 (remove_at c idx) in
        (mkPool (p_capacity p) (<[k := c]> (p_classes p)) (<[w := k]> (p_holders p))
           (delete w (p_pending p)) (p_sidelined p) (p_parked p ∖ {[w]}), true, head c)
  end.

(** [forget], on the class [c] of key [k]. *)
Definition forget (p : Pool) (k : K) (c : class) (w : W) : Pool * class :=
  if decide (is_Some (p_pending p !! w)) then
    let c' := if decide (w ∈ p_sidelined p) then add_sidelined (-1) c
              else match index c w with Some i => remove_at c i | None => c end in
    (mkPool (p_capacity p) (<[k := c']> (p_classes p)) (p_holders p)
       (delete w (p_pending p)) (p_sidelined p ∖ {[w]}) (p_parked p ∖ {[w]}), c')
  else (p, c).

Definition Hold (p : Pool) (k : K) (w : W) : Pool :=
  match classFor p k with
  | None => p
  | Some (p, c) =>
    if decide (is_Some (p_holders p !! w)) then p
    else
      let '(p, c) := forget p k c w in
      mkPool (p_capacity p) (<[k := add_inUse 1 c]> (p_classes p)) (<[w := k]> (p_holders p))
        (p_pending p) (p_sidelined p) (p_parked p)
  end.

Definition Release (p : Pool) (w : W) : option (Pool * option W) :=
  match p_holders p !! w with
  | Some k =>
    match p_classes p !! k with
    | None => None
    | Some c =>
      let c := add_inUse (-1) c in
      Some (mkPool (p_capacity p) (<[k := c]> (p_classes p)) (delete w (p_holders p))
              (p_pending p) (p_sidelined p) (p_parked p), head c)
    end
  | None =>
    match p_pending p !! w with
    | Some k =>
      match p_classes p !! k with
      | None => None
      | Some c => let '(p, c) := forget p k c w in Some (p, head c)
      end
    | None => Some (p, None)
    end
  end.

Definition Clear (p : Pool) (w : W) : option (Pool * option W) :=
  match p_pending p !! w with
  | None => Some (p, None)
  | Some k =>
    if decide (w ∈ p_sidelined p) then Some (p, None)
    else match p_classes p !! k with
    | None => None
    | Some c =>
      let c := match index c w with Some i => remove_at c i | None => c end in
      let c := add_sidelined 1 c in
      Some (mkPool (p_capacity p) (<[k := c]> (p_classes p)) (p_holders p) (p_pending p)
              ({[w]} ∪ p_sidelined p) (p_parked p ∖ {[w]}), head c)
    end
  end.

Definition Holds (p : Pool) (w : W) : bool := bool_decide (is_Some (p_holders p !! w)).
Definition ParkedOn (p : Pool) (w : W) : option K :=
  if decide (w ∈ p_parked p) then p_pending p !! w else None.
Definition Pending (p : Pool) (k : K) : Z :=
  match p_classes p !! k with Some c => pendingCount c | None => 0%Z end.
Definition Snapshot (p : Pool) : option (gmap K Usage) :=
  if decide (size (p_classes p) = 0) then None
  else Some ((λ c, mkUsage (c_capacity c) (c_inUse c)
               (Z.of_nat (length (filter (λ x, x.1 ∈ p_parked p) (c_line c))))
               (pendingCount c)) <$> p_classes p).

(** ** The line: sorted insertion and removal *)

Definition line_le (x y : W * O) : Prop := R x.2 y.2.

(** The reference for the binary search: the number of members placed strictly
    before [o], in a sorted line. *)
Fixpoint rank (o : O) (line : list (W * O)) : nat :=
  match line with
  | [] => 0
  | x :: line => if decide (R o x.2) then 0 else S (rank o line)
  end.

Lemma rank_le o line : rank o line ≤ length line.
Proof. induction line as [|x line IH]; simpl; [lia|]. case_decide; lia. Qed.

Lemma rank_upper o line h x : line !! h = Some x → R o x.2 → rank o line ≤ h.
Proof.
  revert h. induction line as [|y line IH]; intros h; [done|]. simpl. case_decide; [lia|].
  destruct h as [|h]; simpl; [by intros [= ->]|]. intros Hh Ho. specialize (IH h Hh Ho). lia.
Qed.

Lemma rank_lower o line h x :
  StronglySorted line_le line → line !! h = Some x → ¬ R o x.2 → h < rank o line.
Proof.
  revert h. induction line as [|y line IH]; intros h Hs; [done|].
  apply StronglySorted_inv in Hs as [Hs Hall]. simpl. intros Hh Ho.
  case_decide as Hy.
  - exfalso. destruct h as [|h]; simpl in Hh; [by simplify_eq|].
    rewrite Forall_lookup in Hall. specialize (Hall h x Hh). apply Ho.
    by transitivity (y.2).
  - destruct h as [|h]; [lia|]. specialize (IH h Hs Hh Ho). lia.
Qed.

Lemma binary_search_rank fuel line o i j :
  StronglySorted line_le line → i ≤ rank o line → rank o line ≤ j → j ≤ length line →
  j - i ≤ fuel → binary_search fuel line o i j = rank o line.
Proof.
  revert i j. induction fuel as [|fuel IH]; intros i j Hs Hi Hj Hlen Hf;
    cbn [binary_search]; cbv zeta; [lia|].
  case_decide as Hij; [|lia].
  assert (i ≤ (i + j) / 2 < j) as Hh.
  { split; [apply Nat.div_le_lower_bound; lia|apply Nat.Div0.div_lt_upper_bound; lia]. }
  destruct (line !! ((i + j) / 2)) as [[w x]|] eqn:Hx.
  - case_decide as Ho.
    + pose proof (rank_upper o line _ _ Hx Ho). apply IH; (done || lia).
    + pose proof (rank_lower o line _ _ Hs Hx Ho). apply IH; (done || lia).
  - apply lookup_ge_None in Hx. lia.
Qed.

Lemma insert_rank c w o :
  StronglySorted line_le (c_line c) → (insert c w o).2 = rank o (c_line c).
Proof.
  intros Hs. apply binary_search_rank; [done|lia|apply rank_le|lia|lia].
Qed.

Lemma insert_perm c w o : c_line (insert c w o).1 ≡ₚ (w, o) :: c_line c.
Proof.
  unfold insert. simpl. set (i := binary_search _ _ _ _ _). clearbody i.
  rewrite <-Permutation_middle. by rewrite take_drop.
Qed.

Lemma StronglySorted_take {A} (Q : relation A) n l : StronglySorted Q l → StronglySorted Q (take n l).
Proof. intros Hs. rewrite <-(take_drop n l) in Hs. by apply StronglySorted_app in Hs as (_ & ? & _). Qed.
Lemma StronglySorted_drop {A} (Q : relation A) n l : StronglySorted Q l → StronglySorted Q (drop n l).
Proof. intros Hs. rewrite <-(take_drop n l) in Hs. by apply StronglySorted_app in Hs as (_ & _ & ?). Qed.

Lemma insert_sorted c w o :
  StronglySorted line_le (c_line c) → StronglySorted line_le (c_line (insert c w o).1).
Proof.
  intros Hs. pose proof (insert_rank c w o Hs) as Hr. unfold insert in Hr |- *. simpl in *.
  rewrite Hr. clear Hr. set (l := c_line c) in *. clearbody l.
  apply StronglySorted_app_2; [|by apply StronglySorted_take|].
  - intros x y (i & Hi)%list_elem_of_lookup Hy.
    apply lookup_take_Some in Hi as [Hi Hlt]. unfold line_le.
    assert (R x.2 o) as Hxo.
    { destruct (decide (R o x.2)) as [Ho|Ho].
      - pose proof (rank_upper o l _ _ Hi Ho). lia.
      - destruct (total R x.2 o); [done|]. done. }
    apply elem_of_cons in Hy as [->|Hy]; [done|]. transitivity o; [done|].
    apply list_elem_of_lookup in Hy as [n Hn]. rewrite lookup_drop in Hn.
    destruct (decide (R o y.2)) as [?|Ho]; [done|]. exfalso.
    pose proof (rank_lower o l _ _ Hs Hn Ho). lia.
  - constructor; [by apply StronglySorted_drop|].
    apply Forall_lookup. intros i x Hx. rewrite lookup_drop in Hx.
    destruct (decide (R o x.2)) as [?|Ho]; [done|]. exfalso.
    pose proof (rank_lower o l _ _ Hs Hx Ho). lia.
Qed.

Lemma index_Some c w i :
  index c w = Some i → ∃ o, c_line c !! i = Some (w, o).
Proof.
  unfold index. intros ([i' [w' o]] & Hf & ->)%fmap_Some.
  apply list_find_Some in Hf as (Hl & ? & _). simpl in *. subst. by exists o.
Qed.

Lemma index_None c w : index c w = None ↔ w ∉ (c_line c).*1.
Proof.
  unfold index. rewrite fmap_None, list_find_None, Forall_forall. split.
  - intros Hn ([w' o] & -> & Hin)%list_elem_of_fmap. by apply (Hn _ Hin).
  - intros Hn [w' o] Hin Hw. simpl in Hw. subst. apply Hn.
    apply list_elem_of_fmap. by exists (w, o).
Qed.

Lemma delete_filter (l : list (W * O)) i w o :
  NoDup l.*1 → l !! i = Some (w, o) → delete i l = filter (λ x, x.1 ≠ w) l.
Proof.
  revert i. induction l as [|[w' o'] l IH]; intros i Hnd Hi; [done|].
  rewrite fmap_cons in Hnd. apply NoDup_cons in Hnd as [Hnin Hnd]. simpl in Hnin.
  destruct i as [|i]; simpl in Hi.
  - injection Hi as -> ->. rewrite filter_cons_False by (simpl; naive_solver). simpl.
    symmetry. apply list_filter_all, Forall_forall. intros [w' o'] Hin Hw. simpl in Hw.
    apply Hnin. rewrite <-Hw. apply list_elem_of_fmap. by exists (w', o').
  - rewrite filter_cons_True; [simpl; f_equal; by apply IH|]. simpl. intros ->.
    apply Hnin. apply list_elem_of_fmap. exists (w, o). split; [done|].
    by eapply list_elem_of_lookup_2.
Qed.

Lemma filter_sorted (P : W * O → Prop) `{∀ x, Decision (P x)} l :
  StronglySorted line_le l → StronglySorted line_le (filter P l).
Proof.
  induction 1 as [|x l Hs IH Hall]; [constructor|]. rewrite filter_cons. case_decide; [|done].
  constructor; [done|]. apply Forall_forall. intros y [_ Hy]%list_elem_of_filter.
  rewrite Forall_forall in Hall. by apply Hall.
Qed.

(** ** Counting members of a key *)

Definition b2z (b : bool) : Z := if b then 1%Z else 0%Z.

Definition holding (m : gmap W K) (k : K) : Z :=
  Z.of_nat (size (filter (λ x : W * K, x.2 = k) m)).

Lemma holding_delete m w k :
  holding m k = (holding (delete w m) k + b2z (bool_decide (m !! w = Some k)))%Z.
Proof.
  unfold holding. destruct (m !! w) as [k'|] eqn:Hw.
  - rewrite <-(insert_delete_id m w k' Hw) at 1. rewrite map_filter_insert. simpl.
    case_decide as Hk.
    + subst. rewrite bool_decide_eq_true_2 by done. rewrite map_size_insert_None; [simpl; lia|].
      apply map_lookup_filter_None. left. by rewrite lookup_delete_eq.
    + rewrite bool_decide_eq_false_2 by congruence. simpl. rewrite delete_delete_eq. lia.
  - rewrite delete_id by done. rewrite bool_decide_eq_false_2 by done. simpl. lia.
Qed.

Lemma holding_local m1 m2 w k :
  (∀ w', w' ≠ w → m2 !! w' = m1 !! w') →
  (holding m2 k - b2z (bool_decide (m2 !! w = Some k)) =
   holding m1 k - b2z (bool_decide (m1 !! w = Some k)))%Z.
Proof.
  intros Hloc. rewrite (holding_delete m1 w k), (holding_delete m2 w k).
  replace (delete w m2) with (delete w m1); [lia|]. apply map_eq. intros w'.
  rewrite !lookup_delete. case_decide; [done|]. symmetry. by apply Hloc.
Qed.

Context (cls : W → K).

Definition aside (X : gset W) (k : K) : Z :=
  Z.of_nat (size (filter (λ w, cls w = k) X)).

Lemma aside_delete X w k :
  aside X k = (aside (X ∖ {[w]}) k + b2z (bool_decide (w ∈ X ∧ cls w = k)))%Z.
Proof.
  unfold aside. case_bool_decide as Hw; simpl.
  - replace (filter (λ w, cls w = k) X)
      with ({[w]} ∪ filter (λ w, cls w = k) (X ∖ {[w]}) : gset W).
    + rewrite size_union by set_solver. rewrite size_singleton. lia.
    + apply set_eq. intros w'. destruct (decide (w' = w)); set_solver.
  - replace (filter (λ w, cls w = k) (X ∖ {[w]})) with (filter (λ w, cls w = k) X); [lia|].
    apply set_eq. intros w'. destruct (decide (w' = w)); set_solver.
Qed.

Lemma aside_local X Y w k :
  (∀ w', w' ≠ w → w' ∈ Y ↔ w' ∈ X) →
  (aside Y k - b2z (bool_decide (w ∈ Y ∧ cls w = k)) =
   aside X k - b2z (bool_decide (w ∈ X ∧ cls w = k)))%Z.
Proof.
  intros Hloc. rewrite (aside_delete X w k), (aside_delete Y w k).
  replace (Y ∖ {[w]}) with (X ∖ {[w]}); [lia|]. apply set_eq. intros w'.
  destruct (decide (w' = w)); set_solver.
Qed.

(** ** Invariant *)

Record rp_ok (p : Pool) : Prop := {
  ok_capacity k c : p_classes p !! k = Some c → p_capacity p !! k = Some (c_capacity c);
  ok_holder w k : p_holders p !! w = Some k →
    k = cls w ∧ p_pending p !! w = None ∧ is_Some (p_classes p !! k);
  ok_pending w k : p_pending p !! w = Some k → k = cls w ∧ is_Some (p_classes p !! k);
  ok_line k c w : p_classes p !! k = Some c →
    w ∈ (c_line c).*1 ↔ p_pending p !! w = Some k ∧ w ∉ p_sidelined p;
  ok_nodup k c : p_classes p !! k = Some c → NoDup (c_line c).*1;
  ok_sorted k c : p_classes p !! k = Some c → StronglySorted line_le (c_line c);
  ok_aside w : w ∈ p_sidelined p → is_Some (p_pending p !! w);
  ok_parked w : w ∈ p_parked p → is_Some (p_pending p !! w) ∧ w ∉ p_sidelined p;
  ok_sidelined k c : p_classes p !! k = Some c → c_sidelined c = aside (p_sidelined p) k;
  ok_inUse k c : p_classes p !! k = Some c → c_inUse c = holding (p_holders p) k;
}.

Lemma runpool_New_ok capacity : rp_ok (New capacity).
Proof.
  constructor; intros *; rewrite ?lookup_empty; try done; intros ?; set_solver.
Qed.

(** An operation that changes the status of one member and its class. *)
Record local (p q : Pool) (w : W) (c c' : class) : Prop := {
  l_class : p_classes p !! cls w = Some c;
  l_class' : p_classes q = <[cls w := c']> (p_classes p);
  l_capacity : p_capacity q = p_capacity p ∧ c_capacity c' = c_capacity c;
  l_holders w' : w' ≠ w → p_holders q !! w' = p_holders p !! w';
  l_pending w' : w' ≠ w → p_pending q !! w' = p_pending p !! w';
  l_sidelined w' : w' ≠ w → w' ∈ p_sidelined q ↔ w' ∈ p_sidelined p;
  l_parked w' : w' ≠ w → w' ∈ p_parked q ↔ w' ∈ p_parked p;
  l_line w' : w' ≠ w → w' ∈ (c_line c').*1 ↔ w' ∈ (c_line c).*1;
  l_nodup : NoDup (c_line c').*1;
  l_sorted : StronglySorted line_le (c_line c');
  l_inUse : (c_inUse c' - b2z (bool_decide (is_Some (p_holders q !! w))) =
             c_inUse c - b2z (bool_decide (is_Some (p_holders p !! w))))%Z;
  l_aside : (c_sidelined c' - b2z (bool_decide (w ∈ p_sidelined q)) =
             c_sidelined c - b2z (bool_decide (w ∈ p_sidelined p)))%Z;
  (** the status of the member afterwards *)
  l_holder_w k : p_holders q !! w = Some k → k = cls w ∧ p_pending q !! w = None;
  l_pending_w k : p_pending q !! w = Some k → k = cls w;
  l_line_w : w ∈ (c_line c').*1 ↔ p_pending q !! w = Some (cls w) ∧ w ∉ p_sidelined q;
  l_aside_w : w ∈ p_sidelined q → is_Some (p_pending q !! w);
  l_parked_w : w ∈ p_parked q → is_Some (p_pending q !! w) ∧ w ∉ p_sidelined q;
}.

Lemma local_class p q w c c' k c1 :
  local p q w c c' → p_classes q !! k = Some c1 →
  k = cls w ∧ c1 = c' ∨ k ≠ cls w ∧ p_classes p !! k = Some c1.
Proof.
  intros Hl. rewrite (l_class' _ _ _ _ _ Hl), lookup_insert.
  case_decide; [intros [= <-]; by left|]. right. split; [congruence|done].
Qed.

Lemma local_exists p q w c c' k :
  local p q w c c' → is_Some (p_classes p !! k) → is_Some (p_classes q !! k).
Proof.
  intros Hl Hk. rewrite (l_class' _ _ _ _ _ Hl), lookup_insert.
  case_decide; [by eexists|done].
Qed.

Lemma local_ok p q w c c' : rp_ok p → local p q w c c' → rp_ok q.
Proof.
  intros Hok Hl. constructor.
  - intros k c1 [[-> ->]|[Hk Hc1]]%(local_class _ _ _ _ _ _ _ Hl);
      destruct (l_capacity _ _ _ _ _ Hl) as [-> Hcap].
    + rewrite Hcap. apply (ok_capacity _ Hok). by eapply l_class.
    + by apply (ok_capacity _ Hok).
  - intros w' k Hh. destruct (decide (w' = w)) as [->|Hw].
    + destruct (l_holder_w _ _ _ _ _ Hl k Hh) as [-> ?]. split; [done|]. split; [done|].
      eapply local_exists; [done|]. eexists. by eapply l_class.
    + rewrite (l_holders _ _ _ _ _ Hl w' Hw) in Hh.
      destruct (ok_holder _ Hok w' k Hh) as (? & ? & ?). split; [done|].
      rewrite (l_pending _ _ _ _ _ Hl w' Hw). split; [done|]. by eapply local_exists.
  - intros w' k Hh. destruct (decide (w' = w)) as [->|Hw].
    + rewrite (l_pending_w _ _ _ _ _ Hl k Hh) at 1 2. split; [done|].
      eapply local_exists; [done|]. eexists. by eapply l_class.
    + rewrite (l_pending _ _ _ _ _ Hl w' Hw) in Hh.
      destruct (ok_pending _ Hok w' k Hh). split; [done|]. by eapply local_exists.
  - intros k c1 w' [[-> ->]|[Hk Hc1]]%(local_class _ _ _ _ _ _ _ Hl);
      destruct (decide (w' = w)) as [->|Hw].
    + by eapply l_line_w.
    + rewrite (l_line _ _ _ _ _ Hl w' Hw), (l_pending _ _ _ _ _ Hl w' Hw).
      rewrite (l_sidelined _ _ _ _ _ Hl w' Hw).
      apply (ok_line _ Hok). by eapply l_class.
    + rewrite (ok_line _ Hok k c1 w Hc1). split.
      * intros [Hp _]. by destruct Hk; destruct (ok_pending _ Hok _ _ Hp).
      * intros [Hp _]. by destruct Hk; apply (l_pending_w _ _ _ _ _ Hl).
    + rewrite (l_pending _ _ _ _ _ Hl w' Hw), (l_sidelined _ _ _ _ _ Hl w' Hw).
      by apply (ok_line _ Hok).
  - intros k c1 [[-> ->]|[Hk Hc1]]%(local_class _ _ _ _ _ _ _ Hl);
      [by eapply l_nodup|by eapply ok_nodup].
  - intros k c1 [[-> ->]|[Hk Hc1]]%(local_class _ _ _ _ _ _ _ Hl);
      [by eapply l_sorted|by eapply ok_sorted].
  - intros w' Hs. destruct (decide (w' = w)) as [->|Hw]; [by eapply l_aside_w|].
    rewrite (l_pending _ _ _ _ _ Hl w' Hw). apply (ok_aside _ Hok).
    by apply (l_sidelined _ _ _ _ _ Hl w' Hw).
  - intros w' Hs. destruct (decide (w' = w)) as [->|Hw]; [by eapply l_parked_w|].
    rewrite (l_pending _ _ _ _ _ Hl w' Hw), (l_sidelined _ _ _ _ _ Hl w' Hw).
    apply (ok_parked _ Hok). by apply (l_parked _ _ _ _ _ Hl w' Hw).
  - intros k c1 Hc1.
    pose proof (aside_local (p_sidelined p) (p_sidelined q) w k (l_sidelined _ _ _ _ _ Hl)) as Ha.
    apply (local_class _ _ _ _ _ _ _ Hl) in Hc1 as [[-> ->]|[Hk Hc1]].
    + pose proof (l_aside _ _ _ _ _ Hl) as Hc.
      rewrite (ok_sidelined _ Hok (cls w) c (l_class _ _ _ _ _ Hl)) in Hc.
      repeat case_bool_decide; simpl in *; try tauto; lia.
    + rewrite (ok_sidelined _ Hok k c1 Hc1).
      repeat case_bool_decide; simpl in *; try lia; exfalso; naive_solver.
  - intros k c1 Hc1.
    pose proof (holding_local (p_holders p) (p_holders q) w k (l_holders _ _ _ _ _ Hl)) as Ha.
    assert (∀ k', p_holders p !! w = Some k' → k' = cls w) as Hp
      by (intros k' Hk'; by apply (ok_holder _ Hok) in Hk' as [-> _]).
    assert (∀ k', p_holders q !! w = Some k' → k' = cls w) as Hq
      by (intros k' Hk'; by apply (l_holder_w _ _ _ _ _ Hl) in Hk' as [-> _]).
    apply (local_class _ _ _ _ _ _ _ Hl) in Hc1 as [[-> ->]|[Hk Hc1]].
    + pose proof (l_inUse _ _ _ _ _ Hl) as Hc.
      rewrite (ok_inUse _ Hok (cls w) c (l_class _ _ _ _ _ Hl)) in Hc.
      destruct (p_holders p !! w) as [k1|], (p_holders q !! w) as [k2|];
        repeat match goal with H : ∀ k', Some ?x = Some k' → _ |- _ =>
          pose proof (H x eq_refl); clear H end; subst;
        repeat case_bool_decide; simpl in *; try (exfalso; naive_solver); lia.
    + rewrite (ok_inUse _ Hok k c1 Hc1).
      repeat case_bool_decide; simpl in *; try (exfalso; naive_solver); lia.
Qed.

(** ** The operations as local changes *)

Lemma classFor_spec p k :
  rp_ok p →
  match classFor p k with
  | None => p_capacity p !! k = None ∧ p_classes p !! k = None
  | Some (q, c) =>
    rp_ok q ∧ p_classes q !! k = Some c ∧ p_capacity p !! k = Some (c_capacity c) ∧
    q = mkPool (p_capacity p) (p_classes q) (p_holders p) (p_pending p) (p_sidelined p)
          (p_parked p) ∧
    (∀ k', k' ≠ k → p_classes q !! k' = p_classes p !! k') ∧
    (p_classes p !! k = Some c ∨
     p_classes p !! k = None ∧ c = mkClass (c_capacity c) 0 [] 0)
  end.
Proof.
  intros Hok. unfold classFor. destruct (p_capacity p !! k) as [cap|] eqn:Hcap.
  2:{ split; [done|]. destruct (p_classes p !! k) as [c|] eqn:Hc; [|done].
      apply (ok_capacity _ Hok) in Hc. congruence. }
  destruct (p_classes p !! k) as [c|] eqn:Hc.
  { split; [done|]. split; [done|]. split; [rewrite <-Hcap; by apply ok_capacity|].
    split; [by destruct p|]. auto. }
  assert (∀ w, p_pending p !! w ≠ Some k) as Hnp.
  { intros w Hw. destruct (ok_pending _ Hok w k Hw) as [_ [? ?]]. congruence. }
  assert (∀ w, p_holders p !! w ≠ Some k) as Hnh.
  { intros w Hw. destruct (ok_holder _ Hok w k Hw) as (_ & _ & ? & ?). congruence. }
  split; [|split; [by simpl; rewrite lookup_insert_eq|split; [done|split; [done|]]]].
  2:{ split; [|auto]. intros k' Hk. simpl. by rewrite lookup_insert_ne. }
  constructor; simpl; try apply Hok.
  - intros k' c. rewrite lookup_insert. case_decide; [|apply (ok_capacity _ Hok)].
    intros [= <-]. by subst.
  - intros w k' Hw. destruct (ok_holder _ Hok w k' Hw) as (? & ? & Hs).
    rewrite lookup_insert. by case_decide.
  - intros w k' Hw. destruct (ok_pending _ Hok w k' Hw) as (? & Hs).
    rewrite lookup_insert. by case_decide.
  - intros k' c w. rewrite lookup_insert. case_decide; [|apply (ok_line _ Hok)].
    intros [= <-]. subst. simpl. split; [by intros ?%not_elem_of_nil|].
    intros [Hp _]. by destruct (Hnp w).
  - intros k' c. rewrite lookup_insert. case_decide; [|apply (ok_nodup _ Hok)].
    intros [= <-]. constructor.
  - intros k' c. rewrite lookup_insert. case_decide; [|apply (ok_sorted _ Hok)].
    intros [= <-]. constructor.
  - intros k' c. rewrite lookup_insert. case_decide; [|apply (ok_sidelined _ Hok)].
    intros [= <-]. subst. simpl. unfold aside.
    replace (filter (λ w, cls w = k') (p_sidelined p)) with (∅ : gset W); [done|].
    apply set_eq. intros w. rewrite elem_of_filter. split; [set_solver|]. intros [Hw Hs].
    destruct (ok_aside _ Hok w Hs) as [k Hk]. destruct (Hnp w).
    destruct (ok_pending _ Hok w k Hk) as [-> _]. by subst.
  - intros k' c. rewrite lookup_insert. case_decide; [|apply (ok_inUse _ Hok)].
    intros [= <-]. subst. simpl. unfold holding. rewrite map_empty_filter_2; [by rewrite map_size_empty|].
    intros w k Hw. simpl. intros ->. by destruct (Hnh w).
Qed.

Lemma in_line (l : list (W * O)) i w o : l !! i = Some (w, o) → w ∈ l.*1.
Proof.
  intros Hl%list_elem_of_lookup_2. apply list_elem_of_fmap. by exists (w, o).
Qed.

Lemma filter_line (l : list (W * O)) w w' :
  w' ∈ (filter (λ x, x.1 ≠ w) l).*1 ↔ w' ≠ w ∧ w' ∈ l.*1.
Proof.
  rewrite !list_elem_of_fmap. split.
  - intros ([w1 o] & -> & [Hw Hin]%list_elem_of_filter). simpl in *. split; [done|].
    by exists (w1, o).
  - intros [Hw ([w1 o] & -> & Hin)]. exists (w1, o). split; [done|].
    by apply list_elem_of_filter.
Qed.

Lemma filter_line_nodup (l : list (W * O)) w :
  NoDup l.*1 → NoDup (filter (λ x, x.1 ≠ w) l).*1.
Proof.
  induction l as [|[w' o] l IH]; [done|]. rewrite fmap_cons. intros [Hn Hd]%NoDup_cons.
  rewrite filter_cons. case_decide; [|by apply IH]. rewrite fmap_cons. apply NoDup_cons.
  split; [|by apply IH]. simpl. rewrite filter_line. naive_solver.
Qed.

Lemma insert_line c w o w' :
  w' ∈ (c_line (insert c w o).1).*1 ↔ w' = w ∨ w' ∈ (c_line c).*1.
Proof.
  rewrite (insert_perm c w o), fmap_cons, elem_of_cons. done.
Qed.

Lemma insert_nodup c w o :
  w ∉ (c_line c).*1 → NoDup (c_line c).*1 → NoDup (c_line (insert c w o).1).*1.
Proof. intros Hw Hnd. rewrite (insert_perm c w o), fmap_cons. by apply NoDup_cons. Qed.

Lemma insert_fields c w o :
  c_capacity (insert c w o).1 = c_capacity c ∧ c_inUse (insert c w o).1 = c_inUse c ∧
  c_sidelined (insert c w o).1 = c_sidelined c.
Proof. done. Qed.

Lemma insert_lookup c w o :
  StronglySorted line_le (c_line c) →
  c_line (insert c w o).1 !! (insert c w o).2 = Some (w, o).
Proof.
  intros Hs. rewrite (insert_rank c w o Hs).
  assert (c_line (insert c w o).1 =
    take (rank o (c_line c)) (c_line c) ++ (w, o) :: drop (rank o (c_line c)) (c_line c)) as ->.
  { unfold insert. simpl. pose proof (insert_rank c w o Hs) as Hr. unfold insert in Hr.
    simpl in Hr. by rewrite Hr. }
  pose proof (rank_le o (c_line c)).
  rewrite lookup_app_r; rewrite length_take_le by done; [|done].
  by rewrite Nat.sub_diag.
Qed.

Lemma insert_head c w o :
  (insert c w o).2 = 0 ∨ list.head (c_line (insert c w o).1) = list.head (c_line c).
Proof.
  unfold insert. simpl. destruct (c_line c) as [|x l]; [by left|].
  destruct (binary_search _ _ _ _ _) as [|i]; [by left|by right].
Qed.

Lemma insert_filter c w o :
  filter (λ x, x.1 ≠ w) (c_line (insert c w o).1) = filter (λ x, x.1 ≠ w) (c_line c).
Proof.
  unfold insert. simpl. set (i := binary_search _ _ _ _ _). clearbody i.
  rewrite <-(take_drop i (c_line c)) at 3. rewrite !filter_app.
  by rewrite filter_cons_False by (simpl; naive_solver).
Qed.

Lemma join_spec p c w order :
  rp_ok p → p_classes p !! cls w = Some c → p_holders p !! w = None →
  let '(q, c', i) := join p (cls w) c w order in
  local p q w c c' ∧ p_parked q = p_parked p ∧ p_holders q = p_holders p ∧
  p_pending q !! w = Some (cls w) ∧ w ∉ p_sidelined q ∧ c_inUse c' = c_inUse c ∧
  (∃ o, c_line c' !! i = Some (w, o)) ∧
  filter (λ x, x.1 ≠ w) (c_line c') = filter (λ x, x.1 ≠ w) (c_line c) ∧
  (i = 0 ∨ list.head (c_line c') = list.head (c_line c)) ∧
  match index c w with
  | Some j => i = j ∧ c_line c' = c_line c
  | None => i = rank order (c_line c) ∧ c_line c' ≡ₚ (w, order) :: c_line c
  end.
Proof.
  intros Hok Hc Hh. unfold join.
  destruct (index c w) as [i|] eqn:Hi.
  - apply index_Some in Hi as [o Hi]. pose proof (in_line _ _ _ _ Hi) as Hin.
    apply (ok_line _ Hok _ _ _ Hc) in Hin as [Hp Hs].
    rewrite decide_True by (by eexists). split; [|naive_solver].
    split; simpl; try done; try by rewrite insert_id.
    all: try (by eapply ok_nodup); try (by eapply ok_sorted).
    + intros k. rewrite Hh. done.
    + intros k Hk. congruence.
    + rewrite (ok_line _ Hok _ _ _ Hc). done.
  - set (c1 := if decide (w ∈ p_sidelined p) then add_sidelined (-1) c else c).
    assert (c_line c1 = c_line c ∧ c_capacity c1 = c_capacity c ∧ c_inUse c1 = c_inUse c ∧
      c_sidelined c1 = (c_sidelined c - b2z (bool_decide (w ∈ p_sidelined p)))%Z)
      as (El & Ec & Eu & Es).
    { unfold c1. case_decide; [rewrite bool_decide_eq_true_2 by done; simpl; repeat split; lia|].
      rewrite bool_decide_eq_false_2 by done. simpl. do 3 (split; [done|]). lia. }
    apply index_None in Hi. pose proof (ok_nodup _ Hok _ _ Hc) as Hnd.
    pose proof (ok_sorted _ Hok _ _ Hc) as Hsort. rewrite <-El in Hi, Hnd, Hsort.
    pose proof (insert_line c1 w order) as Hl. pose proof (insert_nodup c1 w order Hi Hnd) as Hn.
    pose proof (insert_sorted c1 w order Hsort) as Hs.
    pose proof (insert_lookup c1 w order Hsort) as Hlk.
    pose proof (insert_head c1 w order) as Hhd.
    pose proof (insert_rank c1 w order Hsort) as Hrk.
    pose proof (insert_perm c1 w order) as Hpm.
    pose proof (insert_filter c1 w order) as Hfl.
    destruct (insert_fields c1 w order) as (Fc & Fu & Fs).
    destruct (insert c1 w order) as [c2 i]. simpl in *.
    assert (∀ m, (if decide (is_Some (p_pending p !! w)) then p_pending p
                  else <[w := cls w]> (p_pending p)) = m →
      m !! w = Some (cls w) ∧ ∀ w', w' ≠ w → m !! w' = p_pending p !! w') as Hm.
    { intros m <-. destruct (decide (is_Some (p_pending p !! w))) as [Hw|Hw].
      - split; [|by intros]. destruct Hw as [k Hk].
        rewrite Hk. by destruct (ok_pending _ Hok w k Hk) as [-> _].
      - split; [by rewrite lookup_insert_eq|]. intros w' Hw'. by rewrite lookup_insert_ne. }
    destruct (Hm _ eq_refl) as [Hm1 Hm2]. clear Hm.
    split; [|split; [done|]; split; [done|]; split; [done|]; split; [set_solver|];
             split; [congruence|]; split; [by exists order|];
             split; [by rewrite Hfl, El|]; split; [by rewrite <-El|]; by rewrite <-El].
    split; simpl; try done.
    + split; [done|congruence].
    + intros w' Hw'. set_solver.
    + intros w' Hw'. rewrite Hl, El. naive_solver.
    + rewrite Fu, Eu. lia.
    + rewrite Fs, Es. rewrite (bool_decide_eq_false_2 (w ∈ p_sidelined p ∖ {[w]})) by set_solver.
      simpl. lia.
    + intros k. by rewrite Hh.
    + intros k Hk. congruence.
    + rewrite Hl. split; [|by left]. intros _. split; [done|set_solver].
    + intros Hw. split; [by eexists|set_solver].
Qed.

(** Taking [w] out of the line: by granting, forgetting or setting it aside. *)
Lemma remove_at_filter c i w o :
  NoDup (c_line c).*1 → c_line c !! i = Some (w, o) →
  c_line (remove_at c i) = filter (λ x, x.1 ≠ w) (c_line c).
Proof. apply delete_filter. Qed.

Lemma grant_local p c w i o :
  rp_ok p → p_classes p !! cls w = Some c → p_holders p !! w = None →
  p_pending p !! w = Some (cls w) → w ∉ p_sidelined p → c_line c !! i = Some (w, o) →
  let c' := add_inUse 1 (remove_at c i) in
  local p (mkPool (p_capacity p) (<[cls w := c']> (p_classes p)) (<[w := cls w]> (p_holders p))
    (delete w (p_pending p)) (p_sidelined p) (p_parked p ∖ {[w]})) w c c'.
Proof.
  intros Hok Hc Hh Hp Hs Hi c'.
  pose proof (ok_nodup _ Hok _ _ Hc) as Hnd.
  assert (c_line c' = filter (λ x, x.1 ≠ w) (c_line c)) as El by (by eapply remove_at_filter).
  assert (c_capacity c' = c_capacity c ∧ c_inUse c' = (c_inUse c + 1)%Z ∧
    c_sidelined c' = c_sidelined c) as (Ec & Eu & Es) by done.
  clearbody c'. constructor; simpl; try done; rewrite ?lookup_insert_eq, ?lookup_delete_eq, ?El; try done.
  - intros w' Hw'. by rewrite lookup_insert_ne.
  - intros w' Hw'. by rewrite lookup_delete_ne.
  - set_solver.
  - intros w' Hw'. rewrite filter_line. naive_solver.
  - by apply filter_line_nodup.
  - by apply filter_sorted, (ok_sorted _ Hok _ _ Hc).
  - rewrite Hh, Eu. simpl. lia.
  - by rewrite Es.
  - naive_solver.
  - rewrite filter_line. naive_solver.
  - set_solver.
Qed.

Lemma park_local p c w :
  rp_ok p → p_classes p !! cls w = Some c → p_holders p !! w = None →
  p_pending p !! w = Some (cls w) → w ∉ p_sidelined p →
  local p (mkPool (p_capacity p) (p_classes p) (p_holders p) (p_pending p) (p_sidelined p)
    ({[w]} ∪ p_parked p)) w c c.
Proof.
  intros Hok Hc Hh Hp Hs. constructor; simpl; try done; try by rewrite insert_id.
  - set_solver.
  - by eapply ok_nodup.
  - by eapply ok_sorted.
  - by rewrite Hh.
  - naive_solver.
  - by apply ok_line.
Qed.

Lemma forget_local p c w :
  rp_ok p → p_classes p !! cls w = Some c → is_Some (p_pending p !! w) →
  let '(q, c') := forget p (cls w) c w in
  local p q w c c' ∧ p_pending q !! w = None ∧ p_holders q = p_holders p ∧
  c_inUse c' = c_inUse c ∧ w ∉ (c_line c').*1.
Proof.
  intros Hok Hc Hp. unfold forget. rewrite decide_True by done.
  destruct Hp as [k Hp]. destruct (ok_pending _ Hok w k Hp) as [-> _].
  set (c1 := if decide (w ∈ p_sidelined p) then _ else _).
  assert (c_line c1 = filter (λ x, x.1 ≠ w) (c_line c) ∧ c_capacity c1 = c_capacity c ∧
    c_inUse c1 = c_inUse c ∧
    c_sidelined c1 = (c_sidelined c - b2z (bool_decide (w ∈ p_sidelined p)))%Z)
    as (El & Ec & Eu & Es).
  { unfold c1. pose proof (ok_line _ Hok _ _ w Hc) as Hl. case_decide as Hw.
    - rewrite bool_decide_eq_true_2 by done. simpl. split; [|repeat split; lia].
      symmetry. apply list_filter_all, Forall_forall. intros [w' o] Hin Hw'. simpl in Hw'.
      subst. apply Hl; [|done]. apply list_elem_of_fmap. by exists (w, o).
    - rewrite bool_decide_eq_false_2 by done. simpl. rewrite Z.sub_0_r.
      destruct (index c w) as [i|] eqn:Hi.
      + apply index_Some in Hi as [o Hi]. split; [|done].
        eapply delete_filter; [by eapply ok_nodup|done].
      + apply index_None in Hi. by destruct Hi; apply Hl. }
  clearbody c1. split; [|split; [simpl; apply lookup_delete_eq|split; [done|split; [done|]]]].
  2:{ rewrite El, filter_line. naive_solver. }
  pose proof (ok_nodup _ Hok _ _ Hc) as Hnd.
  constructor; simpl; try done; rewrite ?lookup_delete_eq, ?El; try done.
  - intros w' Hw'. by rewrite lookup_delete_ne.
  - set_solver.
  - set_solver.
  - intros w' Hw'. rewrite filter_line. naive_solver.
  - by apply filter_line_nodup.
  - by apply filter_sorted, (ok_sorted _ Hok _ _ Hc).
  - rewrite Eu. lia.
  - rewrite Es, (bool_decide_eq_false_2 (w ∈ p_sidelined p ∖ {[w]})) by set_solver. simpl. lia.
  - intros k Hk. apply (ok_holder _ Hok) in Hk as (_ & ? & _). congruence.
  - rewrite filter_line. naive_solver.
  - set_solver.
  - set_solver.
Qed.

Lemma hold_local p c w :
  rp_ok p → p_classes p !! cls w = Some c → p_holders p !! w = None →
  p_pending p !! w = None →
  local p (mkPool (p_capacity p) (<[cls w := add_inUse 1 c]> (p_classes p))
    (<[w := cls w]> (p_holders p)) (p_pending p) (p_sidelined p) (p_parked p)) w c (add_inUse 1 c).
Proof.
  intros Hok Hc Hh Hp.
  constructor; simpl; try done; rewrite ?lookup_insert_eq; try done.
  - intros w' Hw'. by rewrite lookup_insert_ne.
  - by eapply ok_nodup.
  - by eapply ok_sorted.
  - rewrite Hh. simpl. lia.
  - naive_solver.
  - naive_solver.
  - by apply ok_line.
  - intros Hw. by apply (ok_aside _ Hok).
  - intros Hw. by apply (ok_parked _ Hok).
Qed.

Lemma release_local p c w :
  rp_ok p → p_classes p !! cls w = Some c → is_Some (p_holders p !! w) →
  local p (mkPool (p_capacity p) (<[cls w := add_inUse (-1) c]> (p_classes p))
    (delete w (p_holders p)) (p_pending p) (p_sidelined p) (p_parked p)) w c (add_inUse (-1) c).
Proof.
  intros Hok Hc [k Hk]. destruct (ok_holder _ Hok w k Hk) as (-> & Hp & _).
  constructor; simpl; try done; rewrite ?lookup_delete_eq; try done.
  - intros w' Hw'. by rewrite lookup_delete_ne.
  - by eapply ok_nodup.
  - by eapply ok_sorted.
  - rewrite Hk. simpl. lia.
  - naive_solver.
  - by apply ok_line.
  - intros Hw. by apply (ok_aside _ Hok).
  - intros Hw. by apply (ok_parked _ Hok).
Qed.

Lemma clear_local p c w :
  rp_ok p → p_classes p !! cls w = Some c → p_pending p !! w = Some (cls w) →
  w ∉ p_sidelined p →
  let c' := add_sidelined 1 (match index c w with Some i => remove_at c i | None => c end) in
  local p (mkPool (p_capacity p) (<[cls w := c']> (p_classes p)) (p_holders p) (p_pending p)
    ({[w]} ∪ p_sidelined p) (p_parked p ∖ {[w]})) w c c'.
Proof.
  intros Hok Hc Hp Hs c'. pose proof (ok_nodup _ Hok _ _ Hc) as Hnd.
  assert (c_line c' = filter (λ x, x.1 ≠ w) (c_line c) ∧ c_capacity c' = c_capacity c ∧
    c_inUse c' = c_inUse c ∧ c_sidelined c' = (c_sidelined c + 1)%Z) as (El & Ec & Eu & Es).
  { unfold c'. destruct (index c w) as [i|] eqn:Hi; simpl.
    - apply index_Some in Hi as [o Hi]. split; [by eapply delete_filter|done].
    - apply index_None in Hi. destruct Hi. by apply (ok_line _ Hok _ _ w Hc). }
  clearbody c'. constructor; simpl; try done; rewrite ?El; try done.
  - set_solver.
  - set_solver.
  - intros w' Hw'. rewrite filter_line. naive_solver.
  - by apply filter_line_nodup.
  - by apply filter_sorted, (ok_sorted _ Hok _ _ Hc).
  - rewrite Eu. lia.
  - rewrite Es, bool_decide_eq_true_2, bool_decide_eq_false_2 by set_solver. simpl. lia.
  - intros k Hk. apply (ok_holder _ Hok) in Hk as (? & ? & _). naive_solver.
  - intros k. congruence.
  - rewrite filter_line. set_solver.
  - set_solver.
Qed.

Lemma admit_local p c w order :
  rp_ok p → p_classes p !! cls w = Some c → p_holders p !! w = None →
  p_pending p !! w = None →
  let c' := (insert c w order).1 in
  local p (mkPool (p_capacity p) (<[cls w := c']> (p_classes p)) (p_holders p)
    (<[w := cls w]> (p_pending p)) (p_sidelined p) (p_parked p)) w c c'.
Proof.
  intros Hok Hc Hh Hp c'.
  assert (w ∉ (c_line c).*1) as Hnl by (rewrite (ok_line _ Hok _ _ w Hc); naive_solver).
  assert (w ∉ p_sidelined p) as Hns.
  { intros [? ?]%(ok_aside _ Hok). congruence. }
  assert (w ∉ p_parked p) as Hnp.
  { intros [[? ?] _]%(ok_parked _ Hok). congruence. }
  pose proof (insert_line c w order) as Hl.
  pose proof (insert_nodup c w order Hnl (ok_nodup _ Hok _ _ Hc)) as Hnd.
  pose proof (insert_sorted c w order (ok_sorted _ Hok _ _ Hc)) as Hsort.
  destruct (insert_fields c w order) as (Ec & Eu & Es).
  fold c' in Hl, Hnd, Hsort, Ec, Eu, Es. clearbody c'.
  constructor; simpl; try done; rewrite ?lookup_insert_eq, ?Hl, ?Eu, ?Es; try done.
  - intros w' Hw'. by rewrite lookup_insert_ne.
  - intros w' Hw'. rewrite Hl. naive_solver.
  - intros k. by rewrite Hh.
  - naive_solver.
  - naive_solver.
Qed.

(** ** Kicks owed, and traces *)

(** The member a class exposes to a wake. *)
Definition exposed (p : Pool) (k : K) : option W := p_classes p !! k ≫= head.

(** No lost wake: an exposed member that asked and was refused is owed a kick. *)
Definition served (p : Pool) (owed : gset W) : Prop :=
  ∀ k h, exposed p k = Some h → h ∈ p_parked p → h ∈ owed.

Lemma head_in_line c h : head c = Some h → h ∈ (c_line c).*1.
Proof.
  unfold head. case_match; [|done]. intros ([w o] & Hh & ->)%fmap_Some.
  apply list_elem_of_fmap. exists (w, o). split; [done|].
  destruct (c_line c); simpl in Hh; [done|]. injection Hh as ->. left.
Qed.

Lemma exposed_cls p k h : rp_ok p → exposed p k = Some h → k = cls h.
Proof.
  intros Hok. unfold exposed. destruct (p_classes p !! k) as [c|] eqn:Hc; [|done]. simpl.
  intros Hh%head_in_line. apply (ok_line _ Hok k c h Hc) in Hh as [Hp _].
  by destruct (ok_pending _ Hok _ _ Hp).
Qed.

Lemma served_local p q w owed extra :
  rp_ok p → rp_ok q → served p owed →
  (∀ k, k ≠ cls w → p_classes q !! k = p_classes p !! k) →
  (∀ w', w' ≠ w → w' ∈ p_parked q → w' ∈ p_parked p) →
  (∀ h, exposed q (cls w) = Some h → h ∈ p_parked q → h ∈ owed ∖ {[w]} ∪ extra) →
  served q (owed ∖ {[w]} ∪ extra).
Proof.
  intros Hok Hokq Hs Hcl Hpk Hw k h Hh Hp.
  pose proof (exposed_cls q k h Hokq Hh) as ->.
  destruct (decide (cls h = cls w)) as [Hk|Hk].
  { rewrite Hk in Hh. by apply Hw. }
  assert (h ≠ w) as Hne by (intros ->; done). apply elem_of_union_l.
  apply elem_of_difference. split; [|set_solver]. apply (Hs (cls h)); [|by apply Hpk].
  unfold exposed in *. by rewrite <-(Hcl _ Hk).
Qed.

Lemma runpool_head_same c c' :
  c_capacity c' = c_capacity c → c_inUse c' = c_inUse c →
  list.head (c_line c') = list.head (c_line c) → head c' = head c.
Proof. unfold head. by intros -> -> ->. Qed.

Lemma classFor_served p k q c owed :
  rp_ok p → served p owed → classFor p k = Some (q, c) → served q owed.
Proof.
  intros Hok Hs Hq. pose proof (classFor_spec p k Hok) as Hf. rewrite Hq in Hf.
  destruct Hf as (_ & Hc & _ & -> & Hcl & Hold). intros k' h. unfold exposed. simpl.
  destruct (decide (k' = k)) as [->|Hk].
  - simpl in Hc. rewrite Hc. simpl. destruct Hold as [Hold|[_ ->]].
    + intros Hh. apply (Hs k). unfold exposed. by rewrite Hold.
    + unfold head. simpl. by case_match.
  - simpl in Hcl. rewrite Hcl by done. apply (Hs k').
Qed.

(** [Acquire] on a limited class by a member without a token. *)
Lemma Acquire_spec p w order q c owed :
  rp_ok p → served p owed → classFor p (cls w) = Some (q, c) → p_holders p !! w = None →
  let i := match index c w with Some i => i | None => rank order (c_line c) end in
  let '(r, granted, kick) := Acquire p (cls w) w order in
  rp_ok r ∧ served r (owed ∖ {[w]} ∪ list_to_set (option_list kick)) ∧
  granted = (c_inUse c + Z.of_nat i <? c_capacity c)%Z ∧
  (∃ c', p_classes r !! cls w = Some c' ∧ c_capacity c' = c_capacity c ∧
    c_inUse c' = (c_inUse c + b2z granted)%Z ∧
    (∀ w', w' ≠ w → w' ∈ (c_line c').*1 ↔ w' ∈ (c_line c).*1) ∧
    (granted = true → c_line c' = filter (λ x, x.1 ≠ w) (c_line c))) ∧
  p_capacity r = p_capacity p ∧
  (if granted then p_holders r = <[w := cls w]> (p_holders p) ∧ p_pending r !! w = None
   else p_holders r = p_holders p ∧ w ∈ p_parked r ∧ p_pending r !! w = Some (cls w) ∧ kick = None).
Proof.
  intros Hok Hs Hq Hh i. pose proof (classFor_spec p (cls w) Hok) as Hf.
  pose proof (classFor_served _ _ _ _ _ Hok Hs Hq) as Hsq.
  unfold Acquire. rewrite Hq in Hf |- *. destruct Hf as (Hokq & Hc & _ & Eq & _).
  assert (p_capacity q = p_capacity p ∧ p_holders q = p_holders p ∧ p_pending q = p_pending p)
    as (Ecq & Ehq & Epq) by (by rewrite Eq). clear Eq.
  rewrite Ehq, decide_False by (rewrite Hh; by intros []).
  pose proof (join_spec q c w order Hokq Hc ltac:(by rewrite Ehq)) as Hj.
  destruct (join q (cls w) c w order) as [[q1 c1] i1].
  destruct Hj as (Hl & Epk & Eh1 & Hp1 & Hns1 & Eu1 & [o1 Hi1] & Hfl & Hhd & Hidx).
  pose proof (local_ok _ _ _ _ _ Hokq Hl) as Hok1.
  assert (p_classes q1 !! cls w = Some c1) as Hc1
    by (rewrite (l_class' _ _ _ _ _ Hl); apply lookup_insert_eq).
  assert (p_holders q1 !! w = None) as Hh1 by (by rewrite Eh1, Ehq).
  destruct (l_capacity _ _ _ _ _ Hl) as [Ecq1 Ec1].
  assert (i1 = i) as -> by (unfold i; by destruct (index c w), Hidx).
  assert (∀ k, k ≠ cls w → p_classes q1 !! k = p_classes q !! k) as Hother.
  { intros k Hk. rewrite (l_class' _ _ _ _ _ Hl). by rewrite lookup_insert_ne. }
  rewrite Ec1, Eu1. destruct (c_capacity c <=? c_inUse c + Z.of_nat i)%Z eqn:Hfull.
  - pose proof (park_local q1 c1 w Hok1 Hc1 Hh1 Hp1 Hns1) as Hl2.
    pose proof (local_ok _ _ _ _ _ Hok1 Hl2) as Hok2. split; [done|]. split; [|split; [|split]].
    + eapply (served_local q); [done|done|done| | |]; simpl.
      * intros k Hk. by apply Hother.
      * intros w' Hw'. rewrite Epk. set_solver.
      * intros h. unfold exposed. simpl. rewrite Hc1. simpl. intros Hh2 Hp2.
        assert (h ≠ w) as Hhw.
        { intros ->. unfold head in Hh2. destruct (c_inUse c1 <? c_capacity c1)%Z eqn:Hfree; [|done].
          destruct Hhd as [->|Hhd]; [rewrite Ec1, Eu1 in Hfree; zlia|].
          rewrite Hhd in Hh2. destruct (c_line c) as [|[w0 o0] l] eqn:El; [done|].
          simpl in Hh2. injection Hh2 as ->. unfold i in *.
          destruct (index c w) as [j|] eqn:Hj.
          - apply index_Some in Hj as [o' Hj]. rewrite El in Hj.
            destruct j as [|j]; [rewrite Ec1, Eu1 in Hfree; simpl in *; zlia|].
            pose proof (ok_nodup _ Hokq _ _ Hc) as Hnd. rewrite El in Hnd.
            apply NoDup_cons in Hnd as [Hnd _]. destruct Hnd. by eapply in_line.
          - apply index_None in Hj. destruct Hj. rewrite El. left. }
        apply elem_of_union_l, elem_of_difference. split; [|set_solver].
        apply (Hsq (cls w)); [|set_solver]. unfold exposed. rewrite Hc. simpl.
        destruct Hhd as [->|Hhd]; [|by rewrite <-(runpool_head_same c c1)].
        unfold head in Hh2. rewrite Ec1, Eu1 in Hh2.
        destruct (c_inUse c <? c_capacity c)%Z eqn:?; [zlia|done].
    + symmetry. apply Z.ltb_ge. zlia.
    + exists c1. split; [done|]. split; [done|]. split; [simpl; lia|]. split; [|done].
      intros w' Hw'. by apply (l_line _ _ _ _ _ Hl).
    + simpl. split; [congruence|]. split; [congruence|]. split; [set_solver|done].
  - pose proof (grant_local q1 c1 w i o1 Hok1 Hc1 Hh1 Hp1 Hns1 Hi1) as Hl2.
    pose proof (local_ok _ _ _ _ _ Hok1 Hl2) as Hok2.
    pose proof (remove_at_filter c1 i w o1 (ok_nodup _ Hok1 _ _ Hc1) Hi1) as El2.
    split; [done|]. split; [|split; [|split]].
    + eapply (served_local q); [done|done|done| | |]; simpl.
      * intros k Hk. rewrite lookup_insert_ne by done. by apply Hother.
      * intros w' Hw'. rewrite Epk. set_solver.
      * intros h. unfold exposed. simpl. rewrite lookup_insert_eq. simpl.
        intros -> _. simpl. set_solver.
    + symmetry. apply Z.ltb_lt. zlia.
    + eexists. simpl. rewrite lookup_insert_eq. split; [done|]. simpl.
      split; [done|]. split; [lia|]. simpl in El2. rewrite El2. split; [|by rewrite Hfl].
      intros w' Hw'. rewrite Hfl, filter_line. naive_solver.
    + simpl. rewrite lookup_delete_eq. split; [congruence|]. by rewrite Eh1, Ehq.
Qed.

Record state := mkState {
  s_pool : Pool;
  s_owed : gset W;
}.

Inductive op :=
| RAdmit (w : W) (order : O) (maxPending : Z)
| RAcquire (w : W) (order : O)
| RHold (w : W)
| RRelease (w : W)
| RClear (w : W).

(** [None] where the code would panic.  An operation of a member other than its
    admission consumes the kick it was owed. *)
Definition exec (o : op) (s : state) : option state :=
  let p := s_pool s in
  match o with
  | RAdmit w order maxPending =>
    Some (mkState (Admit p (cls w) w order maxPending).1 (s_owed s))
  | RAcquire w order =>
    let '(p, _, kick) := Acquire p (cls w) w order in
    Some (mkState p (s_owed s ∖ {[w]} ∪ list_to_set (option_list kick)))
  | RHold w => Some (mkState (Hold p (cls w) w) (s_owed s))
  | RRelease w =>
    match Release p w with
    | None => None
    | Some (p, kick) =>
      Some (mkState p (s_owed s ∖ {[w]} ∪ list_to_set (option_list kick)))
    end
  | RClear w =>
    match Clear p w with
    | None => None
    | Some (p, kick) =>
      Some (mkState p (s_owed s ∖ {[w]} ∪ list_to_set (option_list kick)))
    end
  end.

(** [Hold] serves recovery: its member has not been admitted. *)
Definition legal (o : op) (s : state) : Prop :=
  match o with RHold w => p_pending (s_pool s) !! w = None | _ => True end.

Inductive reach (capacity : gmap K Z) : state → Prop :=
| reach_init : reach capacity (mkState (New capacity) ∅)
| reach_step o s s' :
    reach capacity s → legal o s → exec o s = Some s' → reach capacity s'.

Record st_ok (capacity : gmap K Z) (s : state) : Prop := {
  st_pool : rp_ok (s_pool s);
  st_capacity : p_capacity (s_pool s) = capacity;
  st_served : served (s_pool s) (s_owed s);
}.

Lemma served_mono p owed owed' : served p owed → owed ⊆ owed' → served p owed'.
Proof. intros Hs Hsub k h Hh Hp. by eapply Hsub, Hs. Qed.

(** A member out of every line leaves the kicks of others alone. *)
Lemma served_absent p owed w :
  rp_ok p → served p owed → w ∉ p_parked p → served p (owed ∖ {[w]}).
Proof.
  intros Hok Hs Hw k h Hh Hp. apply elem_of_difference. split; [by eapply Hs|]. set_solver.
Qed.

Lemma Acquire_unlimited p w order :
  classFor p (cls w) = None → Acquire p (cls w) w order = (p, true, None).
Proof. unfold Acquire. by intros ->. Qed.

Lemma Acquire_holder p w order q c :
  rp_ok p → classFor p (cls w) = Some (q, c) → is_Some (p_holders p !! w) →
  Acquire p (cls w) w order = (q, true, None).
Proof.
  intros Hok Hq Hh. pose proof (classFor_spec p (cls w) Hok) as Hf. rewrite Hq in Hf.
  destruct Hf as (_ & _ & _ & Eq & _). unfold Acquire. rewrite Hq, decide_True; [done|].
  by rewrite Eq.
Qed.

Lemma holder_not_parked p w : rp_ok p → is_Some (p_holders p !! w) → w ∉ p_parked p.
Proof.
  intros Hok [k Hk] [[k' Hp] _]%(ok_parked _ Hok).
  apply (ok_holder _ Hok) in Hk as (_ & ? & _). congruence.
Qed.

Lemma classFor_None p k w :
  rp_ok p → classFor p k = None → k = cls w →
  p_holders p !! w = None ∧ p_pending p !! w = None ∧ w ∉ p_parked p.
Proof.
  intros Hok Hf ->. pose proof (classFor_spec p (cls w) Hok) as Hs. rewrite Hf in Hs.
  destruct Hs as [_ Hc]. assert (p_pending p !! w = None) as Hp.
  { destruct (p_pending p !! w) as [k|] eqn:Hp; [|done].
    destruct (ok_pending _ Hok w k Hp) as [-> [? ?]]. congruence. }
  split; [|split; [done|]].
  - destruct (p_holders p !! w) as [k|] eqn:Hh; [|done].
    destruct (ok_holder _ Hok w k Hh) as (-> & _ & ? & ?). congruence.
  - intros [[? ?] _]%(ok_parked _ Hok). congruence.
Qed.

Lemma Admit_ok p w order m owed :
  rp_ok p → served p owed →
  let q := (Admit p (cls w) w order m).1 in
  rp_ok q ∧ p_capacity q = p_capacity p ∧ served q owed.
Proof.
  intros Hok Hs. unfold Admit. pose proof (classFor_spec p (cls w) Hok) as Hf.
  destruct (classFor p (cls w)) as [[q c]|] eqn:Hq; [|done].
  pose proof (classFor_served _ _ _ _ _ Hok Hs Hq) as Hsq.
  destruct Hf as (Hokq & Hc & _ & Eq & _).
  assert (p_capacity q = p_capacity p) as Ecq by (by rewrite Eq). clear Eq.
  destruct (decide (is_Some (p_holders q !! w))) as [|Hh]; [done|].
  destruct (decide (is_Some (p_pending q !! w))) as [|Hp]; [done|].
  destruct (_ && _); [done|]. apply eq_None_not_Some in Hh, Hp.
  unfold set_class. cbn [fst p_capacity p_classes p_holders p_pending p_sidelined p_parked].
  pose proof (admit_local q c w order Hokq Hc Hh Hp) as Hl.
  pose proof (local_ok _ _ _ _ _ Hokq Hl) as Hok2. split; [done|]. split; [done|].
  eapply served_mono.
  - eapply (served_local q _ w owed ∅); [done|done|done| | |].
    + intros k Hk. rewrite (l_class' _ _ _ _ _ Hl). by rewrite lookup_insert_ne.
    + intros w' Hw'. by apply (l_parked _ _ _ _ _ Hl).
    + intros h Hh2 Hp2. assert (h ≠ w) as Hhw.
      { intros ->. apply (ok_parked _ Hokq) in Hp2 as [[? ?] _]. congruence. }
      apply elem_of_union_l, elem_of_difference. split; [|set_solver].
      apply (Hsq (cls w)); [|done]. unfold exposed in *. rewrite Hc. simpl.
      rewrite (l_class' _ _ _ _ _ Hl), lookup_insert_eq in Hh2.
      cbn [mbind option_bind] in Hh2. clear Hl Hok2.
      pose proof (insert_lookup c w order (ok_sorted _ Hokq _ _ Hc)) as Hlk.
      destruct (insert_fields c w order) as (Ec & Eu & _).
      destruct (insert_head c w order) as [H0'|Hhd];
        destruct (insert c w order) as [c' i]; cbn [fst snd] in *.
      * exfalso. subst i. unfold head in Hh2. case_match; [|done].
        destruct (c_line c') as [|x l]; [done|]. simpl in *. by simplify_eq.
      * by rewrite <-(runpool_head_same c c').
  - set_solver.
Qed.

Lemma Hold_ok p w owed :
  rp_ok p → served p owed → p_pending p !! w = None →
  let q := Hold p (cls w) w in
  rp_ok q ∧ p_capacity q = p_capacity p ∧ served q owed.
Proof.
  intros Hok Hs Hp. unfold Hold. pose proof (classFor_spec p (cls w) Hok) as Hf.
  destruct (classFor p (cls w)) as [[q c]|] eqn:Hq; [|done].
  pose proof (classFor_served _ _ _ _ _ Hok Hs Hq) as Hsq.
  destruct Hf as (Hokq & Hc & _ & Eq & _).
  assert (p_capacity q = p_capacity p ∧ p_pending q !! w = None) as [Ecq Hpq] by (by rewrite Eq).
  clear Eq. destruct (decide (is_Some (p_holders q !! w))) as [|Hh]; [done|].
  apply eq_None_not_Some in Hh. unfold forget. rewrite decide_False by (rewrite Hpq; by intros []).
  pose proof (hold_local q c w Hokq Hc Hh Hpq) as Hl.
  split; [by eapply local_ok|]. split; [done|].
  intros k h. unfold exposed. simpl. rewrite lookup_insert. case_decide as Hk; [|apply (Hsq k)].
  simpl. intros Hh2 Hp2. apply (Hsq k); [|done]. unfold exposed. rewrite <-Hk, Hc. simpl.
  unfold head in *. simpl in Hh2. destruct (c_inUse c + 1 <? c_capacity c)%Z eqn:E; [|done].
  by rewrite (proj2 (Z.ltb_lt _ _)) by zlia.
Qed.

Lemma runpool_Release_ok p w owed :
  rp_ok p → served p owed →
  ∃ q kick, Release p w = Some (q, kick) ∧ rp_ok q ∧ p_capacity q = p_capacity p ∧
    served q (owed ∖ {[w]} ∪ list_to_set (option_list kick)) ∧
    p_holders q !! w = None ∧ p_pending q !! w = None.
Proof.
  intros Hok Hs. unfold Release. destruct (p_holders p !! w) as [k|] eqn:Hh.
  - destruct (ok_holder _ Hok w k Hh) as (-> & Hp & [c Hc]). rewrite Hc.
    pose proof (release_local p c w Hok Hc ltac:(by eexists)) as Hl.
    pose proof (local_ok _ _ _ _ _ Hok Hl) as Hok2.
    eexists _, _. split; [reflexivity|]. split; [done|]. split; [done|].
    split; [|split; [simpl; by rewrite lookup_delete_eq|done]].
    eapply (served_local p); [done|done|done| | |]; simpl.
    + intros k Hk. by rewrite lookup_insert_ne.
    + done.
    + intros h. unfold exposed. simpl. rewrite lookup_insert_eq. simpl.
      intros -> _. simpl. set_solver.
  - destruct (p_pending p !! w) as [k|] eqn:Hp.
    + destruct (ok_pending _ Hok w k Hp) as (-> & [c Hc]). rewrite Hc.
      pose proof (forget_local p c w Hok Hc ltac:(by eexists)) as Hf.
      destruct (forget p (cls w) c w) as [q c'] eqn:Hfg.
      destruct Hf as (Hl & Hpq & Ehq & _). pose proof (local_ok _ _ _ _ _ Hok Hl) as Hok2.
      eexists _, _. split; [reflexivity|]. split; [done|].
      split; [by destruct (l_capacity _ _ _ _ _ Hl)|]. split; [|split; [congruence|done]].
      eapply (served_local p); [done|done|done| | |].
      * intros k Hk. rewrite (l_class' _ _ _ _ _ Hl). by rewrite lookup_insert_ne.
      * intros w' Hw'. by apply (l_parked _ _ _ _ _ Hl).
      * intros h. unfold exposed. rewrite (l_class' _ _ _ _ _ Hl), lookup_insert_eq. simpl.
        intros -> _. simpl. set_solver.
    + eexists _, _. split; [reflexivity|]. split; [done|]. split; [done|]. split; [|done].
      eapply served_mono; [eapply (served_absent _ _ w); [done..|]|set_solver].
      intros [[? ?] _]%(ok_parked _ Hok). congruence.
Qed.

Lemma Clear_ok p w owed :
  rp_ok p → served p owed →
  ∃ q kick, Clear p w = Some (q, kick) ∧ rp_ok q ∧ p_capacity q = p_capacity p ∧
    served q (owed ∖ {[w]} ∪ list_to_set (option_list kick)) ∧
    p_pending q = p_pending p ∧ p_holders q = p_holders p ∧
    (∀ c, p_classes q !! cls w = Some c → w ∉ (c_line c).*1).
Proof.
  intros Hok Hs. unfold Clear. destruct (p_pending p !! w) as [k|] eqn:Hp.
  - destruct (ok_pending _ Hok w k Hp) as (-> & [c Hc]). case_decide as Hw.
    + eexists _, _. split; [reflexivity|]. split; [done|]. split; [done|].
      split; [|split; [done|split; [done|]]].
      * eapply served_mono; [eapply (served_absent _ _ w); [done..|]|set_solver].
        intros [_ ?]%(ok_parked _ Hok). done.
      * intros c' Hc'. rewrite (ok_line _ Hok _ _ w Hc'). naive_solver.
    + rewrite Hc. pose proof (clear_local p c w Hok Hc Hp Hw) as Hl. cbv zeta in Hl |- *.
      pose proof (local_ok _ _ _ _ _ Hok Hl) as Hok2.
      eexists _, _. split; [reflexivity|]. split; [done|]. split; [done|].
      split; [|split; [done|split; [done|]]].
      * eapply (served_local p); [done|done|done| | |].
        -- intros k Hk. rewrite (l_class' _ _ _ _ _ Hl). by rewrite lookup_insert_ne.
        -- intros w' Hw'. by apply (l_parked _ _ _ _ _ Hl).
        -- intros h. unfold exposed. rewrite (l_class' _ _ _ _ _ Hl), lookup_insert_eq. cbn [mbind option_bind].
           intros -> _. simpl. set_solver.
      * intros c' Hc'. rewrite (ok_line _ Hok2 _ _ w Hc'). simpl. set_solver.
  - eexists _, _. split; [reflexivity|]. split; [done|]. split; [done|].
    split; [|split; [done|split; [done|]]].
    + eapply served_mono; [eapply (served_absent _ _ w); [done..|]|set_solver].
      intros [[? ?] _]%(ok_parked _ Hok). congruence.
    + intros c Hc. rewrite (ok_line _ Hok _ _ w Hc). naive_solver.
Qed.

Lemma runpool_exec_ok capacity o s :
  st_ok capacity s → legal o s → ∃ s', exec o s = Some s' ∧ st_ok capacity s'.
Proof.
  intros [Hok Hcap Hs] Hlegal. destruct o as [w order m|w order|w|w|w]; simpl in *.
  - destruct (Admit_ok (s_pool s) w order m _ Hok Hs) as (? & ? & ?).
    eexists. split; [done|]. constructor; simpl; [done|congruence|done].
  - destruct (classFor (s_pool s) (cls w)) as [[q c]|] eqn:Hq.
    2:{ rewrite Acquire_unlimited by done. eexists. split; [done|].
        constructor; simpl; [done..|]. eapply served_mono; [eapply (served_absent _ _ w)|];
          [done..|by eapply classFor_None|set_solver]. }
    destruct (p_holders (s_pool s) !! w) as [k|] eqn:Hh.
    + assert (is_Some (p_holders (s_pool s) !! w)) as Hsh by (by eexists).
      rewrite (Acquire_holder _ _ _ q c) by done.
      pose proof (classFor_served _ _ _ _ _ Hok Hs Hq) as Hsq.
      pose proof (classFor_spec (s_pool s) (cls w) Hok) as Hf. rewrite Hq in Hf.
      destruct Hf as (Hokq & _ & _ & Eq & _). eexists. split; [done|].
      constructor; simpl; [done|by rewrite Eq|].
      eapply served_mono; [eapply (served_absent _ _ w)|]; [done..| |set_solver].
      apply holder_not_parked; [done|]. by rewrite Eq.
    + pose proof (Acquire_spec (s_pool s) w order q c _ Hok Hs Hq Hh) as Ha. cbv zeta in Ha.
      destruct (Acquire _ _ _ _) as [[r granted] kick].
      destruct Ha as (? & ? & _ & _ & ? & _). eexists. split; [done|].
      constructor; simpl; [done|congruence|done].
  - destruct (Hold_ok (s_pool s) w _ Hok Hs Hlegal) as (? & ? & ?).
    eexists. split; [done|]. constructor; simpl; [done|congruence|done].
  - destruct (runpool_Release_ok (s_pool s) w _ Hok Hs) as (q & kick & -> & ? & ? & ? & _).
    eexists. split; [done|]. constructor; simpl; [done|congruence|done].
  - destruct (Clear_ok (s_pool s) w _ Hok Hs) as (q & kick & -> & ? & ? & ? & _).
    eexists. split; [done|]. constructor; simpl; [done|congruence|done].
Qed.

Lemma runpool_reach_ok capacity s : reach capacity s → st_ok capacity s.
Proof.
  induction 1 as [|o s s' _ IH Hl He].
  - constructor; simpl; [apply runpool_New_ok|done|]. intros k h. unfold exposed. simpl.
    by rewrite lookup_empty.
  - destruct (runpool_exec_ok capacity o s IH Hl) as (s1 & He1 & ?). congruence.
Qed.

Lemma insert_rank_stable c w order :
  StronglySorted line_le (c_line c) →
  rank order (c_line (insert c w order).1) = rank order (c_line c).
Proof.
  intros Hs. pose proof (insert_lookup c w order Hs) as Hlk.
  pose proof (insert_rank c w order Hs) as Hr. pose proof (insert_sorted c w order Hs) as Hs'.
  apply Nat.le_antisymm.
  - rewrite <-Hr. apply (rank_upper order _ _ (w, order) Hlk). simpl. done.
  - destruct (Nat.le_gt_cases (rank order (c_line c)) (rank order (c_line (insert c w order).1)))
      as [?|Hgt]; [done|]. exfalso.
    destruct (lookup_lt_is_Some_2 (c_line (insert c w order).1)
      (rank order (c_line (insert c w order).1))) as [x Hx].
    { apply lookup_lt_Some in Hlk. lia. }
    destruct (decide (R order x.2)) as [HR|Hn];
      [|pose proof (rank_lower order _ _ _ Hs' Hx Hn); lia].
    unfold insert in Hx, Hgt, Hr. simpl in Hx, Hgt, Hr. rewrite Hr in Hx, Hgt.
    rewrite lookup_app_l in Hx by (rewrite length_take_le by apply rank_le; exact Hgt).
    apply lookup_take_Some in Hx as [Hx _]. pose proof (rank_upper order _ _ _ Hx HR). lia.
Qed.

(** ** Counting the pending members *)

Lemma pending_count p k c :
  rp_ok p → p_classes p !! k = Some c → pendingCount c = holding (p_pending p) k.
Proof.
  intros Hok Hc. unfold pendingCount. rewrite (ok_sidelined _ Hok k c Hc).
  unfold aside, holding. rewrite <-(size_dom (D:=gset W)).
  replace (dom (filter (λ x : W * K, x.2 = k) (p_pending p)))
    with (list_to_set (c_line c).*1 ∪ filter (λ w, cls w = k) (p_sidelined p) : gset W).
  - rewrite size_union; [rewrite size_list_to_set by (by eapply ok_nodup); rewrite length_fmap; lia|].
    intros w Hl%elem_of_list_to_set [_ ?]%elem_of_filter.
    by apply (ok_line _ Hok k c w Hc) in Hl as [_ ?].
  - apply set_eq. intros w. rewrite elem_of_union, elem_of_list_to_set, elem_of_filter.
    rewrite (ok_line _ Hok k c w Hc), elem_of_dom. unfold is_Some.
    setoid_rewrite map_lookup_filter_Some. simpl. split.
    + intros [[Hp _]|[<- Hs]]; [by exists k|]. destruct (ok_aside _ Hok w Hs) as [k' Hk'].
      exists k'. split; [done|]. by destruct (ok_pending _ Hok w k' Hk').
    + intros (k' & Hk' & ->). destruct (decide (w ∈ p_sidelined p)) as [Hs|Hs]; [right|by left].
      split; [|done]. by destruct (ok_pending _ Hok w k Hk').
Qed.

(** The place of a member of the line does not move back when another leaves. *)
Lemma index_filter c c' w w' j :
  c_line c' = filter (λ x, x.1 ≠ w) (c_line c) → w' ≠ w → index c w' = Some j →
  ∃ j', index c' w' = Some j' ∧ j' ≤ j.
Proof.
  unfold index. intros -> Hw. revert j.
  induction (c_line c) as [|[w0 o0] l IH]; intros j; simpl; [done|].
  case_decide as Hw0; simpl.
  - simpl in Hw0. subst w0. intros [= <-]. rewrite filter_cons_True by done. simpl.
    rewrite decide_True by done. by exists 0.
  - intros ([j0 x] & ([j1 x1] & Hf & [= -> ->])%fmap_Some & ->)%fmap_Some. simpl in *.
    destruct (IH j1) as (j' & Hj' & Hle); [by rewrite Hf|].
    rewrite filter_cons. case_decide; simpl; [|exists j'; split; [done|lia]].
    rewrite decide_False by done. exists (S j'). split; [|lia].
    rewrite <-option_fmap_compose. apply fmap_Some in Hj' as ([j2 x2] & -> & ->). done.
Qed.

(** ** Properties *)

(** In every reachable pool each line is sorted by place and holds no member
    twice, the tokens in use of a key are its holders, its pending count is its
    pending members, in line or set aside, and no operation panics. *)
Theorem reachable_pool capacity s :
  reach capacity s →
  (∀ k c, p_classes (s_pool s) !! k = Some c →
     StronglySorted line_le (c_line c) ∧ NoDup (c_line c).*1 ∧
     c_inUse c = holding (p_holders (s_pool s)) k ∧
     pendingCount c = holding (p_pending (s_pool s)) k) ∧
  (∀ o, legal o s → is_Some (exec o s)).
Proof.
  intros Hr%runpool_reach_ok. pose proof (st_pool _ _ Hr) as Hok. split.
  - intros k c Hc. split; [by eapply ok_sorted|]. split; [by eapply ok_nodup|].
    split; [by apply ok_inUse|by apply pending_count].
  - intros o Hl. destruct (runpool_exec_ok capacity o s Hr Hl) as (s' & -> & _). by eexists.
Qed.

(** C30: the pool loses no wake: in every reachable pool, a member that asked for a token,
    was refused and parked, and now heads the line of a class with free capacity, is owed
    a wake: an operation of the pool returned it to its caller, which names it, and the
    member has not taken it since.  What the caller does with the member it is given is
    outside the pool. *)
Theorem no_lost_wake capacity s k c h o rest :
  reach capacity s → p_classes (s_pool s) !! k = Some c →
  (c_inUse c < c_capacity c)%Z → c_line c = (h, o) :: rest →
  h ∈ p_parked (s_pool s) → h ∈ s_owed s.
Proof.
  intros Hr%runpool_reach_ok Hc Hfree Hl. apply (st_served _ _ Hr k h). unfold exposed. rewrite Hc.
  simpl. unfold head. by rewrite (proj2 (Z.ltb_lt _ _) Hfree), Hl.
Qed.

(** On a limited class a member that holds no token is granted exactly when it
    and every member ahead of it fit in the free capacity; the grant leaves the
    class within capacity, a refusal parks the member, and after a grant every
    member still ahead of it in the line is granted when it asks next. *)
Theorem Acquire_in_order capacity s w order c :
  reach capacity s → p_holders (s_pool s) !! w = None →
  p_classes (s_pool s) !! cls w = Some c →
  let i := match index c w with Some i => i | None => rank order (c_line c) end in
  let '(p', granted, kick) := Acquire (s_pool s) (cls w) w order in
  granted = (c_inUse c + Z.of_nat i <? c_capacity c)%Z ∧
  (if granted then
     Holds p' w = true ∧
     (∃ c', p_classes p' !! cls w = Some c' ∧ (c_inUse c' <= c_capacity c')%Z) ∧
     (∀ w' order' j, w' ≠ w → cls w' = cls w → index c w' = Some j → j < i →
        (Acquire p' (cls w) w' order').1.2 = true)
   else ParkedOn p' w = Some (cls w) ∧ kick = None).
Proof.
  intros Hr%runpool_reach_ok Hh Hc i. pose proof (st_pool _ _ Hr) as Hok.
  assert (classFor (s_pool s) (cls w) = Some (s_pool s, c)) as Hq.
  { unfold classFor. rewrite (ok_capacity _ Hok _ _ Hc), Hc. done. }
  pose proof (Acquire_spec _ w order _ c _ Hok (st_served _ _ Hr) Hq Hh) as Ha.
  cbv zeta in Ha. fold i in Ha. destruct (Acquire _ _ _ _) as [[p' granted] kick].
  destruct Ha as (Hok' & Hs' & -> & (c' & Hc' & Ec & Eu & _ & Hline) & _ & Hst).
  split; [done|]. destruct (c_inUse c + Z.of_nat i <? c_capacity c)%Z eqn:Hfit.
  2:{ destruct Hst as (_ & Hpk & Hp & ->). split; [|done]. unfold ParkedOn.
      by rewrite decide_True. }
  destruct Hst as [Eh Hp']. simpl in Eu. split; [|split].
  - unfold Holds. rewrite Eh, lookup_insert_eq. done.
  - exists c'. split; [done|]. rewrite Ec, Eu. zlia.
  - intros w' order' j Hw' Hcls Hj Hlt.
    assert (classFor p' (cls w') = Some (p', c')) as Hq'.
    { rewrite Hcls. unfold classFor. by rewrite (ok_capacity _ Hok' _ _ Hc'), Hc'. }
    assert (p_holders p' !! w' = None) as Hh'.
    { rewrite Eh, lookup_insert_ne by done. apply index_Some in Hj as [o Hj].
      apply in_line in Hj. apply (ok_line _ Hok _ _ _ Hc) in Hj as [Hp _].
      destruct (p_holders (s_pool s) !! w') as [k|] eqn:Hk; [|done].
      apply (ok_holder _ Hok) in Hk as (_ & ? & _). congruence. }
    destruct (index_filter c c' w w' j (Hline eq_refl) Hw' Hj) as (j' & Hj' & Hle).
    pose proof (Acquire_spec p' w' order' _ c' _ Hok' Hs' Hq' Hh') as Ha'. cbv zeta in Ha'.
    rewrite Hj', Hcls in Ha'. destruct (Acquire p' (cls w) w' order') as [[p'' g'] kick'].
    destruct Ha' as (_ & _ & -> & _). simpl. apply Z.ltb_lt. zlia.
Qed.

(** [Admit] refuses exactly the new member of a limited class that already has
    [maxPending] pending members, when that bound is positive; an admitted new
    member is pending, in line at its place after the members placed strictly
    before it, and the count stays within the bound. *)
Theorem Admit_bounded capacity s w order maxPending :
  reach capacity s → is_Some (capacity !! cls w) →
  p_holders (s_pool s) !! w = None → p_pending (s_pool s) !! w = None →
  let '(p', admitted) := Admit (s_pool s) (cls w) w order maxPending in
  admitted = negb ((0 <? maxPending) && (maxPending <=? Pending (s_pool s) (cls w)))%Z ∧
  (if admitted then
     Pending p' (cls w) = (Pending (s_pool s) (cls w) + 1)%Z ∧
     p_pending p' !! w = Some (cls w) ∧
     (0 < maxPending → Pending p' (cls w) <= maxPending)%Z ∧
     (∀ c, p_classes p' !! cls w = Some c →
        c_line c !! rank order (c_line c) = Some (w, order))
   else Pending p' (cls w) = Pending (s_pool s) (cls w)).
Proof.
  intros Hr%runpool_reach_ok [cap Hcap] Hh Hp. pose proof (st_pool _ _ Hr) as Hok.
  rewrite <-(st_capacity _ _ Hr) in Hcap.
  pose proof (classFor_spec (s_pool s) (cls w) Hok) as Hf. unfold Admit.
  destruct (classFor (s_pool s) (cls w)) as [[q c]|]; [|naive_solver].
  destruct Hf as (Hokq & Hc & _ & Eq & _ & Hold).
  assert (pendingCount c = Pending (s_pool s) (cls w)) as Epc.
  { unfold Pending. destruct Hold as [->|[-> ->]]; done. }
  assert (p_holders q !! w = None ∧ p_pending q !! w = None) as [Hhq Hpq] by (by rewrite Eq).
  rewrite Hhq, Hpq, !decide_False by (by intros []). rewrite Epc. clear Eq.
  destruct (_ && _) eqn:Hfull; cbn [negb]; [split; [done|]; unfold Pending at 1; by rewrite Hc|].
  pose proof (ok_sorted _ Hokq _ _ Hc) as Hs.
  pose proof (insert_lookup c w order Hs) as Hlk. pose proof (insert_rank c w order Hs) as Hrk.
  pose proof (insert_rank_stable c w order Hs) as Hst. pose proof (insert_perm c w order) as Hpm.
  destruct (insert_fields c w order) as (_ & _ & Es).
  destruct (insert c w order) as [c' i]. cbn [fst snd] in *. subst i.
  assert (pendingCount c' = (Pending (s_pool s) (cls w) + 1)%Z) as Epc'.
  { rewrite <-Epc. unfold pendingCount. rewrite Es, Hpm. simpl. lia. }
  split; [done|]. unfold Pending at 1 3, set_class. cbn [p_classes p_pending].
  rewrite !lookup_insert_eq, Epc'.
  do 2 (split; [done|]). split.
  { intros Hpos. apply andb_false_iff in Hfull as [?|?]; zlia. }
  intros c2 [= <-]. by rewrite Hst.
Qed.

(** The binary search that places a member finds, in a sorted line, the number
    of members placed strictly before it: the insertion keeps the line sorted, and
    a member goes ahead of the ones at its own place. *)
Theorem insert_place c w order :
  StronglySorted line_le (c_line c) →
  let '(c', i) := insert c w order in
  i = rank order (c_line c) ∧ c_line c' !! i = Some (w, order) ∧
  StronglySorted line_le (c_line c') ∧ delete i (c_line c') = c_line c.
Proof.
  intros Hs. pose proof (insert_rank c w order Hs) as Hr.
  pose proof (insert_lookup c w order Hs) as Hl. pose proof (insert_sorted c w order Hs) as Hs'.
  unfold insert in *. simpl in *. rewrite Hr in *. split; [done|]. split; [done|].
  split; [done|]. rewrite delete_take_drop. pose proof (rank_le order (c_line c)).
  rewrite take_app_le, drop_app_ge by (rewrite length_take_le by done; lia).
  rewrite length_take_le by done. rewrite take_take, Nat.min_id.
  replace (S (rank order (c_line c)) - rank order (c_line c)) with 1 by lia. simpl.
  by rewrite drop_0, take_drop.
Qed.
End runpool.

(** ** Witnesses: one token for key 1; member 5 holds it, 6 was refused behind 7 *)

#[local] Instance Zle_total_order : TotalOrder Z.le.
Proof.
  split; [apply _|]. intros x y.
  destruct (Z.lt_trichotomy x y) as [?|[?|?]]; [left|right; left; done|right; right];
    (split; [lia|intros ?; lia]).
Qed.

Definition ex_cls (w : nat) : nat := 1.
Definition ex_capacity : gmap nat Z := {[1 := 1%Z]}.

Abbreviation rstate := (@state nat nat Z _ _ _ _).
Abbreviation rop := (@op nat Z).

Fixpoint exec_all (os : list rop) (s : rstate) : option rstate :=
  match os with
  | [] => Some s
  | o :: os =>
    match o with
    | RHold _ => None
    | _ => match exec Z.le ex_cls o s with None => None | Some s => exec_all os s end
    end
  end.

Lemma runpool_exec_all_reach capacity os s s' :
  reach Z.le ex_cls capacity s → exec_all os s = Some s' → reach Z.le ex_cls capacity s'.
Proof.
  revert s. induction os as [|o os IH]; simpl; intros s Hr; [by intros [= <-]|].
  destruct o; try done; destruct (exec _ _ _ s) eqn:He; try done;
    intros He2; (eapply IH; [|exact He2]); (eapply reach_step; [done| |exact He]); done.
Qed.

Definition ex_ops : list rop :=
  [RAcquire 5 10%Z; RAdmit 7 15%Z 0%Z; RAcquire 6 20%Z; RAcquire 7 15%Z].
Definition ex_after (os : list rop) : rstate :=
  match exec_all os (mkState (New ex_capacity) ∅) with
  | Some s => s
  | None => mkState (New ex_capacity) ∅
  end.

Lemma runpool_ex_reach : reach Z.le ex_cls ex_capacity (ex_after ex_ops).
Proof. eapply (runpool_exec_all_reach _ ex_ops); [constructor|]. vm_compute. reflexivity. Qed.
Definition ex_released : list rop := ex_ops ++ [RRelease 5].
Lemma ex_released_reach : reach Z.le ex_cls ex_capacity (ex_after ex_released).
Proof. eapply (runpool_exec_all_reach _ ex_released); [constructor|]. vm_compute. reflexivity. Qed.

Lemma reachable_pool_witness :
  is_Some (exec Z.le ex_cls (RClear 6) (ex_after ex_ops)).
Proof.
  destruct (reachable_pool Z.le ex_cls ex_capacity (ex_after ex_ops) runpool_ex_reach) as [_ Hl].
  apply Hl. exact I.
Defined.

Lemma no_lost_wake_witness : 7 ∈ s_owed (ex_after ex_released).
Proof.
  apply (no_lost_wake Z.le ex_cls ex_capacity (ex_after ex_released) 1
    (mkClass 1 0 [(7, 15%Z); (6, 20%Z)] 0) 7 15%Z [(6, 20%Z)] ex_released_reach);
    [reflexivity|reflexivity|reflexivity|].
  vm_compute. reflexivity.
Defined.

Lemma Acquire_in_order_witness :
  (Acquire Z.le (s_pool (ex_after ex_released)) 1 6 20%Z).1.2 = false.
Proof.
  pose proof (Acquire_in_order Z.le ex_cls ex_capacity (ex_after ex_released) 6 20%Z
    (mkClass 1 0 [(7, 15%Z); (6, 20%Z)] 0) ex_released_reach eq_refl eq_refl) as Ha.
  cbv zeta in Ha. change (ex_cls 6) with 1 in Ha.
  destruct (Acquire _ _ _ _ _) as [[p' granted] kick]. destruct Ha as [-> _]. reflexivity.
Defined.

Lemma Admit_bounded_witness :
  (Admit Z.le (s_pool (ex_after ex_ops)) 1 8 30%Z 2%Z).2 = false.
Proof.
  pose proof (Admit_bounded Z.le ex_cls ex_capacity (ex_after ex_ops) 8 30%Z 2%Z runpool_ex_reach
    ltac:(by eexists) eq_refl eq_refl) as Ha. change (ex_cls 8) with 1 in Ha.
  destruct (Admit _ _ _ _ _ _) as [p' a]. destruct Ha as [-> _]. reflexivity.
Defined.

Lemma insert_place_witness :
  (insert Z.le (mkClass 1 0 [(7, 15%Z); (6, 20%Z)] 0) 8 20%Z).2 = 1.
Proof.
  pose proof (insert_place Z.le (mkClass 1 0 [(7, 15%Z); (6, 20%Z)] 0) 8 20%Z) as Hp.
  destruct (insert _ _ _ _) as [c i]. destruct Hp as [-> _]; [|reflexivity].
  simpl. repeat constructor; unfold line_le; simpl; lia.
Defined.
