(* ===== verification/Binding.v ===== *)
(** * Binding: pipeline definitions and their binding (pipelinedef/pipelinedef.go,
    engine/bind.go, engine/middleware.go and the registration part of
    engine/engine.go)

    Handlers are values of an abstract type [H]; a middleware is a function on it,
    and [None] where the code tests for nil. *)
From S2P Require Import Prelude Kernel Ledger Signals Text MemStore Driver.

Section definition.
Context {H : Type}.

(** [pipelinedef.Step] and [pipelinedef.Config]; constructors and reducers count by
    their presence. *)
Record Step := mkStep {
  S_ID : StepID;
  S_Unwind : bool;
  S_Retired : bool;
  S_HasState : bool;
  S_ConcurrencyClass : string;
  S_Run : option H;
  S_UnwindFunc : option H;
}.

Record Config := mkConfig {
  C_ID : PipelineID;
  C_Steps : list Step;
  C_Mutexes : list string;
  C_ConcurrencyClass : string;
  C_RunClass : string;
  C_Middleware : list (option (H → H));
  C_NewInput : bool;
  C_Reduce : bool;
  C_ReduceFailure : bool;
}.

(** [pipelinedef.New]: the steps inherit the pipeline's concurrency class. *)
Definition inherit_class (class : string) (s : Step) : Step :=
  if bool_decide (S_ConcurrencyClass s = "")
  then mkStep (S_ID s) (S_Unwind s) (S_Retired s) (S_HasState s) class (S_Run s)
         (S_UnwindFunc s)
  else s.
Definition New (cfg : Config) : Config :=
  mkConfig (C_ID cfg) (inherit_class (C_ConcurrencyClass cfg) <$> C_Steps cfg)
    (C_Mutexes cfg) (C_ConcurrencyClass cfg) (C_RunClass cfg) (C_Middleware cfg)
    (C_NewInput cfg) (C_Reduce cfg) (C_ReduceFailure cfg).

(** [wrap]: the middleware chains around a handler, outermost first. *)
Definition wrap_chain (chain : list (H → H)) (h : H) : H := foldr (λ mw h, mw h) h chain.
Definition wrap (h : H) (chains : list (list (H → H))) : H := foldr wrap_chain h chains.

Record boundStep := mkBoundStep {
  bs_Step : Step;
  bs_forward : H;
  bs_unwind : option H;
}.

Record boundDef := mkBoundDef {
  bd_cfg : Config;
  bd_steps : gmap StepID boundStep;
  bd_topo : Ledger.Topology;
  bd_excludes : list PipelineID;
}.

Inductive BindError :=
| EmptyPipelineID
| InvalidPipelineID
| InvalidMutex (m : string)
| NilMiddleware
| NoSteps
| EmptyStepID
| InvalidStepID (id : StepID)
| DuplicateStep (id : StepID)
| NoRunAdapter (id : StepID)
| UnwindDisagrees (id : StepID).

Definition bad_mutex (m : string) : bool := bool_decide (m = "") || invalidID m.

(** One iteration of the loop of [bindDefinition] over the steps. *)
Definition bind_step (mws : list (list (H → H))) (steps : gmap StepID boundStep) (sc : Step)
    : result BindError (boundStep * Ledger.Step) :=
  if bool_decide (S_ID sc = "") then Err EmptyStepID
  else if invalidID (S_ID sc) then Err (InvalidStepID (S_ID sc))
  else if bool_decide (is_Some (steps !! S_ID sc)) then Err (DuplicateStep (S_ID sc))
  else match S_Run sc with
  | None => Err (NoRunAdapter (S_ID sc))
  | Some run =>
    match S_Unwind sc, S_UnwindFunc sc with
    | true, None | false, Some _ => Err (UnwindDisagrees (S_ID sc))
    | _, uf =>
      Ok (mkBoundStep sc (wrap run mws) ((λ uf, wrap uf mws) <$> uf),
          Ledger.mkStep (S_ID sc) (S_Unwind sc) (S_Retired sc))
    end
  end.

Fixpoint bind_steps (mws : list (list (H → H))) (scs : list Step)
    (steps : gmap StepID boundStep) (topo : Ledger.Topology)
    : result BindError (gmap StepID boundStep * Ledger.Topology) :=
  match scs with
  | [] => Ok (steps, topo)
  | sc :: scs =>
    match bind_step mws steps sc with
    | Err e => Err e
    | Ok (bs, ls) => bind_steps mws scs (<[S_ID sc := bs]> steps) (topo ++ [ls])
    end
  end.

Definition bindDefinition (cfg : Config) (engineMW : list (H → H))
    : result BindError boundDef :=
  if bool_decide (C_ID cfg = "") then Err EmptyPipelineID
  else if invalidID (C_ID cfg) then Err InvalidPipelineID
  else match List.find bad_mutex (C_Mutexes cfg) with
  | Some m => Err (InvalidMutex m)
  | None =>
    match mapM id (C_Middleware cfg) with
    | None => Err NilMiddleware
    | Some mw =>
      if bool_decide (C_Steps cfg = []) then Err NoSteps
      else match bind_steps [engineMW; mw] (C_Steps cfg) ∅ [] with
      | Err e => Err e
      | Ok (steps, topo) => Ok (mkBoundDef cfg steps topo [])
      end
    end
  end.

(** ** The registry of an engine *)

Record Registry := mkRegistry {
  started : bool;
  pipelines : Frozen.Map (K:=PipelineID) (V:=boundDef);
  stepOwner : Frozen.Map (K:=StepID) (V:=PipelineID);
}.

Definition empty_registry : Registry := mkRegistry false Frozen.empty Frozen.empty.

Inductive RegisterError :=
| ErrStarted
| BoundTwice (id : PipelineID)
| StepOwned (id : StepID) (owner : PipelineID).

(** The scan of the new steps for one that has an owner, in the order [ids]. *)
Fixpoint find_owned (owners : Frozen.Map (K:=StepID) (V:=PipelineID)) (ids : list StepID)
    : option (StepID * PipelineID) :=
  match ids with
  | [] => None
  | id :: ids =>
    match Frozen.Get owners id with
    | Some owner => Some (id, owner)
    | None => find_owned owners ids
    end
  end.
Fixpoint put_owners (owners : Frozen.Map (K:=StepID) (V:=PipelineID)) (p : PipelineID)
    (ids : list StepID) : option (Frozen.Map (K:=StepID) (V:=PipelineID)) :=
  match ids with
  | [] => Some owners
  | id :: ids =>
    match Frozen.Put owners id p with
    | Some owners => put_owners owners p ids
    | None => None
    end
  end.

(** [Engine.register]; the outer [None] would be a panic of a frozen map. *)
Definition register (r : Registry) (d : boundDef) : option (result RegisterError Registry) :=
  if started r then Some (Err ErrStarted)
  else
    let pid := C_ID (bd_cfg d) in
    let ids := (map_to_list (bd_steps d)).*1 in
    match Frozen.Get (pipelines r) pid with
    | Some _ => Some (Err (BoundTwice pid))
    | None =>
      match find_owned (stepOwner r) ids with
      | Some (id, owner) => Some (Err (StepOwned id owner))
      | None =>
        match Frozen.Put (pipelines r) pid d with
        | None => None
        | Some ps =>
          match put_owners (stepOwner r) pid ids with
          | None => None
          | Some os => Some (Ok (mkRegistry false ps os))
          end
        end
      end
    end.

(** [Engine.Bind]. *)
Inductive BindFailure :=
| NilDefinition
| Unbindable (e : BindError)
| Unregistered (e : RegisterError).
Definition Bind (r : Registry) (engineMW : list (H → H)) (def : option Config)
    : option (result BindFailure (Registry * boundDef)) :=
  match def with
  | None => Some (Err NilDefinition)
  | Some cfg =>
    match bindDefinition cfg engineMW with
    | Err e => Some (Err (Unbindable e))
    | Ok bd =>
      match register r bd with
      | None => None
      | Some (Err e) => Some (Err (Unregistered e))
      | Some (Ok r) => Some (Ok (r, bd))
      end
    end
  end.

(** [slices.Compact]. *)
Fixpoint compact (l : list string) : list string :=
  match l with
  | x :: (y :: _) as l' => if bool_decide (x = y) then compact l' else x :: compact l'
  | l => l
  end.

(** [resolveMutexes]: the holders of each mutex, then each pipeline's set. *)
Definition add_holders (holders : gmap string (list PipelineID)) (e : PipelineID * boundDef)
    : gmap string (list PipelineID) :=
  foldl (λ hs m, <[m := map_get [] hs m ++ [e.1]]> hs) holders (C_Mutexes (bd_cfg e.2)).
Definition mutex_holders (ps : list (PipelineID * boundDef)) : gmap string (list PipelineID) :=
  foldl add_holders ∅ ps.
Definition exclusion_set (holders : gmap string (list PipelineID)) (id : PipelineID)
    (d : boundDef) : list PipelineID :=
  compact (sort_strings (foldl (λ set m, set ++ map_get [] holders m) [id]
    (C_Mutexes (bd_cfg d)))).
Definition set_excludes (ex : list PipelineID) (d : boundDef) : boundDef :=
  mkBoundDef (bd_cfg d) (bd_steps d) (bd_topo d) ex.
Definition resolveMutexes (r : Registry) : Registry :=
  let ps := Frozen.m (pipelines r) in
  let holders := mutex_holders (map_to_list ps) in
  mkRegistry (started r)
    (Frozen.mkMap (map_imap (λ id d, Some (set_excludes (exclusion_set holders id d) d)) ps)
       (Frozen.frozen (pipelines r)))
    (stepOwner r).

(** The registration part of [Engine.Start]. *)
Definition start_registry (r : Registry) : result RegisterError Registry :=
  if started r then Err ErrStarted
  else Ok (resolveMutexes (mkRegistry true (Frozen.Freeze (pipelines r))
                             (Frozen.Freeze (stepOwner r)))).

Definition excludes_of (r : Registry) (p : PipelineID) : list PipelineID :=
  match Frozen.Get (pipelines r) p with Some d => bd_excludes d | None => [p] end.

(** ** Binding *)

Definition valid_step (sc : Step) : Prop :=
  S_ID sc ≠ "" ∧ invalidID (S_ID sc) = false ∧ is_Some (S_Run sc) ∧
  (S_Unwind sc = true ↔ is_Some (S_UnwindFunc sc)).

Definition ledger_step (sc : Step) : Ledger.Step :=
  Ledger.mkStep (S_ID sc) (S_Unwind sc) (S_Retired sc).

Definition bound (mws : list (list (H → H))) (sc : Step) (bs : boundStep) : Prop :=
  bs_Step bs = sc ∧ Some (bs_forward bs) = (λ h, wrap h mws) <$> S_Run sc ∧
  bs_unwind bs = (λ h, wrap h mws) <$> S_UnwindFunc sc.

Lemma bind_step_spec mws steps sc :
  match bind_step mws steps sc with
  | Ok (bs, ls) => valid_step sc ∧ steps !! S_ID sc = None ∧ bound mws sc bs ∧ ls = ledger_step sc
  | Err _ => ¬ (valid_step sc ∧ steps !! S_ID sc = None)
  end.
Proof.
  unfold bind_step, valid_step, bound. case_bool_decide as H1; [tauto|].
  destruct (invalidID (S_ID sc)) eqn:H2; [naive_solver|].
  case_bool_decide as H3; [rewrite <-not_eq_None_Some in H3; tauto|]. apply eq_None_not_Some in H3.
  destruct (S_Run sc) as [run|] eqn:H4; [|by intros [(_ & _ & [? ?] & _) _]].
  destruct (S_Unwind sc) eqn:H5, (S_UnwindFunc sc) as [uf|] eqn:H6; simpl.
  - split; [repeat split; (done || by eexists)|]. split; [done|].
    split; [done|]. unfold ledger_step. by rewrite H5.
  - intros [(_ & _ & _ & Hu) _]. by destruct Hu as [[? ?] _].
  - intros [(_ & _ & _ & Hu) _]. destruct Hu as [_ Hu]. discriminate Hu. by eexists.
  - split.
    { do 3 (split; [by eauto|]). split; [done|by intros []]. }
    split; [done|]. split; [done|]. unfold ledger_step. by rewrite H5.
Qed.

Lemma bind_steps_spec mws scs steps topo :
  match bind_steps mws scs steps topo with
  | Ok (steps', topo') =>
    Forall valid_step scs ∧ NoDup (S_ID <$> scs) ∧
    (∀ sc, sc ∈ scs → steps !! S_ID sc = None) ∧
    topo' = topo ++ (ledger_step <$> scs) ∧
    (∀ id bs, steps' !! id = Some bs ↔
       steps !! id = Some bs ∨ ∃ sc, sc ∈ scs ∧ S_ID sc = id ∧ bound mws sc bs ∧
         steps' !! id = Some bs) ∧
    (∀ sc, sc ∈ scs → is_Some (steps' !! S_ID sc))
  | Err _ => ¬ (Forall valid_step scs ∧ NoDup (S_ID <$> scs) ∧
                ∀ sc, sc ∈ scs → steps !! S_ID sc = None)
  end.
Proof.
  revert steps topo. induction scs as [|sc scs IH]; intros steps topo; simpl.
  { rewrite app_nil_r. split; [constructor|]. split; [constructor|].
    split; [by intros sc ?%not_elem_of_nil|]. split; [done|]. split; [|by intros sc ?%not_elem_of_nil].
    intros id bs. split; [by left|]. intros [?|(sc & ?%not_elem_of_nil & _)]; done. }
  pose proof (bind_step_spec mws steps sc) as Hs.
  destruct (bind_step mws steps sc) as [[bs ls]|e].
  2:{ intros (Hv & _ & Hn). apply Hs. split; [by inversion Hv|]. apply Hn. left. }
  destruct Hs as (Hv & Hnone & Hb & ->).
  specialize (IH (<[S_ID sc := bs]> steps) (topo ++ [ledger_step sc])).
  destruct (bind_steps _ _ _ _) as [[steps' topo']|e].
  - destruct IH as (Hvs & Hnd & Hns & -> & Hin & Hsome).
    assert (S_ID sc ∉ (S_ID <$> scs)) as Hnotin.
    { intros (sc' & Heq & Hsc)%list_elem_of_fmap. specialize (Hns sc' Hsc).
      by rewrite <-Heq, lookup_insert_eq in Hns. }
    split; [by constructor|]. split; [by apply NoDup_cons|]. split.
    { intros sc' [->|Hsc]%elem_of_cons; [done|]. specialize (Hns sc' Hsc).
      rewrite lookup_insert in Hns. by case_decide. }
    split; [by rewrite <-app_assoc|]. split.
    + intros id bs'. split.
      * intros Hbs'. apply Hin in Hbs' as Hc. destruct Hc as [Hc|(sc' & ? & ? & ? & ?)].
        -- apply lookup_insert_Some in Hc as [[<- <-]|[_ ?]]; [|by left].
           right. exists sc. split; [left|]. done.
        -- right. exists sc'. split; [by right|done].
      * intros [Hc|(sc' & _ & _ & _ & ?)]; [|done]. apply Hin. left.
        rewrite lookup_insert_ne; [done|]. intros Heq. congruence.
    + intros sc' [->|Hsc]%elem_of_cons; [|by apply Hsome].
      exists bs. apply Hin. left. apply lookup_insert_eq.
  - intros (Hvs & Hnd & Hns). apply IH. inversion Hvs as [|? ? _ Hvs']; subst.
    apply NoDup_cons in Hnd as [Hnotin Hnd]. split; [done|]. split; [done|].
    intros sc' Hsc. rewrite lookup_insert_ne; [apply Hns; by right|].
    intros Heq. apply Hnotin, list_elem_of_fmap. by exists sc'.
Qed.

(** ** Exclusion *)

Lemma compact_elem l x : x ∈ compact l ↔ x ∈ l.
Proof.
  induction l as [|y [|z l] IH]; [done|done|]. cbn [compact]. case_bool_decide as Hyz.
  - subst. rewrite IH. set_solver.
  - rewrite !elem_of_cons, IH, elem_of_cons. done.
Qed.

Lemma add_holders_elem hs e m q :
  q ∈ map_get [] (add_holders hs e) m ↔
    q ∈ map_get [] hs m ∨ (q = e.1 ∧ m ∈ C_Mutexes (bd_cfg e.2)).
Proof.
  unfold add_holders. destruct e as [p d]. simpl. generalize (C_Mutexes (bd_cfg d)) as ms.
  intros ms. revert hs. induction ms as [|m' ms IH]; intros hs; simpl; [set_solver|].
  rewrite IH. unfold map_get at 1. rewrite lookup_insert. case_decide as Hm.
  - subst. simpl. rewrite elem_of_app, list_elem_of_singleton, elem_of_cons.
    unfold map_get. naive_solver.
  - rewrite elem_of_cons. unfold map_get. naive_solver.
Qed.

Lemma mutex_holders_elem ps m q :
  q ∈ map_get [] (mutex_holders ps) m ↔
    ∃ d, (q, d) ∈ ps ∧ m ∈ C_Mutexes (bd_cfg d).
Proof.
  unfold mutex_holders.
  assert (∀ hs, q ∈ map_get [] (foldl add_holders hs ps) m ↔
    q ∈ map_get [] hs m ∨ ∃ d, (q, d) ∈ ps ∧ m ∈ C_Mutexes (bd_cfg d)) as Hg.
  { induction ps as [|[p d] ps IH]; intros hs; simpl; [set_solver|].
    rewrite IH, add_holders_elem. simpl. setoid_rewrite elem_of_cons. naive_solver. }
  rewrite Hg. unfold map_get. rewrite lookup_empty. simpl. set_solver.
Qed.

Lemma exclusion_set_elem holders id d q :
  q ∈ exclusion_set holders id d ↔
    q = id ∨ ∃ m, m ∈ C_Mutexes (bd_cfg d) ∧ q ∈ map_get [] holders m.
Proof.
  unfold exclusion_set. rewrite compact_elem, sort_strings_perm.
  generalize (C_Mutexes (bd_cfg d)) as ms. intros ms.
  assert (∀ set, q ∈ foldl (λ set m, set ++ map_get [] holders m) set ms ↔
    q ∈ set ∨ ∃ m, m ∈ ms ∧ q ∈ map_get [] holders m) as Hg.
  { induction ms as [|m ms IH]; intros set; simpl; [set_solver|].
    rewrite IH, elem_of_app. setoid_rewrite elem_of_cons. naive_solver. }
  rewrite Hg, list_elem_of_singleton. done.
Qed.

Lemma excludes_of_resolved r p q :
  q ∈ excludes_of (resolveMutexes r) p ↔
    p = q ∨ ∃ d e m, Frozen.Get (pipelines r) p = Some d ∧ Frozen.Get (pipelines r) q = Some e ∧
      m ∈ C_Mutexes (bd_cfg d) ∧ m ∈ C_Mutexes (bd_cfg e).
Proof.
  unfold excludes_of, resolveMutexes, Frozen.Get. simpl. rewrite map_lookup_imap.
  destruct (Frozen.m (pipelines r) !! p) as [d|] eqn:Hp; simpl.
  - rewrite exclusion_set_elem. setoid_rewrite mutex_holders_elem.
    setoid_rewrite elem_of_map_to_list. split.
    + intros [->|(m & Hm & e & He & Hm')]; [by left|]. right. exists d, e, m. done.
    + intros [->|(d' & e & m & ? & He & ? & ?)]; [by left|]. simplify_eq. right. eauto 6.
  - rewrite list_elem_of_singleton. naive_solver.
Qed.

(** ** Registration *)

Lemma find_owned_None owners ids :
  find_owned owners ids = None ↔ ∀ id, id ∈ ids → Frozen.Get owners id = None.
Proof.
  induction ids as [|id ids IH]; simpl.
  - split; [|done]. by intros _ id ?%not_elem_of_nil.
  - destruct (Frozen.Get owners id) as [o|] eqn:Ho.
    + split; [done|]. intros Hn. specialize (Hn id ltac:(left)). congruence.
    + rewrite IH. split; [intros Hn id' [->|?]%elem_of_cons; auto|].
      intros Hn id' ?. apply Hn. by right.
Qed.

Lemma put_owners_spec owners p ids :
  Frozen.frozen owners = false →
  ∃ owners', put_owners owners p ids = Some owners' ∧ Frozen.frozen owners' = false ∧
    ∀ id, Frozen.Get owners' id = if decide (id ∈ ids) then Some p else Frozen.Get owners id.
Proof.
  revert owners. induction ids as [|id ids IH]; intros owners Hf; simpl.
  { exists owners. split; [done|]. split; [done|]. done. }
  unfold Frozen.Put. rewrite Hf.
  destruct (IH (Frozen.mkMap (<[id := p]> (Frozen.m owners)) false) eq_refl)
    as (owners' & -> & Hf' & Hg).
  exists owners'. split; [done|]. split; [done|]. intros id'. rewrite Hg.
  unfold Frozen.Get. simpl. rewrite lookup_insert.
  repeat case_decide; subst; set_solver.
Qed.

(** The registries reached by registering definitions before Start. *)
Inductive registered : Registry → Prop :=
| registered_empty : registered empty_registry
| registered_step r r' d : registered r → register r d = Some (Ok r') → registered r'.

Record reg_ok (r : Registry) : Prop := {
  ro_started : started r = false;
  ro_thawed : Frozen.frozen (pipelines r) = false ∧ Frozen.frozen (stepOwner r) = false;
  ro_id p d : Frozen.Get (pipelines r) p = Some d → C_ID (bd_cfg d) = p;
  ro_owner p d id : Frozen.Get (pipelines r) p = Some d → is_Some (bd_steps d !! id) →
    Frozen.Get (stepOwner r) id = Some p;
}.

Lemma step_ids_elem d id : id ∈ (map_to_list (bd_steps d)).*1 ↔ is_Some (bd_steps d !! id).
Proof.
  rewrite list_elem_of_fmap. split.
  - intros ([id' bs] & -> & Hin). apply elem_of_map_to_list in Hin. by eexists.
  - intros [bs Hbs]. exists (id, bs). split; [done|]. by apply elem_of_map_to_list.
Qed.
Lemma register_ok r d :
  reg_ok r → ∃ res, register r d = Some res ∧ ∀ r', res = Ok r' → reg_ok r'.
Proof.
  intros [Hst [Hfp Hfo] Hid Hown]. unfold register. rewrite Hst.
  destruct (Frozen.Get (pipelines r) (C_ID (bd_cfg d))) as [d'|] eqn:Hdup; [by eexists|].
  destruct (find_owned _ _) as [[id o]|] eqn:Hfind; [by eexists|].
  unfold Frozen.Put. rewrite Hfp.
  destruct (put_owners_spec (stepOwner r) (C_ID (bd_cfg d)) (map_to_list (bd_steps d)).*1 Hfo)
    as (os & -> & Hfo' & Hg).
  eexists. split; [done|]. intros r' [= <-].
  rewrite find_owned_None in Hfind.
  pose proof (step_ids_elem d) as Hids.
  constructor; simpl; [done|done| |].
  - intros p e. unfold Frozen.Get. simpl. rewrite lookup_insert.
    case_decide; [by intros [= <-]|]. apply Hid.
  - intros p e id. unfold Frozen.Get at 1. simpl. rewrite lookup_insert, Hg. case_decide as Hp.
    + intros [= <-] Hs. rewrite decide_True by (by apply Hids). by rewrite Hp.
    + intros He Hs. pose proof (Hown p e id He Hs) as Ho. rewrite decide_False; [done|].
      intros Hin. specialize (Hfind id Hin). congruence.
Qed.

Lemma registered_ok r : registered r → reg_ok r.
Proof.
  induction 1 as [|r r' d _ IH Hr].
  - constructor; simpl; try done; unfold Frozen.Get; simpl; intros *; by rewrite lookup_empty.
  - destruct (register_ok r d IH) as (res & Hr' & Hok). apply Hok. congruence.
Qed.

(** *** Registries of bound definitions *)

(** A definition in use comes from [bindDefinition], its exclusion set aside. *)
Definition bound_def (d : boundDef) : Prop :=
  ∃ c mw d0, bindDefinition c mw = Ok d0 ∧ d = set_excludes (bd_excludes d) d0.
Definition bound_registry (r : Registry) : Prop :=
  ∀ p d, Frozen.Get (pipelines r) p = Some d → bound_def d.

Lemma bind_bound c mw d : bindDefinition c mw = Ok d → bound_def d.
Proof. intros Hd. exists c, mw, d. split; [done|by destruct d]. Qed.
Lemma empty_bound : bound_registry empty_registry.
Proof. intros p d. unfold Frozen.Get. simpl. by rewrite lookup_empty. Qed.
Lemma register_bound r d r' :
  bound_registry r → bound_def d → register r d = Some (Ok r') → bound_registry r'.
Proof.
  intros Hr Hd. unfold register. destruct (started r); [done|].
  destruct (Frozen.Get (pipelines r) (C_ID (bd_cfg d))); [done|].
  destruct (find_owned _ _) as [[]|]; [done|].
  unfold Frozen.Put. destruct (Frozen.frozen (pipelines r)); [done|].
  destruct (put_owners _ _ _); [|done]. intros [= <-] p e. unfold Frozen.Get. simpl.
  rewrite lookup_insert. case_decide; [by intros [= <-]|]. apply Hr.
Qed.
Lemma start_bound r r' : bound_registry r → start_registry r = Ok r' → bound_registry r'.
Proof.
  intros Hr. unfold start_registry. destruct (started r); [done|]. intros [= <-] p d.
  unfold Frozen.Get. simpl. rewrite map_lookup_imap. intros (e & He & [= <-])%bind_Some.
  destruct (Hr p e He) as (c & mw & d0 & Hb & Heq). exists c, mw, d0. split; [done|].
  rewrite Heq. by destruct d0.
Qed.

(** ** Properties *)

Definition well_formed (cfg : Config) : Prop :=
  C_ID cfg ≠ "" ∧ invalidID (C_ID cfg) = false ∧
  Forall (λ m, m ≠ "" ∧ invalidID m = false) (C_Mutexes cfg) ∧
  Forall (λ mw, is_Some mw) (C_Middleware cfg) ∧
  C_Steps cfg ≠ [] ∧ Forall valid_step (C_Steps cfg) ∧ NoDup (S_ID <$> C_Steps cfg).

Lemma mapM_id_Some {A} (l : list (option A)) :
  Forall (λ x, is_Some x) l → ∃ k, mapM id l = Some k ∧ l = Some <$> k.
Proof.
  induction 1 as [|x l [y ->] _ (k & IH & ->)]; [by exists []|].
  exists (y :: k). simpl. by rewrite IH.
Qed.

Lemma mapM_id_None {A} (l : list (option A)) :
  mapM id l = None → ¬ Forall (λ x, is_Some x) l.
Proof. intros Hn Hf. destruct (mapM_id_Some l Hf) as (k & Hk & _). congruence. Qed.

Lemma bad_mutex_spec m : bad_mutex m = false ↔ m ≠ "" ∧ invalidID m = false.
Proof.
  unfold bad_mutex. rewrite orb_false_iff, bool_decide_eq_false. done.
Qed.

Lemma find_bad l :
  match List.find bad_mutex l with
  | Some m => ¬ Forall (λ m, m ≠ "" ∧ invalidID m = false) l
  | None => Forall (λ m, m ≠ "" ∧ invalidID m = false) l
  end.
Proof.
  induction l as [|m l IH]; simpl; [constructor|]. destruct (bad_mutex m) eqn:Hm.
  - intros Hf. inversion Hf as [|? ? Hx _]; subst. apply bad_mutex_spec in Hx. congruence.
  - apply bad_mutex_spec in Hm. destruct (List.find bad_mutex l).
    + intros Hf. apply IH. by inversion Hf.
    + by constructor.
Qed.

(** [bindDefinition] on every branch. *)
Lemma bindDefinition_spec cfg engineMW :
  match bindDefinition cfg engineMW with
  | Err _ => ¬ well_formed cfg
  | Ok d =>
    well_formed cfg ∧ bd_cfg d = cfg ∧ bd_topo d = ledger_step <$> C_Steps cfg ∧
    ∃ mw, C_Middleware cfg = Some <$> mw ∧
      ∀ sc, sc ∈ C_Steps cfg → ∃ bs, bd_steps d !! S_ID sc = Some bs ∧ bs_Step bs = sc ∧
        (∀ run, S_Run sc = Some run →
           bs_forward bs = wrap_chain engineMW (wrap_chain mw run)) ∧
        (bs_unwind bs = (λ uf, wrap_chain engineMW (wrap_chain mw uf)) <$> S_UnwindFunc sc)
  end.
Proof.
  unfold bindDefinition, well_formed. case_bool_decide as H1; [tauto|].
  destruct (invalidID (C_ID cfg)) eqn:H2; [naive_solver|].
  pose proof (find_bad (C_Mutexes cfg)) as Hm. destruct (List.find _ _) as [m|]; [tauto|].
  destruct (mapM id (C_Middleware cfg)) as [mw|] eqn:Hmw; [|apply mapM_id_None in Hmw; tauto].
  assert (C_Middleware cfg = Some <$> mw) as Emw.
  { apply mapM_Some in Hmw. induction Hmw as [|x y l k Hxy _ IH]; [done|].
    simpl. f_equal; [done|]. exact IH. }
  assert (Forall (λ mw, is_Some mw) (C_Middleware cfg)) as Hsome.
  { rewrite Emw. apply Forall_fmap, Forall_true. intros x. by eexists. }
  case_bool_decide as H3; [tauto|].
  pose proof (bind_steps_spec [engineMW; mw] (C_Steps cfg) ∅ []) as Hb.
  destruct (bind_steps _ _ _ _) as [[steps topo]|e].
  - destruct Hb as (Hv & Hnd & _ & -> & Hin & Hs). split; [done|]. split; [done|]. split; [done|].
    exists mw. split; [done|]. intros sc Hsc. simpl. destruct (Hs sc Hsc) as [bs Hbs].
    exists bs. split; [done|]. apply Hin in Hbs as Hc.
    destruct Hc as [Hc|(sc' & Hsc' & Heq & (Hst & Hfw & Huw) & _)]; [by rewrite lookup_empty in Hc|].
    assert (sc' = sc) as ->.
    { apply list_elem_of_lookup in Hsc as [i Hi], Hsc' as [j Hj].
      assert (i = j) as ->; [|congruence].
      eapply NoDup_lookup; [exact Hnd|by rewrite list_lookup_fmap, Hi|].
      rewrite list_lookup_fmap, Hj. simpl. by rewrite Heq. }
    split; [done|]. split; [|done]. intros run Hrun. rewrite Hrun in Hfw. by injection Hfw.
  - intros (_ & _ & _ & _ & _ & Hv & Hnd). apply Hb. split; [done|]. split; [done|].
    intros sc _. apply lookup_empty.
Qed.

(** The steps of a bound topology are named, and have their operations. *)
Lemma bound_topo_named cfg engineMW d s :
  bindDefinition cfg engineMW = Ok d → s ∈ bd_topo d → Ledger.Step_ID s ≠ "".
Proof.
  intros Hd Hs. pose proof (bindDefinition_spec cfg engineMW) as Hb. rewrite Hd in Hb.
  destruct Hb as ((_ & _ & _ & _ & _ & Hv & _) & _ & Ht & _). rewrite Ht in Hs.
  apply list_elem_of_fmap in Hs as (sc & -> & Hsc). simpl.
  by apply (proj1 (Forall_forall _ _) Hv).
Qed.

Lemma bound_topo_ids cfg engineMW d :
  bindDefinition cfg engineMW = Ok d → NoDup (Ledger.Step_ID <$> bd_topo d).
Proof.
  intros Hd. pose proof (bindDefinition_spec cfg engineMW) as Hb. rewrite Hd in Hb.
  destruct Hb as ((_ & _ & _ & _ & _ & _ & Hnd) & _ & -> & _).
  by rewrite <-list_fmap_compose.
Qed.

(** The bound steps are those of the definition. *)
Lemma bound_step_ids cfg engineMW d sid :
  bindDefinition cfg engineMW = Ok d → is_Some (bd_steps d !! sid) → sid ∈ S_ID <$> C_Steps cfg.
Proof.
  unfold bindDefinition. case_bool_decide; [done|]. destruct (invalidID _); [done|].
  destruct (List.find _ _); [done|]. destruct (mapM id _) as [mw|]; [|done].
  case_bool_decide; [done|]. pose proof (bind_steps_spec [engineMW; mw] (C_Steps cfg) ∅ []) as Hb.
  destruct (bind_steps _ _ _ _) as [[steps topo]|e]; [|done]. intros [= <-] [bs Hbs]. simpl in Hbs.
  destruct Hb as (_ & _ & _ & _ & Hin & _). apply Hin in Hbs as [Hbs|(sc & Hsc & <- & _)].
  - by rewrite lookup_empty in Hbs.
  - by apply list_elem_of_fmap_2.
Qed.

(** A pipeline and steps that nothing owns register. *)
Lemma register_new r d :
  reg_ok r → Frozen.Get (pipelines r) (C_ID (bd_cfg d)) = None →
  (∀ id, is_Some (bd_steps d !! id) → Frozen.Get (stepOwner r) id = None) →
  ∃ r', register r d = Some (Ok r') ∧ reg_ok r' ∧
    (∀ p, Frozen.Get (pipelines r') p =
       if decide (p = C_ID (bd_cfg d)) then Some d else Frozen.Get (pipelines r) p) ∧
    ∀ id, is_Some (Frozen.Get (stepOwner r') id) →
      is_Some (bd_steps d !! id) ∨ is_Some (Frozen.Get (stepOwner r) id).
Proof.
  intros Hr Hp Hs. destruct (register_ok r d Hr) as (res & Hres & Hok). revert Hres.
  unfold register. rewrite (ro_started _ Hr), Hp.
  pose proof (step_ids_elem d) as Hids.
  rewrite (proj2 (find_owned_None _ _)) by (intros id ?%Hids; by apply Hs).
  destruct (ro_thawed _ Hr) as [Hfp Hfo]. unfold Frozen.Put. rewrite Hfp.
  destruct (put_owners_spec (stepOwner r) (C_ID (bd_cfg d)) (map_to_list (bd_steps d)).*1 Hfo)
    as (os & -> & _ & Hg).
  intros [= <-]. eexists. split; [done|]. split; [by apply Hok|]. split.
  - intros p. unfold Frozen.Get. simpl. rewrite lookup_insert. by repeat case_decide.
  - intros id. simpl. rewrite Hg. case_decide as Hin; [left; by apply Hids|by right].
Qed.

(** C33: a definition binds exactly when it is well formed: a usable id, usable
    mutex names, no nil middleware, at least one step, and steps with usable
    distinct ids, a run adapter, and an unwind adapter exactly where unwind is
    declared.  The bound topology is the steps in order, and each step's operations
    are its adapters under the engine's middleware, then the pipeline's. *)
Theorem bindDefinition_correct cfg engineMW :
  match bindDefinition cfg engineMW with
  | Err _ => ¬ well_formed cfg
  | Ok d =>
    well_formed cfg ∧ bd_cfg d = cfg ∧ bd_topo d = ledger_step <$> C_Steps cfg ∧
    ∃ mw, C_Middleware cfg = Some <$> mw ∧
      ∀ sc, sc ∈ C_Steps cfg → ∃ bs, bd_steps d !! S_ID sc = Some bs ∧ bs_Step bs = sc ∧
        (∀ run, S_Run sc = Some run →
           bs_forward bs = wrap_chain engineMW (wrap_chain mw run)) ∧
        (bs_unwind bs = (λ uf, wrap_chain engineMW (wrap_chain mw uf)) <$> S_UnwindFunc sc)
  end.
Proof. apply bindDefinition_spec. Qed.

(** In every registry built before Start no registration panics, a step belongs
    to one pipeline, and once started nothing registers. *)
Theorem steps_owned_once r :
  registered r →
  (∀ d, is_Some (register r d)) ∧
  (∀ p q d e id, Frozen.Get (pipelines r) p = Some d → Frozen.Get (pipelines r) q = Some e →
     is_Some (bd_steps d !! id) → is_Some (bd_steps e !! id) → p = q) ∧
  (∀ r' d, start_registry r = Ok r' → register r' d = Some (Err ErrStarted)).
Proof.
  intros Hr%registered_ok. split; [|split].
  - intros d. destruct (register_ok r d Hr) as (res & -> & _). by eexists.
  - intros p q d e id Hd He Hid Hie. pose proof (ro_owner _ Hr _ _ _ Hd Hid).
    pose proof (ro_owner _ Hr _ _ _ He Hie). congruence.
  - intros r' d. unfold start_registry. rewrite (ro_started _ Hr). by intros [= <-].
Qed.

(** C34: the exclusion sets Start resolves are the pipelines sharing a mutex, symmetrically,
    whatever order the maps are visited in; and from whatever the in-memory store holds
    when the deployment starts, as long as runs are admitted under those sets, the only
    pairs of live runs of one resource whose pipelines are the same or share a mutex are
    pairs of that kind that were there at the start, admitted by an earlier deployment
    with other mutexes: none is added, and where there was none there is never one. *)
Theorem deployment_exclusion r s0 s :
  let excl := excludes_of (resolveMutexes r) in
  mem_ok s0 → rtc (mem_step excl) s0 s →
  (∀ id1 id2, overlap excl s id1 id2 → overlap excl s0 id1 id2) ∧
  (exclusive excl s0 → exclusive excl s) ∧
  (∀ p q, q ∈ excl p ↔ p = q ∨ ∃ d e m,
     Frozen.Get (pipelines r) p = Some d ∧ Frozen.Get (pipelines r) q = Some e ∧
     m ∈ C_Mutexes (bd_cfg d) ∧ m ∈ C_Mutexes (bd_cfg e)).
Proof.
  intros excl Hok Hr. assert (∀ p q, q ∈ excl p → p ∈ excl q) as Hsym.
  { intros p q. unfold excl. rewrite !excludes_of_resolved. naive_solver. }
  assert (∀ id1 id2, overlap excl s id1 id2 → overlap excl s0 id1 id2) as Ho
    by (intros ??; by apply overlap_steps).
  split; [done|]. split; [|intros p q; apply excludes_of_resolved].
  rewrite !exclusive_overlap. intros Hno id1 id2 Hs. by eapply Hno, Ho.
Qed.
End definition.

(** ** Witnesses: two pipelines sharing the mutex "disk" *)

Definition ex_step (id : string) : Step (H:=nat) := mkStep id false false false "" (Some 1) None.
Definition ex_config (id : string) : Config (H:=nat) :=
  mkConfig id [ex_step (id +:+ ".a"); ex_step (id +:+ ".b")] ["disk"] "" "" [] false false false.
Definition ex_register (r : Registry (H:=nat)) (id : string) : Registry (H:=nat) :=
  match bindDefinition (ex_config id) [] with
  | Ok d => match register r d with Some (Ok r') => r' | _ => r end
  | Err _ => r
  end.
Definition ex_registry : Registry (H:=nat) := ex_register (ex_register empty_registry "p") "q".

Lemma ex_registered : registered ex_registry.
Proof.
  unfold ex_registry, ex_register at 1.
  destruct (bindDefinition (ex_config "q") []) as [d|e] eqn:Hd; [|discriminate Hd].
  destruct (register (ex_register empty_registry "p") d) as [[r'|]|] eqn:Hr.
  - eapply registered_step; [|exact Hr]. unfold ex_register.
    destruct (bindDefinition (ex_config "p") []) as [d'|e'] eqn:Hd'; [|discriminate Hd'].
    destruct (register empty_registry d') as [[r''|]|] eqn:Hr'; [|constructor..].
    eapply registered_step; [constructor|exact Hr'].
  - vm_compute in Hd. injection Hd as <-. vm_compute in Hr. discriminate Hr.
  - vm_compute in Hd. injection Hd as <-. vm_compute in Hr. discriminate Hr.
Qed.

Lemma steps_owned_once_witness :
  register (resolveMutexes (mkRegistry true (Frozen.Freeze (pipelines ex_registry))
    (Frozen.Freeze (stepOwner ex_registry))))
    (mkBoundDef (ex_config "z") ∅ [] []) = Some (Err ErrStarted).
Proof.
  destruct (steps_owned_once ex_registry ex_registered) as (_ & _ & Hs). apply Hs. reflexivity.
Defined.

(** Two runs of one machine that an earlier deployment, without the mutex, let overlap: a
    new run on the machine is refused, and no third run overlaps with them. *)
Definition ex_record (id p : string) : RunRecord :=
  mkRun id p "m" ∅ None PhaseForward ∅ None None None time_zero None None "" "" time_zero None
    10 10 time_zero.
Definition ex_earlier : MemStore :=
  (mem_CreateRun (mem_CreateRun MemStore.New (ex_record "ra" "p") ["p"]).1 (ex_record "rb" "q") ["q"]).1.
Definition ex_excludes := excludes_of (resolveMutexes ex_registry).
Definition ex_refusal := mem_CreateRun ex_earlier (ex_record "rc" "p") (ex_excludes "p").

Lemma ex_earlier_ok : mem_ok ex_earlier.
Proof.
  assert (∀ id p, nul_free p → Terminal (ex_record id p) = false ∧ nul_free (Run_PipelineID (ex_record id p)))
    as Hrec by done.
  unfold ex_earlier. apply mem_Create_preserves; [apply mem_Create_preserves|done| |vm_compute; reflexivity];
    [eapply mem_reach_ok, reach_new|done| |vm_compute; reflexivity|]; (simpl; repeat split; discriminate).
  Unshelve. exact ex_excludes.
Qed.

Lemma deployment_exclusion_witness :
  "q" ∈ ex_excludes "p" ∧ overlap ex_excludes ex_earlier "ra" "rb" ∧
  ex_refusal.2 = Ok (Some (ex_record "ra" "p"), false) ∧
  ∀ id, overlap ex_excludes ex_refusal.1 "rc" id → overlap ex_excludes ex_earlier "rc" id.
Proof.
  destruct (deployment_exclusion ex_registry ex_earlier ex_refusal.1) as (Ho & _ & He).
  - apply ex_earlier_ok.
  - apply rtc_once, (step_create _ _ (ex_record "rc" "p")); [done| |vm_compute; reflexivity].
    simpl. repeat split; discriminate.
  - assert ("q" ∈ ex_excludes "p") as Hpq.
    { apply He. right. eexists _, _, "disk". split; [reflexivity|]. split; [reflexivity|]. split; left. }
    split; [exact Hpq|]. split.
    { split; [done|]. exists (ex_record "ra" "p"), (ex_record "rb" "q").
      split_and!; try (vm_compute; reflexivity). by right. }
    split; [vm_compute; reflexivity|]. intros id. apply Ho.
Defined.

