(* ===== verification/Engine.v ===== *)
(** * Engine: the run engine (engine/engine.go, and the parts of engine/pipeline.go,
    engine/run.go and engine/invocation.go that change or read its state)

    The engine's shared state is [World]; a method is a function of a small state
    monad [M] over it, and takes and returns the run record where the code mutates
    it through a pointer.  A worker's code runs as one piece: what other goroutines
    do in the meantime enters through the handler call, which may change the world
    (cancel requests, a stop, other runs, the clock).

    Parameters: the store ([Store S]), the bound definitions, the handlers and the
    reducers (their outcomes, with serialized messages), the retry backoff (float64
    arithmetic and math/rand) and the identifiers of new runs.  A panic of a
    component is the event [EvPanic].  Log lines are left out. *)
From stdpp Require Import pretty.
From S2P Require Import Signals TokenPool RunPool JoinSet MemStore Binding.
From S2P Require Import Prelude Kernel Text Errors Ledger Driver.

(** Why a run is invalid: the texts of markInvalid, unformatted. *)
Inductive invalid_reason :=
| PipelineNotRegistered (p : PipelineID)
| UnexpectedPhase (p : Phase)
| LedgerReason (reason : string)
| AwaitNoTargets
| AwaitEmptyRunID
| AwaitCycle (targets : list RunID)
| Violation (msg : string)
| NilState
| StateNotSerializable (msg : string)
| ReducerPanic (what msg : string)
| NilOutput (what : string)
| OutputNotSerializable (what msg : string).
#[export] Instance invalid_reason_eq_dec : EqDecision invalid_reason.
Proof. solve_decision. Defined.

Record InvalidRunError := mkInvalidRunError {
  Ie_RunID : RunID;
  Ie_PipelineID : PipelineID;
  Ie_Reason : invalid_reason;
}.

(** The cause of a canceled attempt context. *)
Inductive ctx_cause := CauseStopping | CausePreempted (cause : string).

Record attemptHandle := mkAttempt {
  at_phase : Phase;
  at_cause : option ctx_cause;
}.

(** The fields of an invocation a handler reads. *)
Record Invocation := mkInvocation {
  inv_pipelineID : PipelineID;
  inv_resourceID : ResourceID;
  inv_runID : RunID;
  inv_stepID : StepID;
  inv_attempt : Z;
  inv_phase : Phase;
  inv_input : bytes;
  inv_states : gmap StepID string;
  inv_annotations : gmap string string;
  inv_awaited : option Wake;
  inv_failure : option Failure;
}.

(** A message a handler or reducer returned: nil (or typed nil), not serializable,
    or its bytes. *)
Inductive message := MsgNil | MsgBad (err : string) | MsgBytes (b : string).

(** What a handler call ended with: a panic, or its results; the violation is what
    it reported through the invocation. *)
Record outcome := mkOutcome {
  o_panic : option string;
  o_state : message;
  o_err : option goerr;
  o_violation : option string;
}.

Record reduceView := mkView {
  v_input : bytes;
  v_states : gmap StepID string;
  v_failure : option Failure;
  v_unwindFailures : gmap StepID Failure;
}.
Record reduceOutcome := mkReduceOutcome {
  r_panic : option string;
  r_out : message;
  r_violation : option string;
}.

Inductive AttemptResult :=
| AttemptSucceeded | AttemptRetrying | AttemptFailed | AttemptAwaiting | AttemptCanceled
| AttemptInterrupted.

(** What the engine does besides its state: calls to the dispatcher, broadcasts,
    handler calls, observer events. *)
Inductive event :=
| EvDispatch (id : RunID) (delay : Duration)
| EvWake (id : RunID)
| EvNotify (id : RunID)
| EvTimer (id : RunID) (timer : nat) (remaining : Duration)
| EvInvoke (inv : Invocation)
| EvAttempt (id : RunID) (step : StepID) (phase : Phase) (attempt : Z) (r : AttemptResult)
    (retryIn : Duration)
| EvRunScheduled (id : RunID)
| EvRunUnwinding (id : RunID) (step : StepID) (kind : FailureKind)
| EvRunTerminal (id : RunID) (oc : option Outcome)
| EvRunInvalid (id : RunID) (step : StepID) (reason : invalid_reason)
| EvClassWait (id : RunID) (class : string) (waited : Duration)
| EvWaiterWoken (id : RunID) (done : list RunID) (expired : bool)
| EvRunsReaped (n : Z)
| EvPanic.

Record World (S : Type) := mkWorld {
  w_store : S;
  w_now : Time;
  w_pool : TokenPool.Pool (K:=string) (W:=RunID);
  w_runs : RunPool.Pool (K:=string) (W:=RunID) (O:=string);
  w_joins : JoinSet.JoinSet (K:=RunID) (W:=RunID);
  w_timers : gmap RunID nat;
  w_nextTimer : nat;
  w_invalid : gmap RunID InvalidRunError;
  w_attempts : gmap RunID attemptHandle;
  w_pendingPreempt : gmap RunID string;
  w_dirty : gset RunID;
  w_stopped : bool;
  w_draining : bool;
  w_trace : list event;
}.
Arguments mkWorld {S}.
Arguments w_store {S}. Arguments w_now {S}. Arguments w_pool {S}. Arguments w_runs {S}.
Arguments w_joins {S}. Arguments w_timers {S}. Arguments w_nextTimer {S}.
Arguments w_invalid {S}. Arguments w_attempts {S}. Arguments w_pendingPreempt {S}.
Arguments w_dirty {S}. Arguments w_stopped {S}. Arguments w_draining {S}.
Arguments w_trace {S}.

(** ** The monad *)

Definition M (S A : Type) : Type := World S → World S * A.
#[export] Instance M_ret S : MRet (M S) := λ A x w, (w, x).
Definition bind {S A B} (m : M S A) (f : A → M S B) : M S B :=
  λ w, let '(w', x) := m w in f x w'.

Declare Scope engine_scope.
Notation "x ← y ; z" := (bind y (λ x : _, z))
  (at level 20, y at level 100, z at level 200, only parsing) : engine_scope.
Notation "x ;; z" := (bind x (λ _, z))
  (at level 100, z at level 200, only parsing, right associativity) : engine_scope.
#[local] Open Scope engine_scope.

Section fields.
Context {S : Type}.
Implicit Types (w : World S).
Definition set_store (x : S) w : World S :=
  mkWorld x (w_now w) (w_pool w) (w_runs w) (w_joins w) (w_timers w) (w_nextTimer w)
    (w_invalid w) (w_attempts w) (w_pendingPreempt w) (w_dirty w) (w_stopped w)
    (w_draining w) (w_trace w).
Definition set_pool x w : World S :=
  mkWorld (w_store w) (w_now w) x (w_runs w) (w_joins w) (w_timers w) (w_nextTimer w)
    (w_invalid w) (w_attempts w) (w_pendingPreempt w) (w_dirty w) (w_stopped w)
    (w_draining w) (w_trace w).
Definition set_runs x w : World S :=
  mkWorld (w_store w) (w_now w) (w_pool w) x (w_joins w) (w_timers w) (w_nextTimer w)
    (w_invalid w) (w_attempts w) (w_pendingPreempt w) (w_dirty w) (w_stopped w)
    (w_draining w) (w_trace w).
Definition set_joins x w : World S :=
  mkWorld (w_store w) (w_now w) (w_pool w) (w_runs w) x (w_timers w) (w_nextTimer w)
    (w_invalid w) (w_attempts w) (w_pendingPreempt w) (w_dirty w) (w_stopped w)
    (w_draining w) (w_trace w).
Definition set_timers x n w : World S :=
  mkWorld (w_store w) (w_now w) (w_pool w) (w_runs w) (w_joins w) x n
    (w_invalid w) (w_attempts w) (w_pendingPreempt w) (w_dirty w) (w_stopped w)
    (w_draining w) (w_trace w).
Definition set_invalid x w : World S :=
  mkWorld (w_store w) (w_now w) (w_pool w) (w_runs w) (w_joins w) (w_timers w) (w_nextTimer w)
    x (w_attempts w) (w_pendingPreempt w) (w_dirty w) (w_stopped w) (w_draining w) (w_trace w).
Definition set_attempts x w : World S :=
  mkWorld (w_store w) (w_now w) (w_pool w) (w_runs w) (w_joins w) (w_timers w) (w_nextTimer w)
    (w_invalid w) x (w_pendingPreempt w) (w_dirty w) (w_stopped w) (w_draining w) (w_trace w).
Definition set_pendingPreempt x w : World S :=
  mkWorld (w_store w) (w_now w) (w_pool w) (w_runs w) (w_joins w) (w_timers w) (w_nextTimer w)
    (w_invalid w) (w_attempts w) x (w_dirty w) (w_stopped w) (w_draining w) (w_trace w).
Definition set_dirty x w : World S :=
  mkWorld (w_store w) (w_now w) (w_pool w) (w_runs w) (w_joins w) (w_timers w) (w_nextTimer w)
    (w_invalid w) (w_attempts w) (w_pendingPreempt w) x (w_stopped w) (w_draining w) (w_trace w).
Definition set_stopped x w : World S :=
  mkWorld (w_store w) (w_now w) (w_pool w) (w_runs w) (w_joins w) (w_timers w) (w_nextTimer w)
    (w_invalid w) (w_attempts w) (w_pendingPreempt w) (w_dirty w) x (w_draining w) (w_trace w).
Definition set_draining x w : World S :=
  mkWorld (w_store w) (w_now w) (w_pool w) (w_runs w) (w_joins w) (w_timers w) (w_nextTimer w)
    (w_invalid w) (w_attempts w) (w_pendingPreempt w) (w_dirty w) (w_stopped w) x (w_trace w).
Definition set_trace x w : World S :=
  mkWorld (w_store w) (w_now w) (w_pool w) (w_runs w) (w_joins w) (w_timers w) (w_nextTimer w)
    (w_invalid w) (w_attempts w) (w_pendingPreempt w) (w_dirty w) (w_stopped w) (w_draining w) x.

Definition get : M S (World S) := λ w, (w, w).
Definition modify (f : World S → World S) : M S unit := λ w, (f w, tt).
Definition emit (e : event) : M S unit := modify (λ w, set_trace (w_trace w ++ [e]) w).
Definition dispatch (id : RunID) (delay : Duration) : M S unit := emit (EvDispatch id delay).
Definition now : M S Time := λ w, (w, w_now w).
Fixpoint for_each {A} (l : list A) (f : A → M S unit) : M S unit :=
  match l with [] => mret tt | x :: l => f x ;; for_each l f end.
(** A component operation that returns [None] where it would panic. *)
Definition or_panic {A} (x : option A) (f : A → M S unit) : M S unit :=
  match x with Some a => f a | None => emit EvPanic end.
Definition kick (x : option RunID) : M S unit :=
  match x with Some id => dispatch id 0 | None => mret tt end.
End fields.

(** ** Pure helpers on records *)

Definition opState (s : Driver.OpStatus) : Ledger.OpState :=
  match s with
  | Driver.OpUnresolved => Ledger.OpUnresolved
  | Driver.OpSucceeded => Ledger.OpSucceeded
  | Driver.OpFailed => Ledger.OpFailed
  | Driver.OpNone => Ledger.OpNone
  end.
Definition factsOf (rec : RunRecord) : Facts :=
  mkFacts ((λ sr, opState (Op_Status (SR_Forward sr))) <$> Run_Steps rec)
    ((λ sr, opState (Op_Status (SR_Unwind sr))) <$> Run_Steps rec).

Definition hasUnresolvedOp (rec : RunRecord) : bool :=
  existsb (λ e, bool_decide (Op_Status (SR_Forward e.2) = Driver.OpUnresolved) ||
                bool_decide (Op_Status (SR_Unwind e.2) = Driver.OpUnresolved))
    (map_to_list (Run_Steps rec)).

Definition committedStates (rec : RunRecord) : gmap StepID string :=
  omap (λ sr, if bool_decide (Op_Status (SR_Forward sr) = Driver.OpSucceeded)
              then Op_State (SR_Forward sr) else None) (Run_Steps rec).
Definition unwindFailuresByStep (rec : RunRecord) : gmap StepID Failure :=
  omap (λ sr, if bool_decide (Op_Status (SR_Unwind sr) = Driver.OpFailed)
              then Op_Failure (SR_Unwind sr) else None) (Run_Steps rec).

Definition activeCursor (rec : RunRecord) (stepID : StepID) (attempts : Z) : Cursor :=
  mkCursor (Run_Phase rec) stepID attempts (Run_Awaiting rec) (Run_Awaited rec)
    (Run_NextAttemptAt rec) (Run_LastError rec) (Run_LastReason rec) (Run_LastErrorAt rec)
    time_zero (Run_StartedAt rec).
Definition idleCursor (rec : RunRecord) : Cursor := activeCursor rec "" 0.

Definition clearLastError (rec : RunRecord) : RunRecord :=
  set_LastErrorAt time_zero (set_LastReason "" (set_LastError "" rec)).

Definition settleAwait (rec : RunRecord) (done : list RunID) (expired : bool) : RunRecord :=
  let targets := match Run_Awaiting rec with Some p => Await_Targets p | None => [] end in
  set_Awaiting None (set_Awaited (Some (mkWake targets done expired)) rec).

Definition awaitNeed (park : Await) : Z :=
  match Await_Mode park with
  | AwaitModeAny => 1
  | _ => Z.of_nat (length (Await_Targets park))
  end.

Definition eligibleSince (rec : RunRecord) : Time :=
  if After (Run_NextAttemptAt rec) (Run_CreatedAt rec) then Run_NextAttemptAt rec
  else Run_CreatedAt rec.

(** [fmt]'s [%020d]. *)
Definition zeros (n : nat) : string := String.string_of_list_ascii (repeat "0"%char n).
Definition pad (width : nat) (s : string) : string := zeros (width - String.length s) +:+ s.
Definition format020d (z : Z) : string :=
  if (z <? 0)%Z then "-" +:+ pad 19 (pretty (Z.to_N (- z))) else pad 20 (pretty (Z.to_N z)).
Definition eligibilityKey (rec : RunRecord) : string :=
  format020d (UnixNano (eligibleSince rec)) +:+ "/" +:+ Run_RunID rec.

Definition retryGate (rec : RunRecord) (now : Time) : option Duration :=
  if IsZero (Run_NextAttemptAt rec) then None
  else if Before now (Run_NextAttemptAt rec) then Some (TimeSub (Run_NextAttemptAt rec) now)
  else None.

(** Any unresolved operation the transition covers neither by its cursor nor by a
    write is flushed as a row. *)
Definition covered (ops : list OpWrite) (id : StepID) (phase : Phase) : bool :=
  existsb (λ ow, bool_decide (OpWrite_StepID ow = id) && bool_decide (OpWrite_Phase ow = phase))
    ops.
Definition flush_op (id : StepID) (sr : StepRecord) (ops : list OpWrite) (phase : Phase)
    : list OpWrite :=
  let op := Op sr phase in
  if bool_decide (Op_Status op ≠ Driver.OpUnresolved) then ops
  else if covered ops id phase then ops
  else ops ++ [mkOpWrite id phase op].
Definition flush_step (cursor : StepID) (ops : list OpWrite) (e : StepID * StepRecord)
    : list OpWrite :=
  let '(id, sr) := e in
  if bool_decide (id = cursor) then ops
  else foldl (flush_op id sr) ops [PhaseForward; PhaseUnwind].
Definition flush (ord : list (StepID * StepRecord)) (cursor : StepID) (ops : list OpWrite)
    : list OpWrite := foldl (flush_step cursor) ops ord.

Definition set_cursor_updated (t : Time) (c : Cursor) : Cursor :=
  mkCursor (Cursor_Phase c) (Cursor_StepID c) (Cursor_Attempts c) (Cursor_Awaiting c)
    (Cursor_Awaited c) (Cursor_NextAttemptAt c) (Cursor_LastError c) (Cursor_LastReason c)
    (Cursor_LastErrorAt c) t (Cursor_StartedAt c).
(** The transition [apply] hands the store at time [t]. *)
Definition full_transition (rec : RunRecord) (now : Time) (t : Transition) : Transition :=
  mkTransition (set_cursor_updated now (T_Cursor t))
    (flush (map_to_list (Run_Steps rec)) (Cursor_StepID (T_Cursor t)) (T_Ops t))
    (T_Failure t) (T_Output t) (T_Outcome t).

(** ** The engine *)

Section engine.
Context {S H : Type} `{Store S}.

(** The configuration, and the external code. *)
Record Config := mkEngineConfig {
  e_textLimit : Z;
  e_recoveryBackoff : Duration;
  e_terminalAfter : Duration;
  e_runClassQueue : gmap string Z;
  e_defs : Registry (H:=H);
  (** the handlers: what a call does to the world, and ends with *)
  e_call : H → Invocation → World S → World S * outcome;
  e_reduce : PipelineID → reduceView → reduceOutcome;
  e_reduceFailure : PipelineID → reduceView → reduceOutcome;
  e_backoff : Z → Duration;
  e_newRunID : Time → RunID;
}.
Context (cfg : Config).

Abbreviation M := (M S).
Definition boundText (s : string) : string := Text.boundText (e_textLimit cfg) s.
Definition definition (p : PipelineID) : option (boundDef (H:=H)) :=
  Frozen.Get (Binding.pipelines (e_defs cfg)) p.

(** *** Run classes and concurrency classes *)

Definition runClassOf (p : PipelineID) : string :=
  match definition p with Some d => Binding.C_RunClass (bd_cfg d) | None => "" end.

Definition acquireRunClass (rec : RunRecord) (d : boundDef (H:=H)) : M bool :=
  let rc := Binding.C_RunClass (bd_cfg d) in
  if bool_decide (rc = "") || negb (IsZero (Run_StartedAt rec)) then mret true
  else
    w ← get;
    let wasQueued := RunPool.ParkedOn (w_runs w) (Run_RunID rec) in
    let '(runs, granted, k) :=
      RunPool.Acquire String.le (w_runs w) rc (Run_RunID rec) (eligibilityKey rec) in
    modify (set_runs runs);; kick k;;
    if negb granted then mret false
    else
      (match wasQueued with
       | Some _ => emit (EvClassWait (Run_RunID rec) rc (TimeSub (w_now w) (eligibleSince rec)))
       | None => mret tt
       end);;
      mret true.

Definition releaseRunClass (id : RunID) : M unit :=
  w ← get;
  or_panic (RunPool.Release (w_runs w) id) (λ '(runs, k), modify (set_runs runs);; kick k).

Definition acquireClass (rec : RunRecord) (class : string) : M (bool * bool * Duration) :=
  w ← get;
  let '(pool, g) :=
    TokenPool.Acquire (w_pool w) class (Run_RunID rec) (bool_decide (class = "")) (w_now w) in
  modify (set_pool pool);;
  for_each (g_kicks g) (λ id, dispatch id 0);;
  mret (g_granted g, g_held g, g_waited g).

Definition releaseClass (class : string) : M unit :=
  w ← get;
  or_panic (TokenPool.Release (w_pool w) class) (λ '(pool, k), modify (set_pool pool);; kick k).

Definition clearClassWait (id : RunID) : M unit :=
  w ← get;
  let '(pool, k) := TokenPool.Clear (w_pool w) id in
  modify (set_pool pool);; kick k.

(** *** Attempts and their preemption *)

(** [cancel(cause)] of an attempt's context: the first cause stays. *)
Definition cancel_attempt (c : ctx_cause) (a : attemptHandle) : attemptHandle :=
  match at_cause a with Some _ => a | None => mkAttempt (at_phase a) (Some c) end.

(** [attemptContext], its registration; a derived context of a stopped base is
    born canceled. *)
Definition attemptContext (id : RunID) (phase : Phase) : M unit :=
  modify (λ w,
    let a := mkAttempt phase (if w_stopped w then Some CauseStopping else None) in
    let a := match w_pendingPreempt w !! id with
             | Some cause =>
               if bool_decide (phase = PhaseForward) then cancel_attempt (CausePreempted cause) a
               else a
             | None => a
             end in
    set_pendingPreempt (delete id (w_pendingPreempt w))
      (set_attempts (<[id := a]> (w_attempts w)) w)).
Definition attemptDone (id : RunID) : M unit :=
  modify (λ w, set_attempts (delete id (w_attempts w)) w).

Definition preemptAttempt (id : RunID) (cause : string) : M unit :=
  modify (λ w,
    match w_attempts w !! id with
    | None => set_pendingPreempt (<[id := cause]> (w_pendingPreempt w)) w
    | Some a =>
      if bool_decide (at_phase a = PhaseForward)
      then set_attempts (<[id := cancel_attempt (CausePreempted cause) a]> (w_attempts w)) w
      else w
    end).

(** The cancellation of the base context by [Stop]: it reaches every attempt. *)
Definition cancelBase : M unit :=
  modify (λ w, set_stopped true
    (set_attempts (cancel_attempt CauseStopping <$> w_attempts w) w)).

Definition preemptedBy (c : option ctx_cause) : option string :=
  match c with Some (CausePreempted cause) => Some cause | _ => None end.
Definition stoppedBy (c : option ctx_cause) : bool :=
  match c with Some CauseStopping => true | _ => false end.

Definition call_handler (h : H) (inv : Invocation) : M (outcome * option ctx_cause) :=
  attemptContext (inv_runID inv) (inv_phase inv);;
  emit (EvInvoke inv);;
  o ← e_call cfg h inv;
  w ← get;
  let cause := w_attempts w !! inv_runID inv ≫= at_cause in
  attemptDone (inv_runID inv);;
  mret (o, cause).

Record invoked := mkInvoked {
  i_state : message;
  i_panicked : bool;
  i_interrupted : bool;
  i_preempted : option string;
  i_err : option goerr;
  i_violation : option string;
}.
Definition plain (msg : string) : goerr := EOther msg None None [].

(** [invokeForward] and [invokeUnwind]; a recovered panic leaves the results that
    the return statement would have set at their zero values. *)
Definition invokeForward (h : H) (inv : Invocation) : M invoked :=
  r ← call_handler h inv;
  let '(o, cause) := r in
  mret match o_panic o with
       | Some p => mkInvoked MsgNil true false None (Some (plain ("handler panic: " +:+ p)))
                     (o_violation o)
       | None => mkInvoked (o_state o) false (stoppedBy cause) (preemptedBy cause) (o_err o)
                   (o_violation o)
       end.
Definition invokeUnwind (h : H) (inv : Invocation) : M invoked :=
  r ← call_handler h inv;
  let '(o, cause) := r in
  mret match o_panic o with
       | Some p => mkInvoked MsgNil true false None
                     (Some (plain ("unwind handler panic: " +:+ p))) (o_violation o)
       | None => mkInvoked MsgNil false (stoppedBy cause) None (o_err o) (o_violation o)
       end.

(** *** Parks *)

(** [unpark]: whether the run was registered. *)
Definition unpark (id : RunID) : M (option Time) :=
  w ← get;
  let '(joins, since) := JoinSet.Remove (w_joins w) id in
  modify (λ w, set_timers (delete id (w_timers w)) (w_nextTimer w) (set_joins joins w));;
  mret since.

(** [wake], which settles the park into the record. *)
Definition wake (rec : RunRecord) (done : list RunID) (expired : bool) : M RunRecord :=
  since ← unpark (Run_RunID rec);
  (match since with
   | Some _ => emit (EvWaiterWoken (Run_RunID rec) done expired)
   | None => mret tt
   end);;
  mret (settleAwait rec done expired).

Definition awaitTargetDone (target : RunID) : M unit :=
  w ← get;
  or_panic (JoinSet.Complete (w_joins w) target)
    (λ '(joins, kicks), modify (set_joins joins);; for_each kicks (λ id, dispatch id 0)).

Definition targetDone (target : RunID) : M (result StoreError bool) :=
  w ← get;
  mret match GetRunHead (w_store w) target with
       | Err ErrRunNotFound => Ok true
       | Err e => Err e
       | Ok r => Ok (Terminal r)
       end.

(** [awaitCycle]: the walk of the await graph on the heads of the store [s], with
    the stack's last element first.  The outer recursion is on the bound on the
    visited runs, the inner on the stack. *)
Definition maxVisited : nat := 1024.
Fixpoint cycle_walk (s : S) (self : RunID) (budget : nat) : gset RunID → list RunID →
    result StoreError bool :=
  fix walk (visited : gset RunID) (stack : list RunID) : result StoreError bool :=
    match stack with
    | [] => Ok false
    | cur :: stack =>
      match budget with
      | 0 => Ok false
      | Datatypes.S budget =>
        if decide (cur = self) then Ok true
        else if decide (cur ∈ visited) then walk visited stack
        else
          match GetRunHead s cur with
          | Err ErrRunNotFound => cycle_walk s self budget ({[cur]} ∪ visited) stack
          | Err e => Err e
          | Ok rec =>
            match Terminal rec, Run_Awaiting rec with
            | false, Some park =>
              cycle_walk s self budget ({[cur]} ∪ visited) (rev (Await_Targets park) ++ stack)
            | _, _ => cycle_walk s self budget ({[cur]} ∪ visited) stack
            end
          end
      end
    end.
Definition awaitCycle (self : RunID) (targets : list RunID) : M (result StoreError bool) :=
  w ← get; mret (cycle_walk (w_store w) self maxVisited ∅ (rev targets)).

(** *** Invalidity *)

Definition markInvalid (rec : RunRecord) (stepID : StepID) (reason : invalid_reason) : M unit :=
  w ← get;
  if bool_decide (Ie_Reason <$> w_invalid w !! Run_RunID rec = Some reason) then mret tt
  else
    let id := Run_RunID rec in
    modify (set_invalid (<[id := mkInvalidRunError id (Run_PipelineID rec) reason]> (w_invalid w)));;
    clearClassWait id;;
    w ← get;
    or_panic (RunPool.Clear (w_runs w) id) (λ '(runs, k), modify (set_runs runs);; kick k);;
    emit (EvRunInvalid id stepID reason);;
    unpark id;;
    emit (EvNotify id).

(** *** Transitions *)

Definition apply (rec : RunRecord) (t : Transition) : M (RunRecord * bool) :=
  w ← get;
  let rec := set_UpdatedAt (w_now w) rec in
  let '(s, res) :=
    ApplyTransition (w_store w) (Run_RunID rec) (full_transition rec (w_now w) t) in
  modify (set_store s);;
  mret (rec, match res with Ok _ => true | Err _ => false end).

Definition markStarted (rec : RunRecord) (now : Time) : RunRecord :=
  if IsZero (Run_StartedAt rec) then set_StartedAt now rec else rec.

(** [completeRun]. *)
Definition completeRun (rec : RunRecord) : M unit :=
  emit (EvRunTerminal (Run_RunID rec) (Run_Outcome rec));;
  releaseRunClass (Run_RunID rec);;
  modify (λ w, set_pendingPreempt (delete (Run_RunID rec) (w_pendingPreempt w)) w);;
  emit (EvNotify (Run_RunID rec));;
  awaitTargetDone (Run_RunID rec).

Definition requestCancel (id : RunID) (cause : string) : M (result StoreError unit) :=
  let cause := boundText cause in
  w ← get;
  let '(s, res) := RequestCancel (w_store w) id (mkCancel cause (w_now w)) in
  modify (set_store s);;
  match res with
  | Err e => mret (Err e)
  | Ok false => mret (Ok tt)
  | Ok true =>
    modify (λ w, set_dirty (DirtySet.Mark (w_dirty w) id) w);;
    preemptAttempt id cause;;
    emit (EvWake id);;
    dispatch id 0;;
    mret (Ok tt)
  end.

(** The cause [cancelOperation] records, and its reason. *)
Definition cancel_cause (rec : RunRecord) (preempted : option string) : string :=
  match Run_Cancel rec, preempted with
  | Some c, p =>
    if bool_decide (Cancel_Cause c ≠ "") then Cancel_Cause c
    else match p with
         | Some p => if bool_decide (p ≠ "") then p else "canceled"
         | None => "canceled"
         end
  | None, Some p => if bool_decide (p ≠ "") then p else "canceled"
  | None, None => "canceled"
  end.
Definition cancel_reason (err : option goerr) : string :=
  match err with
  | None => ""
  | Some _ =>
    match FailureInfo err with
    | (_, r, true) => r
    | (_, _, false) => FailureReason err
    end
  end.

(** The record [cancelOperation] applies, and its transition. *)
Definition canceled_record (rec : RunRecord) (stepID : StepID) (preempted : option string)
    (err : option goerr) (now : Time) : RunRecord :=
  let op := SR_Forward (Driver.Step rec stepID) in
  let f := mkFailure stepID PhaseForward (Op_Attempts op)
             (boundText (cancel_cause rec preempted)) now FailureKindCanceled
             (boundText (cancel_reason err)) in
  let r := put_Op stepID PhaseForward
             (mkOp Driver.OpFailed (Op_Attempts op) (Op_State op) (Op_Failure op) (Op_Order op)) rec in
  let r := set_Phase PhaseUnwind (set_Failure (Some f) r) in
  let r := set_NextAttemptAt time_zero r in
  let r := clearLastError (set_Awaited None (set_Awaiting None r)) in
  put_Op stepID PhaseForward
    (mkOp Driver.OpFailed (Op_Attempts op) (Op_State op) (Some f) (NextOrder r)) r.

Definition op_write (rec : RunRecord) (stepID : StepID) (phase : Phase) : OpWrite :=
  mkOpWrite stepID phase (Op (Driver.Step rec stepID) phase).

Definition cancelOperation (rec : RunRecord) (stepID : StepID) (preempted : option string)
    (err : option goerr) : M (RunRecord * bool) :=
  t ← now;
  let park := Run_Awaiting rec in
  (match park with Some _ => unpark (Run_RunID rec);; mret tt | None => mret tt end);;
  let cause := cancel_cause rec preempted in
  let rec := canceled_record rec stepID preempted err t in
  r ← apply rec (mkTransition (idleCursor rec) [op_write rec stepID PhaseForward]
                   (Run_Failure rec) None None);
  let '(rec, ok) := r in
  if negb ok then mret (rec, false)
  else
    (match park with
     | Some p =>
       if Await_CancelCascade p
       then for_each (Await_Targets p) (λ t, requestCancel t cause;; mret tt)
       else mret tt
     | None => mret tt
     end);;
    clearClassWait (Run_RunID rec);;
    (match err with
     | Some _ => emit (EvAttempt (Run_RunID rec) stepID PhaseForward
                         (Op_Attempts (SR_Forward (Driver.Step rec stepID))) AttemptCanceled 0)
     | None => mret tt
     end);;
    emit (EvRunUnwinding (Run_RunID rec) stepID FailureKindCanceled);;
    mret (rec, true).

(** *** The await gate *)

(** The first-run reads: every target observed done is marked; [false] on a read
    error. *)
Fixpoint mark_targets (id : RunID) (targets : list RunID) : M bool :=
  match targets with
  | [] => mret true
  | t :: targets =>
    d ← targetDone t;
    match d with
    | Err _ => mret false
    | Ok d =>
      (if d then modify (λ w, set_joins (JoinSet.Mark (w_joins w) id t) w) else mret tt);;
      mark_targets id targets
    end
  end.

(** The part of the gate after a fresh registration: the result the gate returns
    with at once, if any. *)
Definition gate_first (rec : RunRecord) (park : Await) : M (option (RunRecord * bool)) :=
  let id := Run_RunID rec in
  c ← awaitCycle id (Await_Targets park);
  match c with
  | Ok true =>
    unpark id;;
    markInvalid rec "" (AwaitCycle (Await_Targets park));;
    mret (Some (rec, true))
  | _ =>
    ok ← mark_targets id (Await_Targets park);
    if ok then mret None
    else
      w ← get;
      let done := (JoinSet.Done (w_joins w) id).1 in
      unpark id;;
      mret (Some (settleAwait rec done false, false))
  end.

(** The part of the gate that decides from the done targets and the deadline. *)
Definition gate_decide (rec : RunRecord) (park : Await) (need : Z) : M (RunRecord * bool) :=
  let id := Run_RunID rec in
  w ← get;
  let done := (JoinSet.Done (w_joins w) id).1 in
  if (need <=? Z.of_nat (length done))%Z then
    rec ← wake rec done false; mret (rec, false)
  else if IsZero (Await_Deadline park) then mret (rec, true)
  else
    let remaining := TimeSub (Await_Deadline park) (w_now w) in
    if (remaining <=? 0)%Z then
      rec ← wake rec done true; mret (rec, false)
    else
      (match w_timers w !! id with
       | Some _ => mret tt
       | None =>
         modify (set_timers (<[id := w_nextTimer w]> (w_timers w)) (w_nextTimer w + 1));;
         emit (EvTimer id (w_nextTimer w) remaining)
       end);;
      mret (rec, true).

(** [awaitGate]: whether the run stays parked. *)
Definition awaitGate (rec : RunRecord) : M (RunRecord * bool) :=
  match Run_Awaiting rec with
  | None => mret (rec, false)
  | Some park =>
    if bool_decide (Await_Targets park = []) then
      markInvalid rec "" AwaitNoTargets;; mret (rec, true)
    else
      let need := awaitNeed park in
      w ← get;
      let '(joins, fresh) :=
        JoinSet.Register (w_joins w) (Run_RunID rec) (Await_Targets park) need (w_now w) in
      modify (set_joins joins);;
      early ← (if fresh then gate_first rec park else mret None);
      match early with
      | Some r => mret r
      | None => gate_decide rec park need
      end
  end.

(** The deadline timer of a park: it pokes only if it is still the armed one. *)
Definition timerFired (id : RunID) (timer : nat) : M unit :=
  w ← get;
  if bool_decide (w_timers w !! id = Some timer) then dispatch id 0 else mret tt.

(** *** Operations *)

(** What [runForward] and [runUnwind] return: done, the delay, again. *)
Record ran := mkRan {
  ran_done : bool;
  ran_delay : Duration;
  ran_again : bool;
}.
Definition retry_store : ran := mkRan false second true.
Definition stopped_run : ran := mkRan false 0 false.
Definition reconcile : ran := mkRan true 0 false.

Definition parkAwait (rec : RunRecord) (stepID : StepID) (attempts : Z) (park : Await)
    (timeout : Duration) : M (RunRecord * ran) :=
  if bool_decide (Await_Targets park = []) then
    markInvalid rec stepID AwaitNoTargets;; mret (rec, stopped_run)
  else if bool_decide ("" ∈ Await_Targets park) then
    markInvalid rec stepID AwaitEmptyRunID;; mret (rec, stopped_run)
  else
    t ← now;
    let park := mkAwait (Await_Mode park) (Await_Targets park)
                  (if (0 <? timeout)%Z then TimeAdd t timeout else Await_Deadline park)
                  (Await_CancelCascade park) in
    let rec := set_Awaited None (set_Awaiting (Some park) rec) in
    r ← apply rec (mkTransition (activeCursor rec stepID attempts) [] None None None);
    let '(rec, ok) := r in
    if negb ok then mret (rec, retry_store)
    else
      c ← awaitCycle (Run_RunID rec) (Await_Targets park);
      match c with
      | Err _ => mret (rec, retry_store)
      | Ok true =>
        markInvalid rec stepID (AwaitCycle (Await_Targets park));; mret (rec, stopped_run)
      | Ok false =>
        emit (EvAttempt (Run_RunID rec) stepID (Run_Phase rec) attempts AttemptAwaiting 0);;
        mret (rec, reconcile)
      end.

Definition invocation (rec : RunRecord) (stepID : StepID) (attempt : Z) (phase : Phase)
    (failure : option Failure) : Invocation :=
  mkInvocation (Run_PipelineID rec) (Run_ResourceID rec) (Run_RunID rec) stepID attempt phase
    (Run_Input rec) (committedStates rec) (Run_Annotations rec) (Run_Awaited rec) failure.

(** The reservation of an attempt: the record before the first [apply]. *)
Definition reserved (rec : RunRecord) (stepID : StepID) (phase : Phase) (now : Time)
    : RunRecord :=
  let op := Op (Driver.Step rec stepID) phase in
  let r := put_Op stepID phase
             (mkOp Driver.OpUnresolved (Op_Attempts op +u64 1)%go (Op_State op)
                (Op_Failure op) (Op_Order op)) rec in
  markStarted (set_NextAttemptAt time_zero r) now.

(** The records of the resolutions of an attempt. *)
Definition succeeded (rec : RunRecord) (stepID : StepID) (phase : Phase) (state : bytes)
    : RunRecord :=
  let op := Op (Driver.Step rec stepID) phase in
  clearLastError (set_Awaited None
    (put_Op stepID phase
       (mkOp Driver.OpSucceeded (Op_Attempts op) state (Op_Failure op) (NextOrder rec)) rec)).

Definition failure_of (rec : RunRecord) (stepID : StepID) (phase : Phase) (cause : goerr)
    (kind : FailureKind) (reason : string) (now : Time) : Failure :=
  mkFailure stepID phase (Op_Attempts (Op (Driver.Step rec stepID) phase))
    (boundText (Error cause)) now kind (boundText reason).

Definition failed_op (rec : RunRecord) (stepID : StepID) (phase : Phase) (f : Failure)
    : OperationRecord :=
  let op := Op (Driver.Step rec stepID) phase in
  mkOp Driver.OpFailed (Op_Attempts op) (Op_State op) (Some f) (NextOrder rec).
Definition failed_forward (rec : RunRecord) (stepID : StepID) (f : Failure) : RunRecord :=
  put_Op stepID PhaseForward (failed_op rec stepID PhaseForward f)
    (clearLastError (set_Awaited None (set_Phase PhaseUnwind (set_Failure (Some f) rec)))).
Definition failed_unwind (rec : RunRecord) (stepID : StepID) (f : Failure) : RunRecord :=
  clearLastError (set_Awaited None
    (put_Op stepID PhaseUnwind (failed_op rec stepID PhaseUnwind f) rec)).
Definition retrying (rec : RunRecord) (err : option goerr) (d : Duration) (now : Time)
    : RunRecord :=
  let msg := match err with Some e => Error e | None => "" end in
  set_LastErrorAt now (set_LastReason (boundText (FailureReason err))
    (set_LastError (boundText msg) (set_NextAttemptAt (TimeAdd now d) rec))).

(** The bytes a successful forward attempt commits, or why it cannot. *)
Definition state_bytes (hasState : bool) (state : message) : result invalid_reason bytes :=
  if hasState then
    match state with
    | MsgNil => Err NilState
    | MsgBad m => Err (StateNotSerializable m)
    | MsgBytes b => Ok (Some b)
    end
  else Ok None.

(** Committing a resolution: one durable transition, then the attempt event. *)
Definition resolve (rec : RunRecord) (t : Transition) (ev : M unit) (res : ran)
    : M (RunRecord * ran) :=
  r ← apply rec t;
  let '(rec, ok) := r in
  if negb ok then mret (rec, retry_store) else ev;; mret (rec, res).

Definition attempts_of (rec : RunRecord) (stepID : StepID) (phase : Phase) : Z :=
  Op_Attempts (Op (Driver.Step rec stepID) phase).

(** The last cases, common to both phases: an interruption, or a retry. *)
Definition interrupted_or_retry (rec : RunRecord) (stepID : StepID) (phase : Phase)
    (i : invoked) : M (RunRecord * ran) :=
  let attempts := attempts_of rec stepID phase in
  if i_interrupted i && negb (i_panicked i) then
    emit (EvAttempt (Run_RunID rec) stepID phase attempts AttemptInterrupted 0);;
    mret (rec, stopped_run)
  else
    t ← now;
    let d := e_backoff cfg attempts in
    let rec := retrying rec (i_err i) d t in
    resolve rec (mkTransition (activeCursor rec stepID attempts) [] None None None)
      (emit (EvAttempt (Run_RunID rec) stepID phase attempts AttemptRetrying d))
      (mkRan false d true).

(** [runForward] after the reservation and the handler call. *)
Definition forward_result (rec : RunRecord) (bs : boundStep (H:=H)) (stepID : StepID)
    (i : invoked) : M (RunRecord * ran) :=
  let attempts := attempts_of rec stepID PhaseForward in
  match i_violation i with
  | Some v => markInvalid rec stepID (Violation v);; mret (rec, stopped_run)
  | None =>
    match i_err i, i_preempted i with
    | Some _, Some _ =>
      r ← cancelOperation rec stepID (i_preempted i) (i_err i);
      let '(rec, ok) := r in
      mret (rec, if ok then reconcile else retry_store)
    | _, _ =>
      match AwaitRequest (i_err i) with
      | Some park => parkAwait rec stepID attempts park (AwaitTimeout (i_err i))
      | None =>
        match i_err i with
        | None =>
          match state_bytes (Binding.S_HasState (bs_Step bs)) (i_state i) with
          | Err reason => markInvalid rec stepID reason;; mret (rec, stopped_run)
          | Ok b =>
            let rec := succeeded rec stepID PhaseForward b in
            resolve rec
              (mkTransition (idleCursor rec) [op_write rec stepID PhaseForward] None None None)
              (emit (EvAttempt (Run_RunID rec) stepID PhaseForward attempts AttemptSucceeded 0))
              reconcile
          end
        | Some _ =>
          match FailureCause (i_err i) with
          | Some cause =>
            t ← now;
            let '(kind, reason, _) := FailureInfo (i_err i) in
            let f := failure_of rec stepID PhaseForward cause kind reason t in
            let rec := failed_forward rec stepID f in
            resolve rec
              (mkTransition (idleCursor rec) [op_write rec stepID PhaseForward]
                 (Run_Failure rec) None None)
              (emit (EvAttempt (Run_RunID rec) stepID PhaseForward attempts AttemptFailed 0);;
               emit (EvRunUnwinding (Run_RunID rec) stepID kind))
              reconcile
          | None => interrupted_or_retry rec stepID PhaseForward i
          end
        end
      end
    end
  end.

Definition unwind_result (rec : RunRecord) (stepID : StepID) (i : invoked)
    : M (RunRecord * ran) :=
  let attempts := attempts_of rec stepID PhaseUnwind in
  match i_violation i with
  | Some v => markInvalid rec stepID (Violation v);; mret (rec, stopped_run)
  | None =>
    match AwaitRequest (i_err i) with
    | Some park => parkAwait rec stepID attempts park (AwaitTimeout (i_err i))
    | None =>
      match i_err i with
      | None =>
        let rec := succeeded rec stepID PhaseUnwind
                     (Op_State (SR_Unwind (Driver.Step rec stepID))) in
        resolve rec
          (mkTransition (idleCursor rec) [op_write rec stepID PhaseUnwind] None None None)
          (emit (EvAttempt (Run_RunID rec) stepID PhaseUnwind attempts AttemptSucceeded 0))
          reconcile
      | Some _ =>
        match FailureCause (i_err i) with
        | Some cause =>
          t ← now;
          let '(kind, reason, _) := FailureInfo (i_err i) in
          let f := failure_of rec stepID PhaseUnwind cause kind reason t in
          let rec := failed_unwind rec stepID f in
          resolve rec
            (mkTransition (idleCursor rec) [op_write rec stepID PhaseUnwind] None None None)
            (emit (EvAttempt (Run_RunID rec) stepID PhaseUnwind attempts AttemptFailed 0))
            reconcile
        | None => interrupted_or_retry rec stepID PhaseUnwind i
        end
      end
    end
  end.

(** [runForward] and [runUnwind]. *)
Definition runForward (rec : RunRecord) (bs : boundStep (H:=H)) (stepID : StepID)
    : M (RunRecord * ran) :=
  t ← now;
  let rec := reserved rec stepID PhaseForward t in
  let attempts := attempts_of rec stepID PhaseForward in
  r ← apply rec (mkTransition (activeCursor rec stepID attempts) [] None None None);
  let '(rec, ok) := r in
  if negb ok then mret (rec, retry_store)
  else
    i ← invokeForward (bs_forward bs) (invocation rec stepID attempts PhaseForward None);
    forward_result rec bs stepID i.

Definition runUnwind (rec : RunRecord) (bs : boundStep (H:=H)) (stepID : StepID)
    : M (RunRecord * ran) :=
  t ← now;
  let rec := reserved rec stepID PhaseUnwind t in
  let attempts := attempts_of rec stepID PhaseUnwind in
  r ← apply rec (mkTransition (activeCursor rec stepID attempts) [] None None None);
  let '(rec, ok) := r in
  if negb ok then mret (rec, retry_store)
  else
    match bs_unwind bs with
    | None => emit EvPanic;; mret (rec, stopped_run)
    | Some h =>
      i ← invokeUnwind h (invocation rec stepID attempts PhaseUnwind (Run_Failure rec));
      unwind_result rec stepID i
    end.

(** *** Completion *)

(** [reduceInto]. *)
Definition reduceInto (rec : RunRecord) (what : string) (o : reduceOutcome)
    : M (RunRecord * bool) :=
  let invalid reason := markInvalid rec "" reason;; mret (rec, false) in
  match r_panic o with
  | Some p => invalid (ReducerPanic what p)
  | None =>
    match r_violation o with
    | Some v => invalid (Violation v)
    | None =>
      match r_out o with
      | MsgNil => invalid (NilOutput what)
      | MsgBad m => invalid (OutputNotSerializable what m)
      | MsgBytes b => mret (set_Output (Some b) rec, true)
      end
    end
  end.

(** The terminal commit, common to both completions. *)
Definition finish (rec : RunRecord) (oc : Outcome) : M (RunRecord * bool) :=
  let rec := set_Phase PhaseDone (set_Outcome (Some oc) rec) in
  r ← apply rec (mkTransition (idleCursor rec) [] None (Run_Output rec) (Run_Outcome rec));
  let '(rec, ok) := r in
  if negb ok then mret (rec, false) else completeRun rec;; mret (rec, true).

Definition reduceAndComplete (rec : RunRecord) (d : boundDef (H:=H)) : M (RunRecord * bool) :=
  r ← (if Binding.C_Reduce (bd_cfg d) then
         reduceInto rec "reducer"
           (e_reduce cfg (Run_PipelineID rec)
              (mkView (Run_Input rec) (committedStates rec) None ∅))
       else mret (rec, true));
  let '(rec, ok) := r in
  if negb ok then mret (rec, false) else finish rec OutcomeSuccess.

Definition reduceFailureAndComplete (rec : RunRecord) (d : boundDef (H:=H))
    : M (RunRecord * bool) :=
  r ← (if Binding.C_ReduceFailure (bd_cfg d) then
         reduceInto rec "failure reducer"
           (e_reduceFailure cfg (Run_PipelineID rec)
              (mkView (Run_Input rec) (committedStates rec) (Run_Failure rec)
                 (unwindFailuresByStep rec)))
       else mret (rec, true));
  let '(rec, ok) := r in
  if negb ok then mret (rec, false) else finish rec OutcomeFailure.

(** *** The worker *)

(** What an iteration of [processRun] ends with: the next iteration on the carried
    record, or the result of [processRun]. *)
Inductive next := Continue (rec : RunRecord) | Return (delay : Duration) (again : bool).

(** Running the decided operation under its concurrency class. *)
Definition run_in_class (rec : RunRecord) (d : boundDef (H:=H)) (stepID : StepID)
    (run : boundStep (H:=H) → M (RunRecord * ran)) : M next :=
  match bd_steps d !! stepID with
  | None => emit EvPanic;; mret (Return 0 false)
  | Some bs =>
    let class := Binding.S_ConcurrencyClass (bs_Step bs) in
    a ← acquireClass rec class;
    let '(proceed, held, waited) := a in
    if negb proceed then mret (Return 0 false)
    else
      (if (0 <? waited)%Z then emit (EvClassWait (Run_RunID rec) class waited) else mret tt);;
      r ← run bs;
      let '(rec, res) := r in
      (if held then releaseClass class else mret tt);;
      mret (if ran_done res then Continue rec else Return (ran_delay res) (ran_again res))
  end.

Definition run_forward_step (rec : RunRecord) (d : boundDef (H:=H)) (stepID : StepID) : M next :=
  w ← get;
  if w_draining w then mret (Return 0 false)
  else match Run_Cancel rec with
  | Some _ =>
    r ← cancelOperation rec stepID None None;
    let '(rec, ok) := r in
    mret (if ok then Continue rec else Return second true)
  | None =>
    g ← awaitGate rec;
    let '(rec, parked) := g in
    if parked then mret (Return 0 false)
    else
      t ← now;
      match retryGate rec t with
      | Some delay => mret (Return delay true)
      | None =>
        p ← acquireRunClass rec d;
        if negb p then mret (Return 0 false)
        else run_in_class rec d stepID (λ bs, runForward rec bs stepID)
      end
  end.

Definition run_unwind_step (rec : RunRecord) (d : boundDef (H:=H)) (stepID : StepID) : M next :=
  w ← get;
  if w_draining w then mret (Return 0 false)
  else
    g ← awaitGate rec;
    let '(rec, parked) := g in
    if parked then mret (Return 0 false)
    else
      t ← now;
      match retryGate rec t with
      | Some delay => mret (Return delay true)
      | None => run_in_class rec d stepID (λ bs, runUnwind rec bs stepID)
      end.

(** The body of the loop of [processRun] on a record just read or carried. *)
Definition advance (rec : RunRecord) : M next :=
  if Terminal rec then
    emit (EvNotify (Run_RunID rec));; awaitTargetDone (Run_RunID rec);; mret (Return 0 false)
  else
    let invalid stepID reason := markInvalid rec stepID reason;; mret (Return 0 false) in
    match definition (Run_PipelineID rec) with
    | None => invalid "" (PipelineNotRegistered (Run_PipelineID rec))
    | Some d =>
      let decide (dec : Ledger.Decision) :=
        match Decision_Kind dec with
        | KindInvalid => invalid (Decision_Step dec) (LedgerReason (Decision_Reason dec))
        | KindRunForward => run_forward_step rec d (Decision_Step dec)
        | KindForwardComplete =>
          r ← reduceAndComplete rec d;
          let '(rec, ok) := r in
          mret (if ok then Continue rec else Return 0 false)
        | KindRunUnwind => run_unwind_step rec d (Decision_Step dec)
        | KindUnwindComplete =>
          reduceFailureAndComplete rec d;; mret (Return 0 false)
        end in
      match Run_Phase rec with
      | PhaseForward => decide (NextForward (bd_topo d) (factsOf rec))
      | PhaseUnwind => decide (NextUnwind (bd_topo d) (factsOf rec))
      | p => invalid "" (UnexpectedPhase p)
      end
    end.

(** [processRun], with the carried record; [None] when the fuel runs out. *)
Fixpoint processRun_in (fuel : nat) (id : RunID) (carried : option RunRecord)
    : M (option (Duration * bool)) :=
  match fuel with
  | 0 => mret None
  | Datatypes.S fuel =>
    w ← get;
    if w_stopped w then mret (Some (0%Z, false))
    else
      let '(dirty, taken) := DirtySet.Take (w_dirty w) id in
      modify (set_dirty dirty);;
      let read := match carried with
                  | Some rec => if taken then GetRun (w_store w) id else Ok rec
                  | None => GetRun (w_store w) id
                  end in
      match read with
      | Err ErrRunNotFound => mret (Some (0%Z, false))
      | Err _ => mret (Some (second, true))
      | Ok rec =>
        n ← advance rec;
        match n with
        | Return delay again => mret (Some (delay, again))
        | Continue rec => processRun_in fuel id (Some rec)
        end
      end
  end.
Definition processRun (fuel : nat) (id : RunID) : M (option (Duration * bool)) :=
  processRun_in fuel id None.

(** ** A cancel request on the store *)

Lemma requestCancel_state id cause w :
  let res := RequestCancel (w_store w) id (mkCancel (boundText cause) (w_now w)) in
  let w' := (requestCancel id cause w).1 in
  w_store w' = res.1 ∧
  w_dirty w' = match res.2 with Ok true => {[id]} ∪ w_dirty w | _ => w_dirty w end.
Proof.
  unfold requestCancel, bind, get, modify, mret, M_ret. simpl.
  destruct (RequestCancel _ _ _) as [s res]. destruct res as [[]|e]; [|done|done].
  unfold preemptAttempt, modify, emit, dispatch. simpl.
  destruct (w_attempts w !! id) as [a|]; [|done]. by case_bool_decide.
Qed.

End engine.
