(* ===== verification/Sample.v ===== *)
(** * Sample: a small deployment on the in-memory store

    Two pipelines, handlers that succeed, fail, retry, cancel their run or park it,
    and worlds with one or two runs: the concrete inputs on which the engine's
    theorems are instantiated. *)
From stdpp Require Import pretty.
From S2P Require Import Signals TokenPool RunPool JoinSet MemStore Binding.
From S2P Require Import Prelude Kernel Text Errors Ledger Driver Engine.
#[local] Open Scope engine_scope.

(** A handler: what it does. *)
Inductive script :=
| Succeeds (state : string)
| Fails (msg : string)
| RetriesOnce
| CancelsItself (cause : string)
| Parks (targets : list RunID)
| Panics.

Definition step_a (h : script) : Binding.Step (H:=script) :=
  Binding.mkStep "a" true false true "" (Some h) (Some (Succeeds "")).
Definition step_b (h : script) : Binding.Step (H:=script) :=
  Binding.mkStep "b" false false false "" (Some h) None.
Definition sample_config (p : PipelineID) (class : string) (ha hb : script)
    : Binding.Config (H:=script) :=
  Binding.mkConfig p [step_a ha; step_b hb] [] "" class [] false false false.

Definition bound_of (c : Binding.Config (H:=script)) : Registry :=
  match bindDefinition c [] with
  | Ok d => match register empty_registry d with Some (Ok r) => r | _ => empty_registry end
  | Err _ => empty_registry
  end.
Definition registry_of (c : Binding.Config (H:=script)) : Registry :=
  match start_registry (bound_of c) with Ok r => r | Err _ => empty_registry end.

Notation W := (World MemStore).

(** The base configuration, with handlers that do nothing. *)
Definition plain_call (h : script) (inv : Invocation) (w : W) : W * outcome :=
  (w, mkOutcome None MsgNil None None).
Definition config_with (call : script → Invocation → W → W * outcome)
    (c : Binding.Config (H:=script)) : Engine.Config (S:=MemStore) (H:=script) :=
  mkEngineConfig 4096 second 0 ∅ (registry_of c) call
    (λ _ _, mkReduceOutcome None MsgNil None) (λ _ _, mkReduceOutcome None MsgNil None)
    (λ _, second) (λ t, "run" +:+ pretty (Z.to_N t)).
Definition base (c : Binding.Config (H:=script)) := config_with plain_call c.

Definition other_error (msg : string) : goerr := EOther msg None None [].
(** The handlers, which reach the engine through the client calls. *)
Definition sample_call (c : Binding.Config (H:=script)) (h : script) (inv : Invocation) (w : W)
    : W * outcome :=
  match h with
  | Succeeds s => (w, mkOutcome None (MsgBytes s) None None)
  | Fails m => (w, mkOutcome None MsgNil (Some (Fail (Some (other_error m)) [])) None)
  | RetriesOnce =>
    (w, if (inv_attempt inv =? 1)%Z then mkOutcome None MsgNil (Some (other_error "again")) None
        else mkOutcome None (MsgBytes "") None None)
  | CancelsItself cause =>
    ((requestCancel (base c) (inv_runID inv) cause w).1,
     mkOutcome None MsgNil (Some (other_error cause)) None)
  | Parks ts =>
    (w, match inv_awaited inv with
        | Some _ => mkOutcome None (MsgBytes "") None None
        | None => mkOutcome None MsgNil (Some (AwaitAll ts [])) None
        end)
  | Panics => (w, mkOutcome (Some "boom") MsgNil None None)
  end.
Definition sample (c : Binding.Config (H:=script)) := config_with (sample_call c) c.

(** Runs and worlds. *)
Definition sample_run (id : RunID) (p : PipelineID) (res : ResourceID) : RunRecord :=
  mkRun id p res ∅ None PhaseForward ∅ None None None time_zero None None "" "" time_zero None
    1000 1000 time_zero.
Definition store_with (rs : list RunRecord) : MemStore :=
  foldl (λ s r, (mem_CreateRun s r []).1) MemStore.New rs.
Definition world_of (s : MemStore) (classes runclasses : gmap string Z) : W :=
  mkWorld s 5000 (TokenPool.New classes) (RunPool.New runclasses) js_empty ∅ 0 ∅ ∅ ∅ ∅ false false [].
Definition sample_world (rs : list RunRecord) : W := world_of (store_with rs) ∅ ∅.

(** ** The sample deployments satisfy what the theorems ask of a deployment *)

Lemma sample_bound c call : bound_registry (e_defs (config_with call c)).
Proof.
  assert (bound_registry (bound_of c)) as Hb.
  { unfold bound_of. destruct (bindDefinition c []) as [d|] eqn:Hd; [|apply empty_bound].
    destruct (register empty_registry d) as [[r|]|] eqn:Hr; [|apply empty_bound..].
    eapply register_bound; [apply empty_bound|by eapply bind_bound|done]. }
  simpl. unfold registry_of. destruct (start_registry _) eqn:Hs; [|apply empty_bound].
  by eapply start_bound.
Qed.

(** A client call only requests cancellations, which it marks. *)
Lemma cancel_only (cfg : Engine.Config (S:=MemStore) (H:=script)) id cause (w : W) id' :
  let w' := (requestCancel cfg id cause w).1 in
  mem_ok (w_store w) →
  mem_ok (w_store w') ∧ (id' ∈ w_dirty w → id' ∈ w_dirty w') ∧
  ∀ r, GetRun (w_store w) id' = Ok r →
    ∃ c, GetRun (w_store w') id' = Ok (set_Cancel c r) ∧ (c = Run_Cancel r ∨ id' ∈ w_dirty w').
Proof.
  intros w' Hok. destruct (requestCancel_state cfg id cause w) as [Hs Hd].
  fold w' in Hs, Hd. destruct (RequestCancel _ _ _) as [s res] eqn:Hr. simpl in Hs, Hd.
  rewrite Hs, Hd. split; [by eapply law_cancel_ok|].
  split; [destruct res as [[]|]; set_solver|]. intros r Hg.
  destruct (decide (id = id')) as [->|Hne].
  - destruct res as [b|e].
    + destruct (law_cancel _ _ _ _ _ _ Hok Hg Hr) as (_ & Hg' & _). destruct b.
      * eexists. split; [exact Hg'|]. right. set_solver.
      * exists (Run_Cancel r). split; [|by left]. rewrite Hg'. by destruct r.
    + exists (Run_Cancel r). split; [|by left].
      rewrite (law_cancel_err _ _ _ _ _ id' Hok Hr), Hg. by destruct r.
  - exists (Run_Cancel r). split; [|by left].
    rewrite (law_cancel_other _ _ _ id' _ _ Hok Hr) by done. rewrite Hg. by destruct r.
Qed.

Lemma nothing_only (w : W) id' :
  mem_ok (w_store w) →
  mem_ok (w_store w) ∧ (id' ∈ w_dirty w → id' ∈ w_dirty w) ∧
  ∀ r, GetRun (w_store w) id' = Ok r →
    ∃ c, GetRun (w_store w) id' = Ok (set_Cancel c r) ∧ (c = Run_Cancel r ∨ id' ∈ w_dirty w).
Proof.
  intros Hok. split; [done|]. split; [done|]. intros r Hg. exists (Run_Cancel r).
  split; [|by left]. rewrite Hg. by destruct r.
Qed.

Lemma sample_calls c h inv (w : W) :
  let w' := (e_call (sample c) h inv w).1 in
  mem_ok (w_store w) →
  mem_ok (w_store w') ∧ (inv_runID inv ∈ w_dirty w → inv_runID inv ∈ w_dirty w') ∧
  ∀ r, GetRun (w_store w) (inv_runID inv) = Ok r →
    ∃ c, GetRun (w_store w') (inv_runID inv) = Ok (set_Cancel c r) ∧
      (c = Run_Cancel r ∨ inv_runID inv ∈ w_dirty w').
Proof.
  destruct h; simpl; try apply nothing_only. apply (cancel_only (base c)).
Qed.

(** A store of fresh runs in distinct slots is a reachable one. *)
Lemma store_with_ok rs :
  Forall (λ r, Terminal r = false ∧ nul_free (Run_PipelineID r)) rs →
  NoDup (Run_RunID <$> rs) → mem_ok (store_with rs).
Proof.
  unfold store_with. assert (∀ rs s, mem_ok s →
    Forall (λ r, Terminal r = false ∧ nul_free (Run_PipelineID r)) rs →
    NoDup (Run_RunID <$> rs) → (∀ r, r ∈ rs → mem_runs s !! Run_RunID r = None) →
    mem_ok (foldl (λ s r, (mem_CreateRun s r []).1) s rs)) as Hgen.
  { clear rs. induction rs as [|r rs IH]; intros s Hok Hrs Hnd Hfr; [done|]. simpl.
    apply Forall_cons in Hrs as [[Ht Hnul] Hrs]. apply NoDup_cons in Hnd as [Hnot Hnd].
    apply IH; [|done|done|].
    - apply mem_Create_preserves; [done|done|done|]. apply Hfr. left.
    - intros r' Hr'. rewrite mem_Create_eq by done.
      assert (mem_runs s !! Run_RunID r' = None) by (apply Hfr; by right).
      destruct (first_occupied _ _ _); [done|]. simpl. rewrite lookup_insert_ne; [done|].
      intros Heq. apply Hnot. rewrite Heq. by apply list_elem_of_fmap_2. }
  intros Hrs Hnd. apply Hgen; [|done|done|].
  - constructor; simpl; intros *; by rewrite lookup_empty.
  - intros r _. apply lookup_empty.
Qed.
