(* ===== verification/Machine.v ===== *)
(** * Machine: the life of a run, as an abstract state machine

    What the engine promises about one run, without store, handlers, classes, parks
    or retries: its phase, operation records, failure and outcome, and the steps
    between them.  The worker of engine/engine.go is shown to refine it (Carry);
    here are its invariants. *)
From S2P Require Import Prelude Kernel Ledger Driver Engine.

(** ** Step maps *)

Abbreviation steps := (gmap StepID StepRecord).
Definition step_of (m : steps) (id : StepID) : StepRecord := default sr_zero (m !! id).
Definition op_of (m : steps) (id : StepID) (phase : Phase) : OperationRecord :=
  Op (step_of m id) phase.
Definition put (id : StepID) (phase : Phase) (op : OperationRecord) (m : steps) : steps :=
  <[id := set_Op phase op (step_of m id)]> m.
Definition facts (m : steps) : Facts :=
  mkFacts ((λ sr, opState (Op_Status (SR_Forward sr))) <$> m)
    ((λ sr, opState (Op_Status (SR_Unwind sr))) <$> m).

Lemma factsOf_steps rec : factsOf rec = facts (Run_Steps rec).
Proof. done. Qed.

Lemma put_same id phase (m : steps) :
  is_Some (m !! id) → put id phase (op_of m id phase) m = m.
Proof.
  intros [sr Hsr]. unfold put, op_of, step_of. rewrite Hsr. simpl.
  rewrite set_Op_Op. by apply insert_id.
Qed.
Lemma put_put id phase op op' (m : steps) : put id phase op (put id phase op' m) = put id phase op m.
Proof.
  unfold put, step_of. rewrite lookup_insert_eq, insert_insert_eq. by destruct phase.
Qed.
Lemma step_of_put_ne id id' phase op (m : steps) :
  id ≠ id' → step_of (put id phase op m) id' = step_of m id'.
Proof. intros. unfold step_of, put. by rewrite lookup_insert_ne. Qed.
Lemma step_of_put id phase op (m : steps) :
  step_of (put id phase op m) id = set_Op phase op (step_of m id).
Proof. unfold put at 1. unfold step_of at 1. by rewrite lookup_insert_eq. Qed.

Definition half (phase : Phase) : bool := bool_decide (phase = PhaseUnwind).
Lemma op_of_put id phase op (m : steps) id' phase' :
  op_of (put id phase op m) id' phase' =
    if bool_decide (id = id') && Bool.eqb (half phase) (half phase') then op
    else op_of m id' phase'.
Proof.
  unfold op_of. case_bool_decide as Hid; simpl; [|by rewrite step_of_put_ne].
  subst. rewrite step_of_put. by destruct phase, phase'.
Qed.

(** The facts are the statuses of the operations. *)
Lemma fwd_facts (m : steps) id : fwd (facts m) id = opState (Op_Status (op_of m id PhaseForward)).
Proof.
  unfold fwd, map_get, facts, op_of, step_of. simpl. rewrite lookup_fmap. by destruct (m !! id).
Qed.
Lemma unw_facts (m : steps) id : unw (facts m) id = opState (Op_Status (op_of m id PhaseUnwind)).
Proof.
  unfold unw, map_get, facts, op_of, step_of. simpl. rewrite lookup_fmap. by destruct (m !! id).
Qed.
Lemma opState_inj a b : opState a = opState b → a = b.
Proof. by destruct a, b. Qed.

(** ** The machine *)

Record state := mkState {
  m_phase : Phase;
  m_steps : steps;
  m_failure : option Failure;
  m_outcome : option Outcome;
}.
Definition view (r : RunRecord) : state :=
  mkState (Run_Phase r) (Run_Steps r) (Run_Failure r) (Run_Outcome r).

(** The operation the run executes next. *)
Definition runs_next (topo : Topology) (s : state) (id : StepID) : Prop :=
  match m_phase s with
  | PhaseForward => Decision_Kind (NextForward topo (facts (m_steps s))) = KindRunForward ∧
      Decision_Step (NextForward topo (facts (m_steps s))) = id
  | PhaseUnwind => Decision_Kind (NextUnwind topo (facts (m_steps s))) = KindRunUnwind ∧
      Decision_Step (NextUnwind topo (facts (m_steps s))) = id
  | _ => False
  end.
(** The operation is in flight: an attempt of it is reserved. *)
Definition in_flight (s : state) (id : StepID) : Prop :=
  Op_Status (op_of (m_steps s) id (m_phase s)) = Driver.OpUnresolved.

Definition reserve_op (op : OperationRecord) : OperationRecord :=
  mkOp Driver.OpUnresolved (Op_Attempts op +u64 1)%go (Op_State op) (Op_Failure op) (Op_Order op).
Definition succeed_op (op : OperationRecord) (st : bytes) (order : Z) : OperationRecord :=
  mkOp Driver.OpSucceeded (Op_Attempts op) st (Op_Failure op) order.
Definition fail_op (op : OperationRecord) (f : Failure) (order : Z) : OperationRecord :=
  mkOp Driver.OpFailed (Op_Attempts op) (Op_State op) (Some f) order.

Definition active (s : state) : Prop :=
  m_outcome s = None ∧ (m_phase s = PhaseForward ∨ m_phase s = PhaseUnwind).

Inductive step (topo : Topology) : state → state → Prop :=
| step_reserve s id :
    active s → runs_next topo s id →
    step topo s (mkState (m_phase s)
      (put id (m_phase s) (reserve_op (op_of (m_steps s) id (m_phase s))) (m_steps s))
      (m_failure s) None)
| step_succeed s id st order :
    active s → in_flight s id →
    step topo s (mkState (m_phase s)
      (put id (m_phase s) (succeed_op (op_of (m_steps s) id (m_phase s)) st order) (m_steps s))
      (m_failure s) None)
| step_fail s id f order :
    active s → m_phase s = PhaseForward → in_flight s id → Failure_StepID f = id →
    step topo s (mkState PhaseUnwind
      (put id PhaseForward (fail_op (op_of (m_steps s) id PhaseForward) f order) (m_steps s))
      (Some f) None)
| step_fail_unwind s id f order :
    active s → m_phase s = PhaseUnwind → in_flight s id → Failure_StepID f = id →
    step topo s (mkState PhaseUnwind
      (put id PhaseUnwind (fail_op (op_of (m_steps s) id PhaseUnwind) f order) (m_steps s))
      (m_failure s) None)
| step_cancel s id f order :
    active s → m_phase s = PhaseForward → in_flight s id ∨ runs_next topo s id →
    Failure_StepID f = id → Failure_Kind f = FailureKindCanceled →
    step topo s (mkState PhaseUnwind
      (put id PhaseForward (fail_op (op_of (m_steps s) id PhaseForward) f order) (m_steps s))
      (Some f) None)
| step_complete s :
    active s → m_phase s = PhaseForward →
    Decision_Kind (NextForward topo (facts (m_steps s))) = KindForwardComplete →
    step topo s (mkState PhaseDone (compact_steps (m_steps s)) (m_failure s)
      (Some OutcomeSuccess))
| step_unwound s :
    active s → m_phase s = PhaseUnwind →
    Decision_Kind (NextUnwind topo (facts (m_steps s))) = KindUnwindComplete →
    step topo s (mkState PhaseDone (compact_steps (m_steps s)) (m_failure s)
      (Some OutcomeFailure)).

(** A run as Schedule creates it. *)
Definition fresh : state := mkState PhaseForward ∅ None None.
Definition reached (topo : Topology) (s : state) : Prop := rtc (step topo) fresh s.

(** ** What the ledger decides, in terms of the machine *)

Definition ids (topo : Topology) : list StepID := Step_ID <$> topo.
Definition well_named (topo : Topology) : Prop := "" ∉ ids topo.
Definition touched (topo : Topology) (m : steps) : Prop :=
  ∀ id, is_Some (m !! id) → id ∈ ids topo.

Lemma touched_op topo m id phase :
  touched topo m → Op_Status (op_of m id phase) ≠ Driver.OpNone → id ∈ ids topo.
Proof.
  intros Ht Hop. apply Ht. unfold op_of, step_of in Hop.
  destruct (m !! id) as [sr|]; [by eexists|]. by destruct phase.
Qed.
Lemma touched_put topo m id phase op : touched topo m → id ∈ ids topo → touched topo (put id phase op m).
Proof.
  intros Ht Hid x [sr Hx]. unfold put in Hx. rewrite lookup_insert in Hx.
  destruct (decide (id = x)) as [<-|Hne]; [done|]. apply Ht. by eexists.
Qed.

Lemma forward_fact (m : steps) id st :
  st ≠ Ledger.OpNone → Facts_Forward (facts m) !! id = Some st ↔
    opState (Op_Status (op_of m id PhaseForward)) = st.
Proof. intros Hst. rewrite <-fwd_facts. by rewrite fwd_lookup. Qed.
Lemma unwind_fact (m : steps) id st :
  st ≠ Ledger.OpNone → Facts_Unwind (facts m) !! id = Some st ↔
    opState (Op_Status (op_of m id PhaseUnwind)) = st.
Proof. intros Hst. rewrite <-unw_facts. by rewrite unw_lookup. Qed.

Lemma named_facts topo m :
  well_named topo → touched topo m →
  Ledger.named (Facts_Forward (facts m)) ∧ Ledger.named (Facts_Unwind (facts m)).
Proof.
  intros Hn Ht. split; intros Hc.
  - apply forward_fact in Hc; [|done]. apply Hn. apply (touched_op topo m _ PhaseForward Ht).
    by intros Hx; rewrite Hx in Hc.
  - apply unwind_fact in Hc; [|done]. apply Hn. apply (touched_op topo m _ PhaseUnwind Ht).
    by intros Hx; rewrite Hx in Hc.
Qed.

(** The forward decision names the operation in flight if there is one, else one
    that never started. *)
Lemma next_forward topo m id :
  well_named topo → touched topo m →
  Decision_Kind (NextForward topo (facts m)) = KindRunForward →
  Decision_Step (NextForward topo (facts m)) = id →
  id ∈ ids topo ∧
  (∀ id', Op_Status (op_of m id' PhaseForward) = Driver.OpUnresolved → id' = id) ∧
  (Op_Status (op_of m id PhaseForward) = Driver.OpUnresolved ∨
   Op_Status (op_of m id PhaseForward) = Driver.OpNone).
Proof.
  intros Hn Ht Hk <-. destruct (named_facts topo m Hn Ht) as [Hnf _].
  split; [by apply NextForward_step|].
  pose proof (NextForward_sound topo (facts m) Hnf) as Hs.
  revert Hk Hs. generalize (NextForward topo (facts m)). intros dec Hk Hs.
  destruct Hs as [| |id n Hf Hu Huniq Hix| |pre mid s post Hf Hu Htopo Hfr Hmid Hret Hnone Hns|];
    try done; cbn [Decision_Step run_forward].
  - split.
    + intros id' Hid'. apply Huniq. apply forward_fact; [done|]. by rewrite Hid'.
    + left. apply forward_fact in Hu; [|done]. by apply (opState_inj _ Driver.OpUnresolved).
  - split.
    + intros id' Hid'. exfalso. apply (Hu id'). apply forward_fact; [done|]. by rewrite Hid'.
    + right. rewrite fwd_facts in Hnone. by apply (opState_inj _ Driver.OpNone).
Qed.

(** The unwind decision names an operation of a step that succeeded, not resolved. *)
Lemma next_unwind topo m id :
  well_named topo → touched topo m →
  Decision_Kind (NextUnwind topo (facts m)) = KindRunUnwind →
  Decision_Step (NextUnwind topo (facts m)) = id →
  id ∈ ids topo ∧ Op_Status (op_of m id PhaseForward) = Driver.OpSucceeded ∧
  (Op_Status (op_of m id PhaseUnwind) = Driver.OpUnresolved ∨
   Op_Status (op_of m id PhaseUnwind) = Driver.OpNone).
Proof.
  intros Hn Ht Hk <-. destruct (named_facts topo m Hn Ht) as [_ Hnu].
  split; [by apply NextUnwind_step|].
  pose proof (NextUnwind_sound topo (facts m) Hnu) as Hs.
  revert Hk Hs. generalize (NextUnwind topo (facts m)). intros dec Hk Hs.
  destruct Hs as [|pre s mid post Htopo Hfr Hres Hel Hmid|]; try done; cbn [Decision_Step run_unwind].
  destruct Hel as [_ Hsucc]. unfold Ledger.succeeded in Hsucc. rewrite fwd_facts in Hsucc.
  split; [by apply (opState_inj _ Driver.OpSucceeded)|].
  apply Forall_app in Hres as [_ Hres]. apply Forall_cons in Hres as [Hres _].
  unfold resolved in Hres. rewrite unw_facts in Hres.
  destruct (Op_Status (op_of m (Step_ID s) PhaseUnwind)); simpl in *; auto; exfalso; auto.
Qed.

(** Reserving an unwind operation does not change what is unwound next. *)
Definition same_unwind (f g : Facts) : Prop :=
  ∀ id, fwd f id = fwd g id ∧
    (unw f id = unw g id ∨
     (unw f id = Ledger.OpNone ∨ unw f id = Ledger.OpUnresolved) ∧
     (unw g id = Ledger.OpNone ∨ unw g id = Ledger.OpUnresolved)).

Lemma same_unwind_resolved f g s : same_unwind f g → unwind_resolved f s = unwind_resolved g s.
Proof.
  intros Hs. destruct (Hs (Step_ID s)) as [_ Hu]. unfold unwind_resolved.
  destruct Hu as [->|[[-> | ->] [-> | ->]]]; done.
Qed.
Lemma same_unwind_frontier f g topo : same_unwind f g → ∀ i fr,
  unwind_frontier f i topo fr = unwind_frontier g i topo fr.
Proof.
  intros Hs. induction topo as [|s topo IH]; intros i fr; simpl; [done|].
  by rewrite (same_unwind_resolved f g s Hs), IH.
Qed.
Lemma same_unwind_rest f g topo : same_unwind f g → unwind_rest f topo = unwind_rest g topo.
Proof.
  intros Hs. induction topo as [|s topo IH]; simpl; [done|]. destruct (Hs (Step_ID s)) as [Hf Hu].
  rewrite Hf, IH. destruct Hu as [->|[[-> | ->] [-> | ->]]]; done.
Qed.

Definition unwinds_one (m : steps) : Prop :=
  ∀ a b, Op_Status (op_of m a PhaseUnwind) = Driver.OpUnresolved →
    Op_Status (op_of m b PhaseUnwind) = Driver.OpUnresolved → a = b.

Lemma one_unwind_scan topo m :
  well_named topo → touched topo m → unwinds_one m →
  ∃ u, scan_unwind (map_to_list (Facts_Unwind (facts m))) "" = Some u.
Proof.
  intros Hn Ht Hone. destruct (named_facts topo m Hn Ht) as [_ Hnu].
  destruct (scan_unwind _ "") as [u|] eqn:Hs; [by exists u|]. exfalso.
  pose proof (unwindViolation_spec topo (facts m) Hnu Hs) as Hv.
  pose proof (unwindViolation_kind (facts m)) as Hk.
  revert Hv Hk. generalize (unwindViolation (facts m)). intros dec Hv Hk.
  destruct Hv as [a b Hab Ha Hb| |]; try done.
  apply Hab. apply unwind_fact in Ha, Hb; [|done..].
  by apply Hone; apply (opState_inj _ Driver.OpUnresolved).
Qed.

Lemma NextUnwind_same topo m m' :
  well_named topo → touched topo m → touched topo m' → unwinds_one m → unwinds_one m' →
  same_unwind (facts m) (facts m') → NextUnwind topo (facts m) = NextUnwind topo (facts m').
Proof.
  intros Hn Ht Ht' H1 H1' Hs. unfold NextUnwind, NextUnwind_in.
  destruct (one_unwind_scan topo m Hn Ht H1) as [u ->].
  destruct (one_unwind_scan topo m' Hn Ht' H1') as [u' ->].
  by rewrite (same_unwind_frontier _ _ topo Hs), (same_unwind_rest _ _ _ Hs).
Qed.

(** ** The invariant *)

Record consistent (topo : Topology) (s : state) : Prop := {
  co_touched : touched topo (m_steps s);
  co_forward : m_phase s = PhaseForward →
    m_failure s = None ∧ m_outcome s = None ∧
    ∀ id, Op_Status (op_of (m_steps s) id PhaseUnwind) = Driver.OpNone ∧
      Op_Status (op_of (m_steps s) id PhaseForward) ≠ Driver.OpFailed ∧
      (∀ id', Op_Status (op_of (m_steps s) id PhaseForward) = Driver.OpUnresolved →
        Op_Status (op_of (m_steps s) id' PhaseForward) = Driver.OpUnresolved → id = id');
  co_unwind : m_phase s = PhaseUnwind →
    m_outcome s = None ∧
    (∃ f, m_failure s = Some f ∧
       op_of (m_steps s) (Failure_StepID f) PhaseForward =
         fail_op (op_of (m_steps s) (Failure_StepID f) PhaseForward) f
           (Op_Order (op_of (m_steps s) (Failure_StepID f) PhaseForward))) ∧
    ∀ id, Op_Status (op_of (m_steps s) id PhaseForward) ≠ Driver.OpUnresolved ∧
      (Op_Status (op_of (m_steps s) id PhaseUnwind) = Driver.OpUnresolved →
         runs_next topo s id);
  co_done : m_phase s = PhaseDone →
    (m_outcome s = Some OutcomeSuccess ∧ m_failure s = None) ∨
    (m_outcome s = Some OutcomeFailure ∧ ∃ f, m_failure s = Some f);
  co_phase : m_phase s ≠ PhaseZero;
}.

Lemma op_of_empty id phase : op_of ∅ id phase = op_zero.
Proof. unfold op_of, step_of. rewrite lookup_empty. by destruct phase. Qed.

Lemma fresh_consistent topo : consistent topo fresh.
Proof.
  constructor; simpl; try done.
  intros id [sr Hsr]. by rewrite lookup_empty in Hsr.
Qed.

(** An unwind operation in flight is the only one. *)
Lemma unwind_one topo s : m_phase s = PhaseUnwind → consistent topo s → unwinds_one (m_steps s).
Proof.
  intros Hp Hc a b Ha Hb. destruct (co_unwind _ _ Hc Hp) as (_ & _ & Hu).
  destruct (Hu a) as [_ Hna], (Hu b) as [_ Hnb]. specialize (Hna Ha). specialize (Hnb Hb).
  unfold runs_next in *. rewrite Hp in *. destruct Hna as [_ <-], Hnb as [_ <-]. done.
Qed.

(** The operation of a step in flight or decided on, in terms of all forward ones. *)
Lemma forward_only topo s id :
  well_named topo → consistent topo s → m_phase s = PhaseForward →
  in_flight s id ∨ runs_next topo s id →
  id ∈ ids topo ∧
  ∀ id', Op_Status (op_of (m_steps s) id' PhaseForward) = Driver.OpUnresolved → id' = id.
Proof.
  intros Hn Hc Hp [Hf|Hr].
  - unfold in_flight in Hf. rewrite Hp in Hf. split.
    + apply (touched_op topo (m_steps s) id PhaseForward); [apply Hc|by rewrite Hf].
    + intros id' Hid'. destruct (co_forward _ _ Hc Hp) as (_ & _ & Hu).
      symmetry. by apply (Hu id).
  - unfold runs_next in Hr. rewrite Hp in Hr. destruct Hr as [Hk Hd].
    destruct (next_forward topo (m_steps s) id Hn (co_touched _ _ Hc) Hk Hd) as (Hin & Hone & _).
    done.
Qed.

Lemma unwind_next topo s id :
  well_named topo → consistent topo s → m_phase s = PhaseUnwind →
  in_flight s id ∨ runs_next topo s id → id ∈ ids topo ∧ runs_next topo s id.
Proof.
  intros Hn Hc Hp Hr. assert (runs_next topo s id) as Hnext.
  { destruct Hr as [Hf|]; [|done]. unfold in_flight in Hf. rewrite Hp in Hf.
    destruct (co_unwind _ _ Hc Hp) as (_ & _ & Hu). by apply Hu. }
  split; [|done]. unfold runs_next in Hnext. rewrite Hp in Hnext. destruct Hnext as [Hk <-].
  by apply NextUnwind_step.
Qed.

Lemma keep_forward topo s id op :
  well_named topo → consistent topo s → m_phase s = PhaseForward →
  in_flight s id ∨ runs_next topo s id →
  Op_Status op = Driver.OpUnresolved ∨ Op_Status op = Driver.OpSucceeded →
  consistent topo (mkState PhaseForward (put id PhaseForward op (m_steps s)) (m_failure s) None).
Proof.
  intros Hn Hc Hp Hr Hop. destruct (forward_only topo s id Hn Hc Hp Hr) as [Hin Hone].
  destruct (co_forward _ _ Hc Hp) as (Hf & Hoc & Hu).
  constructor; cbn [m_phase m_steps m_failure m_outcome]; try done.
  - apply touched_put; [apply Hc|done].
  - intros _. split; [done|]. split; [done|]. intros x. rewrite !op_of_put.
    change (Bool.eqb (half PhaseForward) (half PhaseUnwind)) with false.
    change (Bool.eqb (half PhaseForward) (half PhaseForward)) with true.
    rewrite andb_false_r, andb_true_r. split; [apply Hu|]. split.
    + case_bool_decide; [by destruct Hop as [-> | ->]|apply Hu].
    + intros y. rewrite op_of_put, andb_true_r.
      repeat case_bool_decide; subst; try done; intros Hx Hy; try (by apply Hone in Hx);
        try (by apply Hone in Hy); by apply (Hu x).
Qed.

(** Ending the forward phase on step [id]. *)
Lemma to_unwind topo s id f order :
  well_named topo → consistent topo s → m_phase s = PhaseForward →
  in_flight s id ∨ runs_next topo s id → Failure_StepID f = id →
  consistent topo (mkState PhaseUnwind
    (put id PhaseForward (fail_op (op_of (m_steps s) id PhaseForward) f order) (m_steps s))
    (Some f) None).
Proof.
  intros Hn Hc Hp Hr Hfid. destruct (forward_only topo s id Hn Hc Hp Hr) as [Hin Hone].
  destruct (co_forward _ _ Hc Hp) as (Hf & Hoc & Hu).
  constructor; cbn [m_phase m_steps m_failure m_outcome]; try done.
  - apply touched_put; [apply Hc|done].
  - intros _. split; [done|]. split.
    + exists f. split; [done|]. rewrite Hfid, op_of_put, bool_decide_eq_true_2 by done. done.
    + intros x. rewrite !op_of_put.
      change (Bool.eqb (half PhaseForward) (half PhaseUnwind)) with false.
      change (Bool.eqb (half PhaseForward) (half PhaseForward)) with true.
      rewrite andb_false_r, andb_true_r. split.
      * case_bool_decide as Hx; [done|]. intros Hun. apply Hx. symmetry. by apply Hone.
      * intros Hun. destruct (Hu x) as [Hnone _]. congruence.
Qed.

Lemma keep_unwind topo s id op :
  well_named topo → consistent topo s → m_phase s = PhaseUnwind →
  in_flight s id ∨ runs_next topo s id → Op_Status op ≠ Driver.OpNone →
  consistent topo (mkState PhaseUnwind (put id PhaseUnwind op (m_steps s)) (m_failure s) None).
Proof.
  intros Hn Hc Hp Hr Hop. destruct (unwind_next topo s id Hn Hc Hp Hr) as [Hin Hnext].
  destruct (co_unwind _ _ Hc Hp) as (Hoc & (f & Hf & Hfop) & Hu).
  assert (∀ x, Op_Status (op_of (put id PhaseUnwind op (m_steps s)) x PhaseUnwind)
                = Driver.OpUnresolved → x = id) as Hone.
  { intros x. rewrite op_of_put, andb_true_r. case_bool_decide as Hx; [done|]. intros Hun.
    destruct (Hu x) as [_ Hnx]. specialize (Hnx Hun). unfold runs_next in *. rewrite Hp in *.
    destruct Hnx as [_ <-], Hnext as [_ <-]. done. }
  assert (touched topo (put id PhaseUnwind op (m_steps s))) as Ht by (apply touched_put; [apply Hc|done]).
  constructor; cbn [m_phase m_steps m_failure m_outcome]; try done.
  intros _. split; [done|]. split.
  - exists f. split; [done|]. rewrite !op_of_put, !andb_false_r. done.
  - intros x. split; [rewrite op_of_put, andb_false_r; apply Hu|]. intros Hun.
    pose proof (Hone x Hun) as Hx. subst x.
    assert (NextUnwind topo (facts (m_steps s)) =
            NextUnwind topo (facts (put id PhaseUnwind op (m_steps s)))) as Heq.
    { apply NextUnwind_same; try done; [apply Hc|by apply (unwind_one topo)| |].
      - intros a b Ha Hb. by rewrite (Hone a Ha), (Hone b Hb).
      - intros x. rewrite !fwd_facts, !unw_facts, !op_of_put, andb_false_r, andb_true_r.
        split; [done|]. case_bool_decide as Hx; [|by left]. subst x. right.
        rewrite op_of_put, andb_true_r, bool_decide_eq_true_2 in Hun by done. rewrite Hun. cbn [opState].
        split; [|by right]. revert Hnext. unfold runs_next. rewrite Hp. intros [Hk Hd].
        destruct (next_unwind topo (m_steps s) id Hn (co_touched _ _ Hc) Hk Hd) as (_ & _ & [-> | ->]);
          [by right|by left]. }
    revert Hnext. unfold runs_next. rewrite Hp. cbn [m_phase m_steps]. by rewrite <-Heq.
Qed.

Lemma compacted_touched (m : steps) id sr : compact_steps m !! id = Some sr → is_Some (m !! id).
Proof.
  unfold compact_steps. rewrite lookup_fmap, fmap_Some. intros (sr0 & Hsr & _).
  apply map_lookup_filter_Some in Hsr as [Hsr _]. by eexists.
Qed.

Lemma step_consistent topo s s' :
  well_named topo → consistent topo s → step topo s s' → consistent topo s'.
Proof.
  intros Hn Hc Hstep. destruct Hstep as [s id Ha Hr|s id st order Ha Hr|s id f order Ha Hp Hr Hf
    |s id f order Ha Hp Hr Hf|s id f order Ha Hp Hr Hf Hk|s Ha Hp Hk|s Ha Hp Hk].
  - destruct (proj2 Ha) as [Hp|Hp]; rewrite Hp.
    + apply keep_forward; auto.
    + apply keep_unwind; auto.
  - destruct (proj2 Ha) as [Hp|Hp]; rewrite Hp.
    + apply keep_forward; auto.
    + apply keep_unwind; auto.
  - by apply to_unwind; auto.
  - apply keep_unwind; auto.
  - by apply to_unwind; auto.
  - destruct (co_forward _ _ Hc Hp) as (Hf & _). constructor; cbn; try done.
    + intros id [sr Hsr]. apply (co_touched _ _ Hc). by apply (compacted_touched _ _ sr).
    + intros _. by left.
  - destruct (co_unwind _ _ Hc Hp) as (_ & (f & Hf & _) & _). constructor; cbn; try done.
    + intros id [sr Hsr]. apply (co_touched _ _ Hc). by apply (compacted_touched _ _ sr).
    + intros _. right. split; [done|]. by exists f.
Qed.

Lemma reached_consistent topo s : well_named topo → reached topo s → consistent topo s.
Proof.
  intros Hn Hr. unfold reached in Hr. revert Hr. generalize (fresh_consistent topo).
  generalize fresh. intros s0 H0 Hr. induction Hr as [|s1 s2 s3 H12 _ IH]; [done|].
  apply IH. by apply (step_consistent topo s1).
Qed.

(** ** The order of the operations *)

(** The step is past: it succeeded, or it is retired and never runs. *)
Definition past (m : steps) (x : Ledger.Step) : Prop :=
  Op_Status (op_of m (Step_ID x) PhaseForward) = Driver.OpSucceeded ∨ Step_Retired x = true.
(** The step is unwound: its unwind resolved, or it has nothing to unwind. *)
Definition unwound (m : steps) (x : Ledger.Step) : Prop :=
  Op_Status (op_of m (Step_ID x) PhaseUnwind) = Driver.OpSucceeded ∨
  Op_Status (op_of m (Step_ID x) PhaseUnwind) = Driver.OpFailed ∨
  ¬ (Step_Unwind x = true ∧
     Op_Status (op_of m (Step_ID x) PhaseForward) = Driver.OpSucceeded).
Record ordered (topo : Topology) (m : steps) : Prop := {
  or_forward : ∀ pre x post, topo = pre ++ x :: post →
    Op_Status (op_of m (Step_ID x) PhaseForward) ≠ Driver.OpNone → Forall (past m) pre;
  or_unwind : ∀ pre x post, topo = pre ++ x :: post →
    Op_Status (op_of m (Step_ID x) PhaseUnwind) ≠ Driver.OpNone → Forall (unwound m) post;
}.

Lemma ids_app pre x post : ids (pre ++ x :: post) = ids pre ++ Step_ID x :: ids post.
Proof. unfold ids. by rewrite fmap_app. Qed.

Lemma split_at pre x post pre' x' post' :
  NoDup (ids (pre ++ x :: post)) → pre ++ x :: post = pre' ++ x' :: post' →
  Step_ID x = Step_ID x' → pre = pre' ∧ x = x' ∧ post = post'.
Proof.
  revert pre'. induction pre as [|a pre IH]; intros [|b pre'] Hnd Heq Hx; simplify_eq/=; try done.
  - exfalso. apply NoDup_cons in Hnd as [Hni _]. apply Hni. fold (ids (pre' ++ x' :: post')).
    rewrite ids_app, Hx. set_solver.
  - exfalso. apply NoDup_cons in Hnd as [Hni _]. apply Hni. fold (ids (pre ++ x :: post)).
    rewrite ids_app, Hx. set_solver.
  - apply NoDup_cons in Hnd as [_ Hnd]. by destruct (IH pre') as (-> & -> & ->).
Qed.

(** The other steps of the topology have other ids. *)
Lemma split_others topo pre x post :
  NoDup (ids topo) → topo = pre ++ x :: post →
  Forall (λ y, Step_ID y ≠ Step_ID x) pre ∧ Forall (λ y, Step_ID y ≠ Step_ID x) post.
Proof.
  intros Hnd ->. unfold ids in Hnd. rewrite fmap_app in Hnd. apply NoDup_app in Hnd as (_ & Hd & Hnd).
  simpl in Hnd. apply NoDup_cons in Hnd as [Hni _]. split; apply Forall_forall; intros y Hy Hid.
  - apply (Hd (Step_ID y)); [by apply list_elem_of_fmap_2|]. rewrite Hid. apply list_elem_of_here.
  - apply Hni. rewrite <-Hid. by apply list_elem_of_fmap_2.
Qed.

Lemma ordered_forward topo m id op :
  NoDup (ids topo) → ordered topo m →
  Op_Status (op_of m id PhaseForward) ≠ Driver.OpSucceeded →
  (∀ x, Op_Status (op_of m x PhaseUnwind) = Driver.OpNone) →
  (∀ pre x post, topo = pre ++ x :: post → Step_ID x = id → Forall (past m) pre) →
  ordered topo (put id PhaseForward op m).
Proof.
  intros Hnd Ho Hns Hnu Hpast.
  assert (∀ y, Step_ID y ≠ id → past m y → past (put id PhaseForward op m) y) as Hother.
  { intros y Hy. unfold past. rewrite op_of_put, bool_decide_eq_false_2 by congruence. done. }
  constructor; intros pre x post Heq; rewrite op_of_put; [|].
  - destruct (split_others topo pre x post Hnd Heq) as [Hpre _].
    case_bool_decide as Hid; simpl.
    + intros _. apply (Forall_impl (λ y, past m y ∧ Step_ID y ≠ Step_ID x)).
      * apply Forall_and. split; [by apply (Hpast pre x post)|done].
      * intros y [Hy Hne]. apply Hother; [congruence|done].
    + intros Hst. apply (Forall_impl (past m)); [by apply (or_forward _ _ Ho pre x post)|].
      intros y Hy. destruct (decide (Step_ID y = id)) as [Hyid|]; [|by apply Hother].
      destruct Hy as [Hy|Hy]; [by rewrite Hyid in Hy|by right].
  - change (Bool.eqb (half PhaseForward) (half PhaseUnwind)) with false. rewrite andb_false_r.
    intros Hst. by rewrite Hnu in Hst.
Qed.

Lemma ordered_unwind topo m id op :
  NoDup (ids topo) → ordered topo m →
  Op_Status (op_of m id PhaseUnwind) ≠ Driver.OpSucceeded →
  Op_Status (op_of m id PhaseUnwind) ≠ Driver.OpFailed →
  (∀ pre x post, topo = pre ++ x :: post → Step_ID x = id → Forall (unwound m) post) →
  ordered topo (put id PhaseUnwind op m).
Proof.
  intros Hnd Ho Hns Hnf Hun.
  assert (∀ y ph, op_of (put id PhaseUnwind op m) y ph =
    if bool_decide (id = y) && Bool.eqb true (half ph) then op else op_of m y ph) as Hput
    by (intros; apply op_of_put).
  assert (∀ y, Step_ID y ≠ id → unwound m y → unwound (put id PhaseUnwind op m) y) as Hother.
  { intros y Hy. unfold unwound. rewrite !Hput, bool_decide_eq_false_2 by congruence. done. }
  constructor; intros pre x post Heq; rewrite Hput.
  - rewrite andb_false_r. intros Hst. apply (Forall_impl (past m)); [by apply (or_forward _ _ Ho pre x post)|].
    intros y. unfold past. by rewrite Hput, andb_false_r.
  - destruct (split_others topo pre x post Hnd Heq) as [_ Hpost].
    case_bool_decide as Hid; simpl.
    + intros _. apply (Forall_impl (λ y, unwound m y ∧ Step_ID y ≠ Step_ID x)).
      * apply Forall_and. split; [by apply (Hun pre x post)|done].
      * intros y [Hy Hne]. apply Hother; [congruence|done].
    + intros Hst. apply (Forall_impl (unwound m)); [by apply (or_unwind _ _ Ho pre x post)|].
      intros y Hy. destruct (decide (Step_ID y = id)) as [Hyid|]; [|by apply Hother].
      destruct Hy as [Hy|[Hy|Hy]]; [by rewrite Hyid in Hy..|]. right. right.
      by rewrite Hput, andb_false_r.
Qed.

Lemma opState_iff a b st : opState b = st → a = b ↔ opState a = st.
Proof. intros <-. split; [by intros ->|apply opState_inj]. Qed.
Lemma succeeded_facts m x :
  Ledger.succeeded (facts m) x ↔ Op_Status (op_of m (Step_ID x) PhaseForward) = Driver.OpSucceeded.
Proof. unfold Ledger.succeeded. rewrite fwd_facts. symmetry. by apply opState_iff. Qed.
Lemma resolved_facts m x :
  resolved (facts m) x ↔ Op_Status (op_of m (Step_ID x) PhaseUnwind) = Driver.OpSucceeded ∨
    Op_Status (op_of m (Step_ID x) PhaseUnwind) = Driver.OpFailed.
Proof.
  unfold resolved. rewrite unw_facts.
  rewrite (opState_iff _ Driver.OpSucceeded Ledger.OpSucceeded), (opState_iff _ Driver.OpFailed Ledger.OpFailed) by done.
  done.
Qed.
Lemma unwound_facts m x : resolved (facts m) x ∨ ¬ eligible (facts m) x → unwound m x.
Proof.
  unfold unwound, eligible. rewrite resolved_facts, succeeded_facts. tauto.
Qed.

(** What comes before the operation the run works on is past. *)
Lemma next_past topo s id pre x post :
  well_named topo → NoDup (ids topo) → consistent topo s → ordered topo (m_steps s) →
  m_phase s = PhaseForward → in_flight s id ∨ runs_next topo s id →
  topo = pre ++ x :: post → Step_ID x = id → Forall (past (m_steps s)) pre.
Proof.
  intros Hn Hnd Hc Ho Hp Hr Heq Hx.
  assert (in_flight s id → Forall (past (m_steps s)) pre) as Hflight.
  { unfold in_flight. rewrite Hp. intros Hf. apply (or_forward _ _ Ho pre x post Heq).
    by rewrite Hx, Hf. }
  destruct Hr as [Hf|Hr]; [by apply Hflight|]. unfold runs_next in Hr. rewrite Hp in Hr.
  destruct Hr as [Hk Hd]. destruct (named_facts topo (m_steps s) Hn (co_touched _ _ Hc)) as [Hnf _].
  pose proof (NextForward_sound topo (facts (m_steps s)) Hnf) as Hs.
  revert Hk Hd Hs. generalize (NextForward topo (facts (m_steps s))). intros dec Hk Hd Hs.
  destruct Hs as [| |id' n Hnfd Hu Huniq Hix| |pre' mid x' post' Hnfd Hnu Htopo Hfr Hmid Hret Hnone Hns|];
    try done; cbn [Decision_Step run_forward] in Hd.
  - apply Hflight. unfold in_flight. rewrite Hp. subst id'. apply forward_fact in Hu; [|done].
    by apply (opState_inj _ Driver.OpUnresolved).
  - clear Hflight. rewrite app_assoc in Htopo. rewrite Htopo in Hnd, Heq.
    destruct (split_at _ _ _ _ _ _ Hnd Heq) as (<- & <- & <-); [congruence|].
    apply Forall_app. split; [|by eapply Forall_impl; [exact Hmid|]; intros; right].
    destruct Hfr as [-> |(p & l & -> & Hl)]; [by constructor|]. apply succeeded_facts in Hl.
    apply Forall_app. split; [|by apply Forall_singleton; left].
    apply (or_forward _ _ Ho p l (mid ++ x' :: post')); [|by rewrite Hl].
    rewrite Htopo. by rewrite <-!app_assoc.
Qed.

Lemma next_unwound topo s id pre x post :
  well_named topo → NoDup (ids topo) → consistent topo s → ordered topo (m_steps s) →
  m_phase s = PhaseUnwind → in_flight s id ∨ runs_next topo s id →
  topo = pre ++ x :: post → Step_ID x = id → Forall (unwound (m_steps s)) post.
Proof.
  intros Hn Hnd Hc Ho Hp Hr Heq Hx. destruct (unwind_next topo s id Hn Hc Hp Hr) as [_ Hnext].
  unfold runs_next in Hnext. rewrite Hp in Hnext. destruct Hnext as [Hk Hd].
  destruct (named_facts topo (m_steps s) Hn (co_touched _ _ Hc)) as [_ Hnu].
  pose proof (NextUnwind_sound topo (facts (m_steps s)) Hnu) as Hs.
  revert Hk Hd Hs. generalize (NextUnwind topo (facts (m_steps s))). intros dec Hk Hd Hs.
  destruct Hs as [|pre' x' mid post' Htopo Hfr Hres Hel Hmid|]; try done.
  cbn [Decision_Step run_unwind] in Hd. rewrite <-app_assoc in Htopo. simpl in Htopo.
  rewrite Htopo in Hnd, Heq.
  destruct (split_at _ _ _ _ _ _ Hnd Heq) as (<- & <- & <-); [congruence|].
  apply Forall_app. split.
  - eapply Forall_impl; [exact Hmid|]. intros y Hy. apply unwound_facts. by right.
  - destruct Hfr as [-> |(l & p & -> & Hl)]; [by constructor|]. constructor.
    + apply unwound_facts. by left.
    + apply (or_unwind _ _ Ho (pre' ++ x' :: mid) l p).
      * by rewrite Htopo, <-app_assoc.
      * apply resolved_facts in Hl as [-> | ->]; done.
Qed.

Lemma ordered_empty topo : ordered topo ∅.
Proof. constructor; intros pre x post _; by rewrite op_of_empty. Qed.

Lemma open_status topo s id :
  well_named topo → consistent topo s → active s → in_flight s id ∨ runs_next topo s id →
  Op_Status (op_of (m_steps s) id (m_phase s)) = Driver.OpUnresolved ∨
  Op_Status (op_of (m_steps s) id (m_phase s)) = Driver.OpNone.
Proof.
  intros Hn Hc [_ Hp] [Hf|Hr]; [by left|]. unfold runs_next in Hr. destruct Hp as [Hp|Hp]; rewrite Hp in *.
  - destruct Hr as [Hk Hd].
    by destruct (next_forward topo (m_steps s) id Hn (co_touched _ _ Hc) Hk Hd) as (_ & _ & ?).
  - destruct Hr as [Hk Hd].
    by destruct (next_unwind topo (m_steps s) id Hn (co_touched _ _ Hc) Hk Hd) as (_ & _ & ?).
Qed.

Lemma put_ordered topo s id op :
  well_named topo → NoDup (ids topo) → consistent topo s → ordered topo (m_steps s) → active s →
  in_flight s id ∨ runs_next topo s id → ordered topo (put id (m_phase s) op (m_steps s)).
Proof.
  intros Hn Hnd Hc Ho Ha Hr. pose proof (open_status topo s id Hn Hc Ha Hr) as Hopen.
  destruct (proj2 Ha) as [Hp|Hp]; rewrite Hp in *.
  - apply ordered_forward; try done.
    + by destruct Hopen as [-> | ->].
    + intros x. by apply (co_forward _ _ Hc).
    + intros. by eapply next_past.
  - apply ordered_unwind; try done; try by destruct Hopen as [-> | ->].
    intros. by eapply next_unwound.
Qed.

Lemma step_ordered topo s s' :
  well_named topo → NoDup (ids topo) → consistent topo s → ordered topo (m_steps s) →
  step topo s s' → m_outcome s' = None → ordered topo (m_steps s').
Proof.
  intros Hn Hnd Hc Ho Hstep Hout. destruct Hstep as [s id Ha Hr|s id st order Ha Hr|s id f order Ha Hp Hr Hf
    |s id f order Ha Hp Hr Hf|s id f order Ha Hp Hr Hf Hk|s Ha Hp Hk|s Ha Hp Hk]; try done;
    cbn [m_steps]; try rewrite <-Hp at 1; apply put_ordered; auto.
Qed.

Lemma step_active topo s s' : step topo s s' → active s.
Proof. by intros [s1 id Ha|s1 id st o Ha|s1 id f o Ha|s1 id f o Ha|s1 id f o Ha|s1 Ha|s1 Ha]. Qed.

(** An invariant of the machine before the run ends. *)
Lemma reached_ind topo (P : state → Prop) :
  P fresh →
  (∀ s s', reached topo s → m_outcome s = None → P s → step topo s s' → m_outcome s' = None → P s') →
  ∀ s, reached topo s → m_outcome s = None → P s.
Proof.
  intros H0 Hs. refine (rtc_ind_r (λ s, m_outcome s = None → P s) fresh _ _); [done|].
  intros s1 s2 Hr Hstep IH Ho2. pose proof (step_active topo s1 s2 Hstep) as [Ho1 _].
  apply (Hs s1); auto.
Qed.

Lemma reached_ordered topo s :
  well_named topo → NoDup (ids topo) → reached topo s → m_outcome s = None → ordered topo (m_steps s).
Proof.
  intros Hn Hnd. revert s. apply reached_ind; [apply ordered_empty|].
  intros s s' Hr Ho Hord Hstep Ho'. apply (step_ordered topo s s'); auto using reached_consistent.
Qed.

Lemma step_final topo s s' id ph :
  well_named topo → consistent topo s → step topo s s' → m_outcome s' = None →
  ph = PhaseForward ∨ ph = PhaseUnwind →
  Op_Status (op_of (m_steps s) id ph) = Driver.OpSucceeded ∨
  Op_Status (op_of (m_steps s) id ph) = Driver.OpFailed →
  op_of (m_steps s') id ph = op_of (m_steps s) id ph.
Proof.
  intros Hn Hc Hstep Ho Hph Hres.
  assert (∀ x op, active s → in_flight s x ∨ runs_next topo s x →
    op_of (put x (m_phase s) op (m_steps s)) id ph = op_of (m_steps s) id ph) as Hput.
  { intros x op Ha Hr. pose proof (open_status topo s x Hn Hc Ha Hr) as Hopen.
    rewrite op_of_put. case_bool_decide as Hx; [|done]. subst x. simpl.
    destruct (proj2 Ha) as [Hp|Hp]; rewrite Hp in *; destruct Hph as [-> | ->]; cbn [half];
      try done; destruct Hopen as [Hop|Hop]; rewrite Hop in Hres; by destruct Hres. }
  destruct Hstep as [s x Ha Hr|s x st order Ha Hr|s x f order Ha Hp Hr Hf
    |s x f order Ha Hp Hr Hf|s x f order Ha Hp Hr Hf Hk|s Ha Hp Hk|s Ha Hp Hk]; try done;
    cbn [m_steps]; try rewrite <-Hp at 1; apply Hput; auto.
Qed.

Lemma index_complete topo id : id ∈ ids topo → is_Some (index topo id).
Proof.
  unfold ids. induction topo as [|x topo IH]; simpl; [set_solver|]. intros Hin.
  case_bool_decide as Hx; [by eexists|]. apply elem_of_cons in Hin as [->|Hin]; [done|].
  destruct (IH Hin) as [n ->]. by eexists.
Qed.

Lemma NextForward_kind topo s :
  well_named topo → consistent topo s → m_phase s = PhaseForward →
  Decision_Kind (NextForward topo (facts (m_steps s))) = KindRunForward ∨
  Decision_Kind (NextForward topo (facts (m_steps s))) = KindForwardComplete.
Proof.
  intros Hn Hc Hp. destruct (named_facts topo (m_steps s) Hn (co_touched _ _ Hc)) as [Hnf _].
  destruct (co_forward _ _ Hc Hp) as (_ & _ & Hu).
  destruct (NextForward_sound topo (facts (m_steps s)) Hnf)
    as [id Hf|a b Hab Ha Hb|id n|id Hf Hun Hone Hix|pre mid s' post|pre mid]; auto; exfalso.
  - apply forward_fact in Hf; [|done]. destruct (Hu id) as (_ & Hnf' & _).
    by apply Hnf', (opState_inj _ Driver.OpFailed).
  - apply forward_fact in Ha, Hb; [|done..]. destruct (Hu a) as (_ & _ & Hone).
    by apply Hab, Hone; apply (opState_inj _ Driver.OpUnresolved).
  - apply forward_fact in Hun; [|done]. apply (opState_inj _ Driver.OpUnresolved) in Hun.
    assert (id ∈ ids topo) as Hin by (apply (touched_op topo (m_steps s) id PhaseForward);
      [apply Hc|by rewrite Hun]).
    by apply index_complete in Hin as [n Hn']; rewrite Hn' in Hix.
Qed.

Lemma NextUnwind_kind topo s :
  well_named topo → consistent topo s → m_phase s = PhaseUnwind →
  Decision_Kind (NextUnwind topo (facts (m_steps s))) = KindRunUnwind ∨
  Decision_Kind (NextUnwind topo (facts (m_steps s))) = KindUnwindComplete.
Proof.
  intros Hn Hc Hp. destruct (named_facts topo (m_steps s) Hn (co_touched _ _ Hc)) as [_ Hnu].
  destruct (NextUnwind_sound topo (facts (m_steps s)) Hnu)
    as [a b Hab Ha Hb|pre x mid post|pre post]; auto; exfalso.
  apply unwind_fact in Ha, Hb; [|done..]. apply Hab.
  by apply (unwind_one topo s Hp Hc); apply (opState_inj _ Driver.OpUnresolved).
Qed.

Section properties.
Context (topo : Topology) (Hnamed : well_named topo) (Hids : NoDup (ids topo)).

(** C19: A reached run going forward has no failure, no failed or unwinding operation and
    at most one attempt in flight; one that unwinds has the failure of the step that
    failed it and at most one unwind attempt in flight; a finished one succeeded without a
    failure or failed with one. *)
Theorem run_states_consistent s : reached topo s →
  match m_phase s with
  | PhaseForward => m_failure s = None ∧ m_outcome s = None ∧
      (∀ id, Op_Status (op_of (m_steps s) id PhaseForward) ≠ Driver.OpFailed) ∧
      (∀ id, Op_Status (op_of (m_steps s) id PhaseUnwind) = Driver.OpNone) ∧
      (∀ a b, in_flight s a → in_flight s b → a = b)
  | PhaseUnwind => m_outcome s = None ∧
      (∃ f, m_failure s = Some f ∧
        Op_Status (op_of (m_steps s) (Failure_StepID f) PhaseForward) = Driver.OpFailed ∧
        Op_Failure (op_of (m_steps s) (Failure_StepID f) PhaseForward) = Some f) ∧
      (∀ id, Op_Status (op_of (m_steps s) id PhaseForward) ≠ Driver.OpUnresolved) ∧
      (∀ a b, in_flight s a → in_flight s b → a = b)
  | PhaseDone => (m_outcome s = Some OutcomeSuccess ∧ m_failure s = None) ∨
      (m_outcome s = Some OutcomeFailure ∧ ∃ f, m_failure s = Some f)
  | PhaseZero => False
  end.
Proof using Hnamed.
  intros Hr. pose proof (reached_consistent topo s Hnamed Hr) as Hc.
  pose proof (co_phase _ _ Hc) as Hz. unfold in_flight. destruct (m_phase s) eqn:Hp; [done|..].
  - destruct (co_forward _ _ Hc Hp) as (Hf & Ho & Hu). split_and!; [done..| | |].
    + intros id. apply Hu.
    + intros id. apply Hu.
    + intros a b Ha Hb. by apply (Hu a).
  - destruct (co_unwind _ _ Hc Hp) as (Ho & (f & Hf & Hop) & Hu). split_and!; [done| | |].
    + exists f. split; [done|]. by rewrite Hop.
    + intros id. apply Hu.
    + by apply (unwind_one topo).
  - by apply (co_done _ _ Hc).
Qed.

(** C21: An active run that was reached is never a broken one: the ledger decides on an
    operation to run or on completion, and the machine can step. *)
Theorem reconciliation_progresses s : reached topo s → active s →
  (m_phase s = PhaseForward →
    Decision_Kind (NextForward topo (facts (m_steps s))) ≠ KindInvalid) ∧
  (m_phase s = PhaseUnwind →
    Decision_Kind (NextUnwind topo (facts (m_steps s))) ≠ KindInvalid) ∧
  ∃ s', step topo s s'.
Proof using Hnamed.
  intros Hr Ha. pose proof (reached_consistent topo s Hnamed Hr) as Hc.
  destruct (proj2 Ha) as [Hp|Hp]; (split; [|split]); try (intros Hx; congruence).
  - intros _. by destruct (NextForward_kind topo s Hnamed Hc Hp) as [-> | ->].
  - destruct (NextForward_kind topo s Hnamed Hc Hp) as [Hk|Hk]; eexists.
    + eapply step_reserve; [done|]. unfold runs_next. by rewrite Hp.
    + by apply step_complete.
  - intros _. by destruct (NextUnwind_kind topo s Hnamed Hc Hp) as [-> | ->].
  - destruct (NextUnwind_kind topo s Hnamed Hc Hp) as [Hk|Hk]; eexists.
    + eapply step_reserve; [done|]. unfold runs_next. by rewrite Hp.
    + by apply step_unwound.
Qed.

(** C20: While the run has no outcome, the record of a resolved operation (status, attempts,
    state, failure, order) never changes again: no step succeeds or fails twice. *)
Theorem resolved_operations_final s s' id ph :
  reached topo s → rtc (step topo) s s' → m_outcome s' = None →
  ph = PhaseForward ∨ ph = PhaseUnwind →
  Op_Status (op_of (m_steps s) id ph) = Driver.OpSucceeded ∨
  Op_Status (op_of (m_steps s) id ph) = Driver.OpFailed →
  op_of (m_steps s') id ph = op_of (m_steps s) id ph.
Proof using Hnamed.
  intros Hr Hrtc Ho Hph Hres. revert Ho Hres.
  refine (rtc_ind_r (λ s', m_outcome s' = None → _ → op_of (m_steps s') id ph = _) s _ _ s' Hrtc);
    [done|].
  intros s1 s2 H01 Hstep IH Ho Hres. pose proof (step_active topo s1 s2 Hstep) as [Ho1 _].
  specialize (IH Ho1 Hres). rewrite <-IH in Hres |- *.
  apply (step_final topo s1 s2); try done. apply reached_consistent; [done|].
  unfold reached in *. by transitivity s.
Qed.

(** Steps run in the order of the definition: a step that was started has only
    succeeded or retired steps before it. *)
Theorem forward_in_order s pre x post :
  reached topo s → m_outcome s = None → topo = pre ++ x :: post →
  Op_Status (op_of (m_steps s) (Step_ID x) PhaseForward) ≠ Driver.OpNone →
  Forall (past (m_steps s)) pre.
Proof using Hnamed Hids.
  intros Hr Ho. apply or_forward. by apply reached_ordered.
Qed.

(** Unwinding is last in, first out: a step whose unwind was started has after it only
    steps whose unwind is resolved or that have nothing to unwind. *)
Theorem unwinds_in_reverse s pre x post :
  reached topo s → m_outcome s = None → topo = pre ++ x :: post →
  Op_Status (op_of (m_steps s) (Step_ID x) PhaseUnwind) ≠ Driver.OpNone →
  Forall (unwound (m_steps s)) post.
Proof using Hnamed Hids.
  intros Hr Ho. apply or_unwind. by apply reached_ordered.
Qed.
End properties.

(** ** A run that fails and unwinds *)

Definition ex_topo : Topology :=
  [mkStep "pay" true false; mkStep "old" true true; mkStep "ship" false false].
Definition reserving (s : state) (id : StepID) : state :=
  mkState (m_phase s) (put id (m_phase s) (reserve_op (op_of (m_steps s) id (m_phase s))) (m_steps s))
    (m_failure s) None.
Definition ex_reserved : state := reserving fresh "pay".
Definition ex_paid : state :=
  mkState PhaseForward (put "pay" PhaseForward
    (succeed_op (op_of (m_steps ex_reserved) "pay" PhaseForward) (Some "") 1) (m_steps ex_reserved))
    None None.
Definition ex_shipping : state := reserving ex_paid "ship".
Definition ex_failure : Failure := mkFailure "ship" PhaseForward 1 "no stock" 7 FailureKindUser "".
Definition ex_failed : state :=
  mkState PhaseUnwind (put "ship" PhaseForward
    (fail_op (op_of (m_steps ex_shipping) "ship" PhaseForward) ex_failure 2) (m_steps ex_shipping))
    (Some ex_failure) None.
Definition ex_unwinding : state := reserving ex_failed "pay".

Lemma ex_named : well_named ex_topo.
Proof. unfold well_named. set_solver. Defined.
Lemma ex_ids : NoDup (ids ex_topo).
Proof. repeat constructor; set_solver. Defined.
Lemma ex_reaches_paid : reached ex_topo ex_paid.
Proof.
  apply (rtc_l _ _ ex_reserved).
  { apply step_reserve; [split; [done|by left]|]. split; by vm_compute. }
  apply rtc_once. apply (step_succeed _ ex_reserved "pay"); [split; [done|by left]|]. by vm_compute.
Defined.
Lemma ex_unwinds : rtc (step ex_topo) ex_paid ex_unwinding.
Proof.
  apply (rtc_l _ _ ex_shipping).
  { apply step_reserve; [split; [done|by left]|]. split; by vm_compute. }
  apply (rtc_l _ _ ex_failed).
  { apply step_fail; [split; [done|by left]|done|by vm_compute|done]. }
  apply rtc_once. apply step_reserve; [split; [done|by right]|]. split; by vm_compute.
Defined.
Lemma ex_reached : reached ex_topo ex_unwinding.
Proof. unfold reached. transitivity ex_paid; [exact ex_reaches_paid|exact ex_unwinds]. Defined.

Lemma run_states_consistent_witness :
  ∃ f, m_failure ex_unwinding = Some f ∧
    Op_Status (op_of (m_steps ex_unwinding) (Failure_StepID f) PhaseForward) = Driver.OpFailed.
Proof.
  destruct (run_states_consistent ex_topo ex_named ex_unwinding ex_reached) as (_ & (f & Hf & Hs & _) & _).
  by exists f.
Defined.

Lemma reconciliation_progresses_witness : ∃ s', step ex_topo ex_unwinding s'.
Proof.
  apply (reconciliation_progresses ex_topo ex_named ex_unwinding ex_reached).
  split; [done|by right].
Defined.

Lemma resolved_operations_final_witness :
  op_of (m_steps ex_unwinding) "pay" PhaseForward = mkOp Driver.OpSucceeded 1%Z (Some "") None 1%Z.
Proof.
  rewrite (resolved_operations_final ex_topo ex_named ex_paid ex_unwinding "pay" PhaseForward
    ex_reaches_paid ex_unwinds eq_refl); [by vm_compute|by left|]. left. by vm_compute.
Defined.

Lemma forward_in_order_witness : Forall (past (m_steps ex_unwinding)) (take 2 ex_topo).
Proof.
  apply (forward_in_order ex_topo ex_named ex_ids ex_unwinding (take 2 ex_topo) (mkStep "ship" false false) []
    ex_reached eq_refl eq_refl). by vm_compute.
Defined.

Lemma unwinds_in_reverse_witness : Forall (unwound (m_steps ex_unwinding)) (drop 1 ex_topo).
Proof.
  apply (unwinds_in_reverse ex_topo ex_named ex_ids ex_unwinding [] (mkStep "pay" true false) (drop 1 ex_topo)
    ex_reached eq_refl eq_refl). by vm_compute.
Defined.
