(* ===== verification/Carry.v ===== *)
(** * Carry: the record a worker carries is the stored record

    [processRun] reads a run once and carries the record across its iterations,
    re-reading only when the run was marked dirty.  Here: what a transition of the
    engine leaves in the store is the record the worker goes on with, and so the
    carrying worker is equivalent to one that reads before every iteration. *)
From S2P Require Sample.
From S2P Require Import MemStore.
From S2P Require Import Prelude Kernel Text Errors Ledger Driver Engine Machine.
#[local] Open Scope engine_scope.

(** ** Transitions at the level of step maps *)

Definition put_write (m : steps) (ow : OpWrite) : steps :=
  put (OpWrite_StepID ow) (OpWrite_Phase ow) (OpWrite_Record ow) m.

Lemma put_Op_steps id phase op r : put_Op id phase op r = set_Steps (put id phase op (Run_Steps r)) r.
Proof. done. Qed.

Lemma op_Step rec id phase : Op (Driver.Step rec id) phase = op_of (Run_Steps rec) id phase.
Proof. done. Qed.

Lemma set_Steps_same r : set_Steps (Run_Steps r) r = r.
Proof. by destruct r. Qed.

Lemma write_ops_steps ops r :
  write_ops ops r = set_Steps (foldl put_write (Run_Steps r) ops) r.
Proof.
  revert r; induction ops as [|ow ops IH]; intros r.
  { simpl. by rewrite set_Steps_same. }
  change (write_ops ops (put_Op (OpWrite_StepID ow) (OpWrite_Phase ow) (OpWrite_Record ow) r) =
    set_Steps (foldl put_write (Run_Steps r) (ow :: ops)) r).
  rewrite IH. done.
Qed.

(** *** The flush adds only what is there *)

(** A write that repeats what [m] holds. *)
Definition repeats (m : steps) (ow : OpWrite) : Prop :=
  is_Some (m !! OpWrite_StepID ow) ∧
  OpWrite_Record ow = op_of m (OpWrite_StepID ow) (OpWrite_Phase ow).

Lemma repeats_nothing (m : steps) ops : Forall (repeats m) ops → foldl put_write m ops = m.
Proof.
  induction 1 as [|ow ops [Hin Hrec] _ IH]; [done|]. simpl.
  unfold put_write at 2. rewrite Hrec, put_same by done. done.
Qed.

Lemma flush_op_repeats (m : steps) id sr ops phase :
  m !! id = Some sr → ∃ extra, flush_op id sr ops phase = ops ++ extra ∧ Forall (repeats m) extra ∧
    Forall (λ ow, OpWrite_StepID ow = id) extra.
Proof.
  intros Hm. unfold flush_op. case_bool_decide; [exists []; by rewrite app_nil_r|].
  destruct (covered ops id phase); [exists []; by rewrite app_nil_r|].
  eexists. split; [reflexivity|]. rewrite !Forall_singleton. split; [|done].
  unfold repeats, op_of, step_of. simpl. rewrite Hm. eauto.
Qed.

Lemma flush_repeats (m : steps) cursor ord : ∀ ops,
  (∀ e, e ∈ ord → m !! e.1 = Some e.2) →
  ∃ extra, flush ord cursor ops = ops ++ extra ∧ Forall (repeats m) extra ∧
    Forall (λ ow, OpWrite_StepID ow ≠ cursor) extra.
Proof.
  induction ord as [|[id sr] ord IH]; intros ops Hord.
  { exists []. rewrite app_nil_r. done. }
  assert (Hm : m !! id = Some sr) by (apply (Hord (id, sr)); left).
  assert (∃ extra, flush_step cursor ops (id, sr) = ops ++ extra ∧ Forall (repeats m) extra ∧
            Forall (λ ow, OpWrite_StepID ow ≠ cursor) extra) as (e1 & He1 & Hr1 & Hc1).
  { unfold flush_step. case_bool_decide as Hid; [exists []; by rewrite app_nil_r|]. simpl.
    destruct (flush_op_repeats m id sr ops PhaseForward Hm) as (x1 & -> & Hx1 & Hy1).
    destruct (flush_op_repeats m id sr (ops ++ x1) PhaseUnwind Hm) as (x2 & -> & Hx2 & Hy2).
    exists (x1 ++ x2). rewrite app_assoc. split; [done|]. rewrite !Forall_app. split; [done|].
    split; eapply Forall_impl; eauto; simpl; congruence. }
  destruct (IH (ops ++ e1)) as (e2 & He2 & Hr2 & Hc2).
  { intros e He. apply Hord. by right. }
  exists (e1 ++ e2).
  change (flush ((id, sr) :: ord) cursor ops) with (flush ord cursor (flush_step cursor ops (id, sr))).
  rewrite He1, He2, app_assoc.
  rewrite !Forall_app. done.
Qed.

(** ** What a transition leaves in the store *)

(** The step map a transition produces before the flush. *)
Definition steps_after (t : Transition) (m : steps) : steps :=
  let m := foldl put_write m (T_Ops t) in
  let c := T_Cursor t in
  if bool_decide (Cursor_StepID c = "") then m
  else put (Cursor_StepID c) (Cursor_Phase c)
         (unresolved_op (Cursor_Attempts c) (op_of m (Cursor_StepID c) (Cursor_Phase c))) m.

(** The facts a transition of a worker never touches. *)
Definition kept (r : RunRecord) :=
  (identity r, Run_Annotations r, Run_Input r, Run_Output r, Run_Outcome r, Run_CreatedAt r).

Lemma record_after_plain t r :
  T_Outcome t = None →
  record_after t r =
    set_Steps (steps_after t (Run_Steps r))
      (write_failure (T_Failure t) (write_cursor (T_Cursor t) r)).
Proof.
  intros Hoc. unfold record_after. rewrite Hoc, write_ops_steps.
  unfold overlay_cursor, steps_after. destruct (T_Failure t); case_bool_decide; done.
Qed.

Lemma full_steps_after rec now t (m : steps) :
  steps_after t m = Run_Steps rec →
  steps_after (full_transition rec now t) m = Run_Steps rec.
Proof.
  intros Hm.
  destruct (flush_repeats (Run_Steps rec) (Cursor_StepID (T_Cursor t))
              (map_to_list (Run_Steps rec)) (T_Ops t)) as (extra & Hfl & Hrep & Hne).
  { intros [id sr] He. simpl. by apply elem_of_map_to_list in He. }
  unfold steps_after in *. cbn [T_Ops T_Cursor full_transition set_cursor_updated
    Cursor_StepID Cursor_Phase Cursor_Attempts]. rewrite Hfl, foldl_app.
  set (m1 := foldl put_write m (T_Ops t)) in *.
  assert (Hnop : foldl put_write m1 extra = m1); [|by rewrite Hnop].
  apply repeats_nothing, Forall_forall. intros ow How.
  pose proof (proj1 (Forall_forall _ _) Hrep ow How) as [Hin Hrec].
  pose proof (proj1 (Forall_forall _ _) Hne ow How) as Hid. cbn beta in *.
  case_bool_decide as Hc; [by rewrite Hm|].
  rewrite <-Hm in Hin, Hrec. unfold put in Hin at 1. rewrite lookup_insert_ne in Hin by congruence.
  unfold op_of in Hrec. rewrite step_of_put_ne in Hrec by congruence. done.
Qed.

(** A transition built from the worker's record leaves that record in the store. *)
Lemma record_after_carried rec now t r stepID n :
  T_Outcome t = None →
  T_Cursor t = activeCursor rec stepID n →
  kept r = kept rec →
  Run_Failure rec = (match T_Failure t with Some f => Some f | None => Run_Failure r end) →
  steps_after t (Run_Steps r) = Run_Steps rec →
  record_after (full_transition rec now t) r =
    set_Cancel (Run_Cancel r) (set_UpdatedAt now rec).
Proof.
  intros Hoc Hcur Hkept Hfail Hsteps.
  rewrite record_after_plain by done. rewrite (full_steps_after rec now t) by done.
  cbn [T_Failure T_Cursor full_transition]. rewrite Hcur.
  destruct r, rec; unfold kept, identity in Hkept; simpl in *.
  injection Hkept as -> -> -> -> -> -> -> ->.
  destruct (T_Failure t); simpl in *; by subst.
Qed.

(** ** Programs that keep the store and the dirty marks *)

Section keeps.
Context {S : Type}.

Definition same_store (w w' : World S) : Prop :=
  w_store w' = w_store w ∧ w_dirty w' = w_dirty w.
Definition keeps {A} (m : M S A) : Prop := ∀ w, same_store w (m w).1.

Lemma same_store_refl w : same_store w w.
Proof. done. Qed.
Lemma same_store_trans w1 w2 w3 : same_store w1 w2 → same_store w2 w3 → same_store w1 w3.
Proof. intros [H1 H2] [H3 H4]. split; congruence. Qed.

Lemma keeps_ret {A} (x : A) : keeps (mret x).
Proof. by intros w. Qed.
Lemma keeps_get : keeps (get (S:=S)).
Proof. by intros w. Qed.
Lemma keeps_now : keeps (now (S:=S)).
Proof. by intros w. Qed.
Lemma keeps_bind {A B} (m : M S A) (f : A → M S B) :
  keeps m → (∀ x, keeps (f x)) → keeps (bind m f).
Proof.
  intros Hm Hf w. unfold bind. pose proof (Hm w) as H1. destruct (m w) as [w1 x].
  pose proof (Hf x w1) as H2. by eapply same_store_trans.
Qed.
Lemma keeps_modify (f : World S → World S) :
  (∀ w, same_store w (f w)) → keeps (modify f).
Proof. intros Hf w. apply Hf. Qed.
Lemma keeps_emit e : keeps (emit (S:=S) e).
Proof. by intros w. Qed.
Lemma keeps_for_each {A} (l : list A) (f : A → M S unit) :
  (∀ x, keeps (f x)) → keeps (for_each l f).
Proof.
  intros Hf. induction l as [|x l IH]; [apply keeps_ret|]. simpl. apply keeps_bind; auto.
Qed.
Lemma keeps_or_panic {A} (x : option A) (f : A → M S unit) :
  (∀ y, keeps (f y)) → keeps (or_panic x f).
Proof. intros Hf. destruct x; [apply Hf|apply keeps_emit]. Qed.
End keeps.

#[export] Hint Resolve keeps_ret keeps_get keeps_now keeps_emit keeps_bind keeps_for_each
  keeps_or_panic : keeps.
#[export] Hint Extern 1 (keeps (modify _)) => apply keeps_modify; by intros [] : keeps.
#[export] Hint Extern 1 (keeps (dispatch _ _)) => apply keeps_emit : keeps.

(** Splitting a program at its matches and sequences. *)
Ltac keeps :=
  repeat first
    [ progress intros
    | solve [eauto with keeps]
    | apply keeps_bind
    | apply keeps_for_each
    | apply keeps_or_panic
    | match goal with
      | |- keeps (match ?x with _ => _ end) => destruct x
      | |- keeps (let '(_, _) := ?x in _) => destruct x
      end
    | progress cbn zeta ].

Section engine_keeps.
Context {S H : Type} `{Store S}.
Context (cfg : Config (S:=S) (H:=H)).

Lemma keeps_kick x : keeps (S:=S) (kick x).
Proof. unfold kick, dispatch. keeps. Qed.
#[local] Hint Resolve keeps_kick : keeps.
Lemma keeps_acquireRunClass rec (d : Binding.boundDef (H:=H)) : keeps (S:=S) (acquireRunClass rec d).
Proof. unfold acquireRunClass. keeps. Qed.
Lemma keeps_releaseRunClass id : keeps (S:=S) (releaseRunClass id).
Proof. unfold releaseRunClass. keeps. Qed.
Lemma keeps_acquireClass rec class : keeps (S:=S) (acquireClass rec class).
Proof. unfold acquireClass, dispatch. keeps. Qed.
Lemma keeps_releaseClass class : keeps (S:=S) (releaseClass class).
Proof. unfold releaseClass. keeps. Qed.
Lemma keeps_clearClassWait id : keeps (S:=S) (clearClassWait id).
Proof. unfold clearClassWait. keeps. Qed.
Lemma keeps_unpark id : keeps (S:=S) (unpark id).
Proof. unfold unpark. keeps. Qed.
#[local] Hint Resolve keeps_releaseRunClass keeps_clearClassWait keeps_unpark : keeps.
Lemma keeps_wake rec done expired : keeps (S:=S) (wake rec done expired).
Proof. unfold wake. keeps. Qed.
Lemma keeps_awaitTargetDone id : keeps (S:=S) (awaitTargetDone id).
Proof. unfold awaitTargetDone, dispatch. keeps. Qed.
Lemma keeps_markInvalid rec stepID reason : keeps (S:=S) (markInvalid rec stepID reason).
Proof. unfold markInvalid. keeps. Qed.
#[local] Hint Resolve keeps_wake keeps_awaitTargetDone keeps_markInvalid : keeps.
Lemma keeps_completeRun rec : keeps (S:=S) (completeRun rec).
Proof. unfold completeRun. keeps. Qed.
Lemma keeps_mark_targets id targets : keeps (mark_targets (S:=S) id targets).
Proof. induction targets; simpl; unfold targetDone; keeps. Qed.
#[local] Hint Resolve keeps_mark_targets : keeps.
Lemma keeps_awaitGate rec : keeps (S:=S) (awaitGate rec).
Proof. unfold awaitGate, gate_first, gate_decide, awaitCycle. keeps. Qed.
Lemma keeps_reduceInto rec what o : keeps (S:=S) (reduceInto (S:=S) rec what o).
Proof. unfold reduceInto. keeps. Qed.
End engine_keeps.
#[export] Hint Resolve keeps_kick keeps_acquireRunClass keeps_releaseRunClass keeps_acquireClass
  keeps_releaseClass keeps_clearClassWait keeps_unpark keeps_wake keeps_awaitTargetDone
  keeps_markInvalid keeps_completeRun keeps_awaitGate keeps_reduceInto : keeps.

(** ** The records the engine commits *)

(** [r] holds what a worker's record [rec] does, its scheduling fields and its cancel
    request aside. *)
Definition behind (r rec : RunRecord) : Prop :=
  kept r = kept rec ∧ Run_Failure r = Run_Failure rec ∧ Run_Steps r = Run_Steps rec ∧
  Run_Phase r = Run_Phase rec.

Lemma behind_view r rec : behind r rec → view r = view rec.
Proof.
  intros (Hk & Hf & Hs & Hp). unfold view, kept in *.
  assert (Run_Outcome r = Run_Outcome rec) as -> by congruence. by rewrite Hf, Hs, Hp.
Qed.

(** A transition is committed from [rec] when it leaves [rec] in a store that
    holds [r]. *)
Definition committed (r rec : RunRecord) (t : Transition) : Prop :=
  ∀ now, record_after (full_transition rec now t) r =
           set_Cancel (Run_Cancel r) (set_UpdatedAt now rec).

Lemma behind_cancel c rec : behind (set_Cancel c rec) rec.
Proof. by destruct rec. Qed.

Lemma steps_after_active rec stepID n (m : steps) ops f :
  stepID ≠ "" →
  steps_after (mkTransition (activeCursor rec stepID n) ops f None None) m =
    let m := foldl put_write m ops in
    put stepID (Run_Phase rec)
      (unresolved_op n (op_of m stepID (Run_Phase rec))) m.
Proof. intros Hne. unfold steps_after. simpl. by rewrite bool_decide_eq_false_2. Qed.

Lemma reserved_committed r rec stepID now :
  stepID ≠ "" → behind r rec →
  let rec' := reserved rec stepID (Run_Phase rec) now in
  committed r rec' (mkTransition
    (activeCursor rec' stepID (attempts_of rec' stepID (Run_Phase rec))) [] None None None).
Proof.
  intros Hne (Hk & Hf & Hs & _) rec' now'.
  assert (Run_Steps rec' = put stepID (Run_Phase rec)
            (mkOp Driver.OpUnresolved
               (Op_Attempts (op_of (Run_Steps rec) stepID (Run_Phase rec)) +u64 1)%go
               (Op_State (op_of (Run_Steps rec) stepID (Run_Phase rec)))
               (Op_Failure (op_of (Run_Steps rec) stepID (Run_Phase rec)))
               (Op_Order (op_of (Run_Steps rec) stepID (Run_Phase rec)))) (Run_Steps rec)
          ∧ Run_Phase rec' = Run_Phase rec) as [Hsteps Hphase].
  { unfold rec', reserved, markStarted. by destruct (IsZero _). }
  eapply record_after_carried; [done|reflexivity| | |].
  - rewrite Hk. unfold rec', reserved, markStarted. by destruct (IsZero _).
  - simpl. rewrite Hf. unfold rec', reserved, markStarted. by destruct (IsZero _).
  - rewrite steps_after_active by done. simpl. rewrite Hphase, Hs, Hsteps. f_equal.
    unfold unresolved_op, attempts_of. f_equal.
    rewrite op_Step, Hsteps, op_of_put, bool_decide_eq_true_2 by done.
    by destruct (Run_Phase rec).
Qed.

(** A resolution: the operation's row and an idle cursor. *)
Lemma resolved_committed r rec rec' stepID phase op f :
  behind r rec → kept rec' = kept rec →
  Run_Steps rec' = put stepID phase op (Run_Steps rec) →
  Run_Failure rec' = match f with Some f => Some f | None => Run_Failure rec end →
  committed r rec'
    (mkTransition (idleCursor rec') [op_write rec' stepID phase] f None None).
Proof.
  intros (Hk & Hf & Hs & _) Hk' Hs' Hf' now'.
  eapply record_after_carried; [done|reflexivity|congruence| |].
  - cbn [T_Failure]. by rewrite Hf, Hf'.
  - change (put_write (Run_Steps r) (op_write rec' stepID phase) = Run_Steps rec').
    unfold put_write. simpl. rewrite op_Step, Hs, Hs', op_of_put, bool_decide_eq_true_2 by done.
    by destruct phase.
Qed.

(** An attempt that leaves its operation in flight. *)
Lemma in_flight_committed r rec rec' stepID :
  stepID ≠ "" → behind r rec → kept rec' = kept rec →
  Run_Steps rec' = Run_Steps rec → Run_Failure rec' = Run_Failure rec →
  is_Some (Run_Steps rec !! stepID) →
  Op_Status (Op (Driver.Step rec stepID) (Run_Phase rec')) = Driver.OpUnresolved →
  committed r rec' (mkTransition
    (activeCursor rec' stepID (attempts_of rec stepID (Run_Phase rec'))) [] None None None).
Proof.
  intros Hne (Hk & Hf & Hs & _) Hk' Hs' Hf' Hin Hun now'.
  eapply record_after_carried; [done|reflexivity|congruence|by rewrite Hf, Hf'|].
  rewrite steps_after_active by done. simpl. rewrite Hs, Hs'.
  rewrite <-(put_same stepID (Run_Phase rec') (Run_Steps rec)) at 3 by done. f_equal.
  unfold unresolved_op, attempts_of. rewrite op_Step in *.
  destruct (op_of _ _ _); simpl in *; by subst.
Qed.

(** ** The carried record *)

Section carry.
Context {S H : Type} `{Store S} (ok : S → Prop) `{!StoreLaws S ok}.
Context (cfg : Config (S:=S) (H:=H)).
(** the definitions in use were bound *)
Context (defs_bound : Binding.bound_registry (e_defs cfg)).
(** what a handler may do to its own run in the store, directly or through others:
    request its cancellation, which marks it dirty *)
Context (calls_cancel_only : ∀ h inv w,
  let w' := (e_call cfg h inv w).1 in
  ok (w_store w) →
  ok (w_store w') ∧
  (inv_runID inv ∈ w_dirty w → inv_runID inv ∈ w_dirty w') ∧
  ∀ r, GetRun (w_store w) (inv_runID inv) = Ok r →
    ∃ c, GetRun (w_store w') (inv_runID inv) = Ok (set_Cancel c r) ∧
      (c = Run_Cancel r ∨ inv_runID inv ∈ w_dirty w')).

(** the pipeline of the run, and the state the run was in *)
Context (pipeline : PipelineID) (topo : Ledger.Topology) (s0 : state).
Context (topo_def : ∀ d, definition cfg pipeline = Some d → Binding.bd_topo d = topo).

(** The stored record came about by steps of the machine. *)
Definition history (r : RunRecord) : Prop :=
  Run_PipelineID r = pipeline ∧ rtc (step topo) s0 (view r).
Definition tracked (id : RunID) (w : World S) : Prop :=
  ok (w_store w) ∧ ∃ r, GetRun (w_store w) id = Ok r ∧ history r.

(** The store holds [r] for the run of [rec], whose cancel request is as in [rec] or
    newer and marked. *)
Definition holds (w : World S) (rec r : RunRecord) : Prop :=
  ok (w_store w) ∧ GetRun (w_store w) (Run_RunID rec) = Ok r ∧
  (Run_Cancel r = Run_Cancel rec ∨ Run_RunID rec ∈ w_dirty w) ∧ history r.
(** [rec] is the stored record, a newer cancel request aside. *)
Definition carried (w : World S) (rec : RunRecord) : Prop :=
  ∃ c, holds w rec (set_Cancel c rec).
Definition trailing (w : World S) (rec : RunRecord) : Prop :=
  ∃ r, holds w rec r ∧ behind r rec.

Lemma carried_trailing w rec : carried w rec → trailing w rec.
Proof. intros [c Hc]. exists (set_Cancel c rec). split; [done|apply behind_cancel]. Qed.

Lemma history_cancel c r : history r → history (set_Cancel c r).
Proof. done. Qed.
Lemma holds_tracked w rec r : holds w rec r → tracked (Run_RunID rec) w.
Proof. intros (Hok & Hg & _ & Hh). split; [done|]. by exists r. Qed.
Lemma carried_tracked w rec : carried w rec → tracked (Run_RunID rec) w.
Proof. intros [c Hc]. by eapply holds_tracked. Qed.
Lemma trailing_tracked w rec : trailing w rec → tracked (Run_RunID rec) w.
Proof. intros (r & Hr & _). by eapply holds_tracked. Qed.
Lemma tracked_same id w w' : same_store w w' → tracked id w → tracked id w'.
Proof. intros [Hs _] [Hok Hr]. unfold tracked. by rewrite Hs. Qed.

Lemma holds_same w w' rec r : same_store w w' → holds w rec r → holds w' rec r.
Proof. intros [Hs Hd] (Hok & Hg & Hc & Hh). unfold holds. by rewrite Hs, Hd. Qed.
Lemma carried_same w w' rec : same_store w w' → carried w rec → carried w' rec.
Proof. intros Hs [c Hc]. exists c. by eapply holds_same. Qed.
Lemma trailing_same w w' rec : same_store w w' → trailing w rec → trailing w' rec.
Proof. intros Hs (r & Hr & Hb). exists r. split; [by eapply holds_same|done]. Qed.

(** [rec] with other cursor fields still trails. *)
Definition cursor_only (rec rec' : RunRecord) : Prop :=
  behind rec rec' ∧ Run_Cancel rec' = Run_Cancel rec.
Lemma trailing_cursor w rec rec' : cursor_only rec rec' → trailing w rec → trailing w rec'.
Proof.
  intros [(Hk & Hf & Hs & Hp) Hc] (r & (Hok & Hg & Hcr & Hh) & (Hk' & Hf' & Hs' & Hp')).
  assert (Run_RunID rec' = Run_RunID rec) as Hid by (unfold kept, identity in Hk; congruence).
  exists r. unfold holds, behind. rewrite Hid, Hc. split; [done|]. repeat split; congruence.
Qed.

Lemma keeps_run {A} (m : M S A) w w' x : keeps m → m w = (w', x) → same_store w w'.
Proof. intros Hm Hw. pose proof (Hm w) as Hs. by rewrite Hw in Hs. Qed.

(** A transition the worker may commit: it leaves [rec] in the store, and is a step
    of the machine or keeps its state. *)
Definition may_commit (w : World S) (rec : RunRecord) (t : Transition) : Prop :=
  ∃ r, holds w rec r ∧ committed r rec t ∧ rtc (step topo) (view r) (view rec).

Lemma apply_carried rec t w w' rec' b :
  may_commit w rec t → apply rec t w = (w', (rec', b)) →
  tracked (Run_RunID rec) w' ∧ rec' = set_UpdatedAt (w_now w) rec ∧ (b = true → carried w' rec').
Proof.
  intros (r & (Hok & Hg & Hc & Hh) & Hcom & Hstep).
  unfold apply, bind, get, modify, mret, M_ret. cbn [Run_RunID set_UpdatedAt].
  replace (full_transition (set_UpdatedAt (w_now w) rec) (w_now w) t)
    with (full_transition rec (w_now w) t) by done.
  destruct (ApplyTransition _ _ _) as [s res] eqn:Happ. intros [= <- <- <-].
  assert (ok s) as Hoks by (by eapply law_apply_ok).
  destruct res as [[]|e].
  - destruct (law_apply _ _ _ _ _ Hok Hg Happ) as [_ Hg']. rewrite Hcom in Hg'.
    assert (history (set_Cancel (Run_Cancel r) (set_UpdatedAt (w_now w) rec))) as Hh'.
    { destruct Hh as [Hp Hh]. split; [|by etrans].
      pose proof (f_equal identity (Hcom (w_now w))) as Hi. rewrite record_after_identity in Hi.
      unfold identity in Hi. simpl in Hi |- *. congruence. }
    split; [split; [done|]; by eexists|]. split; [done|]. intros _.
    exists (Run_Cancel r). split; [done|]. split; [exact Hg'|]. split; [by destruct Hc; [left|right]|].
    done.
  - split; [|done]. split; [exact (law_apply_ok _ _ _ _ _ Hok Happ)|]. exists r. split; [|done].
    cbn [w_store set_store]. by rewrite (law_apply_err _ _ _ _ _ _ Hok Happ).
Qed.

(** A cancel request leaves every run's record as it is, or canceled and marked. *)
Lemma requestCancel_carried id cause rec w :
  carried w rec → carried (requestCancel cfg id cause w).1 rec.
Proof.
  intros (c & Hok & Hg & Hc & Hh).
  destruct (requestCancel_state cfg id cause w) as [Hs Hd].
  destruct (RequestCancel _ _ _) as [s res] eqn:Hr. simpl in Hs, Hd.
  assert (ok s) as Hoks by (by eapply law_cancel_ok).
  unfold carried, holds. rewrite Hs, Hd.
  destruct (decide (id = Run_RunID rec)) as [->|Hne].
  - destruct res as [b|e].
    + destruct (law_cancel _ _ _ _ _ _ Hok Hg Hr) as (_ & Hg' & _).
      destruct b; [|by exists c].
      exists (Some (mkCancel (boundText cfg cause) (w_now w))). split; [done|]. split; [done|].
      split; [right; set_solver|done].
    + exists c. split; [done|]. by rewrite (law_cancel_err _ _ _ _ _ _ Hok Hr).
  - exists c. pose proof (law_cancel_other _ _ _ (Run_RunID rec) _ _ Hok Hr ltac:(done)) as ->.
    split; [done|]. split; [done|]. split; [|done].
    destruct Hc; [by left|right]. destruct res as [[]|e]; set_solver.
Qed.

Lemma cascade_carried (targets : list RunID) cause rec w :
  carried w rec →
  carried (for_each targets (λ t, requestCancel cfg t cause;; mret tt) w).1 rec.
Proof.
  revert w; induction targets as [|t ts IH]; intros w Hw; [done|].
  simpl. unfold bind, mret, M_ret. pose proof (requestCancel_carried t cause rec w Hw) as H1.
  destruct (requestCancel cfg t cause w) as [w1 x]. by apply IH.
Qed.
(** *** Programs that end with a carried record *)

(** Run [id] is tracked; when the result is a [good] one, the record is that of [id],
    carried. *)
Definition gives {B} (id : RunID) (good : B → bool) (o : World S * (RunRecord * B)) : Prop :=
  tracked id o.1 ∧ (good o.2.2 = true → Run_RunID o.2.1 = id ∧ carried o.1 o.2.1).
Definition stable {A} (rec : RunRecord) (m : M S A) : Prop :=
  ∀ w, carried w rec → carried (m w).1 rec.

Lemma gives_ret {B} good rec (x : B) w :
  carried w rec → gives (Run_RunID rec) good (mret (M:=M S) (rec, x) w).
Proof. intros Hw. split; [by apply carried_tracked|done]. Qed.
Lemma gives_bad {B} id good rec (x : B) w :
  tracked id w → good x = false → gives id good (mret (M:=M S) (rec, x) w).
Proof. intros Hw Hx. split; [done|]. simpl. by rewrite Hx. Qed.
Lemma gives_keep {A B} id good (m : M S A) (f : A → M S (RunRecord * B)) w :
  keeps m → (∀ w' x, same_store w w' → gives id good (f x w')) → gives id good (bind m f w).
Proof.
  intros Hm Hf. unfold bind. pose proof (Hm w) as Hs. destruct (m w) as [w1 x]. by apply Hf.
Qed.
Lemma gives_keep_bad {A B} id good (m : M S A) rec (x : B) w :
  tracked id w → keeps m → good x = false → gives id good (bind m (λ _, mret (rec, x)) w).
Proof.
  intros Hw Hm Hx. apply gives_keep; [done|]. intros w' y Hs. apply gives_bad; [|done].
  by eapply tracked_same.
Qed.
Lemma gives_stable {A B} id good rec (m : M S A) (f : A → M S (RunRecord * B)) w :
  stable rec m → carried w rec → (∀ w' x, carried w' rec → gives id good (f x w')) →
  gives id good (bind m f w).
Proof.
  intros Hm Hw Hf. unfold bind. pose proof (Hm w Hw) as Hs. destruct (m w) as [w1 x].
  by apply Hf.
Qed.
Lemma gives_apply {B} good rec t (f : RunRecord * bool → M S (RunRecord * B)) w :
  may_commit w rec t →
  (∀ w' rec', carried w' rec' → rec' = set_UpdatedAt (w_now w) rec →
     gives (Run_RunID rec) good (f (rec', true) w')) →
  (∀ w' rec', tracked (Run_RunID rec) w' → gives (Run_RunID rec) good (f (rec', false) w')) →
  gives (Run_RunID rec) good (bind (apply rec t) f w).
Proof.
  intros Hc Ht Hf. unfold bind. destruct (apply rec t w) as [w1 [rec1 b]] eqn:Ha.
  destruct (apply_carried _ _ _ _ _ _ Hc Ha) as (Htr & Hrec & Hb).
  destruct b; [|by apply Hf]. apply Ht; [by apply Hb|done].
Qed.

Lemma stable_keeps {A} rec (m : M S A) : keeps m → stable rec m.
Proof. intros Hm w Hw. eapply carried_same; [apply Hm|done]. Qed.

Lemma trailing_holds w rec rec' :
  kept rec' = kept rec → Run_Cancel rec' = Run_Cancel rec → trailing w rec →
  ∃ r, holds w rec' r ∧ behind r rec.
Proof.
  intros Hk Hc (r & (Hok & Hg & Hcr) & Hb).
  assert (Run_RunID rec' = Run_RunID rec) as Hid by (unfold kept, identity in Hk; congruence).
  exists r. unfold holds. by rewrite Hid, Hc.
Qed.

(** A transition that resolves an operation of a trailing record. *)
Lemma resolved_holds w rec rec' stepID phase op f :
  trailing w rec → kept rec' = kept rec → Run_Cancel rec' = Run_Cancel rec →
  Run_Steps rec' = put stepID phase op (Run_Steps rec) →
  Run_Failure rec' = match f with Some f => Some f | None => Run_Failure rec end →
  step topo (view rec) (view rec') →
  may_commit w rec' (mkTransition (idleCursor rec') [op_write rec' stepID phase] f None None).
Proof.
  intros Hw Hk Hc Hs Hf Hst. destruct (trailing_holds w rec rec' Hk Hc Hw) as (r & Hr & Hb).
  exists r. split; [done|]. split; [by eapply resolved_committed|].
  rewrite (behind_view _ _ Hb). by apply rtc_once.
Qed.

Lemma in_flight_holds w rec rec' stepID :
  trailing w rec → kept rec' = kept rec → Run_Cancel rec' = Run_Cancel rec →
  stepID ≠ "" → view rec' = view rec → is_Some (Run_Steps rec !! stepID) →
  in_flight (view rec) stepID →
  may_commit w rec' (mkTransition
    (activeCursor rec' stepID (attempts_of rec stepID (Run_Phase rec'))) [] None None None).
Proof.
  intros Hw Hk Hc Hne Hv Hin Hun.
  destruct (trailing_holds w rec rec' Hk Hc Hw) as (r & Hr & Hb).
  assert (Run_Phase rec' = Run_Phase rec ∧ Run_Steps rec' = Run_Steps rec ∧
          Run_Failure rec' = Run_Failure rec) as (Hp & Hs & Hf) by (unfold view in Hv; by simplify_eq).
  exists r. split; [done|]. split.
  - eapply in_flight_committed; [done|done|done|done|done|done|]. by rewrite op_Step, Hp.
  - by rewrite (behind_view _ _ Hb), Hv.
Qed.

Lemma resolve_gives rec t ev res w :
  may_commit w rec t → keeps ev →
  gives (Run_RunID rec) ran_done (resolve rec t ev res w).
Proof.
  intros Hc Hev. apply gives_apply; [done| |].
  - intros w' rec' Hw' ->. simpl. apply gives_stable with (set_UpdatedAt (w_now w) rec);
      [by apply stable_keeps|done|]. intros w2 x Hw2.
    by apply (gives_ret ran_done (set_UpdatedAt (w_now w) rec)).
  - intros w' rec' Hw'. by apply gives_bad.
Qed.

(** The record of a worker about to run an operation, or with an attempt reserved. *)
Record deciding (rec : RunRecord) (stepID : StepID) (phase : Phase) : Prop := {
  de_named : stepID ≠ "";
  de_phase : Run_Phase rec = phase;
  de_active : active (view rec);
  de_next : runs_next topo (view rec) stepID;
}.
Record attempting (rec : RunRecord) (stepID : StepID) (phase : Phase) : Prop := {
  at_named : stepID ≠ "";
  at_run_phase : Run_Phase rec = phase;
  at_active : active (view rec);
  at_entry : is_Some (Run_Steps rec !! stepID);
  at_flight : in_flight (view rec) stepID;
}.

Lemma canceled_facts rec stepID p e now :
  let rec' := canceled_record cfg rec stepID p e now in
  kept rec' = kept rec ∧ Run_Cancel rec' = Run_Cancel rec ∧
  ∃ f order, view rec' = mkState PhaseUnwind
      (put stepID PhaseForward (fail_op (op_of (Run_Steps rec) stepID PhaseForward) f order)
         (Run_Steps rec))
      (Some f) (Run_Outcome rec) ∧
    Failure_StepID f = stepID ∧ Failure_Kind f = FailureKindCanceled.
Proof.
  split; [done|]. split; [done|]. unfold canceled_record. set (f := mkFailure _ _ _ _ _ _ _).
  match goal with |- context [NextOrder ?r] => set (order := NextOrder r) end. clearbody order.
  exists f, order. split; [|done].
  unfold view. rewrite put_Op_steps. cbn [Run_Phase Run_Steps Run_Failure Run_Outcome set_Steps
    clearLastError set_LastErrorAt set_LastReason set_LastError set_Awaited set_Awaiting
    set_NextAttemptAt set_Phase set_Failure].
  rewrite put_Op_steps. cbn [Run_Steps set_Steps Run_Outcome Run_Failure]. by rewrite put_put.
Qed.

Lemma canceled_commit w rec rec1 stepID :
  trailing w rec → active (view rec) → Run_Phase rec = PhaseForward →
  in_flight (view rec) stepID ∨ runs_next topo (view rec) stepID →
  kept rec1 = kept rec → Run_Cancel rec1 = Run_Cancel rec →
  (∃ f order, view rec1 = mkState PhaseUnwind
      (put stepID PhaseForward (fail_op (op_of (Run_Steps rec) stepID PhaseForward) f order)
         (Run_Steps rec))
      (Some f) (Run_Outcome rec) ∧
    Failure_StepID f = stepID ∧ Failure_Kind f = FailureKindCanceled) →
  may_commit w rec1
    (mkTransition (idleCursor rec1) [op_write rec1 stepID PhaseForward] (Run_Failure rec1)
       None None).
Proof.
  intros Hw Hact Hph Hrun Hkept Hcan (f & order & Hv & Hid & Hk).
  pose proof (f_equal m_steps Hv) as Hs. pose proof (f_equal m_failure Hv) as Hf.
  simpl in Hs, Hf. rewrite Hf.
  eapply (resolved_holds w rec); [done|done|done|exact Hs|exact Hf|].
  rewrite Hv. destruct Hact as [Hoc Hact]. cbn in Hoc. rewrite Hoc.
  by apply (step_cancel topo (view rec)).
Qed.

Lemma cancelOperation_gives rec stepID p e w :
  trailing w rec → active (view rec) → Run_Phase rec = PhaseForward →
  in_flight (view rec) stepID ∨ runs_next topo (view rec) stepID →
  gives (Run_RunID rec) id (cancelOperation cfg rec stepID p e w).
Proof.
  intros Hw Hact Hph Hrun. unfold cancelOperation. apply gives_keep; [apply keeps_now|].
  intros w1 now H1. apply gives_keep; [destruct (Run_Awaiting rec); keeps|]. intros w2 _ H2.
  assert (trailing w2 rec) as Hw2 by (by eapply trailing_same; [|eapply trailing_same]).
  destruct (canceled_facts rec stepID p e now) as (Hkept & Hcan & Hv).
  revert Hkept Hcan Hv. cbn zeta. generalize (canceled_record cfg rec stepID p e now).
  intros rec1 Hkept Hcan Hv.
  assert (Run_RunID rec1 = Run_RunID rec) as Hrid by (unfold kept, identity in Hkept; congruence).
  rewrite <-Hrid. apply gives_apply; [by eapply canceled_commit| |].
  - intros w3 rec3 Hw3 Heq. cbn [negb].
    assert (Run_RunID rec1 = Run_RunID rec3) as -> by (by rewrite Heq). clear Heq.
    apply gives_stable with rec3; [|done|].
    { destruct (Run_Awaiting rec) as [park|]; [|apply stable_keeps; keeps].
      destruct (Await_CancelCascade park); [|apply stable_keeps; keeps].
      intros w4 Hw4. by apply cascade_carried. }
    intros w4 _ Hw4. apply gives_stable with rec3; [apply stable_keeps; keeps|done|].
    intros w5 _ Hw5. apply gives_stable with rec3; [apply stable_keeps; destruct e; keeps|done|].
    intros w6 _ Hw6. apply gives_stable with rec3; [apply stable_keeps; keeps|done|].
    intros w7 _ Hw7. by apply gives_ret.
  - intros w3 rec3 Hw3. by apply gives_bad.
Qed.

Lemma parkAwait_gives rec stepID phase park timeout w :
  carried w rec → attempting rec stepID phase →
  gives (Run_RunID rec) ran_done
    (parkAwait rec stepID (attempts_of rec stepID phase) park timeout w).
Proof.
  intros Hw [Hne <- Hact Hin Hun]. pose proof (carried_tracked _ _ Hw) as Htr. unfold parkAwait.
  case_bool_decide; [apply gives_keep_bad; [done|keeps|done]|].
  case_bool_decide; [apply gives_keep_bad; [done|keeps|done]|].
  apply gives_keep; [keeps|]. intros w1 now Hs1. cbn zeta.
  set (rec1 := set_Awaited _ _).
  change (Run_RunID rec) with (Run_RunID rec1). apply gives_apply.
  - eapply (in_flight_holds w1 rec rec1); try done.
    apply carried_trailing. by eapply carried_same.
  - intros w2 rec2 Hw2 ->. simpl. unfold awaitCycle.
    pose proof (carried_tracked _ _ Hw2) as Htr2.
    apply gives_keep; [keeps|]. intros w3 [[]|] Hs3.
    + apply gives_keep_bad; [by eapply tracked_same|keeps|done].
    + apply gives_keep; [keeps|]. intros w4 _ Hs4.
      apply (gives_ret ran_done (set_UpdatedAt (w_now w1) rec1)).
      by repeat (eapply carried_same; [eassumption|]).
    + apply gives_bad; [by eapply tracked_same|done].
  - intros w2 rec2 Hw2. by apply gives_bad.
Qed.

(** *** The operations *)

Lemma call_handler_carried h inv rec w :
  inv_runID inv = Run_RunID rec → carried w rec → carried (call_handler cfg h inv w).1 rec.
Proof.
  intros Hid (c & Hok & Hg & Hc & Hh). unfold call_handler, bind.
  unfold attemptContext, emit, modify, get, attemptDone, mret, M_ret.
  match goal with |- context [e_call cfg h inv ?w0] => set (w1 := w0) end.
  assert (w_store w1 = w_store w ∧ w_dirty w1 = w_dirty w) as [Hs Hd] by done.
  pose proof (calls_cancel_only h inv w1) as Hcall. cbn zeta in Hcall.
  rewrite Hs, Hd, Hid in Hcall. destruct (Hcall Hok) as (Hok' & Hd' & Hr).
  destruct (Hr _ Hg) as (c' & Hg' & Hc'). destruct (e_call cfg h inv w1) as [w2 o]. simpl in *.
  exists c'. split; [done|]. split; [done|]. split; [|done]. simpl in Hc' |- *.
  destruct Hc' as [->|?]; [|by right]. destruct Hc; [by left|right; by apply Hd'].
Qed.

Lemma invokeForward_stable h inv rec :
  inv_runID inv = Run_RunID rec → stable rec (invokeForward cfg h inv).
Proof.
  intros Hid w Hw. pose proof (call_handler_carried h inv rec w Hid Hw) as Hc.
  unfold invokeForward, bind. by destruct (call_handler cfg h inv w) as [w' [o cause]].
Qed.
Lemma invokeUnwind_stable h inv rec :
  inv_runID inv = Run_RunID rec → stable rec (invokeUnwind cfg h inv).
Proof.
  intros Hid w Hw. pose proof (call_handler_carried h inv rec w Hid Hw) as Hc.
  unfold invokeUnwind, bind. by destruct (call_handler cfg h inv w) as [w' [o cause]].
Qed.

Lemma interrupted_or_retry_gives rec stepID phase i w :
  carried w rec → attempting rec stepID phase →
  gives (Run_RunID rec) ran_done (interrupted_or_retry cfg rec stepID phase i w).
Proof.
  intros Hw [Hne <- Hact Hin Hun]. pose proof (carried_tracked _ _ Hw) as Htr.
  unfold interrupted_or_retry.
  destruct (i_interrupted i && negb (i_panicked i)); [apply gives_keep_bad; [done|keeps|done]|].
  apply gives_keep; [keeps|]. intros w1 now Hs1. cbn zeta.
  set (rec1 := retrying cfg rec _ _ _).
  change (Run_RunID rec) with (Run_RunID rec1). apply resolve_gives; [|keeps].
  apply (in_flight_holds w1 rec rec1); try done.
  apply carried_trailing. by eapply carried_same.
Qed.

Lemma succeeded_step rec stepID phase b :
  attempting rec stepID phase → step topo (view rec) (view (succeeded rec stepID phase b)).
Proof.
  intros [Hne <- [Hoc Hact] Hin Hun].
  pose proof (step_succeed topo (view rec) stepID b (NextOrder rec) (conj Hoc Hact) Hun) as Hs.
  cbn in Hoc. eapply eq_ind; [exact Hs|].
  unfold view, succeeded, clearLastError. simpl. by rewrite Hoc.
Qed.

Lemma failed_forward_step rec stepID f :
  attempting rec stepID PhaseForward → Failure_StepID f = stepID →
  step topo (view rec) (view (failed_forward rec stepID f)).
Proof.
  intros [Hne Hph [Hoc Hact] Hin Hun] Hf.
  pose proof (step_fail topo (view rec) stepID f (NextOrder rec) (conj Hoc Hact) Hph Hun Hf) as Hs.
  cbn in Hoc. eapply eq_ind; [exact Hs|]. unfold view, failed_forward. cbn. by rewrite Hoc.
Qed.
Lemma failed_unwind_step rec stepID f :
  attempting rec stepID PhaseUnwind → Failure_StepID f = stepID →
  step topo (view rec) (view (failed_unwind rec stepID f)).
Proof.
  intros [Hne Hph [Hoc Hact] Hin Hun] Hf.
  pose proof (step_fail_unwind topo (view rec) stepID f (NextOrder rec) (conj Hoc Hact) Hph Hun Hf) as Hs.
  cbn in Hoc. eapply eq_ind; [exact Hs|]. unfold view, failed_unwind. cbn. by rewrite Hoc, Hph.
Qed.

Lemma forward_result_gives rec bs stepID i w :
  carried w rec → attempting rec stepID PhaseForward →
  gives (Run_RunID rec) ran_done (forward_result cfg rec bs stepID i w).
Proof.
  intros Hw Hat. pose proof Hat as [Hne Hph Hact Hin Hun].
  pose proof (carried_tracked _ _ Hw) as Htr.
  unfold forward_result. cbn zeta.
  assert (gives (Run_RunID rec) ran_done
    ((r ← cancelOperation cfg rec stepID (i_preempted i) (i_err i);
      let '(rec, ok) := r in mret (rec, if ok then reconcile else retry_store)) w)) as Hcancel.
  { pose proof (cancelOperation_gives rec stepID (i_preempted i) (i_err i) w) as Hc.
    specialize (Hc (carried_trailing _ _ Hw) Hact Hph (or_introl Hun)). unfold bind, gives in *.
    destruct (cancelOperation cfg rec stepID _ _ w) as [w1 [rec1 b]]. simpl in *.
    destruct Hc as [Htr' Hc]. split; [done|]. destruct b; [|done]. intros _. by apply Hc. }
  destruct (i_violation i); [apply gives_keep_bad; [done|keeps|done]|].
  destruct (AwaitRequest (i_err i)) as [park|] eqn:Hpark.
  { pose proof (parkAwait_gives rec stepID PhaseForward park (AwaitTimeout (i_err i)) w Hw Hat).
    by destruct (i_err i), (i_preempted i). }
  destruct (i_err i) as [e|] eqn:He; [destruct (i_preempted i); [done|]|].
  - destruct (FailureCause (Some e)) as [cause|] eqn:Hfc.
    2:{ by apply interrupted_or_retry_gives. }
    apply gives_keep; [keeps|]. intros w1 now Hs1.
    destruct (FailureInfo (Some e)) as [[kind reason] isf]. cbn zeta.
    set (f := failure_of _ _ _ _ _ _ _ _). set (rec1 := failed_forward rec stepID f).
    change (Run_RunID rec) with (Run_RunID rec1). apply resolve_gives; [|keeps].
    eapply (resolved_holds w1 rec rec1); try done.
    + apply carried_trailing. by eapply carried_same.
    + by apply failed_forward_step.
  - destruct (state_bytes _ _) as [b|reason]; [|apply gives_keep_bad; [done|keeps|done]].
    set (rec1 := succeeded rec stepID PhaseForward b).
    change (Run_RunID rec) with (Run_RunID rec1). apply resolve_gives; [|keeps].
    eapply (resolved_holds w rec rec1); try done; [by apply carried_trailing|].
    by apply succeeded_step.
Qed.

Lemma unwind_result_gives rec stepID i w :
  carried w rec → attempting rec stepID PhaseUnwind →
  gives (Run_RunID rec) ran_done (unwind_result cfg rec stepID i w).
Proof.
  intros Hw Hat. pose proof Hat as [Hne Hph Hact Hin Hun].
  pose proof (carried_tracked _ _ Hw) as Htr. unfold unwind_result. cbn zeta.
  destruct (i_violation i); [apply gives_keep_bad; [done|keeps|done]|].
  destruct (AwaitRequest (i_err i)) as [park|] eqn:Hpark; [by apply parkAwait_gives|].
  destruct (i_err i) as [e|] eqn:He.
  - destruct (FailureCause (Some e)) as [cause|] eqn:Hfc.
    2:{ by apply interrupted_or_retry_gives. }
    apply gives_keep; [keeps|]. intros w1 now Hs1.
    destruct (FailureInfo (Some e)) as [[kind reason] isf]. cbn zeta.
    set (f := failure_of _ _ _ _ _ _ _ _). set (rec1 := failed_unwind rec stepID f).
    change (Run_RunID rec) with (Run_RunID rec1). apply resolve_gives; [|keeps].
    eapply (resolved_holds w1 rec rec1); try done.
    + apply carried_trailing. by eapply carried_same.
    + by apply failed_unwind_step.
  - set (rec1 := succeeded rec stepID PhaseUnwind _).
    change (Run_RunID rec) with (Run_RunID rec1). apply resolve_gives; [|keeps].
    eapply (resolved_holds w rec rec1); try done; [by apply carried_trailing|].
    by apply succeeded_step.
Qed.

Lemma reserved_view rec stepID phase now :
  view (reserved rec stepID phase now) =
    mkState (Run_Phase rec)
      (put stepID phase (reserve_op (op_of (Run_Steps rec) stepID phase)) (Run_Steps rec))
      (Run_Failure rec) (Run_Outcome rec).
Proof. unfold reserved, markStarted. by destruct (IsZero _). Qed.

Lemma reserved_attempting rec stepID phase now t :
  deciding rec stepID phase →
  attempting (set_UpdatedAt t (reserved rec stepID phase now)) stepID phase.
Proof.
  intros [Hne Hph [Hoc Hact] _].
  assert (view (set_UpdatedAt t (reserved rec stepID phase now)) =
          view (reserved rec stepID phase now)) as Hv by done.
  rewrite reserved_view in Hv.
  constructor; [done| | | |].
  - etrans; [exact (f_equal m_phase Hv)|exact Hph].
  - rewrite Hv. by split.
  - pose proof (f_equal m_steps Hv) as Hs. simpl in Hs |- *. rewrite Hs. unfold put.
    rewrite lookup_insert_eq. by eexists.
  - rewrite Hv. unfold in_flight. simpl. rewrite Hph, op_of_put, bool_decide_eq_true_2 by done.
    by destruct phase.
Qed.

Lemma reserve_holds w rec stepID phase now :
  trailing w rec → deciding rec stepID phase →
  let rec' := reserved rec stepID phase now in
  may_commit w rec' (mkTransition
    (activeCursor rec' stepID (attempts_of rec' stepID phase)) [] None None None).
Proof.
  intros Hw [Hne <- Hact Hnext] rec'.
  destruct (trailing_holds w rec rec') as (r & Hr & Hb); [| |done|].
  1,2: unfold rec', reserved, markStarted; by destruct (IsZero _).
  exists r. split; [done|]. split; [by apply reserved_committed|].
  rewrite (behind_view _ _ Hb). unfold rec'. rewrite reserved_view. apply rtc_once.
  pose proof (step_reserve topo (view rec) stepID Hact Hnext) as Hs.
  destruct Hact as [Hoc _]. cbn in Hoc. eapply eq_ind; [exact Hs|]. cbn. by rewrite Hoc.
Qed.

Lemma reserved_RunID rec stepID phase now : Run_RunID (reserved rec stepID phase now) = Run_RunID rec.
Proof. unfold reserved, markStarted. by destruct (IsZero _). Qed.

Lemma runForward_gives rec bs stepID w :
  trailing w rec → deciding rec stepID PhaseForward →
  gives (Run_RunID rec) ran_done (runForward cfg rec bs stepID w).
Proof.
  intros Hw Hde. unfold runForward. apply gives_keep; [keeps|]. intros w1 now Hs1.
  rewrite <-(reserved_RunID rec stepID PhaseForward now). apply gives_apply.
  - apply reserve_holds; [by eapply trailing_same|done].
  - intros w2 rec2 Hw2 ->. cbn [negb].
    apply gives_stable with (set_UpdatedAt (w_now w1) (reserved rec stepID PhaseForward now));
      [by apply invokeForward_stable|done|].
    intros w3 i Hw3. apply (forward_result_gives _ bs stepID i w3 Hw3).
    by apply reserved_attempting.
  - intros w2 rec2 Hw2. by apply gives_bad.
Qed.

Lemma runUnwind_gives rec bs stepID w :
  trailing w rec → deciding rec stepID PhaseUnwind →
  gives (Run_RunID rec) ran_done (runUnwind cfg rec bs stepID w).
Proof.
  intros Hw Hde. unfold runUnwind. apply gives_keep; [keeps|]. intros w1 now Hs1.
  rewrite <-(reserved_RunID rec stepID PhaseUnwind now). apply gives_apply.
  - apply reserve_holds; [by eapply trailing_same|done].
  - intros w2 rec2 Hw2 ->. cbn [negb].
    destruct (Binding.bs_unwind bs) as [h|].
    2:{ apply gives_keep_bad; [by apply carried_tracked in Hw2|keeps|done]. }
    apply gives_stable with (set_UpdatedAt (w_now w1) (reserved rec stepID PhaseUnwind now));
      [by apply invokeUnwind_stable|done|].
    intros w3 i Hw3. apply (unwind_result_gives _ stepID i w3 Hw3).
    by apply reserved_attempting.
  - intros w2 rec2 Hw2. by apply gives_bad.
Qed.

(** *** Iterations *)

(** The run reached its outcome, in the worker's record and in the store. *)
Definition done_run (w : World S) (rec : RunRecord) : Prop :=
  ok (w_store w) ∧ Terminal rec = true ∧
  ∃ r, GetRun (w_store w) (Run_RunID rec) = Ok r ∧ Terminal r = true.
Definition live (id : RunID) (w : World S) (rec : RunRecord) : Prop :=
  Run_RunID rec = id ∧ (carried w rec ∨ done_run w rec).
Definition goes (id : RunID) (o : World S * next) : Prop :=
  tracked id o.1 ∧ match o.2 with Continue rec => live id o.1 rec | Return _ _ => True end.

Lemma goes_return id d b w : tracked id w → goes id (mret (M:=M S) (Return d b) w).
Proof. done. Qed.
Lemma goes_keep {A} id (m : M S A) (f : A → M S next) w :
  keeps m → (∀ w' x, same_store w w' → goes id (f x w')) → goes id (bind m f w).
Proof.
  intros Hm Hf. unfold bind. pose proof (Hm w) as Hs. destruct (m w) as [w1 x]. by apply Hf.
Qed.
Lemma goes_keep_return {A} id (m : M S A) d b w :
  tracked id w → keeps m → goes id (bind m (λ _, mret (Return d b)) w).
Proof.
  intros Hw Hm. apply goes_keep; [done|]. intros w' x Hs. apply goes_return.
  by eapply tracked_same.
Qed.
Lemma goes_gives {B} id good (m : M S (RunRecord * B)) (f : RunRecord * B → M S next) w :
  gives id good (m w) →
  (∀ w' rec x, good x = true → Run_RunID rec = id → carried w' rec → goes id (f (rec, x) w')) →
  (∀ w' rec x, good x = false → tracked id w' → goes id (f (rec, x) w')) →
  goes id (bind m f w).
Proof.
  intros Hm Ht Hf. unfold bind, gives in *. destruct (m w) as [w1 [rec x]]. simpl in Hm.
  destruct Hm as [Htr Hm]. destruct (good x) eqn:Hx; [|by apply Hf].
  destruct (Hm eq_refl). by apply Ht.
Qed.

Lemma run_in_class_goes rec (d : Binding.boundDef (H:=H)) stepID run w :
  tracked (Run_RunID rec) w →
  (∀ bs w', same_store w w' → gives (Run_RunID rec) ran_done (run bs w')) →
  goes (Run_RunID rec) (run_in_class rec d stepID run w).
Proof.
  intros Hw Hrun. unfold run_in_class.
  destruct (Binding.bd_steps d !! stepID) as [bs|]; [|apply goes_keep_return; [done|keeps]].
  apply goes_keep; [keeps|]. intros w1 [[proceed held] waited] H1.
  destruct proceed; [|apply goes_return; by eapply tracked_same]. cbn [negb].
  apply goes_keep; [keeps|]. intros w2 _ H2.
  apply goes_gives with ran_done.
  - apply Hrun. by eapply same_store_trans.
  - intros w3 rec3 x Hx Hid Hw3. apply goes_keep; [keeps|]. intros w4 _ H4.
    assert (carried w4 rec3) as Hw4 by (by eapply carried_same).
    rewrite Hx. split; [rewrite <-Hid; by apply carried_tracked|]. split; [done|by left].
  - intros w3 rec3 x Hx Hw3. apply goes_keep; [keeps|]. intros w4 _ H4. rewrite Hx.
    apply goes_return. by eapply tracked_same.
Qed.

(** The gate changes cursor fields only. *)
Lemma settleAwait_cursor rec done expired : cursor_only rec (settleAwait rec done expired).
Proof. by destruct rec. Qed.
Lemma cursor_only_refl rec : cursor_only rec rec.
Proof. done. Qed.
Lemma cursor_only_RunID rec rec' : cursor_only rec rec' → Run_RunID rec' = Run_RunID rec.
Proof. intros [(Hk & _ & _) _]. unfold kept, identity in Hk. congruence. Qed.
(** Every result of [m] satisfies [P]. *)
Definition returns {A} (P : A → Prop) (m : M S A) : Prop := ∀ w, P (m w).2.
Lemma returns_bind {A B} (P : B → Prop) (m : M S A) (f : A → M S B) :
  (∀ x, returns P (f x)) → returns P (bind m f).
Proof. intros Hf w. unfold bind. destruct (m w) as [w1 x]. apply Hf. Qed.
Lemma returns_bind_post {A B} (Q : A → Prop) (P : B → Prop) (m : M S A) (f : A → M S B) :
  returns Q m → (∀ x, Q x → returns P (f x)) → returns P (bind m f).
Proof.
  intros Hm Hf w. unfold bind. specialize (Hm w). destruct (m w) as [w1 x]. by apply Hf.
Qed.
Lemma returns_ret {A} (P : A → Prop) (x : A) : P x → returns P (mret (M:=M S) x).
Proof. by intros Hx w. Qed.

Definition gated (rec : RunRecord) (x : RunRecord * bool) : Prop := cursor_only rec x.1.
Lemma gated_refl rec b : gated rec (rec, b).
Proof. done. Qed.
Lemma gated_settle rec done expired b : gated rec (settleAwait rec done expired, b).
Proof. by destruct rec. Qed.
#[local] Hint Resolve gated_refl gated_settle : core.

Lemma wake_gated rec done expired : returns (λ r, gated rec (r, false)) (wake rec done expired).
Proof. unfold wake. do 2 (apply returns_bind; intros ?). by apply returns_ret. Qed.

Lemma gate_decide_gated rec park need : returns (gated rec) (gate_decide rec park need).
Proof.
  assert (∀ done expired, returns (gated rec) (r ← wake rec done expired; mret (r, false))) as Hw.
  { intros ds ex. eapply returns_bind_post; [apply wake_gated|]. intros r Hr. by apply returns_ret. }
  unfold gate_decide. apply returns_bind. intros w. cbn zeta.
  destruct (_ <=? _)%Z; [apply Hw|]. destruct (IsZero _); [by apply returns_ret|].
  destruct (_ <=? 0)%Z; [apply Hw|]. apply returns_bind. intros ?. by apply returns_ret.
Qed.

Lemma gate_first_gated rec park :
  returns (λ o, match o with Some r => gated rec r | None => True end) (gate_first rec park).
Proof.
  unfold gate_first. apply returns_bind. intros c.
  assert (returns (λ o, match o with Some r => gated rec r | None => True end)
    (ok ← mark_targets (Run_RunID rec) (Await_Targets park);
     if ok then mret None
     else w ← get; let done := (JoinSet.Done (w_joins w) (Run_RunID rec)).1 in
          unpark (Run_RunID rec);; mret (Some (settleAwait rec done false, false)))) as Hm.
  { apply returns_bind. intros [].
    - by apply returns_ret.
    - do 2 (apply returns_bind; intros ?). by apply returns_ret. }
  destruct c as [[]|]; [|done|done]. do 2 (apply returns_bind; intros ?). by apply returns_ret.
Qed.

Lemma awaitGate_cursor rec : returns (gated rec) (awaitGate rec).
Proof.
  unfold awaitGate. destruct (Run_Awaiting rec) as [park|]; [|by apply returns_ret].
  case_bool_decide; [apply returns_bind; intros ?; by apply returns_ret|].
  apply returns_bind. intros w. destruct (JoinSet.Register _ _ _ _ _) as [joins fresh].
  apply returns_bind. intros ?.
  eapply returns_bind_post with (Q := λ o, match o with Some r => gated rec r | None => True end).
  - destruct fresh; [apply gate_first_gated|by apply returns_ret].
  - intros [r|] Hr; [by apply returns_ret|]. apply gate_decide_gated.
Qed.

Lemma cursor_only_view rec rec' : cursor_only rec rec' → view rec' = view rec.
Proof. intros [Hb _]. symmetry. by apply behind_view. Qed.

Lemma deciding_view rec rec' stepID phase :
  deciding rec stepID phase → view rec' = view rec → deciding rec' stepID phase.
Proof.
  intros [Hne Hph Hact Hnext] Hv. pose proof (f_equal m_phase Hv) as Hp. simpl in Hp.
  constructor; [done|congruence|by rewrite Hv|by rewrite Hv].
Qed.

Lemma goes_gate rec (f : RunRecord * bool → M S next) w :
  trailing w rec →
  (∀ w' rec', trailing w' rec' → Run_RunID rec' = Run_RunID rec → view rec' = view rec →
     goes (Run_RunID rec) (f (rec', false) w')) →
  (∀ w' rec', tracked (Run_RunID rec) w' → goes (Run_RunID rec) (f (rec', true) w')) →
  goes (Run_RunID rec) (bind (awaitGate rec) f w).
Proof.
  intros Hw Hf Ht. unfold bind. pose proof (keeps_awaitGate rec w) as Hs.
  pose proof (awaitGate_cursor rec w) as Hc.
  destruct (awaitGate rec w) as [w1 [rec1 []]].
  { apply Ht. eapply tracked_same; [done|]. by apply trailing_tracked. }
  unfold gated in Hc. cbn in *. apply Hf; [|by apply cursor_only_RunID|by apply cursor_only_view].
  eapply trailing_cursor; [done|]. by eapply trailing_same.
Qed.

(** *** Completion and the loop *)

(** A worker that ended its run. *)
Definition ends (id : RunID) (o : World S * (RunRecord * bool)) : Prop :=
  tracked id o.1 ∧ (o.2.2 = true → Run_RunID o.2.1 = id ∧ done_run o.1 o.2.1).

(** The state a terminal commit leaves. *)
Definition finishing (rec : RunRecord) (oc : Outcome) : state :=
  mkState PhaseDone (compact_steps (Run_Steps rec)) (Run_Failure rec) (Some oc).

Lemma record_after_finish r rec rec1 now oc b :
  behind r rec → Run_Phase rec1 = PhaseDone → Run_Steps rec1 = Run_Steps rec →
  let t := mkTransition (idleCursor rec1) [] None b (Some oc) in
  view (record_after (full_transition rec1 now t) r) = finishing rec oc.
Proof.
  intros (_ & Hf & Hs & _) Hp1 Hs1 t. unfold record_after. simpl.
  destruct (flush_repeats (Run_Steps rec1) "" (map_to_list (Run_Steps rec1)) [])
    as (extra & Hfl & Hrep & _).
  { intros [id sr] He. simpl. by apply elem_of_map_to_list in He. }
  simpl in Hfl. rewrite Hfl, write_ops_steps, repeats_nothing by (by rewrite Hs, <-Hs1).
  rewrite set_Steps_same. unfold overlay_cursor. rewrite bool_decide_eq_true_2 by done.
  unfold view, finishing. cbn. by rewrite Hp1, Hf, Hs.
Qed.

Lemma finish_ends rec rec1 oc w r :
  holds w rec r → behind r rec → Run_RunID rec1 = Run_RunID rec →
  Run_Steps rec1 = Run_Steps rec → step topo (view rec) (finishing rec oc) →
  ends (Run_RunID rec) (finish rec1 oc w).
Proof.
  intros (Hok & Hg & Hc & Hh) Hb Hid Hst Hstep. unfold finish. unfold bind at 1.
  set (rec2 := set_Phase PhaseDone (set_Outcome (Some oc) rec1)).
  unfold apply, bind at 1, get, modify, mret, M_ret. cbn [Run_RunID set_UpdatedAt].
  replace (Run_RunID rec2) with (Run_RunID rec) by done.
  replace (full_transition (set_UpdatedAt (w_now w) rec2) (w_now w))
    with (full_transition rec2 (w_now w)) by done.
  destruct (ApplyTransition _ _ _) as [s res] eqn:Happ. unfold bind at 1. cbn [fst snd].
  destruct res as [[]|e].
  - destruct (law_apply _ _ _ _ _ Hok Hg Happ) as [_ Hg']. cbn [negb].
    set (w1 := set_store s w). set (rec3 := set_UpdatedAt (w_now w) rec2).
    assert (tracked (Run_RunID rec) w1 ∧ done_run w1 rec3) as [Ht Hd].
    { pose proof (record_after_finish r rec rec2 (w_now w) oc (Run_Output rec2) Hb eq_refl Hst) as Hv.
      assert (ok s) as Hoks by (by eapply law_apply_ok). split.
      - split; [done|]. eexists. split; [exact Hg'|]. destruct Hh as [Hp Hh]. split.
        + pose proof (record_after_identity (full_transition rec2 (w_now w) (mkTransition
            (idleCursor rec2) [] None (Run_Output rec2) (Some oc))) r) as Hi.
          unfold identity in Hi. simpl in Hi |- *. congruence.
        + etrans; [exact Hh|]. rewrite (behind_view _ _ Hb). apply rtc_once.
          eapply eq_ind; [exact Hstep|]. by symmetry.
      - split; [done|]. split; [done|].
        eexists. split; [change (Run_RunID rec3) with (Run_RunID rec1); rewrite Hid; exact Hg'|].
        apply Terminal_spec. by rewrite record_after_outcome. }
    clearbody w1. pose proof (keeps_completeRun rec3 w1) as Hs. unfold bind.
    destruct (completeRun rec3 w1) as [w2 x]. split; [by eapply tracked_same|].
    intros _. split; [done|]. destruct Hs as [Hs _]. unfold done_run. simpl in *. by rewrite Hs.
  - split; [|done]. split; [exact (law_apply_ok _ _ _ _ _ Hok Happ)|]. exists r. split; [|done].
    cbn [w_store set_store]. by rewrite (law_apply_err _ _ _ _ _ _ Hok Happ).
Qed.

Lemma reduceInto_returns rec what o :
  returns (λ x, x.2 = true → Run_RunID x.1 = Run_RunID rec ∧ Run_Steps x.1 = Run_Steps rec)
    (reduceInto (S:=S) rec what o).
Proof.
  unfold reduceInto. cbn zeta.
  destruct (r_panic o); [|destruct (r_violation o); [|destruct (r_out o)]];
    first [by apply returns_ret|apply returns_bind; intros ?; by apply returns_ret].
Qed.

Lemma complete_ends rec reduces what o oc w :
  trailing w rec → step topo (view rec) (finishing rec oc) →
  ends (Run_RunID rec)
    ((r ← (if reduces : bool then reduceInto rec what o else mret (rec, true));
      let '(rec, ok) := r in
      if negb ok then mret (rec, false) else finish rec oc) w).
Proof.
  intros Hw Hstep. pose proof Hw as (r & Hr & Hb). unfold bind. destruct reduces.
  - pose proof (keeps_reduceInto rec what o w) as Hs.
    pose proof (reduceInto_returns rec what o w) as Hid.
    destruct (reduceInto rec what o w) as [w1 [rec1 []]]; simpl in *.
    + destruct (Hid eq_refl). eapply finish_ends; [by eapply holds_same|done..].
    + split; [|done]. eapply tracked_same; [done|]. by apply trailing_tracked.
  - by eapply finish_ends.
Qed.

Lemma run_forward_step_goes rec (d : Binding.boundDef (H:=H)) stepID w :
  trailing w rec → deciding rec stepID PhaseForward →
  goes (Run_RunID rec) (run_forward_step cfg rec d stepID w).
Proof.
  intros Hw Hde. pose proof (trailing_tracked _ _ Hw) as Htr.
  unfold run_forward_step. apply goes_keep; [keeps|]. intros w1 w1' Hs1.
  assert (trailing w1 rec) as Hw1 by (by eapply trailing_same).
  pose proof (trailing_tracked _ _ Hw1) as Htr1.
  destruct (w_draining w1'); [by apply goes_return|].
  destruct (Run_Cancel rec).
  - destruct Hde as [Hne Hph Hact Hnext]. eapply goes_gives;
      [apply cancelOperation_gives; [done|done|done|by right]| |].
    + intros w2 rec2 [] Hx Hid Hw2; [|done]. split; [rewrite <-Hid; by apply carried_tracked|].
      split; [done|by left].
    + intros w2 rec2 [] Hx Hw2; [done|]. by apply goes_return.
  - apply goes_gate; [done| |intros; by apply goes_return].
    intros w2 rec2 Hw2 Hid2 Hv2. apply goes_keep; [keeps|]. intros w3 t Hs3.
    pose proof (trailing_tracked _ _ Hw2) as Htr2. rewrite <-Hid2.
    destruct (retryGate rec2 t); [apply goes_return; by eapply tracked_same|].
    apply goes_keep; [keeps|]. intros w4 b Hs4.
    assert (trailing w4 rec2) as Hw4 by (by repeat (eapply trailing_same; [eassumption|])).
    pose proof (trailing_tracked _ _ Hw4) as Htr4. destruct b; [|by apply goes_return].
    cbn [negb]. apply run_in_class_goes; [done|]. intros bs w5 Hs5.
    apply runForward_gives; [by eapply trailing_same|]. by eapply deciding_view.
Qed.

Lemma run_unwind_step_goes rec (d : Binding.boundDef (H:=H)) stepID w :
  trailing w rec → deciding rec stepID PhaseUnwind →
  goes (Run_RunID rec) (run_unwind_step cfg rec d stepID w).
Proof.
  intros Hw Hde. pose proof (trailing_tracked _ _ Hw) as Htr.
  unfold run_unwind_step. apply goes_keep; [keeps|]. intros w1 w1' Hs1.
  assert (trailing w1 rec) as Hw1 by (by eapply trailing_same).
  pose proof (trailing_tracked _ _ Hw1) as Htr1.
  destruct (w_draining w1'); [by apply goes_return|].
  apply goes_gate; [done| |intros; by apply goes_return].
  intros w2 rec2 Hw2 Hid2 Hv2. apply goes_keep; [keeps|]. intros w3 t Hs3.
  assert (trailing w3 rec2) as Hw3 by (by eapply trailing_same).
  pose proof (trailing_tracked _ _ Hw3) as Htr3. rewrite <-Hid2.
  destruct (retryGate rec2 t); [by apply goes_return|].
  apply run_in_class_goes; [done|]. intros bs w4 Hs4.
  apply runUnwind_gives; [by eapply trailing_same|]. by eapply deciding_view.
Qed.

Lemma definition_named p d s :
  definition cfg p = Some d → s ∈ Ledger.Step_ID <$> Binding.bd_topo d → s ≠ "".
Proof.
  intros (c & mw & d0 & Hb & ->)%defs_bound Hs. simpl in Hs.
  apply list_elem_of_fmap in Hs as (st & -> & Hst). by eapply Binding.bound_topo_named.
Qed.

(** The worker's decision about a nonterminal record is the machine's. *)
Lemma deciding_next rec (d : Binding.boundDef (H:=H)) stepID phase :
  definition cfg (Run_PipelineID rec) = Some d → Run_PipelineID rec = pipeline →
  Terminal rec = false → Run_Phase rec = phase → phase = PhaseForward ∨ phase = PhaseUnwind →
  stepID ∈ Ledger.Step_ID <$> Binding.bd_topo d →
  runs_next (Binding.bd_topo d) (view rec) stepID →
  deciding rec stepID phase.
Proof.
  intros Hd Hp Ht Hph Hphs Hin Hnext. rewrite Hp in Hd.
  constructor; [by eapply definition_named|done| |by rewrite <-(topo_def d)].
  split; [by apply Terminal_false|]. simpl. by rewrite Hph.
Qed.

Lemma active_complete rec (d : Binding.boundDef (H:=H)) :
  definition cfg (Run_PipelineID rec) = Some d → Run_PipelineID rec = pipeline →
  Terminal rec = false → Run_Phase rec = PhaseForward →
  Decision_Kind (NextForward (Binding.bd_topo d) (factsOf rec)) = KindForwardComplete →
  step topo (view rec) (finishing rec OutcomeSuccess).
Proof.
  intros Hd Hp Ht Hph Hk. rewrite Hp in Hd. rewrite (topo_def d Hd) in Hk.
  apply (step_complete topo (view rec)); [|done|done].
  split; [by apply Terminal_false|by left].
Qed.
Lemma active_unwound rec (d : Binding.boundDef (H:=H)) :
  definition cfg (Run_PipelineID rec) = Some d → Run_PipelineID rec = pipeline →
  Terminal rec = false → Run_Phase rec = PhaseUnwind →
  Decision_Kind (NextUnwind (Binding.bd_topo d) (factsOf rec)) = KindUnwindComplete →
  step topo (view rec) (finishing rec OutcomeFailure).
Proof.
  intros Hd Hp Ht Hph Hk. rewrite Hp in Hd. rewrite (topo_def d Hd) in Hk.
  apply (step_unwound topo (view rec)); [|done|done].
  split; [by apply Terminal_false|by right].
Qed.

Lemma carried_pipeline w rec : carried w rec → Run_PipelineID rec = pipeline.
Proof. by intros (c & _ & _ & _ & Hp & _). Qed.

Lemma goes_ends id (m : M S (RunRecord * bool)) w :
  ends id (m w) →
  goes id (bind m (λ '(rec, ok), mret (if ok : bool then Continue rec else Return 0 false)) w) ∧
  goes id (bind m (λ _, mret (Return 0 false)) w).
Proof.
  unfold ends, bind. destruct (m w) as [w1 [rec1 b]]. simpl. intros [Ht He].
  split; [|by apply goes_return]. split; [done|]. destruct b; [|done].
  destruct (He eq_refl). split; [done|by right].
Qed.

(** An iteration of the worker on a carried record goes on with a carried one, and
    has done steps of the machine. *)
Lemma advance_goes rec w : carried w rec → goes (Run_RunID rec) (advance cfg rec w).
Proof.
  intros Hw. pose proof (carried_trailing _ _ Hw) as Ht.
  pose proof (carried_tracked _ _ Hw) as Htr. pose proof (carried_pipeline _ _ Hw) as Hp.
  unfold advance. destruct (Terminal rec) eqn:Hterm.
  { apply goes_keep; [keeps|]. intros w1 x Hs.
    apply goes_keep_return; [by eapply tracked_same|keeps]. }
  destruct (definition cfg (Run_PipelineID rec)) as [d|] eqn:Hd.
  2:{ apply goes_keep_return; [done|keeps]. }
  destruct (Run_Phase rec) eqn:Hph; try (apply goes_keep_return; [done|keeps]).
  - pose proof (Ledger.NextForward_step (Binding.bd_topo d) (factsOf rec)) as [Hstep Hnot].
    pose proof (active_complete rec d Hd Hp Hterm Hph) as Hcomplete.
    pose proof (deciding_next rec d (Decision_Step (NextForward (Binding.bd_topo d) (factsOf rec)))
      _ Hd Hp Hterm Hph (or_introl eq_refl)) as Hde.
    unfold runs_next in Hde. simpl in Hde. rewrite Hph in Hde.
    change (facts (Run_Steps rec)) with (factsOf rec) in Hde.
    destruct (NextForward _ _) as [k st reason]; destruct k; cbn in *.
    + apply run_forward_step_goes; [done|]. apply Hde; [by apply Hstep|done].
    + apply goes_ends. unfold reduceAndComplete. apply complete_ends; [done|]. by apply Hcomplete.
    + by destruct Hnot.
    + by destruct Hnot.
    + apply goes_keep_return; [done|keeps].
  - pose proof (Ledger.NextUnwind_step (Binding.bd_topo d) (factsOf rec)) as [Hstep Hnot].
    pose proof (active_unwound rec d Hd Hp Hterm Hph) as Hcomplete.
    pose proof (deciding_next rec d (Decision_Step (NextUnwind (Binding.bd_topo d) (factsOf rec)))
      _ Hd Hp Hterm Hph (or_intror eq_refl)) as Hde.
    unfold runs_next in Hde. simpl in Hde. rewrite Hph in Hde.
    change (facts (Run_Steps rec)) with (factsOf rec) in Hde.
    destruct (NextUnwind _ _) as [k st reason]; destruct k; cbn in *.
    + by destruct Hnot.
    + by destruct Hnot.
    + apply run_unwind_step_goes; [done|]. apply Hde; [by apply Hstep|done].
    + apply goes_ends. unfold reduceFailureAndComplete. apply complete_ends; [done|].
      by apply Hcomplete.
    + apply goes_keep_return; [done|keeps].
Qed.

(** ** The worker that reads before every iteration *)

Fixpoint reread (fuel : nat) (id : RunID) : M S (option (Duration * bool)) :=
  match fuel with
  | 0 => mret None
  | Datatypes.S fuel =>
    w ← get;
    if w_stopped w then mret (Some (0%Z, false))
    else
      modify (set_dirty (Signals.DirtySet.Take (w_dirty w) id).1);;
      match GetRun (w_store w) id with
      | Err ErrRunNotFound => mret (Some (0%Z, false))
      | Err _ => mret (Some (second, true))
      | Ok rec =>
        n ← advance cfg rec;
        match n with
        | Return delay again => mret (Some (delay, again))
        | Continue _ => reread fuel id
        end
      end
  end.

Lemma advance_terminal rec r w :
  Terminal rec = true → Terminal r = true → Run_RunID rec = Run_RunID r →
  advance cfg rec w = advance cfg r w.
Proof. intros H1 H2 Hid. unfold advance. by rewrite H1, H2, Hid. Qed.

(** What a worker may carry into an iteration on run [id]. *)
Definition may_carry (id : RunID) (w : World S) (c : option RunRecord) : Prop :=
  tracked id w ∧ match c with Some rec => live id w rec | None => True end.

(** A carried record not marked dirty is the stored one, or both are terminal. *)
Lemma clean_carry id w rec :
  live id w rec → id ∉ w_dirty w →
  ∃ r, GetRun (w_store w) id = Ok r ∧ ∀ w', advance cfg rec w' = advance cfg r w'.
Proof.
  intros [<- [(c & Hok & Hg & Hc & _)|(Hok & Ht & r & Hg & Htr)]] Hd.
  - exists (set_Cancel c rec). split; [done|]. intros w'. destruct Hc as [Hc|Hc]; [|done].
    simpl in Hc. subst c. by destruct rec.
  - exists r. split; [done|]. intros w'. apply advance_terminal; [done|done|].
    symmetry. by eapply law_id.
Qed.

Lemma read_carried w id r s :
  ok (w_store w) → GetRun (w_store w) id = Ok r → history r → carried (set_dirty s w) r.
Proof.
  intros Hok Hg Hh. pose proof (law_id _ _ _ Hok Hg) as Hid. exists (Run_Cancel r).
  unfold holds. simpl. rewrite Hid. replace (set_Cancel _ _) with r by (by destruct r).
  split; [done|]. split; [done|]. split; [by left|done].
Qed.

(** One iteration: from a tracked run, both workers end the same way, or go on. *)
Lemma iteration id w c :
  may_carry id w c →
  ∃ r, GetRun (w_store w) id = Ok r ∧
    (∀ w', (match c with
            | Some rec => if (Signals.DirtySet.Take (w_dirty w) id).2 then GetRun (w_store w) id else Ok rec
            | None => GetRun (w_store w) id
            end = Ok r) ∨
           (∃ rec, match c with
            | Some rec => if (Signals.DirtySet.Take (w_dirty w) id).2 then GetRun (w_store w) id else Ok rec
            | None => GetRun (w_store w) id
            end = Ok rec ∧ advance cfg rec w' = advance cfg r w')) ∧
    goes id (advance cfg r (set_dirty (w_dirty w ∖ {[id]}) w)).
Proof.
  intros [(Hok & r & Hg & Hh) Hc]. exists r. split; [done|]. split.
  - intros w'. rewrite Hg. destruct c as [rec|]; [|by left].
    unfold Signals.DirtySet.Take. cbn [snd]. case_bool_decide as Hd; [by left|]. right. exists rec. split; [done|].
    destruct (clean_carry id w rec Hc Hd) as (r' & Hg' & Ha). rewrite Ha. congruence.
  - pose proof (advance_goes r _ (read_carried w id r (w_dirty w ∖ {[id]}) Hok Hg Hh)) as Hgo.
    by rewrite (law_id _ _ _ Hok Hg) in Hgo.
Qed.

Lemma goes_may_carry id w w' rec : goes id (w', Continue rec) → w = w' → may_carry id w (Some rec).
Proof. intros [Ht Hl] ->. by split. Qed.

Lemma processRun_reread fuel : ∀ id w c,
  may_carry id w c →
  processRun_in cfg fuel id c w = reread fuel id w ∧ tracked id (reread fuel id w).1.
Proof.
  induction fuel as [|fuel IH]; intros id w c Hc; [by destruct Hc|].
  destruct (iteration id w c Hc) as (r & Hg & Hread & Hgo). destruct Hc as [Htr _]. simpl.
  unfold bind at 1 4 7. unfold get. destruct (w_stopped w); [done|].
  unfold Signals.DirtySet.Take. cbn [fst].
  unfold bind at 1 3 5. unfold modify. set (w1 := set_dirty _ w) in *. rewrite Hg.
  assert (∀ rec, advance cfg rec w1 = advance cfg r w1 →
    bind (advance cfg rec) (λ n, match n with
      | Continue rec => processRun_in cfg fuel id (Some rec)
      | Return delay again => mret (Some (delay, again)) end) w1 =
    bind (advance cfg r) (λ n, match n with
      | Continue _ => reread fuel id
      | Return delay again => mret (Some (delay, again)) end) w1 ∧
    tracked id (bind (advance cfg r) (λ n, match n with
      | Continue _ => reread fuel id
      | Return delay again => mret (Some (delay, again)) end) w1).1) as Hstep.
  { intros rec Ha. unfold bind. rewrite Ha. destruct (advance cfg r w1) as [w2 [rec2|d b]].
    - apply IH. by eapply goes_may_carry.
    - split; [done|]. by destruct Hgo. }
  rewrite Hg in Hread. unfold Signals.DirtySet.Take in Hread. cbn [snd] in Hread.
  destruct (Hread w1) as [->|(rec & -> & Ha)]; [by apply Hstep|by apply Hstep].
Qed.
End carry.

Section theorems.
Context {S H : Type} `{Store S} (ok : S → Prop) `{!StoreLaws S ok}.
Context (cfg : Config (S:=S) (H:=H)).
Context (defs_bound : Binding.bound_registry (e_defs cfg)).
Context (calls_cancel_only : ∀ h inv w,
  let w' := (e_call cfg h inv w).1 in
  ok (w_store w) →
  ok (w_store w') ∧
  (inv_runID inv ∈ w_dirty w → inv_runID inv ∈ w_dirty w') ∧
  ∀ r, GetRun (w_store w) (inv_runID inv) = Ok r →
    ∃ c, GetRun (w_store w') (inv_runID inv) = Ok (set_Cancel c r) ∧
      (c = Run_Cancel r ∨ inv_runID inv ∈ w_dirty w')).

(** The topology the run is reconciled with. *)
Definition topology (p : PipelineID) : Topology :=
  match definition cfg p with Some d => Binding.bd_topo d | None => [] end.

Lemma processRun_machine fuel id w r :
  ok (w_store w) → GetRun (w_store w) id = Ok r →
  let topo := topology (Run_PipelineID r) in
  processRun cfg fuel id w = reread cfg fuel id w ∧
  ∃ r', GetRun (w_store (processRun cfg fuel id w).1) id = Ok r' ∧
    Run_PipelineID r' = Run_PipelineID r ∧ rtc (step topo) (view r) (view r').
Proof.
  intros Hok Hg topo.
  assert (∀ d, definition cfg (Run_PipelineID r) = Some d → Binding.bd_topo d = topo) as Htopo.
  { intros d Hd. unfold topo, topology. by rewrite Hd. }
  destruct (processRun_reread ok cfg defs_bound calls_cancel_only (Run_PipelineID r) topo (view r)
    Htopo fuel id w None) as [Heq Htr].
  { split; [|done]. split; [done|]. exists r. split; [done|]. split; [done|]. apply rtc_refl. }
  unfold processRun. rewrite Heq. split; [done|]. destruct Htr as (_ & r' & Hg' & Hp & Hs).
  by exists r'.
Qed.

(** C2: the worker of a run, which reads the run's record once and carries it across
    its iterations, re-reading only when the run is marked dirty, does exactly what a
    worker that reads the record before every iteration does: the same handler calls,
    store transitions, dispatches and result, for any number of iterations, whatever
    the handlers do to the rest of the world and however many cancel requests arrive
    while they run. *)
Theorem carrying_is_rereading fuel id w :
  ok (w_store w) → processRun cfg fuel id w = reread cfg fuel id w.
Proof.
  intros Hok. destruct (GetRun (w_store w) id) as [r|e] eqn:Hg; [by apply (processRun_machine _ _ _ r)|].
  destruct fuel as [|fuel]; [done|]. unfold processRun. simpl. unfold bind, get, modify.
  destruct (w_stopped w); [done|]. simpl. rewrite Hg. by destruct e.
Qed.

(** C1: the worker refines the abstract machine of a run: whatever the handlers
    answer, whatever fails and wherever the worker stops, the stored record of the run
    has changed only by steps of the machine over the topology of its pipeline's
    definition: reservations of the operation the ledger decides on, resolutions of an
    operation in flight, cancellations, and the two completions. *)
Theorem worker_refines_machine fuel id w r :
  ok (w_store w) → GetRun (w_store w) id = Ok r →
  ∃ r', GetRun (w_store (processRun cfg fuel id w).1) id = Ok r' ∧
    rtc (step (topology (Run_PipelineID r))) (view r) (view r').
Proof.
  intros Hok Hg. destruct (processRun_machine fuel id w r Hok Hg) as (_ & r' & Hg' & _ & Hs).
  by exists r'.
Qed.

(** The topology of a bound definition has named steps, each once. *)
Lemma topology_bound p : well_named (topology p) ∧ NoDup (ids (topology p)).
Proof using defs_bound.
  unfold topology. destruct (definition cfg p) as [d|] eqn:Hd; [|split; [apply not_elem_of_nil|constructor]].
  destruct (defs_bound p d Hd) as (c & mw & d0 & Hb & ->). simpl. split.
  - intros (x & Hx & Hin)%list_elem_of_fmap. by apply (Binding.bound_topo_named _ _ _ _ Hb Hin).
  - by apply (Binding.bound_topo_ids _ _ _ Hb).
Qed.

(** C8: a run that Schedule created and workers have processed keeps the order of its
    definition: in the stored record, a step that was started comes after succeeded or
    retired steps only, and a step whose unwind was started comes before steps that are
    unwound or have nothing to unwind only; processing keeps the run reached, so this
    holds after every worker. *)
Theorem worked_runs_in_order fuel id w r :
  ok (w_store w) → GetRun (w_store w) id = Ok r →
  let topo := topology (Run_PipelineID r) in
  reached topo (view r) →
  ∃ r', GetRun (w_store (processRun cfg fuel id w).1) id = Ok r' ∧ reached topo (view r') ∧
    (Run_Outcome r' = None → ∀ pre x post, topo = pre ++ x :: post →
      (Op_Status (op_of (Run_Steps r') (Ledger.Step_ID x) PhaseForward) ≠ Driver.OpNone →
         Forall (past (Run_Steps r')) pre) ∧
      (Op_Status (op_of (Run_Steps r') (Ledger.Step_ID x) PhaseUnwind) ≠ Driver.OpNone →
         Forall (unwound (Run_Steps r')) post)).
Proof.
  intros Hok Hg topo Hr. destruct (topology_bound (Run_PipelineID r)) as [Hn Hnd].
  destruct (processRun_machine fuel id w r Hok Hg) as (_ & r' & Hg' & _ & Hs). exists r'.
  assert (reached topo (view r')) as Hr' by (unfold reached in *; by transitivity (view r)).
  split; [done|]. split; [done|]. intros Ho pre x post Heq.
  destruct (reached_ordered topo (view r') Hn Hnd Hr' Ho) as [Hf Hu].
  split; [by apply (Hf pre x post)|by apply (Hu pre x post)].
Qed.
End theorems.

(** ** A run canceled by its own handler *)

Definition ex_worker : Engine.Config (S:=MemStore.MemStore) (H:=Sample.script) :=
  Sample.sample (Sample.sample_config "p" "" (Sample.Succeeds "s") (Sample.CancelsItself "no")).
Definition ex_world : World MemStore.MemStore :=
  Sample.sample_world [Sample.sample_run "r" "p" "x"].

Lemma ex_world_ok : MemStore.mem_ok (w_store ex_world).
Proof.
  apply Sample.store_with_ok; [|apply NoDup_singleton].
  apply Forall_singleton. split; [done|]. simpl. repeat split; discriminate.
Qed.

Lemma carrying_is_rereading_witness :
  (processRun ex_worker 9 "r" ex_world).2 = Some (0%Z, false) ∧
  processRun ex_worker 9 "r" ex_world = reread ex_worker 9 "r" ex_world.
Proof.
  split; [vm_compute; reflexivity|].
  apply (carrying_is_rereading MemStore.mem_ok).
  - apply Sample.sample_bound.
  - apply Sample.sample_calls.
  - exact ex_world_ok.
Defined.

Lemma worker_refines_machine_witness :
  ∃ r', GetRun (w_store (processRun ex_worker 9 "r" ex_world).1) "r" = Ok r' ∧
    rtc (step (topology ex_worker "p")) fresh (view r').
Proof.
  apply (worker_refines_machine MemStore.mem_ok ex_worker (Sample.sample_bound _ _)
    (Sample.sample_calls _) 9 "r" ex_world (Sample.sample_run "r" "p" "x") ex_world_ok).
  by vm_compute.
Defined.

Lemma worked_runs_in_order_witness :
  ∃ r', GetRun (w_store (processRun ex_worker 4 "r" ex_world).1) "r" = Ok r' ∧
    reached (topology ex_worker "p") (view r').
Proof.
  destruct (worked_runs_in_order MemStore.mem_ok ex_worker (Sample.sample_bound _ _)
    (Sample.sample_calls _) 4 "r" ex_world (Sample.sample_run "r" "p" "x") ex_world_ok)
    as (r' & Hg & Hr & _); [by vm_compute|apply rtc_refl|].
  exists r'. split; [exact Hg|exact Hr].
Defined.
