(* ===== verification/Turns.v ===== *)
(** * Turns: a worker returns (engine/engine.go, processRun)

    The loop of [processRun] goes round while there is something to do at once.  Each turn
    that goes on has resolved an operation, ended a phase, ended the run, or parked it;
    so a worker returns within a number of turns that only the definition decides, given
    handlers that do not park a run that has just been woken. *)
From S2P Require Import Signals TokenPool RunPool JoinSet MemStore Binding.
From S2P Require Import Prelude Kernel Text Errors Ledger Driver Engine Sample Machine Carry.
#[local] Open Scope engine_scope.

(** ** What is left to do *)

Definition is_open (st : Driver.OpStatus) : bool :=
  match st with Driver.OpNone | Driver.OpUnresolved => true | _ => false end.
(** The operations of a phase still to be resolved. *)
Definition unsettled (topo : Topology) (m : steps) (phase : Phase) : nat :=
  length (filter (λ s, is_open (Op_Status (op_of m (Ledger.Step_ID s) phase)) = true) topo).
Definition remaining (topo : Topology) (s : state) : nat :=
  match m_outcome s, m_phase s with
  | None, PhaseForward => unsettled topo (m_steps s) PhaseForward + unsettled topo (m_steps s) PhaseUnwind + 2
  | None, PhaseUnwind => unsettled topo (m_steps s) PhaseUnwind + 1
  | _, _ => 0
  end.
(** A run that waits, or has been woken and not used it up. *)
Definition waited (rec : RunRecord) : bool :=
  match Run_Awaiting rec, Run_Awaited rec with None, None => false | _, _ => true end.
Definition turns_left (topo : Topology) (rec : RunRecord) : nat :=
  2 * remaining topo (view rec) + (if waited rec then 0 else 1).

Section measure.
Context (topo : Topology).
Implicit Types (m : steps) (s : state).

Lemma unsettled_bound m phase : unsettled topo m phase <= length topo.
Proof. apply length_filter. Qed.
Lemma remaining_bound s : remaining topo s <= 2 * length topo + 2.
Proof.
  unfold remaining. pose proof (unsettled_bound (m_steps s) PhaseForward).
  pose proof (unsettled_bound (m_steps s) PhaseUnwind). destruct (m_outcome s), (m_phase s); lia.
Qed.
Lemma turns_bound rec : turns_left topo rec <= 4 * length topo + 5.
Proof. unfold turns_left. pose proof (remaining_bound (view rec)). destruct (waited rec); lia. Qed.

Lemma unsettled_put m id phase op phase' :
  (is_open (Op_Status op) = true → is_open (Op_Status (op_of m id phase)) = true) →
  unsettled topo (put id phase op m) phase' <= unsettled topo m phase'.
Proof.
  intros Hop. apply (filter_fewer _ _ topo). intros x _. rewrite op_of_put. case_bool_decide as Hx; [|done]. subst id.
  destruct (Bool.eqb (half phase) (half phase')) eqn:Hh; [|done]. simpl. intros Ho%Hop. revert Ho.
  by destruct phase, phase'.
Qed.
Lemma unsettled_resolved m id phase op :
  id ∈ ids topo → is_open (Op_Status (op_of m id phase)) = true → is_open (Op_Status op) = false →
  unsettled topo (put id phase op m) phase < unsettled topo m phase.
Proof.
  intros (x & -> & Hx)%list_elem_of_fmap Ho Hop. apply filter_fewer.
  - intros y _. rewrite op_of_put, eqb_reflx, andb_true_r. case_bool_decide; [congruence|done].
  - exists x. split; [done|]. split; [done|]. rewrite op_of_put, eqb_reflx, bool_decide_eq_true_2 by done.
    simpl. congruence.
Qed.

(** Resolving the operation worked on. *)
Lemma remaining_resolved s id op f :
  active s → id ∈ ids topo → is_open (Op_Status (op_of (m_steps s) id (m_phase s))) = true →
  is_open (Op_Status op) = false →
  remaining topo (mkState (m_phase s) (put id (m_phase s) op (m_steps s)) f None) < remaining topo s.
Proof.
  intros [Hoc Hp] Hin Ho Hop. unfold remaining. rewrite Hoc. cbn [m_outcome m_phase m_steps].
  destruct Hp as [Hp|Hp]; rewrite Hp in *.
  - pose proof (unsettled_resolved (m_steps s) id PhaseForward op Hin Ho Hop).
    pose proof (unsettled_put (m_steps s) id PhaseForward op PhaseUnwind ltac:(congruence)). lia.
  - pose proof (unsettled_resolved (m_steps s) id PhaseUnwind op Hin Ho Hop). lia.
Qed.
(** Ending the forward phase. *)
Lemma remaining_ended s id op f :
  m_outcome s = None → m_phase s = PhaseForward → is_open (Op_Status op) = false →
  remaining topo (mkState PhaseUnwind (put id PhaseForward op (m_steps s)) f None) < remaining topo s.
Proof.
  intros Hoc Hp Hop. unfold remaining. rewrite Hoc, Hp. cbn [m_outcome m_phase m_steps].
  pose proof (unsettled_put (m_steps s) id PhaseForward op PhaseUnwind ltac:(congruence)). lia.
Qed.
(** Reserving an attempt. *)
Lemma remaining_reserved s id op f :
  m_outcome s = None → is_open (Op_Status (op_of (m_steps s) id (m_phase s))) = true →
  remaining topo (mkState (m_phase s) (put id (m_phase s) op (m_steps s)) f None) <= remaining topo s.
Proof.
  intros Hoc Ho. unfold remaining. rewrite Hoc. cbn [m_outcome m_phase m_steps].
  pose proof (λ p, unsettled_put (m_steps s) id (m_phase s) op p (λ _, Ho)) as Hle.
  pose proof (Hle PhaseForward). pose proof (Hle PhaseUnwind). destruct (m_phase s); lia.
Qed.

(** No operation of a step without a name is in flight: no definition has such a step. *)
Definition nameless_idle s : Prop :=
  m_outcome s = None → ∀ phase, Op_Status (op_of (m_steps s) "" phase) ≠ Driver.OpUnresolved.
Lemma nameless_named m :
  (∀ phase, Op_Status (op_of m "" phase) ≠ Driver.OpUnresolved) →
  Ledger.named (Facts_Forward (facts m)) ∧ Ledger.named (Facts_Unwind (facts m)).
Proof.
  intros Hm. split; intros Hc.
  - apply forward_fact in Hc; [|done]. apply (Hm PhaseForward). by apply (opState_inj _ Driver.OpUnresolved).
  - apply unwind_fact in Hc; [|done]. apply (Hm PhaseUnwind). by apply (opState_inj _ Driver.OpUnresolved).
Qed.
(** The operation decided on is open, whatever steps the record has beside those of the
    topology. *)
Lemma decided_open s id :
  (∀ phase, Op_Status (op_of (m_steps s) "" phase) ≠ Driver.OpUnresolved) → runs_next topo s id →
  is_open (Op_Status (op_of (m_steps s) id (m_phase s))) = true.
Proof.
  intros [Hf Hu]%nameless_named. unfold runs_next. destruct (m_phase s); try done; intros [Hk <-]; revert Hk.
  - pose proof (NextForward_sound topo _ Hf) as Hs. revert Hs. generalize (NextForward topo (facts (m_steps s))).
    intros dec Hs Hk. destruct Hs as [| |id n _ Hun _ _| |pre mid x post _ _ _ _ _ _ Hnone _|]; try done;
      cbn [Decision_Step run_forward].
    + apply forward_fact in Hun; [|done]. apply (opState_inj _ Driver.OpUnresolved) in Hun. by rewrite Hun.
    + rewrite fwd_facts in Hnone. apply (opState_inj _ Driver.OpNone) in Hnone. by rewrite Hnone.
  - pose proof (NextUnwind_sound topo _ Hu) as Hs. revert Hs. generalize (NextUnwind topo (facts (m_steps s))).
    intros dec Hs Hk. destruct Hs as [|pre x mid post _ _ Hres _ _|]; try done; cbn [Decision_Step run_unwind].
    apply Forall_app in Hres as [_ Hres]. apply Forall_cons in Hres as [Hres _].
    unfold resolved in Hres. rewrite unw_facts in Hres.
    destruct (Op_Status (op_of (m_steps s) (Ledger.Step_ID x) PhaseUnwind)); simpl in *; auto; exfalso; auto.
Qed.
Lemma nameless_put m id phase op :
  id ≠ "" ∨ is_open (Op_Status op) = false →
  (∀ p, Op_Status (op_of m "" p) ≠ Driver.OpUnresolved) →
  ∀ p, Op_Status (op_of (put id phase op m) "" p) ≠ Driver.OpUnresolved.
Proof.
  intros Hop Hm p. rewrite op_of_put. destruct (bool_decide (id = "") && _) eqn:Hb; [|apply Hm].
  apply andb_true_iff in Hb as [->%bool_decide_eq_true _]. destruct Hop as [?|Hop]; [done|].
  intros Hu. by rewrite Hu in Hop.
Qed.
Lemma nameless_step s s' : well_named topo → nameless_idle s → step topo s s' → nameless_idle s'.
Proof.
  intros Hn Hs Hst Ho. destruct Hst as [s id Ha Hr|s id st o Ha _|s id f o Ha _ _ _|s id f o Ha _ _ _|s id f o Ha _ _ _ _|s Ha _ _|s Ha _ _];
    pose proof (Hs (proj1 Ha)) as Hm; cbn [m_steps].
  - apply nameless_put; [left; intros ->|done]. apply Hn. unfold runs_next in Hr.
    destruct (m_phase s); try done; destruct Hr as [Hk <-]; [by apply NextForward_step|by apply NextUnwind_step].
  - apply nameless_put; [by right|done].
  - apply nameless_put; [by right|done].
  - apply nameless_put; [by right|done].
  - apply nameless_put; [by right|done].
  - done.
  - done.
Qed.
Lemma nameless_steps s s' : well_named topo → nameless_idle s → rtc (step topo) s s' → nameless_idle s'.
Proof. intros Hn Hs Hst. induction Hst; [done|]. eauto using nameless_step. Qed.
End measure.

(** ** A turn that goes on leaves less *)

Section turns.
Context {S H : Type} `{Store S} (ok : S → Prop) `{!StoreLaws S ok}.
Context (cfg : Config (S:=S) (H:=H)).
Context (defs_bound : Binding.bound_registry (e_defs cfg)).
Context (calls_cancel_only : ∀ h inv w,
  let w' := (e_call cfg h inv w).1 in
  ok (w_store w) →
  ok (w_store w') ∧
  (inv_runID inv ∈ w_dirty w → inv_runID inv ∈ w_dirty w') ∧
  ∀ r, GetRun (w_store w) (inv_runID inv) = Ok r →
    ∃ c, GetRun (w_store w') (inv_runID inv) = Ok (set_Cancel c r) ∧
      (c = Run_Cancel r ∨ inv_runID inv ∈ w_dirty w')).
(** a handler that is handed what its run waited for does not park the run *)
Context (parks_once : ∀ h inv w,
  inv_awaited inv ≠ None → AwaitRequest (o_err (e_call cfg h inv w).2) = None).
Context (topo : Topology).
Abbreviation turns_left := (turns_left topo).
Abbreviation remaining := (remaining topo).

Lemma turns_less rec rec' : remaining (view rec') < remaining (view rec) → turns_left rec' < turns_left rec.
Proof. unfold Turns.turns_left. intros. destruct (waited rec), (waited rec'); lia. Qed.

(** The record an operation is run on. *)
Record working (rec : RunRecord) (stepID : StepID) (phase : Phase) : Prop := {
  wk_phase : Run_Phase rec = phase;
  wk_active : active (view rec);
  wk_step : stepID ∈ ids topo;
  wk_open : is_open (Op_Status (op_of (Run_Steps rec) stepID phase)) = true;
  wk_awake : Run_Awaiting rec = None;
}.
Definition falls (n : nat) (x : RunRecord * ran) : Prop := ran_done x.2 = true → turns_left x.1 < n.

Lemma falls_over n rec res : ran_done res = false → falls n (rec, res).
Proof. intros Hr Hd. simpl in Hd. congruence. Qed.
Lemma returns_over {A} n rec res (m : M S A) :
  ran_done res = false → returns (falls n) (m;; mret (rec, res)).
Proof. intros Hr. apply returns_bind. intros _. by apply returns_ret, falls_over. Qed.

Lemma apply_returns rec t : returns (S:=S) (λ x, ∃ now, x.1 = set_UpdatedAt now rec) (apply rec t).
Proof.
  intros w. exists (w_now w). unfold apply, bind, get, modify, mret, M_ret.
  by destruct (ApplyTransition _ _ _).
Qed.
Lemma returns_apply {B} (P : B → Prop) rec t (f : RunRecord * bool → M S B) :
  (∀ now b, returns P (f (set_UpdatedAt now rec, b))) → returns P (r ← apply rec t; f r).
Proof.
  intros Hf. eapply returns_bind_post; [apply apply_returns|].
  intros [rec' b] [now Hr]. simpl in Hr. subst. apply Hf.
Qed.
Lemma resolve_falls n rec t ev res : turns_left rec < n → returns (falls n) (resolve (S:=S) rec t ev res).
Proof.
  intros Hn. apply returns_apply. intros now []; [|by apply returns_ret, falls_over].
  apply returns_bind. intros _. apply returns_ret. by intros _.
Qed.

Lemma cancel_falls rec stepID p e :
  Run_Phase rec = PhaseForward → Run_Outcome rec = None →
  returns (λ x, x.2 = true → turns_left x.1 < turns_left rec) (cancelOperation cfg rec stepID p e).
Proof.
  intros Hp Hoc. unfold cancelOperation. apply returns_bind. intros now. cbn zeta.
  apply returns_bind. intros _. destruct (canceled_facts cfg rec stepID p e now) as (_ & _ & f & o & Hv & _).
  revert Hv. cbn zeta. generalize (canceled_record cfg rec stepID p e now). intros rec1 Hv.
  assert (turns_left rec1 < turns_left rec) as Hlt.
  { apply turns_less. rewrite Hv, Hoc. by apply (remaining_ended topo (view rec)). }
  apply returns_apply. intros now' []; [|by apply returns_ret].
  repeat (apply returns_bind; intros ?). by apply returns_ret.
Qed.

Lemma parkAwait_falls rec stepID attempts park timeout :
  Run_Awaiting rec = None → Run_Awaited rec = None →
  returns (falls (turns_left rec)) (parkAwait (S:=S) rec stepID attempts park timeout).
Proof.
  intros H1 H2. unfold parkAwait. case_bool_decide; [by apply returns_over|].
  case_bool_decide; [by apply returns_over|]. apply returns_bind. intros now. cbn zeta.
  apply returns_apply. intros now' []; [|by apply returns_ret, falls_over].
  apply returns_bind. intros [[]|]; [by apply returns_over| |by apply returns_ret, falls_over].
  apply returns_bind. intros _. apply returns_ret. intros _. simpl.
  unfold Turns.turns_left, waited. rewrite H1, H2. simpl. unfold view. simpl. lia.
Qed.

Lemma interrupted_falls n rec stepID phase i : returns (falls n) (interrupted_or_retry cfg rec stepID phase i).
Proof.
  unfold interrupted_or_retry. destruct (_ && _); [by apply returns_over|].
  apply returns_bind. intros now. apply returns_apply. intros now' [].
  - by apply returns_over.
  - by apply returns_ret, falls_over.
Qed.

(** A resolution leaves less, of either phase. *)
Lemma succeeded_less rec stepID phase b :
  working rec stepID phase → turns_left (succeeded rec stepID phase b) < turns_left rec.
Proof.
  intros [Hp Hact Hin Ho _]. apply turns_less.
  pose proof (remaining_resolved topo (view rec) stepID
    (mkOp Driver.OpSucceeded (Op_Attempts (Op (Driver.Step rec stepID) phase)) b
       (Op_Failure (Op (Driver.Step rec stepID) phase)) (NextOrder rec)) (Run_Failure rec) Hact Hin) as Hr.
  destruct Hact as [Hoc _]. cbn in Hr, Hoc. rewrite Hp in Hr. specialize (Hr Ho eq_refl).
  unfold succeeded. rewrite put_Op_steps. unfold view at 1. cbn. by rewrite Hoc, Hp.
Qed.
Lemma failed_forward_less rec stepID f :
  working rec stepID PhaseForward → turns_left (failed_forward rec stepID f) < turns_left rec.
Proof.
  intros [Hp [Hoc _] _ _ _]. apply turns_less. cbn in Hoc.
  pose proof (remaining_ended topo (view rec) stepID (failed_op rec stepID PhaseForward f) (Some f)
    Hoc Hp eq_refl) as Hr.
  unfold failed_forward. rewrite put_Op_steps. unfold view at 1. cbn. by rewrite Hoc.
Qed.
Lemma failed_unwind_less rec stepID f :
  working rec stepID PhaseUnwind → turns_left (failed_unwind rec stepID f) < turns_left rec.
Proof.
  intros [Hp Hact Hin Ho _]. apply turns_less.
  pose proof (remaining_resolved topo (view rec) stepID (failed_op rec stepID PhaseUnwind f)
    (Run_Failure rec) Hact Hin) as Hr.
  destruct Hact as [Hoc _]. cbn in Hr, Hoc. rewrite Hp in Hr. specialize (Hr Ho eq_refl).
  unfold failed_unwind. rewrite put_Op_steps. unfold view at 1. cbn. by rewrite Hoc, Hp.
Qed.

Lemma forward_result_falls rec bs stepID i :
  working rec stepID PhaseForward → Run_Awaited rec = None ∨ AwaitRequest (i_err i) = None →
  returns (falls (turns_left rec)) (forward_result cfg rec bs stepID i).
Proof.
  intros Hw Hpark. pose proof Hw as [Hp [Hoc _] _ _ Haw]. unfold forward_result.
  destruct (i_violation i); [by apply returns_over|].
  assert (returns (falls (turns_left rec))
    (r ← cancelOperation cfg rec stepID (i_preempted i) (i_err i);
     let '(rec, ok) := r in mret (rec, if ok : bool then reconcile else retry_store))) as Hcancel.
  { eapply returns_bind_post; [by apply cancel_falls|]. intros [rec' []] Hr; apply returns_ret.
    - intros _. by apply Hr.
    - by apply falls_over. }
  destruct (i_err i) as [e|], (i_preempted i) as [p|]; try exact Hcancel; clear Hcancel;
    (destruct (AwaitRequest _) as [park|] eqn:Hreq; [apply parkAwait_falls; [done|by destruct Hpark]|]);
    try (destruct (state_bytes _ _); [by apply resolve_falls, succeeded_less|by apply returns_over]).
  destruct (FailureCause _) as [cause|]; [|apply interrupted_falls].
  apply returns_bind. intros now. destruct (FailureInfo _) as [[kind reason] ?].
  by apply resolve_falls, failed_forward_less.
Qed.

Lemma unwind_result_falls rec stepID i :
  working rec stepID PhaseUnwind → Run_Awaited rec = None ∨ AwaitRequest (i_err i) = None →
  returns (falls (turns_left rec)) (unwind_result cfg rec stepID i).
Proof.
  intros Hw Hpark. pose proof Hw as [Hp [Hoc _] _ _ Haw]. unfold unwind_result.
  destruct (i_violation i); [by apply returns_over|].
  destruct (AwaitRequest _) as [park|] eqn:Hreq; [apply parkAwait_falls; [done|by destruct Hpark]|].
  destruct (i_err i) as [e|]; [|by apply resolve_falls, succeeded_less].
  destruct (FailureCause _) as [cause|]; [|apply interrupted_falls].
  apply returns_bind. intros now. destruct (FailureInfo _) as [[kind reason] ?].
  by apply resolve_falls, failed_unwind_less.
Qed.

(** What an attempt of a woken run answers. *)
Definition unparked (inv : Invocation) (err : option goerr) : Prop :=
  inv_awaited inv = None ∨ AwaitRequest err = None.
Lemma call_unparked h inv : returns (λ x, unparked inv (o_err x.1)) (call_handler cfg h inv).
Proof using parks_once.
  unfold call_handler. do 2 (apply returns_bind; intros _).
  eapply returns_bind_post with (Q := λ o, unparked inv (o_err o)).
  - intros w. destruct (inv_awaited inv) eqn:Ha; [|by left]. right. apply parks_once. by rewrite Ha.
  - intros o Ho. apply returns_bind. intros w. apply returns_bind. intros _. by apply returns_ret.
Qed.
Lemma invokeForward_unparked h inv : returns (λ i, unparked inv (i_err i)) (invokeForward cfg h inv).
Proof using parks_once.
  unfold invokeForward. eapply returns_bind_post; [apply call_unparked|]. intros [o cause] Ho.
  apply returns_ret. destruct (o_panic o); [by right|exact Ho].
Qed.
Lemma invokeUnwind_unparked h inv : returns (λ i, unparked inv (i_err i)) (invokeUnwind cfg h inv).
Proof using parks_once.
  unfold invokeUnwind. eapply returns_bind_post; [apply call_unparked|]. intros [o cause] Ho.
  apply returns_ret. destruct (o_panic o); [by right|exact Ho].
Qed.

(** The reservation keeps the record at work. *)
Lemma reserved_working rec stepID phase now now' :
  working rec stepID phase →
  let rec' := set_UpdatedAt now' (reserved rec stepID phase now) in
  working rec' stepID phase ∧ turns_left rec' <= turns_left rec ∧ Run_Awaited rec' = Run_Awaited rec.
Proof.
  intros [Hp [Hoc Hact] Hin Ho Haw]. cbv zeta. cbn in Hoc.
  set (rec' := set_UpdatedAt now' _).
  assert (view rec' = mkState phase (put stepID phase (reserve_op (op_of (Run_Steps rec) stepID phase))
    (Run_Steps rec)) (Run_Failure rec) None) as Hv.
  { change (view rec') with (view (reserved rec stepID phase now)). by rewrite reserved_view, Hp, Hoc. }
  assert (Run_Awaiting rec' = None ∧ Run_Awaited rec' = Run_Awaited rec) as [Haw' Had].
  { unfold rec', reserved, markStarted. by destruct (IsZero _). }
  split; [|split; [|done]].
  - pose proof (f_equal m_phase Hv) as Hp'. cbn in Hp'.
    constructor; [done| |done| |done].
    + rewrite Hv. split; [done|]. cbn in Hact |- *. by rewrite <-Hp.
    + change (Run_Steps rec') with (m_steps (view rec')). rewrite Hv. cbn [m_steps].
      by rewrite op_of_put, bool_decide_eq_true_2, eqb_reflx.
  - unfold Turns.turns_left, waited. rewrite Hv, Haw', Had, Haw.
    pose proof (remaining_reserved topo (view rec) stepID
      (reserve_op (op_of (Run_Steps rec) stepID phase)) (Run_Failure rec) Hoc) as Hr.
    cbn [m_phase m_steps view] in Hr. rewrite Hp in Hr. specialize (Hr Ho). destruct (Run_Awaited rec); lia.
Qed.
Lemma falls_le n n' x : n <= n' → falls n x → falls n' x.
Proof. intros Hn Hx Hd. specialize (Hx Hd). lia. Qed.
Lemma returns_weaken {A} (P Q : A → Prop) (m : M S A) : (∀ x, P x → Q x) → returns P m → returns Q m.
Proof. intros Hpq Hm w. apply Hpq, Hm. Qed.

Lemma runForward_falls rec bs stepID :
  working rec stepID PhaseForward → returns (falls (turns_left rec)) (runForward cfg rec bs stepID).
Proof using parks_once.
  intros Hw. unfold runForward. apply returns_bind. intros now. cbn zeta.
  apply returns_apply. intros now' []; [|by apply returns_ret, falls_over]. cbn [negb].
  destruct (reserved_working rec stepID PhaseForward now now' Hw) as (Hw' & Hle & Had).
  eapply returns_bind_post; [apply invokeForward_unparked|]. intros i Hi.
  eapply returns_weaken; [intros x; by apply falls_le|]. apply forward_result_falls; [done|exact Hi].
Qed.
Lemma runUnwind_falls rec bs stepID :
  working rec stepID PhaseUnwind → returns (falls (turns_left rec)) (runUnwind cfg rec bs stepID).
Proof using parks_once.
  intros Hw. unfold runUnwind. apply returns_bind. intros now. cbn zeta.
  apply returns_apply. intros now' []; [|by apply returns_ret, falls_over]. cbn [negb].
  destruct (reserved_working rec stepID PhaseUnwind now now' Hw) as (Hw' & Hle & Had).
  destruct (bs_unwind bs) as [h|]; [|by apply returns_over].
  eapply returns_bind_post; [apply invokeUnwind_unparked|]. intros i Hi.
  eapply returns_weaken; [intros x; by apply falls_le|]. apply unwind_result_falls; [done|exact Hi].
Qed.

(** *** The gate *)

(** A run that leaves the gate is awake, and has no more turns left than before. *)
Definition awake (rec : RunRecord) (x : RunRecord * bool) : Prop :=
  x.2 = false → view x.1 = view rec ∧ Run_Awaiting x.1 = None ∧ turns_left x.1 <= turns_left rec.
Lemma awake_settle rec done expired : awake rec (settleAwait rec done expired, false).
Proof.
  intros _. split; [done|]. split; [done|]. unfold Turns.turns_left.
  change (view (settleAwait rec done expired, false).1) with (view rec). cbn. lia.
Qed.
Lemma gate_decide_awake rec park need : returns (S:=S) (awake rec) (gate_decide rec park need).
Proof.
  assert (∀ ds ex, returns (S:=S) (awake rec) (r ← wake rec ds ex; mret (r, false))) as Hwake.
  { intros ds ex. eapply returns_bind_post with (Q := λ r, awake rec (r, false)).
    - unfold wake. do 2 (apply returns_bind; intros ?). apply returns_ret, awake_settle.
    - intros r Hr. by apply returns_ret. }
  unfold gate_decide. apply returns_bind. intros w. cbn zeta.
  destruct (_ <=? _)%Z; [apply Hwake|]. destruct (IsZero _); [by apply returns_ret|].
  destruct (_ <=? 0)%Z; [apply Hwake|]. apply returns_bind. intros ?. by apply returns_ret.
Qed.
Lemma gate_first_awake rec park :
  returns (λ o, match o with Some r => awake rec r | None => True end) (gate_first rec park).
Proof.
  unfold gate_first. apply returns_bind. intros c.
  assert (returns (λ o, match o with Some r => awake rec r | None => True end)
    (ok ← mark_targets (Run_RunID rec) (Await_Targets park);
     if ok then mret None
     else w ← get; let done := (JoinSet.Done (w_joins w) (Run_RunID rec)).1 in
          unpark (Run_RunID rec);; mret (Some (settleAwait rec done false, false)))) as Hm.
  { apply returns_bind. intros [].
    - by apply returns_ret.
    - do 2 (apply returns_bind; intros ?). apply returns_ret, awake_settle. }
  destruct c as [[]|]; [|done|done]. do 2 (apply returns_bind; intros ?). by apply returns_ret.
Qed.
Lemma awaitGate_awake rec : returns (awake rec) (awaitGate rec).
Proof.
  unfold awaitGate. destruct (Run_Awaiting rec) as [park|] eqn:Ha.
  2:{ apply returns_ret. by intros _. }
  case_bool_decide; [apply returns_bind; intros ?; by apply returns_ret|].
  apply returns_bind. intros w. destruct (JoinSet.Register _ _ _ _ _) as [joins fresh].
  apply returns_bind. intros ?.
  eapply returns_bind_post with (Q := λ o, match o with Some r => awake rec r | None => True end).
  - destruct fresh; [apply gate_first_awake|by apply returns_ret].
  - intros [r|] Hr; [by apply returns_ret|]. apply gate_decide_awake.
Qed.

(** *** A turn *)

Definition lessens (rec : RunRecord) (n : next) : Prop :=
  match n with Continue rec' => turns_left rec' < turns_left rec | Return _ _ => True end.

(** The record of a run whose next operation is [stepID], out of the gate. *)
Lemma decided_working rec rec' stepID phase :
  nameless_idle (view rec) → deciding topo rec stepID phase → stepID ∈ ids topo →
  view rec' = view rec → Run_Awaiting rec' = None → working rec' stepID phase.
Proof.
  intros Hc [_ Hp Hact Hnext] Hin Hv Ha.
  pose proof (f_equal m_phase Hv) as Hp'. pose proof (f_equal m_steps Hv) as Hs. cbn in Hp', Hs.
  constructor; [congruence|by rewrite Hv|done| |done]. rewrite Hs.
  pose proof (decided_open topo (view rec) stepID (Hc (proj1 Hact)) Hnext) as Ho.
  cbn in Ho. by rewrite Hp in Ho.
Qed.
Lemma run_in_class_lessens n rec rec' (d : Binding.boundDef (H:=H)) stepID
    (run : Binding.boundStep (H:=H) → M S (RunRecord * ran)) :
  (∀ bs, returns (falls n) (run bs)) → n <= turns_left rec →
  returns (lessens rec) (run_in_class rec' d stepID run).
Proof.
  intros Hrun Hn. unfold run_in_class.
  destruct (Binding.bd_steps d !! stepID) as [bs|]; [|apply returns_bind; intros _; by apply returns_ret].
  apply returns_bind. intros [[proceed held] waits]. destruct proceed; [|by apply returns_ret].
  apply returns_bind. intros _. eapply returns_bind_post; [apply Hrun|]. intros [rec2 res] Hr.
  apply returns_bind. intros _. apply returns_ret. unfold falls in Hr. simpl in Hr.
  destruct (ran_done res); [|done]. specialize (Hr eq_refl). simpl. lia.
Qed.

Lemma forward_step_lessens rec (d : Binding.boundDef (H:=H)) stepID :
  nameless_idle (view rec) → deciding topo rec stepID PhaseForward →
  stepID ∈ ids topo → returns (lessens rec) (run_forward_step cfg rec d stepID).
Proof using parks_once.
  intros Hc Hde Hin. unfold run_forward_step. apply returns_bind. intros w.
  destruct (w_draining w); [by apply returns_ret|]. destruct (Run_Cancel rec).
  - destruct Hde as [_ Hp [Hoc _] _].
    eapply returns_bind_post; [by apply cancel_falls|]. intros [rec' []] Hr; apply returns_ret; [|done].
    by apply Hr.
  - eapply returns_bind_post; [apply awaitGate_awake|]. intros [rec' []] Hr; [by apply returns_ret|].
    destruct (Hr eq_refl) as (Hv & Ha & Hle). cbn in Hv, Ha, Hle.
    apply returns_bind. intros now. destruct (retryGate rec' now); [by apply returns_ret|].
    apply returns_bind. intros []; [|by apply returns_ret].
    apply run_in_class_lessens with (turns_left rec'); [|done]. intros bs.
    apply runForward_falls. by eapply decided_working.
Qed.
Lemma unwind_step_lessens rec (d : Binding.boundDef (H:=H)) stepID :
  nameless_idle (view rec) → deciding topo rec stepID PhaseUnwind →
  stepID ∈ ids topo → returns (lessens rec) (run_unwind_step cfg rec d stepID).
Proof using parks_once.
  intros Hc Hde Hin. unfold run_unwind_step. apply returns_bind. intros w.
  destruct (w_draining w); [by apply returns_ret|].
  eapply returns_bind_post; [apply awaitGate_awake|]. intros [rec' []] Hr; [by apply returns_ret|].
  destruct (Hr eq_refl) as (Hv & Ha & Hle). cbn in Hv, Ha, Hle.
  apply returns_bind. intros now. destruct (retryGate rec' now); [by apply returns_ret|].
  apply run_in_class_lessens with (turns_left rec'); [|done]. intros bs.
  apply runUnwind_falls. by eapply decided_working.
Qed.

Lemma turns_terminal rec : Terminal rec = true → turns_left rec <= 1.
Proof.
  rewrite Terminal_spec. unfold Turns.turns_left, Turns.remaining. cbn.
  destruct (Run_Outcome rec); [|done]. destruct (waited rec); simpl; lia.
Qed.
Lemma turns_active rec : active (view rec) → 1 < turns_left rec.
Proof.
  intros [Hoc Hp]. unfold Turns.turns_left, Turns.remaining. rewrite Hoc.
  destruct Hp as [-> | ->]; lia.
Qed.
Lemma finish_lessens rec oc : active (view rec) → ∀ rec' : RunRecord,
  returns (λ x, x.2 = true → turns_left x.1 < turns_left rec) (finish (S:=S) rec' oc).
Proof.
  intros Hact rec'. unfold finish. apply returns_apply. intros now []; [|by apply returns_ret].
  apply returns_bind. intros _. apply returns_ret. intros _.
  eapply Nat.le_lt_trans; [by apply turns_terminal|by apply turns_active].
Qed.
Lemma complete_lessens rec (reduces : bool) what o oc :
  active (view rec) →
  returns (λ x, x.2 = true → turns_left x.1 < turns_left rec)
    (r ← (if reduces then reduceInto (S:=S) rec what o else mret (rec, true));
     let '(rec, ok) := r in
     if negb ok then mret (rec, false) else finish rec oc).
Proof.
  intros Hact. apply returns_bind. intros [rec' []]; [by apply finish_lessens|by apply returns_ret].
Qed.

Lemma advance_lessens rec :
  nameless_idle (view rec) →
  (∀ d, definition cfg (Run_PipelineID rec) = Some d → Binding.bd_topo d = topo) →
  returns (λ n, lessens rec n ∧ match n with Continue _ => 1 < turns_left rec | Return _ _ => True end)
    (advance cfg rec).
Proof using defs_bound parks_once.
  intros Hc Htopo. unfold advance. destruct (Terminal rec) eqn:Hterm.
  { do 2 (apply returns_bind; intros ?). by apply returns_ret. }
  destruct (definition cfg (Run_PipelineID rec)) as [d|] eqn:Hd.
  2:{ apply returns_bind. intros ?. by apply returns_ret. }
  destruct (Run_Phase rec) eqn:Hp; try (apply returns_bind; intros ?; by apply returns_ret).
  - assert (active (view rec)) as Hact by (split; [by apply Terminal_false|by left]).
    pose proof (turns_active rec Hact) as Hone.
    pose proof (Ledger.NextForward_step (Binding.bd_topo d) (factsOf rec)) as [Hin Hnot].
    pose proof (deciding_next cfg defs_bound (Run_PipelineID rec) topo
      ltac:(rewrite Hd; by intros d' [= <-]; apply Htopo)
      rec d (Decision_Step (NextForward (Binding.bd_topo d) (factsOf rec)))
      _ Hd eq_refl Hterm Hp (or_introl eq_refl)) as Hde.
    unfold runs_next in Hde. simpl in Hde. rewrite Hp in Hde.
    change (facts (Run_Steps rec)) with (factsOf rec) in Hde.
    rewrite (Htopo d eq_refl) in *.
    destruct (NextForward _ _) as [k st reason]; destruct k; cbn in *; try by destruct Hnot.
    + eapply returns_weaken; [|apply forward_step_lessens; auto].
      intros [rec'|] Hl; [by split|done].
    + eapply returns_bind_post; [by apply complete_lessens|]. intros [rec' []] Hr; apply returns_ret; [|done].
      split; [by apply Hr|done].
    + apply returns_bind. intros ?. by apply returns_ret.
  - assert (active (view rec)) as Hact by (split; [by apply Terminal_false|by right]).
    pose proof (turns_active rec Hact) as Hone.
    pose proof (Ledger.NextUnwind_step (Binding.bd_topo d) (factsOf rec)) as [Hin Hnot].
    pose proof (deciding_next cfg defs_bound (Run_PipelineID rec) topo
      ltac:(rewrite Hd; by intros d' [= <-]; apply Htopo)
      rec d (Decision_Step (NextUnwind (Binding.bd_topo d) (factsOf rec)))
      _ Hd eq_refl Hterm Hp (or_intror eq_refl)) as Hde.
    unfold runs_next in Hde. simpl in Hde. rewrite Hp in Hde.
    change (facts (Run_Steps rec)) with (factsOf rec) in Hde.
    rewrite (Htopo d eq_refl) in *.
    destruct (NextUnwind _ _) as [k st reason]; destruct k; cbn in *; try by destruct Hnot.
    + eapply returns_weaken; [|apply unwind_step_lessens; auto].
      intros [rec'|] Hl; [by split|done].
    + apply returns_bind. intros ?. by apply returns_ret.
    + apply returns_bind. intros ?. by apply returns_ret.
Qed.

(** *** The worker *)

Context (pipeline : PipelineID) (s0 : state) (s0_nameless : nameless_idle s0).
Context (topo_def : ∀ d, definition cfg pipeline = Some d → Binding.bd_topo d = topo).
Abbreviation history := (Carry.history pipeline topo s0).

(** What the store holds after a turn that goes on. *)
Lemma goes_left id w rec :
  goes ok pipeline topo s0 id (w, Continue rec) →
  ∃ r, ok (w_store w) ∧ GetRun (w_store w) id = Ok r ∧ history r ∧ turns_left r <= Nat.max 1 (turns_left rec).
Proof.
  intros [(Hok & r & Hg & Hh) [Hid Hl]]. cbn [fst snd] in *. exists r. do 3 (split; [done|]).
  destruct Hl as [(c & _ & Hg' & _ & _)|(_ & _ & r' & Hg' & Ht)]; rewrite Hid, Hg in Hg'.
  - assert (r = set_Cancel c rec) as Hr by congruence. rewrite Hr.
    change (turns_left (set_Cancel c rec)) with (turns_left rec). lia.
  - assert (r = r') as -> by congruence. pose proof (turns_terminal r' Ht). lia.
Qed.

Lemma reread_returns fuel : ∀ id w r,
  well_named topo → ok (w_store w) → GetRun (w_store w) id = Ok r → history r → turns_left r < fuel →
  is_Some (reread cfg fuel id w).2.
Proof using All.
  induction fuel as [|fuel IH]; intros id w r Hn Hok Hg Hh Hlt; [lia|]. simpl.
  unfold bind at 1, get. destruct (w_stopped w); [by eexists|].
  unfold bind at 1, modify, Signals.DirtySet.Take. cbn [fst]. rewrite Hg.
  destruct (iteration ok cfg defs_bound calls_cancel_only pipeline topo s0 topo_def id w None)
    as (r' & Hg' & _ & Hgo).
  { split; [|done]. split; [done|]. by exists r. }
  assert (r' = r) as -> by congruence.
  pose proof Hh as [Hp Hr].
  pose proof (advance_lessens r (nameless_steps topo _ _ Hn s0_nameless Hr) ltac:(by rewrite Hp)
    (set_dirty (w_dirty w ∖ {[id]}) w)) as [Hless Hone].
  unfold bind. destruct (advance cfg r _) as [w2 [rec2|delay again]]; [|by eexists].
  cbn [snd lessens] in Hless, Hone. apply goes_left in Hgo as (r2 & Hok2 & Hg2 & Hh2 & Hle).
  eapply IH; [done|done|exact Hg2|done|]. lia.
Qed.
End turns.

(** The turns of a worker on a run: four for every step of its definition, and a few. *)
Definition worker_turns {S H} `{Store S} (cfg : Config (S:=S) (H:=H)) (id : RunID) (w : World S) : nat :=
  match GetRun (w_store w) id with
  | Ok r => 4 * length (topology cfg (Run_PipelineID r)) + 6
  | Err _ => 1
  end.

(** C10: A worker returns.  Whatever record the store holds for its run, one of another
    deployment included, as long as no operation of a step without a name is in flight in
    it; whatever the handlers, the reducers and the store answer; and however many cancel
    requests arrive: processRun is done within the turns its definition allows.  To the
    store a handler only makes cancel requests, and a handler that is handed what its run
    waited for does not park the run again in that attempt. *)
Theorem workers_return {S H} `{Store S} (ok : S → Prop) `{!StoreLaws S ok} (cfg : Config (S:=S) (H:=H)) fuel id w :
  Binding.bound_registry (e_defs cfg) →
  (∀ h inv w,
    let w' := (e_call cfg h inv w).1 in
    ok (w_store w) →
    ok (w_store w') ∧
    (inv_runID inv ∈ w_dirty w → inv_runID inv ∈ w_dirty w') ∧
    ∀ r, GetRun (w_store w) (inv_runID inv) = Ok r →
      ∃ c, GetRun (w_store w') (inv_runID inv) = Ok (set_Cancel c r) ∧
        (c = Run_Cancel r ∨ inv_runID inv ∈ w_dirty w')) →
  (∀ h inv w, inv_awaited inv ≠ None → AwaitRequest (o_err (e_call cfg h inv w).2) = None) →
  ok (w_store w) →
  (∀ r, GetRun (w_store w) id = Ok r → nameless_idle (view r)) →
  worker_turns cfg id w <= fuel →
  is_Some (processRun cfg fuel id w).2.
Proof.
  intros Hdefs Hcalls Hparks Hok Hr Hfuel. unfold worker_turns in Hfuel.
  destruct (GetRun (w_store w) id) as [r|e] eqn:Hg.
  - destruct (processRun_machine ok cfg Hdefs Hcalls fuel id w r Hok Hg) as [-> _].
    destruct (topology_bound cfg Hdefs (Run_PipelineID r)) as [Hn _].
    eapply (reread_returns ok cfg Hdefs Hcalls Hparks (topology cfg (Run_PipelineID r)) (Run_PipelineID r)
      (view r) (Hr r eq_refl)); [|exact Hn|exact Hok|exact Hg|by split|].
    + intros d Hd. unfold topology. by rewrite Hd.
    + pose proof (turns_bound (topology cfg (Run_PipelineID r)) r). lia.
  - destruct fuel as [|fuel]; [lia|]. unfold processRun. simpl. unfold bind, get, modify.
    destruct (w_stopped w); [by eexists|]. simpl. rewrite Hg. destruct e; by eexists.
Qed.

(** ** Parked once, and parked for ever *)

(** A handler that waits for a run that has ended, and is handed it. *)
Definition ex_parking : Engine.Config (S:=MemStore) (H:=script) :=
  sample (sample_config "p" "" (Parks ["gone"]) (Fails "no")).
Lemma sample_parks_once c h inv w :
  inv_awaited inv ≠ None → AwaitRequest (o_err (e_call (sample c) h inv w).2) = None.
Proof.
  intros Ha. destruct h; simpl; try done.
  - by destruct (inv_attempt inv =? 1)%Z.
  - by destruct (inv_awaited inv).
Qed.
Lemma workers_return_witness :
  worker_turns ex_parking "r" ex_world = 14 ∧ is_Some (processRun ex_parking 14 "r" ex_world).2.
Proof.
  split; [by vm_compute|]. apply (workers_return MemStore.mem_ok).
  - apply sample_bound.
  - apply sample_calls.
  - apply sample_parks_once.
  - exact ex_world_ok.
  - intros r Hr. assert (r = sample_run "r" "p" "x") as ->.
    { assert (GetRun (w_store ex_world) "r" = Ok (sample_run "r" "p" "x")) by (by vm_compute). congruence. }
    intros _ phase. by destruct phase.
  - apply Nat.eq_le_incl. by vm_compute.
Defined.

(** The proviso matters: a handler that parks its run on an ended run whenever it is
    called is called again on every turn. *)
Definition ex_forever : Engine.Config (S:=MemStore) (H:=script) :=
  config_with (λ _ _ w, (w, mkOutcome None MsgNil (Some (AwaitAll ["gone"] [])) None))
    (sample_config "p" "" (Succeeds "") (Succeeds "")).
Example parking_goes_round :
  (processRun ex_forever 40 "r" ex_world).2 = None ∧
  length (filter (λ e, match e with EvInvoke _ => true | _ => false end = true)
     (w_trace (processRun ex_forever 40 "r" ex_world).1)) = 40.
Proof. split; by vm_compute. Qed.
