(* ===== verification/Attempts.v ===== *)
(** * Attempts: what a handler is called with (engine/engine.go, runForward and
    runUnwind under processRun)

    Two deployments that differ in their handlers only behave the same when the
    handlers agree on the calls the engine makes: those of an attempt that the store
    holds as reserved, with the stored record as the handler's view of its run. *)
From S2P Require Import Signals TokenPool RunPool JoinSet MemStore Binding.
From S2P Require Import Prelude Kernel Text Errors Ledger Driver Engine Machine Carry.
#[local] Open Scope engine_scope.

(** ** Programs that differ after a common prefix *)

Section same.
Context {S : Type}.

Lemma same_bind {A B} (m : M S A) (f f' : A → M S B) w :
  (∀ w' x, m w = (w', x) → f' x w' = f x w') → bind m f' w = bind m f w.
Proof. intros Hf. unfold bind. destruct (m w) as [w' x]. by apply Hf. Qed.
Lemma same_keep {A B} (m : M S A) (f f' : A → M S B) w :
  keeps m → (∀ w' x, same_store w w' → f' x w' = f x w') → bind m f' w = bind m f w.
Proof. intros Hm Hf. apply same_bind. intros w' x Hw. apply Hf. by eapply keeps_run. Qed.
Lemma same_first {A B} (m m' : M S A) (f : A → M S B) w :
  m' w = m w → bind m' f w = bind m f w.
Proof. intros Hm. unfold bind. by rewrite Hm. Qed.
End same.

Section attempts.
Context {S H : Type} `{Store S} (ok : S → Prop) `{!StoreLaws S ok}.
Context (cfg : Config (S:=S) (H:=H)).
Context (defs_bound : Binding.bound_registry (e_defs cfg)).
Context (calls_cancel_only : ∀ h inv w,
  let w' := (e_call cfg h inv w).1 in
  ok (w_store w) →
  ok (w_store w') ∧
  (inv_runID inv ∈ w_dirty w → inv_runID inv ∈ w_dirty w') ∧
  ∀ r, GetRun (w_store w) (inv_runID inv) = Ok r →
    ∃ c, GetRun (w_store w') (inv_runID inv) = Ok (set_Cancel c r) ∧
      (c = Run_Cancel r ∨ inv_runID inv ∈ w_dirty w')).

(** The store holds the attempt of the call as in flight, and the call presents the
    stored record. *)
Definition durable (w : World S) (inv : Invocation) : Prop :=
  ∃ r, GetRun (w_store w) (inv_runID inv) = Ok r ∧ Terminal r = false ∧
    in_flight (view r) (inv_stepID inv) ∧
    inv = invocation r (inv_stepID inv) (attempts_of r (inv_stepID inv) (Run_Phase r))
            (Run_Phase r) (match Run_Phase r with PhaseUnwind => Run_Failure r | _ => None end).

(** The deployment with other handlers. *)
Context (call' : H → Invocation → World S → World S * outcome).
Definition with_call : Config (S:=S) (H:=H) :=
  mkEngineConfig (e_textLimit cfg) (e_recoveryBackoff cfg) (e_terminalAfter cfg)
    (e_runClassQueue cfg) (e_defs cfg) call' (e_reduce cfg) (e_reduceFailure cfg)
    (e_backoff cfg) (e_newRunID cfg).
Context (agree : ∀ h inv w, durable w inv → call' h inv w = e_call cfg h inv w).

Context (pipeline : PipelineID) (topo : Ledger.Topology) (s0 : state).
Context (topo_def : ∀ d, definition cfg pipeline = Some d → Binding.bd_topo d = topo).

Abbreviation carried := (carried ok pipeline topo s0).
Abbreviation trailing := (trailing ok pipeline topo s0).

Lemma call_same h inv w : durable w inv → call_handler with_call h inv w = call_handler cfg h inv w.
Proof.
  intros Hd. unfold call_handler. do 2 (apply same_bind; intros ? ? [= <- _]).
  apply same_first. cbn [e_call with_call]. by apply agree.
Qed.

(** The attempt a worker calls a handler for is durable. *)
Lemma reserved_durable w rec stepID phase now failure :
  carried w rec → attempting rec stepID phase →
  failure = (match phase with PhaseUnwind => Run_Failure rec | _ => None end) →
  now = attempts_of rec stepID phase →
  durable w (invocation rec stepID now phase failure).
Proof.
  intros (c & Hok & Hg & Hc & Hh) [Hne Hph [Hoc Hact] Hin Hun] -> ->. exists (set_Cancel c rec).
  split; [done|]. split; [by apply Terminal_false|]. split; [done|].
  cbn [Run_Phase set_Cancel]. rewrite Hph. by destruct phase.
Qed.

Lemma reserve_applied w rec stepID phase now w' rec' :
  trailing w rec → deciding topo rec stepID phase →
  let rec1 := reserved rec stepID phase now in
  apply rec1 (mkTransition (activeCursor rec1 stepID (attempts_of rec1 stepID phase)) []
    None None None) w = (w', (rec', true)) →
  carried w' rec' ∧ attempting rec' stepID phase ∧ attempts_of rec' stepID phase =
    attempts_of rec1 stepID phase.
Proof.
  intros Hw Hde rec1 Ha.
  pose proof (reserve_holds ok pipeline topo s0 w rec stepID phase now Hw Hde) as Hc.
  destruct (apply_carried ok pipeline topo s0 _ _ _ _ _ _ Hc Ha) as (_ & -> & Hb).
  split; [by apply Hb|]. split; [by apply (reserved_attempting topo)|done].
Qed.

Lemma runForward_same rec bs stepID w :
  trailing w rec → deciding topo rec stepID PhaseForward →
  runForward with_call rec bs stepID w = runForward cfg rec bs stepID w.
Proof.
  intros Hw Hde. unfold runForward. apply same_keep; [keeps|]. intros w1 now Hs1.
  cbn zeta. apply same_bind. intros w2 [rec2 []] Ha; [|done]. cbn [negb].
  apply reserve_applied in Ha as (Hw2 & Hat & Hn); [|by eapply trailing_same|done].
  unfold invokeForward. apply same_first, same_first, call_same. by apply reserved_durable.
Qed.

Lemma runUnwind_same rec bs stepID w :
  trailing w rec → deciding topo rec stepID PhaseUnwind →
  runUnwind with_call rec bs stepID w = runUnwind cfg rec bs stepID w.
Proof.
  intros Hw Hde. unfold runUnwind. apply same_keep; [keeps|]. intros w1 now Hs1.
  cbn zeta. apply same_bind. intros w2 [rec2 []] Ha; [|done]. cbn [negb].
  apply reserve_applied in Ha as (Hw2 & Hat & Hn); [|by eapply trailing_same|done].
  destruct (Binding.bs_unwind bs) as [h|]; [|done].
  unfold invokeUnwind. apply same_first, same_first, call_same. by apply reserved_durable.
Qed.

Lemma run_in_class_same rec (d : Binding.boundDef (H:=H)) stepID
    (run run' : Binding.boundStep (H:=H) → M S (RunRecord * ran)) w :
  (∀ bs w', same_store w w' → run' bs w' = run bs w') →
  run_in_class rec d stepID run' w = run_in_class rec d stepID run w.
Proof.
  intros Hrun. unfold run_in_class. destruct (Binding.bd_steps d !! stepID) as [bs|]; [|done].
  cbn zeta. apply same_keep; [keeps|]. intros w1 [[proceed held] waited] H1.
  destruct proceed; [|done]. cbn [negb]. apply same_keep; [keeps|]. intros w2 _ H2.
  apply same_first, Hrun. by eapply same_store_trans.
Qed.

Lemma gate_same rec (f f' : RunRecord * bool → M S next) w :
  trailing w rec →
  (∀ w' rec', trailing w' rec' → view rec' = view rec → f' (rec', false) w' = f (rec', false) w') →
  (∀ w' rec', f' (rec', true) w' = f (rec', true) w') →
  bind (awaitGate rec) f' w = bind (awaitGate rec) f w.
Proof.
  intros Hw Hf Ht. apply same_bind. intros w1 [rec1 []] Ha; [apply Ht|].
  pose proof (keeps_awaitGate rec w) as Hs. pose proof (awaitGate_cursor rec w) as Hc.
  rewrite Ha in Hs, Hc. unfold gated in Hc. cbn in Hs, Hc.
  apply Hf; [|by apply cursor_only_view]. eapply trailing_cursor; [done|]. by eapply trailing_same.
Qed.

Lemma run_forward_step_same rec (d : Binding.boundDef (H:=H)) stepID w :
  trailing w rec → deciding topo rec stepID PhaseForward →
  run_forward_step with_call rec d stepID w = run_forward_step cfg rec d stepID w.
Proof.
  intros Hw Hde. unfold run_forward_step. apply same_keep; [keeps|]. intros w1 w1' Hs1.
  destruct (w_draining w1'); [done|]. destruct (Run_Cancel rec); [done|].
  apply gate_same; [by eapply trailing_same| |done]. intros w2 rec2 Hw2 Hv2. cbn [negb].
  apply same_keep; [keeps|]. intros w3 t Hs3. destruct (retryGate rec2 t); [done|].
  apply same_keep; [keeps|]. intros w4 [] Hs4; [|done]. apply run_in_class_same.
  intros bs w5 Hs5. apply runForward_same; [|by eapply deciding_view].
  by repeat (eapply trailing_same; [eassumption|]).
Qed.

Lemma run_unwind_step_same rec (d : Binding.boundDef (H:=H)) stepID w :
  trailing w rec → deciding topo rec stepID PhaseUnwind →
  run_unwind_step with_call rec d stepID w = run_unwind_step cfg rec d stepID w.
Proof.
  intros Hw Hde. unfold run_unwind_step. apply same_keep; [keeps|]. intros w1 w1' Hs1.
  destruct (w_draining w1'); [done|].
  apply gate_same; [by eapply trailing_same| |done]. intros w2 rec2 Hw2 Hv2. cbn [negb].
  apply same_keep; [keeps|]. intros w3 t Hs3. destruct (retryGate rec2 t); [done|].
  apply run_in_class_same. intros bs w5 Hs5.
  apply runUnwind_same; [|by eapply deciding_view].
  by repeat (eapply trailing_same; [eassumption|]).
Qed.

Lemma complete_same rec (d : Binding.boundDef (H:=H)) :
  reduceAndComplete with_call rec d = reduceAndComplete cfg rec d.
Proof. done. Qed.
Lemma unwound_same rec (d : Binding.boundDef (H:=H)) :
  reduceFailureAndComplete with_call rec d = reduceFailureAndComplete cfg rec d.
Proof. done. Qed.
Lemma advance_same rec w :
  carried w rec → advance with_call rec w = advance cfg rec w.
Proof.
  intros Hw. pose proof (carried_trailing _ _ _ _ _ _ Hw) as Ht.
  pose proof (carried_pipeline _ _ _ _ _ _ Hw) as Hp.
  unfold advance. destruct (Terminal rec) eqn:Hterm; [done|].
  change (definition with_call (Run_PipelineID rec)) with (definition cfg (Run_PipelineID rec)).
  destruct (definition cfg (Run_PipelineID rec)) as [d|] eqn:Hd; [|done].
  destruct (Run_Phase rec) eqn:Hph; cbn zeta; [reflexivity| | |reflexivity].
  - pose proof (Ledger.NextForward_step (Binding.bd_topo d) (factsOf rec)) as [Hstep Hnot].
    pose proof (deciding_next cfg defs_bound pipeline topo topo_def rec d
      (Decision_Step (NextForward (Binding.bd_topo d) (factsOf rec)))
      _ Hd Hp Hterm Hph (or_introl eq_refl)) as Hde.
    unfold runs_next in Hde. simpl in Hde. rewrite Hph in Hde.
    change (facts (Run_Steps rec)) with (factsOf rec) in Hde.
    destruct (NextForward _ _) as [k st reason]; destruct k; cbn [Decision_Kind Decision_Step] in *;
      [|by rewrite complete_same|exfalso; by destruct Hnot|exfalso; by destruct Hnot|reflexivity].
    apply run_forward_step_same; [done|]. apply Hde; [by apply Hstep|done].
  - pose proof (Ledger.NextUnwind_step (Binding.bd_topo d) (factsOf rec)) as [Hstep Hnot].
    pose proof (deciding_next cfg defs_bound pipeline topo topo_def rec d
      (Decision_Step (NextUnwind (Binding.bd_topo d) (factsOf rec)))
      _ Hd Hp Hterm Hph (or_intror eq_refl)) as Hde.
    unfold runs_next in Hde. simpl in Hde. rewrite Hph in Hde.
    change (facts (Run_Steps rec)) with (factsOf rec) in Hde.
    destruct (NextUnwind _ _) as [k st reason]; destruct k; cbn [Decision_Kind Decision_Step] in *;
      [exfalso; by destruct Hnot|exfalso; by destruct Hnot| |by rewrite unwound_same|reflexivity].
    apply run_unwind_step_same; [done|]. apply Hde; [by apply Hstep|done].
Qed.

(** A terminal record needs nothing of the handlers. *)
Lemma advance_terminal_same rec w :
  Terminal rec = true → advance with_call rec w = advance cfg rec w.
Proof. unfold advance. by intros ->. Qed.

(** The record an iteration of the worker starts from: carried, or of an ended run. *)
Lemma read_live id w c :
  may_carry ok pipeline topo s0 id w c →
  let w1 := set_dirty (w_dirty w ∖ {[id]}) w in
  ∃ rec, match c with
         | Some rec => if (Signals.DirtySet.Take (w_dirty w) id).2 then GetRun (w_store w) id else Ok rec
         | None => GetRun (w_store w) id
         end = Ok rec ∧ (carried w1 rec ∨ Terminal rec = true) ∧
    goes ok pipeline topo s0 id (advance cfg rec w1).
Proof.
  intros [(Hok & r & Hg & Hh) Hc] w1.
  assert (∀ rec, carried w1 rec → Run_RunID rec = id → goes ok pipeline topo s0 id (advance cfg rec w1)) as Hcar.
  { intros rec Hw1 <-. by apply (advance_goes ok cfg defs_bound calls_cancel_only pipeline topo s0 topo_def). }
  assert (carried w1 r ∧ Run_RunID r = id) as [Hr Hrid].
  { split; [by eapply read_carried|by eapply law_id]. }
  destruct c as [rec|]; [|by exists r; auto]. unfold Signals.DirtySet.Take. cbn [snd].
  case_bool_decide as Hd; [by exists r; auto|]. exists rec. split; [done|].
  destruct Hc as [Hid [Hcd|(_ & Ht & _)]].
  - assert (carried w1 rec); [|by auto]. destruct Hcd as (c & Hok' & Hg' & Hcc & Hh'). exists c.
    split; [done|]. split; [done|]. split; [|done]. destruct Hcc as [|Hin]; [by left|].
    exfalso. apply Hd. by rewrite <-Hid.
  - split; [by right|]. unfold advance. rewrite Ht.
    assert (tracked ok pipeline topo s0 id w1) as Htr by (split; [done|by exists r]).
    apply goes_keep; [keeps|]. intros w2 x Hs.
    apply goes_keep_return; [by eapply tracked_same|keeps].
Qed.

Lemma processRun_same fuel : ∀ id w c,
  may_carry ok pipeline topo s0 id w c →
  processRun_in with_call fuel id c w = processRun_in cfg fuel id c w.
Proof.
  induction fuel as [|fuel IH]; intros id w c Hc; [done|].
  destruct (read_live id w c Hc) as (rec & Hread & Hrec & Hgo). simpl.
  unfold bind at 1 4. unfold get. destruct (w_stopped w); [done|].
  unfold Signals.DirtySet.Take in Hread |- *. cbn [fst snd] in Hread |- *.
  unfold bind at 1 3. unfold modify. rewrite Hread. unfold bind.
  match goal with |- context [advance with_call rec ?x] =>
    change x with (set_dirty (w_dirty w ∖ {[id]}) w) end.
  assert (advance with_call rec (set_dirty (w_dirty w ∖ {[id]}) w) =
    advance cfg rec (set_dirty (w_dirty w ∖ {[id]}) w)) as ->.
  { destruct Hrec; [by apply advance_same|by apply advance_terminal_same]. }
  destruct (advance cfg rec _) as [w2 [rec2|d b]]; [|done]. by apply IH.
Qed.
End attempts.

(** ** The property *)

Section theorems.
Context {S H : Type} `{Store S} (ok : S → Prop) `{!StoreLaws S ok}.
Context (cfg : Config (S:=S) (H:=H)).
Context (defs_bound : Binding.bound_registry (e_defs cfg)).
Context (calls_cancel_only : ∀ h inv w,
  let w' := (e_call cfg h inv w).1 in
  ok (w_store w) →
  ok (w_store w') ∧
  (inv_runID inv ∈ w_dirty w → inv_runID inv ∈ w_dirty w') ∧
  ∀ r, GetRun (w_store w) (inv_runID inv) = Ok r →
    ∃ c, GetRun (w_store w') (inv_runID inv) = Ok (set_Cancel c r) ∧
      (c = Run_Cancel r ∨ inv_runID inv ∈ w_dirty w')).

(** C11: a handler is only called for an attempt that is durable: the store holds the
    run with this attempt reserved and in flight, and the invocation presents that
    stored record (its states, its input, the attempt's number, the wake, and the
    failure when unwinding).  Two deployments whose handlers differ only on other
    calls process every run in the same way. *)
Theorem handlers_see_durable_attempts call' fuel id w :
  ok (w_store w) →
  (∀ h inv w', durable w' inv → call' h inv w' = e_call cfg h inv w') →
  processRun (with_call cfg call') fuel id w = processRun cfg fuel id w.
Proof.
  intros Hok Hagree. destruct (GetRun (w_store w) id) as [r|e] eqn:Hg.
  - eapply (processRun_same ok cfg defs_bound calls_cancel_only call' Hagree
      (Run_PipelineID r) (topology cfg (Run_PipelineID r)) (view r)).
    + intros d Hd. unfold topology. by rewrite Hd.
    + split; [|done]. split; [done|]. exists r. split; [done|]. split; [done|]. apply rtc_refl.
  - destruct fuel as [|fuel]; [done|]. unfold processRun. simpl. unfold bind, get, modify.
    destruct (w_stopped w); [done|]. simpl. rewrite Hg. by destruct e.
Qed.
End theorems.

(** A handler that works on durable attempts only. *)
Definition ex_careful (h : Sample.script) (inv : Invocation) (w : World MemStore.MemStore)
    : World MemStore.MemStore * outcome :=
  match GetRun (w_store w) (inv_runID inv) with
  | Ok r =>
    if bool_decide (Op_Status (op_of (Run_Steps r) (inv_stepID inv) (Run_Phase r)) = Driver.OpUnresolved)
    then e_call ex_worker h inv w
    else (w, mkOutcome (Some "not reserved") MsgNil None None)
  | Err _ => (w, mkOutcome (Some "not stored") MsgNil None None)
  end.

Lemma handlers_see_durable_attempts_witness :
  (processRun ex_worker 9 "r" ex_world).2 = Some (0%Z, false) ∧
  processRun (with_call ex_worker ex_careful) 9 "r" ex_world = processRun ex_worker 9 "r" ex_world.
Proof.
  split; [vm_compute; reflexivity|].
  apply (handlers_see_durable_attempts MemStore.mem_ok ex_worker (Sample.sample_bound _ _)
    (Sample.sample_calls _) ex_careful 9 "r" ex_world ex_world_ok).
  intros h inv w' (r & Hg & _ & Hf & _). unfold ex_careful. rewrite Hg.
  by rewrite bool_decide_eq_true_2.
Defined.
