(* ===== verification/Commits.v ===== *)
(** * Commits: the transitions a worker hands the store (engine/engine.go, apply and its
    callers under processRun)

    A transition accounts for an operation in flight when it writes its row or has it in
    its cursor.  Every transition the worker makes accounts for the operations in flight
    in the stored record, and a terminal one has a cursor that names no step: two stores
    that differ on other transitions only are the same to a worker. *)
From S2P Require Import Signals TokenPool RunPool JoinSet MemStore Binding.
From S2P Require Import Prelude Kernel Text Errors Ledger Driver Engine Machine Carry Attempts.
#[local] Open Scope engine_scope.

(** ** Accounting for what is in flight *)

(** The operation of [phase] is the unwind one of its step, or the forward one. *)
Definition writes (id : StepID) (phase : Phase) (ops : list OpWrite) : Prop :=
  ∃ ow, ow ∈ ops ∧ OpWrite_StepID ow = id ∧ half (OpWrite_Phase ow) = half phase.
Record accounts (r : RunRecord) (t : Transition) : Prop := {
  ac_flight id phase : id ≠ "" → Op_Status (op_of (Run_Steps r) id phase) = Driver.OpUnresolved →
    writes id phase (T_Ops t) ∨
    Cursor_StepID (T_Cursor t) = id ∧ half (Cursor_Phase (T_Cursor t)) = half phase;
  ac_outcome : T_Outcome t ≠ None → Cursor_StepID (T_Cursor t) = "";
}.

Lemma writes_prefix id phase ops ops' : ops `prefix_of` ops' → writes id phase ops → writes id phase ops'.
Proof. intros [x ->] (ow & Hin & E). exists ow. split; [|done]. apply elem_of_app. by left. Qed.
Lemma flush_op_prefix id sr ops p : ops `prefix_of` flush_op id sr ops p.
Proof. unfold flush_op. repeat case_match; [done|done|by eexists]. Qed.
Lemma flush_step_prefix c ops e : ops `prefix_of` flush_step c ops e.
Proof.
  destruct e as [id sr]. unfold flush_step. case_match; [done|]. cbn. etrans; apply flush_op_prefix.
Qed.
Lemma flush_prefix ord c ops : ops `prefix_of` flush ord c ops.
Proof.
  unfold flush. revert ops; induction ord as [|e ord IH]; intros ops; [done|]. cbn.
  etrans; [apply flush_step_prefix|apply IH].
Qed.

Lemma flush_op_writes id sr ops phase :
  Op_Status (Op sr phase) = Driver.OpUnresolved → writes id phase (flush_op id sr ops phase).
Proof.
  intros Hu. unfold flush_op. rewrite bool_decide_false by tauto.
  destruct (covered ops id phase) eqn:Hc.
  - unfold covered in Hc. apply existsb_exists in Hc as (ow & Hin & [Hid Hp]%andb_true_iff).
    apply bool_decide_eq_true in Hid, Hp. exists ow. split; [by apply list_elem_of_In|]. by rewrite Hp.
  - eexists. split; [apply elem_of_app; right; by left|done].
Qed.
(** [apply] flushes every operation in flight of the record's other steps. *)
Lemma flush_writes ord c ops id sr phase :
  (id, sr) ∈ ord → id ≠ c → Op_Status (Op sr phase) = Driver.OpUnresolved →
  writes id phase (flush ord c ops).
Proof.
  intros Hin Hc Hu. unfold flush. revert ops; induction ord as [|e ord IH]; intros ops.
  { by apply not_elem_of_nil in Hin. }
  cbn [foldl]. apply elem_of_cons in Hin as [<-|Hin]; [|by apply IH].
  apply (writes_prefix _ _ _ _ (flush_prefix ord c _)). unfold flush_step.
  rewrite bool_decide_false by done. cbn [foldl]. unfold writes. destruct (half phase) eqn:Hh.
  - apply (flush_op_writes id sr _ PhaseUnwind). by destruct phase.
  - apply (writes_prefix id PhaseForward (flush_op id sr ops PhaseForward)); [apply flush_op_prefix|].
    apply (flush_op_writes id sr _ PhaseForward). by destruct phase.
Qed.
Lemma full_flushes rec now t id phase :
  id ≠ Cursor_StepID (T_Cursor t) → Op_Status (op_of (Run_Steps rec) id phase) = Driver.OpUnresolved →
  writes id phase (T_Ops (full_transition rec now t)).
Proof.
  intros Hne Hu. unfold op_of, step_of in Hu.
  destruct (Run_Steps rec !! id) as [sr|] eqn:E; [|by destruct phase].
  apply (flush_writes _ _ _ _ sr); [by apply elem_of_map_to_list|done|done].
Qed.

(** ** Runs whose steps have one half in flight *)

(** No unwind operation is in flight while the run goes forward, nor together with the
    forward operation of its step. *)
Definition one_half (s : state) : Prop :=
  m_outcome s = None → ∀ id, Op_Status (op_of (m_steps s) id PhaseUnwind) = Driver.OpUnresolved →
    m_phase s ≠ PhaseForward ∧ Op_Status (op_of (m_steps s) id PhaseForward) ≠ Driver.OpUnresolved.

Lemma unwind_rest_succeeded f topo :
  Decision_Kind (unwind_rest f topo) = KindRunUnwind →
  fwd f (Decision_Step (unwind_rest f topo)) = Ledger.OpSucceeded.
Proof.
  induction topo as [|s topo IH]; simpl; [done|]. destruct (Step_Unwind s); [|done].
  case_bool_decide as Hf; [done|]. simpl. by destruct (unw f (Step_ID s)).
Qed.
Lemma next_unwind_succeeded topo (m : steps) :
  Decision_Kind (NextUnwind topo (facts m)) = KindRunUnwind →
  Op_Status (op_of m (Decision_Step (NextUnwind topo (facts m))) PhaseForward) = Driver.OpSucceeded.
Proof.
  unfold NextUnwind, NextUnwind_in. destruct (scan_unwind _ _).
  - intros Hk%unwind_rest_succeeded. rewrite fwd_facts in Hk. by apply (opState_inj _ Driver.OpSucceeded).
  - by rewrite unwindViolation_kind.
Qed.

(** A forward operation changes: the unwinds in flight are those there were. *)
Lemma one_half_forward s id op phase :
  one_half s → m_outcome s = None → m_phase s = PhaseForward →
  ∀ f, one_half (mkState phase (put id PhaseForward op (m_steps s)) f None).
Proof.
  intros Hs Ho Hp f _ x Hx. cbn [m_steps] in Hx. rewrite op_of_put, andb_false_r in Hx.
  by destruct (Hs Ho x Hx).
Qed.
Lemma one_half_step topo s s' : one_half s → step topo s s' → one_half s'.
Proof.
  intros Hs Hst.
  assert (∀ id op, m_outcome s = None → m_phase s = PhaseUnwind →
    (Op_Status op = Driver.OpUnresolved → Op_Status (op_of (m_steps s) id PhaseForward) ≠ Driver.OpUnresolved) →
    ∀ f, one_half (mkState PhaseUnwind (put id PhaseUnwind op (m_steps s)) f None)) as Hunw.
  { intros id op Ho Hp Hop f _ x Hx. cbn [m_steps m_phase] in *. split; [done|].
    rewrite op_of_put in Hx |- *. rewrite andb_false_r. case_bool_decide as E; cbn in Hx; [subst; auto|].
    by apply Hs. }
  destruct Hst as [s id [Ho [Hp|Hp]] Hr|s id st o [Ho [Hp|Hp]] Hf|s id f o [Ho _] Hp Hf|s id f o [Ho _] Hp Hf
    |s id f o [Ho _] Hp Hf|s Ha|s Ha]; try done; rewrite ?Hp; try (by apply (one_half_forward s)).
  - apply Hunw; [done|done|]. intros _. unfold runs_next in Hr. rewrite Hp in Hr.
    destruct Hr as [Hk <-]. by rewrite next_unwind_succeeded.
  - by apply Hunw.
  - by apply Hunw.
Qed.
Lemma one_half_steps topo s s' : one_half s → rtc (step topo) s s' → one_half s'.
Proof. intros Hs Hst. induction Hst; [done|]. eauto using one_half_step. Qed.
(** Every run the engine has worked from its creation is such a run. *)
Lemma reached_one_half topo s : reached topo s → one_half s.
Proof. apply one_half_steps. intros _ id Hu. cbn [fresh m_steps] in Hu. by rewrite op_of_empty in Hu. Qed.

(** ** What a commit leaves out *)

Lemma put_writes_untouched ops (m : steps) id phase :
  ¬ writes id phase ops → op_of (foldl put_write m ops) id phase = op_of m id phase.
Proof.
  revert m; induction ops as [|ow ops IH]; intros m Hn; [done|]. cbn [foldl]. rewrite IH.
  - unfold put_write. rewrite op_of_put. case_bool_decide as Hid; [|done]. cbn.
    destruct (Bool.eqb _ _) eqn:Hh; [|done]. apply eqb_prop in Hh.
    destruct Hn. exists ow. split; [by left|done].
  - intros (ow' & Hin & E). apply Hn. exists ow'. split; [by right|done].
Qed.
Lemma steps_after_untouched t (m : steps) id phase :
  ¬ writes id phase (T_Ops t) →
  ¬ (Cursor_StepID (T_Cursor t) = id ∧ half (Cursor_Phase (T_Cursor t)) = half phase) →
  op_of (steps_after t m) id phase = op_of m id phase.
Proof.
  intros Hw Hc. unfold steps_after. case_bool_decide; [by apply put_writes_untouched|].
  rewrite op_of_put. case_bool_decide as Hid; cbn; [|by apply put_writes_untouched].
  destruct (Bool.eqb _ _) eqn:Hh; [|by apply put_writes_untouched].
  apply eqb_prop in Hh. by destruct Hc.
Qed.
Lemma steps_after_cursor t (m : steps) :
  Cursor_StepID (T_Cursor t) ≠ "" →
  Op_Status (op_of (steps_after t m) (Cursor_StepID (T_Cursor t)) (Cursor_Phase (T_Cursor t))) =
    Driver.OpUnresolved.
Proof.
  intros Hne. unfold steps_after. rewrite bool_decide_false by done. rewrite op_of_put.
  rewrite bool_decide_true by done. by rewrite eqb_reflx.
Qed.
Lemma op_of_half (m : steps) id p p' : half p = half p' → op_of m id p = op_of m id p'.
Proof. by destruct p, p'. Qed.

#[export] Instance writes_dec id phase ops : base.Decision (writes id phase ops).
Proof.
  refine (cast_if (decide (Exists (λ ow, OpWrite_StepID ow = id ∧ half (OpWrite_Phase ow) = half phase) ops)));
    unfold writes; by rewrite <-Exists_exists.
Defined.

Definition accounts_all (r : RunRecord) (t : Transition) : Prop :=
  map_Forall (λ id sr, Forall (λ phase, id ≠ "" → Op_Status (Op sr phase) = Driver.OpUnresolved →
    writes id phase (T_Ops t) ∨
    Cursor_StepID (T_Cursor t) = id ∧ half (Cursor_Phase (T_Cursor t)) = half phase)
    [PhaseForward; PhaseUnwind]) (Run_Steps r) ∧
  (T_Outcome t ≠ None → Cursor_StepID (T_Cursor t) = "").
Lemma accounts_all_iff r t : accounts_all r t ↔ accounts r t.
Proof.
  split; intros [Hac Ho]; (split; [|done]).
  - intros id phase Hid Hu. unfold op_of, step_of in Hu.
    destruct (Run_Steps r !! id) as [sr|] eqn:E; [|by destruct phase].
    specialize (Hac id sr E). rewrite !Forall_cons in Hac. destruct Hac as (Hf & Hun & _). unfold writes in *.
    destruct phase; cbn [half] in *; solve [by apply Hf|by apply Hun].
  - intros id sr E. apply Forall_forall. intros phase _ Hid Hu. apply Hac; [done|].
    unfold op_of, step_of. by rewrite E.
Qed.
#[export] Instance accounts_dec r t : base.Decision (accounts r t).
Proof. refine (cast_if (decide (accounts_all r t))); by rewrite <-accounts_all_iff. Defined.

(** A transition that leaves [rec] in a store that holds [r] accounts for what [r] has in
    flight: nothing is in flight in [rec] but by its rows and its cursor. *)
Lemma committed_accounts r rec t :
  committed r rec t → T_Outcome t = None → one_half (view rec) → Run_Outcome rec = None →
  ∀ now, accounts r (full_transition rec now t).
Proof.
  intros Hcom Ho Hhalf Hoc now. pose proof (f_equal Run_Steps (Hcom now)) as Hs.
  rewrite record_after_plain in Hs by done. cbn in Hs. set (t' := full_transition rec now t) in *.
  split; [|done]. intros id phase Hid Hu. destruct (decide (writes id phase (T_Ops t'))) as [|Hw]; [by left|].
  right. destruct (decide (Cursor_StepID (T_Cursor t') = id ∧
    half (Cursor_Phase (T_Cursor t')) = half phase)) as [|Hc]; [done|]. exfalso.
  rewrite <-(steps_after_untouched t') in Hu by done. rewrite Hs in Hu.
  destruct (decide (id = Cursor_StepID (T_Cursor t))) as [E|Hne].
  2:{ destruct Hw. by apply full_flushes. }
  pose proof (steps_after_cursor t' (Run_Steps r)) as Hcur. rewrite Hs in Hcur.
  cbn [t' full_transition set_cursor_updated T_Cursor Cursor_StepID Cursor_Phase] in Hcur, Hc.
  rewrite <-E in Hcur, Hc. specialize (Hcur Hid).
  destruct (half phase) eqn:Hp.
  - rewrite (op_of_half _ _ phase PhaseUnwind) in Hu by by destruct phase.
    rewrite (op_of_half _ _ _ PhaseForward) in Hcur by (by destruct (half (Cursor_Phase (T_Cursor t))); [destruct Hc|]).
    by destruct (Hhalf Hoc id Hu).
  - rewrite (op_of_half _ _ phase PhaseForward) in Hu by by destruct phase.
    rewrite (op_of_half _ _ _ PhaseUnwind) in Hcur by (by destruct (half (Cursor_Phase (T_Cursor t))); [|destruct Hc]).
    by destruct (Hhalf Hoc id Hcur).
Qed.

(** A terminal commit flushes whatever is in flight. *)
Lemma finish_accounts r rec now b :
  Run_Steps r = Run_Steps rec →
  accounts r (full_transition rec now (mkTransition (idleCursor rec) [] None b (Run_Outcome rec))).
Proof.
  intros Hs. split; [|done]. intros id phase Hid Hu. left. apply full_flushes; [done|by rewrite <-Hs].
Qed.

(** ** A store that differs on other transitions *)

Section replaced.
Context {S H : Type} `{St : Store S} (ok : S → Prop) `{!StoreLaws S ok}.
Context (cfg : Config (S:=S) (H:=H)).
Context (defs_bound : Binding.bound_registry (e_defs cfg)).
Context (calls_cancel_only : ∀ h inv w,
  let w' := (e_call cfg h inv w).1 in
  ok (w_store w) →
  ok (w_store w') ∧
  (inv_runID inv ∈ w_dirty w → inv_runID inv ∈ w_dirty w') ∧
  ∀ r, GetRun (w_store w) (inv_runID inv) = Ok r →
    ∃ c, GetRun (w_store w') (inv_runID inv) = Ok (set_Cancel c r) ∧
      (c = Run_Cancel r ∨ inv_runID inv ∈ w_dirty w')).

Context (apply' : S → RunID → Transition → S * result StoreError unit).
Definition with_apply : Store S :=
  Build_Store S CreateRun GetRun GetRunHead apply' ReapTerminal RequestCancel ListNonterminal
    GetActiveRunID.
Context (agree : ∀ s id t r, GetRun s id = Ok r → accounts r t → apply' s id t = ApplyTransition s id t).

Context (pipeline : PipelineID) (topo : Ledger.Topology) (s0 : state).
Context (topo_def : ∀ d, definition cfg pipeline = Some d → Binding.bd_topo d = topo).
Context (s0_half : one_half s0).

Abbreviation carried := (carried ok pipeline topo s0).
Abbreviation trailing := (trailing ok pipeline topo s0).
Abbreviation holds := (holds ok pipeline topo s0).
Abbreviation may_commit := (may_commit ok pipeline topo s0).

Lemma apply_agrees rec t w r :
  GetRun (w_store w) (Run_RunID rec) = Ok r → accounts r (full_transition rec (w_now w) t) →
  @apply S with_apply rec t w = apply rec t w.
Proof.
  intros Hg Hac. unfold apply, bind, get. cbn [Engine.apply with_apply ApplyTransition].
  change (Run_RunID (set_UpdatedAt (w_now w) rec)) with (Run_RunID rec).
  replace (full_transition (set_UpdatedAt (w_now w) rec) (w_now w) t)
    with (full_transition rec (w_now w) t) by done.
  by rewrite (agree _ _ _ r).
Qed.
Lemma commit_agrees rec t w :
  may_commit w rec t → T_Outcome t = None → Run_Outcome rec = None →
  @apply S with_apply rec t w = apply rec t w.
Proof.
  intros (r & (Hok & Hg & _ & Hp & Hh) & Hcom & Hst) Ho Hoc. apply (apply_agrees _ _ _ r); [done|].
  apply committed_accounts; [done|done| |done]. eapply one_half_steps; [exact s0_half|]. by etrans.
Qed.
Lemma same_apply {B} rec t (f f' : RunRecord * bool → M S B) w :
  may_commit w rec t → T_Outcome t = None → Run_Outcome rec = None →
  (∀ w' rec', carried w' rec' → rec' = set_UpdatedAt (w_now w) rec → f' (rec', true) w' = f (rec', true) w') →
  (∀ w' rec', f' (rec', false) w' = f (rec', false) w') →
  bind (@apply S with_apply rec t) f' w = bind (apply rec t) f w.
Proof.
  intros Hc Ho Hoc Ht Hf. rewrite (same_first (apply rec t) _ f') by by apply commit_agrees.
  apply same_bind. intros w' [rec' b] Ha. destruct (apply_carried ok pipeline topo s0 _ _ _ _ _ _ Hc Ha) as (_ & -> & Hb).
  destruct b; [|done]. apply Ht; [by apply Hb|done].
Qed.

Lemma resolve_same rec t ev res w :
  may_commit w rec t → T_Outcome t = None → Run_Outcome rec = None →
  @resolve S with_apply rec t ev res w = resolve rec t ev res w.
Proof. intros Hc Ho Hoc. by apply same_apply. Qed.

Lemma cancelOperation_same rec stepID p e w :
  trailing w rec → active (view rec) → Run_Phase rec = PhaseForward →
  in_flight (view rec) stepID ∨ runs_next topo (view rec) stepID →
  @cancelOperation S H with_apply cfg rec stepID p e w = cancelOperation cfg rec stepID p e w.
Proof.
  intros Hw Hact Hph Hrun. unfold cancelOperation. apply same_keep; [keeps|].
  intros w1 now H1. apply same_keep; [destruct (Run_Awaiting rec); keeps|]. intros w2 _ H2.
  assert (trailing w2 rec) as Hw2 by (by eapply trailing_same; [|eapply trailing_same]).
  pose proof (canceled_facts cfg rec stepID p e now) as (Hkept & Hcan & Hv). cbn zeta.
  apply same_apply; [by eapply canceled_commit|done| |by intros ??|done].
  by destruct Hact.
Qed.
Lemma same_stable {A B} rec (m : M S A) (f f' : A → M S B) w :
  stable ok pipeline topo s0 rec m → carried w rec →
  (∀ w' x, carried w' rec → f' x w' = f x w') → bind m f' w = bind m f w.
Proof.
  intros Hm Hw Hf. apply same_bind. intros w' x Hx. apply Hf. pose proof (Hm w Hw) as Hs. by rewrite Hx in Hs.
Qed.

(** The programs that commit nothing. *)
Lemma cycle_walk_same self budget :
  (λ s, @cycle_walk S with_apply s self budget) = (λ s, cycle_walk s self budget).
Proof. reflexivity. Qed.
Lemma awaitCycle_same self targets : @awaitCycle S with_apply self targets = awaitCycle self targets.
Proof.
  unfold awaitCycle. pose proof (cycle_walk_same self maxVisited) as E. revert E.
  generalize maxVisited. intros n E. apply (f_equal (λ f, bind get (λ w, mret (f (w_store w) ∅ (rev targets))))) in E.
  exact E.
Qed.
Lemma mark_targets_same id targets : @mark_targets S with_apply id targets = mark_targets id targets.
Proof. reflexivity. Qed.
Lemma gate_first_same rec park : @gate_first S with_apply rec park = gate_first rec park.
Proof. unfold gate_first. by rewrite awaitCycle_same, mark_targets_same. Qed.
Lemma awaitGate_same rec : @awaitGate S with_apply rec = awaitGate rec.
Proof.
  unfold awaitGate. destruct (Run_Awaiting rec) as [park|]; [|done].
  case_bool_decide; [done|]. by rewrite gate_first_same.
Qed.

Lemma parkAwait_same rec stepID phase park timeout w :
  carried w rec → attempting rec stepID phase →
  @parkAwait S with_apply rec stepID (attempts_of rec stepID phase) park timeout w =
    parkAwait rec stepID (attempts_of rec stepID phase) park timeout w.
Proof.
  intros Hw [Hne <- [Hoc Hact] Hin Hun]. unfold parkAwait.
  case_bool_decide; [done|]. case_bool_decide; [done|].
  apply same_keep; [keeps|]. intros w1 now Hs1. cbn zeta.
  set (rec1 := set_Awaited _ _). apply same_apply; [|done|done| |intros; cbn [negb]; reflexivity].
  2:{ intros w2 rec2 _ _. cbn [negb]. rewrite awaitCycle_same. reflexivity. }
  eapply (in_flight_holds ok pipeline topo s0 w1 rec rec1); try done.
  apply carried_trailing. by eapply carried_same.
Qed.
Lemma interrupted_or_retry_same rec stepID phase i w :
  carried w rec → attempting rec stepID phase →
  @interrupted_or_retry S H with_apply cfg rec stepID phase i w = interrupted_or_retry cfg rec stepID phase i w.
Proof.
  intros Hw [Hne <- [Hoc Hact] Hin Hun]. unfold interrupted_or_retry.
  destruct (i_interrupted i && negb (i_panicked i)); [done|].
  apply same_keep; [keeps|]. intros w1 now Hs1. cbn zeta.
  set (rec1 := retrying cfg rec _ _ _). apply resolve_same; [|done|done].
  apply (in_flight_holds ok pipeline topo s0 w1 rec rec1); try done.
  apply carried_trailing. by eapply carried_same.
Qed.

Lemma forward_result_same rec bs stepID i w :
  carried w rec → attempting rec stepID PhaseForward →
  @forward_result S H with_apply cfg rec bs stepID i w = forward_result cfg rec bs stepID i w.
Proof.
  intros Hw Hat. pose proof Hat as [Hne Hph Hact Hin Hun]. pose proof Hact as [Hoc _].
  unfold forward_result. cbn zeta. destruct (i_violation i); [done|].
  destruct (AwaitRequest (i_err i)) as [park|] eqn:Hpark, (i_err i) as [e|] eqn:He,
    (i_preempted i) as [pc|] eqn:Hpc;
    try (apply same_first, cancelOperation_same; [by apply carried_trailing|done|done|by left]);
    try by apply parkAwait_same.
  - destruct (FailureCause (Some e)) as [cause|] eqn:Hfc; [|by apply interrupted_or_retry_same].
    apply same_keep; [keeps|]. intros w1 now Hs1.
    destruct (FailureInfo (Some e)) as [[kind reason] isf]. cbn zeta.
    set (f := failure_of _ _ _ _ _ _ _ _). apply resolve_same; [|done|done].
    eapply (resolved_holds ok pipeline topo s0 w1 rec); try done.
    + apply carried_trailing. by eapply carried_same.
    + by apply failed_forward_step.
  - destruct (state_bytes _ _) as [b|reason]; [|done]. apply resolve_same; [|done|done].
    eapply (resolved_holds ok pipeline topo s0 w rec); try done; [by apply carried_trailing|].
    by apply succeeded_step.
  - destruct (state_bytes _ _) as [b|reason]; [|done]. apply resolve_same; [|done|done].
    eapply (resolved_holds ok pipeline topo s0 w rec); try done; [by apply carried_trailing|].
    by apply succeeded_step.
Qed.
Lemma unwind_result_same rec stepID i w :
  carried w rec → attempting rec stepID PhaseUnwind →
  @unwind_result S H with_apply cfg rec stepID i w = unwind_result cfg rec stepID i w.
Proof.
  intros Hw Hat. pose proof Hat as [Hne Hph Hact Hin Hun]. pose proof Hact as [Hoc _].
  unfold unwind_result. cbn zeta. destruct (i_violation i); [done|].
  destruct (AwaitRequest (i_err i)) as [park|] eqn:Hpark; [by apply parkAwait_same|].
  destruct (i_err i) as [e|] eqn:He.
  - destruct (FailureCause (Some e)) as [cause|] eqn:Hfc; [|by apply interrupted_or_retry_same].
    apply same_keep; [keeps|]. intros w1 now Hs1.
    destruct (FailureInfo (Some e)) as [[kind reason] isf]. cbn zeta.
    apply resolve_same; [|done|done].
    eapply (resolved_holds ok pipeline topo s0 w1 rec); try done.
    + apply carried_trailing. by eapply carried_same.
    + by apply failed_unwind_step.
  - apply resolve_same; [|done|done].
    eapply (resolved_holds ok pipeline topo s0 w rec); try done; [by apply carried_trailing|].
    by apply succeeded_step.
Qed.

Lemma runForward_commits rec bs stepID w :
  trailing w rec → deciding topo rec stepID PhaseForward →
  @runForward S H with_apply cfg rec bs stepID w = runForward cfg rec bs stepID w.
Proof.
  intros Hw Hde. pose proof (de_active _ _ _ _ Hde) as [Hoc _]. unfold runForward.
  apply same_keep; [keeps|]. intros w1 now Hs1. cbn zeta.
  apply same_apply; [|done| | |intros; cbn [negb]; reflexivity].
  - apply reserve_holds; [by eapply trailing_same|done].
  - pose proof (f_equal m_outcome (reserved_view rec stepID PhaseForward now)) as E. cbn in E. by rewrite E.
  - intros w2 rec2 Hw2 ->. cbn [negb].
    apply (same_stable (set_UpdatedAt (w_now w1) (reserved rec stepID PhaseForward now)));
      [by apply (invokeForward_stable ok cfg calls_cancel_only)|done|].
    intros w3 i Hw3. apply forward_result_same; [done|]. by apply (reserved_attempting topo).
Qed.
Lemma runUnwind_commits rec bs stepID w :
  trailing w rec → deciding topo rec stepID PhaseUnwind →
  @runUnwind S H with_apply cfg rec bs stepID w = runUnwind cfg rec bs stepID w.
Proof.
  intros Hw Hde. pose proof (de_active _ _ _ _ Hde) as [Hoc _]. unfold runUnwind.
  apply same_keep; [keeps|]. intros w1 now Hs1. cbn zeta.
  apply same_apply; [|done| | |intros; cbn [negb]; reflexivity].
  - apply reserve_holds; [by eapply trailing_same|done].
  - pose proof (f_equal m_outcome (reserved_view rec stepID PhaseUnwind now)) as E. cbn in E. by rewrite E.
  - intros w2 rec2 Hw2 ->. cbn [negb]. destruct (Binding.bs_unwind bs) as [h|]; [|reflexivity].
    apply (same_stable (set_UpdatedAt (w_now w1) (reserved rec stepID PhaseUnwind now)));
      [by apply (invokeUnwind_stable ok cfg calls_cancel_only)|done|].
    intros w3 i Hw3. apply unwind_result_same; [done|]. by apply (reserved_attempting topo).
Qed.

Lemma run_forward_step_commits rec (d : Binding.boundDef (H:=H)) stepID w :
  trailing w rec → deciding topo rec stepID PhaseForward →
  @run_forward_step S H with_apply cfg rec d stepID w = run_forward_step cfg rec d stepID w.
Proof.
  intros Hw Hde. unfold run_forward_step. apply same_keep; [keeps|]. intros w1 w1' Hs1.
  destruct (w_draining w1'); [done|].
  assert (trailing w1 rec) as Hw1 by (by eapply trailing_same).
  destruct (Run_Cancel rec).
  - apply same_first. destruct Hde as [Hne Hph Hact Hnext].
    apply cancelOperation_same; [done|done|done|by right].
  - rewrite awaitGate_same. apply (gate_same ok pipeline topo s0); [done| |done].
    intros w2 rec2 Hw2 Hv2. apply same_keep; [keeps|]. intros w3 t Hs3. destruct (retryGate rec2 t); [done|].
    apply same_keep; [keeps|]. intros w4 [] Hs4; [|done]. apply run_in_class_same.
    intros bs w5 Hs5. apply runForward_commits; [|by eapply deciding_view].
    by repeat (eapply trailing_same; [eassumption|]).
Qed.
Lemma run_unwind_step_commits rec (d : Binding.boundDef (H:=H)) stepID w :
  trailing w rec → deciding topo rec stepID PhaseUnwind →
  @run_unwind_step S H with_apply cfg rec d stepID w = run_unwind_step cfg rec d stepID w.
Proof.
  intros Hw Hde. unfold run_unwind_step. apply same_keep; [keeps|]. intros w1 w1' Hs1.
  destruct (w_draining w1'); [done|].
  rewrite awaitGate_same. apply (gate_same ok pipeline topo s0); [by eapply trailing_same| |done].
  intros w2 rec2 Hw2 Hv2. apply same_keep; [keeps|]. intros w3 t Hs3. destruct (retryGate rec2 t); [done|].
  apply run_in_class_same. intros bs w5 Hs5. apply runUnwind_commits; [|by eapply deciding_view].
  by repeat (eapply trailing_same; [eassumption|]).
Qed.

Lemma finish_same rec rec1 oc w r :
  holds w rec r → behind r rec → Run_RunID rec1 = Run_RunID rec → Run_Steps rec1 = Run_Steps rec →
  @finish S with_apply rec1 oc w = finish rec1 oc w.
Proof.
  intros (_ & Hg & _) (_ & _ & Hs & _) Hid Hst. unfold finish. apply same_first.
  apply (apply_agrees _ _ _ r); [by rewrite <-Hid in Hg|]. apply finish_accounts. by rewrite Hs.
Qed.
Lemma complete_commits rec reduces what o oc w :
  trailing w rec →
  (r ← (if reduces : bool then reduceInto rec what o else mret (rec, true));
   let '(rec, ok) := r in if negb ok then mret (rec, false) else @finish S with_apply rec oc) w =
  (r ← (if reduces : bool then reduceInto rec what o else mret (rec, true));
   let '(rec, ok) := r in if negb ok then mret (rec, false) else finish rec oc) w.
Proof.
  intros (r & Hr & Hb). apply same_bind. intros w1 [rec1 []] Hm; [|done]. cbn [negb].
  destruct reduces; [|injection Hm as <- <-; by eapply finish_same].
  pose proof (keeps_reduceInto rec what o w) as Hs. pose proof (reduceInto_returns rec what o w) as Hid.
  rewrite Hm in Hs, Hid. destruct (Hid eq_refl) as [Hi Hst].
  eapply finish_same; [|done|done|done]. by eapply holds_same.
Qed.

Lemma advance_commits rec w :
  carried w rec ∨ Terminal rec = true → @advance S H with_apply cfg rec w = advance cfg rec w.
Proof.
  intros [Hw|Hterm]; [|by unfold advance; rewrite Hterm].
  pose proof (carried_trailing _ _ _ _ _ _ Hw) as Ht. pose proof (carried_pipeline _ _ _ _ _ _ Hw) as Hp.
  unfold advance. destruct (Terminal rec) eqn:Hterm; [done|].
  destruct (definition cfg (Run_PipelineID rec)) as [d|] eqn:Hd; [|done]. cbn zeta.
  destruct (Run_Phase rec) eqn:Hph; [reflexivity| | |reflexivity].
  - pose proof (Ledger.NextForward_step (Binding.bd_topo d) (factsOf rec)) as [Hstep Hnot].
    pose proof (deciding_next cfg defs_bound pipeline topo topo_def rec d
      (Decision_Step (NextForward (Binding.bd_topo d) (factsOf rec)))
      _ Hd Hp Hterm Hph (or_introl eq_refl)) as Hde.
    unfold runs_next in Hde. simpl in Hde. rewrite Hph in Hde.
    change (facts (Run_Steps rec)) with (factsOf rec) in Hde.
    destruct (NextForward _ _) as [k st reason]; destruct k; cbn [Decision_Kind Decision_Step] in *;
      [|by apply same_first, complete_commits|exfalso; by destruct Hnot|exfalso; by destruct Hnot|reflexivity].
    apply run_forward_step_commits; [done|]. apply Hde; [by apply Hstep|done].
  - pose proof (Ledger.NextUnwind_step (Binding.bd_topo d) (factsOf rec)) as [Hstep Hnot].
    pose proof (deciding_next cfg defs_bound pipeline topo topo_def rec d
      (Decision_Step (NextUnwind (Binding.bd_topo d) (factsOf rec)))
      _ Hd Hp Hterm Hph (or_intror eq_refl)) as Hde.
    unfold runs_next in Hde. simpl in Hde. rewrite Hph in Hde.
    change (facts (Run_Steps rec)) with (factsOf rec) in Hde.
    destruct (NextUnwind _ _) as [k st reason]; destruct k; cbn [Decision_Kind Decision_Step] in *;
      [exfalso; by destruct Hnot|exfalso; by destruct Hnot| |by apply same_first, complete_commits|reflexivity].
    apply run_unwind_step_commits; [done|]. apply Hde; [by apply Hstep|done].
Qed.

Lemma processRun_commits fuel : ∀ id w c,
  may_carry ok pipeline topo s0 id w c →
  @processRun_in S H with_apply cfg fuel id c w = processRun_in cfg fuel id c w.
Proof.
  induction fuel as [|fuel IH]; intros id w c Hc; [done|].
  destruct (read_live ok cfg defs_bound calls_cancel_only pipeline topo s0 topo_def id w c Hc)
    as (rec & Hread & Hrec & Hgo).
  cbn [processRun_in]. unfold bind at 1 4. unfold get. destruct (w_stopped w); [done|].
  unfold Signals.DirtySet.Take in Hread |- *. cbn [fst snd] in Hread |- *.
  change (@GetRun S with_apply) with (@GetRun S St).
  unfold bind at 1 3. unfold modify. rewrite Hread. unfold bind.
  match goal with |- context [advance cfg rec ?x] =>
    change x with (set_dirty (w_dirty w ∖ {[id]}) w) end.
  rewrite advance_commits by done.
  destruct (advance cfg rec _) as [w2 [rec2|d b]]; [|done]. by apply IH.
Qed.
End replaced.
