(* ===== verification/Awaits.v ===== *)
(** * Awaits: the await graph and its cycle check (engine/engine.go, awaitCycle)

    The bounded walk of [awaitCycle] decides whether a run awaits itself, directly or
    through other parked runs, as long as the runs it can reach fit its bound. *)
From S2P Require Import Signals TokenPool RunPool JoinSet MemStore Binding.
From S2P Require Import Prelude Kernel Text Errors Ledger Driver Engine Sample.
#[local] Open Scope engine_scope.

Section walk.
Context {S : Type} `{Store S}.
Implicit Types (s : S) (visited R : gset RunID) (stack : list RunID).

(** Run [a] is parked and awaits run [b]. *)
Definition awaits s (a b : RunID) : Prop :=
  ∃ rec park, GetRunHead s a = Ok rec ∧ Terminal rec = false ∧
    Run_Awaiting rec = Some park ∧ b ∈ Await_Targets park.

Lemma elem_of_rev (l : list RunID) x : x ∈ rev l ↔ x ∈ l.
Proof. by rewrite !list_elem_of_In, <-in_rev. Qed.

Lemma cycle_walk_sound s self budget : ∀ visited stack,
  cycle_walk s self budget visited stack = Ok true →
  ∃ t, t ∈ stack ∧ rtc (awaits s) t self.
Proof.
  assert (∀ cur stack, (∃ t, t ∈ stack ∧ rtc (awaits s) t self) →
    ∃ t, t ∈ cur :: stack ∧ rtc (awaits s) t self) as Hlater.
  { intros cur stack (t & Ht & Hr). exists t. split; [by right|done]. }
  induction budget as [|budget IH]; intros visited stack; [by destruct stack|].
  induction stack as [|cur stack IHs]; simpl; [done|]. case_decide as Hself.
  { intros _. exists cur. subst. split; [by left|done]. }
  case_decide; [intros Hw; by apply Hlater, IHs|].
  destruct (GetRunHead s cur) as [rec|e] eqn:Hg.
  - destruct (Terminal rec) eqn:Ht; [intros Hw; by eapply Hlater, IH|].
    destruct (Run_Awaiting rec) as [park|] eqn:Hp; [|intros Hw; by eapply Hlater, IH].
    intros (t & Hin & Hr)%IH. apply elem_of_app in Hin as [Hin|Hin]; [|apply Hlater; by exists t].
    exists cur. split; [by left|]. apply rtc_l with t; [|done]. exists rec, park.
    split; [done|]. split; [done|]. split; [done|]. by apply elem_of_rev.
  - destruct e; try done. intros Hw. by eapply Hlater, IH.
Qed.

Lemma cycle_walk_cons s self budget visited cur stack :
  cycle_walk s self (Datatypes.S budget) visited (cur :: stack) =
    if decide (cur = self) then Ok true
    else if decide (cur ∈ visited) then cycle_walk s self (Datatypes.S budget) visited stack
    else match GetRunHead s cur with
         | Err ErrRunNotFound => cycle_walk s self budget ({[cur]} ∪ visited) stack
         | Err e => Err e
         | Ok rec =>
           match Terminal rec, Run_Awaiting rec with
           | false, Some park =>
             cycle_walk s self budget ({[cur]} ∪ visited) (rev (Await_Targets park) ++ stack)
           | _, _ => cycle_walk s self budget ({[cur]} ∪ visited) stack
           end
         end.
Proof. done. Qed.

(** Nothing visited is [self], and what a visited run awaits is visited or on the stack. *)
Definition walked s self visited stack : Prop :=
  self ∉ visited ∧ ∀ a b, a ∈ visited → awaits s a b → b ∈ visited ∨ b ∈ stack.
(** The runs in reach: closed under awaiting, around the stack and the visited. *)
Definition in_reach s R visited stack : Prop :=
  visited ⊆ R ∧ (∀ t, t ∈ stack → t ∈ R) ∧ ∀ a b, a ∈ R → awaits s a b → b ∈ R.

Lemma walked_end s self visited : walked s self visited [] → ∀ t, t ∈ visited → ¬ rtc (awaits s) t self.
Proof.
  intros [Hself Hcl] t Ht Hr. revert Ht. induction Hr as [t|t u v Htu _ IH]; [done|].
  intros Ht. apply IH; [done..|]. destruct (Hcl t u Ht Htu) as [|Hu]; [done|].
  by apply elem_of_nil in Hu.
Qed.

(** One visited run more. *)
Lemma visit s self R visited cur stack more :
  cur ≠ self → walked s self visited (cur :: stack) → in_reach s R visited (cur :: stack) →
  (∀ b, awaits s cur b ↔ b ∈ more) →
  walked s self ({[cur]} ∪ visited) (more ++ stack) ∧
  in_reach s R ({[cur]} ∪ visited) (more ++ stack).
Proof.
  intros Hne [Hself Hcl] (Hv & Hst & Hcr) Hmore.
  assert (cur ∈ R) as HcR by (apply Hst; by left). split; [split|split; [|split]].
  - set_solver.
  - intros a b Ha Hab. apply elem_of_union in Ha as [->%elem_of_singleton|Ha].
    + right. apply elem_of_app. left. by apply Hmore.
    + destruct (Hcl a b Ha Hab) as [Hb|Hb]; [left; set_solver|].
      apply elem_of_cons in Hb as [->|Hb]; [left; set_solver|right; apply elem_of_app; by right].
  - set_solver.
  - intros t [Ht|Ht]%elem_of_app; [|apply Hst; by right]. by eapply Hcr, Hmore.
  - done.
Qed.

Lemma awaits_nothing s cur :
  (∀ rec, GetRunHead s cur = Ok rec → Terminal rec = true ∨ Run_Awaiting rec = None) →
  ∀ b, awaits s cur b ↔ b ∈ @nil RunID.
Proof.
  intros Hn b. split; [|intros Hb; by apply elem_of_nil in Hb].
  intros (rec & park & Hg & Ht & Hp & _). destruct (Hn rec Hg); congruence.
Qed.

Lemma cycle_walk_complete s self R : ∀ budget visited stack,
  walked s self visited stack → in_reach s R visited stack → size R < size visited + budget →
  match cycle_walk s self budget visited stack with
  | Ok true => True
  | Ok false => ∀ t, t ∈ visited ∨ t ∈ stack → ¬ rtc (awaits s) t self
  | Err e => e ≠ ErrRunNotFound ∧ ∃ a, a ∈ R ∧ GetRunHead s a = Err e
  end.
Proof.
  induction budget as [|budget IH]; intros visited stack.
  { intros _ (Hv & _) Hsz. pose proof (subseteq_size _ _ Hv). lia. }
  induction stack as [|cur stack IHs]; intros Hw Hr Hsz.
  { simpl. intros t [Ht|Ht]; [by eapply walked_end|by apply elem_of_nil in Ht]. }
  rewrite cycle_walk_cons. case_decide as Hself; [done|].
  case_decide as Hseen.
  - assert (walked s self visited stack ∧ in_reach s R visited stack) as [Hw' Hr'].
    { destruct Hw as [Hs Hcl], Hr as (Hv & Hst & Hcr). split; [split|split; [|split]]; [done| |done| |done].
      - intros a b Ha Hab. destruct (Hcl a b Ha Hab) as [|Hb]; [by left|].
        apply elem_of_cons in Hb as [->|Hb]; [by left|by right].
      - intros t Ht. apply Hst. by right. }
    specialize (IHs Hw' Hr' Hsz).
    destruct (cycle_walk s self (Datatypes.S budget) visited stack) as [[]|]; [done| |done].
    intros t [Ht|Ht]; [apply IHs; by left|]. apply IHs.
    apply elem_of_cons in Ht as [->|Ht]; [by left|by right].
  - assert (∀ more, (∀ b, awaits s cur b ↔ b ∈ more) →
      match cycle_walk s self budget ({[cur]} ∪ visited) (more ++ stack) with
      | Ok true => True
      | Ok false => ∀ t, t ∈ visited ∨ t ∈ cur :: stack → ¬ rtc (awaits s) t self
      | Err e => e ≠ ErrRunNotFound ∧ ∃ a, a ∈ R ∧ GetRunHead s a = Err e
      end) as Hmore.
    { intros more Hm. destruct (visit s self R visited cur stack more Hself Hw Hr Hm) as [Hw' Hr'].
      assert (size R < size ({[cur]} ∪ visited) + budget) as Hsz'.
      { rewrite size_union by set_solver. rewrite size_singleton. lia. }
      specialize (IH _ _ Hw' Hr' Hsz'). destruct (cycle_walk _ _ _ _ _) as [[]|]; [done| |done].
      intros t Ht. apply IH. rewrite elem_of_union, elem_of_singleton, elem_of_app.
      destruct Ht as [Ht|[Ht|Ht]%elem_of_cons]; auto. }
    destruct (GetRunHead s cur) as [rec|e] eqn:Hg.
    + destruct (Terminal rec) eqn:Ht.
      { apply (Hmore []), awaits_nothing. intros r Hr'. rewrite Hg in Hr'. injection Hr' as <-. by left. }
      destruct (Run_Awaiting rec) as [park|] eqn:Hp.
      2:{ apply (Hmore []), awaits_nothing. intros r Hr'. rewrite Hg in Hr'. injection Hr' as <-. by right. }
      apply Hmore. intros b. rewrite elem_of_rev. split.
      * intros (r & park' & Hg' & _ & Hp' & Hb). congruence.
      * intros Hb. by exists rec, park.
    + destruct e; try (split; [done|]; exists cur; split; [by apply Hr; left|done]).
      apply (Hmore []), awaits_nothing. intros r Hr'. congruence.
Qed.
End walk.

(** C26: the cycle check is exact on any store: when the runs reachable from the
    targets are fewer than the walk's bound, it answers true exactly when the run
    would await itself, directly or through runs that are parked now; it fails only on
    a read that failed, other than a missing run; and it changes nothing. *)
Theorem awaitCycle_correct {S} `{Store S} self targets (R : gset RunID) (w : World S) :
  (∀ t, t ∈ targets → t ∈ R) →
  (∀ a b, a ∈ R → awaits (w_store w) a b → b ∈ R) →
  size R < maxVisited →
  (awaitCycle self targets w).1 = w ∧
  match (awaitCycle self targets w).2 with
  | Ok b => b = true ↔ ∃ t, t ∈ targets ∧ rtc (awaits (w_store w)) t self
  | Err e => e ≠ ErrRunNotFound ∧ ∃ a, a ∈ R ∧ GetRunHead (w_store w) a = Err e
  end.
Proof.
  intros Ht Hcl Hsz. unfold awaitCycle, bind, get, mret, M_ret. cbn [fst snd]. split; [done|].
  pose proof (cycle_walk_sound (w_store w) self maxVisited ∅ (rev targets)) as Hs.
  pose proof (cycle_walk_complete (w_store w) self R maxVisited ∅ (rev targets)) as Hc.
  destruct (cycle_walk _ _ _ _ _) as [[]|e].
  - destruct (Hs eq_refl) as (t & Hin & Hr). split; [|done]. intros _. exists t.
    split; [by apply elem_of_rev|done].
  - split; [done|]. intros (t & Hin & Hr). exfalso. revert Hr. apply Hc.
    + split; [set_solver|]. intros a b Ha. set_solver.
    + split; [set_solver|]. split; [|done]. intros x Hx. by apply Ht, elem_of_rev.
    + rewrite size_empty. exact Hsz.
    + right. by apply elem_of_rev.
  - apply Hc.
    + split; [set_solver|]. intros a b Ha. set_solver.
    + split; [set_solver|]. split; [|done]. intros x Hx. by apply Ht, elem_of_rev.
    + rewrite size_empty. exact Hsz.
Qed.

Definition ex_parked (id : RunID) (targets : list RunID) : RunRecord :=
  set_Awaiting (Some (mkAwait AwaitModeAll targets time_zero false)) (sample_run id "p" id).
Definition ex_graph : World MemStore :=
  sample_world [ex_parked "a" ["gone"; "b"]; ex_parked "b" ["c"]; sample_run "c" "p" "c"].

Lemma awaitCycle_correct_witness :
  (awaitCycle "c" ["a"] ex_graph).1 = ex_graph ∧
  (true = true ↔ ∃ t, t ∈ ["a"] ∧ rtc (awaits (w_store ex_graph)) t "c").
Proof.
  destruct (awaitCycle_correct "c" ["a"] {["a"; "b"; "c"; "gone"]} ex_graph) as [Hw Hr].
  - set_solver.
  - intros a b Ha (rec & park & Hg & Ht & Hp & Hb).
    repeat (apply elem_of_union in Ha as [Ha|Ha]); apply elem_of_singleton in Ha; subst a;
      vm_compute in Hg; try discriminate Hg; injection Hg as <-; simpl in Hp; simplify_eq;
      simpl in Hb; set_solver.
  - apply Nat.ltb_lt. vm_compute. reflexivity.
  - split; [exact Hw|].
    assert ((awaitCycle "c" ["a"] ex_graph).2 = Ok true) as He by (vm_compute; reflexivity).
    rewrite He in Hr. exact Hr.
Defined.
