(* ===== verification/Progress.v ===== *)
(** * Progress: a run whose handlers succeed runs to its end (engine/engine.go,
    processRun)

    With a store that accepts transitions on live runs, no classes, and handlers that
    succeed, one worker drives a new run through every step that is not retired, in
    order, one attempt each, to success, in a bounded number of iterations. *)
From S2P Require Import Signals TokenPool RunPool JoinSet MemStore Binding.
From S2P Require Import Prelude Kernel Text Errors Ledger Driver Engine Sample Machine Carry.
#[local] Open Scope engine_scope.

(** ** Programs that call no handler and stop nothing *)

(** The handler calls of a trace: the step and the attempt. *)
Definition call_of (e : event) : option (StepID * Z) :=
  match e with EvInvoke inv => Some (inv_stepID inv, inv_attempt inv) | _ => None end.
Definition calls (tr : list event) : list (StepID * Z) := omap call_of tr.

Section calm.
Context {S : Type}.

Definition calm (w w' : World S) : Prop :=
  same_store w w' ∧ w_stopped w' = w_stopped w ∧ w_draining w' = w_draining w ∧
  calls (w_trace w') = calls (w_trace w).
Definition calmly {A} (m : M S A) : Prop := ∀ w, calm w (m w).1.

Lemma calm_trans w1 w2 w3 : calm w1 w2 → calm w2 w3 → calm w1 w3.
Proof. intros (H1 & ?) (H2 & ?). split; [by eapply same_store_trans|]. naive_solver congruence. Qed.
Lemma calmly_ret {A} (x : A) : calmly (mret x).
Proof. done. Qed.
Lemma calmly_bind {A B} (m : M S A) (f : A → M S B) :
  calmly m → (∀ x, calmly (f x)) → calmly (bind m f).
Proof.
  intros Hm Hf w. unfold bind. pose proof (Hm w) as H1. destruct (m w) as [w1 x].
  eapply calm_trans; [exact H1|apply Hf].
Qed.
Lemma calmly_emit e : call_of e = None → calmly (emit (S:=S) e).
Proof.
  intros He w. repeat split. unfold calls. simpl. rewrite omap_app. simpl. rewrite He.
  by rewrite app_nil_r.
Qed.
Lemma calmly_for_each {A} (l : list A) (f : A → M S unit) :
  (∀ x, calmly (f x)) → calmly (for_each l f).
Proof. intros Hf. induction l as [|x l IH]; [done|]. by apply calmly_bind. Qed.
Lemma calmly_or_panic {A} (x : option A) (f : A → M S unit) :
  (∀ x, calmly (f x)) → calmly (or_panic x f).
Proof. intros Hf. destruct x; [apply Hf|by apply calmly_emit]. Qed.
End calm.

Ltac calmly :=
  repeat first
    [ apply calmly_ret
    | apply calmly_for_each; intros ?
    | apply calmly_or_panic; intros ?
    | apply calmly_bind; [|intros ?]
    | apply calmly_emit; reflexivity
    | match goal with |- calmly (dispatch _ _) => apply calmly_emit; reflexivity end
    | match goal with |- calmly (modify _) => by intros [] end
    | match goal with |- calmly get => done | |- calmly now => done end
    | match goal with |- calmly (let '(_, _) := ?x in _) => destruct x end
    | match goal with |- calmly (match ?x with _ => _ end) => destruct x end ].

Section engine_calm.
Context {S H : Type} `{Store S}.

Lemma calmly_kick x : calmly (S:=S) (kick x).
Proof. unfold kick. calmly. Qed.
Lemma calmly_acquireClass rec class : calmly (S:=S) (acquireClass rec class).
Proof. unfold acquireClass. calmly. Qed.
Lemma calmly_completeRun rec : calmly (S:=S) (completeRun rec).
Proof. unfold completeRun, releaseRunClass, awaitTargetDone, kick. calmly. Qed.
End engine_calm.

(** ** What is left to run *)

Definition live (topo : Topology) : Topology := filter (λ s, Step_Retired s = false) topo.

Lemma forward_rest_live f topo :
  Forall (λ x, fwd f (Ledger.Step_ID x) = Ledger.OpNone) topo →
  (live topo = [] ∧ forward_rest f topo = mkDecision KindForwardComplete "" "") ∨
  (∃ mid s post, topo = mid ++ s :: post ∧ live topo = s :: live post ∧
     forward_rest f topo = run_forward (Ledger.Step_ID s)).
Proof.
  induction topo as [|s topo IH]; [by left|]. intros [Hs Hn]%Forall_cons. unfold live. simpl.
  rewrite filter_cons. destruct (Step_Retired s).
  - rewrite decide_False by done. destruct (IH Hn) as [?|(mid & x & post & -> & ? & ?)]; [by left|].
    right. by exists (s :: mid), x, post.
  - rewrite decide_True by done. rewrite bool_decide_eq_false_2 by tauto.
    right. by exists [], s, topo.
Qed.

(** Nothing failed or is in flight, and the operations of [topo] were never started. *)
Record clear (m : steps) (topo : Topology) : Prop := {
  cl_settled : settled (Facts_Forward (facts m));
  cl_none : Forall (λ x, op_of m (Ledger.Step_ID x) PhaseForward = op_zero) topo;
}.
Lemma clear_none m topo :
  clear m topo → Forall (λ x, fwd (facts m) (Ledger.Step_ID x) = Ledger.OpNone) topo.
Proof.
  intros [_ Hn]. eapply Forall_impl; [exact Hn|]. intros x Hx. by rewrite fwd_facts, Hx.
Qed.
Lemma facts_put id op (m : steps) :
  Op_Status op = Driver.OpSucceeded →
  Facts_Forward (facts (put id PhaseForward op m)) = <[id := Ledger.OpSucceeded]> (Facts_Forward (facts m)).
Proof. intros Hop. unfold facts, put. simpl. rewrite fmap_insert. simpl. by rewrite Hop. Qed.
Lemma clear_put m mid s post op :
  NoDup (ids (mid ++ s :: post)) → clear m (mid ++ s :: post) → Op_Status op = Driver.OpSucceeded →
  clear (put (Ledger.Step_ID s) PhaseForward op m) post.
Proof.
  intros Hnd [Hs Hn] Hop. constructor.
  - rewrite facts_put by done. by apply settled_insert.
  - apply Forall_app in Hn as [_ Hn]. apply Forall_cons in Hn as [_ Hn].
    destruct (split_others (mid ++ s :: post) mid s post Hnd eq_refl) as [_ Hne].
    apply (Forall_impl (λ x, op_of m (Ledger.Step_ID x) PhaseForward = op_zero ∧
      Ledger.Step_ID x ≠ Ledger.Step_ID s)); [by apply Forall_and|]. intros x [Hx Hxs].
    by rewrite op_of_put, bool_decide_eq_false_2 by congruence.
Qed.

(** ** One step *)

Section progress.
Context {S H : Type} `{Store S} (ok : S → Prop) `{!StoreLaws S ok}.
Context (cfg : Config (S:=S) (H:=H)).

(** The store takes every transition of a run that has no outcome. *)
Context (store_accepts : ∀ s id t r, ok s → GetRun s id = Ok r → Terminal r = false →
  (ApplyTransition s id t).2 = Ok tt).

Context (p : PipelineID) (d : Binding.boundDef (H:=H)) (Hd : definition cfg p = Some d).
Context (no_run_class : Binding.C_RunClass (Binding.bd_cfg d) = "").
Context (steps_bound : ∀ s, s ∈ Binding.bd_topo d → ∃ bs,
  Binding.bd_steps d !! Ledger.Step_ID s = Some bs ∧
  Binding.S_ConcurrencyClass (Binding.bs_Step bs) = "").

(** Every step's handler succeeds and does nothing else. *)
Context (handlers_succeed : ∀ id bs inv w, Binding.bd_steps d !! id = Some bs →
  ∃ st b, e_call cfg (Binding.bs_forward bs) inv w = (w, mkOutcome None st None None) ∧
    state_bytes (Binding.S_HasState (Binding.bs_Step bs)) st = Ok b).

(** The world lets run [id] proceed. *)
Record ready (id : RunID) (w : World S) : Prop := {
  re_running : w_stopped w = false;
  re_open : w_draining w = false;
  re_clean : id ∉ w_dirty w;
  re_wanted : w_pendingPreempt w !! id = None;
}.
(** The worker holds the stored record of the run, which goes forward undisturbed. *)
Record forward (w : World S) (rec : RunRecord) : Prop := {
  fw_ok : ok (w_store w);
  fw_stored : GetRun (w_store w) (Run_RunID rec) = Ok rec;
  fw_pipeline : Run_PipelineID rec = p;
  fw_phase : Run_Phase rec = PhaseForward;
  fw_open : Terminal rec = false;
  fw_cancel : Run_Cancel rec = None;
  fw_await : Run_Awaiting rec = None;
  fw_next : IsZero (Run_NextAttemptAt rec) = true;
}.

Lemma apply_accepted w rec r t :
  ok (w_store w) → GetRun (w_store w) (Run_RunID rec) = Ok r → Terminal r = false →
  committed r rec t → Run_Cancel r = Run_Cancel rec →
  ∃ s', apply rec t w = (set_store s' w, (set_UpdatedAt (w_now w) rec, true)) ∧ ok s' ∧
    GetRun s' (Run_RunID rec) = Ok (set_UpdatedAt (w_now w) rec).
Proof.
  intros Hok Hg Ht Hcom Hc. unfold apply, bind, get, modify, mret, M_ret.
  cbn [Run_RunID set_UpdatedAt].
  pose proof (store_accepts (w_store w) (Run_RunID rec)
    (full_transition (set_UpdatedAt (w_now w) rec) (w_now w) t) r Hok Hg Ht) as Hacc.
  destruct (ApplyTransition _ _ _) as [s' res] eqn:Happ. simpl in Hacc. subst res. exists s'.
  split; [done|]. split; [by eapply law_apply_ok|].
  destruct (law_apply _ _ _ _ _ Hok Hg Happ) as [_ ->]. f_equal.
  etrans; [exact (Hcom (w_now w))|]. rewrite Hc. by destruct rec.
Qed.

(** What an attempt's success leaves. *)
Record stepped (w w' : World S) (rec rec' : RunRecord) (id : StepID) : Prop := {
  sp_forward : forward w' rec';
  sp_ready : ready (Run_RunID rec) w';
  sp_run : Run_RunID rec' = Run_RunID rec;
  sp_failure : Run_Failure rec' = Run_Failure rec;
  sp_steps : ∃ op, Run_Steps rec' = put id PhaseForward op (Run_Steps rec) ∧
    Op_Status op = Driver.OpSucceeded;
  sp_calls : calls (w_trace w') = calls (w_trace w) ++
    [(id, (Op_Attempts (op_of (Run_Steps rec) id PhaseForward) +u64 1)%go)];
}.

(** The call of a handler that succeeds, in an undisturbed world. *)
Lemma invoke_succeeds w bs inv :
  Binding.bd_steps d !! inv_stepID inv = Some bs → inv_phase inv = PhaseForward →
  ready (inv_runID inv) w →
  ∃ st b w', invokeForward cfg (Binding.bs_forward bs) inv w =
      (w', mkInvoked st false false None None None) ∧
    state_bytes (Binding.S_HasState (Binding.bs_Step bs)) st = Ok b ∧
    same_store w w' ∧ ready (inv_runID inv) w' ∧ w_now w' = w_now w ∧
    calls (w_trace w') = calls (w_trace w) ++ [(inv_stepID inv, inv_attempt inv)].
Proof.
  intros Hbs Hph [Hs Ho Hc Hw]. unfold invokeForward, call_handler, attemptContext, attemptDone.
  unfold bind, emit, modify, get, mret, M_ret. rewrite Hs, Hw.
  match goal with |- context [e_call cfg _ _ ?x] => set (w1 := x) end.
  destruct (handlers_succeed (inv_stepID inv) bs inv w1 Hbs) as (st & b & Hcall & Hb).
  rewrite Hcall. exists st, b. eexists. split.
  - cbn. rewrite lookup_insert_eq. reflexivity.
  - split; [done|]. split; [done|]. split; [|split].
    + constructor; [done|done|done|]. cbn. apply lookup_delete_eq.
    + done.
    + unfold calls. cbn. by rewrite omap_app.
Qed.

(** The fields of a record that an attempt starts and succeeds with. *)
Definition undisturbed (rec rec' : RunRecord) : Prop :=
  Run_RunID rec' = Run_RunID rec ∧ Run_PipelineID rec' = Run_PipelineID rec ∧
  Run_Phase rec' = Run_Phase rec ∧ Terminal rec' = Terminal rec ∧
  Run_Cancel rec' = Run_Cancel rec ∧ Run_Awaiting rec' = Run_Awaiting rec ∧
  Run_Failure rec' = Run_Failure rec ∧
  (IsZero (Run_NextAttemptAt rec) = true → IsZero (Run_NextAttemptAt rec') = true).

Lemma undisturbed_forward w w' rec rec' :
  undisturbed rec rec' → forward w rec → ok (w_store w') →
  GetRun (w_store w') (Run_RunID rec) = Ok rec' → forward w' rec'.
Proof.
  intros (Hid & Hp & Hph & Ht & Hc & Ha & _ & Hn) [Hok Hg Hfp Hfph Hft Hfc Hfa Hfn] Hok' Hg'.
  constructor; [done|by rewrite Hid|congruence..|by apply Hn].
Qed.

Lemma reserved_undisturbed rec stepID t now :
  let rec' := set_UpdatedAt t (reserved rec stepID PhaseForward now) in
  undisturbed rec rec' ∧
  Run_Steps rec' = put stepID PhaseForward (reserve_op (op_of (Run_Steps rec) stepID PhaseForward))
    (Run_Steps rec).
Proof. unfold undisturbed, reserved, markStarted. by destruct (IsZero (Run_StartedAt _)). Qed.
Lemma succeeded_undisturbed rec stepID b t :
  let rec' := set_UpdatedAt t (succeeded rec stepID PhaseForward b) in
  undisturbed rec rec' ∧
  ∃ order, Run_Steps rec' = put stepID PhaseForward
    (succeed_op (op_of (Run_Steps rec) stepID PhaseForward) b order) (Run_Steps rec).
Proof. split; [done|]. by exists (NextOrder rec). Qed.

(** Reserving the attempt. *)
Lemma reserve_accepted w rec stepID :
  stepID ≠ "" → forward w rec →
  let rec1 := reserved rec stepID PhaseForward (w_now w) in
  ∃ s' rec2, apply rec1 (mkTransition (activeCursor rec1 stepID
      (attempts_of rec1 stepID PhaseForward)) [] None None None) w = (set_store s' w, (rec2, true)) ∧
    undisturbed rec rec2 ∧ forward (set_store s' w) rec2 ∧
    Run_Steps rec2 = put stepID PhaseForward
      (reserve_op (op_of (Run_Steps rec) stepID PhaseForward)) (Run_Steps rec) ∧
    attempts_of rec1 stepID PhaseForward = attempts_of rec2 stepID PhaseForward.
Proof.
  intros Hne Hf rec1. pose proof Hf as [Hok Hg Hp Hph Ht Hc Ha Hn].
  pose proof (reserved_committed rec rec stepID (w_now w) Hne (behind_cancel (Run_Cancel rec) rec))
    as Hcom. rewrite Hph in Hcom.
  destruct (reserved_undisturbed rec stepID (w_now w) (w_now w)) as [Hu Hs]. fold rec1 in Hu, Hs.
  destruct (apply_accepted w rec1 rec _ Hok ltac:(by unfold rec1; rewrite reserved_RunID) Ht Hcom)
    as (s' & Happ & Hok' & Hg').
  { symmetry. apply Hu. }
  eexists s', _. split; [exact Happ|]. split; [done|]. split; [|done].
  apply (undisturbed_forward w _ rec); [done|done|done|].
  rewrite <-Hg'. f_equal. symmetry. apply Hu.
Qed.

(** Committing its success. *)
Lemma success_accepted w rec stepID b ev res :
  forward w rec → is_Some (Run_Steps rec !! stepID) → call_of ev = None →
  let rec1 := succeeded rec stepID PhaseForward b in
  ∃ w' rec2, resolve rec1 (mkTransition (idleCursor rec1) [op_write rec1 stepID PhaseForward]
      None None None) (emit ev) res w = (w', (rec2, res)) ∧
    undisturbed rec rec2 ∧ forward w' rec2 ∧ w_dirty w' = w_dirty w ∧
    w_stopped w' = w_stopped w ∧ w_draining w' = w_draining w ∧
    w_pendingPreempt w' = w_pendingPreempt w ∧
    calls (w_trace w') = calls (w_trace w) ∧
    ∃ order, Run_Steps rec2 = put stepID PhaseForward
      (succeed_op (op_of (Run_Steps rec) stepID PhaseForward) b order) (Run_Steps rec).
Proof.
  intros Hf Hin Hev rec1. pose proof Hf as [Hok Hg Hp Hph Ht Hc Ha Hn].
  destruct (succeeded_undisturbed rec stepID b (w_now w)) as [Hu [order Hs]]. fold rec1 in Hu, Hs.
  assert (committed rec rec1 (mkTransition (idleCursor rec1) [op_write rec1 stepID PhaseForward]
    None None None)) as Hcom.
  { eapply (resolved_committed rec rec rec1); [by apply (behind_cancel (Run_Cancel rec) rec)|done|exact Hs|done]. }
  destruct (apply_accepted w rec1 rec _ Hok Hg Ht Hcom eq_refl) as (s' & Happ & Hok' & Hg').
  unfold resolve, bind. rewrite Happ. cbn [negb]. unfold emit, modify, mret, M_ret.
  eexists _, _. split; [reflexivity|]. split; [done|].
  split; [by apply (undisturbed_forward w _ rec)|]. do 4 (split; [done|]). split.
  - unfold calls. cbn. rewrite omap_app. simpl. by rewrite Hev, app_nil_r.
  - by exists order.
Qed.

Lemma undisturbed_trans r1 r2 r3 : undisturbed r1 r2 → undisturbed r2 r3 → undisturbed r1 r3.
Proof.
  intros (H1 & H2 & H3 & H4 & H5 & H6 & H7 & H8) (J1 & J2 & J3 & J4 & J5 & J6 & J7 & J8).
  unfold undisturbed. split_and!; try congruence. auto.
Qed.

(** What [forward_result] does with a success. *)
Lemma forward_result_success rec bs stepID st b :
  state_bytes (Binding.S_HasState (Binding.bs_Step bs)) st = Ok b →
  forward_result cfg rec bs stepID (mkInvoked st false false None None None) =
    let rec1 := succeeded rec stepID PhaseForward b in
    resolve rec1 (mkTransition (idleCursor rec1) [op_write rec1 stepID PhaseForward] None None None)
      (emit (EvAttempt (Run_RunID rec1) stepID PhaseForward (attempts_of rec stepID PhaseForward)
               AttemptSucceeded 0)) reconcile.
Proof. intros Hb. unfold forward_result. cbn. by rewrite Hb. Qed.

Lemma forward_same w w' rec :
  same_store w w' → forward w rec → forward w' rec.
Proof. intros [Hs _] [Hok Hg Hp Hph Ht Hc Ha Hn]. constructor; by rewrite ?Hs. Qed.

Lemma runForward_succeeds w rec bs stepID :
  stepID ≠ "" → Binding.bd_steps d !! stepID = Some bs → forward w rec →
  ready (Run_RunID rec) w →
  ∃ w' rec', runForward cfg rec bs stepID w = (w', (rec', reconcile)) ∧
    stepped w w' rec rec' stepID.
Proof.
  intros Hne Hbs Hf Hr.
  destruct (reserve_accepted w rec stepID Hne Hf) as (s1 & rec1 & Ha1 & Hu1 & Hf1 & Hs1 & Hn1).
  assert (ready (Run_RunID rec) (set_store s1 w)) as Hr1 by (by destruct Hr).
  destruct (invoke_succeeds (set_store s1 w) bs
    (invocation rec1 stepID (attempts_of rec1 stepID PhaseForward) PhaseForward None))
    as (st & b & w2 & Hinv & Hb & Hst2 & Hr2 & Hnow2 & Hc2); [done|done| |].
  { cbn. replace (Run_RunID rec1) with (Run_RunID rec); [done|symmetry; apply Hu1]. }
  assert (forward w2 rec1) as Hf2 by (by eapply forward_same).
  destruct (success_accepted w2 rec1 stepID b
    (EvAttempt (Run_RunID rec1) stepID PhaseForward (attempts_of rec1 stepID PhaseForward)
       AttemptSucceeded 0) reconcile)
    as (w3 & rec3 & Hres & Hu3 & Hf3 & Hd3 & Hst3 & Hdr3 & Hp3 & Hc3 & order & Hs3);
    [done|rewrite Hs1; unfold put; rewrite lookup_insert_eq; by eexists|done|].
  exists w3, rec3. split.
  - unfold runForward. unfold bind at 1, now. cbn zeta. unfold bind at 1. rewrite Ha1. cbn [negb].
    rewrite Hn1. unfold bind. rewrite Hinv, (forward_result_success _ _ _ _ _ Hb). exact Hres.
  - assert (undisturbed rec rec3) as Hu by (by eapply undisturbed_trans).
    constructor; [done| |apply Hu|apply Hu| |].
    + destruct Hr2 as [Hrun Hop Hcl Hpe]. cbn in Hcl, Hpe.
      destruct Hu1 as [Hid1 _]. rewrite Hid1 in *.
      constructor; [by rewrite Hst3|by rewrite Hdr3|by rewrite Hd3|by rewrite Hp3].
    + eexists. rewrite Hs3, Hs1, put_put. split; [reflexivity|done].
    + rewrite Hc3, Hc2. f_equal. cbn. f_equal. f_equal. unfold attempts_of.
      rewrite op_Step, Hs1, op_of_put, bool_decide_eq_true_2 by done. done.
Qed.

Lemma acquire_none (w : World S) rec : ∃ w', acquireClass rec "" w = (w', (true, false, 0%Z)) ∧ calm w w' ∧
  w_pendingPreempt w' = w_pendingPreempt w.
Proof.
  pose proof (calmly_acquireClass (S:=S) rec "" w) as Hcalm. unfold acquireClass in *.
  unfold bind, get, modify in *. unfold TokenPool.Acquire in *.
  rewrite bool_decide_eq_true_2 in * by done.
  destruct (TokenPool.unpark (w_pool w) (Run_RunID rec) false) as [pool kicks]. cbn [g_kicks] in *.
  unfold mret, M_ret in *. cbn in *.
  assert (∀ w0 : World S, w_pendingPreempt (for_each kicks (λ id, dispatch id 0) w0).1 =
    w_pendingPreempt w0) as Hkicks.
  { clear. induction kicks as [|k ks IH]; intros w0; [done|]. cbn. unfold bind, dispatch, emit, modify.
    etrans; [apply IH|done]. }
  pose proof (Hkicks (set_pool pool w)) as Hk.
  destruct (for_each kicks _ (set_pool pool w)) as [w1 []]. by exists w1.
Qed.

Lemma ready_calm id (w w' : World S) :
  calm w w' → w_pendingPreempt w' = w_pendingPreempt w → ready id w → ready id w'.
Proof. intros ([Hs Hdi] & Hst & Hdr & _) Hp [Ha Hb Hc He]. constructor; congruence. Qed.

Lemma run_in_class_free rec stepID bs run (w w1 w2 : World S) rec2 :
  Binding.bd_steps d !! stepID = Some bs →
  Binding.S_ConcurrencyClass (Binding.bs_Step bs) = "" →
  acquireClass rec "" w = (w1, (true, false, 0%Z)) → run bs w1 = (w2, (rec2, reconcile)) →
  run_in_class rec d stepID run w = (w2, Continue rec2).
Proof.
  intros Hbs Hclass Hacq Hrun. unfold run_in_class. rewrite Hbs, Hclass. unfold bind. rewrite Hacq.
  cbn. by rewrite Hrun.
Qed.

Lemma run_forward_step_open rec stepID (w : World S) :
  w_draining w = false → Run_Cancel rec = None → Run_Awaiting rec = None →
  IsZero (Run_NextAttemptAt rec) = true →
  run_forward_step cfg rec d stepID w =
    run_in_class rec d stepID (λ bs, runForward cfg rec bs stepID) w.
Proof using no_run_class.
  intros Hop Hc Ha Hn. unfold run_forward_step, awaitGate, retryGate, acquireRunClass.
  unfold bind at 1, get. rewrite Hop, Hc, Ha. unfold bind at 1, mret, M_ret at 1.
  unfold bind at 1, now. rewrite Hn, no_run_class. reflexivity.
Qed.

(** The iteration of the worker that runs a step. *)
Lemma step_succeeds w rec stepID :
  stepID ≠ "" → stepID ∈ Ledger.Step_ID <$> Binding.bd_topo d → forward w rec →
  ready (Run_RunID rec) w →
  ∃ w' rec', run_forward_step cfg rec d stepID w = (w', Continue rec') ∧
    stepped w w' rec rec' stepID.
Proof.
  intros Hne Hin Hf Hr. apply list_elem_of_fmap in Hin as (s & -> & Hs).
  destruct (steps_bound s Hs) as (bs & Hbs & Hclass). pose proof Hf as [_ _ _ _ _ Hc Ha Hn].
  destruct (acquire_none w rec) as (w1 & Hacq & Hcalm & Hpe).
  assert (forward w1 rec) as Hf1 by (eapply forward_same; [|done]; apply Hcalm).
  destruct (runForward_succeeds w1 rec bs (Ledger.Step_ID s) Hne Hbs Hf1) as (w2 & rec2 & Hrun & Hst);
    [by eapply ready_calm|].
  exists w2, rec2. split.
  - rewrite run_forward_step_open by (done || apply Hr). by eapply run_in_class_free.
  - destruct Hst as [H1 H2 H3 H4 H5 H6]. constructor; [done..|]. rewrite H6. f_equal. apply Hcalm.
Qed.

(** *** Completion *)

Context (reducer_succeeds : Binding.C_Reduce (Binding.bd_cfg d) = true → ∀ v,
  ∃ b, e_reduce cfg p v = mkReduceOutcome None (MsgBytes b) None).

(** The run ended in success. *)
Definition succeeded_run (id : RunID) (w : World S) : Prop :=
  ∃ r, GetRun (w_store w) id = Ok r ∧ Run_Phase r = PhaseDone ∧
    Run_Outcome r = Some OutcomeSuccess ∧ Run_Failure r = None.

Lemma finish_succeeds (w : World S) rec rec1 :
  ok (w_store w) → GetRun (w_store w) (Run_RunID rec) = Ok rec → Terminal rec = false →
  Run_Failure rec = None → Run_RunID rec1 = Run_RunID rec → Run_Steps rec1 = Run_Steps rec →
  ∃ w' rec2, finish rec1 OutcomeSuccess w = (w', (rec2, true)) ∧ Terminal rec2 = true ∧
    Run_RunID rec2 = Run_RunID rec ∧ succeeded_run (Run_RunID rec) w' ∧
    w_dirty w' = w_dirty w ∧ w_stopped w' = w_stopped w ∧
    calls (w_trace w') = calls (w_trace w).
Proof.
  intros Hok Hg Ht Hf Hid Hst. unfold finish, bind at 1, apply, bind at 1, get, modify, mret, M_ret.
  set (rec2 := set_Phase PhaseDone (set_Outcome (Some OutcomeSuccess) rec1)).
  cbn [Run_RunID set_UpdatedAt]. replace (Run_RunID rec2) with (Run_RunID rec) by done.
  pose proof (store_accepts (w_store w) (Run_RunID rec) (full_transition (set_UpdatedAt (w_now w) rec2)
    (w_now w) (mkTransition (idleCursor rec2) [] None (Run_Output rec2) (Run_Outcome rec2))) rec Hok Hg Ht)
    as Hacc.
  destruct (ApplyTransition _ _ _) as [s' res] eqn:Happ. simpl in Hacc. subst res.
  destruct (law_apply _ _ _ _ _ Hok Hg Happ) as [_ Hg'].
  pose proof (record_after_finish rec rec rec2 (w_now w) OutcomeSuccess (Run_Output rec2)
    (behind_cancel (Run_Cancel rec) rec) eq_refl Hst) as Hv. cbn zeta in Hv.
  unfold bind at 1. cbn [fst snd negb].
  set (w1 := set_store s' w) in *. set (rec3 := set_UpdatedAt (w_now w) rec2).
  assert (succeeded_run (Run_RunID rec) w1) as Hsucc.
  { eexists. split; [exact Hg'|].
    pose proof (f_equal m_phase Hv) as H1. pose proof (f_equal m_outcome Hv) as H2.
    pose proof (f_equal m_failure Hv) as H3. simpl in H1, H2, H3. by rewrite Hf in H3. }
  pose proof (keeps_completeRun rec3 w1) as Hk. pose proof (calmly_completeRun rec3 w1) as Hc.
  unfold bind. destruct (completeRun rec3 w1) as [w2 []]. simpl in Hk, Hc.
  destruct Hc as ([Hs Hdi] & Hsto & _ & Htr).
  exists w2, rec3. split; [reflexivity|]. split; [reflexivity|]. split; [exact Hid|].
  split; [|split; [exact Hdi|split; [exact Hsto|exact Htr]]].
  destruct Hsucc as (r & Hr & ?). exists r. by rewrite Hs.
Qed.

Lemma completes (w : World S) rec :
  forward w rec → Run_Failure rec = None →
  ∃ w' rec', reduceAndComplete cfg rec d w = (w', (rec', true)) ∧ Terminal rec' = true ∧
    Run_RunID rec' = Run_RunID rec ∧ succeeded_run (Run_RunID rec) w' ∧
    w_dirty w' = w_dirty w ∧ w_stopped w' = w_stopped w ∧
    calls (w_trace w') = calls (w_trace w).
Proof.
  intros [Hok Hg Hp Hph Ht Hc Ha Hn] Hf. unfold reduceAndComplete.
  destruct (Binding.C_Reduce _) eqn:Hr; [|by apply finish_succeeds].
  destruct (reducer_succeeds eq_refl (mkView (Run_Input rec) (committedStates rec) None ∅)) as [b Hb].
  rewrite Hp, Hb. unfold bind, reduceInto. cbn.
  by apply (finish_succeeds w rec (set_Output (Some b) rec)).
Qed.

(** *** The worker *)

Context (named : well_named (Binding.bd_topo d)).

Lemma take_clean id (w : World S) :
  id ∉ w_dirty w → (Signals.DirtySet.Take (w_dirty w) id).2 = false ∧
    id ∉ (Signals.DirtySet.Take (w_dirty w) id).1.
Proof.
  intros Hc. unfold Signals.DirtySet.Take. simpl. split; [by apply bool_decide_eq_false_2|].
  set_solver.
Qed.

(** An iteration of the worker on its own record. *)
Lemma iterate fuel id rec (w : World S) :
  w_stopped w = false → id ∉ w_dirty w →
  processRun_in cfg (Datatypes.S fuel) id (Some rec) w =
    bind (advance cfg rec) (λ n, match n with
      | Return delay again => mret (Some (delay, again))
      | Continue rec => processRun_in cfg fuel id (Some rec)
      end) (set_dirty (Signals.DirtySet.Take (w_dirty w) id).1 w).
Proof.
  intros Hs Hc. simpl. unfold bind at 1, get. rewrite Hs. unfold bind at 1, modify.
  by rewrite bool_decide_eq_false_2.
Qed.

Lemma iterate_ready id rec (w : World S) :
  forward w rec → ready id w →
  let w1 := set_dirty (Signals.DirtySet.Take (w_dirty w) id).1 w in forward w1 rec ∧ ready id w1.
Proof.
  intros [Hok Hg Hp Hph Ht Hc Ha Hn] [Hs Ho Hcl Hw]. split; [done|].
  constructor; [done|done| |done]. apply (take_clean id w Hcl).
Qed.

(** The last iteration, on the ended run. *)
Lemma terminal_iteration fuel id rec (w : World S) :
  w_stopped w = false → id ∉ w_dirty w → Terminal rec = true → succeeded_run id w →
  ∃ w', processRun_in cfg (Datatypes.S fuel) id (Some rec) w = (w', Some (0%Z, false)) ∧
    succeeded_run id w' ∧ calls (w_trace w') = calls (w_trace w).
Proof.
  intros Hs Hc Ht Hsucc. rewrite iterate by done. unfold advance. rewrite Ht.
  set (w1 := set_dirty _ w).
  assert (calmly (S:=S) (emit (EvNotify (Run_RunID rec));; awaitTargetDone (Run_RunID rec))) as Hcalm.
  { unfold awaitTargetDone. calmly. }
  specialize (Hcalm w1). unfold bind, mret, M_ret in *. simpl in *.
  destruct (awaitTargetDone (Run_RunID rec) _) as [w2 []]. simpl in Hcalm.
  destruct Hcalm as ([Hst _] & _ & _ & Htr). exists w2. split; [done|]. split; [|done].
  destruct Hsucc as (r & Hr & ?). exists r. by rewrite Hst.
Qed.

Lemma advance_forward rec (w : World S) :
  forward w rec →
  advance cfg rec w =
    (let dec := NextForward (Binding.bd_topo d) (factsOf rec) in
     match Decision_Kind dec with
     | KindRunForward => run_forward_step cfg rec d (Decision_Step dec)
     | KindForwardComplete =>
       bind (reduceAndComplete cfg rec d)
         (λ '(rec, ok), mret (if ok then Continue rec else Return 0 false))
     | _ => advance cfg rec
     end) w.
Proof.
  intros [_ _ Hp Hph Ht _ _ _]. unfold advance. rewrite Ht, Hp, Hd, Hph. cbn zeta.
  by destruct (Decision_Kind _).
Qed.

Lemma drives n : ∀ pre post rec (w : World S) k,
  length (live post) = n → Binding.bd_topo d = pre ++ post → NoDup (ids post) →
  at_frontier (factsOf rec) pre → clear (Run_Steps rec) post →
  forward w rec → Run_Failure rec = None → ready (Run_RunID rec) w →
  ∃ w', processRun_in cfg (n + Datatypes.S (Datatypes.S k)) (Run_RunID rec) (Some rec) w =
      (w', Some (0%Z, false)) ∧
    succeeded_run (Run_RunID rec) w' ∧
    calls (w_trace w') = calls (w_trace w) ++ ((λ s, (Ledger.Step_ID s, 1%Z)) <$> live post).
Proof.
  induction n as [|n IH]; intros pre post rec w k Hlen Htopo Hnd Hfr Hcl Hf Hfail Hr;
    pose proof (clear_none _ _ Hcl) as Hnone;
    assert (NextForward (Binding.bd_topo d) (factsOf rec) = forward_rest (factsOf rec) post) as Hdec
      by (rewrite Htopo; apply NextForward_split; [apply Hcl|done|];
          eapply Forall_impl; [exact Hnone|]; intros x Hx Hsx; unfold Ledger.succeeded in Hsx;
          change (factsOf rec) with (facts (Run_Steps rec)) in Hsx; congruence);
    destruct (iterate_ready (Run_RunID rec) rec w Hf Hr) as [Hf1 Hr1];
    destruct (forward_rest_live (factsOf rec) post Hnone) as [[Hl Hrest]|(mid & s & post' & -> & Hl & Hrest)];
    rewrite Hl in Hlen; try discriminate Hlen; cbn [Nat.add];
    rewrite iterate by apply Hr; set (w1 := set_dirty _ w) in *;
    unfold bind at 1; rewrite advance_forward by done; rewrite Hdec, Hrest; cbn zeta;
    cbn [Decision_Kind Decision_Step run_forward].
  - destruct (completes w1 rec Hf1 Hfail) as (w2 & rec2 & Hc & Ht2 & Hid2 & Hs2 & Hd2 & Hst2 & Htr2).
    unfold bind at 1. rewrite Hc. unfold mret at 1, M_ret at 1.
    destruct (terminal_iteration k (Run_RunID rec) rec2 w2) as (w3 & -> & Hs3 & Htr3);
      [by rewrite Hst2; apply Hr1|by rewrite Hd2; apply Hr1|done|done|].
    exists w3. split; [done|]. split; [done|]. rewrite Htr3, Htr2, Hl. simpl. by rewrite app_nil_r.
  - assert (Ledger.Step_ID s ∈ ids (Binding.bd_topo d)) as Hin.
    { rewrite Htopo. apply list_elem_of_fmap_2. set_solver. }
    destruct (step_succeeds w1 rec (Ledger.Step_ID s)) as (w2 & rec2 & Hrun & Hst); [|done|done|done|].
    { intros He. apply named. by rewrite <-He. }
    rewrite Hrun. destruct Hst as [Hf2 Hr2 Hid2 Hfl2 (op & Hs2 & Hop) Hc2].
    destruct (IH (pre ++ mid ++ [s]) post' rec2 w2 k) as (w3 & Hp3 & Hs3 & Hc3).
    + by injection Hlen.
    + by rewrite Htopo, <-!app_assoc.
    + rewrite ids_app in Hnd. apply NoDup_app in Hnd as (_ & _ & Hnd). by apply NoDup_cons in Hnd as [_ ?].
    + right. exists (pre ++ mid), s. split; [by rewrite <-app_assoc|].
      apply succeeded_facts. rewrite Hs2, op_of_put, bool_decide_eq_true_2 by done. done.
    + rewrite Hs2. by eapply clear_put.
    + done.
    + by rewrite Hfl2.
    + by rewrite Hid2.
    + rewrite Hid2 in *. exists w3. split; [done|]. split; [done|].
      destruct Hcl as [_ Hz]. apply Forall_app in Hz as [_ Hz]. apply Forall_cons in Hz as [Hz _].
      by rewrite Hc3, Hc2, Hl, Hz, <-app_assoc.
Qed.

(** A run as Schedule stores it, without a cancel request. *)
Definition new_run (id : RunID) (r : RunRecord) : Prop :=
  Run_RunID r = id ∧ Run_PipelineID r = p ∧ Run_Phase r = PhaseForward ∧ Run_Steps r = ∅ ∧
  Run_Outcome r = None ∧ Run_Failure r = None ∧ Run_Cancel r = None ∧ Run_Awaiting r = None ∧
  IsZero (Run_NextAttemptAt r) = true.

Lemma clear_empty topo : clear ∅ topo.
Proof.
  constructor; [split; intros id; unfold facts; cbn [Facts_Forward]; by rewrite lookup_fmap, lookup_empty|].
  apply Forall_forall. intros x _. apply op_of_empty.
Qed.
End progress.

(** ** The property *)

(** A deployment of pipeline [p] that succeeds: bound, without classes, its forward
    handlers return a state and do nothing else, its reducer returns an output. *)
Record succeeding {S H} (cfg : Config (S:=S) (H:=H)) (p : PipelineID)
    (d : Binding.boundDef (H:=H)) : Prop := {
  su_definition : definition cfg p = Some d;
  su_named : well_named (Binding.bd_topo d);
  su_ids : NoDup (ids (Binding.bd_topo d));
  su_run_class : Binding.C_RunClass (Binding.bd_cfg d) = "";
  su_steps : ∀ s, s ∈ Binding.bd_topo d → ∃ bs,
    Binding.bd_steps d !! Ledger.Step_ID s = Some bs ∧
    Binding.S_ConcurrencyClass (Binding.bs_Step bs) = "";
  su_handlers : ∀ id bs inv w, Binding.bd_steps d !! id = Some bs →
    ∃ st b, e_call cfg (Binding.bs_forward bs) inv w = (w, mkOutcome None st None None) ∧
      state_bytes (Binding.S_HasState (Binding.bs_Step bs)) st = Ok b;
  su_reducer : Binding.C_Reduce (Binding.bd_cfg d) = true → ∀ v,
    ∃ b, e_reduce cfg p v = mkReduceOutcome None (MsgBytes b) None;
}.

(** C9: a worker drives a new run of a pipeline whose handlers succeed to its end.  The
    pipeline has no run class and its steps no concurrency class, its forward handlers return a
    state and do nothing else and its reducer, if any, returns an output ([succeeding]);
    the run has no step begun and no cancel, await or delay ([new_run]); the store
    accepts every transition of a live run; and the engine is neither draining nor
    stopped, with nothing known against the run ([ready]).  Then within one iteration per
    step that is not retired, one to complete and one to see the run ended, every such
    step's handler was called exactly once, in the order of the definition, with attempt
    1, no other handler was called, and the run is stored as succeeded. *)
Theorem succeeding_run_completes {S H} `{Store S} (ok : S → Prop) `{!StoreLaws S ok}
    (cfg : Config (S:=S) (H:=H)) p d id r fuel (w : World S) :
  (∀ s id t r, ok s → GetRun s id = Ok r → Terminal r = false →
     (ApplyTransition s id t).2 = Ok tt) →
  succeeding cfg p d → ok (w_store w) → ready id w →
  GetRun (w_store w) id = Ok r → new_run p id r →
  length (live (Binding.bd_topo d)) + 2 <= fuel →
  ∃ w' r', processRun cfg fuel id w = (w', Some (0%Z, false)) ∧
    GetRun (w_store w') id = Ok r' ∧ Run_Phase r' = PhaseDone ∧
    Run_Outcome r' = Some OutcomeSuccess ∧ Run_Failure r' = None ∧
    calls (w_trace w') =
      calls (w_trace w) ++ ((λ s, (Ledger.Step_ID s, 1%Z)) <$> live (Binding.bd_topo d)).
Proof.
  intros Hacc [Hd Hnamed Hids Hrc Hsteps Hh Hred] Hok Hr Hg
    (Hid & Hp & Hph & Hst & Ho & Hf & Hc & Ha & Hn) Hfuel.
  assert (forward ok p w r) as Hfw.
  { constructor; try done; [by rewrite Hid|]. by apply Terminal_false. }
  rewrite <-Hid in Hr. assert (∃ k, fuel = length (live (Binding.bd_topo d)) +
    Datatypes.S (Datatypes.S k)) as [k ->].
  { exists (fuel - (length (live (Binding.bd_topo d)) + 2)). lia. }
  destruct (drives ok cfg Hacc p d Hd Hrc Hsteps Hh Hred Hnamed
      (length (live (Binding.bd_topo d))) [] (Binding.bd_topo d) r w k)
    as (w' & Hrun & (r' & Hr' & Hdone & Hsucc & Hnf) & Hcalls); try done.
  - by left.
  - rewrite Hst. apply clear_empty.
  - rewrite Hid in *. exists w', r'. split; [|done]. rewrite <-Hrun.
    unfold processRun. rewrite Nat.add_comm. simpl. unfold bind, get, modify.
    destruct Hr as [-> _ Hcl _]. rewrite Hg. by rewrite bool_decide_eq_false_2.
Qed.

(** ** A run of two steps *)

Lemma mem_accepts (s : MemStore) id t r :
  GetRun s id = Ok r → Terminal r = false → (ApplyTransition s id t).2 = Ok tt.
Proof.
  simpl. unfold mem_GetRun, mem_ApplyTransition. destruct (mem_runs s !! id) as [x|]; [|done].
  intros [= ->] ->. case_bool_decide; simpl; by destruct (T_Outcome t).
Qed.

Definition ex_config := sample_config "p" "" (Succeeds "s") (Succeeds "").
Definition ex_succeeding : Engine.Config (S:=MemStore) (H:=script) := sample ex_config.
Definition ex_bound : option (Binding.boundDef (H:=script)) := definition ex_succeeding "p".
Definition ex_new : W := sample_world [sample_run "r" "p" "x"].

Definition succeeds (h : script) : bool := match h with Succeeds _ => true | _ => false end.
Definition all_succeed (d : Binding.boundDef (H:=script)) : Prop :=
  map_Forall (λ _ bs, succeeds (Binding.bs_forward bs) = true) (Binding.bd_steps d).
#[export] Instance all_succeed_dec d : base.Decision (all_succeed d).
Proof. unfold all_succeed. apply _. Defined.

Lemma ex_bound_succeeds d : ex_bound = Some d → succeeding ex_succeeding "p" d.
Proof.
  intros Hd. assert (all_succeed d) as Hall.
  { assert (match ex_bound with Some d => bool_decide (all_succeed d) | None => true end = true) as Hb
      by (vm_compute; reflexivity). rewrite Hd in Hb. by apply bool_decide_eq_true_1 in Hb. }
  pose proof Hd as Hb. vm_compute in Hb. injection Hb as Hb. constructor.
  - exact Hd.
  - rewrite <-Hb. unfold well_named, ids. simpl. set_solver.
  - rewrite <-Hb. simpl. repeat constructor; set_solver.
  - by rewrite <-Hb.
  - intros s Hs. rewrite <-Hb in Hs |- *. simpl in Hs. rewrite !elem_of_cons in Hs.
    destruct Hs as [->|[->|Hs%elem_of_nil]]; [eexists; by vm_compute|eexists; by vm_compute|done].
  - intros id bs inv w Hbs. specialize (Hall id bs Hbs). simpl in Hall.
    destruct (Binding.bs_forward bs) as [st| | | | |]; try discriminate Hall. exists (MsgBytes st).
    unfold state_bytes. destruct (Binding.S_HasState _); by eexists.
  - by rewrite <-Hb.
Qed.

Lemma succeeding_run_completes_witness :
  ∃ w', processRun ex_succeeding 4 "r" ex_new = (w', Some (0%Z, false)) ∧
    calls (w_trace w') = [("a", 1%Z); ("b", 1%Z)].
Proof.
  destruct ex_bound as [d|] eqn:Hd; [|vm_compute in Hd; discriminate Hd].
  pose proof Hd as Hb. vm_compute in Hb. injection Hb as Hb.
  destruct (succeeding_run_completes mem_ok ex_succeeding "p" d "r" (sample_run "r" "p" "x") 4 ex_new)
    as (w' & r' & Hrun & _ & _ & _ & _ & Hcalls).
  - intros s id t r _. apply mem_accepts.
  - by apply ex_bound_succeeds.
  - apply store_with_ok; [|apply NoDup_singleton]. apply Forall_singleton. split; [done|].
    simpl. repeat split; discriminate.
  - constructor; try reflexivity. simpl. set_solver.
  - vm_compute. reflexivity.
  - repeat split.
  - rewrite <-Hb. simpl. lia.
  - exists w'. split; [exact Hrun|]. rewrite Hcalls, <-Hb. reflexivity.
Defined.
