(* ===== verification/Api.v ===== *)
(** * Api: configuring, starting and using an engine (engine/engine.go options, New,
    Start, Stop and retention; engine/pipeline.go, engine/run.go, engine/result.go,
    engine/lookup.go and schedule.go)

    [Schedule] is split at its calls to the store, where other goroutines may act
    in between.  Parameters: the text of the errors, the decoding of a stored input
    and [proto.Equal] (one function), and what the annotators return. *)
From S2P Require Import Signals TokenPool RunPool JoinSet MemStore Binding.
From S2P Require Import Prelude Kernel Text Errors Ledger Driver Engine.
#[local] Open Scope engine_scope.

(** ** Options (engine.Option) and construction *)

Record Options := mkOptions {
  op_concurrency : Z;
  op_recoveryBackoff : Duration;
  op_terminalAfter : Duration;
  op_interval : Duration;
  op_drainTimeout : Duration;
  op_textLimit : Z;
  op_classCapacity : gmap string Z;
  op_runClassCapacity : gmap string Z;
  op_runClassQueue : gmap string Z;
}.

Inductive Option :=
| WithConcurrency (n : Z)
| WithConcurrencyClass (name : string) (capacity : Z)
| WithRunClass (name : string) (capacity maxQueued : Z)
| WithRetentionPolicy (terminalAfter interval : Duration)
| WithRecoveryBackoff (d : Duration)
| WithTextLimit (n : Z)
| WithDrainTimeout (d : Duration).

Definition default_options : Options := mkOptions 0 0 0 0 0 DefaultTextLimit ∅ ∅ ∅.
Definition named (name : string) : bool := negb (bool_decide (name = "")).

Definition set_option (e : Options) (o : Option) : Options :=
  let '(mkOptions co rb ta iv dt tl cc rcc rcq) := e in
  match o with
  | WithConcurrency n =>
    if (0 <? n)%Z then mkOptions n rb ta iv dt tl cc rcc rcq else e
  | WithConcurrencyClass name cap =>
    if named name && (0 <? cap)%Z then mkOptions co rb ta iv dt tl (<[name := cap]> cc) rcc rcq
    else e
  | WithRunClass name cap maxQueued =>
    if named name && (0 <? cap)%Z then
      mkOptions co rb ta iv dt tl cc (<[name := cap]> rcc)
        (if (0 <? maxQueued)%Z then <[name := maxQueued]> rcq else rcq)
    else e
  | WithRetentionPolicy after interval =>
    if (0 <? after)%Z then
      mkOptions co rb after (if (interval <=? 0)%Z then (600 * second)%Z else interval)
        dt tl cc rcc rcq
    else e
  | WithRecoveryBackoff d => if (0 <=? d)%Z then mkOptions co d ta iv dt tl cc rcc rcq else e
  | WithTextLimit n => if (0 <? n)%Z then mkOptions co rb ta iv dt n cc rcc rcq else e
  | WithDrainTimeout d => if (0 <? d)%Z then mkOptions co rb ta iv d tl cc rcc rcq else e
  end.
Definition configure (opts : list Option) : Options := foldl set_option default_options opts.

(** [New]: the engine's initial state over a store, at a time of its clock. *)
Definition New {S} (e : Options) (store : S) (now : Time) : World S :=
  mkWorld store now (TokenPool.New (op_classCapacity e)) (RunPool.New (op_runClassCapacity e))
    js_empty ∅ 0 ∅ ∅ ∅ ∅ false false [].

(** [checkRunClasses]: no name is both kinds of class. *)
Definition checkRunClasses (e : Options) : bool :=
  bool_decide (dom (op_runClassCapacity e) ∩ dom (op_classCapacity e) = ∅).

(** ** Observations of a run *)

Inductive RunState :=
| RunStateRunnable | RunStateRunning | RunStateWaitingRetry | RunStateScheduled
| RunStateAwaiting | RunStateThrottled | RunStateQueued | RunStateInvalid | RunStateDone.
#[export] Instance RunState_eq_dec : EqDecision RunState.
Proof. solve_decision. Defined.

Definition RunState_String (s : RunState) : string :=
  match s with
  | RunStateRunnable => "runnable"
  | RunStateRunning => "running"
  | RunStateWaitingRetry => "waiting-retry"
  | RunStateScheduled => "scheduled"
  | RunStateAwaiting => "awaiting"
  | RunStateThrottled => "throttled"
  | RunStateQueued => "queued"
  | RunStateInvalid => "invalid"
  | RunStateDone => "done"
  end.

Record Result := mkResult {
  Result_Outcome : option Outcome;
  Result_Failure : option Failure;
}.
Definition Succeeded (r : Result) : bool :=
  bool_decide (Result_Outcome r = Some OutcomeSuccess).
Definition Failed (r : Result) : bool := bool_decide (Result_Outcome r = Some OutcomeFailure).
Definition Canceled (r : Result) : bool :=
  bool_decide (Failure_Kind <$> Result_Failure r = Some FailureKindCanceled).
(** [resultOf]: called on terminal records, whose Outcome it dereferences. *)
Definition resultOf (rec : RunRecord) : Result := mkResult (Run_Outcome rec) (Run_Failure rec).

Record Status := mkStatus {
  St_PipelineID : PipelineID;
  St_ResourceID : ResourceID;
  St_RunID : RunID;
  St_Phase : Phase;
  St_State : RunState;
  St_StepID : StepID;
  St_Attempt : Z;
  St_NextAttemptAt : Time;
  St_LastError : string;
  St_LastReason : string;
  St_LastErrorAt : Time;
  St_Outcome : option Outcome;
  St_Failure : option Failure;
  St_InvalidReason : option invalid_reason;
  St_Cancel : option string;
  St_Await : option Await;
  St_ThrottledClass : string;
  St_QueuedClass : string;
  St_StartedAt : Time;
}.

(** What [Status] derives its state from: the state with the field it fills. *)
Inductive state_view :=
| ViewDone | ViewInvalid (r : invalid_reason) | ViewQueued (class : string)
| ViewAwaiting (park : Await) | ViewThrottled (class : string)
| ViewWaitingRetry | ViewScheduled | ViewRunning | ViewRunnable.
Definition state_of (v : state_view) : RunState :=
  match v with
  | ViewDone => RunStateDone
  | ViewInvalid _ => RunStateInvalid
  | ViewQueued _ => RunStateQueued
  | ViewAwaiting _ => RunStateAwaiting
  | ViewThrottled _ => RunStateThrottled
  | ViewWaitingRetry => RunStateWaitingRetry
  | ViewScheduled => RunStateScheduled
  | ViewRunning => RunStateRunning
  | ViewRunnable => RunStateRunnable
  end.

(** The current operation: the steps visited in the order [ord], the last
    unresolved one kept. *)
Definition current_op (ord : list (StepID * StepRecord)) : StepID * Z :=
  foldl (λ acc e,
    let acc := if bool_decide (Op_Status (SR_Forward e.2) = Driver.OpUnresolved)
               then (e.1, Op_Attempts (SR_Forward e.2)) else acc in
    if bool_decide (Op_Status (SR_Unwind e.2) = Driver.OpUnresolved)
    then (e.1, Op_Attempts (SR_Unwind e.2)) else acc) ("", 0%Z) ord.

(** ** Schedule options (schedule.go) *)

Record ScheduleOptions := mkScheduleOptions {
  SO_StartAt : Time;
  SO_StartAfter : Duration;
  SO_Annotations : gmap string string;
}.
Inductive ScheduleOption :=
| WithAnnotations (annotations : gmap string string)
| StartAt (t : Time)
| StartAfter (d : Duration).
Definition set_schedule (o : ScheduleOptions) (s : ScheduleOption) : ScheduleOptions :=
  match s with
  | WithAnnotations m =>
    mkScheduleOptions (SO_StartAt o) (SO_StartAfter o) (m ∪ SO_Annotations o)
  | StartAt t => mkScheduleOptions t 0 (SO_Annotations o)
  | StartAfter d => mkScheduleOptions time_zero d (SO_Annotations o)
  end.
Definition schedule_options (annotators : list (gmap string string))
    (opts : list ScheduleOption) : ScheduleOptions :=
  foldl set_schedule (mkScheduleOptions time_zero 0 ∅) (map WithAnnotations annotators ++ opts).

Definition valid_text (s : string) : bool := ValidString (String.list_ascii_of_string s).
Definition bad_annotation (e : string * string) : bool :=
  negb (valid_text e.1 && valid_text e.2).

Inductive ScheduleError :=
| NotStarted
| InvalidResource
| NilInput
| InputNotSerializable (msg : string)
| InputNotDeclared
| InvalidAnnotation
| StoreFailed (e : StoreError)
| RunClassFull (class : string) (maxQueued : Z)
| ScheduleConflict (id : RunID) (p : PipelineID)
| InputNotDecodable (id : RunID) (msg : string).

Section api.
Context {S H : Type} `{Store S}.
Context (cfg : Config (S:=S) (H:=H)).
(** the stored input of a run and the input of a call: decoding and [proto.Equal] *)
Context (input_equal : PipelineID → bytes → bytes → result string bool).
Abbreviation M := (M S).

(** ** Start *)

(** The recovery of [Start]: class tokens first, then a dispatch per run. *)
Definition recover_class (rec : RunRecord) : M unit :=
  let rc := runClassOf cfg (Run_PipelineID rec) in
  if bool_decide (rc = "") then mret tt
  else if IsZero (Run_StartedAt rec) then
    modify (λ w, set_runs (RunPool.Admit String.le (w_runs w) rc (Run_RunID rec)
                             (eligibilityKey rec) 0).1 w)
  else modify (λ w, set_runs (RunPool.Hold (w_runs w) rc (Run_RunID rec)) w).
Definition recover_dispatch (rec : RunRecord) : M unit :=
  dispatch (Run_RunID rec) (if hasUnresolvedOp rec then e_recoveryBackoff cfg else 0%Z).
Definition recover : M (result StoreError unit) :=
  w ← get;
  match ListNonterminal (w_store w) with
  | Err e => mret (Err e)
  | Ok recs => for_each recs recover_class;; for_each recs recover_dispatch;; mret (Ok tt)
  end.

(** ** Stop: draining refuses new attempts, then the base context is canceled *)

Definition Stop_begin (e : Options) : M unit :=
  if (0 <? op_drainTimeout e)%Z then modify (set_draining true) else mret tt.
Definition Stop_end : M unit := cancelBase.

(** ** Retention *)

Definition reap_batch : Z := 256.
(** The loop of [sweepRetention] with the cutoff; [None] when the fuel runs out. *)
Fixpoint sweep_loop (fuel : nat) (cutoff : Time) (total : Z) : M (option Z) :=
  match fuel with
  | 0 => mret None
  | Datatypes.S fuel =>
    w ← get;
    let '(s, res) := ReapTerminal (w_store w) cutoff reap_batch in
    modify (set_store s);;
    match res with
    | Err _ => mret (Some total)
    | Ok n =>
      (if (0 <? n)%Z then emit (EvRunsReaped n) else mret tt);;
      if (n <? reap_batch)%Z then mret (Some (total + n)%Z)
      else sweep_loop fuel cutoff (total + n)%Z
    end
  end.
Definition sweepRetention (fuel : nat) : M (option Z) :=
  t ← now; sweep_loop fuel (TimeAdd t (- e_terminalAfter cfg)) 0.

(** ** Schedule *)

(** The input bytes of a call: [None] is the nil interface. *)
Definition check_input (d : boundDef (H:=H)) (input : option message)
    : result ScheduleError bytes :=
  if C_NewInput (bd_cfg d) then
    match input with
    | None | Some MsgNil => Err NilInput
    | Some (MsgBad m) => Err (InputNotSerializable m)
    | Some (MsgBytes b) => Ok (Some b)
    end
  else match input with Some _ => Err InputNotDeclared | None => Ok None end.

Definition new_record (d : boundDef (H:=H)) (resource : ResourceID) (input : bytes)
    (so : ScheduleOptions) (now : Time) : RunRecord :=
  mkRun (e_newRunID cfg now) (C_ID (bd_cfg d)) resource (SO_Annotations so) input PhaseForward ∅
    None None None
    (if negb (IsZero (SO_StartAt so)) then SO_StartAt so
     else if (0 <? SO_StartAfter so)%Z then TimeAdd now (SO_StartAfter so) else time_zero)
    None None "" "" time_zero None now now time_zero.

(** Up to the record of the new run. *)
Definition schedule_record (d : boundDef (H:=H)) (resource : ResourceID)
    (input : option message) (annotators : list (gmap string string))
    (opts : list ScheduleOption) (now : Time) : result ScheduleError RunRecord :=
  if negb (Binding.started (e_defs cfg)) then Err NotStarted
  else if invalidID resource then Err InvalidResource
  else
    match check_input d input with
    | Err e => Err e
    | Ok b =>
      let so := schedule_options annotators opts in
      if existsb bad_annotation (map_to_list (SO_Annotations so)) then Err InvalidAnnotation
      else Ok (new_record d resource b so now)
    end.

(** The admission to the run class: whether the run was admitted. *)
Definition schedule_admit (d : boundDef (H:=H)) (rec : RunRecord)
    : M (result ScheduleError bool) :=
  let rc := C_RunClass (bd_cfg d) in
  if bool_decide (rc = "") then mret (Ok false)
  else
    let max := map_get 0%Z (e_runClassQueue cfg) rc in
    w ← get;
    let '(runs, admitted) :=
      RunPool.Admit String.le (w_runs w) rc (Run_RunID rec) (eligibilityKey rec) max in
    modify (set_runs runs);;
    if admitted then mret (Ok true)
    else mret match GetActiveRunID (w_store w) (C_ID (bd_cfg d)) (Run_ResourceID rec) with
              | Err e => Err (StoreFailed e)
              | Ok None => Err (RunClassFull rc max)
              | Ok (Some _) => Ok false
              end.

(** The creation of the run. *)
Definition schedule_create (d : boundDef (H:=H)) (rec : RunRecord)
    : M (result StoreError (option RunRecord * bool)) :=
  w ← get;
  let '(s, res) := CreateRun (w_store w) rec (bd_excludes d) in
  modify (set_store s);; mret res.

(** The rest: the admission settled, and the answer.  [Schedule] drops the wake
    that [Release] returns. *)
Definition settle_admission (d : boundDef (H:=H)) (rec : RunRecord) (admitted : bool)
    (res : result StoreError (option RunRecord * bool)) : M unit :=
  let created := match res with Ok (_, c) => c | Err _ => false end in
  if admitted && negb created then
    w ← get;
    or_panic (RunPool.Release (w_runs w) (Run_RunID rec)) (λ '(runs, _), modify (set_runs runs))
  else if negb (bool_decide (C_RunClass (bd_cfg d) = "")) && negb admitted && created then
    modify (λ w, set_runs (RunPool.Admit String.le (w_runs w) (C_RunClass (bd_cfg d))
                             (Run_RunID rec) (eligibilityKey rec) 0).1 w)
  else mret tt.

Definition schedule_answer (d : boundDef (H:=H)) (rec existing : RunRecord)
    : result ScheduleError (RunID * bool) :=
  if bool_decide (Run_PipelineID existing ≠ C_ID (bd_cfg d)) then
    Err (ScheduleConflict (Run_RunID existing) (Run_PipelineID existing))
  else if negb (C_NewInput (bd_cfg d)) then Ok (Run_RunID existing, false)
  else
    match input_equal (C_ID (bd_cfg d)) (Run_Input existing) (Run_Input rec) with
    | Err m => Err (InputNotDecodable (Run_RunID existing) m)
    | Ok true => Ok (Run_RunID existing, false)
    | Ok false => Err (ScheduleConflict (Run_RunID existing) (Run_PipelineID existing))
    end.

Definition schedule_settle (d : boundDef (H:=H)) (rec : RunRecord) (admitted : bool)
    (res : result StoreError (option RunRecord * bool))
    : M (result ScheduleError (RunID * bool)) :=
  settle_admission d rec admitted res;;
  match res with
  | Err e => mret (Err (StoreFailed e))
  | Ok (_, true) =>
    emit (EvRunScheduled (Run_RunID rec));;
    dispatch (Run_RunID rec) 0;;
    mret (Ok (Run_RunID rec, true))
  | Ok (Some existing, false) => mret (schedule_answer d rec existing)
  | Ok (None, false) => emit EvPanic;; mret (Err NotStarted)
  end.

Definition Schedule (d : boundDef (H:=H)) (resource : ResourceID) (input : option message)
    (annotators : list (gmap string string)) (opts : list ScheduleOption)
    : M (result ScheduleError (RunID * bool)) :=
  t ← now;
  match schedule_record d resource input annotators opts t with
  | Err e => mret (Err e)
  | Ok rec =>
    a ← schedule_admit d rec;
    match a with
    | Err e => mret (Err e)
    | Ok admitted => res ← schedule_create d rec; schedule_settle d rec admitted res
    end
  end.

(** ** Lookups (engine/lookup.go, engine/pipeline.go) *)

Inductive LookupError := LookupFailed (e : StoreError)
| PipelineMismatch (id : RunID) (expected actual : PipelineID).
Definition Engine_GetRun (s : S) (id : RunID) : result StoreError RunID :=
  match GetRunHead s id with Err e => Err e | Ok _ => Ok id end.
Definition Pipeline_GetRun (d : boundDef (H:=H)) (s : S) (id : RunID)
    : result LookupError RunID :=
  match GetRunHead s id with
  | Err e => Err (LookupFailed e)
  | Ok rec =>
    if bool_decide (Run_PipelineID rec ≠ C_ID (bd_cfg d))
    then Err (PipelineMismatch id (C_ID (bd_cfg d)) (Run_PipelineID rec)) else Ok id
  end.
Definition Pipeline_GetActiveRun (d : boundDef (H:=H)) (s : S) (resource : ResourceID)
    : result StoreError (option RunID) := GetActiveRunID s (C_ID (bd_cfg d)) resource.

(** ** Runs (engine/run.go) *)

(** [Cancel]; [None] for an engine not started. *)
Definition Cancel (id : RunID) (cause : string) : M (option (result StoreError unit)) :=
  if Binding.started (e_defs cfg) then r ← requestCancel cfg id cause; mret (Some r)
  else mret None.

(** The state [Status] reports for a head; [active] is [Dispatcher.IsActive]. *)
Definition state_view_of (w : World S) (active : bool) (id : RunID) (rec : RunRecord)
    : state_view :=
  if Terminal rec then ViewDone
  else match w_invalid w !! id with
  | Some ie => ViewInvalid (Ie_Reason ie)
  | None =>
    match RunPool.ParkedOn (w_runs w) id with
    | Some class => ViewQueued class
    | None =>
      match Run_Awaiting rec, Run_Cancel rec with
      | Some park, None => ViewAwaiting park
      | _, _ =>
        match TokenPool.ParkedOn (w_pool w) id with
        | Some class => ViewThrottled class
        | None =>
          if negb (IsZero (Run_NextAttemptAt rec)) && Before (w_now w) (Run_NextAttemptAt rec)
          then if IsZero (Run_StartedAt rec) then ViewScheduled else ViewWaitingRetry
          else if active then ViewRunning else ViewRunnable
        end
      end
    end
  end.
Definition status_of (rec : RunRecord) (v : state_view) : Status :=
  let '(step, attempt) := current_op (map_to_list (Run_Steps rec)) in
  mkStatus (Run_PipelineID rec) (Run_ResourceID rec) (Run_RunID rec) (Run_Phase rec)
    (state_of v) step attempt
    (match v with ViewWaitingRetry | ViewScheduled => Run_NextAttemptAt rec | _ => time_zero end)
    (Run_LastError rec) (Run_LastReason rec) (Run_LastErrorAt rec)
    (match v with ViewDone => Run_Outcome rec | _ => None end) (Run_Failure rec)
    (match v with ViewInvalid r => Some r | _ => None end)
    (Cancel_Cause <$> Run_Cancel rec)
    (match v with ViewAwaiting park => Some park | _ => None end)
    (match v with ViewThrottled c => c | _ => "" end)
    (match v with ViewQueued c => c | _ => "" end) (Run_StartedAt rec).
Definition Status_ (w : World S) (active : bool) (id : RunID) : result StoreError Status :=
  match GetRunHead (w_store w) id with
  | Err e => Err e
  | Ok rec => Ok (status_of rec (state_view_of w active id rec))
  end.

Definition Annotations (s : S) (id : RunID) : result StoreError (gmap string string) :=
  match GetRunHead s id with Err e => Err e | Ok rec => Ok (Run_Annotations rec) end.
Definition InputBytes (s : S) (id : RunID) : result StoreError bytes :=
  match GetRun s id with
  | Err e => Err e
  | Ok rec => if Terminal rec then Err ErrRunTerminal else Ok (Run_Input rec)
  end.
Definition OutputBytes (s : S) (id : RunID) : result StoreError bytes :=
  match GetRun s id with Err e => Err e | Ok rec => Ok (Run_Output rec) end.
End api.
