(* ===== verification/Waits.v ===== *)
(** * Waits: Run.Wait among the goroutines that end runs (engine/run.go, Wait, with the
    watch set of internal/watchset and the notifications of engine/engine.go)

    The loop of [Wait] is a machine of its own, one step per access to shared state: it
    registers, reads, looks for an invalidity, sleeps.  Between its steps others change
    the store and the invalid runs, notify, close the channels notified, watch, and stop
    the engine.  An end of a run - its terminal commit, its reap, its invalidity - is
    followed by a notification: the notifications that are owed are part of the state. *)
From S2P Require Import Signals TokenPool RunPool JoinSet MemStore Binding.
From S2P Require Import Prelude Kernel Text Errors Ledger Driver Engine Sample Api.
#[local] Open Scope engine_scope.

Inductive WaitError :=
| WaitStore (e : StoreError) | WaitInvalid (e : InvalidRunError) | WaitInProgress
| WaitContext | WaitStopped.
Abbreviation answer := (result WaitError Result).

(** Where a call of [Wait] is: the channel it registered, from then on. *)
Inductive waiter :=
| Looping | Registered (ch : nat) | Unended (ch : nat) | Sleeping (ch : nat)
| Leaving (ch : nat) (r : answer) | Gone (ch : nat) (r : answer).
Definition channel (p : waiter) : option nat :=
  match p with
  | Looping | Gone _ _ => None
  | Registered ch | Unended ch | Sleeping ch | Leaving ch _ => Some ch
  end.
(** The cases of its select. *)
Inductive select := OnNotify | OnContext | OnStop.

Section wait.
Context {S : Type} `{Store S}.
(** the run, and whether the call comes from inside an attempt *)
Context (id : RunID) (in_attempt : bool).
Abbreviation watch := (WatchSet.Set_ (K:=RunID)).

Record shared := mkShared {
  sh_world : World S;
  sh_watch : watch;
  sh_owed : gset RunID;
  sh_canceled : bool;
  sh_waiter : waiter;
}.
Definition at_ (p : waiter) (y : shared) : shared :=
  mkShared (sh_world y) (sh_watch y) (sh_owed y) (sh_canceled y) p.
Definition with_watch (ws : watch) (y : shared) : shared :=
  mkShared (sh_world y) ws (sh_owed y) (sh_canceled y) (sh_waiter y).

(** One step of [Wait]; [None] where it has returned, or its select would block. *)
Definition wait_turn (sel : select) (y : shared) : option shared :=
  let w := sh_world y in
  match sh_waiter y with
  | Looping => let '(ws, ch) := WatchSet.Watch (sh_watch y) id in
      Some (at_ (Registered ch) (with_watch ws y))
  | Registered ch =>
    Some match GetRunHead (w_store w) id with
         | Err e => at_ (Leaving ch (Err (WaitStore e))) y
         | Ok rec => if Terminal rec then at_ (Leaving ch (Ok (resultOf rec))) y
                     else at_ (Unended ch) y
         end
  | Unended ch =>
    Some match w_invalid w !! id with
         | Some ie => at_ (Leaving ch (Err (WaitInvalid ie))) y
         | None => if in_attempt then at_ (Leaving ch (Err WaitInProgress)) y else at_ (Sleeping ch) y
         end
  | Sleeping ch =>
    match sel with
    | OnNotify => if decide (ch ∈ WatchSet.closed (sh_watch y)) then Some (at_ Looping y) else None
    | OnContext => if sh_canceled y then Some (at_ (Leaving ch (Err WaitContext)) y) else None
    | OnStop => if w_stopped w then Some (at_ (Leaving ch (Err WaitStopped)) y) else None
    end
  | Leaving ch r => Some (at_ (Gone ch r) (with_watch (WatchSet.cancel (sh_watch y) id ch) y))
  | Gone _ _ => None
  end.

(** A run is over: it has no live record, or it is invalid. *)
Definition ended (w : World S) (run : RunID) : Prop :=
  match GetRunHead (w_store w) run with Ok rec => Terminal rec = true | Err _ => True end.
Definition invalid (w : World S) (run : RunID) : Prop := is_Some (w_invalid w !! run).

(** The steps of the others.  Whoever ends a run owes a notification of it; only the call
    that watches takes its registration back. *)
Inductive others : shared → shared → Prop :=
| o_world y w owed :
    sh_owed y ⊆ owed →
    (∀ run, ended w run → ended (sh_world y) run ∨ run ∈ owed) →
    (∀ run, invalid w run → invalid (sh_world y) run ∨ run ∈ owed) →
    others y (mkShared w (sh_watch y) owed (sh_canceled y) (sh_waiter y))
| o_notify y run :
    others y (mkShared (sh_world y) (WatchSet.Notify (sh_watch y) run) (sh_owed y ∖ {[run]})
                (sh_canceled y) (sh_waiter y))
| o_close y ch ws : ch ∈ WatchSet.closing (sh_watch y) → WatchSet.close (sh_watch y) ch = Some ws →
    others y (with_watch ws y)
| o_watch y run : others y (with_watch (WatchSet.Watch (sh_watch y) run).1 y)
| o_cancel y run ch : channel (sh_waiter y) ≠ Some ch →
    others y (with_watch (WatchSet.cancel (sh_watch y) run ch) y)
| o_context y :
    others y (mkShared (sh_world y) (sh_watch y) (sh_owed y) true (sh_waiter y)).

Inductive among : shared → shared → Prop :=
| a_wait y sel y' : wait_turn sel y = Some y' → among y y'
| a_others y y' : others y y' → among y y'.

(** ** The invariant *)

Definition registered (ws : watch) (ch : nat) : Prop :=
  ∃ l, WatchSet.watchers ws !! id = Some l ∧ ch ∈ l.
(** Notified: taken by a notification that has closed it or will. *)
Definition notified (ws : watch) (ch : nat) : Prop :=
  ch ∈ WatchSet.closing ws ∨ ch ∈ WatchSet.closed ws.
Definition unwatched (ws : watch) (ch : nat) : Prop :=
  ch < WatchSet.next ws ∧ ∀ run l, WatchSet.watchers ws !! run = Some l → ch ∉ l.

Definition coming (y : shared) (ch : nat) : Prop := notified (sh_watch y) ch ∨ id ∈ sh_owed y.
Record sound (y : shared) : Prop := {
  so_watch : WatchSet.ws_ok (sh_watch y);
  so_channel ch : channel (sh_waiter y) = Some ch →
    registered (sh_watch y) ch ∨ notified (sh_watch y) ch;
  so_ended ch : sh_waiter y = Unended ch ∨ sh_waiter y = Sleeping ch →
    ended (sh_world y) id → coming y ch;
  so_invalid ch : sh_waiter y = Sleeping ch → invalid (sh_world y) id → coming y ch;
  so_sleeping ch : sh_waiter y = Sleeping ch → in_attempt = false;
  so_gone ch r : sh_waiter y = Gone ch r → unwatched (sh_watch y) ch;
}.

(** *** What the operations of the watch set do to one channel *)

(** A channel stays registered or is notified, and one that was left is not watched again. *)
Record follows (ch : nat) (ws ws' : watch) : Prop := {
  fo_registered : registered ws ch → registered ws' ch ∨ notified ws' ch;
  fo_notified : notified ws ch → notified ws' ch;
  fo_unwatched : unwatched ws ch → unwatched ws' ch;
}.
Lemma Watch_follows ws run ch : follows ch ws (WatchSet.Watch ws run).1.
Proof.
  constructor; [|done|].
  - intros (l & Hl & Hin). left. unfold registered. cbn. destruct (decide (run = id)) as [->|Hne].
    + rewrite lookup_insert_eq. eexists. split; [done|]. unfold map_get. rewrite Hl. cbn. set_solver.
    + rewrite lookup_insert_ne by done. by exists l.
  - intros [Hlt Hno]. split; [cbn; lia|]. intros run' l. cbn. rewrite lookup_insert_Some.
    intros [[<- <-]|[_ Hl]]; [|by eapply Hno]. rewrite elem_of_app, list_elem_of_singleton.
    intros [Hin|E]; [|cbn in E; lia]. unfold map_get in Hin.
    destruct (WatchSet.watchers ws !! run) as [l|] eqn:Hl; [by eapply Hno|by apply not_elem_of_nil in Hin].
Qed.
Lemma Notify_follows ws run ch : follows ch ws (WatchSet.Notify ws run).
Proof.
  constructor.
  - intros (l & Hl & Hin). destruct (decide (run = id)) as [->|Hne].
    + right. left. cbn. apply elem_of_app. right. unfold map_get. by rewrite Hl.
    + left. exists l. cbn. by rewrite lookup_delete_ne.
  - intros [Hc|Hc]; [left; cbn; apply elem_of_app; by left|by right].
  - intros [Hlt Hno]. split; [done|]. intros run' l. cbn. rewrite lookup_delete_Some.
    intros [_ Hl]. by eapply Hno.
Qed.
Lemma Notify_notifies ws ch : registered ws ch ∨ notified ws ch → notified (WatchSet.Notify ws id) ch.
Proof.
  intros [(l & Hl & Hin)|Hn]; [|by apply (fo_notified _ _ _ (Notify_follows ws id ch))].
  left. cbn. apply elem_of_app. right. unfold map_get. by rewrite Hl.
Qed.
Lemma close_follows ws ws' c ch : WatchSet.ws_ok ws → WatchSet.close ws c = Some ws' → follows ch ws ws'.
Proof.
  intros Hok. unfold WatchSet.close. case_decide; [done|]. intros [= <-].
  constructor; [by left| |done]. intros [Hc|Hc]; [|right; cbn; set_solver].
  destruct (decide (ch = c)) as [->|Hne]; [right; cbn; set_solver|left; cbn].
  by apply WatchSet.cut_elem; [apply WatchSet.ok_closing|].
Qed.
Lemma cancel_unwatched_still ws run c ch : unwatched ws ch → unwatched (WatchSet.cancel ws run c) ch.
Proof.
  intros [Hlt Hno]. split; [done|]. intros run' l (l' & Hl' & -> & _)%WatchSet.cancel_lookup Hin.
  apply (Hno run' l' Hl'). case_decide; [|done]. by eapply elem_of_sublist, WatchSet.cut_sublist.
Qed.
Lemma cancel_follows ws run c ch : WatchSet.ws_ok ws → ch ≠ c → follows ch ws (WatchSet.cancel ws run c).
Proof.
  intros Hok Hne. constructor; [|done|].
  - intros (l & Hl & Hin). left. unfold registered. cbn. rewrite WatchSet.drop_empty_lookup.
    case_decide as E; rewrite WatchSet.cut_entry_lookup; [subst run; rewrite decide_True by done|].
    + rewrite Hl. cbn. assert (ch ∈ WatchSet.cut c l) as Hin'.
      { by apply WatchSet.cut_elem; [eapply WatchSet.ok_nodup|]. }
      exists (WatchSet.cut c l). split; [|done].
      by destruct (WatchSet.cut c l); [by apply not_elem_of_nil in Hin'|].
    + rewrite decide_False by done. by exists l.
  - apply cancel_unwatched_still.
Qed.
(** The call leaves: its channel is watched no more. *)
Lemma cancel_unwatched ws ch :
  WatchSet.ws_ok ws → registered ws ch ∨ notified ws ch → unwatched (WatchSet.cancel ws id ch) ch.
Proof.
  intros Hok Hch. split.
  - cbn. apply (WatchSet.ok_fresh _ Hok). destruct Hch as [(l & Hl & Hin)|Hn]; [left; eauto|by right].
  - intros run l (l' & Hl' & -> & _)%WatchSet.cancel_lookup Hin.
    destruct Hch as [(l0 & Hl0 & Hin0)|Hn].
    + case_decide as E; [|by destruct E; apply (WatchSet.ok_disjoint _ Hok run id l' l0 ch)].
      apply WatchSet.cut_elem in Hin; [|by eapply WatchSet.ok_nodup]. by destruct Hin.
    + assert (ch ∈ l') as Hin' by (case_decide; [by eapply elem_of_sublist, WatchSet.cut_sublist|done]).
      destruct (WatchSet.ok_apart _ Hok run l' ch Hl' Hin'). by destruct Hn.
Qed.

(** A step of the others that keeps the world and what is owed. *)
Lemma sound_watch ws y :
  WatchSet.ws_ok ws → sound y →
  (∀ ch, channel (sh_waiter y) = Some ch → follows ch (sh_watch y) ws) →
  (∀ ch, unwatched (sh_watch y) ch → unwatched ws ch) →
  sound (with_watch ws y).
Proof.
  intros Hok Hs Hf Hun.
  assert (∀ ch, channel (sh_waiter y) = Some ch → coming y ch → coming (with_watch ws y) ch) as Hcome.
  { intros ch Hch [Hn|Ho]; [left|by right]. by apply (fo_notified _ _ _ (Hf ch Hch)). }
  constructor; cbn [sh_waiter sh_watch sh_world with_watch]; [done| | | |apply Hs|].
  - intros ch Hch. destruct (so_channel _ Hs ch Hch) as [Hr|Hn];
      [by apply (fo_registered _ _ _ (Hf ch Hch))|].
    right. by apply (fo_notified _ _ _ (Hf ch Hch)).
  - intros ch Hp He. apply Hcome; [by destruct Hp as [-> | ->]|by apply (so_ended _ Hs)].
  - intros ch Hp He. apply Hcome; [by rewrite Hp|by apply (so_invalid _ Hs)].
  - intros ch r Hp. apply Hun. by eapply so_gone.
Qed.
Lemma others_sound y y' : sound y → others y y' → sound y'.
Proof.
  intros Hs Ho. pose proof (so_watch _ Hs) as Hok. destruct Ho as [y w owed Hsub He Hi|y run|y c ws Hc Hcl|y run|y run c Hc|y].
  - assert (∀ ch, coming y ch → coming (mkShared w (sh_watch y) owed (sh_canceled y) (sh_waiter y)) ch) as Hcome.
    { intros ch [Hn|Ho]; [by left|right; by apply Hsub]. }
    constructor; cbn [sh_waiter sh_watch sh_world]; [done|apply Hs| | |apply Hs|apply Hs].
    + intros ch Hp [Hend|Hin]%He; [|by right]. by apply Hcome, (so_ended _ Hs).
    + intros ch Hp [Hend|Hin]%Hi; [|by right]. by apply Hcome, (so_invalid _ Hs).
  - assert (∀ ch, channel (sh_waiter y) = Some ch → coming y ch →
      coming (mkShared (sh_world y) (WatchSet.Notify (sh_watch y) run) (sh_owed y ∖ {[run]}) (sh_canceled y)
        (sh_waiter y)) ch) as Hcome.
    { intros ch Hch [Hn|Ho]; [left; by apply (fo_notified _ _ _ (Notify_follows _ _ _))|].
      destruct (decide (run = id)) as [->|Hne]; [left|right; cbn; set_solver].
      by apply Notify_notifies, (so_channel _ Hs). }
    destruct (sound_watch (WatchSet.Notify (sh_watch y) run) y) as [H1 H2 _ _ H5 H6];
      [by apply WatchSet.Notify_ok|done|intros; apply Notify_follows|intros ch; by apply Notify_follows|].
    constructor; cbn [sh_waiter sh_watch sh_world]; [done|exact H2| | |exact H5|exact H6].
    + intros ch Hp He. apply Hcome; [by destruct Hp as [-> | ->]|by apply (so_ended _ Hs)].
    + intros ch Hp He. apply Hcome; [by rewrite Hp|by apply (so_invalid _ Hs)].
  - apply sound_watch; [by eapply WatchSet.close_ok|done|intros ch _; by eapply close_follows|].
    intros ch. by apply (close_follows _ _ c).
  - apply sound_watch; [by apply WatchSet.Watch_ok|done|intros ch _; apply Watch_follows|].
    intros ch. apply Watch_follows.
  - apply sound_watch; [by apply WatchSet.cancel_ok|done| |intros ch; apply cancel_unwatched_still].
    intros ch Hch. apply cancel_follows; [done|congruence].
  - by destruct Hs.
Qed.
Lemma turn_sound sel y y' : sound y → wait_turn sel y = Some y' → sound y'.
Proof.
  intros Hs. pose proof (so_watch _ Hs) as Hok. unfold wait_turn.
  destruct (sh_waiter y) as [|ch|ch|ch|ch r|ch r] eqn:Hp.
  - destruct (WatchSet.Watch (sh_watch y) id) as [ws ch] eqn:Hw. intros [= <-].
    assert (WatchSet.ws_ok ws) as Hok' by (pose proof (WatchSet.Watch_ok _ id Hok) as Ho; by rewrite Hw in Ho).
    constructor; cbn; try done; [|by intros ? [|]].
    intros ? [= <-]. left. injection Hw as <- <-. eexists. split; [apply lookup_insert_eq|set_solver].
  - intros [= <-]. pose proof (so_channel _ Hs ch) as Hch. rewrite Hp in Hch.
    destruct (GetRunHead (w_store (sh_world y)) id) as [rec|e] eqn:Hg; [destruct (Terminal rec) eqn:Ht|];
      constructor; cbn; try done; try (by intros ? [|]); try (by intros ? [= <-]; apply Hch).
    intros ch' [[= <-]|[=]]. unfold ended. cbn. by rewrite Hg, Ht.
  - intros [= <-]. pose proof (so_channel _ Hs ch) as Hch. rewrite Hp in Hch.
    pose proof (so_ended _ Hs ch (or_introl Hp)) as He.
    destruct (w_invalid (sh_world y) !! id) as [ie|] eqn:Hi; [|destruct in_attempt eqn:Ha];
      constructor; cbn; try done; try (by intros ? [|]); try (by intros ? [= <-]; apply Hch).
    + intros ch' [[=]|[= <-]]. exact He.
    + intros ch' [= <-]. unfold invalid. cbn. rewrite Hi. by intros [].
  - pose proof (so_channel _ Hs ch) as Hch. rewrite Hp in Hch.
    destruct sel; repeat case_match; try done; intros [= <-];
      constructor; cbn; try done; try (by intros ? [|]); by intros ? [= <-]; apply Hch.
  - intros [= <-]. pose proof (so_channel _ Hs ch) as Hch. rewrite Hp in Hch. specialize (Hch eq_refl).
    constructor; cbn; try done; try (by intros ? [|]); [by apply WatchSet.cancel_ok|].
    intros ch' r' [= <- <-]. by apply cancel_unwatched.
  - done.
Qed.
Lemma among_sound y y' : sound y → rtc among y y' → sound y'.
Proof.
  intros Hs Hst. induction Hst as [|y y1 y2 Hst _ IH]; [done|]. apply IH.
  destruct Hst; [by eapply turn_sound|by eapply others_sound].
Qed.

(** ** Answers *)

(** What an answer says, at the moment it was found. *)
Definition explains (y : shared) (r : answer) : Prop :=
  match r with
  | Ok res => ∃ rec, GetRunHead (w_store (sh_world y)) id = Ok rec ∧ Terminal rec = true ∧ res = resultOf rec
  | Err (WaitStore e) => GetRunHead (w_store (sh_world y)) id = Err e
  | Err (WaitInvalid ie) => w_invalid (sh_world y) !! id = Some ie
  | Err WaitInProgress => in_attempt = true
  | Err WaitContext => sh_canceled y = true
  | Err WaitStopped => w_stopped (sh_world y) = true
  end.
Definition answered (p : waiter) (r : answer) : Prop := ∃ ch, p = Leaving ch r ∨ p = Gone ch r.
Lemma turn_answers sel y y' r :
  wait_turn sel y = Some y' → answered (sh_waiter y') r → answered (sh_waiter y) r ∨ explains y r.
Proof.
  unfold wait_turn, answered. destruct (sh_waiter y) as [|ch|ch|ch|ch r0|ch r0]; try done.
  - destruct (WatchSet.Watch _ _). intros [= <-]. cbn. naive_solver.
  - intros [= <-] (ch' & Hr). right. destruct (GetRunHead _ _) as [rec|e] eqn:Hg; [destruct (Terminal rec) eqn:Ht|];
      cbn in Hr; destruct Hr as [Hr|Hr]; try done; injection Hr as <- <-; [by exists rec|done].
  - intros [= <-] (ch' & Hr). right. destruct (w_invalid _ !! id) as [ie|] eqn:Hi; [|destruct in_attempt eqn:Ha];
      cbn in Hr; destruct Hr as [Hr|Hr]; try done; by injection Hr as <- <-.
  - destruct sel; repeat case_match; try done; intros [= <-] (ch' & [Hr|Hr]); cbn in Hr; try done;
      injection Hr as <- <-; by right.
  - intros [= <-] (ch' & [Hr|Hr]); cbn in Hr; [done|]. injection Hr as <- <-. left. exists ch. by left.
Qed.
Lemma others_waiter y y' : others y y' → sh_waiter y' = sh_waiter y.
Proof. by destruct 1. Qed.
Lemma among_answers y0 y r :
  sh_waiter y0 = Looping → rtc among y0 y → answered (sh_waiter y) r →
  ∃ y1, rtc among y0 y1 ∧ rtc among y1 y ∧ explains y1 r.
Proof.
  intros H0 Hst. revert r. revert y Hst. apply (rtc_ind_r (λ y, ∀ r, answered (sh_waiter y) r →
    ∃ y1, rtc among y0 y1 ∧ rtc among y1 y ∧ explains y1 r)).
  { intros r Hr. rewrite H0 in Hr. destruct Hr as (ch & [|]); done. }
  intros y y' Hst Hlast IH r Hr. assert (answered (sh_waiter y) r ∨ explains y r) as [Ha|He].
  { destruct Hlast as [y sel y' Ht|y y' Ho]; [by eapply turn_answers|left]. by rewrite <-(others_waiter _ _ Ho). }
  - destruct (IH r Ha) as (y1 & ? & ? & ?). exists y1. split; [done|]. split; [|done]. by eapply rtc_r.
  - exists y. split; [done|]. split; [by apply rtc_once|done].
Qed.

(** ** Turns of the call alone *)

Fixpoint turns (n : nat) (y : shared) : shared :=
  match n with
  | 0 => y
  | Datatypes.S n => match wait_turn OnNotify y with Some y' => turns n y' | None => y end
  end.
Lemma loop_returns y :
  sh_waiter y = Looping →
  ended (sh_world y) id ∨ invalid (sh_world y) id ∨ in_attempt = true →
  ∃ ch r, sh_waiter (turns 4 y) = Gone ch r.
Proof.
  intros Hp Hover. unfold ended, invalid in Hover. cbn [turns]. unfold wait_turn at 1. rewrite Hp. cbn.
  unfold wait_turn at 1. cbn.
  destruct (GetRunHead (w_store (sh_world y)) id) as [rec|e]; [destruct (Terminal rec)|]; cbn; [by eauto| |by eauto].
  destruct (w_invalid (sh_world y) !! id) as [ie|]; cbn; [by eauto|].
  destruct Hover as [Hx|[[x Hx]|Hx]]; [done|done|]. rewrite Hx. cbn. by eauto.
Qed.

(** C29: [Wait] loses no wake and leaks no registration, whatever the other goroutines do
    between its steps, as long as whoever ends the run - commits its outcome, removes it,
    finds it invalid - notifies it afterwards.  A call that sleeps is not inside an
    attempt, and if its run is over its channel is closed, or about to be, or the
    notification is still owed; once the channel is closed its own turns bring it to
    return.  A call that returned left no registration, and its answer was true at some
    moment of the call: the run's outcome as stored, the store's error, its invalidity,
    the caller's context or the engine's stop.  A call inside an attempt returns without
    waiting for anything. *)
Theorem Wait_correct (y0 y : shared) :
  WatchSet.ws_ok (sh_watch y0) → sh_waiter y0 = Looping → rtc among y0 y →
  let over := ended (sh_world y) id ∨ invalid (sh_world y) id in
  match sh_waiter y with
  | Sleeping ch =>
      in_attempt = false ∧ (registered (sh_watch y) ch ∨ notified (sh_watch y) ch) ∧
      (over → ch ∈ WatchSet.closing (sh_watch y) ∨ ch ∈ WatchSet.closed (sh_watch y) ∨ id ∈ sh_owed y) ∧
      (over → ch ∈ WatchSet.closed (sh_watch y) → ∃ ch' r, sh_waiter (turns 5 y) = Gone ch' r)
  | Gone ch r =>
      (∀ run l, WatchSet.watchers (sh_watch y) !! run = Some l → ch ∉ l) ∧
      ∃ y1, rtc among y0 y1 ∧ rtc among y1 y ∧ explains y1 r
  | Looping => over ∨ in_attempt = true → ∃ ch r, sh_waiter (turns 4 y) = Gone ch r
  | _ => ∃ y', wait_turn OnNotify y = Some y'
  end.
Proof.
  intros Hok H0 Hst over.
  assert (sound y) as Hs.
  { apply (among_sound y0); [|done]. constructor; rewrite ?H0; try done. by intros ? [|]. }
  destruct (sh_waiter y) as [|ch|ch|ch|ch r|ch r] eqn:Hp.
  - intros [[?|?]|?]; apply loop_returns; auto.
  - unfold wait_turn. rewrite Hp. by eexists.
  - unfold wait_turn. rewrite Hp. by eexists.
  - split; [by eapply so_sleeping|]. split; [by apply (so_channel _ Hs); rewrite Hp|]. split.
    + intros Hover. assert (coming y ch) as [[?|?]|?]; [|by auto..].
      destruct Hover; [by apply (so_ended _ Hs); auto|by apply (so_invalid _ Hs)].
    + intros Hover Hc. change (turns 5 y) with
        (match wait_turn OnNotify y with Some y' => turns 4 y' | None => y end).
      unfold wait_turn at 1. rewrite Hp, decide_True by done. apply loop_returns; [done|].
      destruct Hover; auto.
  - unfold wait_turn. rewrite Hp. by eexists.
  - split; [by apply (so_gone _ Hs ch r Hp)|]. apply (among_answers y0 y r H0 Hst). rewrite Hp. exists ch. by right.
Qed.
End wait.

(** ** The engine notifies the runs it ends *)

Section notifies.
Context {S : Type}.
(** A program that only adds events. *)
Definition appends {A} (m : M S A) : Prop := ∀ w, w_trace w `prefix_of` w_trace (m w).1.
Lemma appends_bind {A B} (m : M S A) (f : A → M S B) : appends m → (∀ x, appends (f x)) → appends (bind m f).
Proof.
  intros Hm Hf w. unfold bind. specialize (Hm w). destruct (m w) as [w1 x]. etrans; [exact Hm|apply Hf].
Qed.
Lemma appends_modify (f : World S → World S) : (∀ w, w_trace (f w) = w_trace w) → appends (modify f).
Proof. intros Hf w. cbn. by rewrite Hf. Qed.
Lemma appends_emit e : appends (emit (S:=S) e).
Proof. intros w. by eexists. Qed.
Lemma appends_for_each {A} (l : list A) (f : A → M S unit) : (∀ x, appends (f x)) → appends (for_each l f).
Proof. intros Hf. induction l as [|x l IH]; [by intros w|]. by apply appends_bind. Qed.
Lemma appends_awaitTargetDone id : appends (awaitTargetDone (S:=S) id).
Proof.
  unfold awaitTargetDone. apply appends_bind; [by intros w|]. intros w.
  destruct (JoinSet.Complete _ _) as [[joins kicks]|]; [|apply appends_emit].
  apply appends_bind; [by apply appends_modify; intros []|]. intros _. apply appends_for_each.
  intros x. apply appends_emit.
Qed.
Lemma notify_then {A} id (m : M S A) w : appends m → EvNotify id ∈ w_trace ((emit (EvNotify id);; m) w).1.
Proof.
  intros Hm. unfold bind. cbn. specialize (Hm (set_trace (w_trace w ++ [EvNotify id]) w)).
  cbn [w_trace set_trace] in Hm. eapply elem_of_prefix; [|exact Hm]. set_solver.
Qed.

(** A program whose end notifies the run. *)
Definition notifies {A} (id : RunID) (m : M S A) : Prop := ∀ w, EvNotify id ∈ w_trace (m w).1.
Lemma notifies_after {A B} id (m : M S A) (f : A → M S B) : (∀ x, notifies id (f x)) → notifies id (bind m f).
Proof. intros Hf w. unfold bind. destruct (m w) as [w1 x]. apply Hf. Qed.
Lemma completeRun_notifies rec : notifies (Run_RunID rec) (completeRun (S:=S) rec).
Proof.
  unfold completeRun. do 3 (apply notifies_after; intros _). intros w.
  apply (notify_then _ _ _ (appends_awaitTargetDone _)).
Qed.
(** The two ends the engine makes: each is followed by its notification. *)
Theorem finish_notifies `{Store S} rec oc w :
  (finish rec oc w).2.2 = true → EvNotify (Run_RunID rec) ∈ w_trace (finish rec oc w).1.
Proof.
  unfold finish. unfold bind at 1 3. destruct (apply _ _ w) as [w1 [rec1 []]] eqn:Ha; [|done]. intros _.
  assert (Run_RunID rec1 = Run_RunID rec) as <-.
  { revert Ha. unfold apply, bind, get, modify. destruct (ApplyTransition _ _ _) as [s res].
    by intros [= _ <- _]. }
  cbn [negb]. unfold bind. pose proof (completeRun_notifies rec1 w1) as Hc. by destruct (completeRun rec1 w1).
Qed.
Theorem markInvalid_notifies rec stepID reason w :
  w_invalid w !! Run_RunID rec = None →
  EvNotify (Run_RunID rec) ∈ w_trace (markInvalid (S:=S) rec stepID reason w).1.
Proof.
  intros Hn. unfold markInvalid, bind at 1, get at 1. rewrite Hn. cbn [fmap option_fmap option_map].
  rewrite bool_decide_false by done.
  assert (notifies (Run_RunID rec) (modify (S:=S) (set_invalid
    (<[Run_RunID rec := mkInvalidRunError (Run_RunID rec) (Run_PipelineID rec) reason]> (w_invalid w)));;
    clearClassWait (Run_RunID rec);; w ← get;
    or_panic (RunPool.Clear (w_runs w) (Run_RunID rec)) (λ '(runs, k), modify (set_runs runs);; kick k);;
    emit (EvRunInvalid (Run_RunID rec) stepID reason);; unpark (Run_RunID rec);;
    emit (EvNotify (Run_RunID rec)))) as Hm; [|apply Hm].
  repeat (apply notifies_after; intros ?). intros w'. cbn. set_solver.
Qed.
End notifies.

(** ** An example: a call that sleeps before its run ends *)

Definition ex_before : World MemStore.MemStore := sample_world [sample_run "r" "p" "x"].
Definition ex_after : World MemStore.MemStore := sample_world
  [set_Outcome (Some OutcomeSuccess) (set_Phase PhaseDone (sample_run "r" "p" "x"))].
Definition ex_call : shared (S:=MemStore.MemStore) :=
  mkShared ex_before (WatchSet.init (K:=RunID)) ∅ false Looping.
Definition ex_asleep : shared := turns "r" false 3 ex_call.
Definition ex_ended : shared := mkShared ex_after (sh_watch ex_asleep) {["r"]} false (sh_waiter ex_asleep).
Definition ex_notified : shared :=
  mkShared ex_after (WatchSet.Notify (sh_watch ex_asleep) "r") ∅ false (sh_waiter ex_asleep).
Definition ex_woken : shared :=
  with_watch (match WatchSet.close (sh_watch ex_notified) 0 with Some ws => ws | None => sh_watch ex_notified end)
    ex_notified.
Lemma turns_among id in_attempt n (y : shared (S:=MemStore.MemStore)) :
  rtc (among id in_attempt) y (turns id in_attempt n y).
Proof.
  revert y; induction n as [|n IH]; intros y; [done|]. cbn [turns].
  destruct (wait_turn _ _ _ y) as [y'|] eqn:Ht; [|done]. eapply rtc_l; [by eapply a_wait|apply IH].
Qed.
Lemma Wait_correct_witness :
  sh_waiter ex_asleep = Sleeping 0 ∧ sh_waiter ex_woken = Sleeping 0 ∧
  (∃ ch r, sh_waiter (turns "r" false 5 ex_woken) = Gone ch r ∧ r = Ok (mkResult (Some OutcomeSuccess) None)).
Proof.
  assert (rtc (among "r" false) ex_call ex_woken) as Hst.
  { etrans; [apply (turns_among "r" false 3)|]. eapply rtc_l; [apply a_others, (o_world ex_asleep ex_after {["r"]})|].
    - set_solver.
    - intros run Hr. destruct (decide (run = "r")) as [->|Hne]; [right; set_solver|left].
      unfold ended. cbn [GetRunHead MemStore.MemStore_Store]. unfold mem_GetRunHead.
      replace (mem_runs (w_store (sh_world ex_asleep))) with ({["r" := sample_run "r" "p" "x"]} : gmap RunID RunRecord)
        by (vm_compute; reflexivity).
      by rewrite lookup_singleton_ne.
    - intros run [ie Hi]. by vm_compute in Hi.
    - eapply rtc_l; [apply a_others, (o_notify _ "r")|]. apply rtc_once, a_others.
      apply (o_close ex_notified 0); vm_compute; [by left|reflexivity]. }
  destruct (Wait_correct "r" false ex_call ex_woken (WatchSet.watch_reach_ok _ WatchSet.reach_init) eq_refl Hst)
    as (_ & _ & _ & Hret).
  split; [vm_compute; reflexivity|]. split; [vm_compute; reflexivity|].
  destruct Hret as (ch & r & Hr); [left; vm_compute; reflexivity|vm_compute; set_solver|].
  exists ch, r. split; [exact Hr|]. vm_compute in Hr. by injection Hr as <- <-.
Defined.
