(* ===== verification/Stranded.v ===== *)
(** * Stranded: runs left without a wake, and a cause that comes too late
    (engine/pipeline.go, Schedule; engine/engine.go, processRun, preemptedBy)

    Concrete runs of the model: an admission that [Schedule] takes back frees room
    in a run class and nobody is told, and a terminal commit that the store refuses
    is not tried again.  Then, for any state: a preemption after the shutdown is not
    seen by the attempt. *)
From S2P Require Import Signals TokenPool RunPool JoinSet MemStore Binding.
From S2P Require Import Prelude Kernel Text Errors Ledger Driver Engine Sample Api.
#[local] Open Scope engine_scope.

(** ** An admission taken back *)

Definition ex_config : Binding.Config (H:=script) := sample_config "p" "c" (Succeeds "s") (Succeeds "").
Definition ex_engine : Engine.Config (S:=MemStore) (H:=script) := sample ex_config.

Definition later (n : Z) (w : W) : W :=
  mkWorld (w_store w) (w_now w + n) (w_pool w) (w_runs w) (w_joins w) (w_timers w)
    (w_nextTimer w) (w_invalid w) (w_attempts w) (w_pendingPreempt w) (w_dirty w)
    (w_stopped w) (w_draining w) (w_trace w).
(** In the year 2025. *)
Definition ex_now : Z := (63871000000 * second)%Z.

(** A run of resource "x" that started, in the class "c" of two, after recovery. *)
Definition ex_started : W :=
  (recover ex_engine (later ex_now (world_of
     (store_with [set_StartedAt 500 (sample_run "old" "p" "x")]) ∅ {["c" := 2%Z]}))).1.

Definition dispatches (tr : list event) : list (RunID * Duration) :=
  omap (λ e, match e with EvDispatch id d => Some (id, d) | _ => None end) tr.

Section interleaving.
Context (d : Binding.boundDef (H:=script)).
Definition equal_inputs (_ : PipelineID) (_ _ : bytes) : result string bool := Ok true.

(** One goroutine schedules on resource "x" and is admitted; another schedules run [b]
    on "y", whose worker finds the class full and parks; then the first finds "x"
    taken, and takes its admission back: the run [b], what its worker returned, the
    worlds before and after the last part, and the first goroutine's answer. *)
Definition interleaved
    : option (RunID * option (Duration * bool) * W * W * result ScheduleError (RunID * bool)) :=
  match schedule_record ex_engine d "x" None [] [] (w_now ex_started) with
  | Err _ => None
  | Ok rec =>
    let '(w1, a) := schedule_admit ex_engine d rec ex_started in
    let '(w2, b) := Schedule ex_engine equal_inputs d "y" None [] [] (later 1 w1) in
    match a, b with
    | Ok admitted, Ok (b, _) =>
      let '(w3, parked) := processRun ex_engine 9 b w2 in
      let '(w4, res) := schedule_create d rec w3 in
      let '(w5, answer) := schedule_settle equal_inputs d rec admitted res w4 in
      Some (b, parked, w3, w5, answer)
    | _, _ => None
    end
  end.
End interleaving.


(** [Schedule] ignores the run that RunPool.Release hands it to wake.  In this
    interleaving a created run ends up parked at the head of a run class with room
    for it, its worker gone, and no wake of it is left: the taken-back admission was
    what it waited for, and the second half of [Schedule] emits no dispatch. *)
Theorem Schedule_strands_waiter :
  match definition ex_engine "p" ≫= interleaved with
  | Some (b, parked, w3, w5, answer) =>
    parked = Some (0%Z, false) ∧ answer = Ok ("old", false) ∧
    RunPool.ParkedOn (w_runs w5) b = Some "c" ∧
    p_classes (w_runs w5) !! "c" ≫= RunPool.head = Some b ∧
    dispatches (w_trace w5) = dispatches (w_trace w3) ∧
    snd <$> RunPool.Release (w_runs w3) "run63871000000000005000" = Some (Some b)
  | None => False
  end.
Proof. vm_compute. split_and!; reflexivity. Qed.

(** ** A terminal commit refused *)

(** The in-memory store on a medium that fails to commit some transitions. *)
Record Flaky := mkFlaky { fl_store : MemStore; fl_fails : Transition → bool }.
Definition on_store {A} (f : Flaky) (r : MemStore * result StoreError A)
    : Flaky * result StoreError A := (mkFlaky r.1 (fl_fails f), r.2).
#[export] Instance Flaky_Store : Store Flaky := {
  CreateRun f rec ps := on_store f (mem_CreateRun (fl_store f) rec ps);
  GetRun f id := mem_GetRun (fl_store f) id;
  GetRunHead f id := mem_GetRunHead (fl_store f) id;
  ApplyTransition f id t :=
    if fl_fails f t then (f, Err (ErrStore "disk")) else on_store f (mem_ApplyTransition (fl_store f) id t);
  ReapTerminal f t n := on_store f (mem_ReapTerminal (fl_store f) t n);
  RequestCancel f id r := on_store f (mem_RequestCancel (fl_store f) id r);
  ListNonterminal f := mem_ListNonterminal (fl_store f);
  GetActiveRunID f p r := mem_GetActiveRunID (fl_store f) p r;
}.

Definition flaky_call (h : script) (inv : Invocation) (w : World Flaky) : World Flaky * outcome :=
  (w, mkOutcome None (MsgBytes "s") None None).
Definition flaky_engine : Engine.Config (S:=Flaky) (H:=script) :=
  mkEngineConfig 4096 second 0 ∅ (registry_of (sample_config "p" "" (Succeeds "s") (Succeeds "")))
    flaky_call (λ _ _, mkReduceOutcome None MsgNil None) (λ _ _, mkReduceOutcome None MsgNil None)
    (λ _, second) (λ _, "").
Definition flaky_world (fails : Transition → bool) : World Flaky :=
  mkWorld (mkFlaky (store_with [sample_run "r" "p" "x"]) fails) 5000 (TokenPool.New ∅)
    (RunPool.New ∅) js_empty ∅ 0 ∅ ∅ ∅ ∅ false false [].

(** A store failure on the commit of a reservation or a resolution is tried again
    after a second, but one on the terminal commit is not: the worker returns as if
    the run were invalid, though it is neither ended nor marked invalid, and nothing
    will dispatch it again. *)
Theorem terminal_commit_not_retried :
  (processRun flaky_engine 9 "r" (flaky_world (λ t, bool_decide (T_Outcome t = None)))).2 =
    Some (second, true) ∧
  let '(w, res) := processRun flaky_engine 9 "r" (flaky_world (λ t, bool_decide (T_Outcome t ≠ None))) in
  res = Some (0%Z, false) ∧ (λ r, Terminal r) <$> mem_runs (fl_store (w_store w)) !! "r" = Some false ∧
  w_invalid w = ∅ ∧ w_stopped w = false ∧ dispatches (w_trace w) = [].
Proof. vm_compute. split_and!; reflexivity. Qed.

(** ** A preemption after the shutdown *)

(** When [Stop] has canceled the base context, the cause of an attempt in flight stays
    the shutdown: a later preemption of the run leaves no trace in it. *)
Theorem first_cause_wins {S} (w : World S) id cause a :
  w_attempts w !! id = Some a → at_cause a = None →
  (λ a, (preemptedBy (at_cause a), stoppedBy (at_cause a))) <$>
    w_attempts (preemptAttempt id cause (cancelBase w).1).1 !! id = Some (None, true).
Proof.
  intros Ha Hc. unfold preemptAttempt, cancelBase, modify. cbn.
  rewrite lookup_fmap, Ha. cbn. destruct a as [ph c]. cbn in Hc. subst c. cbn.
  case_bool_decide; cbn; [by rewrite lookup_insert_eq|by rewrite lookup_fmap, Ha].
Qed.
