(* ===== verification/Usage.v ===== *)
(** * Usage: what the engine's options, retention, recovery and scheduling promise
    (engine/engine.go, engine/pipeline.go), on the in-memory store where a store is
    needed *)
From S2P Require Import Signals TokenPool RunPool JoinSet MemStore Binding.
From S2P Require Import Prelude Kernel Text Errors Ledger Driver Engine Sample Api.
#[local] Open Scope engine_scope.

Definition ex_config := sample_config "p" "" (Succeeds "s") (Succeeds "").

(** ** Options *)

Definition positive (m : gmap string Z) : Prop := map_Forall (λ _ n, (0 < n)%Z) m.
Record valid_options (e : Options) : Prop := {
  vo_concurrency : (0 <= op_concurrency e)%Z;
  vo_backoff : (0 <= op_recoveryBackoff e)%Z;
  vo_terminalAfter : (0 <= op_terminalAfter e)%Z;
  vo_interval : (0 < op_terminalAfter e)%Z → (0 < op_interval e)%Z;
  vo_drain : (0 <= op_drainTimeout e)%Z;
  vo_text : (0 < op_textLimit e)%Z;
  vo_classes : positive (op_classCapacity e);
  vo_runClasses : positive (op_runClassCapacity e);
  vo_queues : positive (op_runClassQueue e);
  vo_queued_class : dom (op_runClassQueue e) ⊆ dom (op_runClassCapacity e);
  vo_named : op_classCapacity e !! "" = None ∧ op_runClassCapacity e !! "" = None;
}.

Lemma default_valid : valid_options default_options.
Proof. constructor; simpl; try lia; try done; try apply map_Forall_empty; set_solver. Qed.

Lemma positive_insert m k n : positive m → (0 < n)%Z → positive (<[k := n]> m).
Proof. intros Hm Hn. by apply map_Forall_insert_2. Qed.

Lemma named_ne name : named name = true → name ≠ "".
Proof. unfold named. intros Hn%negb_true_iff. by apply bool_decide_eq_false_1 in Hn. Qed.

Lemma set_option_valid e o : valid_options e → valid_options (set_option e o).
Proof.
  intros Hv. destruct e. unfold set_option.
  destruct o; repeat match goal with
    | |- context [if ?b then _ else _] => destruct b eqn:?; try done
    end; destruct Hv as [? ? ? ? ? ? ? ? ? ? [? ?]]; simpl in *; unfold second in *; zbool;
    repeat match goal with H : _ && _ = true |- _ => apply andb_true_iff in H as [? ?] end;
    repeat match goal with H : named _ = true |- _ => apply named_ne in H end; zbool;
    constructor; simpl; auto using positive_insert; try lia;
    try (rewrite ?lookup_insert_ne by done; done); rewrite ?dom_insert_L; set_solver.
Qed.

(** Whatever options an engine is built with, its configuration is usable: no
    negative duration, a positive text limit, a positive retention interval whenever
    retention is on, positive class capacities and queue bounds, and a queue bound
    only for a declared, named run class.  A bad option leaves the previous value. *)
Theorem configure_valid opts : valid_options (configure opts).
Proof.
  unfold configure. generalize default_valid. generalize default_options.
  induction opts as [|o opts IH]; intros e He; [done|]. by apply IH, set_option_valid.
Qed.

(** ** Retention *)

(** A run that retention removes. *)
Definition stale (cutoff : Time) (r : RunRecord) : bool :=
  Terminal r && Before (Run_UpdatedAt r) cutoff.
Definition kept_runs (cutoff : Time) (runs : gmap RunID RunRecord) : gmap RunID RunRecord :=
  filter (λ e, stale cutoff e.2 = false) runs.

Lemma kept_delete cutoff runs id r :
  runs !! id = Some r → stale cutoff r = true →
  kept_runs cutoff (delete id runs) = kept_runs cutoff runs ∧ size (delete id runs) + 1 = size runs.
Proof.
  intros Hr Hs. split.
  - unfold kept_runs. rewrite map_filter_delete. apply delete_id, map_lookup_filter_None_2.
    right. intros r' Hr'. simplify_eq/=. by rewrite Hs.
  - rewrite map_size_delete_Some by (by eexists). assert (size runs ≠ 0); [|lia].
    intros Hz. apply map_size_empty_inv in Hz. by rewrite Hz, lookup_empty in Hr.
Qed.

(** One batch removes stale runs only, up to its limit, and all of them below it. *)
Lemma reap_in_batch ord cutoff limit : ∀ runs n runs' n',
  NoDup ord.*1 → (∀ id r, (id, r) ∈ ord → runs !! id = Some r) → (n <= limit)%Z →
  reap_in ord cutoff limit runs n = (runs', n') →
  (n <= n' <= limit)%Z ∧ Z.of_nat (size runs) = (Z.of_nat (size runs') + (n' - n))%Z ∧
  kept_runs cutoff runs' = kept_runs cutoff runs ∧
  ((n' < limit)%Z → ∀ id r, (id, r) ∈ ord → stale cutoff r = true → runs' !! id = None).
Proof.
  induction ord as [|[id r] ord IH]; intros runs n runs' n' Hnd Hord Hn; simpl.
  { intros [= <- <-]. split; [lia|]. split; [lia|]. split; [done|]. intros _ ? ? Hx. set_solver. }
  apply NoDup_cons in Hnd as [Hid Hnd]. case_match eqn:Hl.
  { intros [= <- <-]. zbool. repeat split; try lia. }
  fold (stale cutoff r). destruct (stale cutoff r) eqn:Hs; intros Hr; zbool.
  - assert (runs !! id = Some r) as Hid' by (apply Hord; by left).
    destruct (kept_delete cutoff runs id r Hid' Hs) as [Hk Hsz].
    assert (∀ id' r', (id', r') ∈ ord → delete id runs !! id' = Some r') as Hord'.
    { intros id' r' Hin. rewrite lookup_delete_ne; [apply Hord; by right|].
      intros ->. apply Hid. by apply (list_elem_of_fmap_2 fst _ (id', r')). }
    pose proof (reap_in_spec _ _ _ _ _ _ _ Hr ltac:(intros ? ? ?; left; by apply Hord')) as [Hsub _].
    apply IH in Hr as (Hb & Hsize & Hkept & Hall); [|done|done|lia].
    split; [lia|]. split; [lia|]. split; [congruence|]. intros Hlt id' r' [Hx|Hx]%elem_of_cons Hst.
    + simplify_eq. destruct (runs' !! id) as [x|] eqn:Hx'; [|done].
      pose proof (lookup_weaken _ _ _ _ Hx' Hsub) as Hx. by rewrite lookup_delete_eq in Hx.
    + by eapply Hall.
  - apply IH in Hr as (Hb & Hsize & Hkept & Hall); [|done| |lia].
    2:{ intros id' r' Hin. apply Hord. by right. }
    split; [lia|]. split; [lia|]. split; [done|]. intros Hlt id' r' [Hx|Hx]%elem_of_cons Hst.
    + simplify_eq. congruence.
    + by eapply Hall.
Qed.

Lemma kept_all cutoff runs :
  (∀ id r, runs !! id = Some r → stale cutoff r = false) → kept_runs cutoff runs = runs.
Proof.
  intros Hall. apply map_eq. intros id. unfold kept_runs. destruct (runs !! id) as [r|] eqn:Hr.
  - apply map_lookup_filter_Some_2; [done|]. simpl. by eapply Hall.
  - apply map_lookup_filter_None_2. by left.
Qed.

Lemma sweep_loop_complete fuel cutoff : ∀ (w : World MemStore) total,
  size (mem_runs (w_store w)) < fuel * 256 →
  let runs := mem_runs (w_store w) in
  ∃ w', sweep_loop fuel cutoff total w =
      (w', Some (total + (Z.of_nat (size runs) - Z.of_nat (size (kept_runs cutoff runs))))%Z) ∧
    w_store w' = mkMem (kept_runs cutoff runs) (mem_slots (w_store w)) (mem_inflight (w_store w)).
Proof.
  induction fuel as [|fuel IH]; intros w total Hsz runs; [lia|].
  simpl. unfold bind at 1, get. simpl. unfold mem_ReapTerminal, mem_ReapTerminal_in. fold runs.
  destruct (reap_in _ _ _ _ _) as [runs' n] eqn:Hr.
  assert (∀ id r, (id, r) ∈ map_to_list runs → runs !! id = Some r) as Hord
    by (intros id r; apply elem_of_map_to_list).
  pose proof Hr as Hsub. apply reap_in_spec in Hsub as [Hsub _]; [|intros id r Hin; left; by apply Hord].
  apply reap_in_batch in Hr as (Hb & Hsize & Hkept & Hall);
    [|apply NoDup_fst_map_to_list|done|unfold reap_batch; lia].
  unfold bind at 1, modify. unfold bind at 1.
  set (w1 := set_store _ w). unfold reap_batch in *.
  assert (∃ w2, (if (0 <? n)%Z then emit (EvRunsReaped n) else mret ()) w1 = (w2, tt) ∧
    w_store w2 = mkMem runs' (mem_slots (w_store w)) (mem_inflight (w_store w))) as (w2 & -> & Hw2).
  { case_match; by eexists. }
  case_match eqn:Hlt; zbool.
  - assert (kept_runs cutoff runs' = runs') as Hk'.
    { apply kept_all. intros id r Hid. destruct (stale cutoff r) eqn:Hst; [|done].
      rewrite (Hall Hlt id r) in Hid; [done| |done]. apply elem_of_map_to_list.
      by eapply lookup_weaken. }
    rewrite Hk' in Hkept. rewrite <-Hkept. exists w2. split; [|exact Hw2].
    unfold mret, M_ret. do 2 f_equal. lia.
  - assert (size runs' < fuel * 256) as Hsz' by (fold runs in Hsz; lia).
    specialize (IH w2 (total + n)%Z). rewrite Hw2 in IH. cbn [mem_runs mem_slots mem_inflight] in IH.
    destruct (IH Hsz') as (w3 & -> & Hw3). exists w3. rewrite Hkept in *. split; [|done].
    do 2 f_equal. lia.
Qed.

(** A retention sweep ends, and is complete: on a store of fewer than 256 runs per
    allowed batch it removes exactly the terminal runs last updated before the cutoff,
    across as many batches as needed, reports their number, and touches nothing else. *)
Theorem sweep_complete {H} (cfg : Config (S:=MemStore) (H:=H)) fuel (w : World MemStore) :
  let runs := mem_runs (w_store w) in
  let cutoff := TimeAdd (w_now w) (- e_terminalAfter cfg) in
  size runs < fuel * 256 →
  (sweepRetention cfg fuel w).2 =
    Some (Z.of_nat (size runs) - Z.of_nat (size (kept_runs cutoff runs)))%Z ∧
  w_store (sweepRetention cfg fuel w).1 =
    mkMem (kept_runs cutoff runs) (mem_slots (w_store w)) (mem_inflight (w_store w)).
Proof.
  intros runs cutoff Hsz. destruct (sweep_loop_complete fuel cutoff w 0 Hsz) as (w' & Heq & Hw').
  change (sweepRetention cfg fuel w) with (sweep_loop fuel cutoff 0 w). by rewrite Heq.
Qed.

Definition ex_done : RunRecord :=
  set_Outcome (Some OutcomeSuccess) (set_Phase PhaseDone (sample_run "d" "p" "y")).
Definition ex_mixed : W := sample_world [sample_run "r" "p" "x"; ex_done].
Lemma sweep_complete_witness :
  (sweepRetention (base ex_config) 1 ex_mixed).2 = Some 1%Z ∧
  dom (mem_runs (w_store (sweepRetention (base ex_config) 1 ex_mixed).1)) = {["r"]}.
Proof.
  destruct (sweep_complete (base ex_config) 1 ex_mixed) as [H1 H2].
  - vm_compute. lia.
  - rewrite H1, H2. split; vm_compute; reflexivity.
Defined.

(** ** Recovery *)

#[export] Instance string_le_total_order : TotalOrder String.le.
Proof.
  split; [apply _|]. intros x y. destruct (decide (x = y)) as [->|Hne]; [right; by left|].
  destruct (total String.le x y) as [Hle|Hle]; [left|right; right];
    (split; [done|]; intros Hle'; apply Hne; by apply (anti_symm String.le)).
Qed.

Abbreviation run_pool := (RunPool.Pool (K:=string) (W:=RunID) (O:=string)).

Section recover.
Context {S H : Type} `{Store S} (cfg : Config (S:=S) (H:=H)).
Context (capacity : gmap string Z).
Implicit Types (rec : RunRecord) (recs : list RunRecord) (p : run_pool).

(** The class a run counts in: that of its pipeline, when it has a capacity. *)
Definition class_of rec : option string :=
  let rc := runClassOf cfg (Run_PipelineID rec) in
  if bool_decide (rc = "") then None else (λ _, rc) <$> capacity !! rc.
Definition has_started rec : bool := negb (IsZero (Run_StartedAt rec)).
(** The runs of a class that started, and those that have not. *)
Definition in_class (b : bool) (k : string) recs : list RunRecord :=
  filter (λ rec, class_of rec = Some k ∧ has_started rec = b) recs.
Definition place rec : RunID * string := (Run_RunID rec, eligibilityKey rec).
Definition listed (b : bool) recs (id : RunID) (k : string) : Prop :=
  ∃ rec, rec ∈ in_class b k recs ∧ Run_RunID rec = id.

(** The pool that runs [recs] make: the started ones hold their tokens, the others wait
    in line by their eligibility. *)
Record pool_of recs p : Prop := {
  po_capacity : RunPool.p_capacity p = capacity;
  po_holders id k : p_holders p !! id = Some k ↔ listed true recs id k;
  po_pending id k : p_pending p !! id = Some k ↔ listed false recs id k;
  po_quiet : p_parked p = ∅ ∧ p_sidelined p = ∅;
  po_class k c : p_classes p !! k = Some c →
    capacity !! k = Some (RunPool.c_capacity c) ∧ c_sidelined c = 0%Z ∧
    c_inUse c = Z.of_nat (length (in_class true k recs)) ∧
    c_line c ≡ₚ place <$> in_class false k recs ∧ StronglySorted (RunPool.line_le String.le) (c_line c);
  po_classes k rec : rec ∈ recs → class_of rec = Some k → is_Some (p_classes p !! k);
}.

Lemma pool_of_New : pool_of [] (RunPool.New capacity).
Proof.
  constructor; try done.
  - intros id k. cbn. rewrite lookup_empty. split; [done|]. intros (rec & []%not_elem_of_nil & _).
  - intros id k. cbn. rewrite lookup_empty. split; [done|]. intros (rec & []%not_elem_of_nil & _).
  - intros k rec []%not_elem_of_nil.
Qed.

Lemma in_class_snoc b k recs rec :
  in_class b k (recs ++ [rec]) =
    in_class b k recs ++ (if decide (class_of rec = Some k ∧ has_started rec = b) then [rec] else []).
Proof. unfold in_class. by rewrite filter_app, filter_cons, filter_nil. Qed.
Lemma listed_snoc b recs rec id k :
  listed b (recs ++ [rec]) id k ↔
    listed b recs id k ∨ (class_of rec = Some k ∧ has_started rec = b ∧ Run_RunID rec = id).
Proof.
  unfold listed. setoid_rewrite in_class_snoc. setoid_rewrite elem_of_app. split.
  - intros (rec' & [Hin|Hin] & <-); [left; by exists rec'|right].
    case_decide as Hd; [|by apply not_elem_of_nil in Hin]. apply list_elem_of_singleton in Hin as ->. by destruct Hd.
  - intros [(rec' & Hin & <-)|(Hc & Hs & <-)]; [exists rec'; auto|]. exists rec. split; [right|done].
    rewrite decide_True by done. by left.
Qed.
Lemma listed_run b recs id k : listed b recs id k → id ∈ Run_RunID <$> recs.
Proof. intros (rec & [_ Hin]%list_elem_of_filter & <-). by apply list_elem_of_fmap_2. Qed.

(** A run without a class leaves no trace in the pool. *)
Lemma pool_of_classless recs p rec : class_of rec = None → pool_of recs p → pool_of (recs ++ [rec]) p.
Proof.
  intros Hc [H1 H2 H3 H4 H5 H6].
  assert (∀ b k, in_class b k (recs ++ [rec]) = in_class b k recs) as Hin.
  { intros b k. rewrite in_class_snoc, decide_False, app_nil_r by (first [done|by intros [??]; congruence|split; congruence]). done. }
  assert (∀ b id k, listed b (recs ++ [rec]) id k ↔ listed b recs id k) as Hl.
  { intros b id k. unfold listed. by rewrite Hin. }
  constructor; [done| | |done| |].
  - intros id k. by rewrite Hl.
  - intros id k. by rewrite Hl.
  - intros k c Hk. rewrite !Hin. by apply H5.
  - intros k r [Hr|Hr%list_elem_of_singleton]%elem_of_app Hk; [by eapply H6|congruence].
Qed.

(** The class of a run that has one, made on first use. *)
Lemma classFor_pool recs p rec k :
  class_of rec = Some k → pool_of recs p →
  ∃ q c, RunPool.classFor p k = Some (q, c) ∧ pool_of recs q ∧ p_classes q !! k = Some c.
Proof.
  intros Hc [H1 H2 H3 H4 H5 H6]. unfold RunPool.classFor. rewrite H1.
  assert (∃ cap, capacity !! k = Some cap) as [cap Hcap].
  { unfold class_of in Hc. case_bool_decide; [done|]. destruct (capacity !! _) eqn:E; [|done].
    injection Hc as <-. by eexists. }
  rewrite Hcap. destruct (p_classes p !! k) as [c|] eqn:Hk.
  { exists p, c. split; [done|]. split; [|done]. by constructor. }
  eexists _, _. split; [done|]. split; [|apply lookup_insert_eq]. constructor; [done|done|done|done| |].
  - intros k' c. cbn. rewrite lookup_insert_Some. intros [[<- <-]|[_ Hk']]; [|by apply H5].
    assert (∀ b, in_class b k recs = []) as Hno.
    { intros b. destruct (in_class b k recs) as [|r l] eqn:E; [done|].
      assert (r ∈ in_class b k recs) as Hr by (rewrite E; left). exfalso.
      apply list_elem_of_filter in Hr as [[Hcr _] Hin]. destruct (H6 k r Hin Hcr). congruence. }
    rewrite !Hno. cbn. split_and!; [done|done|done|done|constructor].
  - intros k' r Hr Hk'. cbn. apply lookup_insert_is_Some'. right. by eapply H6.
Qed.

Lemma admit_recovers recs p rec k :
  class_of rec = Some k → has_started rec = false → Run_RunID rec ∉ Run_RunID <$> recs → pool_of recs p →
  pool_of (recs ++ [rec]) (RunPool.Admit String.le p k (Run_RunID rec) (eligibilityKey rec) 0).1.
Proof.
  intros Hc Hs Hnew Hp. unfold RunPool.Admit.
  destruct (classFor_pool recs p rec k Hc Hp) as (q & c & -> & [H1 H2 H3 H4 H5 H6] & Hk).
  assert (p_holders q !! Run_RunID rec = None ∧ p_pending q !! Run_RunID rec = None) as [Hh Hpe].
  { split; [destruct (p_holders q !! Run_RunID rec) as [k'|] eqn:E|destruct (p_pending q !! Run_RunID rec) as [k'|] eqn:E];
      try done; destruct Hnew; eapply listed_run; [by apply H2|by apply H3]. }
  rewrite Hh, Hpe. do 2 (rewrite decide_False by (by intros [])). cbn [fst andb Z.ltb Z.compare].
  constructor; cbn [RunPool.p_capacity p_holders p_pending p_parked p_sidelined RunPool.p_classes RunPool.set_class].
  - done.
  - intros id k'. rewrite H2, listed_snoc. split; [by left|]. intros [?|(_ & E & _)]; [done|congruence].
  - intros id k'. rewrite lookup_insert_Some, H3, listed_snoc. split.
    + intros [[<- <-]|[Hne Hl]]; auto.
    + intros [Hl|(Hc' & _ & <-)]; [|left; split; [done|congruence]]. right. split; [|done].
      intros <-. destruct Hnew. by eapply listed_run.
  - done.
  - intros k' c'. rewrite lookup_insert_Some. intros [[<- <-]|[Hne Hk']].
    + destruct (H5 k c Hk) as (Hcap & Hsd & Huse & Hline & Hsort).
      rewrite !in_class_snoc, decide_False, decide_True, app_nil_r by (first [done|by intros [??]; congruence|split; congruence]).
      split_and!; [done|done|done| |apply (RunPool.insert_sorted String.le); exact Hsort].
      rewrite RunPool.insert_perm, fmap_app, Hline. cbn. by rewrite Permutation_cons_append.
    + destruct (H5 k' c' Hk') as (Hcap & Hsd & Huse & Hline & Hsort).
      rewrite !in_class_snoc, !decide_False, !app_nil_r by (first [done|by intros [??]; congruence|split; congruence]). done.
  - intros k' r [Hr|Hr%list_elem_of_singleton]%elem_of_app Hk'; cbn; apply lookup_insert_is_Some'.
    + right. by eapply H6.
    + left. congruence.
Qed.

Lemma hold_recovers recs p rec k :
  class_of rec = Some k → has_started rec = true → Run_RunID rec ∉ Run_RunID <$> recs → pool_of recs p →
  pool_of (recs ++ [rec]) (RunPool.Hold p k (Run_RunID rec)).
Proof.
  intros Hc Hs Hnew Hp. unfold RunPool.Hold.
  destruct (classFor_pool recs p rec k Hc Hp) as (q & c & -> & [H1 H2 H3 H4 H5 H6] & Hk).
  assert (p_holders q !! Run_RunID rec = None ∧ p_pending q !! Run_RunID rec = None) as [Hh Hpe].
  { split; [destruct (p_holders q !! Run_RunID rec) as [k'|] eqn:E|destruct (p_pending q !! Run_RunID rec) as [k'|] eqn:E];
      try done; destruct Hnew; eapply listed_run; [by apply H2|by apply H3]. }
  rewrite Hh, decide_False by (by intros []). unfold RunPool.forget. rewrite Hpe, decide_False by (by intros []).
  constructor; cbn [RunPool.p_capacity p_holders p_pending p_parked p_sidelined RunPool.p_classes].
  - done.
  - intros id k'. rewrite lookup_insert_Some, H2, listed_snoc. split.
    + intros [[<- <-]|[Hne Hl]]; auto.
    + intros [Hl|(Hc' & _ & <-)]; [|left; split; [done|congruence]]. right. split; [|done].
      intros <-. destruct Hnew. by eapply listed_run.
  - intros id k'. rewrite H3, listed_snoc. split; [by left|]. intros [?|(_ & E & _)]; [done|congruence].
  - done.
  - intros k' c'. rewrite lookup_insert_Some. intros [[<- <-]|[Hne Hk']].
    + destruct (H5 k c Hk) as (Hcap & Hsd & Huse & Hline & Hsort).
      rewrite !in_class_snoc, decide_True, decide_False, app_nil_r by (first [done|by intros [??]; congruence|split; congruence]).
      split_and!; [done|done| |done|done]. cbn. rewrite Huse, length_app. cbn. lia.
    + destruct (H5 k' c' Hk') as (Hcap & Hsd & Huse & Hline & Hsort).
      rewrite !in_class_snoc, !decide_False, !app_nil_r by (first [done|by intros [??]; congruence|split; congruence]). done.
  - intros k' r [Hr|Hr%list_elem_of_singleton]%elem_of_app Hk'; cbn; apply lookup_insert_is_Some'.
    + right. by eapply H6.
    + left. congruence.
Qed.

Lemma recover_class_pool recs rec (w : World S) :
  Run_RunID rec ∉ Run_RunID <$> recs → pool_of recs (w_runs w) →
  let w' := (recover_class cfg rec w).1 in
  w' = set_runs (w_runs w') w ∧ pool_of (recs ++ [rec]) (w_runs w').
Proof.
  intros Hnew Hp. unfold recover_class. destruct (class_of rec) as [k|] eqn:Hc.
  - pose proof Hc as Hk. unfold class_of in Hk. case_bool_decide; [done|].
    destruct (capacity !! _) eqn:Hcap; [|done]. injection Hk as Hk. rewrite Hk.
    destruct (IsZero (Run_StartedAt rec)) eqn:Hz; cbn; (split; [done|]).
    + apply admit_recovers; [done| |done|done]. unfold has_started. by rewrite Hz.
    + apply hold_recovers; [done| |done|done]. unfold has_started. by rewrite Hz.
  - pose proof Hc as Hk. unfold class_of in Hk. case_bool_decide; cbn.
    { split; [by destruct w|]. by apply pool_of_classless. }
    destruct (capacity !! _) eqn:Hcap; [done|].
    assert (RunPool.classFor (w_runs w) (runClassOf cfg (Run_PipelineID rec)) = None) as Hno.
    { unfold RunPool.classFor. by rewrite (po_capacity _ _ Hp), Hcap. }
    destruct (IsZero _); cbn; unfold RunPool.Admit, RunPool.Hold; rewrite Hno; cbn;
      (split; [done|by apply pool_of_classless]).
Qed.
Lemma recover_classes_pool recs : ∀ done (w : World S),
  NoDup (Run_RunID <$> done ++ recs) → pool_of done (w_runs w) →
  let w' := (for_each recs (recover_class cfg) w).1 in
  w' = set_runs (w_runs w') w ∧ pool_of (done ++ recs) (w_runs w').
Proof.
  induction recs as [|rec recs IH]; intros done w Hnd Hp; simpl.
  { rewrite app_nil_r. split; [by destruct w|done]. }
  assert (Run_RunID rec ∉ Run_RunID <$> done) as Hnew.
  { rewrite fmap_app in Hnd. apply NoDup_app in Hnd as (_ & Hd & _). intros Hin. apply (Hd _ Hin). by left. }
  destruct (recover_class_pool done rec w Hnew Hp) as [H1 H2]. unfold bind.
  destruct (recover_class cfg rec w) as [w1 []]. cbn [fst] in *.
  destruct (IH (done ++ [rec]) w1) as [J1 J2]; [by rewrite <-app_assoc|done|].
  rewrite <-app_assoc in J2. split; [|done]. rewrite J1.
  generalize (w_runs (for_each recs (recover_class cfg) w1).1). intros q. by rewrite H1.
Qed.

Lemma recover_dispatches recs : ∀ w : World S,
  (for_each recs (recover_dispatch cfg) w).1 =
    set_trace (w_trace w ++ ((λ rec, EvDispatch (Run_RunID rec)
      (if hasUnresolvedOp rec then e_recoveryBackoff cfg else 0%Z)) <$> recs)) w.
Proof.
  induction recs as [|rec recs IH]; intros w; simpl; [rewrite app_nil_r; by destruct w|].
  unfold bind. simpl. rewrite IH. cbn. by rewrite <-app_assoc.
Qed.

(** C28: starting an engine over a store recovers every unfinished run: each is dispatched
    exactly once, those with an attempt in flight after the recovery backoff and the
    others at once; and the pool of the run classes, new before, is exactly what the runs
    make it ([pool_of]): of the runs whose pipeline has a class with a capacity, those that
    had started hold a token each and count as in use, the others wait in the line of
    their class in the order of their eligibility, and no other run is in it.  Nothing
    else changes. *)
Theorem recover_correct (w : World S) recs :
  ListNonterminal (w_store w) = Ok recs → NoDup (Run_RunID <$> recs) →
  w_runs w = RunPool.New capacity →
  ∃ runs, recover cfg w =
      (set_trace (w_trace w ++ ((λ rec, EvDispatch (Run_RunID rec)
         (if hasUnresolvedOp rec then e_recoveryBackoff cfg else 0%Z)) <$> recs))
         (set_runs runs w), Ok tt) ∧
    pool_of recs runs.
Proof.
  intros Hl Hnd Hnew. unfold recover, bind at 1, get. rewrite Hl.
  destruct (recover_classes_pool recs [] w Hnd) as [H1 H2]; [rewrite Hnew; apply pool_of_New|]. unfold bind.
  destruct (for_each recs (recover_class cfg) w) as [w1 []]. cbn [fst app] in *.
  exists (w_runs w1). split; [|done]. pose proof (recover_dispatches recs w1) as Hd.
  destruct (for_each recs (recover_dispatch cfg) w1) as [w2 []]. simpl in Hd. subst w2.
  unfold mret, M_ret. rewrite H1 at 2. f_equal. by rewrite H1.
Qed.
End recover.

Definition ex_classy : Binding.Config (H:=script) :=
  sample_config "p" "c" (Succeeds "s") (Succeeds "").
(** Two runs of a class with two tokens, the first of them started. *)
Definition ex_recovering : W :=
  world_of (store_with [set_StartedAt 500 (sample_run "old" "p" "x"); sample_run "new" "p" "y"]) ∅ {["c" := 2%Z]}.
Lemma recover_correct_witness :
  w_trace (recover (sample ex_classy) ex_recovering).1 = [EvDispatch "old" 0; EvDispatch "new" 0] ∧
  let runs := w_runs (recover (sample ex_classy) ex_recovering).1 in
  p_holders runs !! "old" = Some "c" ∧ p_holders runs !! "new" = None ∧ p_pending runs !! "new" = Some "c".
Proof.
  split; [vm_compute; reflexivity|].
  destruct (ListNonterminal (w_store ex_recovering)) as [recs|e] eqn:Hl; [|vm_compute in Hl; discriminate Hl].
  assert (NoDup (Run_RunID <$> recs)) as Hnd.
  { vm_compute in Hl. injection Hl as <-. by apply (bool_decide_unpack _). }
  destruct (recover_correct (sample ex_classy) {["c" := 2%Z]} ex_recovering recs Hl Hnd eq_refl)
    as (runs & Hr & [_ Hh Hp _ _ _]).
  vm_compute in Hl. injection Hl as Hl. rewrite Hr. cbn [fst w_runs set_trace set_runs].
  split; [|split].
  - apply Hh. exists (set_StartedAt 500 (sample_run "old" "p" "x")). split; [|done].
    apply list_elem_of_filter. split; [split; vm_compute; reflexivity|]. rewrite <-Hl.
    apply (bool_decide_unpack _). vm_compute. exact I.
  - destruct (p_holders runs !! "new") as [k|] eqn:E; [|done]. apply Hh in E as (rec & [[_ Hs] Hin]%list_elem_of_filter & Hid).
    exfalso. rewrite <-Hl in Hin. apply elem_of_cons in Hin as [->|Hin]; [discriminate Hid|].
    apply elem_of_cons in Hin as [->|Hin]; [discriminate Hs|]. by apply not_elem_of_nil in Hin.
  - apply Hp. exists (sample_run "new" "p" "y"). split; [|done].
    apply list_elem_of_filter. split; [split; vm_compute; reflexivity|]. rewrite <-Hl.
    apply (bool_decide_unpack _). vm_compute. exact I.
Defined.
(** ** Scheduling *)

(** A pool in which every run has its class. *)
Definition pool_closed (p : run_pool) : Prop :=
  ∀ id k, p_holders p !! id = Some k ∨ p_pending p !! id = Some k → is_Some (p_classes p !! k).
(** The run is in no class. *)
Definition outside (p : run_pool) (id : RunID) : Prop := p_holders p !! id = None ∧ p_pending p !! id = None.

(** The class has as many members waiting as may wait; a bound of 0 is none. *)
Definition class_full (p : run_pool) (k : string) (max : Z) : bool :=
  bool_decide (is_Some (RunPool.p_capacity p !! k)) && (0 <? max)%Z &&
  (max <=? from_option RunPool.pendingCount 0 (p_classes p !! k))%Z.

(** An admission of a run in no class: refused when the class is full, with the members as
    they were, or the run pending. *)
Lemma Admit_outside (p : run_pool) k id order max :
  pool_closed p → outside p id →
  let '(q, admitted) := RunPool.Admit String.le p k id order max in
  pool_closed q ∧ RunPool.p_capacity q = RunPool.p_capacity p ∧ p_holders q = p_holders p ∧
  p_pending q = (if admitted && bool_decide (is_Some (RunPool.p_capacity p !! k))
                 then <[id := k]> (p_pending p) else p_pending p) ∧
  admitted = negb (class_full p k max) ∧ p_sidelined q = p_sidelined p.
Proof.
  intros Hcl [Hh Hp]. unfold RunPool.Admit, RunPool.classFor, class_full.
  destruct (RunPool.p_capacity p !! k) as [cap|] eqn:Hcap; [|rewrite andb_false_r; done].
  assert (∃ q c, match p_classes p !! k with
    | Some c => Some (p, c)
    | None => Some (RunPool.set_class p k (RunPool.mkClass cap 0 [] 0), RunPool.mkClass cap 0 [] 0)
    end = Some (q, c) ∧ pool_closed q ∧ RunPool.p_capacity q = RunPool.p_capacity p ∧
    p_holders q = p_holders p ∧ p_pending q = p_pending p ∧ p_sidelined q = p_sidelined p ∧
    RunPool.pendingCount c = from_option RunPool.pendingCount 0%Z (p_classes p !! k))
    as (q & c & Hq & Hcq & E1 & E2 & E3 & E4 & E5).
  { destruct (p_classes p !! k) as [c|]; eexists _, _; (split; [reflexivity|]); [done|].
    split; [|done]. intros id' k' Hm. cbn. apply lookup_insert_is_Some'. right. by eapply Hcl. }
  rewrite Hq, E2, E3, Hh, Hp, E1. do 2 (rewrite decide_False by (by intros [])).
  rewrite (bool_decide_true (is_Some _)) by (by eexists). cbn [andb]. rewrite <-E5.
  destruct ((0 <? max) && _)%Z eqn:Hm; cbn [andb negb]; [done|].
  - split_and!; [|done|done|done|done|done].
    intros id' k' Hm'. cbn in *. apply lookup_insert_is_Some'. rewrite lookup_insert_Some in Hm'.
    destruct (decide (k = k')); [by left|right]. apply (Hcq id'). rewrite E2, E3. naive_solver.
Qed.
(** The release of an admitted run leaves the other members. *)
Lemma Release_pending (p : run_pool) id :
  pool_closed p → p_holders p !! id = None →
  ∃ q k, RunPool.Release p id = Some (q, k) ∧ RunPool.p_capacity q = RunPool.p_capacity p ∧
    p_holders q = p_holders p ∧ p_pending q = delete id (p_pending p).
Proof.
  intros Hcl Hh. unfold RunPool.Release. rewrite Hh. destruct (p_pending p !! id) as [k|] eqn:Hp.
  - destruct (Hcl id k (or_intror Hp)) as [c ->]. unfold RunPool.forget. rewrite Hp, decide_True by (by eexists).
    by eexists _, _.
  - eexists _, _. split; [done|]. split; [done|]. split; [done|]. by rewrite delete_id.
Qed.

Section schedule.
Context {H : Type} (cfg : Config (S:=MemStore) (H:=H)).
Context (input_equal : PipelineID → bytes → bytes → result string bool).
Context (d : Binding.boundDef (H:=H)).

(** [Schedule] with what other goroutines do between its admission and its creation. *)
Definition Schedule_among (others : World MemStore → World MemStore) (resource : ResourceID)
    (input : option message) (annotators : list (gmap string string)) (opts : list ScheduleOption)
    : M MemStore (result ScheduleError (RunID * bool)) :=
  t ← now;
  match schedule_record cfg d resource input annotators opts t with
  | Err e => mret (Err e)
  | Ok rec =>
    a ← schedule_admit cfg d rec;
    match a with
    | Err e => mret (Err e)
    | Ok admitted =>
      modify others;;
      res ← schedule_create d rec; schedule_settle input_equal d rec admitted res
    end
  end.
Lemma Schedule_alone resource input annotators opts w :
  Schedule_among id resource input annotators opts w =
    Schedule cfg input_equal d resource input annotators opts w.
Proof.
  unfold Schedule_among, Schedule, bind, now, modify, id. destruct (schedule_record _ _ _ _ _ _ _); [|done].
  by destruct (schedule_admit _ _ _ _) as [w1 []].
Qed.

(** *** What is refused, and the run made of what is not *)

Definition bad_annotations (so : ScheduleOptions) : Prop :=
  ∃ k v, SO_Annotations so !! k = Some v ∧ (valid_text k = false ∨ valid_text v = false).
(** The input a pipeline takes: bytes when it declares one, none otherwise. *)
Definition takes (input : option message) (b : bytes) : Prop :=
  if Binding.C_NewInput (bd_cfg d) then ∃ x, input = Some (MsgBytes x) ∧ b = Some x
  else input = None ∧ b = None.
Definition refused (resource : ResourceID) (input : option message) (so : ScheduleOptions)
    (e : ScheduleError) : Prop :=
  match e with
  | NotStarted => started (e_defs cfg) = false
  | InvalidResource => started (e_defs cfg) = true ∧ invalidID resource = true
  | NilInput => started (e_defs cfg) = true ∧ invalidID resource = false ∧
      Binding.C_NewInput (bd_cfg d) = true ∧ (input = None ∨ input = Some MsgNil)
  | InputNotSerializable m => started (e_defs cfg) = true ∧ invalidID resource = false ∧
      Binding.C_NewInput (bd_cfg d) = true ∧ input = Some (MsgBad m)
  | InputNotDeclared => started (e_defs cfg) = true ∧ invalidID resource = false ∧
      Binding.C_NewInput (bd_cfg d) = false ∧ is_Some input
  | InvalidAnnotation => started (e_defs cfg) = true ∧ invalidID resource = false ∧
      (∃ b, takes input b) ∧ bad_annotations so
  | _ => False
  end.
Definition accepted (resource : ResourceID) (input : option message) (so : ScheduleOptions)
    (b : bytes) : Prop :=
  started (e_defs cfg) = true ∧ invalidID resource = false ∧ takes input b ∧ ¬ bad_annotations so.

Lemma check_input_spec input b : check_input d input = Ok b ↔ takes input b.
Proof.
  unfold check_input, takes. destruct (Binding.C_NewInput _).
  - destruct input as [[]|]; naive_solver.
  - destruct input; naive_solver.
Qed.
Lemma bad_annotations_spec so :
  existsb bad_annotation (map_to_list (SO_Annotations so)) = true ↔ bad_annotations so.
Proof.
  rewrite existsb_exists. unfold bad_annotations, bad_annotation. split.
  - intros ([k v] & Hin%list_elem_of_In%elem_of_map_to_list & Hb). exists k, v. split; [done|].
    cbn in Hb. apply negb_true_iff, andb_false_iff in Hb. done.
  - intros (k & v & Hin & Hb). exists (k, v). split; [by apply list_elem_of_In, elem_of_map_to_list|].
    cbn. by apply negb_true_iff, andb_false_iff.
Qed.
Lemma schedule_record_spec resource input annotators opts t :
  let so := schedule_options annotators opts in
  match schedule_record cfg d resource input annotators opts t with
  | Err e => refused resource input so e
  | Ok rec => ∃ b, accepted resource input so b ∧ rec = new_record cfg d resource b so t
  end.
Proof.
  intros so. unfold schedule_record, accepted, refused. destruct (started (e_defs cfg)); [|done]. cbn [negb].
  destruct (invalidID resource) eqn:Hr; [done|]. destruct (check_input d input) as [b|e] eqn:Hi.
  - fold so. pose proof (bad_annotations_spec so) as Hb. apply check_input_spec in Hi.
    destruct (existsb _ _); [split_and!; [done|done|by exists b|by apply Hb]|].
    exists b. split_and!; [done|done|done| |done]. intros Hx. by apply Hb in Hx.
  - unfold check_input in Hi. destruct (Binding.C_NewInput _); [|destruct input as [m|]];
      [destruct input as [[]|]| |]; simplify_eq; naive_solver.
Qed.

(** *** The run that holds the resource *)

Lemma occupant_of s ps resource id :
  mem_ok s → Forall nul_free ps → first_occupied s ps resource = Some id →
  ∃ r, mem_runs s !! id = Some r ∧ Run_RunID r = id ∧ Terminal r = false ∧
    Run_ResourceID r = resource ∧ Run_PipelineID r ∈ ps.
Proof.
  intros Hok Hnul (q & Hq & Hslot)%first_occupied_Some.
  destruct (ok_slot_run _ Hok _ _ Hslot) as (r & Hr & Ht & Hk). exists r.
  split; [done|]. split; [by eapply ok_id|]. split; [done|].
  apply slotKey_inj in Hk as [Hp Hres]; [|by eapply ok_pipeline|by eapply Forall_forall in Hnul].
  split; [done|]. by rewrite Hp.
Qed.

(** What the others may do meanwhile: anything to the store within its invariant and to
    the pool, but to the new run, which they do not know. *)
Record strangers (id : RunID) (others : World MemStore → World MemStore) : Prop := {
  sr_store w : mem_ok (w_store w) → mem_ok (w_store (others w));
  sr_pool w : pool_closed (w_runs w) → pool_closed (w_runs (others w));
  sr_capacity w : RunPool.p_capacity (w_runs (others w)) = RunPool.p_capacity (w_runs w);
  sr_holders w : p_holders (w_runs (others w)) !! id = p_holders (w_runs w) !! id;
  sr_pending w : p_pending (w_runs (others w)) !! id = p_pending (w_runs w) !! id;
}.

(** The answer for the run that holds the resource. *)
Definition held_answer (r : RunRecord) (b : bytes) : result ScheduleError (RunID * bool) :=
  let p := Binding.C_ID (bd_cfg d) in
  if bool_decide (Run_PipelineID r = p) then
    if Binding.C_NewInput (bd_cfg d) then
      match input_equal p (Run_Input r) b with
      | Ok true => Ok (Run_RunID r, false)
      | Ok false => Err (ScheduleConflict (Run_RunID r) p)
      | Err m => Err (InputNotDecodable (Run_RunID r) m)
      end
    else Ok (Run_RunID r, false)
  else Err (ScheduleConflict (Run_RunID r) (Run_PipelineID r)).

(** The admission, and the class the run is pending in once created. *)
Definition admission (rec : RunRecord) (p : run_pool) : run_pool * bool :=
  let rc := Binding.C_RunClass (bd_cfg d) in
  if bool_decide (rc = "") then (p, false)
  else RunPool.Admit String.le p rc (Run_RunID rec) (eligibilityKey rec)
         (map_get 0%Z (e_runClassQueue cfg) rc).
Definition counted (w : World MemStore) : bool :=
  let rc := Binding.C_RunClass (bd_cfg d) in
  negb (bool_decide (rc = "")) && bool_decide (is_Some (RunPool.p_capacity (w_runs w) !! rc)).

Lemma admission_spec rec (w : World MemStore) :
  pool_closed (w_runs w) → outside (w_runs w) (Run_RunID rec) →
  let rc := Binding.C_RunClass (bd_cfg d) in
  let '(q, admitted) := admission rec (w_runs w) in
  pool_closed q ∧ RunPool.p_capacity q = RunPool.p_capacity (w_runs w) ∧
  p_holders q = p_holders (w_runs w) ∧
  p_pending q = (if admitted && counted w then <[Run_RunID rec := rc]> (p_pending (w_runs w))
                 else p_pending (w_runs w)) ∧
  admitted = negb (bool_decide (rc = "")) &&
    negb (class_full (w_runs w) rc (map_get 0%Z (e_runClassQueue cfg) rc)).
Proof.
  intros Hcl Ho rc. unfold admission, counted. fold rc. case_bool_decide as Hrc; [done|]. cbn [negb andb].
  pose proof (Admit_outside (w_runs w) rc (Run_RunID rec) (eligibilityKey rec)
    (map_get 0%Z (e_runClassQueue cfg) rc) Hcl Ho) as Ha.
  destruct (RunPool.Admit _ _ _ _ _ _) as [q admitted]. by destruct Ha as (? & ? & ? & ? & ? & _).
Qed.

(** The end of [Schedule], once the creation has decided. *)
Lemma settle_created rec admitted (w : World MemStore) :
  pool_closed (w_runs w) → p_holders (w_runs w) !! Run_RunID rec = None →
  let rc := Binding.C_RunClass (bd_cfg d) in
  p_pending (w_runs w) !! Run_RunID rec = (if admitted && counted w then Some rc else None) →
  (admitted = true → rc ≠ "") →
  let '(w', res) := schedule_settle input_equal d rec admitted (Ok (None, true)) w in
  res = Ok (Run_RunID rec, true) ∧ w_store w' = w_store w ∧
  w_trace w' = w_trace w ++ [EvRunScheduled (Run_RunID rec); EvDispatch (Run_RunID rec) 0] ∧
  p_holders (w_runs w') = p_holders (w_runs w) ∧
  p_pending (w_runs w') = (if counted w then <[Run_RunID rec := rc]> (p_pending (w_runs w))
                           else p_pending (w_runs w)).
Proof.
  intros Hcl Hh rc Hp Hrc. unfold schedule_settle, settle_admission. fold rc.
  rewrite andb_false_r, andb_true_r. unfold bind, mret, M_ret, modify, emit, dispatch.
  destruct (negb (bool_decide (rc = "")) && negb admitted) eqn:Ha; cbn.
  - apply andb_true_iff in Ha as [Hn Ha]. apply negb_true_iff in Ha as ->. cbn in Hp.
    pose proof (Admit_outside (w_runs w) rc (Run_RunID rec) (eligibilityKey rec) 0 Hcl (conj Hh Hp)) as Had.
    destruct (RunPool.Admit _ _ _ _ _ _) as [q adm]. cbn. destruct Had as (_ & _ & E1 & E2 & Hfull & _).
    assert (class_full (w_runs w) rc 0 = false) as Hno by (unfold class_full; by rewrite andb_false_r).
    rewrite Hno in Hfull. subst adm.
    unfold counted. fold rc. rewrite Hn. cbn [andb] in *. split_and!; [done|done|by rewrite <-app_assoc|done|done].
  - split_and!; [done|done|by rewrite <-app_assoc|done|]. unfold counted in *. fold rc in Hp |- *.
    destruct (negb (bool_decide (rc = ""))) eqn:Hn; [|done]. cbn [andb] in *.
    apply negb_false_iff in Ha as ->. cbn [andb] in Hp. case_bool_decide; [|done]. by rewrite insert_id.
Qed.
Lemma settle_held rec r admitted (w : World MemStore) :
  pool_closed (w_runs w) → p_holders (w_runs w) !! Run_RunID rec = None →
  (admitted = false → p_pending (w_runs w) !! Run_RunID rec = None) →
  let '(w', res) := schedule_settle input_equal d rec admitted (Ok (Some r, false)) w in
  res = held_answer r (Run_Input rec) ∧ w_store w' = w_store w ∧ w_trace w' = w_trace w ∧
  p_holders (w_runs w') = p_holders (w_runs w) ∧
  p_pending (w_runs w') = delete (Run_RunID rec) (p_pending (w_runs w)).
Proof.
  intros Hcl Hh Hp.
  assert (schedule_answer input_equal d rec r = held_answer r (Run_Input rec)) as Hans.
  { unfold schedule_answer, held_answer. case_bool_decide as E1; case_bool_decide as E2; try done.
    rewrite E1. destruct (Binding.C_NewInput _); [|done]. by destruct (input_equal _ _ _) as [[]|]. }
  unfold schedule_settle, settle_admission. rewrite Hans, andb_true_r, andb_false_r.
  destruct admitted; cbn [negb].
  - destruct (Release_pending (w_runs w) (Run_RunID rec) Hcl Hh) as (q & k & Hr & _ & E1 & E2).
    unfold bind, get, or_panic, modify, mret, M_ret. rewrite Hr. cbn. done.
  - unfold bind, mret, M_ret. split_and!; [done|done|done|done|]. by rewrite delete_id by auto.
Qed.

(** The creation and the end, in the world they find. *)
Definition created_or_held (rec : RunRecord) (w w' : World MemStore)
    (res : result ScheduleError (RunID * bool)) : Prop :=
  let s := w_store w in
  let id := Run_RunID rec in
  let rc := Binding.C_RunClass (bd_cfg d) in
  match first_occupied s (Run_PipelineID rec :: bd_excludes d) (Run_ResourceID rec) with
  | None =>
    res = Ok (id, true) ∧
    w_store w' = mkMem (<[id := rec]> (mem_runs s))
      (<[slotKey (Run_PipelineID rec) (Run_ResourceID rec) := id]> (mem_slots s)) (mem_inflight s) ∧
    w_trace w' = w_trace w ++ [EvRunScheduled id; EvDispatch id 0] ∧
    p_holders (w_runs w') = p_holders (w_runs w) ∧
    p_pending (w_runs w') = (if counted w then <[id := rc]> (p_pending (w_runs w))
                             else p_pending (w_runs w))
  | Some hid =>
    ∃ r, mem_runs s !! hid = Some r ∧ Run_RunID r = hid ∧ Terminal r = false ∧
      Run_ResourceID r = Run_ResourceID rec ∧ Run_PipelineID r ∈ Run_PipelineID rec :: bd_excludes d ∧
      res = held_answer r (Run_Input rec) ∧ w_store w' = s ∧ w_trace w' = w_trace w ∧
      p_holders (w_runs w') = p_holders (w_runs w) ∧
      p_pending (w_runs w') = delete id (p_pending (w_runs w))
  end.
Lemma create_settle rec admitted (w : World MemStore) :
  Terminal rec = false → mem_ok (w_store w) → pool_closed (w_runs w) →
  Forall nul_free (Run_PipelineID rec :: bd_excludes d) →
  p_holders (w_runs w) !! Run_RunID rec = None →
  p_pending (w_runs w) !! Run_RunID rec =
    (if admitted && counted w then Some (Binding.C_RunClass (bd_cfg d)) else None) →
  (admitted = true → Binding.C_RunClass (bd_cfg d) ≠ "") →
  let '(w', res) := (res ← schedule_create d rec; schedule_settle input_equal d rec admitted res) w in
  created_or_held rec w w' res.
Proof.
  intros Hlive Hok Hcl Hnul Hh Hp Hrc. unfold created_or_held, schedule_create.
  unfold bind at 1 2, get, modify. cbn [CreateRun MemStore_Store]. rewrite mem_Create_eq by done.
  destruct (first_occupied _ _ _) as [hid|] eqn:Hocc; unfold bind, mret, M_ret.
  - destruct (occupant_of _ _ _ _ Hok Hnul Hocc) as (r & Hr & Hid & Htr & Hrr & Hrp).
    unfold occupant. rewrite Hr. replace (set_store (w_store w) w) with w by by destruct w.
    pose proof (settle_held rec r admitted w Hcl Hh) as Hs.
    destruct (schedule_settle _ _ _ _ _ _) as [w' res]. exists r.
    destruct Hs as (-> & -> & -> & -> & ->); [by intros ->|]. done.
  - set (s' := mkMem _ _ _). pose proof (settle_created rec admitted (set_store s' w) Hcl Hh Hp Hrc) as Hs.
    destruct (schedule_settle _ _ _ _ _ _) as [w' res]. by destruct Hs as (-> & -> & -> & -> & ->).
Qed.

(** C27: scheduling over the in-memory store, in every case, whatever the other goroutines
    do to other runs between its admission and its creation.  It is refused, changing
    nothing, when the engine has not started, the resource is invalid, the input is not
    what the pipeline declares or an annotation is not UTF-8, each with its own error.
    Otherwise, when the pipeline has a run class with as many runs waiting as its queue
    allows and no active run on the resource, the call fails with the class and its bound,
    storing nothing and admitting nothing.  Else the store decides: when no run holds the
    resource in this pipeline or one it excludes, exactly one run, the one asked for, is
    stored, announced and dispatched, and it is pending in its class, if that has a
    capacity; when one does, nothing is stored and that run decides the answer - a
    conflict when it is of another pipeline or has another input, its own id when the
    inputs are equal or the pipeline takes none, an error when its input does not decode -
    and the new run has left its class. *)
Theorem Schedule_correct others resource input annotators opts (w : World MemStore) :
  let so := schedule_options annotators opts in
  let p := Binding.C_ID (bd_cfg d) in
  let rc := Binding.C_RunClass (bd_cfg d) in
  let id := e_newRunID cfg (w_now w) in
  mem_ok (w_store w) → pool_closed (w_runs w) → outside (w_runs w) id → strangers id others →
  Forall nul_free (p :: bd_excludes d) →
  let '(w', res) := Schedule_among others resource input annotators opts w in
  (∃ e, refused resource input so e ∧ w' = w ∧ res = Err e) ∨
  (∃ b, accepted resource input so b ∧
    let rec := new_record cfg d resource b so (w_now w) in
    let max := map_get 0%Z (e_runClassQueue cfg) rc in
    let runs := (admission rec (w_runs w)).1 in
    let w1 := set_runs runs w in
    if negb (bool_decide (rc = "")) && class_full (w_runs w) rc max &&
       bool_decide (mem_slots (w_store w) !! slotKey p resource = None)
    then res = Err (RunClassFull rc max) ∧
      w' = w1 ∧ p_holders runs = p_holders (w_runs w) ∧ p_pending runs = p_pending (w_runs w)
    else created_or_held rec (others w1) w' res).
Proof.
  intros so p rc id Hok Hcl Ho [S1 S2 S3 S4 S5] Hnul. unfold Schedule_among, bind at 1, now.
  pose proof (schedule_record_spec resource input annotators opts (w_now w)) as Hrec. fold so in Hrec. cbn zeta in Hrec.
  destruct (schedule_record _ _ _ _ _ _ _) as [rec|e]; [|left; by exists e].
  destruct Hrec as (b & Hacc & ->). set (rec := new_record _ _ _ _ _ _).
  match goal with |- let '(_, _) := ?X in _ => destruct X as [w' res] eqn:Hrun end.
  right. exists b. split; [done|]. fold rec.
  pose proof (admission_spec rec w Hcl Ho) as Had. cbn zeta in Had. fold rc in Had.
  assert (∀ q admitted, pool_closed q → RunPool.p_capacity q = RunPool.p_capacity (w_runs w) →
    p_holders q = p_holders (w_runs w) →
    p_pending q = (if admitted && counted w then <[id := rc]> (p_pending (w_runs w)) else p_pending (w_runs w)) →
    (admitted = true → rc ≠ "") →
    let '(w', res) := (res ← schedule_create d rec; schedule_settle input_equal d rec admitted res)
      (others (set_runs q w)) in created_or_held rec (others (set_runs q w)) w' res) as Hgo.
  { intros q adm Hq E0 E1 E2 Hadm. assert (counted (others (set_runs q w)) = counted w) as Ec.
    { unfold counted. rewrite S3. cbn [w_runs set_runs]. by rewrite E0. }
    apply create_settle; [done|by apply S1|by apply S2|done| | |done].
    - change (Run_RunID rec) with id. rewrite S4. cbn [w_runs set_runs]. rewrite E1. apply Ho.
    - change (Run_RunID rec) with id. rewrite S5, Ec. cbn [w_runs set_runs]. rewrite E2.
      destruct (adm && counted w); [apply lookup_insert_eq|apply Ho]. }
  unfold schedule_admit in Hrun. unfold admission in Had |- *. fold rc in Had, Hrun |- *.
  revert Hrun. cbn zeta. case_bool_decide as Hrc; cbn [negb andb fst].
  - intros Hrun. specialize (Hgo (w_runs w) false). replace (set_runs (w_runs w) w) with w in Hgo |- * by by destruct w.
    change ((res ← schedule_create d rec; schedule_settle input_equal d rec false res) (others w) = (w', res)) in Hrun.
    rewrite Hrun in Hgo. by apply Hgo.
  - change (Run_RunID rec) with id in Had |- *.
    unfold bind at 1 2, get. change (Run_RunID rec) with id.
    destruct (RunPool.Admit _ _ _ _ _ _) as [q adm] eqn:Hadm. destruct Had as (H1 & H2 & H3 & H4 & H5).
    cbn [negb andb] in H5. rewrite <-(negb_involutive (class_full _ _ _)), <-H5. cbn [fst].
    specialize (Hgo q adm H1 H2 H3 H4 (λ _, Hrc)). unfold bind at 1, modify at 1.
    destruct adm; cbn [negb andb].
    + change ((res ← schedule_create d rec; schedule_settle input_equal d rec true res)
        (others (set_runs q w)) = (w', res) → created_or_held rec (others (set_runs q w)) w' res).
      intros Hrun. by rewrite Hrun in Hgo.
    + cbn [GetActiveRunID MemStore_Store]. unfold mem_GetActiveRunID. change (Run_ResourceID rec) with resource.
      fold p. destruct (mem_slots (w_store w) !! slotKey p resource) as [hid|] eqn:Hslot.
      * rewrite bool_decide_false by done.
        change ((res ← schedule_create d rec; schedule_settle input_equal d rec false res)
          (others (set_runs q w)) = (w', res) → created_or_held rec (others (set_runs q w)) w' res).
        intros Hrun. by rewrite Hrun in Hgo.
      * rewrite bool_decide_true by done. intros [= <- <-]. done.
Qed.
End schedule.

(** A deployment that lets one run of class [c] wait, and a world where one does. *)
Definition ex_queue : Config (S:=MemStore) (H:=script) :=
  let c := sample ex_classy in
  mkEngineConfig (e_textLimit c) (e_recoveryBackoff c) (e_terminalAfter c) {["c" := 1%Z]} (e_defs c)
    (e_call c) (e_reduce c) (e_reduceFailure c) (e_backoff c) (e_newRunID c).
Definition ex_full : W :=
  let w := world_of (store_with [sample_run "r" "p" "x"]) ∅ {["c" := 1%Z]} in
  set_runs (RunPool.Admit String.le (w_runs w) "c" "r" "" 0).1 w.

Lemma no_strangers id : strangers id (λ w, w).
Proof. by constructor. Qed.

(** The class is full: scheduling on the taken resource answers with the run that holds
    it, on a free one fails. *)
Lemma Schedule_correct_witness :
  ∃ d, definition ex_queue "p" = Some d ∧
    (Schedule ex_queue (λ _ _ _, Ok true) d "x" None [] [] ex_full).2 = Ok ("r", false) ∧
    (Schedule ex_queue (λ _ _ _, Ok true) d "y" None [] [] ex_full).2 = Err (RunClassFull "c" 1).
Proof.
  destruct (definition ex_queue "p") as [d|] eqn:Hd; [|vm_compute in Hd; discriminate Hd].
  exists d. split; [done|]. vm_compute in Hd. injection Hd as Hd.
  assert (pool_closed (w_runs ex_full)) as Hcl.
  { unfold ex_full. cbn [w_runs set_runs]. set (w := world_of _ _ _).
    assert (pool_closed (w_runs w)) as Hcl by (intros id k [E|E]; vm_compute in E; discriminate E).
    pose proof (Admit_outside (w_runs w) "c" "r" "" 0 Hcl (conj eq_refl eq_refl)) as Ha.
    by destruct (RunPool.Admit _ _ _ _ _ _) as [q a]; destruct Ha. }
  assert (mem_ok (w_store ex_full)) as Hok.
  { change (mem_ok (store_with [sample_run "r" "p" "x"])).
    apply store_with_ok; [|apply NoDup_singleton]. apply Forall_singleton. split; [done|].
    simpl. repeat split; discriminate. }
  assert (outside (w_runs ex_full) (e_newRunID ex_queue (w_now ex_full))) as Ho by (split; vm_compute; reflexivity).
  assert (Forall nul_free (Binding.C_ID (bd_cfg d) :: bd_excludes d)) as Hnul.
  { rewrite <-Hd. simpl. repeat constructor; discriminate. }
  assert (∀ resource e, invalidID resource = false → ¬ refused ex_queue d resource None (schedule_options [] []) e) as Hno.
  { intros resource e Hres. assert (started (e_defs ex_queue) = true) as Hst by (vm_compute; reflexivity).
    assert (Binding.C_NewInput (bd_cfg d) = false) as Hin by by rewrite <-Hd.
    destruct e; simpl; rewrite ?Hst, ?Hres, ?Hin; try (intros []; done); try naive_solver.
    intros (_ & _ & _ & (k & v & Hk & _)). vm_compute in Hk. discriminate Hk. }
  rewrite <-!Schedule_alone. split.
  - pose proof (Schedule_correct ex_queue (λ _ _ _, Ok true) d id "x" None [] [] ex_full Hok Hcl Ho (no_strangers _) Hnul) as Hs.
    destruct (Schedule_among _ _ _ _ _ _ _ _ ex_full) as [w' res]. simpl.
    destruct Hs as [(e & He & _)|(b & (_ & _ & Hb & _) & Hs)]; [exfalso; by eapply Hno; [|exact He]|].
    unfold takes in Hb. rewrite <-Hd in Hb. cbn in Hb. destruct Hb as [_ ->].
    cbn zeta in Hs. rewrite (bool_decide_false (mem_slots _ !! _ = None)) in Hs
      by (rewrite <-Hd; vm_compute; discriminate).
    rewrite andb_false_r in Hs. unfold created_or_held, id in Hs. cbn [w_store set_runs Run_PipelineID Run_ResourceID new_record] in Hs.
    assert (first_occupied (w_store ex_full) (Binding.C_ID (bd_cfg d) :: bd_excludes d) "x" = Some "r") as Hocc
      by (rewrite <-Hd; vm_compute; reflexivity).
    rewrite Hocc in Hs. destruct Hs as (r & Hr & _ & _ & _ & _ & -> & _).
    vm_compute in Hr. injection Hr as <-. by rewrite <-Hd.
  - pose proof (Schedule_correct ex_queue (λ _ _ _, Ok true) d id "y" None [] [] ex_full Hok Hcl Ho (no_strangers _) Hnul) as Hs.
    destruct (Schedule_among _ _ _ _ _ _ _ _ ex_full) as [w' res]. simpl.
    destruct Hs as [(e & He & _)|(b & (_ & _ & Hb & _) & Hs)]; [exfalso; by eapply Hno; [|exact He]|].
    unfold takes in Hb. rewrite <-Hd in Hb. cbn in Hb. destruct Hb as [_ ->].
    cbn zeta in Hs. rewrite (bool_decide_true (mem_slots _ !! _ = None)) in Hs
      by (rewrite <-Hd; vm_compute; reflexivity).
    replace (class_full _ _ _) with true in Hs by (rewrite <-Hd; vm_compute; reflexivity).
    rewrite bool_decide_false in Hs by by rewrite <-Hd. destruct Hs as [-> _].
    rewrite <-Hd. vm_compute. reflexivity.
Defined.
