(* ===== verification/Eligibility.v ===== *)
(** * Eligibility: the order of a run class's line (engine/engine.go, eligibilityKey)

    The line is ordered by a string, the eligibility time in Unix nanoseconds padded
    to twenty digits and the run id.  The string order is the order of the times, and
    of the ids at one time, for every time int64 nanoseconds hold after 1970; a later
    time wraps, and its run goes to the front. *)
From stdpp Require Import pretty.
From S2P Require Import Signals TokenPool RunPool JoinSet MemStore Binding.
From S2P Require Import Prelude Kernel Text Errors Ledger Driver Engine Sample Api.
#[local] Open Scope engine_scope.

(** ** Numbers of a fixed width *)

Fixpoint fixed (n : nat) (x : N) (s : string) : string :=
  match n with
  | 0 => s
  | S n => fixed n (x / 10) (String (pretty_N_char (x mod 10)) s)
  end.

Lemma zeros_S n s : zeros (S n) +:+ s = zeros n +:+ String "0" s.
Proof.
  induction n as [|n IH]; [done|].
  change (String "0" (zeros (S n) +:+ s) = String "0" (zeros n +:+ String "0" s)). by rewrite IH.
Qed.
Lemma fixed_0 n s : fixed n 0 s = zeros n +:+ s.
Proof.
  revert s. induction n as [|n IH]; intros s; [done|]. rewrite zeros_S, <-IH. done.
Qed.
Lemma fixed_app n : ∀ x s t, fixed n x s +:+ t = fixed n x (s +:+ t).
Proof. induction n as [|n IH]; intros x s t; [done|]. simpl. by rewrite IH. Qed.

Lemma pretty_length x : ∀ s,
  String.length (pretty_N_go x s) = String.length (pretty_N_go x "") + String.length s.
Proof.
  induction (N.lt_wf_0 x) as [x _ IH]; intros s. destruct (decide (x = 0)%N) as [->|Hx]; [done|].
  rewrite (pretty_N_go_step x s), (pretty_N_go_step x "") by lia.
  assert (x / 10 < x)%N as Hlt by (apply N.div_lt; lia).
  rewrite (IH _ Hlt (String _ s)), (IH _ Hlt (String _ "")). simpl. lia.
Qed.

Lemma pretty_fixed n : ∀ x s, (x < 10 ^ N.of_nat n)%N →
  zeros (n - String.length (pretty_N_go x "")) +:+ pretty_N_go x s = fixed n x s.
Proof.
  induction n as [|n IH]; intros x s Hx.
  - assert (x = 0)%N as -> by (simpl in Hx; lia). done.
  - destruct (decide (x = 0)%N) as [->|Hne]; [by rewrite fixed_0|].
    rewrite (pretty_N_go_step x s), (pretty_N_go_step x "") by lia.
    rewrite (pretty_length (x / 10) (String _ "")). simpl.
    rewrite <-IH by (apply N.Div0.div_lt_upper_bound; rewrite Nat2N.inj_succ, N.pow_succ_r' in Hx; lia).
    f_equal. f_equal. lia.
Qed.

Lemma pad_pretty n x :
  0 < n → (x < 10 ^ N.of_nat n)%N → pad n (pretty x) = fixed n x "".
Proof.
  intros Hn Hx. unfold pad. destruct (decide (x = 0)%N) as [->|Hne].
  - destruct n as [|n]; [lia|]. rewrite fixed_0. change (pretty 0%N) with "0". simpl.
    rewrite Nat.sub_0_r. change (String "0" (zeros n +:+ "")) with (zeros (S n) +:+ "").
    by rewrite zeros_S.
  - unfold pretty, pretty_N. rewrite decide_False by done. by apply pretty_fixed.
Qed.

(** ** Their order *)

Lemma digit_compare i j : (i < 10)%N → (j < 10)%N →
  Ascii.compare (pretty_N_char i) (pretty_N_char j) = (i ?= j)%N.
Proof.
  intros Hi Hj.
  assert (∀ k, (k < 10)%N → k = 0 ∨ k = 1 ∨ k = 2 ∨ k = 3 ∨ k = 4 ∨ k = 5 ∨ k = 6 ∨ k = 7 ∨ k = 8 ∨ k = 9)%N
    as Hk by lia.
  destruct (Hk i Hi) as [->|[->|[->|[->|[->|[->|[->|[->|[->| ->]]]]]]]]];
    destruct (Hk j Hj) as [->|[->|[->|[->|[->|[->|[->|[->|[->| ->]]]]]]]]]; done.
Qed.

Lemma compare_div x y :
  (x ?= y)%N = match (x / 10 ?= y / 10)%N with Eq => (x mod 10 ?= y mod 10)%N | r => r end.
Proof.
  pose proof (N.div_mod x 10 ltac:(done)) as Hx. pose proof (N.div_mod y 10 ltac:(done)) as Hy.
  pose proof (N.mod_lt x 10 ltac:(done)) as Hx'. pose proof (N.mod_lt y 10 ltac:(done)) as Hy'.
  revert Hx Hy Hx' Hy'. generalize (x / 10)%N, (x mod 10)%N, (y / 10)%N, (y mod 10)%N.
  intros a r b t -> -> Hr Ht.
  destruct (N.compare_spec a b) as [->|Hlt|Hgt].
  - destruct (N.compare_spec r t) as [->|?|?].
    + apply N.compare_refl.
    + apply N.compare_lt_iff. lia.
    + apply N.compare_gt_iff. lia.
  - apply N.compare_lt_iff. lia.
  - apply N.compare_gt_iff. lia.
Qed.

Lemma compare_fixed n : ∀ x y s t,
  (x < 10 ^ N.of_nat n)%N → (y < 10 ^ N.of_nat n)%N →
  String.compare (fixed n x s) (fixed n y t) =
    match (x ?= y)%N with Eq => String.compare s t | r => r end.
Proof.
  induction n as [|n IH]; intros x y s t Hx Hy.
  - assert (x = 0 ∧ y = 0)%N as [-> ->] by (simpl in *; lia). done.
  - rewrite Nat2N.inj_succ, N.pow_succ_r' in Hx, Hy. simpl.
    rewrite IH by (apply N.Div0.div_lt_upper_bound; lia).
    rewrite (compare_div x y). destruct (x / 10 ?= y / 10)%N; [|done..].
    simpl. rewrite digit_compare by (apply N.mod_lt; done).
    by destruct (x mod 10 ?= y mod 10)%N.
Qed.

(** ** The keys *)

Lemma format020d_fixed z :
  (0 <= z < 10 ^ 20)%Z → format020d z = fixed 20 (Z.to_N z) "".
Proof.
  intros Hz. unfold format020d. rewrite (proj2 (Z.ltb_ge z 0)) by lia.
  apply pad_pretty; [lia|]. change (10 ^ N.of_nat 20)%N with (Z.to_N (10 ^ 20)). lia.
Qed.

(** The nanoseconds of a time that int64 holds, after 1970. *)
Definition in_range (t : Time) : Prop := (unix_epoch <= t < unix_epoch + 2 ^ 63)%Z.
Lemma UnixNano_range t : in_range t → UnixNano t = (t - unix_epoch)%Z ∧ (0 <= UnixNano t < 2 ^ 63)%Z.
Proof.
  unfold in_range, UnixNano, wrap_i64. intros Ht. rewrite Z.mod_small by lia. lia.
Qed.

Lemma key_compare r r' :
  in_range (eligibleSince r) → in_range (eligibleSince r') →
  String.compare (eligibilityKey r) (eligibilityKey r') =
    match (eligibleSince r ?= eligibleSince r')%Z with
    | Eq => String.compare (Run_RunID r) (Run_RunID r')
    | c => c
    end.
Proof.
  intros (Hu & Hr)%UnixNano_range (Hu' & Hr')%UnixNano_range. unfold eligibilityKey.
  rewrite !format020d_fixed by lia. rewrite !fixed_app, compare_fixed.
  2,3: change (10 ^ N.of_nat 20)%N with (Z.to_N (10 ^ 20)); lia.
  rewrite Z2N.inj_compare by lia. rewrite Hu, Hu'. unfold Z.sub. rewrite !(Z.add_comm _ (- unix_epoch)), Z.add_compare_mono_l.
  by destruct (_ ?= _)%Z.
Qed.

(** The line of a run class is in the order the key is meant to give: for runs
    that become eligible between 1970 and the end of int64 nanoseconds in 2262, one
    key is at most another exactly when its run is eligible earlier, or at the same
    time with an id at most the other's. *)
Theorem eligibility_order r r' :
  in_range (eligibleSince r) → in_range (eligibleSince r') →
  String.le (eligibilityKey r) (eligibilityKey r') ↔
    (eligibleSince r < eligibleSince r')%Z ∨
    eligibleSince r = eligibleSince r' ∧ String.le (Run_RunID r) (Run_RunID r').
Proof.
  intros Hr Hr'. unfold String.le, String.leb. rewrite key_compare by done.
  destruct (Z.compare_spec (eligibleSince r) (eligibleSince r')) as [Heq|Hlt|Hgt]; split; intros Hc.
  - right. split; [done|]. exact Hc.
  - destruct Hc as [Hc|[_ Hc]]; [lia|exact Hc].
  - by left.
  - done.
  - done.
  - destruct Hc as [Hc|[Hc _]]; lia.
Qed.

(** ** Beyond the range *)

Definition ex_config : Binding.Config (H:=script) := sample_config "p" "c" (Succeeds "s") (Succeeds "").
Definition ex_engine : Engine.Config (S:=MemStore) (H:=script) := sample ex_config.
Definition ex_now : Time := (63871000000 * second)%Z.
Definition ex_empty : W :=
  mkWorld MemStore.New ex_now (TokenPool.New ∅) (RunPool.New {["c" := 1%Z]}) js_empty
    ∅ 0 ∅ ∅ ∅ ∅ false false [].
(** The year 2300. *)
Definition ex_far : Time := (72560000000 * second)%Z.
Definition tick (w : W) : W :=
  mkWorld (w_store w) (w_now w + 1) (w_pool w) (w_runs w) (w_joins w) (w_timers w)
    (w_nextTimer w) (w_invalid w) (w_attempts w) (w_pendingPreempt w) (w_dirty w)
    (w_stopped w) (w_draining w) (w_trace w).

(** A run scheduled for the time [far], then one for now, and its worker. *)
Definition two_scheduled (far : Time) (d : Binding.boundDef (H:=script))
    : option (W * RunID * option (Duration * bool)) :=
  let schedule := Schedule ex_engine (λ _ _ _, Ok true) d in
  let '(w1, _) := schedule "x" None [] [StartAt far] ex_empty in
  match schedule "y" None [] [] (tick w1) with
  | (w2, Ok (b, _)) => let '(w3, res) := processRun ex_engine 9 b w2 in Some (w3, b, res)
  | _ => None
  end.

(** A start time past 2262 does not fit the nanoseconds of the key: it wraps to a
    negative number, which sorts before every other.  In a class of one, a run to be
    started in the year 2300 takes the only place in line, and the worker of a run
    that is eligible now parks it, with the class empty; scheduled for the year 2200,
    it lets the other pass, which runs to its end. *)
Theorem far_start_heads_the_line :
  match definition ex_engine "p" ≫= two_scheduled ex_far with
  | Some (w, b, res) => res = Some (0%Z, false) ∧ RunPool.ParkedOn (w_runs w) b = Some "c" ∧
      (λ c, c_inUse c) <$> p_classes (w_runs w) !! "c" = Some 0%Z
  | None => False
  end ∧
  match definition ex_engine "p" ≫= two_scheduled (69400000000 * second) with
  | Some (w, b, res) => res = Some (0%Z, false) ∧ RunPool.ParkedOn (w_runs w) b = None ∧
      Run_Outcome <$> mem_runs (w_store w) !! b = Some (Some OutcomeSuccess)
  | None => False
  end.
Proof. split; vm_compute; split_and!; reflexivity. Qed.

Lemma eligibility_order_witness :
  String.le (eligibilityKey (set_NextAttemptAt ex_now (sample_run "a" "p" "x")))
    (eligibilityKey (set_NextAttemptAt (ex_now + 1) (sample_run "0" "p" "y"))).
Proof.
  apply eligibility_order.
  - unfold in_range. vm_compute. split; [discriminate|reflexivity].
  - unfold in_range. vm_compute. split; [discriminate|reflexivity].
  - left. vm_compute. reflexivity.
Defined.
