(* ===== verification/Wire.v ===== *)
(** * Wire: the storage encoding (store/internal/storagepb)

    The messages of durable.storage.v1 as the generated structs have them, and the
    conversions of convert.go between them and the driver's records.  The protobuf
    runtime is a parameter: a [Codec] per message, whose law is the documented
    behaviour of proto.Marshal and proto.Unmarshal on proto3 messages - what was
    encoded decodes to the same message, except that a bytes field without presence
    does not tell an empty value from a missing one ([wire]). *)
From S2P Require Import Prelude Kernel Driver.

(** ** Messages

    Enums are open int32 values; a message pointer is an option; a repeated or map
    field does not tell nil from empty. *)
Module PB.
Record Timestamp := mkTimestamp { Seconds : Z; Nanos : Z }.
Record RunMeta := mkRunMeta {
  RunId : string; PipelineId : string; ResourceId : string;
  CreatedAt : option Timestamp; Annotations : gmap string string;
}.
Record Await := mkAwait {
  Mode : Z; RunIds : list string; Deadline : option Timestamp; CancelCascade : bool;
}.
Record Wake := mkWake { Targets : list string; Done : list string; Expired : bool }.
Record Cursor := mkCursor {
  Phase : Z; StepId : string; Attempts : Z; NextAttemptAt : option Timestamp;
  LastError : string; LastReason : string; LastErrorAt : option Timestamp;
  UpdatedAt : option Timestamp; Awaiting : option Await; Awaited : option Wake;
  StartedAt : option Timestamp;
}.
Record FailureRecord := mkFailureRecord {
  F_StepId : string; F_Phase : Z; F_Attempt : Z; F_Message : string;
  F_At : option Timestamp; F_Kind : Z; F_Reason : string;
}.
Record OperationRecord := mkOperationRecord {
  O_Status : Z; O_Attempts : Z; O_State : bytes; O_Failure : option FailureRecord;
  O_Order : Z;
}.
Record CancelRequest := mkCancelRequest { C_Cause : string; C_At : option Timestamp }.
Record Terminal := mkTerminal {
  T_Outcome : Z; T_Output : bytes; T_RunId : string; T_PipelineId : string;
  T_ResourceId : string; T_CreatedAt : option Timestamp;
  T_Annotations : gmap string string; T_Phase : Z; T_CommittedAt : option Timestamp;
  T_FailedUnwinds : gmap string OperationRecord; T_Failure : option FailureRecord;
  T_Cancel : option CancelRequest; T_OutputBeside : bool; T_StartedAt : option Timestamp;
}.
End PB.

Definition PHASE_UNSPECIFIED : Z := 0.
Definition PHASE_FORWARD : Z := 1.
Definition PHASE_UNWIND : Z := 2.
Definition PHASE_DONE : Z := 3.
Definition OUTCOME_UNSPECIFIED : Z := 0.
Definition OUTCOME_SUCCESS : Z := 1.
Definition OUTCOME_FAILURE : Z := 2.
Definition OP_STATUS_UNSPECIFIED : Z := 0.
Definition OP_STATUS_UNRESOLVED : Z := 1.
Definition OP_STATUS_SUCCEEDED : Z := 2.
Definition OP_STATUS_FAILED : Z := 3.
Definition FAILURE_KIND_SYSTEM : Z := 1.
Definition FAILURE_KIND_USER : Z := 2.
Definition FAILURE_KIND_CANCELED : Z := 3.
Definition AWAIT_MODE_UNSPECIFIED : Z := 0.
Definition AWAIT_MODE_ALL : Z := 1.
Definition AWAIT_MODE_ANY : Z := 2.

(** ** The protobuf runtime *)

Class Codec (A : Type) := {
  Marshal : A → result string string;
  Unmarshal : string → result string A;
}.
(** What of a message its encoding keeps. *)
Class Wire (A : Type) := wire : A → A.
Class CodecLaws (A : Type) `{Codec A, Wire A} :=
  Unmarshal_Marshal m b : Marshal m = Ok b → Unmarshal b = Ok (wire m).

Definition wire_bytes (b : bytes) : bytes :=
  match b with Some EmptyString => None | _ => b end.
Definition wire_op (o : PB.OperationRecord) : PB.OperationRecord :=
  PB.mkOperationRecord (PB.O_Status o) (PB.O_Attempts o) (wire_bytes (PB.O_State o))
    (PB.O_Failure o) (PB.O_Order o).
Definition wire_terminal (t : PB.Terminal) : PB.Terminal :=
  PB.mkTerminal (PB.T_Outcome t) (wire_bytes (PB.T_Output t)) (PB.T_RunId t)
    (PB.T_PipelineId t) (PB.T_ResourceId t) (PB.T_CreatedAt t) (PB.T_Annotations t)
    (PB.T_Phase t) (PB.T_CommittedAt t) (wire_op <$> PB.T_FailedUnwinds t)
    (PB.T_Failure t) (PB.T_Cancel t) (PB.T_OutputBeside t) (PB.T_StartedAt t).

#[export] Instance wire_RunMeta : Wire PB.RunMeta := λ m, m.
#[export] Instance wire_Cursor : Wire PB.Cursor := λ m, m.
#[export] Instance wire_FailureRecord : Wire PB.FailureRecord := λ m, m.
#[export] Instance wire_CancelRequest : Wire PB.CancelRequest := λ m, m.
#[export] Instance wire_OperationRecord : Wire PB.OperationRecord := wire_op.
#[export] Instance wire_Terminal : Wire PB.Terminal := wire_terminal.

(** The runtime the store uses, and what it promises. *)
Class Protobuf := {
  codec_RunMeta :: Codec PB.RunMeta;
  codec_Cursor :: Codec PB.Cursor;
  codec_OperationRecord :: Codec PB.OperationRecord;
  codec_FailureRecord :: Codec PB.FailureRecord;
  codec_Terminal :: Codec PB.Terminal;
  codec_CancelRequest :: Codec PB.CancelRequest;
}.
Class ProtobufLaws `{Protobuf} := {
  laws_RunMeta :: CodecLaws PB.RunMeta;
  laws_Cursor :: CodecLaws PB.Cursor;
  laws_OperationRecord :: CodecLaws PB.OperationRecord;
  laws_FailureRecord :: CodecLaws PB.FailureRecord;
  laws_Terminal :: CodecLaws PB.Terminal;
  laws_CancelRequest :: CodecLaws PB.CancelRequest;
}.

(** ** Conversions (convert.go) *)

Definition ts (t : Time) : option PB.Timestamp :=
  if IsZero t then None
  else Some (PB.mkTimestamp ((t - unix_epoch) / second) ((t - unix_epoch) mod second)).
Definition fromTS (t : option PB.Timestamp) : Time :=
  match t with
  | None => time_zero
  | Some t => (unix_epoch + PB.Seconds t * second + PB.Nanos t)%Z
  end.

Definition phaseToProto (p : Phase) : Z :=
  match p with
  | PhaseForward => PHASE_FORWARD
  | PhaseUnwind => PHASE_UNWIND
  | PhaseDone => PHASE_DONE
  | PhaseZero => PHASE_UNSPECIFIED
  end.
Definition phaseFromProto (p : Z) : Phase :=
  if (p =? PHASE_FORWARD)%Z then PhaseForward
  else if (p =? PHASE_UNWIND)%Z then PhaseUnwind
  else if (p =? PHASE_DONE)%Z then PhaseDone
  else PhaseZero.
Definition outcomeToProto (o : Outcome) : Z :=
  match o with
  | OutcomeSuccess => OUTCOME_SUCCESS
  | OutcomeFailure => OUTCOME_FAILURE
  | OutcomeZero => OUTCOME_UNSPECIFIED
  end.
Definition outcomeFromProto (o : Z) : Outcome :=
  if (o =? OUTCOME_SUCCESS)%Z then OutcomeSuccess
  else if (o =? OUTCOME_FAILURE)%Z then OutcomeFailure
  else OutcomeZero.
Definition opStatusToProto (s : OpStatus) : Z :=
  match s with
  | OpUnresolved => OP_STATUS_UNRESOLVED
  | OpSucceeded => OP_STATUS_SUCCEEDED
  | OpFailed => OP_STATUS_FAILED
  | OpNone => OP_STATUS_UNSPECIFIED
  end.
Definition opStatusFromProto (s : Z) : OpStatus :=
  if (s =? OP_STATUS_UNRESOLVED)%Z then OpUnresolved
  else if (s =? OP_STATUS_SUCCEEDED)%Z then OpSucceeded
  else if (s =? OP_STATUS_FAILED)%Z then OpFailed
  else OpNone.
Definition kindToProto (k : FailureKind) : Z :=
  match k with
  | FailureKindUser => FAILURE_KIND_USER
  | FailureKindCanceled => FAILURE_KIND_CANCELED
  | FailureKindSystem => FAILURE_KIND_SYSTEM
  end.
Definition kindFromProto (k : Z) : FailureKind :=
  if (k =? FAILURE_KIND_USER)%Z then FailureKindUser
  else if (k =? FAILURE_KIND_CANCELED)%Z then FailureKindCanceled
  else FailureKindSystem.
Definition awaitModeToProto (m : AwaitMode) : Z :=
  match m with
  | AwaitModeAll => AWAIT_MODE_ALL
  | AwaitModeAny => AWAIT_MODE_ANY
  | AwaitModeZero => AWAIT_MODE_UNSPECIFIED
  end.
Definition awaitModeFromProto (m : Z) : AwaitMode :=
  if (m =? AWAIT_MODE_ANY)%Z then AwaitModeAny else AwaitModeAll.

Definition awaitToProto (a : Await) : PB.Await :=
  PB.mkAwait (awaitModeToProto (Await_Mode a)) (Await_Targets a) (ts (Await_Deadline a))
    (Await_CancelCascade a).
Definition awaitFromProto (a : PB.Await) : Await :=
  mkAwait (awaitModeFromProto (PB.Mode a)) (PB.RunIds a) (fromTS (PB.Deadline a))
    (PB.CancelCascade a).
Definition wakeToProto (w : Wake) : PB.Wake :=
  PB.mkWake (Wake_Targets w) (Wake_Done w) (Wake_Expired w).
Definition wakeFromProto (w : PB.Wake) : Wake :=
  mkWake (PB.Targets w) (PB.Done w) (PB.Expired w).

Definition cursorToProto (c : Cursor) : PB.Cursor :=
  PB.mkCursor (phaseToProto (Cursor_Phase c)) (Cursor_StepID c) (Cursor_Attempts c)
    (ts (Cursor_NextAttemptAt c)) (Cursor_LastError c) (Cursor_LastReason c)
    (ts (Cursor_LastErrorAt c)) (ts (Cursor_UpdatedAt c))
    (awaitToProto <$> Cursor_Awaiting c) (wakeToProto <$> Cursor_Awaited c)
    (ts (Cursor_StartedAt c)).
Definition cursorFromProto (c : PB.Cursor) : Cursor :=
  mkCursor (phaseFromProto (PB.Phase c)) (PB.StepId c) (PB.Attempts c)
    (awaitFromProto <$> PB.Awaiting c) (wakeFromProto <$> PB.Awaited c)
    (fromTS (PB.NextAttemptAt c)) (PB.LastError c) (PB.LastReason c)
    (fromTS (PB.LastErrorAt c)) (fromTS (PB.UpdatedAt c)) (fromTS (PB.StartedAt c)).

Definition failureRecordToProto (f : Failure) : PB.FailureRecord :=
  PB.mkFailureRecord (Failure_StepID f) (phaseToProto (Failure_Phase f)) (Failure_Attempt f)
    (Failure_Message f) (ts (Failure_At f)) (kindToProto (Failure_Kind f)) (Failure_Reason f).
Definition failureRecordFromProto (f : PB.FailureRecord) : Failure :=
  mkFailure (PB.F_StepId f) (phaseFromProto (PB.F_Phase f)) (PB.F_Attempt f)
    (PB.F_Message f) (fromTS (PB.F_At f)) (kindFromProto (PB.F_Kind f)) (PB.F_Reason f).

Definition operationRecordToProto (op : OperationRecord) : PB.OperationRecord :=
  PB.mkOperationRecord (opStatusToProto (Op_Status op)) (Op_Attempts op) (Op_State op)
    (failureRecordToProto <$> Op_Failure op) (Op_Order op).
Definition operationRecordFromProto (op : PB.OperationRecord) : OperationRecord :=
  mkOp (opStatusFromProto (PB.O_Status op)) (PB.O_Attempts op) (PB.O_State op)
    (failureRecordFromProto <$> PB.O_Failure op) (PB.O_Order op).

Definition cancelToProto (c : CancelRequest) : PB.CancelRequest :=
  PB.mkCancelRequest (Cancel_Cause c) (ts (Cancel_At c)).
Definition cancelFromProto (c : PB.CancelRequest) : CancelRequest :=
  mkCancel (PB.C_Cause c) (fromTS (PB.C_At c)).

Section convert.
Context `{Protobuf}.

(** The error texts. *)
Definition marshal {A} `{Codec A} (what : string) (m : A) : result string string :=
  match Marshal m with
  | Ok b => Ok b
  | Err e => Err ("storagepb: encoding " +:+ what +:+ ": " +:+ e)
  end.
Definition unmarshal {A} `{Codec A} (what : string) (b : string) : result string A :=
  match Unmarshal b with
  | Ok m => Ok m
  | Err e => Err ("storagepb: decoding " +:+ what +:+ ": " +:+ e)
  end.
Definition decoded {A B} (f : A → B) (r : result string A) : result string B :=
  match r with Ok m => Ok (f m) | Err e => Err e end.

Definition MarshalRunMeta (rec : RunRecord) : result string string :=
  marshal "run meta"
    (PB.mkRunMeta (Run_RunID rec) (Run_PipelineID rec) (Run_ResourceID rec)
       (ts (Run_CreatedAt rec)) (Run_Annotations rec)).
(** The identity fields, and the annotations when there are any, into a record. *)
Definition meta_into (rec : RunRecord) (run : RunID) (pipeline : PipelineID)
    (resource : ResourceID) (created : Time) (annotations : gmap string string) : RunRecord :=
  mkRun run pipeline resource
    (if bool_decide (annotations = ∅) then Run_Annotations rec else annotations)
    (Run_Input rec) (Run_Phase rec) (Run_Steps rec) (Run_Failure rec) (Run_Output rec)
    (Run_Outcome rec) (Run_NextAttemptAt rec) (Run_Awaiting rec) (Run_Awaited rec)
    (Run_LastError rec) (Run_LastReason rec) (Run_LastErrorAt rec) (Run_Cancel rec)
    created (Run_UpdatedAt rec) (Run_StartedAt rec).
Definition UnmarshalRunMetaInto (b : string) (rec : RunRecord) : result string RunRecord :=
  decoded (λ pb, meta_into rec (PB.RunId pb) (PB.PipelineId pb) (PB.ResourceId pb)
                   (fromTS (PB.CreatedAt pb)) (PB.Annotations pb))
    (unmarshal (A:=PB.RunMeta) "run meta" b).

Definition MarshalCursor (c : Cursor) : result string string :=
  marshal "cursor" (cursorToProto c).
Definition UnmarshalCursor (b : string) : result string Cursor :=
  decoded cursorFromProto (unmarshal "cursor" b).

Definition MarshalOperationRecord (op : OperationRecord) : result string string :=
  marshal "operation record" (operationRecordToProto op).
Definition UnmarshalOperationRecord (b : string) : result string OperationRecord :=
  decoded operationRecordFromProto (unmarshal "operation record" b).

Definition MarshalFailureRecord (f : Failure) : result string string :=
  marshal "failure record" (failureRecordToProto f).
Definition UnmarshalFailureRecord (b : string) : result string Failure :=
  decoded failureRecordFromProto (unmarshal "failure record" b).

Definition MarshalCancel (c : CancelRequest) : result string string :=
  marshal "cancel request" (cancelToProto c).
Definition UnmarshalCancel (b : string) : result string CancelRequest :=
  decoded cancelFromProto (unmarshal "cancel request" b).

Definition failedUnwinds (steps : gmap StepID StepRecord) : gmap string PB.OperationRecord :=
  (λ sr, operationRecordToProto (SR_Unwind sr)) <$>
    filter (λ e, Op_Status (SR_Unwind e.2) = OpFailed) steps.
Definition terminalToProto (rec : RunRecord) (oc : Outcome) (outputBeside : bool)
    : PB.Terminal :=
  PB.mkTerminal (outcomeToProto oc) (if outputBeside then None else Run_Output rec)
    (Run_RunID rec) (Run_PipelineID rec) (Run_ResourceID rec) (ts (Run_CreatedAt rec))
    (Run_Annotations rec) (phaseToProto (Run_Phase rec)) (ts (Run_UpdatedAt rec))
    (failedUnwinds (Run_Steps rec)) (failureRecordToProto <$> Run_Failure rec)
    (cancelToProto <$> Run_Cancel rec) outputBeside (ts (Run_StartedAt rec)).
Definition MarshalTerminal (rec : RunRecord) (outputBeside : bool) : result string string :=
  match Run_Outcome rec with
  | None => Err "storagepb: encoding terminal: record has no outcome"
  | Some oc => marshal "terminal" (terminalToProto rec oc outputBeside)
  end.

(** [rec.Step(id).Unwind = op] for every failed unwind. *)
Definition unwinds_into (ops : gmap string PB.OperationRecord) (steps : gmap StepID StepRecord)
    : gmap StepID StepRecord :=
  map_imap (λ id op, Some (mkStepRecord (SR_Forward (default sr_zero (steps !! id)))
                             (operationRecordFromProto op))) ops ∪ steps.
Definition terminalFromProto (rec : RunRecord) (pb : PB.Terminal) : RunRecord :=
  mkRun (PB.T_RunId pb) (PB.T_PipelineId pb) (PB.T_ResourceId pb)
    (if bool_decide (PB.T_Annotations pb = ∅) then Run_Annotations rec else PB.T_Annotations pb)
    (Run_Input rec) (phaseFromProto (PB.T_Phase pb))
    (unwinds_into (PB.T_FailedUnwinds pb) (Run_Steps rec))
    (match PB.T_Failure pb with
     | Some f => Some (failureRecordFromProto f) | None => Run_Failure rec end)
    (PB.T_Output pb) (Some (outcomeFromProto (PB.T_Outcome pb)))
    (Run_NextAttemptAt rec) (Run_Awaiting rec) (Run_Awaited rec)
    (Run_LastError rec) (Run_LastReason rec) (Run_LastErrorAt rec)
    (match PB.T_Cancel pb with Some c => Some (cancelFromProto c) | None => Run_Cancel rec end)
    (fromTS (PB.T_CreatedAt pb)) (fromTS (PB.T_CommittedAt pb)) (fromTS (PB.T_StartedAt pb)).
(** The record, and whether the output is beside the row. *)
Definition UnmarshalTerminalInto (b : string) (rec : RunRecord)
    : result string (RunRecord * bool) :=
  decoded (λ pb, (terminalFromProto rec pb, PB.T_OutputBeside pb)) (unmarshal "terminal" b).
End convert.

(** ** What survives storage

    A stored record comes back as it was, up to what the encoding does not tell
    apart: an empty state or output reads back as a missing one, and an await without
    a mode as an await of all its targets. *)

Definition run_zero : RunRecord :=
  mkRun "" "" "" ∅ None PhaseZero ∅ None None None 0 None None "" "" 0 None 0 0 0.

Definition stored_await (a : Await) : Await :=
  mkAwait (match Await_Mode a with AwaitModeAny => AwaitModeAny | _ => AwaitModeAll end)
    (Await_Targets a) (Await_Deadline a) (Await_CancelCascade a).
Definition stored_cursor (c : Cursor) : Cursor :=
  mkCursor (Cursor_Phase c) (Cursor_StepID c) (Cursor_Attempts c)
    (stored_await <$> Cursor_Awaiting c) (Cursor_Awaited c) (Cursor_NextAttemptAt c)
    (Cursor_LastError c) (Cursor_LastReason c) (Cursor_LastErrorAt c) (Cursor_UpdatedAt c)
    (Cursor_StartedAt c).
Definition stored_op (op : OperationRecord) : OperationRecord :=
  mkOp (Op_Status op) (Op_Attempts op) (wire_bytes (Op_State op)) (Op_Failure op)
    (Op_Order op).
Definition stored_terminal (rec : RunRecord) (outputBeside : bool) : RunRecord :=
  set_Output (if outputBeside then None else wire_bytes (Run_Output rec))
    (set_Steps ((λ sr, mkStepRecord op_zero (stored_op (SR_Unwind sr)))
                  <$> compact_steps (Run_Steps rec)) (CompactTerminal rec)).

Lemma fromTS_ts t : fromTS (ts t) = t.
Proof.
  unfold ts, fromTS, IsZero. destruct (t =? 0)%Z eqn:E; zbool; [by subst|].
  cbn [PB.Seconds PB.Nanos]. pose proof (Z.div_mod (t - unix_epoch) second).
  unfold second in *. lia.
Qed.
Lemma phaseFrom_To p : phaseFromProto (phaseToProto p) = p.
Proof. by destruct p. Qed.
Lemma outcomeFrom_To o : outcomeFromProto (outcomeToProto o) = o.
Proof. by destruct o. Qed.
Lemma opStatusFrom_To s : opStatusFromProto (opStatusToProto s) = s.
Proof. by destruct s. Qed.
Lemma kindFrom_To k : kindFromProto (kindToProto k) = k.
Proof. by destruct k. Qed.
#[export] Hint Rewrite fromTS_ts phaseFrom_To outcomeFrom_To opStatusFrom_To kindFrom_To
  : wire.

Lemma awaitFrom_To a : awaitFromProto (awaitToProto a) = stored_await a.
Proof. unfold awaitFromProto, stored_await. cbn. autorewrite with wire. by destruct (Await_Mode a). Qed.
Lemma wakeFrom_To w : wakeFromProto (wakeToProto w) = w.
Proof. by destruct w. Qed.
Lemma failureRecordFrom_To f : failureRecordFromProto (failureRecordToProto f) = f.
Proof. destruct f. unfold failureRecordFromProto. cbn. by autorewrite with wire. Qed.
Lemma cancelFrom_To c : cancelFromProto (cancelToProto c) = c.
Proof. destruct c. unfold cancelFromProto. cbn. by autorewrite with wire. Qed.
#[export] Hint Rewrite awaitFrom_To wakeFrom_To failureRecordFrom_To cancelFrom_To : wire.

Lemma option_fmap_From_To {A B} (f : A → B) (g : B → A) (o : option A) :
  (∀ x, g (f x) = x) → g <$> (f <$> o) = o.
Proof. intros E. destruct o; simpl; [by rewrite E|done]. Qed.

Lemma cursorFrom_To c : cursorFromProto (cursorToProto c) = stored_cursor c.
Proof.
  destruct c as [ph st at_ aw wk]. unfold cursorFromProto, stored_cursor. cbn.
  autorewrite with wire. rewrite (option_fmap_From_To _ _ wk) by apply wakeFrom_To.
  f_equal. destruct aw; simpl; [by rewrite awaitFrom_To|done].
Qed.
Lemma operationRecordFrom_wire_To op :
  operationRecordFromProto (wire_op (operationRecordToProto op)) = stored_op op.
Proof.
  destruct op. unfold operationRecordFromProto, stored_op. cbn. autorewrite with wire.
  by rewrite option_fmap_From_To by apply failureRecordFrom_To.
Qed.

Lemma unwinds_into_failed steps :
  unwinds_into (wire_op <$> failedUnwinds steps) ∅ =
    (λ sr, mkStepRecord op_zero (stored_op (SR_Unwind sr))) <$> compact_steps steps.
Proof.
  apply map_eq. intros id. unfold unwinds_into, failedUnwinds, compact_steps.
  rewrite (right_id_L ∅ (∪)), map_lookup_imap, !lookup_fmap, lookup_empty.
  destruct (filter _ steps !! id) as [sr|]; [|done]. simpl.
  by rewrite operationRecordFrom_wire_To.
Qed.

Section roundtrip.
Context `{ProtobufLaws}.

Lemma unmarshal_marshal {A} `{CodecLaws A} what what' (m : A) b :
  marshal what m = Ok b → unmarshal what' b = Ok (wire m).
Proof.
  unfold marshal, unmarshal. destruct (Marshal m) as [b'|] eqn:E; [|done].
  intros [= <-]. by rewrite (Unmarshal_Marshal m b').
Qed.

Lemma RunMeta_roundtrip rec rec0 b :
  MarshalRunMeta rec = Ok b →
  UnmarshalRunMetaInto b rec0 =
    Ok (meta_into rec0 (Run_RunID rec) (Run_PipelineID rec) (Run_ResourceID rec)
          (Run_CreatedAt rec) (Run_Annotations rec)).
Proof.
  intros E. unfold UnmarshalRunMetaInto. rewrite (unmarshal_marshal _ _ _ _ E). cbn.
  by autorewrite with wire.
Qed.
Lemma Cursor_roundtrip c b : MarshalCursor c = Ok b → UnmarshalCursor b = Ok (stored_cursor c).
Proof.
  intros E. unfold UnmarshalCursor. rewrite (unmarshal_marshal _ _ _ _ E). cbn.
  by rewrite <-cursorFrom_To.
Qed.
Lemma OperationRecord_roundtrip op b :
  MarshalOperationRecord op = Ok b → UnmarshalOperationRecord b = Ok (stored_op op).
Proof.
  intros E. unfold UnmarshalOperationRecord. rewrite (unmarshal_marshal _ _ _ _ E). cbn.
  by rewrite <-operationRecordFrom_wire_To.
Qed.
Lemma FailureRecord_roundtrip f b :
  MarshalFailureRecord f = Ok b → UnmarshalFailureRecord b = Ok f.
Proof.
  intros E. unfold UnmarshalFailureRecord. rewrite (unmarshal_marshal _ _ _ _ E). cbn.
  unfold wire, wire_FailureRecord. by rewrite failureRecordFrom_To.
Qed.
Lemma Cancel_roundtrip c b : MarshalCancel c = Ok b → UnmarshalCancel b = Ok c.
Proof.
  intros E. unfold UnmarshalCancel. rewrite (unmarshal_marshal _ _ _ _ E). cbn.
  unfold wire, wire_CancelRequest. by rewrite cancelFrom_To.
Qed.

Lemma Terminal_roundtrip rec beside b :
  MarshalTerminal rec beside = Ok b →
  UnmarshalTerminalInto b run_zero = Ok (stored_terminal rec beside, beside).
Proof.
  unfold MarshalTerminal, UnmarshalTerminalInto. destruct (Run_Outcome rec) as [oc|] eqn:Hoc; [|done].
  intros E. rewrite (unmarshal_marshal _ _ _ _ E). cbn [decoded]. do 3 f_equal.
  unfold wire, wire_Terminal, wire_terminal, terminalFromProto, stored_terminal, CompactTerminal.
  unfold set_Output, set_Steps. cbn. rewrite Hoc. autorewrite with wire.
  f_equal; [by case_bool_decide|apply unwinds_into_failed| |by destruct beside|].
  - apply option_fmap_From_To, failureRecordFrom_To.
  - apply option_fmap_From_To, cancelFrom_To.
Qed.
End roundtrip.
