(* ===== verification/WireSample.v ===== *)
(** * WireSample: what survives storage (store/internal/storagepb)

    The round trips of the encoded records ([records_roundtrip]), and one lawful instance
    of [Wire.Protobuf] for the examples: a message is the list of its encoded fields,
    flattened to a string of binary digits. *)
From stdpp Require Import countable.
From S2P Require Import Prelude Kernel Driver Wire.

Fixpoint digits (p : positive) : string :=
  match p with
  | xH => EmptyString
  | xO p => String "0"%char (digits p)
  | xI p => String "1"%char (digits p)
  end.
Fixpoint undigits (s : string) : positive :=
  match s with
  | EmptyString => xH
  | String c s => if Ascii.eqb c "0"%char then xO (undigits s) else xI (undigits s)
  end.
Lemma undigits_digits p : undigits (digits p) = p.
Proof. by induction p as [p IH|p IH|]; simpl; rewrite ?IH. Qed.

#[local] Instance Timestamp_dec : EqDecision PB.Timestamp.
Proof. solve_decision. Defined.
#[local] Instance Await_dec : EqDecision PB.Await.
Proof. solve_decision. Defined.
#[local] Instance Wake_dec : EqDecision PB.Wake.
Proof. solve_decision. Defined.
#[local] Instance FailureRecord_dec : EqDecision PB.FailureRecord.
Proof. solve_decision. Defined.
#[local] Instance OperationRecord_dec : EqDecision PB.OperationRecord.
Proof. solve_decision. Defined.
#[local] Instance CancelRequest_dec : EqDecision PB.CancelRequest.
Proof. solve_decision. Defined.
#[local] Instance RunMeta_dec : EqDecision PB.RunMeta.
Proof. solve_decision. Defined.
#[local] Instance Cursor_dec : EqDecision PB.Cursor.
Proof. solve_decision. Defined.
#[local] Instance Terminal_dec : EqDecision PB.Terminal.
Proof. solve_decision. Defined.

Ltac fields := intros []; cbn; rewrite ?decode_encode; reflexivity.

#[local] Instance Timestamp_countable : Countable PB.Timestamp.
Proof.
  refine (inj_countable (A:=list positive)
  (λ t, [encode (PB.Seconds t); encode (PB.Nanos t)])
  (λ l, match l with [a; b] => a ← decode a; b ← decode b; Some (PB.mkTimestamp a b)
        | _ => None end) _); fields.
Defined.
#[local] Instance Await_countable : Countable PB.Await.
Proof.
  refine (inj_countable (A:=list positive)
  (λ t, [encode (PB.Mode t); encode (PB.RunIds t); encode (PB.Deadline t);
         encode (PB.CancelCascade t)])
  (λ l, match l with [a; b; c; d] =>
          a ← decode a; b ← decode b; c ← decode c; d ← decode d; Some (PB.mkAwait a b c d)
        | _ => None end) _); fields.
Defined.
#[local] Instance Wake_countable : Countable PB.Wake.
Proof.
  refine (inj_countable (A:=list positive)
  (λ t, [encode (PB.Targets t); encode (PB.Done t); encode (PB.Expired t)])
  (λ l, match l with [a; b; c] =>
          a ← decode a; b ← decode b; c ← decode c; Some (PB.mkWake a b c)
        | _ => None end) _); fields.
Defined.
#[local] Instance FailureRecord_countable : Countable PB.FailureRecord.
Proof.
  refine (inj_countable (A:=list positive)
  (λ t, [encode (PB.F_StepId t); encode (PB.F_Phase t); encode (PB.F_Attempt t);
         encode (PB.F_Message t); encode (PB.F_At t); encode (PB.F_Kind t);
         encode (PB.F_Reason t)])
  (λ l, match l with [a; b; c; d; e; f; g] =>
          a ← decode a; b ← decode b; c ← decode c; d ← decode d; e ← decode e;
          f ← decode f; g ← decode g; Some (PB.mkFailureRecord a b c d e f g)
        | _ => None end) _); fields.
Defined.
#[local] Instance OperationRecord_countable : Countable PB.OperationRecord.
Proof.
  refine (inj_countable (A:=list positive)
  (λ t, [encode (PB.O_Status t); encode (PB.O_Attempts t); encode (PB.O_State t);
         encode (PB.O_Failure t); encode (PB.O_Order t)])
  (λ l, match l with [a; b; c; d; e] =>
          a ← decode a; b ← decode b; c ← decode c; d ← decode d; e ← decode e;
          Some (PB.mkOperationRecord a b c d e)
        | _ => None end) _); fields.
Defined.
#[local] Instance CancelRequest_countable : Countable PB.CancelRequest.
Proof.
  refine (inj_countable (A:=list positive)
  (λ t, [encode (PB.C_Cause t); encode (PB.C_At t)])
  (λ l, match l with [a; b] => a ← decode a; b ← decode b; Some (PB.mkCancelRequest a b)
        | _ => None end) _); fields.
Defined.
#[local] Instance RunMeta_countable : Countable PB.RunMeta.
Proof.
  refine (inj_countable (A:=list positive)
  (λ t, [encode (PB.RunId t); encode (PB.PipelineId t); encode (PB.ResourceId t);
         encode (PB.CreatedAt t); encode (PB.Annotations t)])
  (λ l, match l with [a; b; c; d; e] =>
          a ← decode a; b ← decode b; c ← decode c; d ← decode d; e ← decode e;
          Some (PB.mkRunMeta a b c d e)
        | _ => None end) _); fields.
Defined.
#[local] Instance Cursor_countable : Countable PB.Cursor.
Proof.
  refine (inj_countable (A:=list positive)
  (λ t, [encode (PB.Phase t); encode (PB.StepId t); encode (PB.Attempts t);
         encode (PB.NextAttemptAt t); encode (PB.LastError t); encode (PB.LastReason t);
         encode (PB.LastErrorAt t); encode (PB.UpdatedAt t); encode (PB.Awaiting t);
         encode (PB.Awaited t); encode (PB.StartedAt t)])
  (λ l, match l with [a; b; c; d; e; f; g; h; i; j; k] =>
          a ← decode a; b ← decode b; c ← decode c; d ← decode d; e ← decode e;
          f ← decode f; g ← decode g; h ← decode h; i ← decode i; j ← decode j;
          k ← decode k; Some (PB.mkCursor a b c d e f g h i j k)
        | _ => None end) _); fields.
Defined.
#[local] Instance Terminal_countable : Countable PB.Terminal.
Proof.
  refine (inj_countable (A:=list positive)
  (λ t, [encode (PB.T_Outcome t); encode (PB.T_Output t); encode (PB.T_RunId t);
         encode (PB.T_PipelineId t); encode (PB.T_ResourceId t); encode (PB.T_CreatedAt t);
         encode (PB.T_Annotations t); encode (PB.T_Phase t); encode (PB.T_CommittedAt t);
         encode (PB.T_FailedUnwinds t); encode (PB.T_Failure t); encode (PB.T_Cancel t);
         encode (PB.T_OutputBeside t); encode (PB.T_StartedAt t)])
  (λ l, match l with [a; b; c; d; e; f; g; h; i; j; k; m; n; o] =>
          a ← decode a; b ← decode b; c ← decode c; d ← decode d; e ← decode e;
          f ← decode f; g ← decode g; h ← decode h; i ← decode i; j ← decode j;
          k ← decode k; m ← decode m; n ← decode n; o ← decode o;
          Some (PB.mkTerminal a b c d e f g h i j k m n o)
        | _ => None end) _); fields.
Defined.

Section codec.
Context {A : Type} `{Countable A, Wire A}.
Definition sample_codec : Codec A := {|
  Marshal m := Ok (digits (encode (wire m)));
  Unmarshal b := match decode (undigits b) with Some m => Ok m | None => Err "malformed" end;
|}.
Lemma sample_codec_laws : @CodecLaws A sample_codec _.
Proof. intros m b [= <-]. simpl. by rewrite undigits_digits, decode_encode. Qed.
End codec.

#[export] Instance sample_protobuf : Protobuf := {|
  codec_RunMeta := sample_codec; codec_Cursor := sample_codec;
  codec_OperationRecord := sample_codec; codec_FailureRecord := sample_codec;
  codec_Terminal := sample_codec; codec_CancelRequest := sample_codec;
|}.
#[export] Instance sample_protobuf_laws : ProtobufLaws.
Proof. split; apply sample_codec_laws. Qed.

Example sample_cursor :
  let c := mkCursor PhaseForward "step" 3 (Some (mkAwait AwaitModeAny ["a"; "b"] 5 true)) None
             7 "boom" "why" 8 9 10 in
  match MarshalCursor c with Ok b => UnmarshalCursor b = Ok c | Err _ => False end.
Proof. vm_compute. reflexivity. Qed.

(** ** The round trips *)

Lemma stored_op_stable op : stored_op (stored_op op) = stored_op op.
Proof. unfold stored_op. cbn. by destruct (Op_State op) as [[]|]. Qed.
Lemma stored_cursor_stable c : stored_cursor (stored_cursor c) = stored_cursor c.
Proof.
  unfold stored_cursor. cbn. f_equal. destruct (Cursor_Awaiting c) as [a|]; [|done].
  cbn. unfold stored_await. cbn. by destruct (Await_Mode a).
Qed.
Lemma compact_steps_stored steps :
  let f := λ sr, mkStepRecord op_zero (stored_op (SR_Unwind sr)) in
  f <$> compact_steps (f <$> compact_steps steps) = f <$> compact_steps steps.
Proof.
  intros f. apply map_eq. intros id. unfold compact_steps.
  repeat (rewrite lookup_fmap || rewrite map_lookup_filter).
  destruct (steps !! id) as [sr|]; [|done]. cbn.
  destruct (decide (Op_Status (SR_Unwind sr) = OpFailed)) as [Hf|Hf].
  - rewrite option_guard_True by done. cbn. rewrite option_guard_True by done. cbn.
    unfold f. cbn. by rewrite stored_op_stable.
  - by rewrite option_guard_False by done.
Qed.
Lemma compact_stable (F : gmap StepID StepRecord → gmap StepID StepRecord) (G : bytes → bytes) r :
  (∀ m, F (F m) = F m) → (∀ b, G (G b) = G b) →
  let st r := set_Output (G (Run_Output r)) (set_Steps (F (Run_Steps r)) (CompactTerminal r)) in
  st (st r) = st r.
Proof.
  intros HF HG st. unfold st, CompactTerminal.
  cbv beta iota zeta delta [set_Output set_Steps set_Input set_LastErrorAt set_NextAttemptAt
    set_LastReason set_LastError set_Awaited set_Awaiting Run_RunID Run_PipelineID Run_ResourceID
    Run_Annotations Run_Input Run_Phase Run_Steps Run_Failure Run_Output Run_Outcome
    Run_NextAttemptAt Run_Awaiting Run_Awaited Run_LastError Run_LastReason Run_LastErrorAt
    Run_Cancel Run_CreatedAt Run_UpdatedAt Run_StartedAt].
  destruct r. by rewrite HF, HG.
Qed.
Lemma stored_terminal_stable rec beside :
  stored_terminal (stored_terminal rec beside) beside = stored_terminal rec beside.
Proof.
  apply (compact_stable
    (λ m, (λ sr, mkStepRecord op_zero (stored_op (SR_Unwind sr))) <$> compact_steps m)
    (λ b, if beside then None else wire_bytes b)); [apply compact_steps_stored|].
  intros b. destruct beside; [done|]. by destruct b as [[]|].
Qed.

(** What an encoding and a decoding make of a value: [stored], and once more they are
    the identity. *)
Definition roundtrips {A B} (enc : A → result string string) (dec : string → result string B)
    (stored : A → B) (again : B → result string string) : Prop :=
  ∀ a b, enc a = Ok b →
    dec b = Ok (stored a) ∧ ∀ b', again (stored a) = Ok b' → dec b' = Ok (stored a).

(** C22: A record read back is the record that was stored, up to what the encoding does
    not tell apart: an empty operation state or output is missing, an await without a
    mode awaits all its targets, and a terminal row keeps of the steps the failed
    unwinds alone.  Times before 1970 and the zero time come back exactly.  Storing what
    was read and reading it again changes nothing. *)
Theorem records_roundtrip `{ProtobufLaws} :
  roundtrips MarshalCursor UnmarshalCursor stored_cursor MarshalCursor ∧
  roundtrips MarshalOperationRecord UnmarshalOperationRecord stored_op MarshalOperationRecord ∧
  roundtrips MarshalFailureRecord UnmarshalFailureRecord id MarshalFailureRecord ∧
  roundtrips MarshalCancel UnmarshalCancel id MarshalCancel ∧
  (∀ rec, roundtrips MarshalRunMeta (λ b, UnmarshalRunMetaInto b rec)
    (λ r, meta_into rec (Run_RunID r) (Run_PipelineID r) (Run_ResourceID r) (Run_CreatedAt r)
            (Run_Annotations r)) MarshalRunMeta) ∧
  ∀ beside, roundtrips (λ rec, MarshalTerminal rec beside) (λ b, UnmarshalTerminalInto b run_zero)
    (λ rec, (stored_terminal rec beside, beside)) (λ r, MarshalTerminal r.1 r.2).
Proof.
  split_and!.
  - intros c b E. split; [by apply Cursor_roundtrip|]. intros b' E'.
    rewrite (Cursor_roundtrip _ _ E'). by rewrite stored_cursor_stable.
  - intros op b E. split; [by apply OperationRecord_roundtrip|]. intros b' E'.
    rewrite (OperationRecord_roundtrip _ _ E'). by rewrite stored_op_stable.
  - intros f b E. split; [by apply FailureRecord_roundtrip|]. intros b' E'. by apply FailureRecord_roundtrip.
  - intros c b E. split; [by apply Cancel_roundtrip|]. intros b' E'. by apply Cancel_roundtrip.
  - intros rec r b E. split; [by apply RunMeta_roundtrip|]. intros b' E'.
    rewrite (RunMeta_roundtrip _ rec _ E'). unfold meta_into. cbn. do 2 f_equal.
    by repeat case_bool_decide.
  - intros beside rec b E. split; [by apply Terminal_roundtrip|]. intros b' E'. cbn in E'.
    rewrite (Terminal_roundtrip _ _ _ E'). by rewrite stored_terminal_stable.
Qed.
Definition ex_op : OperationRecord := mkOp OpSucceeded 2 (Some "state") None 7.
Lemma records_roundtrip_witness :
  match MarshalOperationRecord ex_op with Ok b => UnmarshalOperationRecord b = Ok ex_op | Err _ => False end.
Proof.
  destruct (records_roundtrip) as (_ & Hop & _).
  destruct (MarshalOperationRecord ex_op) as [b|e] eqn:E; [exact (proj1 (Hop ex_op b E))|].
  vm_compute in E. discriminate E.
Defined.
