(* ===== verification/Keys.v ===== *)
(** * Keys: the keys of the database rows (store/bbolt/store.go)

    A key is a list of bytes, compared bytewise as bbolt orders them.  Identifiers are
    NUL-free, which the Store contract promises; NUL separates the parts of a key. *)
From S2P Require Import Prelude Kernel Driver MemStore.

Abbreviation key := (list ascii).
Definition NUL : ascii := "000"%char.
Definition bs (s : string) : key := String.list_ascii_of_string s.
Definition of_bs (k : key) : string := String.string_of_list_ascii k.
Definition free (s : string) : Prop := NUL ∉ bs s.

(** Row tags of the active bucket, in sort order, and the parts of keys. *)
Definition tagMeta : ascii := "M"%char.
Definition tagCancel : ascii := "c"%char.
Definition tagFailure : ascii := "f"%char.
Definition tagInput : ascii := "i"%char.
Definition tagOp : ascii := "o"%char.
Definition stateSuffix : key := [NUL; "s"%char].
Definition blobKey : key := ["b"%char].

(** [binary.BigEndian.AppendUint32] and [AppendUint64]: [n] bytes, most significant
    first, and back. *)
Definition byte (z : Z) : ascii := ascii_of_N (Z.to_N (z mod 256)).
Definition byte_val (c : ascii) : Z := Z.of_N (N_of_ascii c).
Fixpoint be (n : nat) (z : Z) : key :=
  match n with
  | 0 => []
  | S n => byte (Z.shiftr z (8 * Z.of_nat n)) :: be n z
  end.
Definition be_val (k : key) : Z := foldl (λ acc c, acc * 256 + byte_val c)%Z 0%Z k.

Definition slotKeyFor (pipeline : PipelineID) (resource : ResourceID) : key :=
  bs pipeline ++ [NUL] ++ bs resource.
Definition runPrefix (id : RunID) : key := bs id ++ [NUL].
Definition activeKey (id : RunID) (tag : ascii) : key := runPrefix id ++ [tag].
Definition opPrefix (id : RunID) : key := activeKey id tagOp ++ [NUL].
Definition phaseByte (phase : Phase) : ascii :=
  match phase with PhaseUnwind => "u"%char | _ => "f"%char end.
(** The bytes of an operation key after its order. *)
Definition opSuffix (step : StepID) (phase : Phase) : key :=
  [NUL] ++ bs step ++ [NUL; phaseByte phase].
Definition opKey (id : RunID) (order : Z) (step : StepID) (phase : Phase) : key :=
  opPrefix id ++ be 4 order ++ opSuffix step phase.
Definition stateKey (k : key) : key := k ++ stateSuffix.
Definition outputKey (id : RunID) : key := bs id ++ [NUL; "O"%char].
(** The zero time encodes as zero; [uint64(t.UnixNano())] otherwise. *)
Definition expiryPrefix (t : Time) : key :=
  be 8 (if IsZero t then 0 else UnixNano t mod 2 ^ 64)%Z.
Definition expiryKey (t : Time) (id : RunID) : key := expiryPrefix t ++ bs id.

(** [splitActiveKey]: the id, the tag and the rest of an active key. *)
Fixpoint split_nul (k : key) : option (key * key) :=
  match k with
  | [] => None
  | c :: k =>
    if decide (c = NUL) then Some ([], k)
    else match split_nul k with Some (a, b) => Some (c :: a, b) | None => None end
  end.
Definition splitActiveKey (k : key) : option (key * ascii * key) :=
  match split_nul k with
  | Some (id, tag :: rest) => Some (id, tag, rest)
  | _ => None
  end.

(** [splitOpRest]: order, step and phase from the bytes after the tag of an operation
    row. *)
Definition splitOpRest (rest : key) : option (Z * StepID * Phase) :=
  if bool_decide (length rest < 8) then None
  else if bool_decide (rest !! 0 = Some NUL ∧ rest !! 5 = Some NUL ∧
                       rest !! (length rest - 2) = Some NUL)
  then
    let tail := drop 6 rest in
    Some (be_val (take 4 (drop 1 rest)), of_bs (take (length tail - 2) tail),
          if bool_decide (last tail = Some "u"%char) then PhaseUnwind else PhaseForward)
  else None.

(** [bytes.HasPrefix], [bytes.HasSuffix] and [bytes.Compare]. *)
Fixpoint has_prefix (p k : key) : bool :=
  match p, k with
  | [], _ => true
  | a :: p, b :: k => bool_decide (a = b) && has_prefix p k
  | _ :: _, [] => false
  end.
Definition has_suffix (s k : key) : bool := has_prefix (reverse s) (reverse k).
Fixpoint key_lt (a b : key) : bool :=
  match a, b with
  | [], [] => false
  | [], _ :: _ => true
  | _ :: _, [] => false
  | x :: a, y :: b =>
    if (byte_val x <? byte_val y)%Z then true
    else if (byte_val y <? byte_val x)%Z then false
    else key_lt a b
  end.

Example sample_split :
  splitActiveKey (opKey "run" 258 "step" PhaseUnwind) =
    Some (bs "run", tagOp, [NUL] ++ be 4 258 ++ opSuffix "step" PhaseUnwind) ∧
  splitOpRest ([NUL] ++ be 4 258 ++ opSuffix "step" PhaseUnwind) = Some (258%Z, "step", PhaseUnwind).
Proof. by vm_compute. Qed.

(** ** Bytes and integers *)

Lemma byte_val_byte z : byte_val (byte z) = (z mod 256)%Z.
Proof.
  unfold byte_val, byte. pose proof (Z.mod_pos_bound z 256).
  rewrite N_ascii_embedding by lia. lia.
Qed.
Lemma byte_val_range c : (0 <= byte_val c < 256)%Z.
Proof. unfold byte_val. pose proof (N_ascii_bounded c). lia. Qed.
Lemma byte_val_inj c c' : byte_val c = byte_val c' → c = c'.
Proof.
  unfold byte_val. intros E. rewrite <-(ascii_N_embedding c), <-(ascii_N_embedding c').
  f_equal. lia.
Qed.
Lemma length_be n z : length (be n z) = n.
Proof. induction n; simpl; congruence. Qed.

Lemma be_val_app k k' : be_val (k ++ k') =
  foldl (λ acc c, acc * 256 + byte_val c)%Z (be_val k) k'.
Proof. unfold be_val. by rewrite foldl_app. Qed.
Lemma be_val_acc n z acc : foldl (λ acc c, acc * 256 + byte_val c)%Z acc (be n z) =
  (acc * 2 ^ (8 * Z.of_nat n) + z mod 2 ^ (8 * Z.of_nat n))%Z.
Proof.
  revert acc; induction n as [|n IH]; intros acc.
  - simpl. rewrite Z.mod_1_r. lia.
  - cbn [be foldl]. rewrite IH, byte_val_byte, Z.shiftr_div_pow2 by lia.
    replace (8 * Z.of_nat (S n))%Z with (8 * Z.of_nat n + 8)%Z by lia.
    rewrite Z.pow_add_r by lia. change (2 ^ 8)%Z with 256%Z.
    rewrite (Z.rem_mul_r z) by lia. nia.
Qed.
Lemma be_val_be n z : (0 <= z < 2 ^ (8 * Z.of_nat n))%Z → be_val (be n z) = z.
Proof. intros Hz. unfold be_val. rewrite be_val_acc. rewrite Z.mod_small; lia. Qed.

(** ** The order of keys *)

Lemma key_lt_irrefl k : key_lt k k = false.
Proof. induction k as [|c k IH]; [done|]. simpl. by rewrite Z.ltb_irrefl. Qed.
Lemma key_lt_app p a b : key_lt (p ++ a) (p ++ b) = key_lt a b.
Proof. induction p as [|c p IH]; [done|]. simpl. by rewrite Z.ltb_irrefl. Qed.
Lemma key_lt_trans a b c : key_lt a b = true → key_lt b c = true → key_lt a c = true.
Proof.
  revert b c; induction a as [|x a IH]; intros [|y b] [|z c]; simpl; try done.
  repeat case_match; zbool; try done; try lia. apply IH.
Qed.
Lemma key_lt_total a b : a ≠ b → key_lt a b = false → key_lt b a = true.
Proof.
  revert b; induction a as [|x a IH]; intros [|y b]; simpl; try done.
  intros Hne. repeat case_match; zbool; try done; try lia. apply IH.
  intros ->. apply Hne. f_equal. apply byte_val_inj. lia.
Qed.
Lemma key_lt_asym a b : key_lt a b = true → key_lt b a = false.
Proof.
  intros Hab. destruct (key_lt b a) eqn:E; [|done].
  pose proof (key_lt_trans _ _ _ Hab E) as Hc. by rewrite key_lt_irrefl in Hc.
Qed.
Lemma key_lt_extend a c r : key_lt a (a ++ c :: r) = true.
Proof.
  rewrite <-(app_nil_r a) at 1. by rewrite key_lt_app.
Qed.
(** A key below another stays below it when extended, unless it is its prefix. *)
Lemma key_lt_app_l a b r : key_lt a b = true → ¬ a `prefix_of` b → key_lt (a ++ r) b = true.
Proof.
  revert b; induction a as [|x a IH]; intros [|y b] Hlt Hp; try done.
  - by destruct Hp; exists (y :: b).
  - simpl in *. repeat case_match; zbool; try done. apply IH; [done|].
    intros Hab. apply Hp. rewrite (byte_val_inj x y) by lia. by apply prefix_cons.
Qed.
Lemma key_lt_app_r a b r : key_lt a b = true → key_lt a (b ++ r) = true.
Proof.
  revert b; induction a as [|x a IH]; intros [|y b] Hlt; try done.
  simpl in *. repeat case_match; try done. by apply IH.
Qed.
(** Big-endian encodings of one width sort as their values. *)
Lemma key_lt_be_mod n z z' r r' :
  (z mod 2 ^ (8 * Z.of_nat n) < z' mod 2 ^ (8 * Z.of_nat n))%Z →
  key_lt (be n z ++ r) (be n z' ++ r') = true.
Proof.
  induction n as [|n IH]; [rewrite !Z.mod_1_r; lia|].
  cbn [be app key_lt]. rewrite !byte_val_byte, !Z.shiftr_div_pow2 by lia.
  replace (8 * Z.of_nat (S n))%Z with (8 * Z.of_nat n + 8)%Z by lia.
  rewrite Z.pow_add_r by lia. change (2 ^ 8)%Z with 256%Z.
  rewrite !Z.rem_mul_r by lia. intros Hlt.
  pose proof (Z.mod_pos_bound z (2 ^ (8 * Z.of_nat n))).
  pose proof (Z.mod_pos_bound z' (2 ^ (8 * Z.of_nat n))).
  repeat case_match; zbool; [done|nia|]. apply IH. nia.
Qed.
Lemma key_lt_be n z z' r r' :
  (0 <= z < z')%Z → (z' < 2 ^ (8 * Z.of_nat n))%Z →
  key_lt (be n z ++ r) (be n z' ++ r') = true.
Proof. intros. apply key_lt_be_mod. rewrite !Z.mod_small; lia. Qed.

(** ** Prefixes *)

Lemma has_prefix_spec p k : has_prefix p k = true ↔ p `prefix_of` k.
Proof.
  revert k; induction p as [|a p IH]; intros k; simpl.
  - split; [intros _; by exists k|done].
  - destruct k as [|b k]; [split; [done|intros [x Hx]; done]|].
    rewrite andb_true_iff, bool_decide_eq_true, IH. split.
    + intros [-> Hp]. by apply prefix_cons.
    + intros Hp. by apply prefix_cons_inv_1 in Hp as Ha; apply prefix_cons_inv_2 in Hp.
Qed.
Lemma has_prefix_app p k : has_prefix p (p ++ k) = true.
Proof. apply has_prefix_spec. by exists k. Qed.
Lemma has_suffix_spec s k : has_suffix s k = true ↔ s `suffix_of` k.
Proof. unfold has_suffix. by rewrite has_prefix_spec, <-suffix_prefix_reverse. Qed.

(** ** Strings as bytes *)

Lemma of_bs_bs s : of_bs (bs s) = s.
Proof. apply String.string_of_list_ascii_of_string. Qed.
Lemma bs_of_bs k : bs (of_bs k) = k.
Proof. apply String.list_ascii_of_string_of_list_ascii. Qed.
Lemma bs_inj a b : bs a = bs b → a = b.
Proof. intros E. by rewrite <-(of_bs_bs a), E, of_bs_bs. Qed.

(** A NUL-free part ends at the first NUL. *)
Lemma free_split a b r r' :
  NUL ∉ a → NUL ∉ b → a ++ NUL :: r = b ++ NUL :: r' → a = b ∧ r = r'.
Proof.
  revert b; induction a as [|x a IH]; intros [|y b]; simpl.
  - naive_solver.
  - intros _ Hb [= <- _]. set_solver.
  - intros Ha _ [= -> _]. set_solver.
  - intros Ha Hb [= -> E]. destruct (IH b) as [-> ->]; [set_solver|set_solver|done|done].
Qed.
Lemma split_nul_app a r : NUL ∉ a → split_nul (a ++ NUL :: r) = Some (a, r).
Proof.
  induction a as [|x a IH]; intros Ha; simpl; [done|].
  rewrite decide_False by set_solver. by rewrite IH by set_solver.
Qed.

Lemma runPrefix_of_id id id' k :
  free id → free id' → runPrefix id `prefix_of` k → runPrefix id' `prefix_of` k → id = id'.
Proof.
  unfold runPrefix. intros Hf Hf' [x ->] [y E]. rewrite <-!app_assoc in E. simpl in E.
  destruct (free_split _ _ _ _ Hf Hf' E) as [Hid _]. by apply bs_inj.
Qed.

(** ** Parsing inverts the key functions *)

Lemma splitActiveKey_active id tag r :
  free id → splitActiveKey (activeKey id tag ++ r) = Some (bs id, tag, r).
Proof.
  intros Hf. unfold splitActiveKey, activeKey, runPrefix. rewrite <-!app_assoc. simpl.
  by rewrite split_nul_app.
Qed.

Definition op_phase (p : Phase) : Phase :=
  match p with PhaseUnwind => PhaseUnwind | _ => PhaseForward end.

Lemma splitOpRest_op order step phase :
  (0 <= order < 2 ^ 32)%Z →
  splitOpRest ([NUL] ++ be 4 order ++ opSuffix step phase) = Some (order, step, op_phase phase).
Proof.
  intros Ho. unfold splitOpRest.
  set (rest := [NUL] ++ be 4 order ++ opSuffix step phase).
  assert (length rest = 8 + length (bs step)) as Hlen.
  { unfold rest, opSuffix. rewrite !length_app, length_be. simpl. lia. }
  rewrite bool_decide_eq_false_2 by lia. rewrite bool_decide_eq_true_2.
  - change (drop 6 rest) with (drop 5 (be 4 order ++ opSuffix step phase)).
    change (drop 1 rest) with (be 4 order ++ opSuffix step phase).
    rewrite (take_app_length' (be 4 order)) by (by rewrite length_be).
    rewrite be_val_be by lia.
    assert (drop 5 (be 4 order ++ opSuffix step phase) = bs step ++ [NUL; phaseByte phase]) as ->.
    { rewrite drop_app_ge by (rewrite length_be; lia). by rewrite length_be. }
    rewrite length_app, last_app. simpl.
    rewrite Nat.add_sub, take_app_length, of_bs_bs.
    do 2 f_equal. by destruct phase.
  - rewrite Hlen. unfold rest. split_and!; [done| |].
    + rewrite lookup_app_r by (simpl; lia). rewrite lookup_app_r by (rewrite length_be; simpl; lia).
      by rewrite length_be.
    + rewrite lookup_app_r by (simpl; lia).
      rewrite lookup_app_r by (rewrite length_be; simpl; lia). rewrite length_be.
      unfold opSuffix. rewrite lookup_app_r by (simpl; lia). simpl.
      rewrite lookup_app_r by lia.
      by replace (_ - _) with 0 by lia.
Qed.

(** ** The keys of a run's operations *)

Lemma op_rest_inj order order' step step' phase phase' :
  (0 <= order < 2 ^ 32)%Z → (0 <= order' < 2 ^ 32)%Z →
  [NUL] ++ be 4 order ++ opSuffix step phase = [NUL] ++ be 4 order' ++ opSuffix step' phase' →
  order = order' ∧ step = step' ∧ op_phase phase = op_phase phase'.
Proof.
  intros Ho Ho' E. pose proof (splitOpRest_op order step phase Ho) as Hp. rewrite E in Hp.
  rewrite splitOpRest_op in Hp by done. by injection Hp.
Qed.
Lemma opKey_rest id order step phase :
  opKey id order step phase = activeKey id tagOp ++ [NUL] ++ be 4 order ++ opSuffix step phase.
Proof. unfold opKey, opPrefix. by rewrite <-app_assoc. Qed.
Lemma active_inj id id' tag tag' r r' :
  free id → free id' → activeKey id tag ++ r = activeKey id' tag' ++ r' →
  id = id' ∧ tag = tag' ∧ r = r'.
Proof.
  unfold activeKey, runPrefix. rewrite <-!app_assoc. intros Hf Hf' E.
  destruct (free_split _ _ _ _ Hf Hf' E) as [Hi E']. apply bs_inj in Hi. by injection E'.
Qed.
Lemma last_two (a b : key) x y x' y' : a ++ [x; y] = b ++ [x'; y'] → a = b ∧ x = x' ∧ y = y'.
Proof. intros [? [= -> ->]]%app_inj_2; done. Qed.

(** C23: The key of an operation row names one operation: splitting it gives back the
    run, the order, the step and the phase it was made of, whatever bytes the order
    encodes to; and it is never the key of the state beside a row. *)
Theorem operation_keys_roundtrip id order step phase :
  free id → free step → (0 <= order < 2 ^ 32)%Z →
  (∃ rest, splitActiveKey (opKey id order step phase) = Some (bs id, tagOp, rest) ∧
    splitOpRest rest = Some (order, step, op_phase phase)) ∧
  ∀ id' order' step' phase', free id' → free step' → (0 <= order' < 2 ^ 32)%Z →
    (opKey id order step phase = opKey id' order' step' phase' →
      id = id' ∧ order = order' ∧ step = step' ∧ op_phase phase = op_phase phase') ∧
    stateKey (opKey id order step phase) ≠ opKey id' order' step' phase'.
Proof.
  intros Hid Hstep Ho. split.
  { rewrite opKey_rest. eexists. split; [by apply splitActiveKey_active|by apply splitOpRest_op]. }
  intros id' order' step' phase' Hid' Hstep' Ho'. rewrite !opKey_rest. split.
  - intros E. destruct (active_inj _ _ _ _ _ _ Hid Hid' E) as (-> & _ & E').
    by destruct (op_rest_inj order order' step step' phase phase' Ho Ho' E') as (-> & -> & ->).
  - unfold stateKey. rewrite <-app_assoc. intros E.
    destruct (active_inj _ _ _ _ _ _ Hid Hid' E) as (_ & _ & E').
    assert (length ([NUL] ++ be 4 order ++ [NUL]) = length ([NUL] ++ be 4 order' ++ [NUL])) as Hl.
    { by rewrite !length_app, !length_be. }
    unfold opSuffix in E'. rewrite <-!app_assoc in E'.
    rewrite !(app_assoc (be 4 _) [NUL]), !(app_assoc [NUL] (be 4 _ ++ [NUL])) in E'.
    apply (app_inj_1 _ _ _ _ Hl) in E' as [_ E']. rewrite app_assoc in E'.
    destruct (last_two _ _ _ _ _ _ E') as (E'' & _ & _).
    apply Hstep'. rewrite <-E''. apply elem_of_app. right. by left.
Qed.
Lemma operation_keys_roundtrip_witness :
  free "run" ∧ free "step" ∧ stateKey (opKey "run" 258 "step" PhaseUnwind) ≠ opKey "run" 258 "step" PhaseForward.
Proof.
  assert (free "run" ∧ free "step") as [Hr Hs].
  { unfold free. split; apply (bool_decide_unpack _); vm_compute; done. }
  split_and!; [done|done|].
  by apply (operation_keys_roundtrip "run" 258 "step" PhaseUnwind Hr Hs).
Defined.

(** The rows of two runs do not interleave. *)
Lemma nul_least c : NUL ≠ c → (byte_val NUL < byte_val c)%Z.
Proof.
  intros Hc. pose proof (byte_val_range c). change (byte_val NUL) with 0%Z.
  destruct (Z.eq_dec (byte_val c) 0) as [E|]; [|lia]. by destruct Hc; apply byte_val_inj.
Qed.
Lemma key_lt_free a b r r' s s' :
  NUL ∉ a → NUL ∉ b → a ≠ b →
  key_lt (a ++ NUL :: r) (b ++ NUL :: s) = true → key_lt (a ++ NUL :: r') (b ++ NUL :: s') = true.
Proof.
  revert b; induction a as [|x a IH]; intros [|y b] Ha Hb Hne.
  - done.
  - assert (NUL ≠ y) as Hy%nul_least by set_solver. cbn [app key_lt].
    by rewrite (proj2 (Z.ltb_lt _ _) Hy).
  - assert (NUL ≠ x) as Hx%nul_least by set_solver. cbn [app key_lt].
    rewrite (proj2 (Z.ltb_ge (byte_val x) (byte_val NUL))) by lia.
    by rewrite (proj2 (Z.ltb_lt _ _) Hx).
  - cbn [app key_lt]. destruct (byte_val x <? byte_val y)%Z eqn:?, (byte_val y <? byte_val x)%Z eqn:?; zbool; try done.
    apply IH; [set_solver|set_solver|]. intros ->. apply Hne. f_equal. apply byte_val_inj. lia.
Qed.
Lemma key_lt_apart id id' a a' k :
  free id → free id' → id' ≠ id → runPrefix id `prefix_of` a → runPrefix id `prefix_of` a' →
  runPrefix id' `prefix_of` k → key_lt a k = true → key_lt a' k = true.
Proof.
  unfold runPrefix. intros Hf Hf' Hne [r ->] [r' ->] [s ->]. rewrite <-!app_assoc.
  apply key_lt_free; [done|done|]. intros ?%bs_inj. congruence.
Qed.

(** The rows of the active bucket a run may have, beside its operations. *)
Definition row_tags : list ascii := [tagMeta; tagCancel; tagFailure; tagInput].

(** A run's rows lie together and sort as a read of it walks them: its metadata,
    cancel request, failure and input first, then its operations by order, each one's
    state right after it; and a row of another run never lies between. *)
Theorem operation_keys_sorted id order order' step step' phase phase' :
  free id → (0 <= order < order')%Z → (order' < 2 ^ 32)%Z →
  key_lt (opKey id order step phase) (stateKey (opKey id order step phase)) = true ∧
  key_lt (stateKey (opKey id order step phase)) (opKey id order' step' phase') = true ∧
  (∀ tag, tag ∈ row_tags → key_lt (activeKey id tag) (opKey id order step phase) = true) ∧
  ∀ id' k, free id' → id' ≠ id → runPrefix id' `prefix_of` k →
    (key_lt (activeKey id tagMeta) k = true → key_lt (stateKey (opKey id order' step' phase')) k = true).
Proof.
  intros Hid Ho Ho'. split_and!.
  - apply key_lt_extend.
  - unfold stateKey, opKey. rewrite <-!app_assoc, key_lt_app. by apply key_lt_be.
  - intros tag Ht. unfold opKey, opPrefix, activeKey. rewrite <-!app_assoc, key_lt_app.
    unfold row_tags in Ht. set_unfold. by destruct_or!; subst.
  - intros id' k Hid' Hne Hk Hlt. apply (key_lt_apart id id' (activeKey id tagMeta)); try done.
    + by exists [tagMeta].
    + unfold stateKey, opKey, opPrefix, activeKey. rewrite <-!app_assoc. by eexists.
Qed.
Lemma operation_keys_sorted_witness :
  free "run" ∧ key_lt (stateKey (opKey "run" 255 "z" PhaseUnwind)) (opKey "run" 256 "a" PhaseForward) = true.
Proof.
  assert (free "run") as Hr by (unfold free; apply (bool_decide_unpack _); vm_compute; done).
  split; [done|]. by apply (operation_keys_sorted "run" 255 256 "z" "a" PhaseUnwind PhaseForward Hr).
Defined.
