(* ===== verification/BlobCache.v ===== *)
(** * BlobCache: the cache of run blobs (store/bbolt/blobcache.go)

    The list of elements and the index that points into it are the list of the cached
    ids, most recently used first, and a map from id to entry.  Every method runs under
    the cache's mutex.  The slices handed in and out are immutable by contract. *)
From S2P Require Import Prelude Kernel.

(** The sum of a measure over a map. *)
Definition map_sum {K V} `{Countable K} (f : V → Z) (m : gmap K V) : Z :=
  map_fold (λ _ v acc, (acc + f v)%Z) 0%Z m.

Record runBlobs := mkBlobs {
  rb_input : bytes;
  rb_states : gmap StepID bytes;
  rb_output : bytes;
  rb_size : Z;
}.
Record blobCache := mkCache {
  bc_order : list RunID;
  bc_byID : gmap RunID runBlobs;
  bc_size : Z;
  bc_limit : Z;
}.
Definition newBlobCache (limit : Z) : blobCache := mkCache [] ∅ 0 limit.
Definition no_blobs : runBlobs := mkBlobs None ∅ None 0.

Definition front (id : RunID) (order : list RunID) : list RunID :=
  id :: filter (λ x, x ≠ id) order.

(** [touch]: the entry, moved to the front or created; [None] with a zero limit. *)
Definition touch (c : blobCache) (id : RunID) : blobCache * option runBlobs :=
  if (bc_limit c <=? 0)%Z then (c, None)
  else match bc_byID c !! id with
  | Some rb => (mkCache (front id (bc_order c)) (bc_byID c) (bc_size c) (bc_limit c), Some rb)
  | None =>
    (mkCache (id :: bc_order c) (<[id := no_blobs]> (bc_byID c)) (bc_size c) (bc_limit c),
     Some no_blobs)
  end.

Definition remove (c : blobCache) (id : RunID) : blobCache :=
  match bc_byID c !! id with
  | Some rb => mkCache (filter (λ x, x ≠ id) (bc_order c)) (delete id (bc_byID c))
                 (bc_size c - rb_size rb) (bc_limit c)
  | None => c
  end.

(** [evict], on the order from its back. *)
Fixpoint evict_in (rorder : list RunID) (c : blobCache) (keep : RunID) : blobCache :=
  if (bc_size c <=? bc_limit c)%Z then c
  else match rorder with
  | [] => c
  | id :: rorder =>
    if decide (id = keep) then remove c id else evict_in rorder (remove c id) keep
  end.
Definition evict (c : blobCache) (keep : RunID) : blobCache :=
  evict_in (reverse (bc_order c)) c keep.

(** Writing the entry through the pointer [touch] returned, with the change of its
    size, then evicting. *)
Definition write (c : blobCache) (id : RunID) (rb : runBlobs) (grown : Z) : blobCache :=
  mkCache (bc_order c)
    (<[id := mkBlobs (rb_input rb) (rb_states rb) (rb_output rb) (rb_size rb + grown)]>
       (bc_byID c)) (bc_size c + grown) (bc_limit c).

Definition setInput (c : blobCache) (id : RunID) (input : bytes) : blobCache :=
  if (blen input =? 0)%Z then c
  else match touch c id with
  | (c, None) => c
  | (c, Some rb) =>
    evict (write c id (mkBlobs input (rb_states rb) (rb_output rb) (rb_size rb))
             (blen input - blen (rb_input rb))) id
  end.

Definition setState (c : blobCache) (id : RunID) (step : StepID) (state : bytes) : blobCache :=
  match touch c id with
  | (c, None) => c
  | (c, Some rb) =>
    let '(c, rb) :=
      match rb_states rb !! step with
      | Some old =>
        let rb' := mkBlobs (rb_input rb) (delete step (rb_states rb)) (rb_output rb)
                     (rb_size rb - blen old) in
        (write c id (mkBlobs (rb_input rb) (delete step (rb_states rb)) (rb_output rb)
                       (rb_size rb)) (- blen old), rb')
      | None => (c, rb)
      end in
    if (blen state =? 0)%Z then c
    else evict (write c id (mkBlobs (rb_input rb) (<[step := state]> (rb_states rb))
                              (rb_output rb) (rb_size rb)) (blen state)) id
  end.

Definition setOutput (c : blobCache) (id : RunID) (output : bytes) : blobCache :=
  if (blen output =? 0)%Z then c
  else match touch c id with
  | (c, None) => c
  | (c, Some rb) =>
    evict (write c id (mkBlobs (rb_input rb) (rb_states rb) output (rb_size rb))
             (blen output - blen (rb_output rb))) id
  end.

Definition states_len (m : gmap StepID bytes) : Z :=
  map_sum blen m.
Definition need (rb : runBlobs) : Z :=
  (blen (rb_input rb) + blen (rb_output rb) + states_len (rb_states rb))%Z.

Definition filled (c : blobCache) (id : RunID) (rb : runBlobs) : blobCache :=
  mkCache (id :: bc_order c)
    (<[id := mkBlobs (rb_input rb) (rb_states rb) (rb_output rb) (need rb)]> (bc_byID c))
    (bc_size c + need rb) (bc_limit c).
Definition fill (c : blobCache) (id : RunID) (rb : runBlobs) : blobCache :=
  if (need rb =? 0)%Z || (bc_limit c <=? 0)%Z then c
  else match bc_byID c !! id with
  | Some _ => c
  | None => evict (filled c id rb) id
  end.

Definition dropRun (c : blobCache) (id : RunID) : blobCache := remove c id.

(** [lookup] and the three reads. *)
Definition lookup_blobs (c : blobCache) (id : RunID) : blobCache * option runBlobs :=
  match bc_byID c !! id with
  | Some rb => (mkCache (front id (bc_order c)) (bc_byID c) (bc_size c) (bc_limit c), Some rb)
  | None => (c, None)
  end.
Definition input (c : blobCache) (id : RunID) : blobCache * (bytes * bool) :=
  match lookup_blobs c id with
  | (c, Some rb) => (c, (rb_input rb, true))
  | (c, None) => (c, (None, false))
  end.
Definition state (c : blobCache) (id : RunID) (step : StepID) : blobCache * bytes :=
  match lookup_blobs c id with
  | (c, Some rb) => (c, default None (rb_states rb !! step))
  | (c, None) => (c, None)
  end.
Definition output (c : blobCache) (id : RunID) : blobCache * bytes :=
  match lookup_blobs c id with
  | (c, Some rb) => (c, rb_output rb)
  | (c, None) => (c, None)
  end.
Definition has (c : blobCache) (id : RunID) : bool := bool_decide (is_Some (bc_byID c !! id)).

(** ** Invariant *)

Definition total (m : gmap RunID runBlobs) : Z := map_sum rb_size m.

Record cache_ok (c : blobCache) : Prop := {
  ck_order : NoDup (bc_order c);
  ck_index id : id ∈ bc_order c ↔ is_Some (bc_byID c !! id);
  ck_entry id rb : bc_byID c !! id = Some rb → rb_size rb = need rb;
  ck_size : bc_size c = total (bc_byID c);
  ck_zero : (bc_limit c <= 0)%Z → bc_byID c = ∅;
}.
(** Between two methods the cache also fits its limit. *)
Definition cache_fits (c : blobCache) : Prop := (bc_size c <= Z.max 0 (bc_limit c))%Z.

Inductive cache_op :=
| SetInput (id : RunID) (b : bytes) | SetState (id : RunID) (step : StepID) (b : bytes)
| SetOutput (id : RunID) (b : bytes) | Fill (id : RunID) (rb : runBlobs) | Drop (id : RunID)
| ReadInput (id : RunID) | ReadState (id : RunID) (step : StepID) | ReadOutput (id : RunID).
Definition run_op (c : blobCache) (o : cache_op) : blobCache :=
  match o with
  | SetInput id b => setInput c id b
  | SetState id step b => setState c id step b
  | SetOutput id b => setOutput c id b
  | Fill id rb => fill c id rb
  | Drop id => dropRun c id
  | ReadInput id => (input c id).1
  | ReadState id step => (state c id step).1
  | ReadOutput id => (output c id).1
  end.

Section sums.
Context {K V : Type} `{Countable K} (f : V → Z).

Lemma map_sum_empty : map_sum f (∅ : gmap K V) = 0%Z.
Proof. apply map_fold_empty. Qed.
Lemma map_sum_insert (m : gmap K V) k v :
  map_sum f (<[k := v]> m) = (map_sum f (delete k m) + f v)%Z.
Proof.
  unfold map_sum. rewrite <-insert_delete_eq. rewrite map_fold_insert_L; [done| |apply lookup_delete_eq].
  intros. lia.
Qed.
Lemma map_sum_delete (m : gmap K V) k v :
  m !! k = Some v → map_sum f m = (map_sum f (delete k m) + f v)%Z.
Proof. intros Hk. rewrite <-(insert_id m k v Hk) at 1. apply map_sum_insert. Qed.
Lemma map_sum_delete_None (m : gmap K V) k : m !! k = None → map_sum f (delete k m) = map_sum f m.
Proof. intros Hk. by rewrite delete_id. Qed.
Lemma map_sum_nonneg (m : gmap K V) : (∀ k v, m !! k = Some v → (0 <= f v)%Z) → (0 <= map_sum f m)%Z.
Proof.
  induction m as [|k v m Hk IH] using map_ind; intros Hf; [by rewrite map_sum_empty|].
  rewrite map_sum_insert, delete_id by done.
  assert (0 <= f v)%Z by (apply (Hf k), lookup_insert_eq).
  assert (0 <= map_sum f m)%Z; [|lia]. apply IH. intros k' v' Hk'. apply (Hf k').
  rewrite lookup_insert_ne; [done|]. intros ->. congruence.
Qed.
End sums.

Lemma blen_nonneg b : (0 <= blen b)%Z.
Proof. destruct b; simpl; lia. Qed.
Lemma need_nonneg rb : (0 <= need rb)%Z.
Proof.
  unfold need, states_len. pose proof (blen_nonneg (rb_input rb)).
  pose proof (blen_nonneg (rb_output rb)).
  pose proof (map_sum_nonneg blen (rb_states rb) (λ _ b _, blen_nonneg b)). lia.
Qed.

(** ** What an operation may change

    The entries of a cache, and that an operation only drops some and writes one. *)

Lemma front_elem id x order : x ∈ front id order ↔ x = id ∨ x ∈ order.
Proof.
  unfold front. rewrite elem_of_cons, list_elem_of_filter. destruct (decide (x = id)); naive_solver.
Qed.
Lemma front_NoDup id order : NoDup order → NoDup (front id order).
Proof.
  intros Hn. apply NoDup_cons. split; [|by apply NoDup_filter].
  rewrite list_elem_of_filter. tauto.
Qed.

Lemma remove_ok c id : cache_ok c → cache_ok (remove c id).
Proof.
  intros [Ho Hi He Hs Hz]. unfold remove. destruct (bc_byID c !! id) as [rb|] eqn:E; [|done].
  constructor; cbn.
  - by apply NoDup_filter.
  - intros x. rewrite list_elem_of_filter, Hi. destruct (decide (x = id)) as [->|Hx].
    + rewrite lookup_delete_eq. split; [tauto|by intros []].
    + rewrite lookup_delete_ne by done. tauto.
  - intros x rb' Hx. apply lookup_delete_Some in Hx as [_ Hx]. by apply (He x).
  - rewrite Hs. unfold total. rewrite (map_sum_delete rb_size _ id rb) by done. lia.
  - intros Hl. rewrite (Hz Hl). apply delete_empty.
Qed.

Lemma write_ok c id rb rb0 grown :
  cache_ok c → bc_byID c !! id = Some rb0 → rb_size rb = rb_size rb0 →
  (rb_size rb + grown)%Z = need rb → cache_ok (write c id rb grown).
Proof.
  intros [Ho Hi He Hs Hz] Hid Hsz Hn. constructor; cbn; [done| | | |].
  - intros x. rewrite Hi, lookup_insert_is_Some. destruct (decide (id = x)) as [->|]; naive_solver.
  - intros x rb' Hx. apply lookup_insert_Some in Hx as [[<- <-]|[_ Hx]]; [done|by apply (He x)].
  - unfold total. rewrite map_sum_insert. cbn. rewrite Hs. unfold total.
    rewrite (map_sum_delete rb_size _ id rb0) by done. lia.
  - intros Hl. by rewrite (Hz Hl), lookup_empty in Hid.
Qed.

Lemma evict_in_ok rorder c keep : cache_ok c → cache_ok (evict_in rorder c keep).
Proof.
  revert c; induction rorder as [|id rorder IH]; intros c Hc; simpl; case_match; try done.
  case_decide; [by apply remove_ok|]. by apply IH, remove_ok.
Qed.
Lemma evict_ok c keep : cache_ok c → cache_ok (evict c keep).
Proof. apply evict_in_ok. Qed.

Lemma touch_ok c id : cache_ok c → cache_ok (touch c id).1.
Proof.
  intros [Ho Hi He Hs Hz]. unfold touch. destruct (bc_limit c <=? 0)%Z eqn:El; [done|].
  zbool. destruct (bc_byID c !! id) as [rb|] eqn:E; constructor; cbn; try (done || lia).
  - by apply front_NoDup.
  - intros x. rewrite front_elem, Hi. split; [|tauto]. intros [->|]; [by eexists|done].
  - apply NoDup_cons. rewrite Hi, E. split; [by intros []|done].
  - intros x. rewrite elem_of_cons, Hi, lookup_insert_is_Some. split; [|naive_solver].
    intros [->|Hx]; [by left|]. destruct (decide (id = x)); [by left|by right].
  - intros x rb Hx. apply lookup_insert_Some in Hx as [[<- <-]|[_ Hx]]; [done|by apply (He x)].
  - unfold total. rewrite map_sum_insert, delete_id by done. cbn. rewrite Hs. unfold total. lia.
Qed.
Lemma touch_entry c id rb : (touch c id).2 = Some rb → bc_byID (touch c id).1 !! id = Some rb.
Proof.
  unfold touch. case_match; [done|]. destruct (bc_byID c !! id) as [rb0|] eqn:E; cbn.
  - by intros [= <-].
  - intros [= <-]. apply lookup_insert_eq.
Qed.

(** Writing through [touch]: the entry changes by [f], its size by [grown]. *)
Lemma write_touch_ok c c' id rb rb' grown :
  cache_ok c → touch c id = (c', Some rb) → rb_size rb' = rb_size rb →
  need rb' = (need rb + grown)%Z → cache_ok (write c' id rb' grown).
Proof.
  intros Hc Ht Hsz Hn.
  assert (bc_byID c' !! id = Some rb) as Hid.
  { pose proof (touch_entry c id rb) as He. rewrite Ht in He. by apply He. }
  assert (cache_ok c') as Hc'. { pose proof (touch_ok c id Hc) as Ho. by rewrite Ht in Ho. }
  apply (write_ok _ _ _ rb); try done. rewrite Hn, Hsz. by rewrite (ck_entry _ Hc' id rb).
Qed.

Lemma states_len_delete m step old :
  m !! step = Some old → states_len m = (states_len (delete step m) + blen old)%Z.
Proof. apply map_sum_delete. Qed.
Lemma states_len_insert m step b :
  m !! step = None → states_len (<[step := b]> m) = (states_len m + blen b)%Z.
Proof. intros Hs. unfold states_len. by rewrite map_sum_insert, delete_id. Qed.

Lemma setInput_ok c id b : cache_ok c → cache_ok (setInput c id b).
Proof.
  intros Hc. unfold setInput. case_match; [done|].
  destruct (touch c id) as [c' [rb|]] eqn:Ht.
  - apply evict_ok. apply (write_touch_ok c _ _ rb); [done|done|done|]. unfold need; cbn. lia.
  - pose proof (touch_ok c id Hc) as Ho. by rewrite Ht in Ho.
Qed.
Lemma setOutput_ok c id b : cache_ok c → cache_ok (setOutput c id b).
Proof.
  intros Hc. unfold setOutput. case_match; [done|].
  destruct (touch c id) as [c' [rb|]] eqn:Ht.
  - apply evict_ok. apply (write_touch_ok c _ _ rb); [done|done|done|]. unfold need; cbn. lia.
  - pose proof (touch_ok c id Hc) as Ho. by rewrite Ht in Ho.
Qed.

(** [setState] up to the write of the new state: the old one is gone. *)
Lemma setState_cleared c c' id step rb :
  cache_ok c → touch c id = (c', Some rb) →
  ∃ c'' rb', match rb_states rb !! step with
      | Some old => (write c' id (mkBlobs (rb_input rb) (delete step (rb_states rb)) (rb_output rb)
                       (rb_size rb)) (- blen old),
                     mkBlobs (rb_input rb) (delete step (rb_states rb)) (rb_output rb)
                       (rb_size rb - blen old))
      | None => (c', rb) end = (c'', rb') ∧
    cache_ok c'' ∧ bc_byID c'' !! id = Some rb' ∧ bc_order c'' = bc_order c' ∧
    bc_limit c'' = bc_limit c' ∧ (bc_size c'' <= bc_size c')%Z ∧
    (∀ x, x ≠ id → bc_byID c'' !! x = bc_byID c' !! x) ∧
    rb' = mkBlobs (rb_input rb) (delete step (rb_states rb)) (rb_output rb) (rb_size rb').
Proof.
  intros Hc Ht. pose proof (touch_entry c id rb) as He. rewrite Ht in He. specialize (He eq_refl).
  pose proof (touch_ok c id Hc) as Ho. rewrite Ht in Ho. cbn in He, Ho.
  destruct (rb_states rb !! step) as [old|] eqn:Hs; eexists _, _; (split; [done|]).
  - pose proof (blen_nonneg old). split_and!; cbn; try done; try lia.
    + apply (write_touch_ok c _ _ rb); [done|done|done|]. unfold need; cbn.
      rewrite (states_len_delete _ _ _ Hs). lia.
    + rewrite lookup_insert_eq. by f_equal.
    + intros x Hx. by rewrite lookup_insert_ne.
  - split_and!; try done. rewrite delete_id by done. by destruct rb.
Qed.

Lemma setState_ok c id step b : cache_ok c → cache_ok (setState c id step b).
Proof.
  intros Hc. unfold setState. destruct (touch c id) as [c' [rb|]] eqn:Ht.
  - destruct (setState_cleared c c' id step rb Hc Ht)
      as (c'' & rb' & -> & Hc'' & Hid & _ & _ & _ & _ & Hrb').
    case_match; [done|]. apply evict_ok. apply (write_ok _ _ _ rb'); [done|done|done|].
    cbn. rewrite (ck_entry _ Hc'' id rb' Hid). unfold need. cbn.
    rewrite states_len_insert by (rewrite Hrb'; apply lookup_delete_eq). lia.
  - pose proof (touch_ok c id Hc) as Ho. by rewrite Ht in Ho.
Qed.

Lemma filled_ok c id rb :
  cache_ok c → bc_byID c !! id = None → (0 < bc_limit c)%Z → cache_ok (filled c id rb).
Proof.
  intros [Ho Hi He Hs Hz] E Hl. constructor; cbn.
  - apply NoDup_cons. rewrite Hi, E. split; [by intros []|done].
  - intros x. rewrite elem_of_cons, Hi, lookup_insert_is_Some.
    destruct (decide (id = x)) as [->|]; naive_solver.
  - intros x rb' Hx. apply lookup_insert_Some in Hx as [[<- <-]|[_ Hx]]; [done|by apply (He x)].
  - unfold total. rewrite map_sum_insert, delete_id by done. cbn. by rewrite Hs.
  - lia.
Qed.
Lemma fill_ok c id rb : cache_ok c → cache_ok (fill c id rb).
Proof.
  intros Hc. unfold fill. destruct (_ || _) eqn:En; [done|].
  apply orb_false_iff in En as [_ En]. zbool.
  destruct (bc_byID c !! id) eqn:E; [done|]. by apply evict_ok, filled_ok.
Qed.
Lemma lookup_blobs_ok c id : cache_ok c → cache_ok (lookup_blobs c id).1.
Proof.
  intros [Ho Hi He Hs Hz]. unfold lookup_blobs. destruct (bc_byID c !! id) as [rb|] eqn:E; [|done].
  constructor; cbn; try done; [by apply front_NoDup|]. intros x. rewrite front_elem, Hi.
  split; [|tauto]. intros [->|]; [by eexists|done].
Qed.

Lemma input_state c id : (input c id).1 = (lookup_blobs c id).1.
Proof. unfold input. by destruct (lookup_blobs c id) as [? []]. Qed.
Lemma state_state c id step : (state c id step).1 = (lookup_blobs c id).1.
Proof. unfold state. by destruct (lookup_blobs c id) as [? []]. Qed.
Lemma output_state c id : (output c id).1 = (lookup_blobs c id).1.
Proof. unfold output. by destruct (lookup_blobs c id) as [? []]. Qed.

Lemma run_op_ok c o : cache_ok c → cache_ok (run_op c o).
Proof.
  intros Hc. destruct o; cbn; rewrite ?input_state, ?state_state, ?output_state;
    auto using setInput_ok, setState_ok, setOutput_ok, fill_ok, remove_ok, lookup_blobs_ok.
Qed.

(** ** Eviction *)

Lemma remove_order c id : cache_ok c → bc_order (remove c id) = filter (λ x, x ≠ id) (bc_order c).
Proof.
  intros Hc. unfold remove. destruct (bc_byID c !! id) as [rb|] eqn:E; [done|].
  symmetry. apply list_filter_all, Forall_forall. intros x Hx ->.
  apply (ck_index _ Hc) in Hx. rewrite E in Hx. by destruct Hx.
Qed.
Lemma remove_limit c id : bc_limit (remove c id) = bc_limit c.
Proof. unfold remove. by case_match. Qed.
Lemma remove_other c id x : x ≠ id → bc_byID (remove c id) !! x = bc_byID c !! x.
Proof. intros Hx. unfold remove. case_match; [|done]. cbn. by rewrite lookup_delete_ne. Qed.

Lemma filter_last (l : list RunID) id : NoDup (l ++ [id]) → filter (λ x, x ≠ id) (l ++ [id]) = l.
Proof.
  intros Hn. apply NoDup_app in Hn as (_ & Hn & _). rewrite filter_app, list_filter_all.
  - rewrite filter_cons_False by tauto. apply app_nil_r.
  - apply Forall_forall. intros x Hx ->. apply (Hn _ Hx). by apply list_elem_of_singleton.
Qed.

Lemma empty_size c : cache_ok c → bc_order c = [] → bc_size c = 0%Z.
Proof.
  intros Hc Ho. rewrite (ck_size _ Hc). unfold total.
  assert (bc_byID c = ∅) as ->; [|apply map_sum_empty].
  apply map_eq. intros id. rewrite lookup_empty. destruct (bc_byID c !! id) eqn:E; [|done].
  assert (id ∈ bc_order c) as Hin by (apply (ck_index _ Hc); rewrite E; by eexists).
  rewrite Ho in Hin. by apply not_elem_of_nil in Hin.
Qed.

(** Evicting drops the back of the order until the cache fits. *)
Lemma evict_in_spec rorder c keep :
  cache_ok c → bc_order c = reverse rorder → (keep ∈ rorder → last rorder = Some keep) →
  let c' := evict_in rorder c keep in
  cache_fits c' ∧ bc_limit c' = bc_limit c ∧ (∃ n, bc_order c' = take n (bc_order c)) ∧
  (∀ x, x ∈ bc_order c' → bc_byID c' !! x = bc_byID c !! x).
Proof.
  revert c. induction rorder as [|id rorder IH]; intros c Hc Ho Hk; cbn [evict_in].
  - assert (∃ n, bc_order c = take n (bc_order c)) by (by exists 0; rewrite Ho).
    pose proof (empty_size c Hc Ho). unfold cache_fits. case_match; split_and!; (lia || done).
  - destruct (bc_size c <=? bc_limit c)%Z eqn:E.
    { zbool. unfold cache_fits. split_and!; [lia|done| |done].
      exists (length (bc_order c)). by rewrite firstn_all. }
    assert (bc_order (remove c id) = reverse rorder) as Ho'.
    { rewrite remove_order, Ho, reverse_cons by done. apply filter_last.
      rewrite <-reverse_cons, <-Ho. apply Hc. }
    assert (∀ x, x ∈ reverse rorder → x ≠ id) as Hne.
    { intros x Hx ->. pose proof (ck_order _ Hc) as Hn. rewrite Ho, reverse_cons in Hn.
      apply NoDup_app in Hn as (_ & Hn & _). apply (Hn id Hx). by apply list_elem_of_singleton. }
    case_decide as Hid.
    + subst id. assert (rorder = []) as ->.
      { destruct rorder as [|y rorder _] using rev_ind; [done|exfalso].
        assert (last (keep :: (rorder ++ [y])) = Some keep) as Hl.
        { apply Hk. by left. }
        rewrite app_comm_cons, last_snoc in Hl. simplify_eq.
        apply (Hne keep); [|done]. rewrite elem_of_reverse. set_solver. }
      rewrite remove_limit, Ho'. unfold cache_fits.
      rewrite (empty_size (remove c keep)) by (by apply remove_ok || done).
      split_and!; [lia|done|by exists 0|]. intros x Hx. by apply not_elem_of_nil in Hx.
    + destruct (IH (remove c id)) as (Hf & Hl & (n & Hn) & He).
      { by apply remove_ok. } { done. }
      { intros Hin. assert (last (id :: rorder) = Some keep) as Hla.
        { apply Hk. by right. }
        destruct rorder; [by apply not_elem_of_nil in Hin|done]. }
      split_and!; [done|by rewrite Hl, remove_limit| |].
      * exists (Nat.min n (length (reverse rorder))). rewrite Hn, Ho', Ho, reverse_cons.
        rewrite <-take_take, take_app_length. done.
      * intros x Hx. rewrite He, remove_other; [done| |done].
        apply Hne. rewrite <-Ho'. rewrite Hn in Hx. by apply elem_of_take in Hx as (? & ? & ?); eapply list_elem_of_lookup_2.
Qed.

Lemma evict_spec c keep :
  cache_ok c → head (bc_order c) = Some keep →
  let c' := evict c keep in
  cache_fits c' ∧ bc_limit c' = bc_limit c ∧ (∃ n, bc_order c' = take n (bc_order c)) ∧
  (∀ x, x ∈ bc_order c' → bc_byID c' !! x = bc_byID c !! x).
Proof.
  intros Hc Hh. apply evict_in_spec; [done|by rewrite reverse_involutive|].
  intros _. by rewrite last_reverse.
Qed.

Lemma front_absent c id : cache_ok c → bc_byID c !! id = None → front id (bc_order c) = id :: bc_order c.
Proof.
  intros Hc Hid. unfold front. f_equal. apply list_filter_all, Forall_forall.
  intros x Hx ->. apply (ck_index _ Hc) in Hx. rewrite Hid in Hx. by destruct Hx.
Qed.

Lemma touch_spec c c' id o :
  cache_ok c → touch c id = (c', o) →
  bc_size c' = bc_size c ∧ bc_limit c' = bc_limit c ∧
  (∀ x, x ≠ id → bc_byID c' !! x = bc_byID c !! x) ∧
  match o with
  | None => c' = c ∧ (bc_limit c <= 0)%Z
  | Some rb => bc_order c' = front id (bc_order c) ∧ (0 < bc_limit c)%Z ∧
      rb = default no_blobs (bc_byID c !! id) ∧ bc_byID c' !! id = Some rb
  end.
Proof.
  intros Hc. unfold touch. destruct (bc_limit c <=? 0)%Z eqn:El.
  - intros [= <- <-]. zbool. split_and!; (done || lia).
  - destruct (bc_byID c !! id) as [rb|] eqn:E; intros [= <- <-]; cbn; split_and!; zbool;
      (done || lia || idtac).
    + intros x Hx. by rewrite lookup_insert_ne.
    + by rewrite front_absent.
    + apply lookup_insert_eq.
Qed.

(** The last part of every setter: the entry written, then the eviction. *)
Lemma write_evict_spec c id rb grown :
  cache_ok (write c id rb grown) → head (bc_order c) = Some id →
  let c' := evict (write c id rb grown) id in
  cache_fits c' ∧ bc_limit c' = bc_limit c ∧ (∃ n, bc_order c' = take n (bc_order c)) ∧
  (∀ x, x ≠ id → x ∈ bc_order c' → bc_byID c' !! x = bc_byID c !! x).
Proof.
  intros Hc Hh. destruct (evict_spec (write c id rb grown) id Hc Hh) as (Hf & Hl & Hn & He).
  split_and!; [done|done|done|]. intros x Hx Hin. rewrite He by done. cbn.
  by rewrite lookup_insert_ne.
Qed.

(** What a setter does to a cache with a positive limit: it makes the run the most
    recently used one and drops the least recently used others. *)
Definition lru_write (c c' : blobCache) (id : RunID) : Prop :=
  (∃ n, bc_order c' = take n (front id (bc_order c))) ∧
  (∀ x, x ≠ id → x ∈ bc_order c' → bc_byID c' !! x = bc_byID c !! x).
Definition kept (c c' : blobCache) : Prop :=
  bc_limit c' = bc_limit c ∧ (cache_fits c → cache_fits c').

Lemma setter_spec c c1 id rb rb' grown :
  cache_ok c → touch c id = (c1, Some rb) → cache_ok (write c1 id rb' grown) →
  kept c (evict (write c1 id rb' grown) id) ∧ lru_write c (evict (write c1 id rb' grown) id) id.
Proof.
  intros Hc Ht Hw. destruct (touch_spec _ _ _ _ Hc Ht) as (Hsz & Hl & Ho & Hord & _).
  destruct (write_evict_spec c1 id rb' grown Hw) as (Hf & Hl' & Hn & He); [by rewrite Hord|].
  split; split; [congruence|done|by rewrite <-Hord|].
  intros x Hx Hin. rewrite He by done. by apply Ho.
Qed.

Lemma setInput_spec c id b :
  cache_ok c → kept c (setInput c id b) ∧
  (blen b ≠ 0%Z → (0 < bc_limit c)%Z → lru_write c (setInput c id b) id).
Proof.
  intros Hc. pose proof (setInput_ok c id b Hc) as Hok. unfold setInput in *.
  destruct (blen b =? 0)%Z eqn:Eb; [zbool; split; [by split|done]|].
  destruct (touch c id) as [c1 [rb|]] eqn:Ht.
  - destruct (setter_spec c c1 id rb (mkBlobs b (rb_states rb) (rb_output rb) (rb_size rb))
      (blen b - blen (rb_input rb)) Hc Ht); [|done].
    apply (write_touch_ok c _ _ rb); [done|done|done|]. unfold need; cbn. lia.
  - destruct (touch_spec _ _ _ _ Hc Ht) as (_ & _ & _ & -> & Hl). split; [by split|lia].
Qed.
Lemma setOutput_spec c id b :
  cache_ok c → kept c (setOutput c id b) ∧
  (blen b ≠ 0%Z → (0 < bc_limit c)%Z → lru_write c (setOutput c id b) id).
Proof.
  intros Hc. unfold setOutput in *.
  destruct (blen b =? 0)%Z eqn:Eb; [zbool; split; [by split|done]|].
  destruct (touch c id) as [c1 [rb|]] eqn:Ht.
  - destruct (setter_spec c c1 id rb (mkBlobs (rb_input rb) (rb_states rb) b (rb_size rb))
      (blen b - blen (rb_output rb)) Hc Ht); [|done].
    apply (write_touch_ok c _ _ rb); [done|done|done|]. unfold need; cbn. lia.
  - destruct (touch_spec _ _ _ _ Hc Ht) as (_ & _ & _ & -> & Hl). split; [by split|lia].
Qed.

Lemma setState_spec c id step b :
  cache_ok c → kept c (setState c id step b) ∧
  ((0 < bc_limit c)%Z → lru_write c (setState c id step b) id).
Proof.
  intros Hc. unfold setState. destruct (touch c id) as [c1 [rb|]] eqn:Ht.
  - destruct (touch_spec _ _ _ _ Hc Ht) as (Hsz & Hl & Ho & Hord & Hpos & _).
    destruct (setState_cleared c c1 id step rb Hc Ht)
      as (c2 & rb' & -> & Hc2 & Hid & Ho2 & Hl2 & Hsz2 & He2 & Hrb').
    destruct (blen b =? 0)%Z eqn:Eb.
    + split; split; unfold cache_fits; [congruence|intros; rewrite Hl2, Hl; lia| |].
      * exists (length (front id (bc_order c))). by rewrite Ho2, Hord, firstn_all.
      * intros x Hx _. rewrite He2 by done. by apply Ho.
    + destruct (write_evict_spec c2 id (mkBlobs (rb_input rb') (<[step:=b]> (rb_states rb'))
        (rb_output rb') (rb_size rb')) (blen b)) as (Hf & Hl' & Hn & He).
      { apply (write_ok _ _ _ rb'); [done|done|done|]. cbn. rewrite (ck_entry _ Hc2 id rb' Hid).
        unfold need. cbn. rewrite states_len_insert by (rewrite Hrb'; apply lookup_delete_eq). lia. }
      { by rewrite Ho2, Hord. }
      split; split; [congruence|done|by rewrite <-Hord, <-Ho2|].
      intros x Hx Hin. rewrite He, He2 by done. by apply Ho.
  - destruct (touch_spec _ _ _ _ Hc Ht) as (_ & _ & _ & -> & Hl). split; [by split|lia].
Qed.

Lemma fill_spec c id rb :
  cache_ok c → kept c (fill c id rb) ∧
  (bc_byID c !! id = None → need rb ≠ 0%Z → (0 < bc_limit c)%Z → lru_write c (fill c id rb) id).
Proof.
  intros Hc. pose proof (fill_ok c id rb Hc) as Hok. unfold fill in *.
  destruct ((need rb =? 0)%Z || (bc_limit c <=? 0)%Z) eqn:En.
  { split; [by split|]. intros _ Hn Hl. apply orb_true_iff in En as [En|En]; zbool; lia. }
  destruct (bc_byID c !! id) as [rb0|] eqn:E; [split; [by split|done]|].
  apply orb_false_iff in En as [_ En]. zbool.
  destruct (evict_spec (filled c id rb) id (filled_ok c id rb Hc E En) eq_refl) as (Hf & Hl & (n & Hn) & He).
  split; [by split|]. split; [exists n; by rewrite Hn, front_absent|].
  intros x Hx Hin. rewrite He by done. cbn. by rewrite lookup_insert_ne.
Qed.

Lemma remove_kept c id : cache_ok c → kept c (remove c id).
Proof.
  intros Hc. split; [apply remove_limit|]. unfold cache_fits. rewrite remove_limit.
  unfold remove. destruct (bc_byID c !! id) as [rb|] eqn:E; [|done]. cbn.
  rewrite (ck_entry _ Hc _ _ E). pose proof (need_nonneg rb). lia.
Qed.
Lemma lookup_blobs_kept c id : kept c (lookup_blobs c id).1.
Proof. unfold lookup_blobs. by destruct (bc_byID c !! id). Qed.

Lemma run_op_kept c o : cache_ok c → kept c (run_op c o).
Proof.
  intros Hc. destruct o; cbn; rewrite ?input_state, ?state_state, ?output_state;
    auto using remove_kept, lookup_blobs_kept; [apply setInput_spec|apply setState_spec
    |apply setOutput_spec|apply fill_spec]; done.
Qed.

(** ** Properties *)

Lemma new_cache_ok limit : cache_ok (newBlobCache limit).
Proof.
  constructor; cbn.
  - apply NoDup_nil_2.
  - intros id. rewrite lookup_empty. split; [by intros ?%not_elem_of_nil|by intros []].
  - intros id rb. by rewrite lookup_empty.
  - symmetry. apply map_sum_empty.
  - done.
Qed.
Lemma run_ops_ok ops c :
  cache_ok c → cache_fits c →
  let c' := foldl run_op c ops in cache_ok c' ∧ cache_fits c' ∧ bc_limit c' = bc_limit c.
Proof.
  revert c; induction ops as [|o ops IH]; intros c Hc Hf; [done|]. cbn.
  destruct (run_op_kept c o Hc) as [Hl Hfit].
  destruct (IH (run_op c o)) as (H1 & H2 & H3); [by apply run_op_ok|by apply Hfit|].
  split_and!; [done|done|congruence].
Qed.

(** ** Coherence *)

(** The blobs the writes of a history leave, as if nothing were ever evicted. *)
Definition truth_op (t : gmap RunID runBlobs) (o : cache_op) : gmap RunID runBlobs :=
  let old id := default no_blobs (t !! id) in
  match o with
  | SetInput id b =>
    if (blen b =? 0)%Z then t
    else <[id := mkBlobs b (rb_states (old id)) (rb_output (old id)) 0]> t
  | SetState id step b =>
    let states := delete step (rb_states (old id)) in
    <[id := mkBlobs (rb_input (old id))
              (if (blen b =? 0)%Z then states else <[step := b]> states)
              (rb_output (old id)) 0]> t
  | SetOutput id b =>
    if (blen b =? 0)%Z then t
    else <[id := mkBlobs (rb_input (old id)) (rb_states (old id)) b 0]> t
  | Drop id => delete id t
  | Fill _ _ | ReadInput _ | ReadState _ _ | ReadOutput _ => t
  end.
(** Part of what is true: each blob is the true one or missing. *)
Definition below (a b : runBlobs) : Prop :=
  (rb_input a = None ∨ rb_input a = rb_input b) ∧ rb_states a ⊆ rb_states b ∧
  (rb_output a = None ∨ rb_output a = rb_output b).
Definition coherent (c : blobCache) (t : gmap RunID runBlobs) : Prop :=
  ∀ id rb, bc_byID c !! id = Some rb → below rb (default no_blobs (t !! id)).
(** A fill brings what the file has. *)
Definition truthful (t : gmap RunID runBlobs) (o : cache_op) : Prop :=
  match o with Fill id rb => below rb (default no_blobs (t !! id)) | _ => True end.
Fixpoint history (c : blobCache) (t : gmap RunID runBlobs) (ops : list cache_op) : Prop :=
  match ops with
  | [] => True
  | o :: ops => truthful t o ∧ history (run_op c o) (truth_op t o) ops
  end.

Lemma below_empty b : below no_blobs b.
Proof. split_and!; [by left|apply map_empty_subseteq|by left]. Qed.

Lemma evict_sub c keep x rb :
  cache_ok c → head (bc_order c) = Some keep →
  bc_byID (evict c keep) !! x = Some rb → bc_byID c !! x = Some rb.
Proof.
  intros Hc Hh Hx. destruct (evict_spec c keep Hc Hh) as (_ & _ & _ & He).
  rewrite <-He; [done|]. apply (ck_index _ (evict_ok c keep Hc)). by eexists.
Qed.
Lemma touch_below c c1 id rb t :
  coherent c t → cache_ok c → touch c id = (c1, Some rb) → below rb (default no_blobs (t !! id)).
Proof.
  intros Hco Hc Ht. destruct (touch_spec _ _ _ _ Hc Ht) as (_ & _ & _ & _ & _ & -> & _).
  destruct (bc_byID c !! id) as [rb|] eqn:E; [by apply Hco|apply below_empty].
Qed.

(** The entry of the run may change together with its truth; others may go. *)
Lemma coherent_other c c' t t' id :
  coherent c t → (∀ x, x ≠ id → t' !! x = t !! x) →
  (∀ x rb, x ≠ id → bc_byID c' !! x = Some rb → bc_byID c !! x = Some rb) →
  (∀ rb, bc_byID c' !! id = Some rb → below rb (default no_blobs (t' !! id))) →
  coherent c' t'.
Proof.
  intros Hco Ht Hc Hid x rb Hx. destruct (decide (x = id)) as [->|Hne]; [by apply Hid|].
  rewrite Ht by done. by apply Hco, Hc.
Qed.

Lemma setter_coherent c c1 id rb rb' grown t tb :
  coherent c t → cache_ok c → touch c id = (c1, Some rb) → cache_ok (write c1 id rb' grown) →
  below rb' tb → coherent (evict (write c1 id rb' grown) id) (<[id := tb]> t).
Proof.
  intros Hco Hc Ht Hw Hb. destruct (touch_spec _ _ _ _ Hc Ht) as (_ & _ & Ho & Hord & _).
  assert (∀ x rb, bc_byID (evict (write c1 id rb' grown) id) !! x = Some rb →
    bc_byID (write c1 id rb' grown) !! x = Some rb) as He.
  { intros x rb0. apply evict_sub; [done|]. cbn. by rewrite Hord. }
  apply (coherent_other c _ t _ id); [done|by intros; rewrite lookup_insert_ne| |].
  - intros x rb0 Hx Hin. apply He in Hin. cbn in Hin. rewrite lookup_insert_ne, Ho in Hin; done.
  - intros rb0 Hin. apply He in Hin. cbn in Hin. rewrite lookup_insert_eq in *. by simplify_eq.
Qed.

Lemma coherent_off c t : cache_ok c → (bc_limit c <= 0)%Z → coherent c t.
Proof. intros Hc Hl id rb Hid. by rewrite (ck_zero _ Hc Hl), lookup_empty in Hid. Qed.
Lemma touch_off c c1 id t :
  cache_ok c → touch c id = (c1, None) → coherent c1 t.
Proof.
  intros Hc Ht. destruct (touch_spec _ _ _ _ Hc Ht) as (_ & _ & _ & -> & Hl).
  by apply coherent_off.
Qed.
Lemma remove_coherent c t id : coherent c t → coherent (remove c id) (delete id t).
Proof.
  intros Hco. apply (coherent_other c _ t _ id); [done|by intros; rewrite lookup_delete_ne| |].
  - intros x rb Hx. by rewrite remove_other.
  - intros rb. unfold remove. destruct (bc_byID c !! id) eqn:E; cbn; [by rewrite lookup_delete_eq|].
    intros; congruence.
Qed.
Lemma lookup_blobs_coherent c t id : coherent c t → coherent (lookup_blobs c id).1 t.
Proof. intros Hco x rb. unfold lookup_blobs. destruct (bc_byID c !! id); apply Hco. Qed.

Lemma setState_coherent c t id step b :
  cache_ok c → coherent c t → coherent (setState c id step b) (truth_op t (SetState id step b)).
Proof.
  intros Hc Hco. unfold setState. destruct (touch c id) as [c1 [rb|]] eqn:Ht; [|by eapply touch_off].
  destruct (touch_below _ _ _ _ t Hco Hc Ht) as (Hin & Hs & Hout).
  destruct (touch_spec _ _ _ _ Hc Ht) as (_ & _ & Ho & Hord & _).
  destruct (setState_cleared c c1 id step rb Hc Ht)
    as (c2 & rb' & -> & Hc2 & Hid & Ho2 & Hl2 & Hsz2 & He2 & Hrb').
  assert (below rb' (mkBlobs (rb_input (default no_blobs (t !! id)))
    (delete step (rb_states (default no_blobs (t !! id)))) (rb_output (default no_blobs (t !! id))) 0)) as Hb.
  { rewrite Hrb'. split_and!; cbn; [done|by apply delete_mono|done]. }
  assert (∀ x, x ≠ id → bc_byID c2 !! x = bc_byID c !! x) as Hoth.
  { intros x Hx. by rewrite He2, Ho. }
  cbn [truth_op]. destruct (blen b =? 0)%Z eqn:Eb.
  - apply (coherent_other c _ t _ id); [done|by intros; rewrite lookup_insert_ne| |].
    + intros x rb0 Hx. by rewrite Hoth.
    + intros rb0 Hr. rewrite lookup_insert_eq. by simplify_eq.
  - assert (∀ x rb0, bc_byID (evict (write c2 id (mkBlobs (rb_input rb') (<[step:=b]> (rb_states rb'))
      (rb_output rb') (rb_size rb')) (blen b)) id) !! x = Some rb0 →
      bc_byID (write c2 id (mkBlobs (rb_input rb') (<[step:=b]> (rb_states rb'))
      (rb_output rb') (rb_size rb')) (blen b)) !! x = Some rb0) as He.
    { intros x rb0. apply evict_sub; [|cbn; by rewrite Ho2, Hord].
      apply (write_ok _ _ _ rb'); [done|done|done|]. cbn. rewrite (ck_entry _ Hc2 id rb' Hid).
      unfold need. cbn. rewrite states_len_insert by (rewrite Hrb'; apply lookup_delete_eq). lia. }
    apply (coherent_other c _ t _ id); [done|by intros; rewrite lookup_insert_ne| |].
    + intros x rb0 Hx Hr. apply He in Hr. cbn in Hr. rewrite lookup_insert_ne, Hoth in Hr; done.
    + intros rb0 Hr. apply He in Hr. cbn in Hr. rewrite lookup_insert_eq in *. simplify_eq.
      destruct Hb as (H1 & H2 & H3). split_and!; cbn; [done|by apply insert_mono|done].
Qed.

Lemma run_op_coherent c t o :
  cache_ok c → coherent c t → truthful t o → coherent (run_op c o) (truth_op t o).
Proof.
  intros Hc Hco Htr. destruct o as [id b|id step b|id b|id rb|id|id|id step|id];
    cbn [run_op]; rewrite ?input_state, ?state_state, ?output_state;
    [|by apply setState_coherent| | |by apply remove_coherent|by apply lookup_blobs_coherent..];
    cbn [truth_op].
  - unfold setInput. destruct (blen b =? 0)%Z; [done|].
    destruct (touch c id) as [c1 [rb|]] eqn:Ht; [|by eapply touch_off].
    destruct (touch_below _ _ _ _ t Hco Hc Ht) as (_ & Hs & Hout).
    apply (setter_coherent c _ _ rb); [done|done|done| |by split_and!; [right|..]].
    apply (write_touch_ok c _ _ rb); [done|done|done|]. unfold need; cbn. lia.
  - unfold setOutput. destruct (blen b =? 0)%Z; [done|].
    destruct (touch c id) as [c1 [rb|]] eqn:Ht; [|by eapply touch_off].
    destruct (touch_below _ _ _ _ t Hco Hc Ht) as (Hin & Hs & _).
    apply (setter_coherent c _ _ rb); [done|done|done| |by split_and!; [..|right]].
    apply (write_touch_ok c _ _ rb); [done|done|done|]. unfold need; cbn. lia.
  - unfold fill. destruct (_ || _) eqn:En; [done|]. apply orb_false_iff in En as [_ En]. zbool.
    destruct (bc_byID c !! id) eqn:E; [done|].
    assert (∀ x rb0, bc_byID (evict (filled c id rb) id) !! x = Some rb0 →
      bc_byID (filled c id rb) !! x = Some rb0) as He.
    { intros x rb0. apply evict_sub; [by apply filled_ok|done]. }
    apply (coherent_other c _ t _ id); [done|done| |].
    + intros x rb0 Hx Hr. apply He in Hr. cbn in Hr. by rewrite lookup_insert_ne in Hr.
    + intros rb0 Hr. apply He in Hr. cbn in Hr. rewrite lookup_insert_eq in Hr. by simplify_eq.
Qed.

Lemma run_ops_coherent ops c t :
  cache_ok c → coherent c t → history c t ops →
  coherent (foldl run_op c ops) (foldl truth_op t ops).
Proof.
  revert c t; induction ops as [|o ops IH]; intros c t Hc Hco; [done|]. intros [Htr Hh].
  cbn. apply IH; [by apply run_op_ok|by apply run_op_coherent|done].
Qed.

(** What the reads answer, in terms of the entry. *)
Lemma input_spec c id : (input c id).2 =
  match bc_byID c !! id with Some rb => (rb_input rb, true) | None => (None, false) end.
Proof. unfold input, lookup_blobs. by destruct (bc_byID c !! id). Qed.
Lemma state_spec c id step : (state c id step).2 =
  match bc_byID c !! id with Some rb => default None (rb_states rb !! step) | None => None end.
Proof. unfold state, lookup_blobs. by destruct (bc_byID c !! id). Qed.
Lemma output_spec c id : (output c id).2 =
  match bc_byID c !! id with Some rb => rb_output rb | None => None end.
Proof. unfold output, lookup_blobs. by destruct (bc_byID c !! id). Qed.

Lemma coherent_reads c t id :
  coherent c t →
  let tb := default no_blobs (t !! id) in
  ((input c id).2.1 = None ∨ (input c id).2.1 = rb_input tb) ∧
  (∀ step, (state c id step).2 = None ∨ (state c id step).2 = default None (rb_states tb !! step)) ∧
  ((output c id).2 = None ∨ (output c id).2 = rb_output tb).
Proof.
  intros Hco tb. rewrite input_spec, output_spec. setoid_rewrite state_spec.
  destruct (bc_byID c !! id) as [rb|] eqn:E; [|by split_and!; [left|left|left]].
  destruct (Hco id rb E) as (Hin & Hs & Hout). split_and!; [done| |done].
  intros step. destruct (rb_states rb !! step) as [b|] eqn:Eb; [right|by left].
  unfold tb. rewrite (lookup_weaken _ _ _ _ Eb Hs). done.
Qed.

(** ** Properties *)

(** Whatever is written to, read from or dropped from the cache, its accounting is
    exact and it stays within its limit between operations: each entry's size is that
    of its blobs, the total that of the entries, and the order lists each entry once. *)
Theorem cache_bounded limit ops :
  let c := foldl run_op (newBlobCache limit) ops in
  cache_ok c ∧ cache_fits c ∧ bc_limit c = limit.
Proof. apply run_ops_ok; [apply new_cache_ok|unfold cache_fits; cbn; lia]. Qed.

(** The cache never answers a stale blob.  Along any history of writes, fills from
    the file, drops and reads, whatever was evicted in between, a read answers the blob
    of the last write, or nothing. *)
Theorem cache_reads_last_writes limit ops id :
  history (newBlobCache limit) ∅ ops →
  let c := foldl run_op (newBlobCache limit) ops in
  let t := default no_blobs (foldl truth_op ∅ ops !! id) in
  ((input c id).2.1 = None ∨ (input c id).2.1 = rb_input t) ∧
  (∀ step, (state c id step).2 = None ∨ (state c id step).2 = default None (rb_states t !! step)) ∧
  ((output c id).2 = None ∨ (output c id).2 = rb_output t).
Proof.
  intros Hh. apply coherent_reads, run_ops_coherent; [apply new_cache_ok| |done].
  intros x rb. cbn. by rewrite lookup_empty.
Qed.

(** A run evicted by another comes back from the file; the newer one stays. *)
Definition ex_ops : list cache_op :=
  [SetInput "a" (Some "12345"); SetState "a" "s" (Some "67"); SetInput "b" (Some "abcdef");
   Fill "a" (mkBlobs (Some "12345") {[ "s" := Some "67" ]} None 0); SetState "b" "s" None].
Lemma cache_reads_last_writes_witness :
  history (newBlobCache 10) ∅ ex_ops ∧
  (let c := foldl run_op (newBlobCache 10) ex_ops in
   let t := default no_blobs (foldl truth_op ∅ ex_ops !! "a") in
   ((input c "a").2.1 = None ∨ (input c "a").2.1 = rb_input t) ∧
   (∀ step, (state c "a" step).2 = None ∨ (state c "a" step).2 = default None (rb_states t !! step)) ∧
   ((output c "a").2 = None ∨ (output c "a").2 = rb_output t)).
Proof.
  assert (history (newBlobCache 10) ∅ ex_ops) as Hh.
  { repeat (split; [exact I|]). split; [|repeat (split; [exact I|]); exact I].
    split; [by right|]. split; [|by left].
    replace (rb_states _) with ({[ "s" := Some "67" ]} : gmap StepID bytes) by reflexivity.
    replace (rb_states _) with ({[ "s" := Some "67" ]} : gmap StepID bytes) by reflexivity. done. }
  split; [exact Hh|]. exact (cache_reads_last_writes 10 ex_ops "a" Hh).
Defined.

(** The cache evicts the least recently used: a write makes its run the most recently
    used one, and what remains of the others are the most recently used of them, their
    entries untouched. *)
Theorem cache_evicts_lru c id step b :
  cache_ok c → (0 < bc_limit c)%Z → blen b ≠ 0%Z →
  lru_write c (setInput c id b) id ∧ lru_write c (setState c id step b) id ∧
  lru_write c (setOutput c id b) id.
Proof.
  intros Hc Hl Hb. split_and!; [by apply setInput_spec|by apply setState_spec|by apply setOutput_spec].
Qed.
Definition ex_cache : blobCache := foldl run_op (newBlobCache 10) ex_ops.
Lemma cache_evicts_lru_witness :
  lru_write ex_cache (setInput ex_cache "c" (Some "xyz")) "c" ∧
  lru_write ex_cache (setState ex_cache "c" "s" (Some "xyz")) "c" ∧
  lru_write ex_cache (setOutput ex_cache "c" (Some "xyz")) "c".
Proof.
  apply (cache_evicts_lru ex_cache "c" "s" (Some "xyz")).
  - apply run_ops_ok; [apply new_cache_ok|unfold cache_fits; cbn; lia].
  - vm_compute. reflexivity.
  - vm_compute. discriminate.
Defined.

(** An evicted run does not always come back: a transition that writes a small state for
    it creates an empty entry, which counts as cached, so no later read fills it. *)
Theorem evicted_run_stays_out c id step rb :
  bc_byID c !! id = None → (0 < bc_limit c)%Z →
  let c' := setState c id step None in
  (input c' id).2 = (None, true) ∧ fill c' id rb = c'.
Proof.
  intros Hid Hl c'. assert (bc_byID c' !! id = Some no_blobs) as He.
  { unfold c', setState, touch. rewrite (proj2 (Z.leb_gt _ _) Hl), Hid. apply lookup_insert_eq. }
  rewrite input_spec. unfold fill. rewrite He. split; [done|]. by case_match.
Qed.
