(* ===== verification/Bolt.v ===== *)
(** * Bolt: the database the store runs on

    bbolt (go.etcd.io/bbolt) is not part of the repository: [Bolt] names the operations
    of its buckets that store.go calls, [BoltLaws] what their documentation says of
    them.  A bucket holds keys in byte order, each a row (a value) or a nested bucket;
    [cells] is that content, seen as a function.  A write transaction is a function from
    the buckets to the next ones that keeps the old ones on an error. *)
From S2P Require Import Prelude Kernel Driver MemStore Keys.

Inductive BoltError := ErrIncompatibleValue | ErrBolt (msg : string).

Inductive cell (B : Type) := Row (v : string) | Nested (b : B).
Arguments Row {B} v.
Arguments Nested {B} b.

Class Bolt (B : Type) := {
  (** [Bucket.Get] and [Bucket.Bucket] *)
  Get : B → key → option string;
  Bucket : B → key → option B;
  (** what a cursor visits, from [First] on *)
  Rows : B → list (key * cell B);
  Put : B → key → string → result BoltError B;
  Delete : B → key → result BoltError B;
  (** [CreateBucket], with the new bucket, and the bucket above after a write to it *)
  CreateBucket : B → key → result BoltError (B * B);
  SetBucket : B → key → B → B;
  DeleteBucket : B → key → result BoltError B;
}.

Class BoltLaws (B : Type) `{Bolt B} := {
  cells : B → key → option (cell B);
  Get_cells b k : Get b k = match cells b k with Some (Row v) => Some v | _ => None end;
  Bucket_cells b k : Bucket b k = match cells b k with Some (Nested n) => Some n | _ => None end;
  Rows_cells b k c : (k, c) ∈ Rows b ↔ cells b k = Some c;
  Rows_sorted b : StronglySorted (λ a a', key_lt a a' = true) (Rows b).*1;
  Put_cells b k v b' k' : Put b k v = Ok b' →
    cells b' k' = if decide (k' = k) then Some (Row v) else cells b k';
  Delete_nested b k n : cells b k = Some (Nested n) → Delete b k = Err ErrIncompatibleValue;
  Delete_row b k : (∀ n, cells b k ≠ Some (Nested n)) → ∃ b', Delete b k = Ok b';
  Delete_cells b k b' k' : Delete b k = Ok b' →
    cells b' k' = if decide (k' = k) then None else cells b k';
  CreateBucket_cells b k b' n k' : CreateBucket b k = Ok (b', n) →
    (∀ x, cells n x = None) ∧
    cells b' k' = if decide (k' = k) then Some (Nested n) else cells b k';
  SetBucket_cells b k n k' :
    cells (SetBucket b k n) k' = if decide (k' = k) then Some (Nested n) else cells b k';
  DeleteBucket_nested b k n : cells b k = Some (Nested n) → ∃ b', DeleteBucket b k = Ok b';
  DeleteBucket_cells b k b' k' : DeleteBucket b k = Ok b' →
    cells b' k' = if decide (k' = k) then None else cells b k';
}.

(** ** Cursors *)

Section cursor.
Context {B : Type} `{Bolt B}.

(** [c.Seek(k)] and the rows from there. *)
Fixpoint seek_in (k : key) (rows : list (key * cell B)) : list (key * cell B) :=
  match rows with
  | [] => []
  | r :: rows => if key_lt r.1 k then seek_in k rows else r :: rows
  end.
Definition Seek (b : B) (k : key) : list (key * cell B) := seek_in k (Rows b).
(** The loop [for ...; k != nil && bytes.HasPrefix(k, prefix); k, v = c.Next()]. *)
Fixpoint while_prefix (prefix : key) (rows : list (key * cell B)) : list (key * cell B) :=
  match rows with
  | [] => []
  | r :: rows => if has_prefix prefix r.1 then r :: while_prefix prefix rows else []
  end.
Definition scan (b : B) (prefix : key) : list (key * cell B) :=
  while_prefix prefix (Seek b prefix).

(** The value a cursor hands out: nil for a nested bucket. *)
Definition row_value (c : cell B) : string := match c with Row v => v | Nested _ => "" end.
End cursor.

Section laws.
Context {B : Type} `{BoltLaws B}.
Implicit Types (b : B) (rows : list (key * cell B)) (r : key * cell B).

(** Keys below a prefix and keys above its extensions. *)
Lemma key_lt_prefix p k : p `prefix_of` k → key_lt k p = false.
Proof.
  intros [r ->]. destruct r as [|c r]; [rewrite app_nil_r; apply key_lt_irrefl|].
  apply key_lt_asym, key_lt_extend.
Qed.
Lemma prefix_convex p a k k' :
  p `prefix_of` a → key_lt a k = true → key_lt k k' = true → p `prefix_of` k' → p `prefix_of` k.
Proof.
  intros [x ->] Hak Hkk' [y ->]. revert k Hak Hkk'. induction p as [|c p IH]; intros [|d k] Ha Hk;
    try apply prefix_nil; try done. simpl in Ha, Hk.
  destruct (byte_val c <? byte_val d)%Z eqn:E1; destruct (byte_val d <? byte_val c)%Z eqn:E2;
    zbool; try lia; try done.
  rewrite (byte_val_inj c d) by lia. apply prefix_cons. by apply IH.
Qed.
Lemma prefix_convex_from p k k' :
  key_lt k p = false → key_lt k k' = true → p `prefix_of` k' → p `prefix_of` k.
Proof.
  intros Hk Hkk' Hp. destruct (decide (k = p)) as [->|Hne]; [done|].
  apply (prefix_convex p p k k'); [done| |done|done]. by apply key_lt_total.
Qed.

Lemma elem_of_fst {A C} (l : list (A * C)) a : a ∈ l.*1 ↔ ∃ c, (a, c) ∈ l.
Proof.
  rewrite list_elem_of_fmap. split; [intros ([a' c] & -> & Hin); by exists c|].
  intros [c Hin]. by exists (a, c).
Qed.

(** A scan visits exactly the rows with the prefix, in order. *)
Lemma seek_in_elem k rows (r : key * cell B) :
  StronglySorted (λ a a', key_lt a a' = true) rows.*1 →
  r ∈ seek_in k rows ↔ r ∈ rows ∧ key_lt r.1 k = false.
Proof.
  induction rows as [|r0 rows IH]; simpl; intros Hs.
  - split; [by intros ?%not_elem_of_nil|by intros [?%not_elem_of_nil _]].
  - apply StronglySorted_inv in Hs as [Hs Hall]. destruct (key_lt r0.1 k) eqn:E.
    + rewrite IH by done. rewrite elem_of_cons. naive_solver congruence.
    + split; [|tauto]. intros Hr. split; [done|]. apply elem_of_cons in Hr as [->|Hr]; [done|].
      destruct (key_lt r.1 k) eqn:E'; [|done]. rewrite Forall_forall in Hall.
      assert (key_lt r0.1 r.1 = true) as Hlt.
      { apply Hall. destruct r as [a c]. apply elem_of_fst. by exists c. }
      by rewrite (key_lt_trans _ _ _ Hlt E') in E.
Qed.
Lemma seek_in_sorted k rows :
  StronglySorted (λ a a', key_lt a a' = true) rows.*1 →
  StronglySorted (λ a a', key_lt a a' = true) (seek_in k rows).*1.
Proof.
  induction rows as [|r0 rows IH]; simpl; intros Hs; [done|].
  case_match; [|done]. apply IH. by apply StronglySorted_inv in Hs as [].
Qed.
Lemma while_prefix_spec p rows :
  StronglySorted (λ a a', key_lt a a' = true) rows.*1 →
  (∀ r, r ∈ rows → key_lt r.1 p = false) →
  while_prefix p rows = filter (λ r, has_prefix p r.1 = true) rows.
Proof.
  induction rows as [|r0 rows IH]; simpl; intros Hs Hge; [done|].
  apply StronglySorted_inv in Hs as [Hs Hall]. destruct (has_prefix p r0.1) eqn:E.
  - rewrite filter_cons_True by done. f_equal. apply IH; [done|]. intros r Hr. apply Hge. by right.
  - rewrite filter_cons_False by congruence. symmetry. apply list_filter_none, Forall_forall.
    intros r Hr Hp. apply has_prefix_spec in Hp. apply not_true_iff_false in E. apply E.
    apply has_prefix_spec, (prefix_convex_from p r0.1 r.1); [apply Hge; by left| |done].
    rewrite Forall_forall in Hall. apply Hall. destruct r as [a c]. apply elem_of_fst. by exists c.
Qed.
Lemma scan_filter b p : scan b p = filter (λ r, has_prefix p r.1 = true) (Seek b p).
Proof.
  apply while_prefix_spec; [apply seek_in_sorted, Rows_sorted|].
  intros r Hr. by apply seek_in_elem in Hr as [_ ?]; [|apply Rows_sorted].
Qed.
Lemma scan_elem b p k c : (k, c) ∈ scan b p ↔ cells b k = Some c ∧ p `prefix_of` k.
Proof.
  rewrite scan_filter, list_elem_of_filter. unfold Seek.
  rewrite seek_in_elem by apply Rows_sorted. rewrite Rows_cells. cbn. rewrite has_prefix_spec.
  split; [tauto|]. intros [Hc Hp]. split_and!; try done. by apply key_lt_prefix.
Qed.
Lemma filter_rows_sorted (P : key * cell B → Prop) `{∀ r, Decision (P r)} rows :
  StronglySorted (λ a a', key_lt a a' = true) rows.*1 →
  StronglySorted (λ a a', key_lt a a' = true) (filter P rows).*1.
Proof.
  induction rows as [|r0 rows IH]; intros Hs; [done|].
  apply StronglySorted_inv in Hs as [Hs Hall]. rewrite filter_cons. case_decide; [|by apply IH].
  simpl. constructor; [by apply IH|]. rewrite Forall_forall in *. intros a Ha.
  apply elem_of_fst in Ha as [c Ha]. apply list_elem_of_filter in Ha as [_ Ha].
  apply Hall, elem_of_fst. by exists c.
Qed.
Lemma scan_sorted b p : StronglySorted (λ a a', key_lt a a' = true) (scan b p).*1.
Proof. rewrite scan_filter. apply filter_rows_sorted, seek_in_sorted, Rows_sorted. Qed.

(** Two sorted lists with the same elements are equal. *)
Lemma sorted_unique (l l' : list key) :
  StronglySorted (λ a a', key_lt a a' = true) l →
  StronglySorted (λ a a', key_lt a a' = true) l' → (∀ k, k ∈ l ↔ k ∈ l') → l = l'.
Proof.
  revert l'. induction l as [|a l IH]; intros [|a' l'] Hs Hs' He; [done| | |].
  - exfalso. apply (not_elem_of_nil a'), He. by left.
  - exfalso. apply (not_elem_of_nil a), He. by left.
  - apply StronglySorted_inv in Hs as [Hs Ha], Hs' as [Hs' Ha']. rewrite Forall_forall in Ha, Ha'.
    assert (a = a') as <-.
    { assert (a ∈ a' :: l') as H1 by (apply He; by left).
      assert (a' ∈ a :: l) as H2 by (apply He; by left).
      apply elem_of_cons in H1 as [|H1]; [done|]. apply elem_of_cons in H2 as [|H2]; [done|].
      pose proof (key_lt_asym _ _ (Ha _ H2)) as Hx. by rewrite (Ha' _ H1) in Hx. }
    f_equal. apply IH; [done|done|]. intros k. specialize (He k). rewrite !elem_of_cons in He.
    split; intros Hk.
    + destruct (proj1 He (or_intror Hk)) as [->|]; [|done].
      specialize (Ha _ Hk). by rewrite key_lt_irrefl in Ha.
    + destruct (proj2 He (or_intror Hk)) as [->|]; [|done].
      specialize (Ha' _ Hk). by rewrite key_lt_irrefl in Ha'.
Qed.
End laws.
