(* ===== verification/BoltSample.v ===== *)
(** * BoltSample: a concrete database

    One lawful instance of [Bolt.Bolt], for the examples: a bucket is a finite map from
    keys to cells, its rows listed in key order.  It refuses an empty key, and a key
    under which there is a cell of the other kind. *)
From S2P Require Import Prelude Kernel Driver MemStore Keys Bolt.

Inductive bucket := mkBucket (m : gmap key (cell bucket)).
Definition content (b : bucket) : gmap key (cell bucket) := let 'mkBucket m := b in m.

Definition row_le (r r' : key * cell bucket) : Prop := key_lt r'.1 r.1 = false.
#[export] Instance row_le_dec : RelDecision row_le.
Proof. intros r r'. unfold row_le. apply _. Defined.

Definition key_required {A} : result BoltError A := Err (ErrBolt "key required").
#[export] Instance bucket_Bolt : Bolt bucket := {|
  Get b k := match content b !! k with Some (Row v) => Some v | _ => None end;
  Bucket b k := match content b !! k with Some (Nested n) => Some n | _ => None end;
  Rows b := merge_sort row_le (map_to_list (content b));
  Put b k v :=
    if bool_decide (k = []) then key_required
    else match content b !! k with
         | Some (Nested _) => Err ErrIncompatibleValue
         | _ => Ok (mkBucket (<[k := Row v]> (content b)))
         end;
  Delete b k :=
    match content b !! k with
    | Some (Nested _) => Err ErrIncompatibleValue
    | _ => Ok (mkBucket (delete k (content b)))
    end;
  CreateBucket b k :=
    if bool_decide (k = []) then key_required
    else match content b !! k with
         | Some _ => Err (ErrBolt "bucket exists")
         | None => Ok (mkBucket (<[k := Nested (mkBucket ∅)]> (content b)), mkBucket ∅)
         end;
  SetBucket b k n := mkBucket (<[k := Nested n]> (content b));
  DeleteBucket b k :=
    match content b !! k with
    | Some (Nested _) => Ok (mkBucket (delete k (content b)))
    | _ => Err (ErrBolt "bucket not found")
    end;
|}.

Lemma key_le_trans a b c : key_lt b a = false → key_lt c b = false → key_lt c a = false.
Proof.
  intros Hab Hbc. destruct (key_lt c a) eqn:E; [|done].
  destruct (decide (a = b)) as [->|Hne]; [congruence|].
  assert (key_lt a b = true) as Hlt by (apply key_lt_total; [congruence|done]).
  by rewrite (key_lt_trans _ _ _ E Hlt) in Hbc.
Qed.
#[local] Instance row_le_trans : Transitive row_le.
Proof. intros a b c. apply key_le_trans. Qed.
#[local] Instance row_le_total : Total row_le.
Proof.
  intros a b. unfold row_le. destruct (key_lt b.1 a.1) eqn:E; [right|by left].
  by apply key_lt_asym.
Qed.

Lemma rows_perm (b : bucket) : Rows b ≡ₚ map_to_list (content b).
Proof. apply merge_sort_Permutation. Qed.
Lemma sorted_strict (rows : list (key * cell bucket)) :
  StronglySorted row_le rows → NoDup rows.*1 →
  StronglySorted (λ a a', key_lt a a' = true) rows.*1.
Proof.
  induction 1 as [|r rows _ IH Hall]; simpl; intros Hn; [constructor|].
  apply NoDup_cons in Hn as [Hin Hn]. constructor; [by apply IH|].
  apply Forall_forall. intros a Ha. apply elem_of_fst in Ha as [c Ha].
  pose proof (proj1 (Forall_forall _ _) Hall (a, c) Ha) as Hle.
  apply key_lt_total; [|exact Hle].
  intros ->. apply Hin, elem_of_fst. by exists c.
Qed.

Lemma insert_cells {A} (m : gmap key A) k v k' :
  <[k := v]> m !! k' = if decide (k' = k) then Some v else m !! k'.
Proof.
  case_decide as E; [subst; apply lookup_insert_eq|]. by apply lookup_insert_ne.
Qed.
Lemma delete_cells {A} (m : gmap key A) k k' :
  delete k m !! k' = if decide (k' = k) then None else m !! k'.
Proof. case_decide as E; [subst; apply lookup_delete_eq|]. by apply lookup_delete_ne. Qed.

#[export] Instance bucket_BoltLaws : BoltLaws bucket.
Proof.
  refine {| cells b k := content b !! k |}; cbn; try done.
  - intros b k c. rewrite (rows_perm b). apply elem_of_map_to_list.
  - intros b. apply sorted_strict; [apply StronglySorted_merge_sort; apply _|].
    change (NoDup (Rows b).*1). rewrite (rows_perm b). apply NoDup_fst_map_to_list.
  - intros b k v b' k'. case_bool_decide; [done|].
    destruct (content b !! k) as [[]|]; intros [= <-]; apply insert_cells.
  - intros b k n ->. done.
  - intros b k Hk. destruct (content b !! k) as [[v|n]|] eqn:E; [by eexists| |by eexists].
    by destruct (Hk n).
  - intros b k b' k'. destruct (content b !! k) as [[]|]; intros [= <-]; apply delete_cells.
  - intros b k b' n k'. case_bool_decide; [done|].
    destruct (content b !! k) as [[]|]; intros [= <- <-]; (split; [done|]); apply insert_cells.
  - intros b k n k'. apply insert_cells.
  - intros b k n ->. by eexists.
  - intros b k b' k'. destruct (content b !! k) as [[]|]; intros [= <-]; apply delete_cells.
Defined.
