(* ===== verification/BoltStore.v ===== *)
(** * BoltStore: the store on bbolt (store/bbolt/store.go)

    The database is its six buckets; a transaction is a function on them whose error
    leaves the old ones.  Each operation runs alone here: the group commit of
    [groupCommit], which may run the function of a write more than once, is the subject
    of BoltBatch.v.  The blob caches are state that reads change too, so every read is
    given with its next state; [GetRun] of the [Store] interface is its answer. *)
From S2P Require Import Prelude Kernel Driver MemStore Wire Keys BlobCache Bolt.

Declare Scope result_scope.
Delimit Scope result_scope with result.
Notation "'let!' x := e 'in' k" :=
  (match e with Ok x => k | Err err => Err err end)
  (at level 200, x name, e at level 200, k at level 200) : result_scope.
Notation "'let!' ' x := e 'in' k" :=
  (match e with Ok x => k | Err err => Err err end)
  (at level 200, x strict pattern, e at level 200, k at level 200) : result_scope.
#[local] Open Scope result_scope.

Definition bolt_ {A} (r : result BoltError A) : result StoreError A :=
  match r with
  | Ok a => Ok a
  | Err ErrIncompatibleValue => Err (ErrStore "incompatible value")
  | Err (ErrBolt m) => Err (ErrStore m)
  end.
Definition pb_ {A} (r : result string A) : result StoreError A :=
  match r with Ok a => Ok a | Err m => Err (ErrStore m) end.

Record DB (B : Type) := mkDB {
  db_active : B; db_cursor : B; db_terminal : B; db_expiry : B; db_staged : B; db_slots : B;
}.
Arguments mkDB {B}. Arguments db_active {B}. Arguments db_cursor {B}.
Arguments db_terminal {B}. Arguments db_expiry {B}. Arguments db_staged {B}.
Arguments db_slots {B}.
Definition set_active {B} (b : B) (d : DB B) : DB B :=
  mkDB b (db_cursor d) (db_terminal d) (db_expiry d) (db_staged d) (db_slots d).
Definition set_cursor {B} (b : B) (d : DB B) : DB B :=
  mkDB (db_active d) b (db_terminal d) (db_expiry d) (db_staged d) (db_slots d).
Definition set_terminal {B} (b : B) (d : DB B) : DB B :=
  mkDB (db_active d) (db_cursor d) b (db_expiry d) (db_staged d) (db_slots d).
Definition set_expiry {B} (b : B) (d : DB B) : DB B :=
  mkDB (db_active d) (db_cursor d) (db_terminal d) b (db_staged d) (db_slots d).
Definition set_staged {B} (b : B) (d : DB B) : DB B :=
  mkDB (db_active d) (db_cursor d) (db_terminal d) (db_expiry d) b (db_slots d).
Definition set_slots {B} (b : B) (d : DB B) : DB B :=
  mkDB (db_active d) (db_cursor d) (db_terminal d) (db_expiry d) (db_staged d) b.

Definition stageDrainPerWrite : nat := 64.
Definition stageDrainPerSweep : nat := 256.

Section store.
Context {B : Type} `{Bolt B} `{Protobuf}.
(** [Store.blobRowMax] *)
Context (blobRowMax : Z).
Abbreviation DB := (DB B).
Abbreviation tx A := (result StoreError A).

(** ** Rows and blobs *)

Definition putOnce (b : B) (what : string) (id : RunID) (k : key) (v : string) : tx B :=
  match Get b k with
  | Some _ => Err (ErrStore ("bbolt: " +:+ what +:+ " of run " +:+ id +:+ " already written"))
  | None => bolt_ (Put b k v)
  end.

Definition putBlob (b : B) (k : key) (v : string) : tx B :=
  if (Z.of_nat (String.length v) <=? blobRowMax)%Z then bolt_ (Put b k v)
  else let! '(b, nb) := bolt_ (CreateBucket b k) in
       let! nb := bolt_ (Put nb blobKey v) in
       Ok (SetBucket b k nb).

Definition blobFromBucket (b : B) (k : key) : bytes :=
  match Bucket b k with Some nb => Get nb blobKey | None => None end.
Definition blobAt (b : B) (k : key) (c : cell B) : bytes :=
  match c with Row v => Some v | Nested _ => blobFromBucket b k end.
Definition getBlob (b : B) (k : key) : bytes :=
  match Seek b k with
  | (k', c) :: _ => if bool_decide (k' = k) then blobAt b k c else None
  | [] => None
  end.

Definition deleteBlob (b : B) (k : key) : tx B :=
  match Delete b k with
  | Err ErrIncompatibleValue => bolt_ (DeleteBucket b k)
  | r => bolt_ r
  end.
Fixpoint deleteBlobs (b : B) (keys : list key) : tx B :=
  match keys with
  | [] => Ok b
  | k :: keys => let! b := deleteBlob b k in deleteBlobs b keys
  end.

Definition deleteNonterminalStage (d : DB) (id : RunID) : tx DB :=
  let! active := deleteBlobs (db_active d) (scan (db_active d) (runPrefix id)).*1 in
  let! cursor := bolt_ (Delete (db_cursor d) (bs id)) in
  Ok (set_cursor cursor (set_active active d)).

Fixpoint find_op_in (prefix suffix : key) (rows : list (key * cell B)) : option key :=
  match rows with
  | [] => None
  | (k, _) :: rows =>
    if bool_decide (length k = length prefix + 4 + length suffix ∧
                    drop (length prefix + 4) k = suffix)
    then Some k else find_op_in prefix suffix rows
  end.
Definition findOp (active : B) (id : RunID) (step : StepID) (phase : Phase) : option key :=
  find_op_in (opPrefix id) (opSuffix step phase) (scan active (opPrefix id)).

Definition putOp (d : DB) (id : RunID) (step : StepID) (phase : Phase) (op : OperationRecord)
    : tx DB :=
  let beside := bool_decide (phase = PhaseForward) && (blobRowMax <? blen (Op_State op))%Z in
  let row := mkOp (Op_Status op) (Op_Attempts op) (if beside then None else Op_State op)
               (Op_Failure op) (Op_Order op) in
  let! b := pb_ (MarshalOperationRecord row) in
  let active := db_active d in
  let k := opKey id (Op_Order op) step phase in
  let old := findOp active id step phase in
  let! active :=
    match old with
    | Some o => if bool_decide (o = k) then Ok active else bolt_ (Delete active o)
    | None => Ok active
    end in
  let! active := bolt_ (Put active k b) in
  if negb (bool_decide (phase = PhaseForward)) then Ok (set_active active d)
  else
    let! active := match old with Some o => deleteBlob active (stateKey o) | None => Ok active end in
    let! active :=
      if beside then putBlob active (stateKey k) (default "" (Op_State op)) else Ok active in
    Ok (set_active active d).

Definition putRootFailure (d : DB) (id : RunID) (f : Failure) : tx DB :=
  let! b := pb_ (MarshalFailureRecord f) in
  let! active := putOnce (db_active d) "failure" id (activeKey id tagFailure) b in
  Ok (set_active active d).

Definition putTerminal (d : DB) (rec : RunRecord) : tx DB :=
  let beside := (blobRowMax <? blen (Run_Output rec))%Z in
  let! b := pb_ (MarshalTerminal rec beside) in
  let! terminal := bolt_ (Put (db_terminal d) (bs (Run_RunID rec)) b) in
  let! terminal :=
    if beside then putBlob terminal (outputKey (Run_RunID rec)) (default "" (Run_Output rec))
    else Ok terminal in
  let! expiry :=
    bolt_ (Put (db_expiry d) (expiryKey (Run_UpdatedAt rec) (Run_RunID rec)) "") in
  Ok (set_expiry expiry (set_terminal terminal d)).

(** [putRun]: the steps in the order the map yields them. *)
Definition op_put (d : DB) (id : RunID) (step : StepID) (phase : Phase) (op : OperationRecord)
    : tx DB :=
  if bool_decide (Op_Status op = OpNone) then Ok d else putOp d id step phase op.
Fixpoint put_steps (d : DB) (id : RunID) (steps : list (StepID * StepRecord)) : tx DB :=
  match steps with
  | [] => Ok d
  | (sid, sr) :: steps =>
    let! d := op_put d id sid PhaseForward (SR_Forward sr) in
    let! d := op_put d id sid PhaseUnwind (SR_Unwind sr) in
    put_steps d id steps
  end.
Definition cursor_of (rec : RunRecord) : Cursor :=
  mkCursor (Run_Phase rec) "" 0 (Run_Awaiting rec) (Run_Awaited rec) (Run_NextAttemptAt rec)
    (Run_LastError rec) (Run_LastReason rec) (Run_LastErrorAt rec) (Run_UpdatedAt rec)
    (Run_StartedAt rec).
Definition putCursor (d : DB) (id : RunID) (c : Cursor) : tx DB :=
  let! b := pb_ (MarshalCursor c) in
  let! cursor := bolt_ (Put (db_cursor d) (bs id) b) in
  Ok (set_cursor cursor d).

Definition putRun (d : DB) (rec : RunRecord) : tx DB :=
  let id := Run_RunID rec in
  if Terminal rec then putTerminal d (CompactTerminal rec)
  else
    let! meta := pb_ (MarshalRunMeta rec) in
    let! active := putOnce (db_active d) "meta" id (activeKey id tagMeta) meta in
    let! active :=
      match Run_Input rec with
      | Some v => if (0 <? blen (Run_Input rec))%Z then putBlob active (activeKey id tagInput) v
                  else Ok active
      | None => Ok active
      end in
    let! d := putCursor (set_active active d) id (cursor_of rec) in
    let! d := put_steps d id (map_to_list (Run_Steps rec)) in
    let! d := match Run_Failure rec with Some f => putRootFailure d id f | None => Ok d end in
    match Run_Cancel rec with
    | None => Ok d
    | Some c =>
      let! b := pb_ (MarshalCancel c) in
      let! active := putOnce (db_active d) "cancel request" id (activeKey id tagCancel) b in
      Ok (set_active active d)
    end.

(** ** Reading a run *)

(** [overlayCursor]. *)
Definition with_cursor (cur : Cursor) (rec : RunRecord) : RunRecord :=
  overlay_cursor cur (write_cursor cur rec).
Definition overlayCursor (d : DB) (rec : RunRecord) : tx RunRecord :=
  match Get (db_cursor d) (bs (Run_RunID rec)) with
  | None => Err (ErrStore ("bbolt: run " +:+ Run_RunID rec +:+ " has no cursor"))
  | Some cb => let! cur := pb_ (UnmarshalCursor cb) in Ok (with_cursor cur rec)
  end.

(** What [getNonterminal] carries along the rows of a run: the record, the blobs a cold
    cache is filled with, the last operation row and the cache. *)
Record walk := mkWalk {
  wk_rec : RunRecord;
  wk_fill : option runBlobs;
  wk_last : option (key * StepID);
  wk_cache : blobCache;
}.

Definition fill_input (v : bytes) (f : option runBlobs) : option runBlobs :=
  (λ f, mkBlobs v (rb_states f) (rb_output f) (rb_size f)) <$> f.
Definition fill_state (step : StepID) (v : bytes) (f : option runBlobs) : option runBlobs :=
  (λ f, mkBlobs (rb_input f) (<[step := v]> (rb_states f)) (rb_output f) (rb_size f)) <$> f.

Definition walk_input (active : B) (cachedInput : bytes) (k : key) (c : cell B) (w : walk) : walk :=
  match cachedInput with
  | Some _ => mkWalk (set_Input cachedInput (wk_rec w)) (wk_fill w) (wk_last w) (wk_cache w)
  | None =>
    let v := blobAt active k c in
    mkWalk (set_Input v (wk_rec w)) (fill_input v (wk_fill w)) (wk_last w) (wk_cache w)
  end.

(** The step of a state key: remembered from the row before it, or parsed. *)
Definition state_step (k rest : key) (last : option (key * StepID)) : tx StepID :=
  let malformed := Err (ErrStore "bbolt: malformed state key") in
  let parse :=
    match splitOpRest (take (length rest - length stateSuffix) rest) with
    | Some (_, step, PhaseForward) => Ok step
    | _ => malformed
    end in
  match last with
  | Some (k0, step) =>
    if bool_decide (take (length k - length stateSuffix) k = k0) then Ok step else parse
  | None => parse
  end.
Definition put_state (step : StepID) (v : bytes) (rec : RunRecord) : RunRecord :=
  let op := SR_Forward (Step rec step) in
  put_Op step PhaseForward (mkOp (Op_Status op) (Op_Attempts op) v (Op_Failure op) (Op_Order op)) rec.
Definition walk_state (active : B) (id : RunID) (k rest : key) (c : cell B) (w : walk) : tx walk :=
  let! step := state_step k rest (wk_last w) in
  let '(cache, st) := state (wk_cache w) id step in
  match st with
  | Some _ => Ok (mkWalk (put_state step st (wk_rec w)) (wk_fill w) (wk_last w) cache)
  | None =>
    let v := blobAt active k c in
    Ok (mkWalk (put_state step v (wk_rec w)) (fill_state step v (wk_fill w)) (wk_last w) cache)
  end.
Definition walk_op (k rest : key) (c : cell B) (w : walk) : tx walk :=
  match splitOpRest rest with
  | None => Err (ErrStore "bbolt: malformed operation key")
  | Some (_, step, phase) =>
    let! op := pb_ (UnmarshalOperationRecord (row_value c)) in
    Ok (mkWalk (put_Op step phase op (wk_rec w)) (wk_fill w) (Some (k, step)) (wk_cache w))
  end.
Definition walk_row (active : B) (id : RunID) (cachedInput : bytes) (r : key * cell B) (w : walk)
    : tx walk :=
  let '(k, c) := r in
  let record rec := mkWalk rec (wk_fill w) (wk_last w) (wk_cache w) in
  match splitActiveKey k with
  | None => Err (ErrStore "bbolt: malformed active key")
  | Some (_, tag, rest) =>
    if bool_decide (tag = tagInput) then Ok (walk_input active cachedInput k c w)
    else if bool_decide (tag = tagCancel) then
      let! cr := pb_ (UnmarshalCancel (row_value c)) in Ok (record (set_Cancel (Some cr) (wk_rec w)))
    else if bool_decide (tag = tagFailure) then
      let! f := pb_ (UnmarshalFailureRecord (row_value c)) in
      Ok (record (set_Failure (Some f) (wk_rec w)))
    else if bool_decide (tag = tagOp) then
      if has_suffix stateSuffix rest then walk_state active id k rest c w else walk_op k rest c w
    else Err (ErrStore "bbolt: unknown active row tag")
  end.
Fixpoint walk_rows (active : B) (id : RunID) (cachedInput : bytes) (rows : list (key * cell B))
    (w : walk) : tx walk :=
  match rows with
  | [] => Ok w
  | r :: rows => let! w := walk_row active id cachedInput r w in walk_rows active id cachedInput rows w
  end.

Definition index_panic : StoreError := ErrStore "panic: index out of range".
(** Splitting off the meta row: [ErrRunNotFound] when the first row is not one. *)
Definition meta_row (id : RunID) (rows : list (key * cell B)) : tx (string * list (key * cell B)) :=
  match rows with
  | (k, c) :: rows =>
    match k !! length (runPrefix id) with
    | Some tag => if bool_decide (tag = tagMeta) then Ok (row_value c, rows) else Err ErrRunNotFound
    | None => Err index_panic
    end
  | [] => Err ErrRunNotFound
  end.

(** [getNonterminal]: the answer with the cache it leaves. *)
Definition getNonterminal (d : DB) (blobs : blobCache) (id : RunID)
    : blobCache * tx RunRecord :=
  let '(blobs, (cachedInput, cached)) := input blobs id in
  match (let! '(v, rows) := meta_row id (scan (db_active d) (runPrefix id)) in
         let! rec := pb_ (UnmarshalRunMetaInto v run_zero) in
         walk_rows (db_active d) id cachedInput rows
           (mkWalk rec (if cached then None else Some no_blobs) None blobs)) with
  | Err e => (blobs, Err e)
  | Ok w =>
    let blobs := match wk_fill w with Some f => fill (wk_cache w) id f | None => wk_cache w end in
    (blobs, overlayCursor d (wk_rec w))
  end.

(** The caches of the store: blobs of the runs in flight, outputs of terminal runs. *)
Record caches := mkCaches { ca_blobs : blobCache; ca_outputs : blobCache }.

Definition getRun (d : DB) (c : caches) (id : RunID) : caches * tx RunRecord :=
  match Get (db_terminal d) (bs id) with
  | Some tb =>
    match UnmarshalTerminalInto tb run_zero with
    | Err m => (c, Err (ErrStore m))
    | Ok (rec, false) => (c, Ok rec)
    | Ok (rec, true) =>
      let '(outputs, out) := output (ca_outputs c) id in
      match out with
      | Some _ => (mkCaches (ca_blobs c) outputs, Ok (set_Output out rec))
      | None =>
        let out := getBlob (db_terminal d) (outputKey id) in
        (mkCaches (ca_blobs c) (fill outputs id (mkBlobs None ∅ out 0)), Ok (set_Output out rec))
      end
    end
  | None =>
    let '(blobs, r) := getNonterminal d (ca_blobs c) id in (mkCaches blobs (ca_outputs c), r)
  end.

(** [getHead]: the meta, cancel and failure rows, then the cursor. *)
Fixpoint head_rows (id : RunID) (rows : list (key * cell B)) (rec : RunRecord) : tx RunRecord :=
  match rows with
  | [] => Ok rec
  | (k, c) :: rows =>
    match k !! length (runPrefix id) with
    | Some tag =>
      if bool_decide (tag = tagCancel) then
        let! cr := pb_ (UnmarshalCancel (row_value c)) in head_rows id rows (set_Cancel (Some cr) rec)
      else if bool_decide (tag = tagFailure) then
        let! f := pb_ (UnmarshalFailureRecord (row_value c)) in
        head_rows id rows (set_Failure (Some f) rec)
      else Ok rec
    | None => Err index_panic
    end
  end.
Definition getHead (d : DB) (id : RunID) : tx RunRecord :=
  match Get (db_terminal d) (bs id) with
  | Some tb =>
    let! '(rec, _) := pb_ (UnmarshalTerminalInto tb run_zero) in Ok (set_Output None rec)
  | None =>
    let! '(v, rows) := meta_row id (scan (db_active d) (runPrefix id)) in
    let! rec := pb_ (UnmarshalRunMetaInto v run_zero) in
    let! rec := head_rows id rows rec in
    overlayCursor d rec
  end.

(** ** The store *)

Record BoltStore := mkBolt { bo_db : DB; bo_staged : Z; bo_caches : caches }.

(** [drainStaged]: the stages of up to [n] staged runs, and how many there were. *)
Fixpoint drain_ids (d : DB) (ids : list key) : tx DB :=
  match ids with
  | [] => Ok d
  | id :: ids =>
    let! d := deleteNonterminalStage d (of_bs id) in
    let! staged := bolt_ (Delete (db_staged d) id) in
    drain_ids (set_staged staged d) ids
  end.
Definition drainStaged (d : DB) (n : nat) : tx (DB * nat) :=
  let ids := take n (Rows (db_staged d)).*1 in
  let! d := drain_ids d ids in Ok (d, length ids).
(** [writeDrain]: the counter is not part of the transaction. *)
Definition writeDrain (s : BoltStore) : Z * tx DB :=
  if (bo_staged s <? Z.of_nat stageDrainPerWrite)%Z then (bo_staged s, Ok (bo_db s))
  else match drainStaged (bo_db s) stageDrainPerWrite with
       | Ok (d, n) => ((bo_staged s - Z.of_nat n)%Z, Ok d)
       | Err e => (bo_staged s, Err e)
       end.
(** [Drain]: sweeps until one is not full; [None] when the fuel runs out. *)
Fixpoint Drain (fuel : nat) (s : BoltStore) : option (BoltStore * tx unit) :=
  match fuel with
  | 0 => None
  | S fuel =>
    match drainStaged (bo_db s) stageDrainPerSweep with
    | Err e => Some (s, Err e)
    | Ok (d, n) =>
      let s := mkBolt d (bo_staged s - Z.of_nat n) (bo_caches s) in
      if bool_decide (n < stageDrainPerSweep) then Some (s, Ok tt) else Drain fuel s
    end
  end.

(** The first slot occupied, rec's own first. *)
Fixpoint slot_holder (slots : B) (rec : RunRecord) (ps : list PipelineID) : option string :=
  match ps with
  | [] => None
  | p :: ps =>
    if bool_decide (p = Run_PipelineID rec) then slot_holder slots rec ps
    else match Get slots (slotKeyFor p (Run_ResourceID rec)) with
         | Some active => Some active
         | None => slot_holder slots rec ps
         end
  end.
Definition slotKey (rec : RunRecord) : key := slotKeyFor (Run_PipelineID rec) (Run_ResourceID rec).
Definition occupant_of (slots : B) (rec : RunRecord) (excluding : list PipelineID) : option string :=
  match Get slots (slotKey rec) with
  | Some active => Some active
  | None => slot_holder slots rec excluding
  end.

(** The function of [CreateRun]'s transaction, after the drain: the database with the
    blocker, if any, or the run created. *)
Definition create_tx (d : DB) (c : caches) (rec : RunRecord) (excluding : list PipelineID)
    : caches * tx (DB * option RunRecord) :=
  match occupant_of (db_slots d) rec excluding with
  | Some active =>
    let '(c, r) := getRun d c active in
    (c, let! existing := r in Ok (d, Some existing))
  | None =>
    (c, let! d := putRun d rec in
        let! slots := bolt_ (Put (db_slots d) (slotKey rec) (Run_RunID rec)) in
        Ok (set_slots slots d, None))
  end.
Definition cache_states (blobs : blobCache) (id : RunID) (steps : list (StepID * StepRecord))
    : blobCache :=
  foldl (λ blobs e,
    if (blobRowMax <? blen (Op_State (SR_Forward e.2)))%Z
    then setState blobs id e.1 (Op_State (SR_Forward e.2)) else blobs) blobs steps.
Definition bolt_CreateRun (s : BoltStore) (rec : RunRecord) (excluding : list PipelineID)
    : BoltStore * tx (option RunRecord * bool) :=
  let '(staged, r) := writeDrain s in
  match r with
  | Err e => (mkBolt (bo_db s) staged (bo_caches s), Err e)
  | Ok d =>
    match create_tx d (bo_caches s) rec excluding with
    | (c, Err e) => (mkBolt (bo_db s) staged c, Err e)
    | (c, Ok (d, Some existing)) => (mkBolt d staged c, Ok (Some existing, false))
    | (c, Ok (d, None)) =>
      let blobs := setInput (ca_blobs c) (Run_RunID rec) (Run_Input rec) in
      let blobs := cache_states blobs (Run_RunID rec) (map_to_list (Run_Steps rec)) in
      (mkBolt d staged (mkCaches blobs (ca_outputs c)), Ok (None, true))
    end
  end.

(** The terminal record of a transition, as the terminality commit assembles it. *)
Definition overlay_terminal (c : Cursor) (rec : RunRecord) : RunRecord :=
  if bool_decide (Cursor_StepID c = "") then rec
  else
    let sr := Step rec (Cursor_StepID c) in
    let unresolved op := mkOp OpUnresolved (Op_Attempts op) (Op_State op) (Op_Failure op) (Op_Order op) in
    if bool_decide (Cursor_Phase c = PhaseUnwind ∧ Op_Status (SR_Forward sr) = OpSucceeded)
    then put_Op (Cursor_StepID c) PhaseUnwind (unresolved (SR_Unwind sr)) rec
    else put_Op (Cursor_StepID c) PhaseForward (unresolved (SR_Forward sr)) rec.
Definition terminal_record (rec : RunRecord) (t : Transition) (oc : Outcome) : RunRecord :=
  let rec := overlay_terminal (T_Cursor t) (write_ops (T_Ops t) (write_failure (T_Failure t) rec)) in
  let rec := set_Phase (Cursor_Phase (T_Cursor t)) rec in
  let rec := set_UpdatedAt (Cursor_UpdatedAt (T_Cursor t)) rec in
  let rec := set_StartedAt (Cursor_StartedAt (T_Cursor t)) rec in
  CompactTerminal (set_Output (T_Output t) (set_Outcome (Some oc) rec)).

Definition terminal_tx (d : DB) (id : RunID) (rec : RunRecord) : tx DB :=
  let! d := putTerminal d rec in
  let! staged := bolt_ (Put (db_staged d) (bs id) "") in
  let d := set_staged staged d in
  match Get (db_slots d) (slotKey rec) with
  | Some active =>
    if bool_decide (active = id) then
      let! slots := bolt_ (Delete (db_slots d) (slotKey rec)) in Ok (set_slots slots d)
    else Ok d
  | None => Ok d
  end.
Fixpoint put_ops (d : DB) (id : RunID) (ops : list OpWrite) : tx DB :=
  match ops with
  | [] => Ok d
  | ow :: ops =>
    let! d := putOp d id (OpWrite_StepID ow) (OpWrite_Phase ow) (OpWrite_Record ow) in
    put_ops d id ops
  end.
Definition step_tx (d : DB) (id : RunID) (t : Transition) : tx DB :=
  let! d := match T_Failure t with Some f => putRootFailure d id f | None => Ok d end in
  let! d := putCursor d id (T_Cursor t) in
  put_ops d id (T_Ops t).

(** The function of [ApplyTransition]'s transaction, after the drain. *)
Definition apply_tx (d : DB) (blobs : blobCache) (id : RunID) (t : Transition)
    : blobCache * tx DB :=
  match Get (db_terminal d) (bs id), Get (db_active d) (activeKey id tagMeta) with
  | Some _, _ => (blobs, Err ErrRunTerminal)
  | None, None => (blobs, Err ErrRunNotFound)
  | None, Some _ =>
    match T_Outcome t with
    | Some oc =>
      let '(blobs, r) := getNonterminal d blobs id in
      (blobs, let! rec := r in terminal_tx d id (terminal_record rec t oc))
    | None => (blobs, step_tx d id t)
    end
  end.

(** The caches after a committed transition. *)
Definition cache_op_write (id : RunID) (blobs : blobCache) (ow : OpWrite) : blobCache :=
  if negb (bool_decide (OpWrite_Phase ow = PhaseForward)) then blobs
  else
    let st := Op_State (OpWrite_Record ow) in
    setState blobs id (OpWrite_StepID ow) (if (blobRowMax <? blen st)%Z then st else None).
Definition caches_after (c : caches) (id : RunID) (t : Transition) : caches :=
  match T_Outcome t with
  | Some _ =>
    mkCaches (dropRun (ca_blobs c) id)
      (if (blobRowMax <? blen (T_Output t))%Z then setOutput (ca_outputs c) id (T_Output t)
       else ca_outputs c)
  | None => mkCaches (foldl (cache_op_write id) (ca_blobs c) (T_Ops t)) (ca_outputs c)
  end.
Definition bolt_ApplyTransition (s : BoltStore) (id : RunID) (t : Transition)
    : BoltStore * tx unit :=
  let '(staged, r) := writeDrain s in
  match r with
  | Err e => (mkBolt (bo_db s) staged (bo_caches s), Err e)
  | Ok d =>
    let '(blobs, r) := apply_tx d (ca_blobs (bo_caches s)) id t in
    let c := mkCaches blobs (ca_outputs (bo_caches s)) in
    match r with
    | Err e => (mkBolt (bo_db s) staged c, Err e)
    | Ok d =>
      (mkBolt d (match T_Outcome t with Some _ => (staged + 1)%Z | None => staged end)
         (caches_after c id t), Ok tt)
    end
  end.

Definition bolt_GetRun (s : BoltStore) (id : RunID) : BoltStore * tx RunRecord :=
  let '(c, r) := getRun (bo_db s) (bo_caches s) id in (mkBolt (bo_db s) (bo_staged s) c, r).
Definition bolt_GetRunHead (s : BoltStore) (id : RunID) : tx RunRecord := getHead (bo_db s) id.

(** [ReapTerminal]: the victims from the oldest on. *)
Fixpoint reap_victims (limit : Z) (cutoff : key) (rows : list (key * cell B)) : list key :=
  match rows with
  | [] => []
  | (k, _) :: rows =>
    if (0 <? limit)%Z && key_lt (take 8 k) cutoff
    then k :: reap_victims (limit - 1) cutoff rows else []
  end.
Definition reap_one (d : DB) (k : key) : tx DB :=
  let id := of_bs (drop 8 k) in
  let! d := deleteNonterminalStage d id in
  let! terminal := bolt_ (Delete (db_terminal d) (bs id)) in
  let! terminal := deleteBlob terminal (outputKey id) in
  let! expiry := bolt_ (Delete (db_expiry d) k) in
  let! staged := bolt_ (Delete (db_staged d) (bs id)) in
  Ok (set_staged staged (set_expiry expiry (set_terminal terminal d))).
Fixpoint reap_all (d : DB) (outputs : blobCache) (ks : list key) : blobCache * tx DB :=
  match ks with
  | [] => (outputs, Ok d)
  | k :: ks =>
    match reap_one d k with
    | Err e => (outputs, Err e)
    | Ok d => reap_all d (dropRun outputs (of_bs (drop 8 k))) ks
    end
  end.
Definition bolt_ReapTerminal (s : BoltStore) (before : Time) (limit : Z) : BoltStore * tx Z :=
  let ks := reap_victims limit (expiryPrefix before) (Rows (db_expiry (bo_db s))) in
  let '(outputs, r) := reap_all (bo_db s) (ca_outputs (bo_caches s)) ks in
  let c := mkCaches (ca_blobs (bo_caches s)) outputs in
  match r with
  | Err e => (mkBolt (bo_db s) (bo_staged s) c, Err e)
  | Ok d => (mkBolt d (bo_staged s) c, Ok (Z.of_nat (length ks)))
  end.

Definition cancel_tx (d : DB) (id : RunID) (req : CancelRequest) : tx (DB * bool) :=
  match Get (db_terminal d) (bs id), Get (db_active d) (activeKey id tagMeta),
        Get (db_active d) (activeKey id tagCancel) with
  | Some _, _, _ => Err ErrRunTerminal
  | None, None, _ => Err ErrRunNotFound
  | None, Some _, Some _ => Ok (d, false)
  | None, Some _, None =>
    let! b := pb_ (MarshalCancel req) in
    let! active := bolt_ (Put (db_active d) (activeKey id tagCancel) b) in
    Ok (set_active active d, true)
  end.
Definition bolt_RequestCancel (s : BoltStore) (id : RunID) (req : CancelRequest)
    : BoltStore * tx bool :=
  match cancel_tx (bo_db s) id req with
  | Ok (d, b) => (mkBolt d (bo_staged s) (bo_caches s), Ok b)
  | Err e => (s, Err e)
  end.

Fixpoint list_heads (d : DB) (ids : list string) : tx (list RunRecord) :=
  match ids with
  | [] => Ok []
  | id :: ids =>
    match getHead d id with
    | Err _ => Err (ErrStore ("bbolt: slot references run " +:+ id))
    | Ok rec => let! recs := list_heads d ids in Ok (rec :: recs)
    end
  end.
Definition bolt_ListNonterminal (s : BoltStore) : tx (list RunRecord) :=
  list_heads (bo_db s) (row_value <$> (Rows (db_slots (bo_db s))).*2).
Definition bolt_GetActiveRunID (s : BoltStore) (p : PipelineID) (res : ResourceID)
    : tx (option RunID) :=
  Ok (Get (db_slots (bo_db s)) (slotKeyFor p res)).

(** The [Store] value [Open] builds on a file whose buckets it has created. *)
Definition opened (d : DB) (blobCacheLimit outputCacheLimit : Z) : BoltStore :=
  mkBolt d 0 (mkCaches (newBlobCache blobCacheLimit) (newBlobCache outputCacheLimit)).

#[export] Instance Bolt_Store : Store BoltStore := {
  CreateRun := bolt_CreateRun;
  GetRun s id := (bolt_GetRun s id).2;
  GetRunHead := bolt_GetRunHead;
  ApplyTransition := bolt_ApplyTransition;
  ReapTerminal := bolt_ReapTerminal;
  RequestCancel := bolt_RequestCancel;
  ListNonterminal := bolt_ListNonterminal;
  GetActiveRunID := bolt_GetActiveRunID;
}.
End store.
