(* ===== verification/BoltStage.v ===== *)
(** * BoltStage: the rows of a nonterminal run (store/bbolt/store.go, the layout comment)

    [stage] is what the active rows and the cursor row of a run say, [stage_in] that
    they are those rows and no others.  The file shows that a read of the rows, with or
    without the cache, assembles exactly [read_record]. *)
From S2P Require Import Prelude Kernel Driver MemStore Wire Keys BlobCache Bolt BoltStore.

Definition phase_of (unwind : bool) : Phase := if unwind then PhaseUnwind else PhaseForward.

Record stage := mkStage {
  sg_pipeline : PipelineID;
  sg_resource : ResourceID;
  sg_created : Time;
  sg_annotations : gmap string string;
  sg_input : bytes;
  sg_cancel : option CancelRequest;
  sg_failure : option Failure;
  sg_ops : gmap (StepID * bool) OperationRecord;
  sg_cursor : Cursor;
}.

(** ** Keys of operations *)

Definition op_entry : Type := StepID * bool * OperationRecord.
Definition entry_key (id : RunID) (e : op_entry) : key :=
  opKey id (Op_Order e.2) e.1.1 (phase_of e.1.2).
Definition order_ok (z : Z) : Prop := (0 <= z < 2 ^ 32)%Z.
(** An entry whose key the store can read back. *)
Definition entry_ok (e : op_entry) : Prop := free e.1.1 ∧ order_ok (Op_Order e.2).

Lemma opKey_eq id order step phase :
  opKey id order step phase = opPrefix id ++ be 4 order ++ opSuffix step phase.
Proof. done. Qed.
Lemma opSuffix_prefix step u step' u' r :
  free step → free step' →
  opSuffix step (phase_of u) ++ r = opSuffix step' (phase_of u') → step = step' ∧ u = u' ∧ r = [].
Proof.
  unfold opSuffix. intros Hf Hf' E. rewrite <-!app_assoc in E. simpl in E. injection E as E.
  apply (free_split (bs step) (bs step')) in E as [Hs E]; [|done|done].
  split; [by apply bs_inj|]. destruct u, u'; simpl in E; by simplify_eq.
Qed.
Lemma be_app_inj n z z' r r' : be n z ++ r = be n z' ++ r' → be n z = be n z' ∧ r = r'.
Proof. intros E. apply app_inj_1 in E; [done|by rewrite !length_be]. Qed.
Lemma be_inj n z z' :
  (0 <= z < 2 ^ (8 * Z.of_nat n))%Z → (0 <= z' < 2 ^ (8 * Z.of_nat n))%Z → be n z = be n z' → z = z'.
Proof. intros Hz Hz' E. rewrite <-(be_val_be n z), <-(be_val_be n z'), E by done. done. Qed.

Lemma entry_key_prefix id e e' :
  entry_ok e → entry_ok e' → entry_key id e `prefix_of` entry_key id e' → e.1 = e'.1 ∧ entry_key id e = entry_key id e'.
Proof.
  destruct e as [[step u] op], e' as [[step' u'] op']. unfold entry_ok, entry_key. cbn.
  intros [Hf Ho] [Hf' Ho'] [r E]. rewrite !opKey_eq, <-!app_assoc in E. apply app_inv_head in E.
  apply be_app_inj in E as [Hb E]. symmetry in E.
  destruct (opSuffix_prefix step u step' u' r Hf Hf' E) as (<- & <- & ->).
  by rewrite !opKey_eq, Hb.
Qed.
Lemma entry_key_inj id e e' :
  entry_ok e → entry_ok e' → entry_key id e = entry_key id e' →
  e.1 = e'.1 ∧ Op_Order e.2 = Op_Order e'.2.
Proof.
  intros He He' E. destruct (entry_key_prefix id e e' He He') as [Hp _]; [by rewrite E|].
  split; [done|]. destruct e as [[step u] op], e' as [[step' u'] op']. cbn in *. simplify_eq.
  unfold entry_key in E. cbn in E. rewrite !opKey_eq in E. apply app_inv_head in E.
  apply be_app_inj in E as [E _]. apply (be_inj 4) in E; [done|apply He|apply He'].
Qed.
(** A state key is no operation key. *)
Lemma stateKey_entry id e e' :
  entry_ok e → entry_ok e' → stateKey (entry_key id e) ≠ entry_key id e'.
Proof.
  intros He He' E. destruct (entry_key_prefix id e e' He He') as [_ Hk].
  { rewrite <-E. by exists stateSuffix. }
  rewrite <-Hk in E. unfold stateKey in E. rewrite <-(app_nil_r (entry_key id e)) in E at 2.
  by apply app_inv_head in E.
Qed.
Lemma stateKey_inj k k' : stateKey k = stateKey k' → k = k'.
Proof. apply app_inv_tail. Qed.

(** ** The layout of the rows after the meta row *)

Section layout.
Context (blobRowMax : Z).

(** The state is a blob beside the row. *)
Definition beside (e : op_entry) : bool :=
  negb e.1.2 && (blobRowMax <? blen (Op_State e.2))%Z.
Definition row_op (e : op_entry) : OperationRecord :=
  mkOp (Op_Status e.2) (Op_Attempts e.2) (if beside e then None else Op_State e.2)
    (Op_Failure e.2) (Op_Order e.2).

Definition entry_keys (id : RunID) (e : op_entry) : list key :=
  entry_key id e :: if beside e then [stateKey (entry_key id e)] else [].
Definition entry_le (id : RunID) (e e' : op_entry) : Prop :=
  key_lt (entry_key id e') (entry_key id e) = false.
#[export] Instance entry_le_dec id : RelDecision (entry_le id).
Proof. intros e e'. unfold entry_le. apply _. Defined.
Definition sorted_ops (id : RunID) (ops : gmap (StepID * bool) OperationRecord) : list op_entry :=
  merge_sort (entry_le id) (map_to_list ops).

Definition opt_key {A} (o : option A) (k : key) : list key :=
  match o with Some _ => [k] | None => [] end.
Definition layout (id : RunID) (sg : stage) : list key :=
  opt_key (sg_cancel sg) (activeKey id tagCancel) ++
  opt_key (sg_failure sg) (activeKey id tagFailure) ++
  opt_key (sg_input sg) (activeKey id tagInput) ++
  (sorted_ops id (sg_ops sg) ≫= entry_keys id).

Abbreviation sorted := (StronglySorted (λ a a', key_lt a a' = true)).

Lemma sorted_app l l' :
  sorted l → sorted l' → (∀ a a', a ∈ l → a' ∈ l' → key_lt a a' = true) → sorted (l ++ l').
Proof.
  intros Hl Hl' Hlt. induction Hl as [|a l Hl IH Ha]; simpl; [done|].
  constructor; [apply IH; intros; apply Hlt; [by right|done]|].
  apply Forall_app. split; [done|]. apply Forall_forall. intros a' Ha'. apply Hlt; [by left|done].
Qed.
Lemma sorted_opt {A} (o : option A) k : sorted (opt_key o k).
Proof. destruct o; repeat constructor. Qed.
Lemma opt_key_elem {A} (o : option A) k k' : k' ∈ opt_key o k ↔ k' = k ∧ is_Some o.
Proof.
  destruct o; simpl; [rewrite list_elem_of_singleton|rewrite elem_of_nil]; unfold is_Some; naive_solver.
Qed.

(** The keys of an entry are above those of a smaller one. *)
Lemma entry_keys_elem id e k :
  k ∈ entry_keys id e ↔ k = entry_key id e ∨ beside e = true ∧ k = stateKey (entry_key id e).
Proof.
  unfold entry_keys. rewrite elem_of_cons. destruct (beside e);
    [rewrite list_elem_of_singleton|rewrite elem_of_nil]; naive_solver.
Qed.
Lemma entry_keys_lt id e e' k k' :
  entry_ok e → entry_ok e' → key_lt (entry_key id e) (entry_key id e') = true →
  k ∈ entry_keys id e → k' ∈ entry_keys id e' → key_lt k k' = true.
Proof.
  intros He He' Hlt Hk Hk'.
  assert (key_lt k (entry_key id e') = true) as Hlt'.
  { apply entry_keys_elem in Hk as [->|[_ ->]]; [done|]. apply key_lt_app_l; [done|].
    intros Hp. destruct (entry_key_prefix id e e' He He' Hp) as [_ E].
    by rewrite E, key_lt_irrefl in Hlt. }
  apply entry_keys_elem in Hk' as [->|[_ ->]]; [done|]. by apply key_lt_app_r.
Qed.

#[local] Instance entry_le_trans id : Transitive (entry_le id).
Proof.
  intros a b c Hab Hbc. unfold entry_le in *. destruct (key_lt (entry_key id c) (entry_key id a)) eqn:E; [|done].
  destruct (decide (entry_key id a = entry_key id b)) as [Heq|Hne]; [rewrite Heq in E; congruence|].
  assert (key_lt (entry_key id a) (entry_key id b) = true) as Hlt by (apply key_lt_total; [congruence|done]).
  by rewrite (key_lt_trans _ _ _ E Hlt) in Hbc.
Qed.
#[local] Instance entry_le_total id : Total (entry_le id).
Proof.
  intros a b. unfold entry_le. destruct (key_lt (entry_key id b) (entry_key id a)) eqn:E; [right|by left].
  by apply key_lt_asym.
Qed.

Lemma sorted_ops_perm id ops : sorted_ops id ops ≡ₚ map_to_list ops.
Proof. apply merge_sort_Permutation. Qed.

Lemma ops_sorted id (l : list op_entry) :
  StronglySorted (entry_le id) l → NoDup l.*1 → Forall entry_ok l → sorted (l ≫= entry_keys id).
Proof.
  induction 1 as [|e l _ IH Hall]; intros Hn Hok; [constructor|].
  apply NoDup_cons in Hn as [Hin Hn]. apply Forall_cons in Hok as [He Hok].
  rewrite bind_cons. apply sorted_app; [|by apply IH|].
  - unfold entry_keys. destruct (beside e); repeat constructor. apply key_lt_extend.
  - intros k k' Hk Hk'. apply list_elem_of_bind in Hk' as (e' & Hk' & He').
    rewrite Forall_forall in Hall, Hok.
    apply (entry_keys_lt id e e'); [done|by apply Hok| |done|done].
    apply key_lt_total; [|by apply Hall].
    intros E. destruct (entry_key_inj id e' e) as [E1 _]; [by apply Hok|done|done|].
    apply Hin. rewrite <-E1. apply list_elem_of_fmap. by exists e'.
Qed.

Definition ops_ok (ops : gmap (StepID * bool) OperationRecord) : Prop :=
  ∀ su op, ops !! su = Some op → entry_ok (su, op).

Lemma sorted_ops_ok id ops : ops_ok ops → Forall entry_ok (sorted_ops id ops).
Proof.
  intros Hok. apply Forall_forall. intros [su op] Hin. rewrite sorted_ops_perm in Hin.
  by apply Hok, elem_of_map_to_list.
Qed.

Lemma tag_lt id t t' r r' :
  (byte_val t < byte_val t')%Z → key_lt (activeKey id t ++ r) (activeKey id t' ++ r') = true.
Proof.
  intros Hlt. unfold activeKey. rewrite <-!app_assoc, key_lt_app. simpl.
  by rewrite (proj2 (Z.ltb_lt _ _) Hlt).
Qed.
Lemma entry_key_tag id e k : k ∈ entry_keys id e → ∃ r, k = activeKey id tagOp ++ r.
Proof.
  intros Hk. apply entry_keys_elem in Hk as [->|[_ ->]];
    unfold stateKey, entry_key, opKey, opPrefix; rewrite <-!app_assoc; by eexists.
Qed.

Lemma layout_sorted id sg : ops_ok (sg_ops sg) → sorted (layout id sg).
Proof.
  intros Hok. unfold layout.
  assert (∀ k, k ∈ (sorted_ops id (sg_ops sg) ≫= entry_keys id) → ∃ r, k = activeKey id tagOp ++ r) as Hops.
  { intros k Hk. apply list_elem_of_bind in Hk as (e & Hk & _). by apply (entry_key_tag id e). }
  assert (∀ (A : Type) (o : option A) t t' k k', (byte_val t < byte_val t')%Z →
    k ∈ opt_key o (activeKey id t) → (∃ r, k' = activeKey id t' ++ r) → key_lt k k' = true) as Hlt.
  { intros A o t t' k k' Ht Hk [r ->]. apply opt_key_elem in Hk as [-> _].
    rewrite <-(app_nil_r (activeKey id t)). by apply tag_lt. }
  assert (∀ (A : Type) (o : option A) t k, k ∈ opt_key o (activeKey id t) → ∃ r, k = activeKey id t ++ r) as Hopt.
  { intros A o t k Hk. apply opt_key_elem in Hk as [-> _]. exists []. by rewrite app_nil_r. }
  apply sorted_app; [apply sorted_opt|apply sorted_app; [apply sorted_opt|apply sorted_app;
    [apply sorted_opt| |]|]|].
  - apply ops_sorted; [apply StronglySorted_merge_sort; apply _| |by apply sorted_ops_ok].
    unfold sorted_ops. rewrite merge_sort_Permutation. apply NoDup_fst_map_to_list.
  - intros a a' Ha Ha'. apply (Hlt _ _ tagInput tagOp _ _ eq_refl Ha), Hops, Ha'.
  - intros a a' Ha Ha'. apply elem_of_app in Ha' as [Ha'|Ha'].
    + apply (Hlt _ _ tagFailure tagInput _ _ eq_refl Ha), (Hopt _ _ _ _ Ha').
    + apply (Hlt _ _ tagFailure tagOp _ _ eq_refl Ha), Hops, Ha'.
  - intros a a' Ha Ha'. rewrite !elem_of_app in Ha'. destruct Ha' as [Ha'|[Ha'|Ha']].
    + apply (Hlt _ _ tagCancel tagFailure _ _ eq_refl Ha), (Hopt _ _ _ _ Ha').
    + apply (Hlt _ _ tagCancel tagInput _ _ eq_refl Ha), (Hopt _ _ _ _ Ha').
    + apply (Hlt _ _ tagCancel tagOp _ _ eq_refl Ha), Hops, Ha'.
Qed.

Lemma layout_elem id sg k :
  k ∈ layout id sg ↔
    k = activeKey id tagCancel ∧ is_Some (sg_cancel sg) ∨
    k = activeKey id tagFailure ∧ is_Some (sg_failure sg) ∨
    k = activeKey id tagInput ∧ is_Some (sg_input sg) ∨
    ∃ su op, sg_ops sg !! su = Some op ∧ k ∈ entry_keys id (su, op).
Proof.
  unfold layout. rewrite !elem_of_app, !opt_key_elem, list_elem_of_bind.
  setoid_rewrite sorted_ops_perm.
  assert ((∃ e : op_entry, k ∈ entry_keys id e ∧ e ∈ map_to_list (sg_ops sg)) ↔
    (∃ su op, sg_ops sg !! su = Some op ∧ k ∈ entry_keys id (su, op))) as ->; [|done].
  split.
  - intros ([su op] & Hk & Hin). exists su, op. by apply elem_of_map_to_list in Hin.
  - intros (su & op & Hop & Hk). exists (su, op). split; [done|]. by apply elem_of_map_to_list.
Qed.
End layout.

(** ** The record of a stage *)

Definition add_op (m : gmap StepID StepRecord) (e : op_entry) : gmap StepID StepRecord :=
  <[e.1.1 := set_Op (phase_of e.1.2) e.2 (default sr_zero (m !! e.1.1))]> m.
Definition steps_of (ops : gmap (StepID * bool) OperationRecord) : gmap StepID StepRecord :=
  foldl add_op ∅ (map_to_list ops).
Definition merge_sr (o : option StepRecord) (f u : option OperationRecord) : option StepRecord :=
  match o, f, u with
  | None, None, None => None
  | _, _, _ => Some (mkStepRecord (default (SR_Forward (default sr_zero o)) f)
                       (default (SR_Unwind (default sr_zero o)) u))
  end.

Lemma add_ops_lookup (l : list op_entry) m step :
  NoDup l.*1 →
  foldl add_op m l !! step =
    merge_sr (m !! step) ((list_to_map l : gmap (StepID * bool) OperationRecord) !! (step, false))
      ((list_to_map l : gmap (StepID * bool) OperationRecord) !! (step, true)).
Proof.
  revert m. induction l as [|[[step' u] op] l IH]; intros m Hn.
  - cbn. rewrite !lookup_empty. by destruct (m !! step) as [[]|].
  - cbn [foldl fmap list_fmap fst] in *. apply NoDup_cons in Hn as [Hin Hn]. rewrite IH by done.
    change (list_to_map (((step', u), op) :: l)) with
      (<[(step', u) := op]> (list_to_map l : gmap (StepID * bool) OperationRecord)).
    assert ((list_to_map l : gmap (StepID * bool) OperationRecord) !! (step', u) = None) as Hnone.
    { by apply not_elem_of_list_to_map_1. }
    unfold add_op. cbn [fst snd]. destruct (decide (step = step')) as [->|Hne].
    + rewrite lookup_insert_eq. destruct u; rewrite lookup_insert_eq, lookup_insert_ne by done;
        rewrite Hnone; cbn [phase_of set_Op]; unfold merge_sr;
        destruct (m !! step') as [[]|], (list_to_map l !! (step', _)); done.
    + rewrite !lookup_insert_ne by congruence. done.
Qed.
Lemma steps_of_lookup ops step :
  steps_of ops !! step = merge_sr None (ops !! (step, false)) (ops !! (step, true)).
Proof.
  unfold steps_of. rewrite add_ops_lookup by apply NoDup_fst_map_to_list.
  by rewrite lookup_empty, list_to_map_to_list.
Qed.
Lemma add_ops_perm (l l' : list op_entry) m :
  NoDup l.*1 → l ≡ₚ l' → foldl add_op m l = foldl add_op m l'.
Proof.
  intros Hn Hp. apply map_eq. intros step. rewrite !add_ops_lookup; [|by rewrite <-Hp|done].
  by rewrite (list_to_map_proper l l' Hn Hp).
Qed.

Definition stage_record (id : RunID) (sg : stage) : RunRecord :=
  mkRun id (sg_pipeline sg) (sg_resource sg) (sg_annotations sg) (sg_input sg) PhaseZero
    (steps_of (sg_ops sg)) (sg_failure sg) None None 0 None None "" "" 0 (sg_cancel sg)
    (sg_created sg) 0 0.
(** What a read of a nonterminal run answers. *)
Definition read_record (id : RunID) (sg : stage) : RunRecord :=
  with_cursor (sg_cursor sg) (stage_record id sg).

Section rows.
Context {B : Type} `{BoltLaws B} `{ProtobufLaws} (blobRowMax : Z).
Context (Hmax : (0 <= blobRowMax)%Z).

Definition holds {A} (b : B) (k : key) (dec : string → result string A) (x : A) : Prop :=
  ∃ v, cells b k = Some (Row v) ∧ dec v = Ok x.
Definition holds_blob (b : B) (k : key) (v : bytes) : Prop :=
  ∃ c, cells b k = Some c ∧ blobAt b k c = v ∧ v ≠ None.

Record stage_in (active cursor : B) (id : RunID) (sg : stage) : Prop := {
  st_id : free id;
  st_ops : ops_ok (sg_ops sg);
  st_meta : ∃ v, cells active (activeKey id tagMeta) = Some (Row v) ∧
    ∀ rec, UnmarshalRunMetaInto v rec =
      Ok (meta_into rec id (sg_pipeline sg) (sg_resource sg) (sg_created sg) (sg_annotations sg));
  st_cancel c : sg_cancel sg = Some c → holds active (activeKey id tagCancel) UnmarshalCancel c;
  st_failure f : sg_failure sg = Some f →
    holds active (activeKey id tagFailure) UnmarshalFailureRecord f;
  st_input v : sg_input sg = Some v → holds_blob active (activeKey id tagInput) (Some v);
  st_row su op : sg_ops sg !! su = Some op →
    holds active (entry_key id (su, op)) UnmarshalOperationRecord (row_op blobRowMax (su, op));
  st_state su op : sg_ops sg !! su = Some op → beside blobRowMax (su, op) = true →
    holds_blob active (stateKey (entry_key id (su, op))) (Op_State op);
  st_only k : runPrefix id `prefix_of` k → is_Some (cells active k) →
    k = activeKey id tagMeta ∨ k ∈ layout blobRowMax id sg;
  st_cursor : holds cursor (bs id) UnmarshalCursor (sg_cursor sg);
}.

(** ** The scan of a run *)

Definition with_cell (active : B) (k : key) : key * cell B :=
  (k, default (Row "") (cells active k)).

Lemma runPrefix_active id tag r : runPrefix id `prefix_of` activeKey id tag ++ r.
Proof. unfold activeKey. rewrite <-app_assoc. by eexists. Qed.
Lemma layout_present active cursor id sg k :
  stage_in active cursor id sg → k ∈ layout blobRowMax id sg →
  is_Some (cells active k) ∧ runPrefix id `prefix_of` k.
Proof.
  intros Hs Hk. apply layout_elem in Hk as [[-> [c Hc]]|[[-> [f Hf]]|[[-> [v Hv]]|(su & op & Hop & Hk)]]].
  - destruct (st_cancel _ _ _ _ Hs c Hc) as (v & Hv & _). split; [by eexists|].
    rewrite <-(app_nil_r (activeKey _ _)). apply runPrefix_active.
  - destruct (st_failure _ _ _ _ Hs f Hf) as (v & Hv & _). split; [by eexists|].
    rewrite <-(app_nil_r (activeKey _ _)). apply runPrefix_active.
  - destruct (st_input _ _ _ _ Hs v Hv) as (c & Hc & _). split; [by eexists|].
    rewrite <-(app_nil_r (activeKey _ _)). apply runPrefix_active.
  - split; [|destruct (entry_key_tag _ _ _ _ Hk) as [r ->]; apply runPrefix_active].
    apply entry_keys_elem in Hk as [->|[Hb ->]].
    + destruct (st_row _ _ _ _ Hs su op Hop) as (v & Hv & _). by eexists.
    + destruct (st_state _ _ _ _ Hs su op Hop Hb) as (c & Hc & _). by eexists.
Qed.
Lemma meta_lt_layout id sg k : k ∈ layout blobRowMax id sg → key_lt (activeKey id tagMeta) k = true.
Proof.
  intros Hk. rewrite <-(app_nil_r (activeKey id tagMeta)).
  apply layout_elem in Hk as [[-> _]|[[-> _]|[[-> _]|(su & op & _ & Hk)]]].
  - rewrite <-(app_nil_r (activeKey id tagCancel)). by apply tag_lt.
  - rewrite <-(app_nil_r (activeKey id tagFailure)). by apply tag_lt.
  - rewrite <-(app_nil_r (activeKey id tagInput)). by apply tag_lt.
  - destruct (entry_key_tag _ _ _ _ Hk) as [r ->]. by apply tag_lt.
Qed.

Lemma with_cells active rows :
  (∀ k c, (k, c) ∈ rows → cells active k = Some c) → rows = with_cell active <$> rows.*1.
Proof.
  intros Hc. induction rows as [|[k c] rows IH]; [done|]. cbn. f_equal.
  - unfold with_cell. by rewrite (Hc k c) by (by left).
  - apply IH. intros k' c' Hin. apply Hc. by right.
Qed.

Lemma scan_stage active cursor id sg :
  stage_in active cursor id sg →
  scan active (runPrefix id) =
    with_cell active <$> (activeKey id tagMeta :: layout blobRowMax id sg).
Proof.
  intros Hs. rewrite (with_cells active (scan active (runPrefix id))).
  2:{ intros k c Hin. by apply scan_elem in Hin as [? _]. }
  f_equal. apply sorted_unique.
  - apply scan_sorted.
  - constructor; [apply layout_sorted, Hs|]. apply Forall_forall. intros k. apply meta_lt_layout.
  - intros k. rewrite elem_of_fst. setoid_rewrite scan_elem. rewrite elem_of_cons. split.
    + intros (c & Hc & Hp). apply (st_only _ _ _ _ Hs k Hp). by eexists.
    + intros [->|Hk].
      * destruct (st_meta _ _ _ _ Hs) as (v & Hv & _). exists (Row v). split; [done|].
        rewrite <-(app_nil_r (activeKey _ _)). apply runPrefix_active.
      * destruct (layout_present _ _ _ _ k Hs Hk) as [[c Hc] Hp]. by exists c.
Qed.
End rows.
