(* ===== verification/BoltRead.v ===== *)
(** * BoltRead: reading a run (store/bbolt/store.go, getNonterminal, getRun, getHead)

    The walk over a run's rows assembles the record its stage describes, whatever the
    cache holds of it, and leaves the cache with the blobs of the file. *)
From S2P Require Import Prelude Kernel Driver MemStore Wire Keys BlobCache Bolt BoltStore BoltStage.
#[local] Open Scope result_scope.

Section read.
Context {B : Type} `{BoltLaws B} `{ProtobufLaws} (blobRowMax : Z).
Context (Hmax : (0 <= blobRowMax)%Z).
Abbreviation stage_in := (stage_in blobRowMax).
Abbreviation layout := (layout blobRowMax).

(** ** What the cache may hold *)

(** The blobs the file keeps beside the rows of a run, its input included. *)
Definition blob_states (ops : gmap (StepID * bool) OperationRecord) : gmap StepID bytes :=
  omap (λ sr, if (blobRowMax <? blen (Op_State (SR_Forward sr)))%Z
              then Some (Op_State (SR_Forward sr)) else None) (steps_of ops).
Definition blobs_of (sg : stage) : runBlobs := mkBlobs (sg_input sg) (blob_states (sg_ops sg)) None 0.
Definition agrees (c : blobCache) (id : RunID) (sg : stage) : Prop :=
  ∀ rb, bc_byID c !! id = Some rb → below rb (blobs_of sg).

Lemma blob_states_lookup ops step v :
  blob_states ops !! step = Some v ↔
  ∃ op, ops !! (step, false) = Some op ∧ (blobRowMax <? blen (Op_State op))%Z = true ∧ v = Op_State op.
Proof using Hmax.
  unfold blob_states. rewrite lookup_omap, steps_of_lookup.
  assert ((blobRowMax <? blen (Op_State op_zero))%Z = false) as Hz by (cbn; lia).
  destruct (ops !! (step, false)) as [op|]; cbn.
  - destruct (blobRowMax <? blen (Op_State op))%Z eqn:E; naive_solver congruence.
  - destruct (ops !! (step, true)) as [op|]; cbn [default option_bind mbind];
      [cbn [SR_Forward]; rewrite Hz|]; naive_solver.
Qed.

(** The reads of a cache change only the order of its entries. *)
Record same_entries (c c' : blobCache) : Prop := {
  se_byID : bc_byID c' = bc_byID c;
  se_limit : bc_limit c' = bc_limit c;
  se_size : bc_size c' = bc_size c;
  se_ok : cache_ok c → cache_ok c';
}.
Lemma same_entries_refl c : same_entries c c.
Proof. by split. Qed.
Lemma same_entries_trans c c' c'' : same_entries c c' → same_entries c' c'' → same_entries c c''.
Proof. intros [] []. split; try congruence. auto. Qed.
Lemma lookup_blobs_same c id : same_entries c (lookup_blobs c id).1.
Proof.
  pose proof (lookup_blobs_ok c id). unfold lookup_blobs in *.
  by destruct (bc_byID c !! id); split.
Qed.
Lemma same_entries_agrees c c' id sg : same_entries c c' → agrees c id sg → agrees c' id sg.
Proof. intros [E _ _ _] Ha rb. rewrite E. apply Ha. Qed.

(** ** The pieces of the walk *)

Lemma walk_rows_app active id cin rows rows' w :
  walk_rows active id cin (rows ++ rows') w =
    let! w := walk_rows active id cin rows w in walk_rows active id cin rows' w.
Proof.
  revert w; induction rows as [|r rows IH]; intros w; [done|]. cbn.
  destruct (walk_row active id cin r w); [apply IH|done].
Qed.

Lemma split_tag id tag : free id → splitActiveKey (activeKey id tag) = Some (bs id, tag, []).
Proof. intros Hf. rewrite <-(app_nil_r (activeKey id tag)). by apply splitActiveKey_active. Qed.

Lemma with_cell_row active k c : cells active k = Some c → with_cell active k = (k, c).
Proof. intros E. unfold with_cell. by rewrite E. Qed.

Definition or_set {A} (set : option A → RunRecord → RunRecord) (o : option A) (r : RunRecord)
    : RunRecord := match o with Some _ => set o r | None => r end.

Section stage.
Context (active cursor : B) (id : RunID) (sg : stage) (Hs : stage_in active cursor id sg).

Lemma walk_cancel cin w :
  walk_rows active id cin (with_cell active <$> opt_key (sg_cancel sg) (activeKey id tagCancel)) w =
    Ok (mkWalk (or_set set_Cancel (sg_cancel sg) (wk_rec w)) (wk_fill w) (wk_last w) (wk_cache w)).
Proof using Hs.
  destruct (sg_cancel sg) as [c|] eqn:E; [|by destruct w].
  destruct (st_cancel _ _ _ _ _ Hs c E) as (v & Hv & Hd). cbn [opt_key fmap list_fmap walk_rows].
  rewrite (with_cell_row _ _ _ Hv). unfold walk_row. rewrite split_tag by apply Hs.
  cbn [bool_decide]. rewrite !bool_decide_eq_false_2 by done. rewrite bool_decide_eq_true_2 by done.
  cbn [row_value]. by rewrite Hd.
Qed.
Lemma walk_failure cin w :
  walk_rows active id cin (with_cell active <$> opt_key (sg_failure sg) (activeKey id tagFailure)) w =
    Ok (mkWalk (or_set set_Failure (sg_failure sg) (wk_rec w)) (wk_fill w) (wk_last w) (wk_cache w)).
Proof using Hs.
  destruct (sg_failure sg) as [c|] eqn:E; [|by destruct w].
  destruct (st_failure _ _ _ _ _ Hs c E) as (v & Hv & Hd). cbn [opt_key fmap list_fmap walk_rows].
  rewrite (with_cell_row _ _ _ Hv). unfold walk_row. rewrite split_tag by apply Hs.
  rewrite !bool_decide_eq_false_2 by done. rewrite bool_decide_eq_true_2 by done.
  cbn [row_value]. by rewrite Hd.
Qed.

Definition fill_ok_for (f : option runBlobs) : Prop :=
  match f with Some f => below f (blobs_of sg) | None => True end.

Lemma walk_input_piece cin w :
  cin = None ∨ cin = sg_input sg → fill_ok_for (wk_fill w) →
  ∃ f, walk_rows active id cin (with_cell active <$> opt_key (sg_input sg) (activeKey id tagInput)) w =
    Ok (mkWalk (or_set set_Input (sg_input sg) (wk_rec w)) f (wk_last w) (wk_cache w)) ∧
    fill_ok_for f ∧ (is_Some f ↔ is_Some (wk_fill w)).
Proof using Hs.
  intros Hcin Hf. destruct (sg_input sg) as [v|] eqn:E; [|exists (wk_fill w); destruct w; by split_and!].
  destruct (st_input _ _ _ _ _ Hs v E) as (c & Hc & Hb & _). cbn [opt_key fmap list_fmap walk_rows].
  rewrite (with_cell_row _ _ _ Hc). unfold walk_row. rewrite split_tag by apply Hs.
  rewrite bool_decide_eq_true_2 by done. unfold walk_input.
  destruct cin as [v'|].
  - destruct Hcin as [|[= ->]]; [done|]. eexists. split; [done|]. by split.
  - rewrite Hb. eexists. split; [done|]. destruct (wk_fill w) as [f|]; cbn; [|done].
    split; [|by split; intros; eexists]. destruct Hf as (Hb1 & Hb2 & Hb3).
    split_and!; cbn; [right; by rewrite E|done|done].
Qed.

(** The step of a state key, remembered or parsed. *)
Lemma split_entry e :
  entry_ok e →
  splitActiveKey (entry_key id e) =
    Some (bs id, tagOp, [NUL] ++ be 4 (Op_Order e.2) ++ opSuffix e.1.1 (phase_of e.1.2)).
Proof using Hs.
  intros He. rewrite <-splitActiveKey_active by apply Hs.
  f_equal. unfold entry_key. rewrite opKey_eq. unfold opPrefix. by rewrite <-!app_assoc.
Qed.
Lemma split_state e :
  entry_ok e →
  splitActiveKey (stateKey (entry_key id e)) =
    Some (bs id, tagOp,
          ([NUL] ++ be 4 (Op_Order e.2) ++ opSuffix e.1.1 (phase_of e.1.2)) ++ stateSuffix).
Proof using Hs.
  intros He. rewrite <-splitActiveKey_active by apply Hs.
  f_equal. unfold stateKey, entry_key. rewrite opKey_eq. unfold opPrefix. by rewrite <-!app_assoc.
Qed.
Lemma op_no_suffix r step u : has_suffix stateSuffix (r ++ opSuffix step (phase_of u)) = false.
Proof.
  unfold has_suffix, opSuffix. rewrite !reverse_app. by destruct u.
Qed.

Lemma walk_op_row cin e w :
  sg_ops sg !! e.1 = Some e.2 →
  walk_row active id cin (with_cell active (entry_key id e)) w =
    Ok (mkWalk (put_Op e.1.1 (phase_of e.1.2) (row_op blobRowMax e) (wk_rec w)) (wk_fill w)
          (Some (entry_key id e, e.1.1)) (wk_cache w)).
Proof using Hs.
  intros He. assert (entry_ok e) as Hok by (destruct e; by apply (st_ops _ _ _ _ _ Hs)).
  destruct (st_row _ _ _ _ _ Hs e.1 e.2 He) as (v & Hv & Hd).
  replace (e.1, e.2) with e in * by (by destruct e).
  rewrite (with_cell_row _ _ _ Hv). unfold walk_row. rewrite split_entry by done.
  rewrite !bool_decide_eq_false_2 by done. rewrite bool_decide_eq_true_2 by done.
  rewrite app_assoc, op_no_suffix. unfold walk_op. rewrite <-app_assoc.
  rewrite splitOpRest_op by apply Hok. cbn [row_value]. rewrite Hd.
  cbn. destruct e as [[step u] op]; by destruct u.
Qed.

Lemma state_of_blobs step op :
  sg_ops sg !! (step, false) = Some op → beside blobRowMax ((step, false), op) = true →
  rb_states (blobs_of sg) !! step = Some (Op_State op).
Proof using Hmax.
  intros Hop Hb. apply blob_states_lookup. exists op. split_and!; [done| |done]. done.
Qed.

Lemma walk_state_row cin e w :
  sg_ops sg !! e.1 = Some e.2 → beside blobRowMax e = true →
  agrees (wk_cache w) id sg → fill_ok_for (wk_fill w) →
  wk_last w = Some (entry_key id e, e.1.1) →
  ∃ f c, walk_row active id cin (with_cell active (stateKey (entry_key id e))) w =
    Ok (mkWalk (put_state e.1.1 (Op_State e.2) (wk_rec w)) f (wk_last w) c) ∧
    fill_ok_for f ∧ (is_Some f ↔ is_Some (wk_fill w)) ∧ same_entries (wk_cache w) c.
Proof using Hs Hmax.
  intros He Hb Ha Hf Hlast. assert (entry_ok e) as Hok by (destruct e; by apply (st_ops _ _ _ _ _ Hs)).
  destruct e as [[step u] op]. cbn [fst snd] in *.
  assert (u = false) as -> by (by destruct u).
  destruct (st_state _ _ _ _ _ Hs _ _ He Hb) as (c & Hc & Hv & _).
  rewrite (with_cell_row _ _ _ Hc). unfold walk_row. rewrite split_state by done.
  rewrite !bool_decide_eq_false_2 by done. rewrite bool_decide_eq_true_2 by done.
  cbn [fst snd phase_of].
  assert (has_suffix stateSuffix (([NUL] ++ be 4 (Op_Order op) ++ opSuffix step PhaseForward) ++ stateSuffix)
    = true) as -> by (apply has_suffix_spec; by eexists).
  unfold walk_state, state_step. rewrite Hlast.
  rewrite bool_decide_eq_true_2.
  2:{ unfold stateKey. rewrite length_app, Nat.add_sub. apply take_app_length. }
  pose proof (state_spec (wk_cache w) id step) as Hst.
  pose proof (state_state (wk_cache w) id step) as Hcs.
  pose proof (lookup_blobs_same (wk_cache w) id) as Hsame. rewrite <-Hcs in Hsame.
  destruct (state (wk_cache w) id step) as [cache st]. cbn in Hst, Hsame.
  pose proof (state_of_blobs step op He Hb) as Htrue.
  destruct st as [v|].
  - eexists _, cache. split; [|by split_and!]. do 2 f_equal. f_equal. rewrite Hst.
    destruct (bc_byID (wk_cache w) !! id) as [rb|] eqn:Erb; [|done].
    destruct (Ha rb Erb) as (_ & Hsub & _).
    destruct (rb_states rb !! step) as [v'|] eqn:Ev; [|done].
    cbn. rewrite (lookup_weaken _ _ _ _ Ev Hsub) in Htrue. congruence.
  - rewrite Hv. eexists _, cache. split; [done|]. split; [|split; [|done]].
    + destruct (wk_fill w) as [f|]; cbn; [|done]. destruct Hf as (Hb1 & Hb2 & Hb3).
      split_and!; cbn; [done| |done]. by apply insert_subseteq_l.
    + destruct (wk_fill w); cbn; split; intros []; by eexists.
Qed.

(** The rows of one operation. *)
Lemma walk_entry cin e w :
  sg_ops sg !! e.1 = Some e.2 → agrees (wk_cache w) id sg → fill_ok_for (wk_fill w) →
  ∃ f last c, walk_rows active id cin (with_cell active <$> entry_keys blobRowMax id e) w =
    Ok (mkWalk (put_Op e.1.1 (phase_of e.1.2) e.2 (wk_rec w)) f last c) ∧
    fill_ok_for f ∧ (is_Some f ↔ is_Some (wk_fill w)) ∧ same_entries (wk_cache w) c.
Proof using Hs Hmax.
  intros He Ha Hf. unfold entry_keys. cbn [fmap list_fmap walk_rows].
  rewrite walk_op_row by done. destruct (beside blobRowMax e) eqn:Hb.
  - cbn [fmap list_fmap walk_rows].
    set (w1 := mkWalk _ _ _ _).
    destruct (walk_state_row cin e w1) as (f & c & -> & Hf' & His & Hc); [done|done|done|done|done|].
    eexists f, _, c. split; [|done]. unfold w1. cbn [wk_rec wk_last]. do 2 f_equal.
    destruct e as [[step u] op]. cbn in Hb |- *. assert (u = false) as -> by (by destruct u).
    unfold put_state, row_op. cbn [phase_of]. rewrite Hb.
    replace (beside blobRowMax (step, false, op)) with true by (by rewrite <-Hb).
    change (SR_Forward ?x) with (Op x PhaseForward). rewrite Op_put_Op, put_Op_twice. by destruct op.
  - eexists _, _, _. split; [|split; [done|split; [done|apply same_entries_refl]]].
    cbn [fmap list_fmap walk_rows]. do 2 f_equal. unfold row_op. rewrite Hb. by destruct e as [? []].
Qed.

Lemma put_Op_add e r : put_Op e.1.1 (phase_of e.1.2) e.2 r = set_Steps (add_op (Run_Steps r) e) r.
Proof. done. Qed.

Lemma walk_ops cin (l : list op_entry) w :
  Forall (λ e, sg_ops sg !! e.1 = Some e.2) l → agrees (wk_cache w) id sg → fill_ok_for (wk_fill w) →
  ∃ f last c, walk_rows active id cin (with_cell active <$> (l ≫= entry_keys blobRowMax id)) w =
    Ok (mkWalk (set_Steps (foldl add_op (Run_Steps (wk_rec w)) l) (wk_rec w)) f last c) ∧
    fill_ok_for f ∧ (is_Some f ↔ is_Some (wk_fill w)) ∧ same_entries (wk_cache w) c.
Proof using Hs Hmax.
  revert w; induction l as [|e l IH]; intros w Hl Ha Hf.
  - exists (wk_fill w), (wk_last w), (wk_cache w). split; [|split; [done|split; [done|apply same_entries_refl]]].
    cbn. by destruct w as [[] ? ? ?].
  - apply Forall_cons in Hl as [He Hl]. rewrite bind_cons, fmap_app, walk_rows_app.
    destruct (walk_entry cin e w He Ha Hf) as (f & last & c & -> & Hf' & His & Hc).
    set (w1 := mkWalk _ _ _ _).
    destruct (IH w1) as (f' & last' & c' & -> & Hf'' & His' & Hc'); [done| |done|].
    { by apply (same_entries_agrees (wk_cache w)). }
    eexists f', last', c'. split; [done|]. split; [done|]. split; [by rewrite His', <-His|].
    by apply (same_entries_trans _ c).
Qed.

(** ** The whole read *)

Lemma with_meta v :
  cells active (activeKey id tagMeta) = Some (Row v) →
  meta_row id (with_cell active <$> (activeKey id tagMeta :: layout id sg)) =
    Ok (v, with_cell active <$> layout id sg).
Proof.
  intros Hv. cbn [fmap list_fmap]. rewrite (with_cell_row _ _ _ Hv). cbn [meta_row].
  assert (activeKey id tagMeta !! length (runPrefix id) = Some tagMeta) as ->; [|done].
  unfold activeKey. by rewrite lookup_app_r, Nat.sub_diag by done.
Qed.

(** The blobs of a run agree with the cache when it has an entry for the run that is
    below what the file has. *)
Lemma agrees_input c : agrees c id sg → (input c id).2.1 = None ∨ (input c id).2.1 = sg_input sg.
Proof.
  intros Ha. rewrite input_spec. destruct (bc_byID c !! id) as [rb|] eqn:E; [|by left].
  by destruct (Ha rb E) as (Hin & _).
Qed.

Lemma overlay_stage d rec :
  db_cursor d = cursor → Run_RunID rec = id →
  overlayCursor d rec = Ok (with_cursor (sg_cursor sg) rec).
Proof using Hs.
  intros Hcur Hid. unfold overlayCursor. rewrite Hcur, Hid, Get_cells.
  destruct (st_cursor _ _ _ _ _ Hs) as (v & -> & Hd). by rewrite Hd.
Qed.
Lemma getNonterminal_stage d c :
  db_active d = active → db_cursor d = cursor → cache_ok c → agrees c id sg →
  ∃ c' f, getNonterminal d c id =
    (match f with Some f => fill c' id f | None => c' end, Ok (read_record id sg)) ∧
    same_entries c c' ∧ fill_ok_for f.
Proof using Hs Hmax.
  intros Hact Hcur Hok Ha. unfold getNonterminal.
  pose proof (agrees_input c Ha) as Hcin. pose proof (input_state c id) as Hcs.
  pose proof (lookup_blobs_same c id) as Hsame. rewrite <-Hcs in Hsame.
  destruct (input c id) as [c0 [cin cached]]. cbn in Hcin, Hsame.
  rewrite Hact, (scan_stage blobRowMax active cursor id sg Hs).
  destruct (st_meta _ _ _ _ _ Hs) as (v & Hv & Hdec). rewrite (with_meta v Hv). rewrite Hdec.
  cbn [pb_]. set (w := mkWalk _ _ _ _).
  assert (fill_ok_for (wk_fill w)) as Hf0. { destruct cached; cbn; [done|apply below_empty]. }
  unfold layout. rewrite !fmap_app, walk_rows_app, walk_cancel, walk_rows_app, walk_failure,
    walk_rows_app.
  set (w1 := mkWalk _ _ _ _).
  destruct (walk_input_piece cin w1 Hcin) as (f1 & -> & Hf1 & His1); [done|].
  set (w2 := mkWalk _ _ _ _).
  destruct (walk_ops cin (sorted_ops id (sg_ops sg)) w2) as (f2 & last & c2 & -> & Hf2 & His2 & Hc2).
  { apply Forall_forall. intros [su op] Hin. rewrite sorted_ops_perm in Hin.
    by apply elem_of_map_to_list in Hin. }
  { apply (same_entries_agrees c); [done|done]. }
  { done. }
  exists c2, f2. split; [|split; [by apply (same_entries_trans _ c0)|done]].
  cbn [wk_fill wk_cache wk_rec w1 w2 w]. f_equal.
  assert (foldl add_op ∅ (sorted_ops id (sg_ops sg)) = steps_of (sg_ops sg)) as Hsteps.
  { apply add_ops_perm; [|apply sorted_ops_perm]. rewrite sorted_ops_perm. apply NoDup_fst_map_to_list. }
  rewrite overlay_stage; [|done|by destruct (sg_input sg), (sg_failure sg), (sg_cancel sg)].
  unfold read_record. do 2 f_equal. unfold or_set, stage_record.
  destruct (sg_input sg), (sg_failure sg), (sg_cancel sg); cbn;
    unfold meta_into; cbn; rewrite <-Hsteps; case_bool_decide as Ean; rewrite ?Ean; done.
Qed.
(** [getHead] stops at the first row that is neither the cancel request nor the failure. *)
Lemma tag_at tag r : (activeKey id tag ++ r) !! length (runPrefix id) = Some tag.
Proof. unfold activeKey. by rewrite <-app_assoc, lookup_app_r, Nat.sub_diag by done. Qed.
Lemma tag_at_0 tag : activeKey id tag !! length (runPrefix id) = Some tag.
Proof. rewrite <-(app_nil_r (activeKey id tag)). apply tag_at. Qed.

Lemma head_rows_stop rest rec :
  (∀ k, k ∈ rest → k = activeKey id tagInput ∨ ∃ r, k = activeKey id tagOp ++ r) →
  head_rows id (with_cell active <$> rest) rec = Ok rec.
Proof.
  intros Hrest. destruct rest as [|k rest]; [done|]. cbn [fmap list_fmap head_rows with_cell].
  assert (k !! length (runPrefix id) = Some tagInput ∨ k !! length (runPrefix id) = Some tagOp) as [-> | ->].
  - destruct (Hrest k) as [->|[r ->]]; [by left|left; apply tag_at_0|right; apply tag_at].
  - done.
  - done.
Qed.
Lemma head_rows_failure rest rec :
  (∀ k, k ∈ rest → k = activeKey id tagInput ∨ ∃ r, k = activeKey id tagOp ++ r) →
  head_rows id (with_cell active <$> (opt_key (sg_failure sg) (activeKey id tagFailure) ++ rest)) rec =
    Ok (or_set set_Failure (sg_failure sg) rec).
Proof using Hs.
  intros Hrest. destruct (sg_failure sg) as [f|] eqn:E; [|by apply head_rows_stop].
  destruct (st_failure _ _ _ _ _ Hs f E) as (v & Hv & Hd).
  cbn [opt_key app fmap list_fmap head_rows or_set]. rewrite (with_cell_row _ _ _ Hv), tag_at_0.
  rewrite bool_decide_eq_false_2, bool_decide_eq_true_2 by done. cbn [row_value]. rewrite Hd.
  by apply head_rows_stop.
Qed.
Lemma head_rows_cancel rest rec :
  (∀ k, k ∈ rest → k = activeKey id tagInput ∨ ∃ r, k = activeKey id tagOp ++ r) →
  head_rows id (with_cell active <$> (opt_key (sg_cancel sg) (activeKey id tagCancel) ++
      opt_key (sg_failure sg) (activeKey id tagFailure) ++ rest)) rec =
    Ok (or_set set_Failure (sg_failure sg) (or_set set_Cancel (sg_cancel sg) rec)).
Proof using Hs.
  intros Hrest. destruct (sg_cancel sg) as [c|] eqn:E; [|by apply head_rows_failure].
  destruct (st_cancel _ _ _ _ _ Hs c E) as (v & Hv & Hd).
  cbn [opt_key app fmap list_fmap head_rows or_set]. rewrite (with_cell_row _ _ _ Hv), tag_at_0.
  rewrite bool_decide_eq_true_2 by done. cbn [row_value]. rewrite Hd.
  by apply head_rows_failure.
Qed.

Definition head_stage (sg : stage) : stage :=
  mkStage (sg_pipeline sg) (sg_resource sg) (sg_created sg) (sg_annotations sg) None
    (sg_cancel sg) (sg_failure sg) ∅ (sg_cursor sg).

Lemma getHead_stage d :
  db_active d = active → db_cursor d = cursor → Get (db_terminal d) (bs id) = None →
  getHead d id = Ok (read_record id (head_stage sg)).
Proof using Hs.
  intros Hact Hcur Ht. unfold getHead. rewrite Ht, Hact, (scan_stage blobRowMax active cursor id sg Hs).
  destruct (st_meta _ _ _ _ _ Hs) as (v & Hv & Hdec). rewrite (with_meta v Hv), Hdec. cbn [pb_].
  unfold layout. rewrite head_rows_cancel.
  - rewrite overlay_stage; [|done|by destruct (sg_failure sg), (sg_cancel sg)].
    unfold read_record. do 2 f_equal. unfold or_set, stage_record.
    assert (steps_of ∅ = ∅) as Hsteps by (unfold steps_of; by rewrite map_to_list_empty).
    destruct (sg_failure sg) eqn:Ef, (sg_cancel sg) eqn:Ec; cbn; rewrite Hsteps;
      unfold meta_into; cbn; case_bool_decide as Ean; rewrite ?Ean, ?Ef, ?Ec; done.
  - intros k Hk. apply elem_of_app in Hk as [Hk|Hk].
    + left. by apply opt_key_elem in Hk as [-> _].
    + right. apply list_elem_of_bind in Hk as (e & Hk & _). by apply (entry_key_tag blobRowMax id e).
Qed.
End stage.
End read.
