(* ===== verification/BoltWrite.v ===== *)
(** * BoltWrite: writing the rows of a run (store/bbolt/store.go, putOp and putRun)

    Every write of a row takes a stage that the rows describe to the next one: the one
    row of an operation replaces the row it had, whatever its order, with the state
    beside it; the cancel request and the failure are added once; the cursor is
    rewritten.  The rows of the other runs stay. *)
From S2P Require Import Prelude Kernel Driver MemStore Wire Keys BlobCache Bolt BoltStore BoltStage.
#[local] Open Scope result_scope.

Lemma let_Ok {A C} (r : result StoreError A) (f : A → result StoreError C) c :
  (let! x := r in f x) = Ok c → ∃ a, r = Ok a ∧ f a = Ok c.
Proof. destruct r; [by eauto|done]. Qed.
Lemma bolt_Ok {A} (r : result BoltError A) a : bolt_ r = Ok a → r = Ok a.
Proof. destruct r as [|[]]; simpl; congruence. Qed.
Lemma pb_Ok {A} (r : result string A) a : pb_ r = Ok a → r = Ok a.
Proof. destruct r; simpl; congruence. Qed.

(** Takes apart the writes of a transaction that succeeded. *)
Ltac writes :=
  repeat match goal with
  | E : (let! x := _ in _) = Ok _ |- _ => apply let_Ok in E as (? & ? & E)
  | E : bolt_ _ = Ok _ |- _ => apply bolt_Ok in E
  | E : pb_ _ = Ok _ |- _ => apply pb_Ok in E
  | E : Ok _ = Ok _ |- _ => injection E as E
  | E : Err _ = Ok _ |- _ => discriminate E
  end.

Section cells.
Context {B : Type} `{BoltLaws B} (blobRowMax : Z).
Context (Hmax : (0 <= blobRowMax)%Z).
Implicit Types (b : B) (k : key).

Definition set_cell (b : B) (k : key) (o : option (cell B)) (b' : B) : Prop :=
  ∀ k', cells b' k' = if decide (k' = k) then o else cells b k'.
(** Only the keys of [P] change. *)
Definition only_at (P : key → Prop) (b b' : B) : Prop := ∀ k, ¬ P k → cells b' k = cells b k.

Lemma set_cell_eq b k o b' : set_cell b k o b' → cells b' k = o.
Proof. intros Hc. by rewrite Hc, decide_True. Qed.
Lemma set_cell_ne b k o b' k' : set_cell b k o b' → k' ≠ k → cells b' k' = cells b k'.
Proof. intros Hc Hne. by rewrite Hc, decide_False. Qed.
Lemma set_cell_only (P : key → Prop) b k o b' : set_cell b k o b' → P k → only_at P b b'.
Proof. intros Hc Hk k' Hk'. apply (set_cell_ne _ _ _ _ _ Hc). by intros ->. Qed.
Lemma only_at_refl P b : only_at P b b.
Proof. done. Qed.
Lemma only_at_trans P b b' b'' : only_at P b b' → only_at P b' b'' → only_at P b b''.
Proof. intros H1 H2 k Hk. by rewrite (H2 k Hk), (H1 k Hk). Qed.

Lemma Put_set b k v b' : Put b k v = Ok b' → set_cell b k (Some (Row v)) b'.
Proof. intros E k'. by apply Put_cells. Qed.
Lemma Delete_set b k b' : Delete b k = Ok b' → set_cell b k None b'.
Proof. intros E k'. by apply Delete_cells. Qed.
Lemma deleteBlob_set b k b' : deleteBlob b k = Ok b' → set_cell b k None b'.
Proof.
  unfold deleteBlob. destruct (Delete b k) as [b0|[|m]] eqn:E; intros Hd; writes.
  - subst. by apply Delete_set.
  - intros k'. by apply DeleteBucket_cells.
Qed.
Lemma deleteBlobs_cells ks b b' k :
  deleteBlobs b ks = Ok b' → cells b' k = if decide (k ∈ ks) then None else cells b k.
Proof.
  revert b; induction ks as [|k0 ks IH]; intros b Hd; cbn in Hd; writes.
  - subst. by rewrite decide_False by apply not_elem_of_nil.
  - match goal with Hd0 : deleteBlob b k0 = Ok ?b1 |- _ =>
      rename Hd0 into Hb1; rewrite (IH b1) by done; apply deleteBlob_set in Hb1 end.
    destruct (decide (k ∈ ks)) as [Hin|Hin].
    + rewrite decide_True; [done|by right].
    + rewrite (Hb1 k). destruct (decide (k = k0)) as [->|Hne].
      * rewrite decide_True; [done|by left].
      * rewrite decide_False; [done|]. intros [?|?]%elem_of_cons; done.
Qed.

(** A blob depends on the cell it is in. *)
Lemma blobAt_cells b b' k c : cells b' k = cells b k → blobAt b' k c = blobAt b k c.
Proof.
  intros E. destruct c; [done|]. cbn. unfold blobFromBucket. by rewrite !Bucket_cells, E.
Qed.
Lemma holds_blob_cells b b' k v : cells b' k = cells b k → holds_blob b k v → holds_blob b' k v.
Proof.
  intros E (c & Hc & Hv & Hn). exists c. by rewrite E, (blobAt_cells b b' k c E).
Qed.
Lemma holds_cells {A} b b' k dec (x : A) : cells b' k = cells b k → holds b k dec x → holds b' k dec x.
Proof. intros E (v & Hv & Hd). exists v. by rewrite E. Qed.

Lemma putBlob_only b k v b' : putBlob blobRowMax b k v = Ok b' → only_at (λ k', k' = k) b b'.
Proof.
  unfold putBlob. case_match; intros Hp; writes.
  - by apply (set_cell_only _ _ _ _ _ (Put_set _ _ _ _ Hp)).
  - destruct x as [b0 n]. writes. subst. intros k' Hk'.
    rewrite SetBucket_cells, decide_False by done.
    destruct (CreateBucket_cells b k b0 n k') as [_ ->]; [done|]. by rewrite decide_False.
Qed.
Lemma putBlob_holds b k v b' : putBlob blobRowMax b k v = Ok b' → holds_blob b' k (Some v).
Proof.
  unfold putBlob. case_match; intros Hp; writes.
  - exists (Row v). split_and!; [|done|done]. by apply (set_cell_eq _ _ _ _ (Put_set _ _ _ _ Hp)).
  - destruct x as [b0 n]. writes. subst. rename x into n'. exists (Nested n'). split_and!; [|cbn|done].
    + by rewrite SetBucket_cells, decide_True.
    + unfold blobFromBucket. rewrite Bucket_cells, SetBucket_cells, decide_True by done.
      rewrite Get_cells. by erewrite set_cell_eq by (by apply Put_set).
Qed.
Lemma putOnce_set b what id k v b' :
  putOnce b what id k v = Ok b' → Get b k = None ∧ set_cell b k (Some (Row v)) b'.
Proof.
  unfold putOnce. destruct (Get b k); intros Hp; writes. split; [done|]. by apply Put_set.
Qed.
End cells.

(** ** Keys of one run *)

Definition run_key (id : RunID) (k : key) : Prop := runPrefix id `prefix_of` k.
#[export] Instance run_key_dec id k : Decision (run_key id k).
Proof. unfold run_key. apply _. Defined.
Definition key_tag (id : RunID) (k : key) : option ascii := k !! length (runPrefix id).

Lemma run_key_active id tag r : run_key id (activeKey id tag ++ r).
Proof. unfold run_key, activeKey. rewrite <-app_assoc. by eexists. Qed.
Lemma run_key_active_0 id tag : run_key id (activeKey id tag).
Proof. rewrite <-(app_nil_r (activeKey id tag)). apply run_key_active. Qed.
Lemma entry_key_active id e : ∃ r, entry_key id e = activeKey id tagOp ++ r.
Proof. unfold entry_key, opKey, opPrefix. rewrite <-!app_assoc. by eexists. Qed.
Lemma stateKey_active id e : ∃ r, stateKey (entry_key id e) = activeKey id tagOp ++ r.
Proof. destruct (entry_key_active id e) as [r ->]. unfold stateKey. rewrite <-app_assoc. by eexists. Qed.
Lemma run_key_entry id e : run_key id (entry_key id e).
Proof. destruct (entry_key_active id e) as [r ->]. apply run_key_active. Qed.
Lemma run_key_state id e : run_key id (stateKey (entry_key id e)).
Proof. destruct (stateKey_active id e) as [r ->]. apply run_key_active. Qed.
#[export] Hint Resolve run_key_active run_key_active_0 run_key_entry run_key_state : bolt.

Lemma key_tag_active id tag r : key_tag id (activeKey id tag ++ r) = Some tag.
Proof. unfold key_tag, activeKey. by rewrite <-app_assoc, lookup_app_r, Nat.sub_diag by done. Qed.
Lemma key_tag_active_0 id tag : key_tag id (activeKey id tag) = Some tag.
Proof. rewrite <-(app_nil_r (activeKey id tag)). apply key_tag_active. Qed.
Lemma key_tag_entry id e : key_tag id (entry_key id e) = Some tagOp.
Proof. destruct (entry_key_active id e) as [r ->]. apply key_tag_active. Qed.
Lemma key_tag_state id e : key_tag id (stateKey (entry_key id e)) = Some tagOp.
Proof. destruct (stateKey_active id e) as [r ->]. apply key_tag_active. Qed.
(** Keys of rows with different tags. *)
Ltac tag_ne :=
  let E := fresh "E" in
  intros E;
  match type of E with
  | activeKey ?id _ = _ => apply (f_equal (key_tag id)) in E
  | entry_key ?id _ = _ => apply (f_equal (key_tag id)) in E
  | stateKey (entry_key ?id _) = _ => apply (f_equal (key_tag id)) in E
  end;
  rewrite ?key_tag_active_0, ?key_tag_entry, ?key_tag_state in E; done.

(** ** Changing a stage *)

Definition sg_with (cancel : option CancelRequest) (failure : option Failure)
    (ops : gmap (StepID * bool) OperationRecord) (cursor : Cursor) (sg : stage) : stage :=
  mkStage (sg_pipeline sg) (sg_resource sg) (sg_created sg) (sg_annotations sg) (sg_input sg)
    cancel failure ops cursor.

Section rows.
Context {B : Type} `{BoltLaws B} `{ProtobufLaws} (blobRowMax : Z).
Context (Hmax : (0 <= blobRowMax)%Z).
Abbreviation stage_in := (stage_in blobRowMax).
Abbreviation layout := (layout blobRowMax).
Implicit Types (active cursor : B) (id : RunID) (sg : stage).

Lemma stage_cells active active' cursor cursor' id sg :
  (∀ k, run_key id k → cells active' k = cells active k) →
  cells cursor' (bs id) = cells cursor (bs id) →
  stage_in active cursor id sg → stage_in active' cursor' id sg.
Proof.
  intros Ha Hc [Hid Hops (v & Hv & Hmeta) Hcan Hfail Hin Hrow Hst Honly Hcur]. split; try done.
  - exists v. by rewrite Ha by auto with bolt.
  - intros c Hc'. apply (holds_cells active); [auto with bolt|auto].
  - intros c Hc'. apply (holds_cells active); [auto with bolt|auto].
  - intros c Hc'. apply (holds_blob_cells active); [auto with bolt|auto].
  - intros su op Hop. apply (holds_cells active); [auto with bolt|auto].
  - intros su op Hop Hb. apply (holds_blob_cells active); [auto with bolt|auto].
  - intros k Hk. rewrite Ha by done. auto.
  - by apply (holds_cells cursor).
Qed.
Lemma stage_frame active active' cursor cursor' id id' sg :
  free id' → id ≠ id' → only_at (run_key id') active active' →
  cells cursor' (bs id) = cells cursor (bs id) →
  stage_in active cursor id sg → stage_in active' cursor' id sg.
Proof.
  intros Hf Hne Ha Hc Hs. apply (stage_cells active _ cursor); [|done|done].
  intros k Hk. apply Ha. intros Hk'. by apply Hne, (runPrefix_of_id id id' k); [apply Hs| | |].
Qed.

Lemma stage_cursor active cursor cursor' id sg v c :
  set_cell cursor (bs id) (Some (Row v)) cursor' → UnmarshalCursor v = Ok c →
  stage_in active cursor id sg →
  stage_in active cursor' id (sg_with (sg_cancel sg) (sg_failure sg) (sg_ops sg) c sg).
Proof.
  intros Hset Hd [Hid Hops Hmeta Hcan Hfail Hin Hrow Hst Honly Hcur]. split; try done.
  exists v. split; [|done]. by apply (set_cell_eq _ _ _ _ Hset).
Qed.

(** A row of its own tag: the other rows of the stage stay. *)
Lemma stage_failure active active' cursor id sg v f :
  set_cell active (activeKey id tagFailure) (Some (Row v)) active' →
  UnmarshalFailureRecord v = Ok f → stage_in active cursor id sg →
  stage_in active' cursor id (sg_with (sg_cancel sg) (Some f) (sg_ops sg) (sg_cursor sg) sg).
Proof.
  intros Hset Hd [Hid Hops (w & Hw & Hmeta) Hcan Hfail Hin Hrow Hst Honly Hcur].
  assert (∀ k, k ≠ activeKey id tagFailure → cells active' k = cells active k) as Hoth.
  { intros k Hk. by apply (set_cell_ne _ _ _ _ _ Hset). }
  split; try done.
  - exists w. rewrite Hoth; [done|tag_ne].
  - intros c Hc'. apply (holds_cells active); [apply Hoth; tag_ne|auto].
  - intros f' [= <-]. exists v. split; [|done]. by apply (set_cell_eq _ _ _ _ Hset).
  - intros c Hc'. apply (holds_blob_cells active); [apply Hoth; tag_ne|auto].
  - intros su op Hop. apply (holds_cells active); [apply Hoth; tag_ne|auto].
  - intros su op Hop Hb. apply (holds_blob_cells active); [apply Hoth; tag_ne|auto].
  - intros k Hk. destruct (decide (k = activeKey id tagFailure)) as [->|Hne].
    + intros _. right. apply layout_elem. right. left. split; [done|by eexists].
    + rewrite Hoth by done. intros Hsome. destruct (Honly k Hk Hsome) as [->|Hl]; [by left|right].
      apply layout_elem. apply layout_elem in Hl as [Hl|[[-> _]|[Hl|Hl]]]; [by left|done|auto|auto].
Qed.
Lemma stage_cancel active active' cursor id sg v c :
  set_cell active (activeKey id tagCancel) (Some (Row v)) active' →
  UnmarshalCancel v = Ok c → stage_in active cursor id sg →
  stage_in active' cursor id (sg_with (Some c) (sg_failure sg) (sg_ops sg) (sg_cursor sg) sg).
Proof.
  intros Hset Hd [Hid Hops (w & Hw & Hmeta) Hcan Hfail Hin Hrow Hst Honly Hcur].
  assert (∀ k, k ≠ activeKey id tagCancel → cells active' k = cells active k) as Hoth.
  { intros k Hk. by apply (set_cell_ne _ _ _ _ _ Hset). }
  split; try done.
  - exists w. rewrite Hoth; [done|tag_ne].
  - intros c' [= <-]. exists v. split; [|done]. by apply (set_cell_eq _ _ _ _ Hset).
  - intros f' Hf'. apply (holds_cells active); [apply Hoth; tag_ne|auto].
  - intros i Hi. apply (holds_blob_cells active); [apply Hoth; tag_ne|auto].
  - intros su op Hop. apply (holds_cells active); [apply Hoth; tag_ne|auto].
  - intros su op Hop Hb. apply (holds_blob_cells active); [apply Hoth; tag_ne|auto].
  - intros k Hk. destruct (decide (k = activeKey id tagCancel)) as [->|Hne].
    + intros _. right. apply layout_elem. left. split; [done|by eexists].
    + rewrite Hoth by done. intros Hsome. destruct (Honly k Hk Hsome) as [->|Hl]; [by left|right].
      apply layout_elem. apply layout_elem in Hl as [[-> _]|[Hl|[Hl|Hl]]]; [done|auto|auto|auto].
Qed.

(** ** The row of an operation *)

Lemma find_op_in_Some prefix suffix (rows : list (key * cell B)) k :
  find_op_in prefix suffix rows = Some k →
  k ∈ rows.*1 ∧ length k = length prefix + 4 + length suffix ∧ drop (length prefix + 4) k = suffix.
Proof.
  induction rows as [|[k' c] rows IH]; [done|]. cbn. case_bool_decide as Hk.
  - intros [= ->]. split; [by left|done].
  - intros Hf. destruct (IH Hf) as [Hin ?]. split; [by right|done].
Qed.
Lemma find_op_in_None prefix suffix (rows : list (key * cell B)) k :
  find_op_in prefix suffix rows = None → k ∈ rows.*1 →
  ¬ (length k = length prefix + 4 + length suffix ∧ drop (length prefix + 4) k = suffix).
Proof.
  induction rows as [|[k' c] rows IH]; [intros _ []%not_elem_of_nil|]. cbn. case_bool_decide as Hk; [done|].
  intros Hf [->|Hin]%elem_of_cons; [done|by apply IH].
Qed.

Lemma entry_key_shape id step u op :
  let k := entry_key id ((step, u), op) in
  length k = length (opPrefix id) + 4 + length (opSuffix step (phase_of u)) ∧
  drop (length (opPrefix id) + 4) k = opSuffix step (phase_of u).
Proof.
  intros k. unfold k, entry_key. rewrite opKey_eq, !length_app, length_be. cbn [fst snd].
  split; [lia|].
  rewrite app_assoc. replace (length (opPrefix id) + 4) with (length (opPrefix id ++ be 4 (Op_Order op)))
    by (by rewrite length_app, length_be). apply drop_app_length.
Qed.

(** [findOp] finds the row of the operation, whatever its order. *)
Lemma findOp_stage active cursor id sg step u :
  stage_in active cursor id sg → free step →
  findOp active id step (phase_of u) = (λ op, entry_key id ((step, u), op)) <$> sg_ops sg !! (step, u).
Proof.
  intros Hs Hf. unfold findOp.
  assert (∀ k, k ∈ (scan active (opPrefix id)).*1 →
    ∃ su op, sg_ops sg !! su = Some op ∧ k ∈ entry_keys blobRowMax id (su, op)) as Hrows.
  { intros k Hk. apply elem_of_fst in Hk as [c Hk]. apply scan_elem in Hk as [Hc Hp].
    assert (run_key id k) as Hrun.
    { destruct Hp as [r ->]. unfold opPrefix. rewrite <-app_assoc. apply run_key_active. }
    assert (key_tag id k = Some tagOp) as Htag.
    { destruct Hp as [r ->]. unfold opPrefix. rewrite <-app_assoc. apply key_tag_active. }
    destruct (st_only _ _ _ _ _ Hs k Hrun) as [->|Hl]; [by eexists|by rewrite key_tag_active_0 in Htag|].
    apply layout_elem in Hl as [[-> _]|[[-> _]|[[-> _]|?]]]; [..|done];
      by rewrite key_tag_active_0 in Htag. }
  (* an entry of this step and phase is its row *)
  assert (∀ su op k, sg_ops sg !! su = Some op → k ∈ entry_keys blobRowMax id (su, op) →
    drop (length (opPrefix id) + 4) k = opSuffix step (phase_of u) →
    su = (step, u) ∧ k = entry_key id (su, op)) as Hkey.
  { intros [step' u'] op k Hop Hk Hd. pose proof (st_ops _ _ _ _ _ Hs _ _ Hop) as [Hf' Ho'].
    destruct (entry_key_shape id step' u' op) as [_ Hd'].
    apply entry_keys_elem in Hk as [->|[_ ->]].
    - rewrite Hd', <-(app_nil_r (opSuffix step' _)) in Hd.
      by apply opSuffix_prefix in Hd as (<- & <- & _).
    - exfalso. unfold stateKey in Hd. rewrite drop_app_le in Hd.
      + rewrite Hd' in Hd.
        apply opSuffix_prefix in Hd as (_ & _ & ?); done.
      + destruct (entry_key_shape id step' u' op) as [-> _]. lia. }
  destruct (find_op_in _ _ _) as [k|] eqn:E.
  - apply find_op_in_Some in E as (Hin & _ & Hd). destruct (Hrows k Hin) as (su & op & Hop & Hk).
    destruct (Hkey su op k Hop Hk Hd) as [-> ->]. by rewrite Hop.
  - destruct (sg_ops sg !! (step, u)) as [op|] eqn:Hop; [|done]. exfalso.
    eapply (find_op_in_None _ _ _ (entry_key id ((step, u), op)) E); [|apply entry_key_shape].
    destruct (st_row _ _ _ _ _ Hs _ _ Hop) as (v & Hv & _). apply elem_of_fst. exists (Row v).
    apply scan_elem. split; [done|]. unfold entry_key. rewrite opKey_eq. by eexists.
Qed.

(** The cells a write of an operation leaves: its row, the state beside it, and nothing
    of the row it replaces. *)
Definition op_cell (id : RunID) (e : op_entry) (old : option op_entry) (v : string)
    (blob : cell B) (before : option (cell B)) (k : key) : option (cell B) :=
  if decide (k = entry_key id e) then Some (Row v)
  else if decide (beside blobRowMax e = true ∧ k = stateKey (entry_key id e)) then Some blob
  else match old with
       | Some o =>
         if decide (k = entry_key id o) then None
         else if decide (e.1.2 = false ∧ k = stateKey (entry_key id o)) then None else before
       | None => before
       end.

Lemma row_stored e v :
  MarshalOperationRecord (row_op blobRowMax e) = Ok v →
  UnmarshalOperationRecord v = Ok (row_op blobRowMax (e.1, stored_op e.2)).
Proof.
  intros Hv. rewrite (OperationRecord_roundtrip _ _ Hv). f_equal. destruct e as [[step u] op].
  unfold row_op, beside. cbn.
  assert (blen (wire_bytes (Op_State op)) = blen (Op_State op)) as ->.
  { by destruct (Op_State op) as [[]|]. }
  by destruct (negb u && _).
Qed.
Lemma entry_key_stored id e : entry_key id (e.1, stored_op e.2) = entry_key id e.
Proof using. done. Qed.
Lemma beside_stored e : beside blobRowMax (e.1, stored_op e.2) = beside blobRowMax e.
Proof.
  destruct e as [[step u] op]. unfold beside. cbn.
  by destruct (Op_State op) as [[]|].
Qed.
Lemma state_stored e : beside blobRowMax e = true → wire_bytes (Op_State e.2) = Op_State e.2.
Proof.
  unfold beside. destruct (Op_State e.2) as [[]|]; cbn; intros [_ Hb]%andb_true_iff; zbool; lia || done.
Qed.

Lemma putOp_cells d d' id sg step u op :
  stage_in (db_active d) (db_cursor d) id sg → entry_ok ((step, u), op) →
  putOp blobRowMax d id step (phase_of u) op = Ok d' →
  let e := ((step, u), op) in
  ∃ active v blob, d' = set_active active d ∧
    UnmarshalOperationRecord v = Ok (row_op blobRowMax (e.1, stored_op e.2)) ∧
    (beside blobRowMax e = true → blobAt active (stateKey (entry_key id e)) blob = Op_State op) ∧
    ∀ k, cells active k =
      op_cell id e (pair (step, u) <$> sg_ops sg !! (step, u)) v blob (cells (db_active d) k) k.
Proof.
  intros Hs Hok Hput e. unfold putOp in Hput.
  assert (bool_decide (phase_of u = PhaseForward) = negb u) as Hu by (by destruct u).
  rewrite Hu, (findOp_stage _ _ _ _ _ _ Hs) in Hput by apply Hok. clear Hu.
  change (negb u && (blobRowMax <? blen (Op_State op))%Z) with (beside blobRowMax e) in Hput.
  apply let_Ok in Hput as (v & Hv & Hput). apply pb_Ok in Hv. apply (row_stored e) in Hv.
  apply let_Ok in Hput as (a1 & Ha1 & Hput). apply let_Ok in Hput as (a2 & Ha2 & Hput).
  apply bolt_Ok, Put_set in Ha2. change (opKey id (Op_Order op) step (phase_of u)) with (entry_key id e) in *.
  assert (∀ k, cells a2 k = if decide (k = entry_key id e) then Some (Row v) else
    match sg_ops sg !! (step, u) with
    | Some o => if decide (k = entry_key id ((step, u), o)) then None else cells (db_active d) k
    | None => cells (db_active d) k end) as Hc2.
  { intros k. rewrite (Ha2 k). destruct (decide (k = _)) as [|Hne]; [done|].
    destruct (sg_ops sg !! (step, u)) as [o|]; cbn in Ha1; [|by writes; subst].
    case_bool_decide as Ho.
    - injection Ha1 as <-. destruct (decide (k = _)) as [->|]; [by rewrite Ho in Hne|done].
    - by rewrite (Delete_set _ _ _ (bolt_Ok _ _ Ha1) k). }
  destruct u; cbn [negb] in Hput.
  - injection Hput as <-. exists a2, v, (Row ""). split_and!; [done|done|done|]. intros k.
    rewrite Hc2. unfold op_cell. cbn. destruct (decide (k = _)); [done|].
    rewrite decide_False by naive_solver. destruct (sg_ops sg !! _); [|done]. cbn.
    destruct (decide (k = _)); [done|]. by rewrite decide_False by naive_solver.
  - apply let_Ok in Hput as (a3 & Ha3 & Hput). apply let_Ok in Hput as (a4 & Ha4 & Hput).
    injection Hput as <-.
    assert (∀ k, cells a3 k = if decide (k = entry_key id e) then Some (Row v) else
      match sg_ops sg !! (step, false) with
      | Some o => if decide (k = entry_key id ((step, false), o)) then None
                  else if decide (k = stateKey (entry_key id ((step, false), o))) then None
                  else cells (db_active d) k
      | None => cells (db_active d) k end) as Hc3.
    { intros k. destruct (sg_ops sg !! (step, false)) as [o|] eqn:Eo;
        cbn [fmap option_fmap option_map] in Ha3.
      - rewrite (deleteBlob_set _ _ _ Ha3 k).
        destruct (decide (k = stateKey _)) as [->|Hne]; [|by rewrite Hc2].
        rewrite decide_False; [by case_decide|]. apply stateKey_entry; [|done].
        apply (st_ops _ _ _ _ _ Hs _ _ Eo).
      - injection Ha3 as <-. apply Hc2. }
    destruct (beside blobRowMax e) eqn:Hb.
    + assert (Op_State op = Some (default "" (Op_State op))) as Hst.
      { unfold beside in Hb. cbn in Hb. destruct (Op_State op); [done|]. cbn in Hb. zbool. lia. }
      pose proof (putBlob_holds _ _ _ _ _ Ha4) as (blob & Hblob & Hat & _).
      exists a4, v, blob. split_and!; [done|done|by rewrite Hat|]. intros k. unfold op_cell.
      rewrite Hb. destruct (decide (k = stateKey (entry_key id e))) as [->|Hne].
      * rewrite decide_False by (by apply stateKey_entry). by rewrite decide_True.
      * rewrite (putBlob_only _ _ _ _ _ Ha4) by done. rewrite Hc3. destruct (decide (k = _)); [done|].
        rewrite decide_False by naive_solver. destruct (sg_ops sg !! _) as [o|]; [|done]. cbn.
        destruct (decide (k = _)); [done|]. destruct (decide (k = _)); [by rewrite decide_True|].
        by rewrite decide_False by naive_solver.
    + injection Ha4 as <-. exists a3, v, (Row ""). split_and!; [done|done|done|]. intros k.
      rewrite Hc3. unfold op_cell. rewrite Hb. destruct (decide (k = _)); [done|].
      rewrite decide_False by naive_solver. destruct (sg_ops sg !! _) as [o|]; [|done]. cbn.
      destruct (decide (k = _)); [done|]. destruct (decide (k = _)); [by rewrite decide_True|].
      by rewrite decide_False by naive_solver.
Qed.

Lemma op_cell_other id sg e v blob before k :
  k ≠ entry_key id e → k ≠ stateKey (entry_key id e) →
  (∀ o, sg_ops sg !! e.1 = Some o → k ≠ entry_key id (e.1, o) ∧ k ≠ stateKey (entry_key id (e.1, o))) →
  op_cell id e (pair e.1 <$> sg_ops sg !! e.1) v blob before k = before.
Proof.
  intros H1k H2k Ho. unfold op_cell. rewrite decide_False by done. rewrite decide_False by naive_solver.
  destruct (sg_ops sg !! e.1) as [o|]; [|done]. cbn. destruct (Ho o) as [Ho1 Ho2]; [done|].
  rewrite decide_False by done. by rewrite decide_False by naive_solver.
Qed.
(** Keys of another operation of the run are other keys. *)
Lemma entry_key_ne id e e' :
  entry_ok e → entry_ok e' → e.1 ≠ e'.1 →
  entry_key id e ≠ entry_key id e' ∧ entry_key id e ≠ stateKey (entry_key id e') ∧
  stateKey (entry_key id e) ≠ entry_key id e' ∧
  stateKey (entry_key id e) ≠ stateKey (entry_key id e').
Proof.
  intros He He' Hne.
  assert (entry_key id e ≠ entry_key id e') as Hk by (intros E; by apply entry_key_inj in E as [? _]).
  split_and!; [done| | |].
  - intros E. symmetry in E. by apply (stateKey_entry id e' e).
  - by apply stateKey_entry.
  - intros E%stateKey_inj. done.
Qed.

Definition put_op (su : StepID * bool) (op : OperationRecord) (sg : stage) : stage :=
  sg_with (sg_cancel sg) (sg_failure sg) (<[su := stored_op op]> (sg_ops sg)) (sg_cursor sg) sg.

(** The keys a write of an operation may touch are the run's, of the operation's tag. *)
Lemma op_cell_tag id e o v blob before k :
  (∀ o', o = Some o' → o'.1 = e.1) → (¬ run_key id k ∨ key_tag id k ≠ Some tagOp) →
  op_cell id e o v blob before k = before.
Proof.
  intros Ho Hk. unfold op_cell.
  assert (∀ e', k ≠ entry_key id e' ∧ k ≠ stateKey (entry_key id e')) as Hne.
  { intros e'. split; intros ->; destruct Hk as [Hk|Hk]; apply Hk; auto using key_tag_entry, key_tag_state with bolt. }
  rewrite decide_False by apply Hne. rewrite decide_False by (intros [_ ?]; by apply (Hne e)).
  destruct o as [o'|]; [|done]. rewrite decide_False by apply Hne.
  by rewrite decide_False by (intros [_ ?]; by apply (Hne o')).
Qed.

Lemma op_cell_Some id e old v blob before k :
  is_Some (op_cell id e old v blob before k) →
  k ∈ entry_keys blobRowMax id e ∨
  is_Some before ∧ ∀ o, old = Some o →
    k ≠ entry_key id o ∧ (e.1.2 = false → k ≠ stateKey (entry_key id o)).
Proof.
  unfold op_cell. rewrite entry_keys_elem. destruct (decide (k = _)) as [|_]; [tauto|].
  destruct (decide _) as [|_]; [tauto|]. destruct old as [o|]; [|naive_solver].
  destruct (decide _) as [|Hk]; [by intros []|]. destruct (decide _) as [|Hk']; [by intros []|].
  intros Hb. right. split; [done|]. intros o' [= <-]. split; [done|]. intros He E. by apply Hk'.
Qed.
Lemma op_cell_rest active cursor id sg step u op v blob before su' op' k :
  stage_in active cursor id sg → entry_ok ((step, u), op) →
  su' ≠ (step, u) → sg_ops sg !! su' = Some op' →
  k = entry_key id (su', op') ∨ k = stateKey (entry_key id (su', op')) →
  op_cell id ((step, u), op) (pair (step, u) <$> sg_ops sg !! (step, u)) v blob before k = before.
Proof.
  intros Hs Hok Hne Hop' Hk. pose proof (st_ops _ _ _ _ _ Hs) as Hops.
  assert (∀ e, entry_ok e → e.1 = (step, u) → k ≠ entry_key id e ∧ k ≠ stateKey (entry_key id e)) as Hk'.
  { intros e He E. destruct (entry_key_ne id (su', op') e) as (? & ? & ? & ?); [by apply Hops|done|by rewrite E|].
    destruct Hk as [-> | ->]; done. }
  apply (op_cell_other id sg ((step, u), op)); [by apply Hk'|by apply Hk'|].
  intros o Ho. apply Hk'; [by apply Hops|done].
Qed.
(** No key of the run is left but those of the new stage. *)
Lemma op_cell_only active cursor id sg step u op v blob k :
  stage_in active cursor id sg → run_key id k →
  is_Some (op_cell id ((step, u), op) (pair (step, u) <$> sg_ops sg !! (step, u)) v blob
             (cells active k) k) →
  k = activeKey id tagMeta ∨ k ∈ layout id (put_op (step, u) op sg).
Proof.
  intros Hs Hk [Hin|[Hsome Hold]]%op_cell_Some; [right; apply layout_elem; do 3 right|].
  { exists (step, u), (stored_op op). split; [by apply lookup_insert_eq|].
    apply entry_keys_elem. change (beside blobRowMax ((step, u), stored_op op)) with
      (beside blobRowMax ((((step, u), op) : op_entry).1, stored_op (((step, u), op) : op_entry).2)).
    rewrite beside_stored. by apply entry_keys_elem in Hin. }
  destruct (st_only _ _ _ _ _ Hs k Hk Hsome) as [->|Hl]; [by left|right].
  apply layout_elem. apply layout_elem in Hl as [Hl|[Hl|[Hl|(su' & op' & Hop' & Hin')]]]; [auto|auto|auto|].
  do 3 right. exists su', op'. split; [|done]. cbn. rewrite lookup_insert_ne; [done|]. intros <-.
  rewrite Hop' in Hold. destruct (Hold _ eq_refl) as [Hk1 Hk2].
  apply entry_keys_elem in Hin' as [->|[Hb ->]]; [done|]. by destruct u; [|apply Hk2].
Qed.

Lemma stage_op d d' id sg step u op :
  stage_in (db_active d) (db_cursor d) id sg → entry_ok ((step, u), op) →
  putOp blobRowMax d id step (phase_of u) op = Ok d' →
  ∃ active, d' = set_active active d ∧ only_at (run_key id) (db_active d) active ∧
    stage_in active (db_cursor d) id (put_op (step, u) op sg).
Proof.
  intros Hs Hok Hput. destruct (putOp_cells _ _ _ _ _ _ _ Hs Hok Hput) as (active & v & blob & -> & Hd & Hat & Hc).
  set (e := ((step, u), op)) in *. exists active. split; [done|].
  assert (∀ o', (pair (step, u) <$> sg_ops sg !! (step, u)) = Some o' → o'.1 = e.1) as Hold.
  { intros o'. destruct (sg_ops sg !! _); [by intros [= <-]|done]. }
  split.
  { intros k Hk. rewrite Hc. apply op_cell_tag; [done|by left]. }
  pose proof Hs as [Hid Hops (w & Hw & Hmeta) Hcan Hfail Hin Hrow Hst Honly Hcur].
  assert (∀ tag, tag ≠ tagOp → cells active (activeKey id tag) = cells (db_active d) (activeKey id tag)) as Htag.
  { intros tag Ht. rewrite Hc. apply op_cell_tag; [done|right]. rewrite key_tag_active_0. congruence. }
  split.
  - done.
  - intros su' op'. cbn. rewrite lookup_insert_Some. intros [[<- <-]|[Hne Hop']]; [done|by apply Hops].
  - exists w. by rewrite Htag.
  - intros c Hc'. apply (holds_cells (db_active d)); [by apply Htag|auto].
  - intros f Hf. apply (holds_cells (db_active d)); [by apply Htag|auto].
  - intros i Hi. apply (holds_blob_cells (db_active d)); [by apply Htag|auto].
  - intros su' op'. cbn. rewrite lookup_insert_Some. intros [[<- <-]|[Hne Hop']].
    + exists v. split; [|done]. rewrite Hc. unfold op_cell. by rewrite decide_True.
    + apply (holds_cells (db_active d)); [|auto]. rewrite Hc.
      apply (op_cell_rest (db_active d) (db_cursor d) _ _ _ _ _ _ _ _ su' op'); auto.
  - intros su' op'. cbn. rewrite lookup_insert_Some. intros [[<- <-]|[Hne Hop']] Hb.
    + change (beside blobRowMax (e.1, stored_op e.2) = true) in Hb. rewrite beside_stored in Hb.
      pose proof (state_stored e Hb) as Hwire. cbn [e snd] in Hwire. cbn [stored_op Op_State].
      rewrite Hwire. change (entry_key id (step, u, stored_op op)) with (entry_key id e).
      exists blob. split_and!; [|by apply Hat|].
      * rewrite Hc. unfold op_cell. rewrite decide_False by (by apply stateKey_entry). by rewrite decide_True.
      * cbn. intros E. unfold beside in Hb. cbn in Hb. rewrite E in Hb. cbn in Hb.
        apply andb_true_iff in Hb as [_ Hb]. zbool. lia.
    + apply (holds_blob_cells (db_active d)); [|auto]. rewrite Hc.
      apply (op_cell_rest (db_active d) (db_cursor d) _ _ _ _ _ _ _ _ su' op'); auto.
  - intros k Hk. rewrite Hc. by apply (op_cell_only _ (db_cursor d)).
  - done.
Qed.
End rows.

(** ** Transactions on the rows of one run *)

Section stages.
Context {B : Type} `{BoltLaws B} `{ProtobufLaws} (blobRowMax : Z).
Context (Hmax : (0 <= blobRowMax)%Z).
Implicit Types (d : DB B) (id : RunID) (sg : stage).

(** A transaction that changes rows of the run [id] only. *)
Record run_write (id : RunID) (d d' : DB B) : Prop := {
  rw_active : only_at (run_key id) (db_active d) (db_active d');
  rw_cursor : only_at (λ k, k = bs id) (db_cursor d) (db_cursor d');
  rw_terminal : db_terminal d' = db_terminal d;
  rw_expiry : db_expiry d' = db_expiry d;
  rw_staged : db_staged d' = db_staged d;
  rw_slots : db_slots d' = db_slots d;
}.
Lemma run_write_refl id d : run_write id d d.
Proof. by split. Qed.
Lemma run_write_trans id d d' d'' : run_write id d d' → run_write id d' d'' → run_write id d d''.
Proof.
  intros [] []. split; [by eapply only_at_trans|by eapply only_at_trans|congruence..].
Qed.
(** The run [id] has the stage [sg]. *)
Definition has_stage (d : DB B) (id : RunID) (sg : stage) : Prop :=
  stage_in blobRowMax (db_active d) (db_cursor d) id sg.
Lemma run_write_frame id id' d d' sg :
  free id → id' ≠ id → run_write id d d' → has_stage d id' sg → has_stage d' id' sg.
Proof.
  intros Hf Hne Hw. apply (stage_frame _ _ _ _ _ id' id); [done|done|apply Hw|].
  apply Hw. by intros ?%bs_inj.
Qed.

Definition ow_ok (ow : OpWrite) : Prop :=
  (OpWrite_Phase ow = PhaseForward ∨ OpWrite_Phase ow = PhaseUnwind) ∧
  free (OpWrite_StepID ow) ∧ order_ok (Op_Order (OpWrite_Record ow)).
Definition ow_key (ow : OpWrite) : StepID * bool :=
  (OpWrite_StepID ow, bool_decide (OpWrite_Phase ow = PhaseUnwind)).
Definition put_ow (sg : stage) (ow : OpWrite) : stage := put_op (ow_key ow) (OpWrite_Record ow) sg.

Lemma putOp_write d d' id sg ow :
  has_stage d id sg → ow_ok ow →
  putOp blobRowMax d id (OpWrite_StepID ow) (OpWrite_Phase ow) (OpWrite_Record ow) = Ok d' →
  run_write id d d' ∧ has_stage d' id (put_ow sg ow).
Proof.
  intros Hs (Hph & Hf & Ho) Hput.
  assert (OpWrite_Phase ow = phase_of (ow_key ow).2) as Hu.
  { destruct ow as [st [] op]; cbn in *; destruct Hph; done. }
  rewrite Hu in Hput. apply (stage_op _ Hmax _ _ _ sg) in Hput as (active & -> & Hact & Hst);
    [|done|by split]. split; [by split|]. done.
Qed.
Lemma put_ops_write d d' id sg ops :
  has_stage d id sg → Forall ow_ok ops → put_ops blobRowMax d id ops = Ok d' →
  run_write id d d' ∧ has_stage d' id (foldl put_ow sg ops).
Proof.
  revert d sg; induction ops as [|ow ops IH]; intros d sg Hs Hok Hput; cbn in Hput.
  - injection Hput as <-. split; [apply run_write_refl|done].
  - apply Forall_cons in Hok as [Hok Hoks]. apply let_Ok in Hput as (d1 & Hd1 & Hput).
    apply (putOp_write d d1 id sg) in Hd1 as [Hw Hs1]; [|done|done].
    destruct (IH d1 _ Hs1 Hoks Hput) as [Hw' Hs']. split; [by eapply run_write_trans|done].
Qed.

Lemma putRootFailure_write d d' id sg f :
  has_stage d id sg → putRootFailure d id f = Ok d' →
  sg_failure sg = None ∧ run_write id d d' ∧
  has_stage d' id (sg_with (sg_cancel sg) (Some f) (sg_ops sg) (sg_cursor sg) sg).
Proof.
  intros Hs Hput. unfold putRootFailure in Hput. writes. subst.
  match goal with E : MarshalFailureRecord f = Ok _ |- _ => apply FailureRecord_roundtrip in E end.
  match goal with E : putOnce _ _ _ _ _ = Ok _ |- _ => apply putOnce_set in E as [Hnone Hset] end.
  split_and!.
  - destruct (sg_failure sg) as [f0|] eqn:E; [|done].
    destruct (st_failure _ _ _ _ _ Hs f0 E) as (w & Hw & _). by rewrite Get_cells, Hw in Hnone.
  - split; try done. apply (set_cell_only _ _ _ _ _ Hset). auto with bolt.
  - by eapply stage_failure.
Qed.
Lemma putFailure_opt d d' id sg f :
  has_stage d id sg →
  match f with Some f => putRootFailure d id f | None => Ok d end = Ok d' →
  run_write id d d' ∧ (f ≠ None → sg_failure sg = None) ∧
  has_stage d' id (sg_with (sg_cancel sg)
    (match f with Some f => Some f | None => sg_failure sg end) (sg_ops sg) (sg_cursor sg) sg).
Proof.
  intros Hs Hd. destruct f as [f|].
  - by destruct (putRootFailure_write _ _ _ _ _ Hs Hd) as (? & ? & ?).
  - injection Hd as <-. split_and!; [apply run_write_refl|done|]. by destruct sg.
Qed.
Lemma putCursor_write d d' id sg c :
  has_stage d id sg → putCursor d id c = Ok d' →
  run_write id d d' ∧
  has_stage d' id (sg_with (sg_cancel sg) (sg_failure sg) (sg_ops sg) (stored_cursor c) sg).
Proof.
  intros Hs Hput. unfold putCursor in Hput. writes. subst.
  match goal with E : MarshalCursor c = Ok _ |- _ => apply Cursor_roundtrip in E end.
  match goal with E : Put _ _ _ = Ok _ |- _ => apply Put_set in E; rename E into Hset end.
  split; [split; try done; by apply (set_cell_only _ _ _ _ _ Hset)|]. by eapply stage_cursor.
Qed.

(** The stage after a transition without an outcome. *)
Definition stage_after (t : Transition) (sg : stage) : stage :=
  foldl put_ow
    (sg_with (sg_cancel sg) (match T_Failure t with Some f => Some f | None => sg_failure sg end)
       (sg_ops sg) (stored_cursor (T_Cursor t)) sg) (T_Ops t).
Lemma step_tx_write d d' id sg t :
  has_stage d id sg → Forall ow_ok (T_Ops t) → step_tx blobRowMax d id t = Ok d' →
  run_write id d d' ∧ has_stage d' id (stage_after t sg) ∧ (T_Failure t ≠ None → sg_failure sg = None).
Proof.
  intros Hs Hok Hput. unfold step_tx in Hput. apply let_Ok in Hput as (d1 & Hd1 & Hput).
  apply let_Ok in Hput as (d2 & Hd2 & Hput).
  destruct (putFailure_opt _ _ _ _ _ Hs Hd1) as (Hw1 & Hf & Hs1).
  apply (putCursor_write _ _ _ _ _ Hs1) in Hd2 as [Hw2 Hs2].
  apply (put_ops_write _ _ _ _ _ Hs2 Hok) in Hput as [Hw3 Hs3].
  split_and!; [|done|done]. by eapply run_write_trans, run_write_trans.
Qed.
End stages.

(** ** Creating and deleting a stage *)

Section create.
Context {B : Type} `{BoltLaws B} `{ProtobufLaws} (blobRowMax : Z).
Context (Hmax : (0 <= blobRowMax)%Z).
Implicit Types (d : DB B) (id : RunID) (sg : stage).
Abbreviation has_stage := (has_stage blobRowMax).

(** The operations of a seeded record, as writes. *)
Definition step_ows (e : StepID * StepRecord) : list OpWrite :=
  filter (λ ow, Op_Status (OpWrite_Record ow) ≠ OpNone)
    [mkOpWrite e.1 PhaseForward (SR_Forward e.2); mkOpWrite e.1 PhaseUnwind (SR_Unwind e.2)].
Lemma op_put_ops d id sid phase op :
  op_put blobRowMax d id sid phase op =
    put_ops blobRowMax d id (filter (λ ow, Op_Status (OpWrite_Record ow) ≠ OpNone) [mkOpWrite sid phase op]).
Proof.
  unfold op_put. rewrite filter_cons. cbn [OpWrite_Record]. case_bool_decide as Hn.
  - by rewrite decide_False by tauto.
  - rewrite decide_True by done. cbn. by destruct (putOp _ _ _ _ _ _).
Qed.
Lemma put_ops_app d id ops ops' :
  put_ops blobRowMax d id (ops ++ ops') =
    let! d := put_ops blobRowMax d id ops in put_ops blobRowMax d id ops'.
Proof.
  revert d; induction ops as [|ow ops IH]; intros d; [done|]. cbn.
  destruct (putOp _ _ _ _ _ _); [apply IH|done].
Qed.
Lemma put_steps_ops d id l : put_steps blobRowMax d id l = put_ops blobRowMax d id (l ≫= step_ows).
Proof.
  revert d; induction l as [|[sid sr] l IH]; intros d; [done|].
  rewrite bind_cons, put_ops_app. unfold step_ows at 1. cbn [fst snd].
  change [mkOpWrite sid PhaseForward (SR_Forward sr); mkOpWrite sid PhaseUnwind (SR_Unwind sr)] with
    ([mkOpWrite sid PhaseForward (SR_Forward sr)] ++ [mkOpWrite sid PhaseUnwind (SR_Unwind sr)]).
  rewrite filter_app, put_ops_app, <-!op_put_ops. cbn [put_steps].
  destruct (op_put _ _ _ _ _ _) as [d1|]; [|done]. rewrite <-op_put_ops.
  destruct (op_put _ _ _ _ _ _) as [d2|]; [apply IH|done].
Qed.

Definition run_ows (rec : RunRecord) : list OpWrite := map_to_list (Run_Steps rec) ≫= step_ows.
Definition first_stage (rec : RunRecord) : stage :=
  mkStage (Run_PipelineID rec) (Run_ResourceID rec) (Run_CreatedAt rec) (Run_Annotations rec)
    (wire_bytes (Run_Input rec)) None None ∅ (stored_cursor (cursor_of rec)).
Definition stage_of (rec : RunRecord) : stage :=
  let sg := foldl put_ow (first_stage rec) (run_ows rec) in
  sg_with (Run_Cancel rec) (Run_Failure rec) (sg_ops sg) (sg_cursor sg) sg.

Lemma first_stage_in rec active a1 a2 cursor c2 mv cv :
  free (Run_RunID rec) →
  (∀ k, run_key (Run_RunID rec) k → cells active k = None) →
  MarshalRunMeta rec = Ok mv → set_cell active (activeKey (Run_RunID rec) tagMeta) (Some (Row mv)) a1 →
  only_at (λ k, k = activeKey (Run_RunID rec) tagInput ∧ is_Some (wire_bytes (Run_Input rec))) a1 a2 →
  (∀ v, wire_bytes (Run_Input rec) = Some v → holds_blob a2 (activeKey (Run_RunID rec) tagInput) (Some v)) →
  MarshalCursor (cursor_of rec) = Ok cv → set_cell cursor (bs (Run_RunID rec)) (Some (Row cv)) c2 →
  stage_in blobRowMax a2 c2 (Run_RunID rec) (first_stage rec).
Proof.
  set (id := Run_RunID rec). intros Hf Hempty Hmv Ha1 Ha2 Hin Hcv Hc2.
  apply Cursor_roundtrip in Hcv. split; try done.
  - exists mv. split; [|intros r; by apply RunMeta_roundtrip].
    rewrite Ha2 by (intros [E _]; revert E; tag_ne). by apply (set_cell_eq _ _ _ _ Ha1).
  - intros k Hk Hsome. destruct (decide (k = activeKey id tagMeta)) as [->|Hm]; [by left|right].
    apply layout_elem. do 2 right. left.
    destruct (decide (k = activeKey id tagInput ∧ is_Some (wire_bytes (Run_Input rec)))) as [|Hi]; [done|].
    rewrite Ha2, (set_cell_ne _ _ _ _ _ Ha1), Hempty in Hsome by done. by destruct Hsome.
  - exists cv. split; [|done]. by apply (set_cell_eq _ _ _ _ Hc2).
Qed.

Lemma put_ows_kept l sg :
  sg_cancel (foldl put_ow sg l) = sg_cancel sg ∧ sg_failure (foldl put_ow sg l) = sg_failure sg.
Proof. revert sg; induction l as [|ow l IH]; intros sg; [done|]. cbn. by rewrite !(proj1 (IH _)), !(proj2 (IH _)). Qed.
Lemma put_input_only b b' k (i : bytes) :
  match i with
  | Some v => if (0 <? blen i)%Z then putBlob blobRowMax b k v else Ok b
  | None => Ok b
  end = Ok b' →
  only_at (λ k', k' = k ∧ is_Some (wire_bytes i)) b b' ∧
  ∀ v, wire_bytes i = Some v → holds_blob b' k (Some v).
Proof.
  intros Hp. destruct i as [v|]; [|by injection Hp as <-].
  destruct (decide (v = "")) as [->|Hv]; [by injection Hp as <-|].
  assert ((0 <? blen (Some v))%Z = true ∧ wire_bytes (Some v) = Some v) as [Hl ->] by (by destruct v).
  rewrite Hl in Hp. split; [|intros v' [= <-]; by eapply putBlob_holds].
  intros k' Hk. apply (putBlob_only _ _ _ _ _ Hp). intros ->. apply Hk. split; [done|by eexists].
Qed.

Lemma putRun_write d d' rec :
  Terminal rec = false → free (Run_RunID rec) → Forall ow_ok (run_ows rec) →
  (∀ k, run_key (Run_RunID rec) k → cells (db_active d) k = None) →
  putRun blobRowMax d rec = Ok d' →
  run_write (Run_RunID rec) d d' ∧ has_stage d' (Run_RunID rec) (stage_of rec).
Proof.
  intros Hterm Hf Hok Hempty Hput. unfold putRun in Hput. rewrite Hterm in Hput.
  set (id := Run_RunID rec) in *.
  apply let_Ok in Hput as (mv & Hmv%pb_Ok & Hput). apply let_Ok in Hput as (a1 & Ha1 & Hput).
  apply putOnce_set in Ha1 as [_ Ha1]. apply let_Ok in Hput as (a2 & Ha2 & Hput).
  apply let_Ok in Hput as (d1 & Hd1 & Hput). unfold putCursor in Hd1.
  apply let_Ok in Hd1 as (cv & Hcv%pb_Ok & Hd1). apply let_Ok in Hd1 as (c2 & Hc2%bolt_Ok%Put_set & Hd1).
  injection Hd1 as <-.
  apply put_input_only in Ha2 as [Hin1 Hin2].
  set (d1 := set_cursor c2 (set_active a2 d)) in *.
  assert (has_stage d1 id (first_stage rec)) as Hs1 by (by eapply first_stage_in).
  assert (run_write id d d1) as Hw1.
  { split; try done.
    - apply (only_at_trans _ _ a1); [apply (set_cell_only _ _ _ _ _ Ha1); auto with bolt|].
      intros k Hk. apply Hin1. intros [-> _]. apply Hk. auto with bolt.
    - by apply (set_cell_only _ _ _ _ _ Hc2). }
  apply let_Ok in Hput as (d2 & Hd2 & Hput). rewrite put_steps_ops in Hd2.
  apply (put_ops_write _ Hmax _ _ _ _ _ Hs1 Hok) in Hd2 as [Hw2 Hs2].
  set (sg := foldl put_ow (first_stage rec) (run_ows rec)) in *.
  destruct (put_ows_kept (run_ows rec) (first_stage rec)) as [Hcan Hfail]. fold sg in Hcan, Hfail.
  apply let_Ok in Hput as (d3 & Hd3 & Hput).
  destruct (putFailure_opt _ _ _ _ _ _ Hs2 Hd3) as (Hw3 & _ & Hs3). rewrite Hcan, Hfail in Hs3. cbn in Hs3.
  replace (match Run_Failure rec with Some f => Some f | None => None end) with (Run_Failure rec) in Hs3
    by (by destruct (Run_Failure rec)).
  assert (run_write id d d3) as Hw by eauto using run_write_trans.
  destruct (Run_Cancel rec) as [c|] eqn:Ec.
  - writes. subst d'. match goal with E : MarshalCancel c = Ok _ |- _ => apply Cancel_roundtrip in E end.
    match goal with E : putOnce _ _ _ _ _ = Ok _ |- _ => apply putOnce_set in E as [_ Hset] end.
    split.
    + apply (run_write_trans _ _ d3); [done|]. split; try done.
      apply (set_cell_only _ _ _ _ _ Hset). auto with bolt.
    + unfold stage_of. rewrite Ec. eapply stage_cancel in Hset; [|done|exact Hs3]. exact Hset.
  - injection Hput as <-. split; [done|]. unfold stage_of. by rewrite Ec.
Qed.

Lemma deleteNonterminalStage_cells d d' id :
  deleteNonterminalStage d id = Ok d' →
  run_write id d d' ∧ (∀ k, run_key id k → cells (db_active d') k = None) ∧
  cells (db_cursor d') (bs id) = None.
Proof.
  intros Hd. unfold deleteNonterminalStage in Hd. writes. subst. cbn.
  match goal with E : deleteBlobs _ _ = Ok ?a |- _ => pose proof (λ k, deleteBlobs_cells _ _ _ k E) as Hc end.
  match goal with E : Delete _ _ = Ok _ |- _ => apply Delete_set in E; rename E into Hset end.
  assert (∀ k, k ∈ (scan (db_active d) (runPrefix id)).*1 ↔ run_key id k ∧ is_Some (cells (db_active d) k)) as Hin.
  { intros k. rewrite elem_of_fst. setoid_rewrite scan_elem. unfold run_key, is_Some. naive_solver. }
  split_and!.
  - split; try done; cbn.
    + intros k Hk. rewrite Hc, decide_False; [done|]. rewrite Hin. tauto.
    + by apply (set_cell_only _ _ _ _ _ Hset).
  - intros k Hk. rewrite Hc. destruct (decide _) as [|Hn]; [done|]. rewrite Hin in Hn.
    destruct (cells (db_active d) k) eqn:E; [|done]. exfalso. apply Hn. split; [done|by eexists].
  - by apply (set_cell_eq _ _ _ _ Hset).
Qed.
End create.
