(* ===== verification/BoltView.v ===== *)
(** * BoltView: what the database says (store/bbolt/store.go)

    The view of a database is its runs: a nonterminal run with its stage, a terminal one
    with its record.  [rep] says that the six buckets hold exactly a view: every row
    belongs to a run of it, what a terminal run left behind is staged for the drain, the
    slots are those of the nonterminal runs, and the caches are below what the file has.
    Every operation of the store is the operation on the view. *)
From S2P Require Import Prelude Kernel Driver MemStore Wire Keys BlobCache Bolt BoltStore.
From S2P Require Import BoltStage BoltRead BoltWrite.
#[local] Open Scope result_scope.

Inductive entry := Live (sg : stage) | Done (rec : RunRecord).
Abbreviation view := (gmap RunID entry).

(** ** Operations on a view *)

Definition view_GetRun (v : view) (id : RunID) : result StoreError RunRecord :=
  match v !! id with
  | Some (Live sg) => Ok (read_record id sg)
  | Some (Done rec) => Ok rec
  | None => Err ErrRunNotFound
  end.
Definition view_GetRunHead (v : view) (id : RunID) : result StoreError RunRecord :=
  match v !! id with
  | Some (Live sg) => Ok (read_record id (head_stage sg))
  | Some (Done rec) => Ok (set_Output None rec)
  | None => Err ErrRunNotFound
  end.
Definition stage_slot (sg : stage) : key := slotKeyFor (sg_pipeline sg) (sg_resource sg).
Definition entry_after (id : RunID) (t : Transition) (sg : stage) : entry :=
  match T_Outcome t with
  | Some oc => Done (stored_terminal (terminal_record (read_record id sg) t oc) false)
  | None => Live (stage_after t sg)
  end.

(** ** The database of a view *)

Section rep.
Context {B : Type} `{BoltLaws B} `{ProtobufLaws} (blobRowMax : Z).
Context (Hmax : (0 <= blobRowMax)%Z).
Implicit Types (d : DB B) (id : RunID) (sg : stage) (v : view).
Abbreviation has_stage := (has_stage blobRowMax).

(** The terminal row of a run, its output in it or beside it. *)
Definition terminal_row (terminal : B) (id : RunID) (rec : RunRecord) : Prop :=
  ∃ w rec0 beside, cells terminal (bs id) = Some (Row w) ∧
    UnmarshalTerminalInto w run_zero = Ok (rec0, beside) ∧
    rec = (if beside then set_Output (Run_Output rec) rec0 else rec0) ∧
    (beside = true → holds_blob terminal (outputKey id) (Run_Output rec)).

(** A slot is a row that names the nonterminal run holding it. *)
Definition slots_of (slots : B) (v : view) : Prop :=
  (∀ k id, Get slots k = Some id ↔ ∃ sg, v !! id = Some (Live sg) ∧ stage_slot sg = k) ∧
  (∀ k n, cells slots k ≠ Some (Nested n)).

Record rep (d : DB B) (v : view) : Prop := {
  rep_free id e : v !! id = Some e → free id;
  rep_live id sg : v !! id = Some (Live sg) → has_stage d id sg;
  rep_done id rec : v !! id = Some (Done rec) →
    terminal_row (db_terminal d) id rec ∧
    is_Some (cells (db_expiry d) (expiryKey (Run_UpdatedAt rec) id));
  rep_active k : is_Some (cells (db_active d) k) → ∃ id e, v !! id = Some e ∧ run_key id k ∧
    (∀ rec, e = Done rec → is_Some (cells (db_staged d) (bs id)));
  rep_cursor k : is_Some (cells (db_cursor d) k) → ∃ id e, v !! id = Some e ∧ k = bs id ∧
    (∀ rec, e = Done rec → is_Some (cells (db_staged d) (bs id)));
  rep_terminal k : is_Some (cells (db_terminal d) k) → ∃ id rec, v !! id = Some (Done rec) ∧
    (k = bs id ∨ k = outputKey id);
  rep_expiry k : is_Some (cells (db_expiry d) k) → ∃ id rec, v !! id = Some (Done rec) ∧
    k = expiryKey (Run_UpdatedAt rec) id;
  rep_staged k : is_Some (cells (db_staged d) k) → ∃ id rec, v !! id = Some (Done rec) ∧ k = bs id;
  rep_slots_of : slots_of (db_slots d) v;
}.
Lemma rep_slots d v : rep d v → ∀ k id,
  Get (db_slots d) k = Some id ↔ ∃ sg, v !! id = Some (Live sg) ∧ stage_slot sg = k.
Proof. intros Hr. apply Hr. Qed.

Definition blobs_truth (v : view) : gmap RunID runBlobs :=
  omap (λ e, match e with Live sg => Some (blobs_of blobRowMax sg) | Done _ => None end) v.
Definition outputs_truth (v : view) : gmap RunID runBlobs :=
  omap (λ e, match e with Live _ => None | Done rec => Some (mkBlobs None ∅ (Run_Output rec) 0) end) v.
Record rep_caches (c : caches) (v : view) : Prop := {
  rc_blobs_ok : cache_ok (ca_blobs c);
  rc_outputs_ok : cache_ok (ca_outputs c);
  rc_blobs : coherent (ca_blobs c) (blobs_truth v);
  rc_outputs : coherent (ca_outputs c) (outputs_truth v);
}.
Record represents (s : BoltStore (B:=B)) (v : view) : Prop := {
  rs_db : rep (bo_db s) v;
  rs_caches : rep_caches (bo_caches s) v;
}.

(** ** Reading *)

Lemma bs_outputKey id id' : free id → bs id ≠ outputKey id'.
Proof.
  intros Hf E. apply Hf. rewrite E. unfold outputKey. apply elem_of_app. right. by left.
Qed.
Lemma outputKey_inj id id' : outputKey id = outputKey id' → id = id'.
Proof. intros E. apply bs_inj. by apply app_inv_tail in E. Qed.

Lemma rep_not_terminal d v id :
  rep d v → free id → (∀ rec, v !! id ≠ Some (Done rec)) → cells (db_terminal d) (bs id) = None.
Proof.
  intros Hr Hf Hn. destruct (cells (db_terminal d) (bs id)) eqn:E; [exfalso|done].
  destruct (rep_terminal _ _ Hr (bs id)) as (id' & rec & Hid & [Hk|Hk]); [by eexists| |].
  - apply bs_inj in Hk as ->. by apply (Hn rec).
  - by apply (bs_outputKey id id').
Qed.
Lemma rep_no_rows d v id k :
  rep d v → free id → v !! id = None → run_key id k → cells (db_active d) k = None.
Proof.
  intros Hr Hf Hn Hk. destruct (cells (db_active d) k) eqn:E; [exfalso|done].
  destruct (rep_active _ _ Hr k) as (id' & e & Hid & Hk' & _); [by eexists|].
  rewrite (runPrefix_of_id id id' k) in Hn; [congruence|done|by eapply rep_free|done|done].
Qed.

Lemma Seek_cells (b : B) k c : cells b k = Some c → ∃ rest, Seek b k = (k, c) :: rest.
Proof.
  intros Hc. assert ((k, c) ∈ Seek b k) as Hin.
  { apply seek_in_elem; [apply Rows_sorted|]. split; [by apply Rows_cells|apply key_lt_irrefl]. }
  pose proof (seek_in_sorted k (Rows b) (Rows_sorted b)) as Hs. fold (Seek b k) in Hs.
  destruct (Seek b k) as [|[k' c'] rest] eqn:E; [by apply not_elem_of_nil in Hin|].
  apply elem_of_cons in Hin as [[= -> ->]|Hin]; [by eexists|exfalso].
  apply StronglySorted_inv in Hs as [_ Hs]. rewrite Forall_forall in Hs.
  assert (key_lt k' k = true) as Hlt by (apply Hs, elem_of_fst; by exists c).
  assert ((k', c') ∈ Seek b k) as Hin' by (rewrite E; by left).
  apply seek_in_elem in Hin' as [_ Hge]; [|apply Rows_sorted]. cbn in Hge. congruence.
Qed.
Lemma getBlob_holds (b : B) k (v : bytes) : holds_blob b k v → getBlob b k = v.
Proof.
  intros (c & Hc & Hv & _). unfold getBlob. destruct (Seek_cells b k c Hc) as [rest ->].
  by rewrite bool_decide_true.
Qed.

Lemma meta_present d id sg : has_stage d id sg → is_Some (Get (db_active d) (activeKey id tagMeta)).
Proof. intros Hs. destruct (st_meta _ _ _ _ _ Hs) as (w & Hw & _). rewrite Get_cells, Hw. by eexists. Qed.
Lemma meta_absent d v id :
  rep d v → free id → v !! id = None → scan (db_active d) (runPrefix id) = [].
Proof.
  intros Hr Hf Hn. destruct (scan (db_active d) (runPrefix id)) as [|[k c] rows] eqn:E; [done|].
  assert ((k, c) ∈ scan (db_active d) (runPrefix id)) as Hin by (rewrite E; by left).
  apply scan_elem in Hin as [Hc Hk]. by rewrite (rep_no_rows d v id k) in Hc.
Qed.

Lemma truth_agrees c v id sg :
  coherent c (blobs_truth v) → v !! id = Some (Live sg) → agrees blobRowMax c id sg.
Proof.
  intros Hco Hid rb Hrb. specialize (Hco id rb Hrb). unfold blobs_truth in Hco.
  by rewrite lookup_omap, Hid in Hco.
Qed.

(** Reads keep the caches right. *)
Lemma same_entries_coherent c c' t : same_entries c c' → coherent c t → coherent c' t.
Proof. intros [E _ _ _] Hco x rb. rewrite E. apply Hco. Qed.
Lemma fill_coherent c t id f :
  cache_ok c → coherent c t → below f (default no_blobs (t !! id)) →
  cache_ok (fill c id f) ∧ coherent (fill c id f) t.
Proof.
  intros Hok Hco Hb. split; [by apply fill_ok|]. by apply (run_op_coherent c t (Fill id f)).
Qed.

Lemma getNonterminal_view d v c id sg :
  rep d v → v !! id = Some (Live sg) → cache_ok c → coherent c (blobs_truth v) →
  ∃ c', getNonterminal d c id = (c', Ok (read_record id sg)) ∧
    cache_ok c' ∧ coherent c' (blobs_truth v).
Proof.
  intros Hr Hid Hok Hco.
  destruct (getNonterminal_stage blobRowMax Hmax _ _ id sg (rep_live _ _ Hr _ _ Hid) d c)
    as (c' & f & -> & Hsame & Hf); [done|done|done|by apply (truth_agrees c v)|].
  pose proof (se_ok _ _ Hsame Hok) as Hok'. pose proof (same_entries_coherent _ _ _ Hsame Hco) as Hco'.
  eexists. split; [done|]. destruct f as [f|]; [|done]. apply fill_coherent; [done|done|].
  unfold blobs_truth. by rewrite lookup_omap, Hid.
Qed.
Lemma getNonterminal_absent d v c id :
  rep d v → free id → v !! id = None → cache_ok c → coherent c (blobs_truth v) →
  ∃ c', getNonterminal d c id = (c', Err ErrRunNotFound) ∧ cache_ok c' ∧ coherent c' (blobs_truth v).
Proof.
  intros Hr Hf Hn Hok Hco. unfold getNonterminal. pose proof (input_state c id) as Hi.
  pose proof (lookup_blobs_same c id) as Hsame. rewrite <-Hi in Hsame.
  destruct (input c id) as [c0 [cin cached]]. rewrite (meta_absent d v id) by done.
  exists c0. split; [done|]. split; [by apply Hsame|by apply (same_entries_coherent c)].
Qed.

Lemma output_agrees c v id rec :
  coherent c (outputs_truth v) → v !! id = Some (Done rec) →
  (output c id).2 = None ∨ (output c id).2 = Run_Output rec.
Proof.
  intros Hco Hid. destruct (coherent_reads c _ id Hco) as (_ & _ & Ho). unfold outputs_truth in Ho.
  by rewrite lookup_omap, Hid in Ho.
Qed.

Lemma getRun_view d v c id :
  rep d v → rep_caches c v → free id →
  ∃ c', getRun d c id = (c', view_GetRun v id) ∧ rep_caches c' v.
Proof.
  intros Hr [Hb Ho Hbc Hoc] Hf. unfold getRun, view_GetRun. rewrite Get_cells.
  destruct (v !! id) as [[sg|rec]|] eqn:Hid.
  - rewrite (rep_not_terminal d v) by (done || congruence).
    destruct (getNonterminal_view d v (ca_blobs c) id sg) as (c' & -> & ? & ?); [done..|].
    eexists. by split.
  - destruct (rep_done _ _ Hr _ _ Hid) as [(w & rec0 & beside & -> & -> & Hrec & Hbl) _].
    destruct beside; [|by exists c; rewrite Hrec].
    pose proof (output_agrees _ _ _ _ Hoc Hid) as Hout.
    pose proof (output_state (ca_outputs c) id) as Hos.
    pose proof (lookup_blobs_same (ca_outputs c) id) as Hsame. rewrite <-Hos in Hsame.
    destruct (output (ca_outputs c) id) as [c' out]. cbn [snd fst] in *.
    pose proof (se_ok _ _ Hsame Ho) as Hok'. pose proof (same_entries_coherent _ _ _ Hsame Hoc) as Hco'.
    destruct out as [out|].
    + destruct Hout as [|Hout]; [done|]. eexists. split; [by rewrite Hout, <-Hrec|]. by split.
    + rewrite (getBlob_holds _ _ _ (Hbl eq_refl)), <-Hrec. eexists. split; [done|].
      destruct (fill_coherent c' (outputs_truth v) id (mkBlobs None ∅ (Run_Output rec) 0)); [done|done| |by split].
      unfold outputs_truth. rewrite lookup_omap, Hid. cbn. split_and!; [by left|done|by right].
  - rewrite (rep_not_terminal d v) by (done || congruence).
    destruct (getNonterminal_absent d v (ca_blobs c) id) as (c' & -> & ? & ?); [done..|].
    eexists. by split.
Qed.

Lemma getHead_view d v id : rep d v → free id → getHead d id = view_GetRunHead v id.
Proof.
  intros Hr Hf. unfold view_GetRunHead. destruct (v !! id) as [[sg|rec]|] eqn:Hid.
  - apply (getHead_stage blobRowMax _ _ id sg (rep_live _ _ Hr _ _ Hid)); [done|done|].
    by rewrite Get_cells, (rep_not_terminal d v) by (done || congruence).
  - unfold getHead. rewrite Get_cells.
    destruct (rep_done _ _ Hr _ _ Hid) as [(w & rec0 & beside & -> & -> & Hrec & Hbl) _].
    cbn. f_equal. rewrite Hrec. by destruct beside.
  - unfold getHead. rewrite Get_cells, (rep_not_terminal d v) by (done || congruence).
    by rewrite (meta_absent d v id).
Qed.

(** ** Writing *)

(** A run gets a stage: a new run, or the next stage of one. *)
Lemma rep_insert_live d d' v id sg :
  rep d v → free id → (∀ rec, v !! id ≠ Some (Done rec)) →
  only_at (run_key id) (db_active d) (db_active d') →
  only_at (λ k, k = bs id) (db_cursor d) (db_cursor d') →
  db_terminal d' = db_terminal d → db_expiry d' = db_expiry d → db_staged d' = db_staged d →
  has_stage d' id sg → slots_of (db_slots d') (<[id := Live sg]> v) →
  rep d' (<[id := Live sg]> v).
Proof.
  intros Hr Hf Hnd Ha Hc Ht He Hst Hs Hsl.
  assert (∀ id' rec, v !! id' = Some (Done rec) → <[id := Live sg]> v !! id' = Some (Done rec)) as Hdone.
  { intros id' rec Hid. rewrite lookup_insert_ne; [done|]. intros <-. by apply (Hnd rec). }
  split; rewrite ?Ht, ?He, ?Hst.
  - intros id' e [[<- <-]|[_ ?]]%lookup_insert_Some; [done|]. by eapply rep_free.
  - intros id' sg' [[<- [= <-]]|[Hne Hid]]%lookup_insert_Some; [done|].
    apply (stage_frame _ (db_active d) _ (db_cursor d) _ id' id); [done|by symmetry|done|
      by apply Hc; intros ?%bs_inj|by apply (rep_live _ _ Hr)].
  - intros id' rec [[<- [=]]|[Hne Hid]]%lookup_insert_Some. by apply (rep_done _ _ Hr).
  - intros k Hk. destruct (decide (run_key id k)) as [Hrk|Hrk].
    { exists id, (Live sg). by rewrite lookup_insert_eq. }
    rewrite Ha in Hk by done. destruct (rep_active _ _ Hr k Hk) as (id' & e & Hid & Hk' & He').
    exists id', e. rewrite lookup_insert_ne; [done|]. by intros ->.
  - intros k Hk. destruct (decide (k = bs id)) as [->|Hne].
    { exists id, (Live sg). by rewrite lookup_insert_eq. }
    rewrite Hc in Hk by done. destruct (rep_cursor _ _ Hr k Hk) as (id' & e & Hid & -> & He').
    exists id', e. rewrite lookup_insert_ne; [done|]. by intros ->.
  - intros k Hk. destruct (rep_terminal _ _ Hr k Hk) as (id' & rec & Hid & ?). eauto.
  - intros k Hk. destruct (rep_expiry _ _ Hr k Hk) as (id' & rec & Hid & ?). eauto.
  - intros k Hk. destruct (rep_staged _ _ Hr k Hk) as (id' & rec & Hid & ?). eauto.
  - done.
Qed.
Lemma rep_run_write d d' v id sg sg' :
  rep d v → v !! id = Some (Live sg) → run_write id d d' → has_stage d' id sg' →
  stage_slot sg' = stage_slot sg → rep d' (<[id := Live sg']> v).
Proof.
  intros Hr Hid [Ha Hc Ht He Hst Hsl] Hs Heq.
  apply (rep_insert_live d); try done; [by eapply rep_free|congruence|]. rewrite Hsl.
  split; [|apply Hr]. intros k id'. rewrite (rep_slots _ _ Hr). split.
  - intros (sg0 & Hid0 & <-). destruct (decide (id' = id)) as [->|Hne].
    + exists sg'. rewrite lookup_insert_eq. split; [done|]. congruence.
    + exists sg0. by rewrite lookup_insert_ne.
  - intros (sg0 & [[<- [= <-]]|[Hne Hid0]]%lookup_insert_Some & <-); [by exists sg|by exists sg0].
Qed.

(** The drain removes what a terminal run left behind. *)
Lemma rep_unstage d d1 staged v id rec :
  rep d v → v !! id = Some (Done rec) → deleteNonterminalStage d id = Ok d1 →
  set_cell (db_staged d1) (bs id) None staged → rep (set_staged staged d1) v.
Proof.
  intros Hr Hid Hd Hst. apply deleteNonterminalStage_cells in Hd as ([Ha Hc Ht He Hs Hsl] & Hna & Hnc).
  rewrite Hs in Hst.
  assert (∀ id', id' ≠ id → cells staged (bs id') = cells (db_staged d) (bs id')) as Hst'.
  { intros id' Hne. apply (set_cell_ne _ _ _ _ _ Hst). by intros ?%bs_inj. }
  split; cbn; rewrite ?Ht, ?He, ?Hsl; try apply Hr.
  - intros id' sg Hid'. assert (id' ≠ id) as Hne by congruence.
    apply (stage_frame _ (db_active d) _ (db_cursor d) _ id' id);
      [by eapply rep_free|done|done|by apply Hc; intros ?%bs_inj|by apply (rep_live _ _ Hr)].
  - intros k Hk. destruct (decide (run_key id k)) as [Hrk|Hrk]; [rewrite Hna in Hk by done; by destruct Hk|].
    rewrite Ha in Hk by done. destruct (rep_active _ _ Hr k Hk) as (id' & e & Hid' & Hk' & He').
    exists id', e. split_and!; [done|done|]. intros r Hr'. rewrite Hst'; [by eapply He'|by intros ->].
  - intros k Hk. destruct (decide (k = bs id)) as [->|Hne]; [rewrite Hnc in Hk; by destruct Hk|].
    rewrite Hc in Hk by done. destruct (rep_cursor _ _ Hr k Hk) as (id' & e & Hid' & -> & He').
    exists id', e. split_and!; [done|done|]. intros r Hr'. rewrite Hst'; [by eapply He'|by intros ->].
  - intros k Hk. destruct (decide (k = bs id)) as [->|Hne].
    { rewrite (set_cell_eq _ _ _ _ Hst) in Hk. by destruct Hk. }
    rewrite (set_cell_ne _ _ _ _ _ Hst) in Hk by done. by apply (rep_staged _ _ Hr).
Qed.
Lemma rep_drain_ids d d' v ids :
  rep d v → (∀ k, k ∈ ids → ∃ id rec, v !! id = Some (Done rec) ∧ k = bs id) →
  drain_ids d ids = Ok d' → rep d' v.
Proof.
  revert d; induction ids as [|k ids IH]; intros d Hr Hids Hd; cbn in Hd; [by injection Hd as <-|].
  apply let_Ok in Hd as (d1 & Hd1 & Hd). apply let_Ok in Hd as (st & Hst%bolt_Ok%Delete_set & Hd).
  destruct (Hids k) as (id & rec & Hid & ->); [by left|]. rewrite of_bs_bs in Hd1.
  apply (IH (set_staged st d1)); [|intros k Hk; apply Hids; by right|done].
  by eapply rep_unstage.
Qed.
Lemma rep_drainStaged d d' v n m : rep d v → drainStaged d n = Ok (d', m) → rep d' v.
Proof.
  intros Hr Hd. unfold drainStaged in Hd. apply let_Ok in Hd as (d1 & Hd1 & Hd). injection Hd as <- <-.
  apply (rep_drain_ids d _ _ _ Hr) in Hd1; [done|]. intros k Hk.
  assert (k ∈ (Rows (db_staged d)).*1) as Hk' by (by rewrite <-(take_drop n); apply elem_of_app; left).
  apply elem_of_fst in Hk' as [c Hc%Rows_cells]. apply (rep_staged _ _ Hr). by eexists.
Qed.

(** ** The terminality commit *)

Lemma terminal_row_frame terminal terminal' id rec :
  cells terminal' (bs id) = cells terminal (bs id) →
  cells terminal' (outputKey id) = cells terminal (outputKey id) →
  terminal_row terminal id rec → terminal_row terminal' id rec.
Proof.
  intros E1 E2 (w & rec0 & beside & Hw & Hd & Hrec & Hb). exists w, rec0, beside.
  rewrite E1. split_and!; [done..|]. intros Hbs. by apply (holds_blob_cells terminal), Hb.
Qed.

(** The terminal rows of a run and its key of the expiry index are written, and no others. *)
Lemma putTerminal_write d d' rec :
  putTerminal blobRowMax d rec = Ok d' →
  let id := Run_RunID rec in
  free id →
  (terminal_row (db_terminal d') id (stored_terminal rec false) ∧
   only_at (λ k, k = bs id ∨ k = outputKey id) (db_terminal d) (db_terminal d')) ∧
  set_cell (db_expiry d) (expiryKey (Run_UpdatedAt rec) id) (Some (Row "")) (db_expiry d') ∧
  db_active d' = db_active d ∧ db_cursor d' = db_cursor d ∧ db_staged d' = db_staged d ∧
  db_slots d' = db_slots d.
Proof.
  intros Hput id Hf. unfold putTerminal in Hput.
  set (beside := (blobRowMax <? blen (Run_Output rec))%Z) in *.
  apply let_Ok in Hput as (w & Hw%pb_Ok%Terminal_roundtrip & Hput).
  apply let_Ok in Hput as (t1 & Ht1%bolt_Ok%Put_set & Hput).
  apply let_Ok in Hput as (t2 & Ht2 & Hput). apply let_Ok in Hput as (e & He%bolt_Ok%Put_set & Hput).
  injection Hput as <-. cbn. split; [|done].
  assert (bs id ≠ outputKey id) as Hne by by apply bs_outputKey.
  destruct beside eqn:Hb.
  - assert (Run_Output rec = Some (default "" (Run_Output rec)) ∧
      wire_bytes (Run_Output rec) = Run_Output rec) as [Ho Hwire].
    { unfold beside in Hb. zbool. destruct (Run_Output rec) as [[]|]; cbn in Hb |- *; done || lia. }
    pose proof (putBlob_only _ _ _ _ _ Ht2) as Honly.
    pose proof (putBlob_holds _ _ _ _ _ Ht2) as Hblob. rewrite <-Ho in Hblob. split.
    + exists w, (stored_terminal rec true), true. split_and!.
      * rewrite Honly by done. by apply (set_cell_eq _ _ _ _ Ht1).
      * done.
      * unfold stored_terminal. by rewrite Hwire.
      * intros _. cbn. by rewrite Hwire.
    + intros k Hk. rewrite Honly by tauto. apply (set_cell_ne _ _ _ _ _ Ht1). tauto.
  - injection Ht2 as <-. split.
    + exists w, (stored_terminal rec false), false. split_and!; [|done|done|done].
      by apply (set_cell_eq _ _ _ _ Ht1).
    + intros k Hk. apply (set_cell_ne _ _ _ _ _ Ht1). tauto.
Qed.

Lemma slots_release d v id sg slots rec :
  rep d v → v !! id = Some (Live sg) →
  set_cell (db_slots d) (stage_slot sg) None slots → slots_of slots (<[id := Done rec]> v).
Proof.
  intros Hr Hid Hset. split; [intros k id'; rewrite Get_cells|].
  2:{ intros k n. rewrite (Hset k). destruct (decide _); [done|apply Hr]. }
  assert (Get (db_slots d) (stage_slot sg) = Some id) as Hown by (apply (rep_slots _ _ Hr); by exists sg).
  destruct (decide (k = stage_slot sg)) as [->|Hne].
  - rewrite (set_cell_eq _ _ _ _ Hset). split; [done|].
    intros (sg' & [[_ [=]]|[Hne Hid']]%lookup_insert_Some & Hk). exfalso. apply Hne.
    assert (Get (db_slots d) (stage_slot sg) = Some id') by (apply (rep_slots _ _ Hr); by exists sg').
    congruence.
  - rewrite (set_cell_ne _ _ _ _ _ Hset), <-Get_cells, (rep_slots _ _ Hr) by done. split.
    + intros (sg' & Hid' & <-). exists sg'. split; [|done]. rewrite lookup_insert_ne; [done|]. intros <-.
      congruence.
    + intros (sg' & [[_ [=]]|[_ Hid']]%lookup_insert_Some & Hk). by exists sg'.
Qed.

Lemma rep_terminal_tx d d' v id sg rec :
  rep d v → v !! id = Some (Live sg) → Run_RunID rec = id → slotKey rec = stage_slot sg →
  terminal_tx blobRowMax d id rec = Ok d' →
  rep d' (<[id := Done (stored_terminal rec false)]> v).
Proof.
  intros Hr Hid Hrid Hslot Hput. pose proof (rep_free _ _ Hr _ _ Hid) as Hf.
  unfold terminal_tx in Hput. apply let_Ok in Hput as (d1 & Hd1 & Hput).
  apply putTerminal_write in Hd1; [|by rewrite Hrid]. rewrite Hrid in Hd1.
  destruct Hd1 as ((Hrow & Htonly) & He & Ha & Hc & Hs & Hsl).
  apply let_Ok in Hput as (st & Hst%bolt_Ok%Put_set & Hput). rewrite Hs in Hst. cbn in Hput.
  rewrite Hsl, Hslot in Hput.
  assert (Get (db_slots d) (stage_slot sg) = Some id) as Hown by (apply (rep_slots _ _ Hr); by exists sg).
  rewrite Hown, bool_decide_true in Hput by done.
  apply let_Ok in Hput as (sl & Hdsl%bolt_Ok%Delete_set & Hput). injection Hput as <-.
  assert (∀ k, is_Some (cells (db_staged d) k) → is_Some (cells st k)) as Hst'.
  { intros k Hk. rewrite (Hst k). by destruct (decide _). }
  assert (is_Some (cells (db_expiry d1) (expiryKey (Run_UpdatedAt (stored_terminal rec false)) id))) as Hexp0.
  { rewrite (set_cell_eq _ _ _ _ He : cells _ (expiryKey (Run_UpdatedAt (stored_terminal rec false)) id) = _).
    by eexists. }
  assert (is_Some (cells st (bs id))) as Hstid by (rewrite (set_cell_eq _ _ _ _ Hst); by eexists).

  split; cbn; rewrite ?Ha, ?Hc.
  - intros id' e [[<- <-]|[_ ?]]%lookup_insert_Some; [done|]. by eapply rep_free.
  - intros id' sg' [[_ [=]]|[Hne Hid']]%lookup_insert_Some.
    apply (stage_cells _ (db_active d) _ (db_cursor d)); [by cbn; rewrite Ha|by cbn; rewrite Hc|by apply (rep_live _ _ Hr)].
  - intros id' r [[<- [= <-]]|[Hne Hid']]%lookup_insert_Some.
    + split; [done|exact Hexp0].
    + destruct (rep_done _ _ Hr _ _ Hid') as [Hrow' Hexp]. split.
      * apply (terminal_row_frame (db_terminal d)); [..|done]; apply Htonly.
        -- intros [?%bs_inj|Hk]; [done|]. by eapply bs_outputKey; [eapply rep_free|].
        -- intros [Hk|?%outputKey_inj]; [|done]. symmetry in Hk. by eapply bs_outputKey; [|done].
      * rewrite (He _). by destruct (decide _).
  - intros k Hk. destruct (rep_active _ _ Hr k Hk) as (id' & e & Hid' & Hk' & He').
    destruct (decide (id' = id)) as [->|Hne].
    + exists id, (Done (stored_terminal rec false)). by rewrite lookup_insert_eq.
    + exists id', e. rewrite lookup_insert_ne by done. split_and!; [done|done|]. intros r Hr'. eapply Hst', He', Hr'.
  - intros k Hk. destruct (rep_cursor _ _ Hr k Hk) as (id' & e & Hid' & -> & He').
    destruct (decide (id' = id)) as [->|Hne].
    + exists id, (Done (stored_terminal rec false)). by rewrite lookup_insert_eq.
    + exists id', e. rewrite lookup_insert_ne by done. split_and!; [done|done|]. intros r Hr'. eapply Hst', He', Hr'.
  - intros k Hk. destruct (decide (k = bs id ∨ k = outputKey id)) as [Hk'|Hk'].
    + exists id, (stored_terminal rec false). by rewrite lookup_insert_eq.
    + rewrite Htonly in Hk by done. destruct (rep_terminal _ _ Hr k Hk) as (id' & r & Hid' & ?).
      exists id', r. rewrite lookup_insert_ne; [done|]. intros <-. congruence.
  - intros k Hk. destruct (decide (k = expiryKey (Run_UpdatedAt rec) id)) as [->|Hne].
    + exists id, (stored_terminal rec false). by rewrite lookup_insert_eq.
    + rewrite (set_cell_ne _ _ _ _ _ He) in Hk by done.
      destruct (rep_expiry _ _ Hr k Hk) as (id' & r & Hid' & ?).
      exists id', r. rewrite lookup_insert_ne; [done|]. intros <-. congruence.
  - intros k Hk. destruct (decide (k = bs id)) as [->|Hne].
    + exists id, (stored_terminal rec false). by rewrite lookup_insert_eq.
    + rewrite (set_cell_ne _ _ _ _ _ Hst) in Hk by done.
      destruct (rep_staged _ _ Hr k Hk) as (id' & r & Hid' & ?).
      exists id', r. rewrite lookup_insert_ne; [done|]. intros <-. congruence.
  - by eapply slots_release.
Qed.

(** ** Reaping a terminal run *)

Lemma expiryKey_run t t' id id' : expiryKey t id = expiryKey t' id' → id = id'.
Proof.
  unfold expiryKey, expiryPrefix. intros [_ E]%app_inj_1; [by apply bs_inj|by rewrite !length_be].
Qed.

Lemma rep_delete d d1 d' v id rec terminal t2 expiry staged :
  rep d v → v !! id = Some (Done rec) → deleteNonterminalStage d id = Ok d1 →
  set_cell (db_terminal d1) (bs id) None terminal → set_cell terminal (outputKey id) None t2 →
  set_cell (db_expiry d1) (expiryKey (Run_UpdatedAt rec) id) None expiry →
  set_cell (db_staged d1) (bs id) None staged →
  d' = set_staged staged (set_expiry expiry (set_terminal t2 d1)) → rep d' (delete id v).
Proof.
  intros Hr Hid Hd Ht1 Ht2 Hexp Hst ->. pose proof (rep_free _ _ Hr _ _ Hid) as Hf.
  apply deleteNonterminalStage_cells in Hd as ([Ha Hc Ht He Hs Hsl] & Hna & Hnc).
  rewrite Hs in Hst. rewrite He in Hexp. rewrite Ht in Ht1.
  assert (∀ k, k ≠ bs id → k ≠ outputKey id → cells t2 k = cells (db_terminal d) k) as Htk.
  { intros k Hk1 Hk2. by rewrite (set_cell_ne _ _ _ _ _ Ht2), (set_cell_ne _ _ _ _ _ Ht1). }
  assert (∀ id', id' ≠ id → free id' → bs id' ≠ bs id ∧ bs id' ≠ outputKey id ∧
    outputKey id' ≠ bs id ∧ outputKey id' ≠ outputKey id) as Hkeys.
  { intros id' Hne Hf'. split_and!.
    - by intros ?%bs_inj.
    - by apply bs_outputKey.
    - intros E. symmetry in E. by apply (bs_outputKey id id').
    - by intros ?%outputKey_inj. }
  assert (∀ k, is_Some (cells (db_staged d) k) → k ≠ bs id → is_Some (cells staged k)) as Hstk.
  { intros k Hk Hne. by rewrite (set_cell_ne _ _ _ _ _ Hst). }
  split; cbn.
  - intros id' e [Hne ?]%lookup_delete_Some. by eapply rep_free.
  - intros id' sg [Hne Hid']%lookup_delete_Some.
    apply (stage_frame _ (db_active d) _ (db_cursor d) _ id' id);
      [done|congruence|done|apply Hc; by intros ?%bs_inj|by apply (rep_live _ _ Hr)].
  - intros id' rec' [Hne Hid']%lookup_delete_Some. destruct (rep_done _ _ Hr _ _ Hid') as [Hrow Hexp'].
    destruct (Hkeys id') as (K1 & K2 & K3 & K4); [done|by eapply rep_free|]. split.
    + apply (terminal_row_frame (db_terminal d)); [by apply Htk|by apply Htk|done].
    + change (is_Some (cells expiry (expiryKey (Run_UpdatedAt rec') id'))).
      rewrite (set_cell_ne _ _ _ _ _ Hexp); [done|]. by intros ?%expiryKey_run.
  - intros k Hk. destruct (decide (run_key id k)) as [Hrk|Hrk]; [rewrite Hna in Hk by done; by destruct Hk|].
    rewrite Ha in Hk by done. destruct (rep_active _ _ Hr k Hk) as (id' & e & Hid' & Hk' & He').
    assert (id' ≠ id) as Hne by (by intros ->). exists id', e. rewrite lookup_delete_ne by done.
    split_and!; [done|done|]. intros r Hr'. apply Hstk; [by eapply He'|by intros ?%bs_inj].
  - intros k Hk. destruct (decide (k = bs id)) as [->|Hne]; [rewrite Hnc in Hk; by destruct Hk|].
    rewrite Hc in Hk by done. destruct (rep_cursor _ _ Hr k Hk) as (id' & e & Hid' & -> & He').
    exists id', e. rewrite lookup_delete_ne by (by intros ->).
    split_and!; [done|done|]. intros r Hr'. apply Hstk; [by eapply He'|done].
  - intros k Hk. destruct (decide (k = bs id)) as [->|Hk1].
    { rewrite (set_cell_ne _ _ _ _ _ Ht2), (set_cell_eq _ _ _ _ Ht1) in Hk by by apply bs_outputKey. by destruct Hk. }
    destruct (decide (k = outputKey id)) as [->|Hk2].
    { rewrite (set_cell_eq _ _ _ _ Ht2) in Hk. by destruct Hk. }
    rewrite Htk in Hk by done. destruct (rep_terminal _ _ Hr k Hk) as (id' & r & Hid' & Hk').
    exists id', r. rewrite lookup_delete_ne; [done|]. intros <-. by destruct Hk'.
  - intros k Hk. destruct (decide (k = expiryKey (Run_UpdatedAt rec) id)) as [->|Hne].
    { rewrite (set_cell_eq _ _ _ _ Hexp) in Hk. by destruct Hk. }
    rewrite (set_cell_ne _ _ _ _ _ Hexp) in Hk by done.
    destruct (rep_expiry _ _ Hr k Hk) as (id' & r & Hid' & ->). exists id', r.
    rewrite lookup_delete_ne; [done|]. intros <-. congruence.
  - intros k Hk. destruct (decide (k = bs id)) as [->|Hne].
    { rewrite (set_cell_eq _ _ _ _ Hst) in Hk. by destruct Hk. }
    rewrite (set_cell_ne _ _ _ _ _ Hst) in Hk by done.
    destruct (rep_staged _ _ Hr k Hk) as (id' & r & Hid' & ->). exists id', r.
    rewrite lookup_delete_ne; [done|]. by intros <-.
  - rewrite Hsl. split; [|apply Hr]. intros k id'. rewrite (rep_slots _ _ Hr). split.
    + intros (sg & Hid' & <-). exists sg. rewrite lookup_delete_ne; [done|congruence].
    + intros (sg & [_ Hid']%lookup_delete_Some & <-). by exists sg.
Qed.
End rep.
