(* ===== verification/BoltOps.v ===== *)
(** * BoltOps: every operation of the store is an operation on its view
    (store/bbolt/store.go)

    A transition, a creation, a cancel request, a reap and a drain take a store that
    represents a view to one that represents the next view, and an error leaves the
    view as it was.  The histories of the store and what its reads answer over them are in
    BoltRefine. *)
From S2P Require Import Prelude Kernel Driver MemStore Wire Keys BlobCache Bolt BoltStore.
From S2P Require Import BoltStage BoltRead BoltWrite BoltView.
#[local] Open Scope result_scope.

(** ** The caches and the view *)

Section caches.
Context (blobRowMax : Z) (Hmax : (0 <= blobRowMax)%Z).
Implicit Types (v : view) (c : blobCache) (t : gmap RunID runBlobs).
Abbreviation blobs_truth := (blobs_truth blobRowMax).
Abbreviation blobs_of := (blobs_of blobRowMax).

Lemma blobs_truth_live v id sg : blobs_truth (<[id := Live sg]> v) = <[id := blobs_of sg]> (blobs_truth v).
Proof. by apply omap_insert_Some. Qed.
Lemma blobs_truth_done v id rec : blobs_truth (<[id := Done rec]> v) = delete id (blobs_truth v).
Proof. by apply omap_insert_None. Qed.
Lemma outputs_truth_live v id sg : outputs_truth (<[id := Live sg]> v) = delete id (outputs_truth v).
Proof. by apply omap_insert_None. Qed.
Lemma outputs_truth_done v id rec :
  outputs_truth (<[id := Done rec]> v) = <[id := mkBlobs None ∅ (Run_Output rec) 0]> (outputs_truth v).
Proof. by apply omap_insert_Some. Qed.
Lemma blobs_truth_id v id sg : v !! id = Some (Live sg) → blobs_truth v !! id = Some (blobs_of sg).
Proof. intros Hid. unfold BoltView.blobs_truth. by rewrite lookup_omap, Hid. Qed.
Lemma outputs_truth_none v id : (∀ rec, v !! id ≠ Some (Done rec)) → outputs_truth v !! id = None.
Proof.
  intros Hid. unfold outputs_truth. rewrite lookup_omap. destruct (v !! id) as [[|rec]|] eqn:E; try done.
  by destruct (Hid rec).
Qed.

(** Removing entries, and giving a truth to a run without one, keep coherence. *)
Lemma coherent_remove c t id : coherent c t → coherent (remove c id) t.
Proof.
  intros Hco x rb Hx. apply Hco. unfold remove in Hx. destruct (bc_byID c !! id); [|done].
  cbn in Hx. by apply lookup_delete_Some in Hx as [_ ?].
Qed.
Lemma coherent_grow c t id b : t !! id = None → coherent c t → coherent c (<[id := b]> t).
Proof.
  intros Hn Hco x rb Hx. specialize (Hco x rb Hx). destruct (decide (x = id)) as [->|Hne].
  - rewrite Hn in Hco. rewrite lookup_insert_eq. destruct Hco as (H1 & H2 & H3). cbn in *.
    split_and!; [left; by destruct H1| |left; by destruct H3].
    etrans; [exact H2|]. apply map_empty_subseteq.
  - by rewrite lookup_insert_ne.
Qed.
Lemma coherent_delete_none c t id : t !! id = None → coherent c t → coherent c (delete id t).
Proof. intros Hn. by rewrite delete_id. Qed.

(** The states beside the rows after a write of an operation. *)
Lemma blob_states_forward ops step op :
  blob_states blobRowMax (<[(step, false) := stored_op op]> ops) =
    (if (blobRowMax <? blen (Op_State op))%Z
     then <[step := Op_State op]> (delete step (blob_states blobRowMax ops))
     else delete step (blob_states blobRowMax ops)).
Proof.
  assert (blen (Op_State (stored_op op)) = blen (Op_State op)) as Hlen.
  { unfold stored_op. cbn [Op_State]. by destruct (Op_State op) as [[]|]. }
  apply map_eq. intros s. apply option_eq. intros b. rewrite blob_states_lookup by done.
  destruct (blobRowMax <? blen (Op_State op))%Z eqn:Eb.
  - assert (Op_State (stored_op op) = Op_State op) as Hst.
    { cbn. destruct (Op_State op) as [[]|]; [|done|done]. cbn in Eb. zbool. lia. }
    rewrite lookup_insert_Some, lookup_delete_Some, blob_states_lookup by done.
    setoid_rewrite lookup_insert_Some. split.
    + intros (op' & [[[= <-] <-]|[Hne Hop]] & Hl & ->); [left; by rewrite Hst|right].
      split; [congruence|]. split; [congruence|]. by exists op'.
    + intros [[<- <-]|(Hne & _ & op' & Hop & Hl & ->)].
      * exists (stored_op op). rewrite Hlen, Eb, Hst. split_and!; [by left|done|done].
      * exists op'. split_and!; [right; split; [congruence|done]|done|done].
  - rewrite lookup_delete_Some, blob_states_lookup by done. setoid_rewrite lookup_insert_Some. split.
    + intros (op' & [[[= <-] <-]|[Hne Hop]] & Hl & ->); [rewrite Hlen in Hl; congruence|].
      split; [congruence|]. by exists op'.
    + intros (Hne & op' & Hop & Hl & ->). exists op'. split_and!; [right; split; [congruence|done]|done|done].
Qed.
Lemma blob_states_unwind ops step op :
  blob_states blobRowMax (<[(step, true) := op]> ops) = blob_states blobRowMax ops.
Proof.
  apply map_eq. intros s. apply option_eq. intros b. rewrite !blob_states_lookup by done.
  setoid_rewrite lookup_insert_ne; [done|congruence].
Qed.

Lemma put_ow_coherent c t id sg ow :
  (OpWrite_Phase ow = PhaseForward ∨ OpWrite_Phase ow = PhaseUnwind) →
  cache_ok c → coherent c (<[id := blobs_of sg]> t) →
  cache_ok (cache_op_write blobRowMax id c ow) ∧
  coherent (cache_op_write blobRowMax id c ow) (<[id := blobs_of (put_ow sg ow)]> t).
Proof.
  intros Hph Hok Hco. unfold cache_op_write, put_ow, put_op, ow_key. destruct ow as [step ph op]. cbn in *.
  destruct Hph as [-> | ->]; cbn.
  - set (b := if (blobRowMax <? blen (Op_State op))%Z then Op_State op else None).
    split; [by apply setState_ok|]. pose proof (setState_coherent c _ id step b Hok Hco) as Hs.
    cbn [truth_op] in Hs. rewrite insert_insert_eq, lookup_insert_eq in Hs. cbn [default] in Hs.
    unfold BoltRead.blobs_of. cbn. unfold sg_with. cbn. rewrite blob_states_forward.
    assert ((blen b =? 0)%Z = negb (blobRowMax <? blen (Op_State op))%Z) as Hb.
    { unfold b. destruct (blobRowMax <? blen (Op_State op))%Z eqn:E; [|done]. zbool. cbn.
      destruct (Z.eqb_spec (blen (Op_State op)) 0); [lia|done]. }
    rewrite Hb in Hs. unfold b in Hs. destruct (blobRowMax <? blen (Op_State op))%Z; cbn in Hs; done.
  - split; [done|]. unfold BoltRead.blobs_of in *. cbn. by rewrite blob_states_unwind.
Qed.
Lemma put_ows_coherent c t id sg ops :
  Forall ow_ok ops → cache_ok c → coherent c (<[id := blobs_of sg]> t) →
  cache_ok (foldl (cache_op_write blobRowMax id) c ops) ∧
  coherent (foldl (cache_op_write blobRowMax id) c ops) (<[id := blobs_of (foldl put_ow sg ops)]> t).
Proof.
  revert c sg; induction ops as [|ow ops IH]; intros c sg Hok Hc Hco; [done|].
  apply Forall_cons in Hok as [How Hok]. destruct (put_ow_coherent c t id sg ow) as [? ?]; [apply How|done|done|].
  cbn. by apply IH.
Qed.
End caches.

(** ** The operations *)

Section ops.
Context {B : Type} `{BoltLaws B} `{ProtobufLaws} (blobRowMax : Z).
Context (Hmax : (0 <= blobRowMax)%Z).
Implicit Types (s : BoltStore (B:=B)) (d : DB B) (v : view) (t : Transition).
Abbreviation represents := (represents blobRowMax).
Abbreviation rep := (rep blobRowMax).
Abbreviation rep_caches := (rep_caches blobRowMax).

Lemma writeDrain_rep_db s v staged d :
  rep (bo_db s) v → writeDrain s = (staged, Ok d) → rep d v.
Proof.
  intros Hr. unfold writeDrain. case_match; [by intros [= _ <-]|].
  destruct (drainStaged (bo_db s) stageDrainPerWrite) as [[d' n]|] eqn:E; [|done].
  intros [= _ <-]. by eapply rep_drainStaged.
Qed.
Lemma writeDrain_rep s v staged d :
  represents s v → writeDrain s = (staged, Ok d) → rep d v.
Proof. intros [Hr _]. by apply writeDrain_rep_db. Qed.

(** *** Reads *)

Lemma bolt_GetRun_view s v id :
  represents s v → free id →
  (bolt_GetRun s id).2 = view_GetRun v id ∧ represents (bolt_GetRun s id).1 v.
Proof.
  intros [Hr Hc] Hf. unfold bolt_GetRun.
  destruct (getRun_view blobRowMax Hmax _ _ _ id Hr Hc Hf) as (c' & -> & Hc'). by split; [|split].
Qed.
Lemma bolt_GetRunHead_view s v id :
  represents s v → free id → bolt_GetRunHead s id = view_GetRunHead v id.
Proof. intros [Hr _] Hf. by eapply getHead_view. Qed.

(** *** Transitions *)

Lemma terminal_record_identity t oc r : identity (terminal_record r t oc) = identity r.
Proof.
  unfold terminal_record.
  assert (∀ c r, identity (overlay_terminal c r) = identity r) as Ho.
  { intros c r0. unfold overlay_terminal. case_bool_decide; [done|]. by case_bool_decide. }
  assert (∀ f (r : RunRecord), identity (CompactTerminal (set_Output f r)) = identity r) as -> by done.
  transitivity (identity (overlay_terminal (T_Cursor t)
    (write_ops (T_Ops t) (write_failure (T_Failure t) r)))); [done|].
  by rewrite Ho, write_ops_identity, write_failure_identity.
Qed.
Lemma read_record_identity id sg : identity (read_record id sg) = (id, sg_pipeline sg, sg_resource sg).
Proof.
  unfold read_record, with_cursor. by rewrite overlay_cursor_identity.
Qed.
Lemma terminal_record_output t oc r : Run_Output (terminal_record r t oc) = T_Output t.
Proof. done. Qed.
Lemma stage_after_slot t sg : stage_slot (stage_after t sg) = stage_slot sg.
Proof.
  unfold stage_after. set (sg0 := sg_with _ _ _ _ _). assert (stage_slot sg0 = stage_slot sg) as <- by done.
  generalize sg0 as g. induction (T_Ops t) as [|ow ops IH]; intros g; [done|]. cbn. by rewrite IH.
Qed.

Lemma apply_tx_view d v c id t blobs d' :
  rep d v → cache_ok c → coherent c (blobs_truth blobRowMax v) → free id → Forall ow_ok (T_Ops t) →
  apply_tx blobRowMax d c id t = (blobs, Ok d') →
  ∃ sg, v !! id = Some (Live sg) ∧ rep d' (<[id := entry_after id t sg]> v) ∧
    (T_Outcome t = None → T_Failure t ≠ None → sg_failure sg = None) ∧
    cache_ok blobs ∧ coherent blobs (blobs_truth blobRowMax v).
Proof.
  intros Hr Hok Hco Hf Hops Happ. unfold apply_tx in Happ. rewrite Get_cells in Happ.
  destruct (v !! id) as [[sg|rec]|] eqn:Hid.
  - rewrite (rep_not_terminal blobRowMax d v) in Happ by (done || congruence).
    destruct (meta_present _ _ _ _ (rep_live _ _ _ Hr _ _ Hid)) as [w Hw]. rewrite Hw in Happ.
    exists sg. split; [done|]. unfold entry_after. destruct (T_Outcome t) as [oc|].
    + destruct (getNonterminal_view blobRowMax Hmax d v c id sg) as (c' & E & Hok' & Hco'); [done..|].
      rewrite E in Happ. injection Happ as <- Htx. split_and!; [|done|done|done].
      pose proof (terminal_record_identity t oc (read_record id sg)) as Hi.
      rewrite read_record_identity in Hi. set (rr := terminal_record _ _ _) in *. clearbody rr.
      injection Hi as Hi1 Hi2 Hi3. eapply rep_terminal_tx; [done|done|done|done| |done].
      unfold slotKey, stage_slot. by rewrite Hi2, Hi3.
    + injection Happ as <- Htx.
      destruct (step_tx_write _ Hmax _ _ _ sg _ (rep_live _ _ _ Hr _ _ Hid) Hops Htx) as (Hw' & Hs' & Hfail).
      split_and!; [|done|done|done]. eapply rep_run_write; [done|done|done|done|]. apply stage_after_slot.
  - exfalso. destruct (rep_done _ _ _ Hr _ _ Hid) as [(w & rec0 & beside & Hw & _) _]. by rewrite Hw in Happ.
  - exfalso. rewrite (rep_not_terminal blobRowMax d v) in Happ by (done || congruence).
    rewrite Get_cells in Happ.
    rewrite (rep_no_rows blobRowMax d v id (activeKey id tagMeta)) in Happ by auto with bolt. done.
Qed.
Lemma apply_tx_caches d v c id t blobs e :
  rep d v → cache_ok c → coherent c (blobs_truth blobRowMax v) → free id →
  apply_tx blobRowMax d c id t = (blobs, Err e) →
  cache_ok blobs ∧ coherent blobs (blobs_truth blobRowMax v).
Proof.
  intros Hr Hok Hco Hf Happ. unfold apply_tx in Happ.
  destruct (Get (db_terminal d) (bs id)) eqn:Ht; [by injection Happ as <- _|].
  destruct (Get (db_active d) (activeKey id tagMeta)) eqn:Hm; [|by injection Happ as <- _].
  destruct (T_Outcome t) as [oc|]; [|by injection Happ as <- _].
  destruct (v !! id) as [[sg|rec]|] eqn:Hid.
  - destruct (getNonterminal_view blobRowMax Hmax d v c id sg) as (c' & E & ? & ?); [done..|].
    rewrite E in Happ. by injection Happ as <- _.
  - exfalso. destruct (rep_done _ _ _ Hr _ _ Hid) as [(w & rec0 & beside & Hw & _) _].
    by rewrite Get_cells, Hw in Ht.
  - exfalso. rewrite Get_cells in Hm.
    rewrite (rep_no_rows blobRowMax d v id (activeKey id tagMeta)) in Hm by auto with bolt. done.
Qed.

Lemma caches_after_live c v id t sg :
  Forall ow_ok (T_Ops t) → T_Outcome t = None → v !! id = Some (Live sg) → rep_caches c v →
  rep_caches (caches_after blobRowMax c id t) (<[id := Live (stage_after t sg)]> v).
Proof.
  intros Hops Ho Hid [Hb Hout Hbc Hoc]. unfold caches_after. rewrite Ho.
  destruct (put_ows_coherent blobRowMax Hmax (ca_blobs c) (blobs_truth blobRowMax v) id
    (sg_with (sg_cancel sg) (match T_Failure t with Some f => Some f | None => sg_failure sg end)
       (sg_ops sg) (stored_cursor (T_Cursor t)) sg) (T_Ops t)) as [Hb' Hbc']; [done|done| |].
  { rewrite insert_id; [done|]. exact (blobs_truth_id _ _ _ _ Hid). }
  split; cbn; [done|done|by rewrite blobs_truth_live|]. rewrite outputs_truth_live.
  apply coherent_delete_none; [|done]. apply outputs_truth_none. congruence.
Qed.
Lemma caches_after_done c v id t oc sg r :
  T_Outcome t = Some oc → v !! id = Some (Live sg) → rep_caches c v →
  rep_caches (caches_after blobRowMax c id t)
    (<[id := Done (stored_terminal (terminal_record r t oc) false)]> v).
Proof.
  intros Ho Hid [Hb Hout Hbc Hoc]. unfold caches_after. rewrite Ho.
  assert (outputs_truth v !! id = None) as Hnone by (apply outputs_truth_none; congruence).
  assert (Run_Output (stored_terminal (terminal_record r t oc) false) = wire_bytes (T_Output t)) as Hrun by done.
  split; cbn [ca_blobs ca_outputs].
  - by apply remove_ok.
  - case_match; [by apply setOutput_ok|done].
  - rewrite blobs_truth_done. by apply remove_coherent.
  - rewrite outputs_truth_done, Hrun. destruct (blobRowMax <? blen (T_Output t))%Z eqn:E; [|by apply coherent_grow].
    zbool. pose proof (run_op_coherent _ _ (SetOutput id (T_Output t)) Hout Hoc I) as Hs.
    cbn [truth_op run_op] in Hs. rewrite Hnone in Hs. destruct (Z.eqb_spec (blen (T_Output t)) 0); [lia|].
    assert (wire_bytes (T_Output t) = T_Output t) as ->; [by destruct (T_Output t) as [[]|]|done].
Qed.

Lemma bolt_Apply_view s s' v id t r :
  represents s v → free id → Forall ow_ok (T_Ops t) →
  bolt_ApplyTransition blobRowMax s id t = (s', r) →
  match r with
  | Ok _ => ∃ sg, v !! id = Some (Live sg) ∧ represents s' (<[id := entry_after id t sg]> v) ∧
      (T_Outcome t = None → T_Failure t ≠ None → sg_failure sg = None)
  | Err _ => represents s' v
  end.
Proof.
  intros Hs Hf Hops Happ. unfold bolt_ApplyTransition in Happ.
  destruct (writeDrain s) as [staged [d|e]] eqn:Hd; [|injection Happ as <- <-; by split; apply Hs].
  pose proof (writeDrain_rep _ _ _ _ Hs Hd) as Hr. destruct Hs as [Hr0 [Hb Ho Hbc Hoc]].
  destruct (apply_tx blobRowMax d (ca_blobs (bo_caches s)) id t) as [blobs [d'|e]] eqn:Htx.
  - injection Happ as <- <-.
    destruct (apply_tx_view _ _ _ _ _ _ _ Hr Hb Hbc Hf Hops Htx) as (sg & Hid & Hr' & Hfail & Hb' & Hbc').
    exists sg. split_and!; [done| |done]. split; [done|]. cbn [bo_caches].
    assert (rep_caches (mkCaches blobs (ca_outputs (bo_caches s))) v) as Hc by by split.
    unfold entry_after. destruct (T_Outcome t) as [oc|] eqn:Eo.
    + by eapply caches_after_done.
    + by eapply caches_after_live.
  - injection Happ as <- <-.
    destruct (apply_tx_caches _ _ _ _ _ _ _ Hr Hb Hbc Hf Htx) as [Hb' Hbc']. by split; [|split].
Qed.

(** *** Cancel requests *)

Definition with_cancel (c : CancelRequest) (sg : stage) : stage :=
  sg_with (Some c) (sg_failure sg) (sg_ops sg) (sg_cursor sg) sg.
Lemma bolt_Cancel_view s s' v id req r :
  represents s v → free id → bolt_RequestCancel s id req = (s', r) →
  match r with
  | Ok accepted => ∃ sg, v !! id = Some (Live sg) ∧ accepted = bool_decide (sg_cancel sg = None) ∧
      represents s' (if accepted then <[id := Live (with_cancel req sg)]> v else v)
  | Err _ => s' = s
  end.
Proof.
  intros [Hr Hc] Hf Hq. unfold bolt_RequestCancel in Hq.
  destruct (cancel_tx (bo_db s) id req) as [[d' b]|e] eqn:Htx; [|by injection Hq as <- <-].
  injection Hq as <- <-. unfold cancel_tx in Htx.
  destruct (Get (db_terminal (bo_db s)) (bs id)) eqn:Ht; [done|].
  destruct (Get (db_active (bo_db s)) (activeKey id tagMeta)) eqn:Hm; [|done].
  destruct (v !! id) as [[sg|rec]|] eqn:Hid.
  - exists sg. split; [done|]. pose proof (rep_live _ _ _ Hr _ _ Hid) as Hst.
    destruct (Get (db_active (bo_db s)) (activeKey id tagCancel)) as [w|] eqn:Hcan.
    + injection Htx as <- <-. assert (sg_cancel sg ≠ None) as Hn.
      { intros E. rewrite Get_cells in Hcan.
        destruct (cells _ (activeKey id tagCancel)) as [c|] eqn:Ec; [|done].
        destruct (st_only _ _ _ _ _ Hst (activeKey id tagCancel) (run_key_active_0 id tagCancel)
          ltac:(by eexists)) as [Hk|Hk]; [revert Hk; tag_ne|].
        apply layout_elem in Hk as [[_ Hk]|[[Hk _]|[[Hk _]|(su & op & _ & Hk)]]].
        - rewrite E in Hk. by destruct Hk.
        - revert Hk. tag_ne.
        - revert Hk. tag_ne.
        - apply entry_keys_elem in Hk as [Hk|[_ Hk]]; revert Hk; tag_ne. }
      rewrite bool_decide_false by done. split; [done|]. by split.
    + apply let_Ok in Htx as (w & Hw%pb_Ok%Cancel_roundtrip & Htx).
      apply let_Ok in Htx as (a & Hset%bolt_Ok%Put_set & Htx). injection Htx as <- <-.
      assert (sg_cancel sg = None) as Hn.
      { destruct (sg_cancel sg) as [c|] eqn:E; [|done].
        destruct (st_cancel _ _ _ _ _ Hst c E) as (w0 & Hw0 & _). by rewrite Get_cells, Hw0 in Hcan. }
      rewrite bool_decide_true by done. split; [done|]. split.
      * eapply rep_run_write; [done|done| | |done].
        -- split; try done. apply (set_cell_only _ _ _ _ _ Hset). auto with bolt.
        -- by eapply stage_cancel.
      * destruct Hc as [Hb Ho Hbc Hoc]. split; [done|done| |].
        -- rewrite blobs_truth_live. change (blobs_of blobRowMax (with_cancel req sg)) with (blobs_of blobRowMax sg).
           rewrite insert_id; [done|by apply blobs_truth_id].
        -- rewrite outputs_truth_live. apply coherent_delete_none; [|done].
           apply outputs_truth_none. congruence.
  - exfalso. destruct (rep_done _ _ _ Hr _ _ Hid) as [(w & rec0 & beside & Hw & _) _].
    by rewrite Get_cells, Hw in Ht.
  - exfalso. rewrite Get_cells in Hm.
    rewrite (rep_no_rows blobRowMax (bo_db s) v id (activeKey id tagMeta)) in Hm by auto with bolt. done.
Qed.

(** *** Creating a run *)

Definition occupies (v : view) (p : PipelineID) (res : ResourceID) (id : RunID) : Prop :=
  ∃ sg, v !! id = Some (Live sg) ∧ stage_slot sg = slotKeyFor p res.

Lemma slot_holder_view d v rec ps :
  rep d v →
  match slot_holder (db_slots d) rec ps with
  | Some id => ∃ p, p ∈ ps ∧ occupies v p (Run_ResourceID rec) id
  | None => ∀ p id, p ∈ ps → p ≠ Run_PipelineID rec → ¬ occupies v p (Run_ResourceID rec) id
  end.
Proof.
  intros Hr. induction ps as [|p ps IH]; cbn; [by intros p id []%not_elem_of_nil|].
  case_bool_decide as Hp.
  - destruct (slot_holder _ _ ps) as [id|].
    + destruct IH as (q & Hq & ?). exists q. split; [by right|done].
    + intros q id [->|Hq]%elem_of_cons; [done|by apply IH].
  - destruct (Get (db_slots d) _) as [id|] eqn:E.
    + apply (rep_slots _ _ _ Hr) in E. exists p. split; [by left|done].
    + destruct (slot_holder _ _ ps) as [id|].
      * destruct IH as (q & Hq & ?). exists q. split; [by right|done].
      * intros q id [->|Hq]%elem_of_cons Hne; [|by apply IH].
        intros Ho. apply (rep_slots _ _ _ Hr) in Ho. congruence.
Qed.
Lemma occupant_of_view d v rec ps :
  rep d v →
  match occupant_of (db_slots d) rec ps with
  | Some id => ∃ p, p ∈ Run_PipelineID rec :: ps ∧ occupies v p (Run_ResourceID rec) id
  | None => ∀ p id, p ∈ Run_PipelineID rec :: ps → ¬ occupies v p (Run_ResourceID rec) id
  end.
Proof.
  intros Hr. unfold occupant_of. destruct (Get (db_slots d) (slotKey rec)) as [id|] eqn:E.
  - apply (rep_slots _ _ _ Hr) in E. exists (Run_PipelineID rec). split; [by left|done].
  - pose proof (slot_holder_view d v rec ps Hr) as Hh.
    destruct (slot_holder _ _ ps) as [id|].
    + destruct Hh as (q & Hq & ?). exists q. split; [by right|done].
    + assert (∀ id, ¬ occupies v (Run_PipelineID rec) (Run_ResourceID rec) id) as Hown.
      { intros id Ho. apply (rep_slots _ _ _ Hr) in Ho. unfold slotKey in E. congruence. }
      intros q id [->|Hq]%elem_of_cons; [apply Hown|].
      destruct (decide (q = Run_PipelineID rec)) as [->|Hne]; [apply Hown|by apply Hh].
Qed.

(** A seeded record: operations that can be keyed, no state without a status. *)
Record seed_ok (rec : RunRecord) : Prop := {
  seed_free : free (Run_RunID rec);
  seed_live : Terminal rec = false;
  seed_ops : Forall ow_ok (run_ows rec);
  seed_states sid sr : Run_Steps rec !! sid = Some sr →
    Op_Status (SR_Forward sr) = OpNone → Op_State (SR_Forward sr) = None;
}.

Lemma stage_of_slot rec : stage_slot (stage_of rec) = slotKey rec.
Proof.
  unfold stage_of. cbn. set (sg := foldl _ _ _).
  assert (stage_slot sg = slotKey rec) as Hs; [|exact Hs]. unfold sg.
  transitivity (stage_slot (first_stage rec)); [|done].
  generalize (first_stage rec) as g. induction (run_ows rec) as [|ow ops IH]; intros g; [done|].
  cbn [foldl]. by rewrite IH.
Qed.

Lemma rep_create d d1 slots v rec :
  rep d v → seed_ok rec → v !! Run_RunID rec = None →
  (∀ id, ¬ occupies v (Run_PipelineID rec) (Run_ResourceID rec) id) →
  putRun blobRowMax d rec = Ok d1 →
  set_cell (db_slots d1) (slotKey rec) (Some (Row (Run_RunID rec))) slots →
  rep (set_slots slots d1) (<[Run_RunID rec := Live (stage_of rec)]> v).
Proof.
  intros Hr [Hf Hlive Hops _] Hid Hfree Hput Hset. set (id := Run_RunID rec) in *.
  destruct (putRun_write _ Hmax _ _ _ Hlive Hf Hops (λ k, rep_no_rows _ _ _ _ k Hr Hf Hid) Hput)
    as ([Ha Hc Ht He Hs Hsl] & Hst).
  apply (rep_insert_live _ d); try done; [congruence|]. cbn.
  rewrite Hsl in Hset. split; [intros k id'; rewrite Get_cells; split|].
  3:{ intros k n. rewrite (Hset k). destruct (decide _); [done|apply Hr]. }
  - destruct (decide (k = slotKey rec)) as [->|Hne].
    + rewrite (set_cell_eq _ _ _ _ Hset). intros [= <-]. exists (stage_of rec).
      rewrite lookup_insert_eq. split; [done|]. apply stage_of_slot.
    + rewrite (set_cell_ne _ _ _ _ _ Hset), <-Get_cells, (rep_slots _ _ _ Hr) by done.
      intros (sg & Hid' & <-). exists sg. rewrite lookup_insert_ne; [done|congruence].
  - intros (sg & [[<- [= <-]]|[Hne Hid']]%lookup_insert_Some & <-).
    + by rewrite stage_of_slot, (set_cell_eq _ _ _ _ Hset).
    + rewrite (set_cell_ne _ _ _ _ _ Hset), <-Get_cells; [apply (rep_slots _ _ _ Hr); by exists sg|].
      intros Hk. apply (Hfree id'). by exists sg.
Qed.

(** What the writes of one seeded step do to the cached states. *)
Lemma step_ows_states c (tr : gmap RunID runBlobs) id sg sid sr :
  Forall ow_ok (step_ows (sid, sr)) →
  (Op_Status (SR_Forward sr) = OpNone → Op_State (SR_Forward sr) = None) →
  rb_states (blobs_of blobRowMax sg) !! sid = None →
  cache_ok c → coherent c (<[id := blobs_of blobRowMax sg]> tr) →
  let c' := if (blobRowMax <? blen (Op_State (SR_Forward sr)))%Z
            then setState c id sid (Op_State (SR_Forward sr)) else c in
  cache_ok c' ∧
  coherent c' (<[id := blobs_of blobRowMax (foldl put_ow sg (step_ows (sid, sr)))]> tr) ∧
  ∀ x, x ≠ sid → rb_states (blobs_of blobRowMax (foldl put_ow sg (step_ows (sid, sr)))) !! x =
    rb_states (blobs_of blobRowMax sg) !! x.
Proof.
  intros Hops Hnone Hsid Hok Hco c'.
  assert (∀ g op, blobs_of blobRowMax (put_ow g (mkOpWrite sid PhaseUnwind op)) = blobs_of blobRowMax g) as Hu.
  { intros g op. unfold BoltRead.blobs_of, put_ow, put_op, ow_key. cbn. by rewrite blob_states_unwind. }
  assert (∀ g, foldl put_ow g (filter (λ ow, Op_Status (OpWrite_Record ow) ≠ OpNone)
    [mkOpWrite sid PhaseUnwind (SR_Unwind sr)]) = g ∨ foldl put_ow g (filter (λ ow, Op_Status (OpWrite_Record ow) ≠ OpNone)
    [mkOpWrite sid PhaseUnwind (SR_Unwind sr)]) = put_ow g (mkOpWrite sid PhaseUnwind (SR_Unwind sr))) as Hu'.
  { intros g. rewrite filter_cons. case_decide; [by right|by left]. }
  unfold step_ows. cbn [fst snd]. rewrite filter_cons.
  destruct (decide (Op_Status (SR_Forward sr) ≠ OpNone)) as [Hn|Hn]; cbn [OpWrite_Record] in Hn.
  - rewrite decide_True by done. cbn [foldl].
    set (g := put_ow sg (mkOpWrite sid PhaseForward (SR_Forward sr))).
    assert (blobs_of blobRowMax (foldl put_ow g (filter (λ ow, Op_Status (OpWrite_Record ow) ≠ OpNone)
      [mkOpWrite sid PhaseUnwind (SR_Unwind sr)])) = blobs_of blobRowMax g) as ->.
    { destruct (Hu' g) as [-> | ->]; [done|apply Hu]. }
    assert (blob_states blobRowMax (sg_ops g) = if (blobRowMax <? blen (Op_State (SR_Forward sr)))%Z
      then <[sid := Op_State (SR_Forward sr)]> (rb_states (blobs_of blobRowMax sg))
      else rb_states (blobs_of blobRowMax sg)) as Hg.
    { unfold g, put_ow, put_op, ow_key. cbn [sg_with sg_ops OpWrite_Record OpWrite_StepID OpWrite_Phase].
      rewrite bool_decide_false, blob_states_forward by done. cbn [BoltRead.blobs_of rb_states] in Hsid |- *.
      rewrite delete_id by done. done. }
    unfold c'. destruct (blobRowMax <? blen (Op_State (SR_Forward sr)))%Z eqn:Eb.
    + split; [by apply setState_ok|].
      pose proof (setState_coherent c _ id sid (Op_State (SR_Forward sr)) Hok Hco) as Hs. cbn [truth_op] in Hs.
      zbool. destruct (Z.eqb_spec (blen (Op_State (SR_Forward sr))) 0) as [|_]; [lia|].
      rewrite insert_insert_eq, lookup_insert_eq in Hs. cbn [default] in Hs. rewrite delete_id in Hs by done.
      unfold BoltRead.blobs_of at 1 2. rewrite Hg. split; [exact Hs|].
      intros x Hx. cbn [rb_states]. by rewrite lookup_insert_ne.
    + split; [done|]. unfold BoltRead.blobs_of at 1 2. rewrite Hg. by split.
  - assert (Op_Status (SR_Forward sr) = OpNone) as Hn' by (by destruct (Op_Status (SR_Forward sr)); [|destruct Hn..]).
    rewrite decide_False by done.
    assert (c' = c) as ->. { unfold c'. rewrite Hnone by done. cbn. by destruct (Z.ltb_spec blobRowMax 0); [lia|]. }
    destruct (Hu' sg) as [-> | ->]; rewrite ?Hu; done.
Qed.

Lemma cache_states_coherent c (tr : gmap RunID runBlobs) id sg (l : list (StepID * StepRecord)) :
  NoDup l.*1 → Forall ow_ok (l ≫= step_ows) →
  (∀ e, e ∈ l → Op_Status (SR_Forward e.2) = OpNone → Op_State (SR_Forward e.2) = None) →
  (∀ e, e ∈ l → rb_states (blobs_of blobRowMax sg) !! e.1 = None) →
  cache_ok c → coherent c (<[id := blobs_of blobRowMax sg]> tr) →
  cache_ok (cache_states blobRowMax c id l) ∧
  coherent (cache_states blobRowMax c id l)
    (<[id := blobs_of blobRowMax (foldl put_ow sg (l ≫= step_ows))]> tr).
Proof.
  revert c sg; induction l as [|[sid sr] l IH]; intros c sg Hnd Hops Hnone Hfresh Hok Hco; [done|].
  apply NoDup_cons in Hnd as [Hin Hnd]. rewrite bind_cons in Hops. apply Forall_app in Hops as [Hop Hops].
  destruct (step_ows_states c tr id sg sid sr Hop) as (Hok' & Hco' & Hrest);
    [by apply (Hnone (sid, sr)); left|by apply (Hfresh (sid, sr)); left|done|done|].
  rewrite bind_cons, foldl_app. apply IH; [done|done| |  |done|done].
  - intros e He. apply Hnone. by right.
  - intros e He. rewrite Hrest; [by apply Hfresh; right|].
    intros E. apply Hin. rewrite <-E. apply list_elem_of_fmap. by exists e.
Qed.

Lemma create_caches c v rec :
  seed_ok rec → v !! Run_RunID rec = None → rep_caches c v →
  rep_caches (mkCaches (cache_states blobRowMax (setInput (ca_blobs c) (Run_RunID rec) (Run_Input rec))
      (Run_RunID rec) (map_to_list (Run_Steps rec))) (ca_outputs c))
    (<[Run_RunID rec := Live (stage_of rec)]> v).
Proof.
  intros [_ _ Hops Hstates] Hid [Hb Ho Hbc Hoc]. set (id := Run_RunID rec) in *.
  assert (blobs_truth blobRowMax v !! id = None) as Hnone.
  { unfold BoltView.blobs_truth. by rewrite lookup_omap, Hid. }
  assert (coherent (setInput (ca_blobs c) id (Run_Input rec))
    (<[id := blobs_of blobRowMax (first_stage rec)]> (blobs_truth blobRowMax v))) as Hco.
  { assert (blob_states blobRowMax ∅ = ∅) as He.
    { unfold blob_states, steps_of. by rewrite map_to_list_empty. }
    unfold BoltRead.blobs_of. cbn [first_stage sg_ops sg_input]. rewrite He.
    pose proof (run_op_coherent _ _ (SetInput id (Run_Input rec)) Hb Hbc I) as Hs. cbn [run_op truth_op] in Hs.
    rewrite Hnone in Hs. destruct (Z.eqb_spec (blen (Run_Input rec)) 0) as [E|E]; [by apply coherent_grow|].
    assert (wire_bytes (Run_Input rec) = Run_Input rec) as ->; [by destruct (Run_Input rec) as [[]|]|done]. }
  destruct (cache_states_coherent (setInput (ca_blobs c) id (Run_Input rec)) (blobs_truth blobRowMax v) id
    (first_stage rec) (map_to_list (Run_Steps rec))) as [Hok' Hco'];
    [apply NoDup_fst_map_to_list|done| | |by apply setInput_ok|done|].
  - intros [sid sr] He. apply elem_of_map_to_list in He. by apply (Hstates sid).
  - intros e _. cbn. unfold blob_states, steps_of. rewrite map_to_list_empty. cbn [foldl].
    by rewrite lookup_omap, lookup_empty.
  - split; [done|done| |].
    + rewrite blobs_truth_live. exact Hco'.
    + rewrite outputs_truth_live. apply coherent_delete_none; [|done]. apply outputs_truth_none. congruence.
Qed.

Lemma bolt_Create_view s s' v rec ps r :
  represents s v → seed_ok rec → v !! Run_RunID rec = None →
  bolt_CreateRun blobRowMax s rec ps = (s', r) →
  match r with
  | Ok (Some existing, created) => created = false ∧ represents s' v ∧
      ∃ p id, p ∈ Run_PipelineID rec :: ps ∧ occupies v p (Run_ResourceID rec) id ∧
        view_GetRun v id = Ok existing
  | Ok (None, created) => created = true ∧
      (∀ p id, p ∈ Run_PipelineID rec :: ps → ¬ occupies v p (Run_ResourceID rec) id) ∧
      represents s' (<[Run_RunID rec := Live (stage_of rec)]> v)
  | Err _ => represents s' v
  end.
Proof.
  intros Hs Hseed Hid Hcr. unfold bolt_CreateRun in Hcr.
  destruct (writeDrain s) as [staged [d|e]] eqn:Hd; [|injection Hcr as <- <-; by split; apply Hs].
  pose proof (writeDrain_rep _ _ _ _ Hs Hd) as Hr. destruct Hs as [Hr0 Hc].
  unfold create_tx in Hcr. pose proof (occupant_of_view d v rec ps Hr) as Hocc.
  destruct (occupant_of (db_slots d) rec ps) as [id|].
  - destruct Hocc as (p & Hp & Hocc). assert (free id) as Hf.
    { destruct Hocc as (sg & Hsg & _). by eapply rep_free. }
    destruct (getRun_view blobRowMax Hmax d v (bo_caches s) id Hr Hc Hf) as (c' & E & Hc').
    rewrite E in Hcr. destruct (view_GetRun v id) as [existing|e] eqn:Eg; cbn in Hcr.
    + injection Hcr as <- <-. split; [done|]. split; [by split|]. by exists p, id.
    + injection Hcr as <- <-. by split.
  - destruct (let! d := putRun blobRowMax d rec in _) as [[d' o]|e] eqn:Htx;
      [|injection Hcr as <- <-; by split].
    apply let_Ok in Htx as (d1 & Hput & Htx). apply let_Ok in Htx as (slots & Hsl%bolt_Ok%Put_set & Htx).
    injection Htx as <- <-. injection Hcr as <- <-. split; [done|]. split; [done|]. split.
    + eapply rep_create; [done|done|done| |done|done]. intros id. apply Hocc. by left.
    + by apply create_caches.
Qed.

(** *** Reaping *)

(** The run of an expiry key. *)
Definition key_run (k : key) : RunID := of_bs (drop 8 k).
Lemma key_run_expiry (at_ : Time) id : key_run (expiryKey at_ id) = id.
Proof.
  unfold key_run, expiryKey, expiryPrefix. rewrite drop_app_length'; [apply of_bs_bs|by rewrite length_be].
Qed.
Definition done_key (v : view) (k : key) : Prop :=
  ∃ id rec, v !! id = Some (Done rec) ∧ k = expiryKey (Run_UpdatedAt rec) id.
Definition reaped (v : view) (ks : list key) : view := foldl (λ v k, delete (key_run k) v) v ks.

Lemma reap_one_rep d d' v k :
  rep d v → done_key v k → reap_one d k = Ok d' → rep d' (delete (key_run k) v).
Proof.
  intros Hr (id & rec & Hid & ->) Hreap. unfold reap_one in Hreap. fold (key_run (expiryKey (Run_UpdatedAt rec) id)) in Hreap.
  rewrite key_run_expiry in Hreap |- *.
  apply let_Ok in Hreap as (d1 & Hd1 & Hreap). apply let_Ok in Hreap as (t1 & Ht1%bolt_Ok%Delete_set & Hreap).
  apply let_Ok in Hreap as (t2 & Ht2%deleteBlob_set & Hreap).
  apply let_Ok in Hreap as (e & He%bolt_Ok%Delete_set & Hreap).
  apply let_Ok in Hreap as (st & Hst%bolt_Ok%Delete_set & Hreap). injection Hreap as <-.
  by eapply rep_delete.
Qed.
Lemma done_key_delete v k k' : done_key v k → done_key v k' → k' ≠ k → done_key (delete (key_run k) v) k'.
Proof.
  intros (id & rec & Hid & ->) (id' & rec' & Hid' & ->) Hne. rewrite key_run_expiry.
  exists id', rec'. rewrite lookup_delete_ne; [done|]. intros <-. congruence.
Qed.
Lemma reap_all_view c v d ks outputs r :
  rep d v → rep_caches c v → NoDup ks → (∀ k, k ∈ ks → done_key v k) →
  reap_all d (ca_outputs c) ks = (outputs, r) →
  match r with
  | Ok d' => rep d' (reaped v ks) ∧ rep_caches (mkCaches (ca_blobs c) outputs) (reaped v ks)
  | Err _ => cache_ok outputs ∧ coherent outputs (outputs_truth v)
  end.
Proof.
  revert c v d; induction ks as [|k ks IH]; intros c v d Hr Hc Hnd Hks Hreap; cbn in Hreap.
  { injection Hreap as <- <-. split; [done|]. by destruct c. }
  apply NoDup_cons in Hnd as [Hin Hnd].
  assert (done_key v k) as Hk by (apply Hks; by left).
  destruct (reap_one d k) as [d1|e] eqn:Hone; [|injection Hreap as <- <-; split; apply Hc].
  pose proof (reap_one_rep _ _ _ _ Hr Hk Hone) as Hr1.
  destruct Hk as (id & rec & Hid & Ek). fold (key_run k) in Hreap.
  assert (key_run k = id) as Erun by (by rewrite Ek, key_run_expiry). rewrite Erun in *.
  destruct Hc as [Hb Ho Hbc Hoc].
  assert (rep_caches (mkCaches (ca_blobs c) (dropRun (ca_outputs c) id)) (delete id v)) as Hc1.
  { split; cbn; [done|by apply remove_ok| |].
    - unfold BoltView.blobs_truth. rewrite omap_delete. apply coherent_delete_none; [|done].
      by rewrite lookup_omap, Hid.
    - unfold outputs_truth. rewrite omap_delete. by apply remove_coherent. }
  specialize (IH _ _ _ Hr1 Hc1 Hnd). cbn [ca_outputs ca_blobs] in IH.
  assert (∀ k', k' ∈ ks → done_key (delete id v) k') as Hks'.
  { intros k' Hk'. rewrite <-Erun. apply done_key_delete; [by apply Hks; left|by apply Hks; right|].
    by intros ->. }
  specialize (IH Hks' Hreap). destruct r as [d'|e].
  - unfold reaped in *. cbn [foldl]. by rewrite Erun.
  - destruct IH as [Hok Hco]. split; [done|]. intros x rb Hx. specialize (Hco x rb Hx).
    unfold outputs_truth in Hco |- *. rewrite omap_delete in Hco.
    destruct (decide (x = id)) as [->|Hne]; [|by rewrite lookup_delete_ne in Hco].
    rewrite lookup_delete_eq in Hco. rewrite lookup_omap, Hid. cbn. destruct Hco as (H1' & H2' & H3').
    cbn in *. split_and!; [by left; destruct H1'|done|by left; destruct H3'].
Qed.

(** Commit times the index orders: the zero time and those of 1970 to 2262. *)
Definition dated (u : Time) : Prop := (u = 0 ∨ unix_epoch < u < unix_epoch + 2 ^ 63)%Z.
Lemma expiryPrefix_lt (u u' : Time) :
  dated u → dated u' → key_lt (expiryPrefix u) (expiryPrefix u') = (u <? u')%Z.
Proof.
  set (n := λ u : Time, (if IsZero u then 0 else UnixNano u mod 2 ^ 64)%Z).
  assert (∀ u, dated u → n u = (if u =? 0 then 0 else u - unix_epoch)%Z ∧ (0 <= n u < 2 ^ 64)%Z) as Hn.
  { intros w Hw. unfold n, IsZero, UnixNano, wrap_i64. unfold dated, unix_epoch, second in *.
    destruct (Z.eqb_spec w 0) as [->|Hz]; [lia|].
    rewrite (Z.mod_small (w - _ + _)) by lia. rewrite Z.mod_small by lia. lia. }
  intros Hu Hu'. unfold expiryPrefix. fold (n u) (n u').
  destruct (Hn u Hu) as [E R], (Hn u' Hu') as [E' R'].
  rewrite <-(app_nil_r (be 8 (n u))), <-(app_nil_r (be 8 (n u'))).
  destruct (Z.ltb_spec u u') as [Hlt|Hge].
  - apply key_lt_be; [|lia]. unfold dated, unix_epoch, second in *.
    destruct (Z.eqb_spec u 0), (Z.eqb_spec u' 0); lia.
  - destruct (Z.eq_dec (n u) (n u')) as [Heq|Hne]; [rewrite Heq; apply key_lt_irrefl|].
    apply key_lt_asym, key_lt_be; [|lia]. unfold dated, unix_epoch, second in *.
    destruct (Z.eqb_spec u 0), (Z.eqb_spec u' 0); lia.
Qed.
Lemma take_expiry (u : Time) id : take 8 (expiryKey u id) = expiryPrefix u.
Proof. unfold expiryKey. rewrite take_app_length'; [done|]. unfold expiryPrefix. by rewrite length_be. Qed.

Lemma expiryKey_lt (u u' : Time) id id' :
  key_lt (expiryPrefix u) (expiryPrefix u') = true → key_lt (expiryKey u id) (expiryKey u' id') = true.
Proof.
  unfold expiryKey. intros Hlt. apply key_lt_app_r, key_lt_app_l; [done|].
  intros [x E]. assert (x = []) as ->.
  { apply nil_length_inv. apply (f_equal length) in E. unfold expiryPrefix in E.
    rewrite length_app, !length_be in E. lia. }
  rewrite app_nil_r in E. by rewrite E, key_lt_irrefl in Hlt.
Qed.
Lemma filter_keys_sorted (P : key → Prop) `{∀ k, Decision (P k)} (l : list key) :
  StronglySorted (λ a a', key_lt a a' = true) l → StronglySorted (λ a a', key_lt a a' = true) (filter P l).
Proof.
  induction 1 as [|k l Hs IH Hall]; [constructor|]. rewrite filter_cons. case_decide; [|done].
  constructor; [done|]. rewrite Forall_forall in *. intros k' Hk'. apply Hall.
  by apply list_elem_of_filter in Hk' as [_ ?].
Qed.
Lemma sorted_NoDup (l : list key) : StronglySorted (λ a a', key_lt a a' = true) l → NoDup l.
Proof.
  induction 1 as [|k l _ IH Hall]; constructor; [|done]. intros Hin. rewrite Forall_forall in Hall.
  specialize (Hall _ Hin). by rewrite key_lt_irrefl in Hall.
Qed.
(** The keys of the victims are the first of the index. *)
Lemma reap_victims_take limit cutoff (rows : list (key * cell B)) :
  StronglySorted (λ a a', key_lt a a' = true) rows.*1 →
  (∀ k k', k ∈ rows.*1 → k' ∈ rows.*1 → key_lt (take 8 k) (take 8 k') = true → key_lt k k' = true) →
  reap_victims limit cutoff rows =
    take (Z.to_nat limit) (filter (λ k, key_lt (take 8 k) cutoff = true) rows.*1).
Proof.
  revert limit; induction rows as [|[k c] rows IH]; intros limit Hs Ht; [by destruct (Z.to_nat limit)|].
  cbn [reap_victims fmap list_fmap fst]. cbn [fmap list_fmap fst] in Hs, Ht.
  apply StronglySorted_inv in Hs as [Hs Hall]. rewrite Forall_forall in Hall.
  destruct (Z.ltb_spec 0 limit) as [Hl|Hl]; cbn [andb].
  2:{ by replace (Z.to_nat limit) with 0 by lia. }
  destruct (key_lt (take 8 k) cutoff) eqn:E.
  - rewrite filter_cons_True by done. replace (Z.to_nat limit) with (S (Z.to_nat (limit - 1))) by lia.
    cbn [take]. f_equal. apply IH; [done|]. intros; apply Ht; by try right.
  - rewrite filter_cons_False by congruence.
    assert (filter (λ k, key_lt (take 8 k) cutoff = true) rows.*1 = []) as ->; [|by destruct (Z.to_nat limit)].
    apply list_filter_none, Forall_forall. intros k' Hk' Hlt.
    destruct (key_lt (take 8 k') (take 8 k)) eqn:E'.
    + apply Ht in E'; [|by right|by left]. pose proof (Hall _ Hk') as Hx.
      by rewrite (key_lt_asym _ _ E') in Hx.
    + destruct (decide (take 8 k = take 8 k')) as [Heq|Hne]; [congruence|].
      assert (key_lt (take 8 k) (take 8 k') = true) as Hx by (by apply key_lt_total; [congruence|]).
      by rewrite (key_lt_trans _ _ _ Hx Hlt) in E.
Qed.

Lemma bolt_Reap_keys s s' v (before : Time) limit r :
  represents s v → bolt_ReapTerminal s before limit = (s', r) →
  let ks := reap_victims limit (expiryPrefix before) (Rows (db_expiry (bo_db s))) in
  (ks = take (Z.to_nat limit) (filter (λ k, key_lt (take 8 k) (expiryPrefix before) = true)
     (Rows (db_expiry (bo_db s))).*1) ∧ NoDup ks ∧ ∀ k, k ∈ ks → done_key v k) ∧
  match r with
  | Ok n => n = Z.of_nat (length ks) ∧ represents s' (reaped v ks)
  | Err _ => represents s' v
  end.
Proof.
  intros [Hr Hc] Hreap ks.
  assert (∀ k, k ∈ (Rows (db_expiry (bo_db s))).*1 → done_key v k) as Hall.
  { intros k Hk. apply elem_of_fst in Hk as [c Hk%Rows_cells]. apply (rep_expiry _ _ _ Hr). by eexists. }
  assert (ks = take (Z.to_nat limit) (filter (λ k, key_lt (take 8 k) (expiryPrefix before) = true)
     (Rows (db_expiry (bo_db s))).*1)) as Eks.
  { apply reap_victims_take; [apply Rows_sorted|].
    intros k k' Hk Hk'. destruct (Hall _ Hk) as (i & r1 & _ & ->), (Hall _ Hk') as (i' & r2 & _ & ->).
    rewrite !take_expiry. apply expiryKey_lt. }
  assert (NoDup ks ∧ ∀ k, k ∈ ks → done_key v k) as [Hnd Hks].
  { rewrite Eks. split.
    - apply (sublist_NoDup _ (filter (λ k, key_lt (take 8 k) (expiryPrefix before) = true)
        (Rows (db_expiry (bo_db s))).*1)); [|apply sublist_take].
      apply NoDup_filter, sorted_NoDup, Rows_sorted.
    - intros k Hk. apply Hall. apply (elem_of_take) in Hk as (i & Hk & _).
      apply list_elem_of_lookup_2, list_elem_of_filter in Hk. apply Hk. }
  split; [done|]. unfold bolt_ReapTerminal in Hreap. fold ks in Hreap.
  destruct (reap_all (bo_db s) (ca_outputs (bo_caches s)) ks) as [outputs [d'|e]] eqn:Hall'.
  - injection Hreap as <- <-. split; [done|].
    destruct (reap_all_view _ _ _ _ _ _ Hr Hc Hnd Hks Hall') as [? ?]. by split.
  - injection Hreap as <- <-. destruct (reap_all_view _ _ _ _ _ _ Hr Hc Hnd Hks Hall') as [? ?].
    destruct Hc as [Hb Ho Hbc Hoc]. by split; [|split].
Qed.
End ops.
