(* ===== verification/BoltContract.v ===== *)
(** * BoltContract: a view is what the contract of the store says (store/bbolt/store.go,
    store/mem/mem.go)

    The in-memory store applies a transition to the whole record
    ([Driver.record_after]); the database writes its rows and overlays the cursor when
    the run is read.  Both give the same record, up to what the encoding keeps, for
    every transition that does not lose sight of the operation in flight: the engine
    flushes it as a row unless the transition covers it. *)
From S2P Require Import Prelude Kernel Driver MemStore Wire Keys BlobCache Bolt BoltStore.
From S2P Require Import BoltStage BoltRead BoltWrite BoltView.

(** What the encoding keeps of a nonterminal record. *)
Definition stored_step (sr : StepRecord) : StepRecord :=
  mkStepRecord (stored_op (SR_Forward sr)) (stored_op (SR_Unwind sr)).
Definition encoded (r : RunRecord) : RunRecord :=
  set_Steps (stored_step <$> Run_Steps r)
    (set_Awaiting (stored_await <$> Run_Awaiting r) (set_Input (wire_bytes (Run_Input r)) r)).

Definition unwinds (p : Phase) : bool := match p with PhaseUnwind => true | _ => false end.
Lemma ow_key_unwinds ow : ow_key ow = (OpWrite_StepID ow, unwinds (OpWrite_Phase ow)).
Proof. unfold ow_key. by destruct (OpWrite_Phase ow). Qed.

(** ** Writes of operations *)

Lemma put_Op_phase id p p' op r : unwinds p = unwinds p' → put_Op id p op r = put_Op id p' op r.
Proof. unfold put_Op. intros E. f_equal. by destruct p, p'. Qed.
Lemma Op_phase p p' sr : unwinds p = unwinds p' → Op sr p = Op sr p'.
Proof. by destruct p, p'. Qed.
Lemma phase_of_unwinds p : unwinds (phase_of (unwinds p)) = unwinds p.
Proof. by destruct p. Qed.

Lemma put_Op_comm id p op id' p' op' r :
  (id, unwinds p) ≠ (id', unwinds p') →
  put_Op id p op (put_Op id' p' op' r) = put_Op id' p' op' (put_Op id p op r).
Proof.
  intros Hne. unfold put_Op. destruct (decide (id = id')) as [->|Hid].
  - rewrite !Step_put_Step, !put_Step_twice. f_equal. by destruct p, p'.
  - rewrite !Step_put_Step_ne by congruence. unfold put_Step, set_Steps. cbn. f_equal.
    by apply insert_insert_ne.
Qed.
Lemma Op_put_Op_ne id p id' p' op r :
  (id, unwinds p) ≠ (id', unwinds p') → Op (Step (put_Op id' p' op r) id) p = Op (Step r id) p.
Proof.
  intros Hne. unfold put_Op. destruct (decide (id = id')) as [->|Hid].
  - rewrite Step_put_Step. by destruct p, p'.
  - by rewrite Step_put_Step_ne by congruence.
Qed.

(** A row written under the cover of a later write of its operation is lost. *)
Definition writes_op (su : StepID * bool) (ops : list OpWrite) : Prop :=
  ∃ ow, ow ∈ ops ∧ (OpWrite_StepID ow, unwinds (OpWrite_Phase ow)) = su.
Lemma write_ops_covered id p x ops r :
  writes_op (id, unwinds p) ops → write_ops ops (put_Op id p x r) = write_ops ops r.
Proof.
  unfold write_ops. revert r; induction ops as [|ow ops IH]; intros r (ow' & Hin & E).
  - by apply not_elem_of_nil in Hin.
  - cbn [foldl]. destruct (decide ((OpWrite_StepID ow, unwinds (OpWrite_Phase ow)) = (id, unwinds p))) as [Heq|Hne].
    + injection Heq as -> Hp. f_equal. rewrite (put_Op_phase id p (OpWrite_Phase ow)) by done.
      by rewrite put_Op_twice.
    + rewrite put_Op_comm by done. apply IH. apply elem_of_cons in Hin as [->|Hin]; [done|].
      by exists ow'.
Qed.
Lemma write_ops_comm id p x ops r :
  ¬ writes_op (id, unwinds p) ops → write_ops ops (put_Op id p x r) = put_Op id p x (write_ops ops r).
Proof.
  unfold write_ops. revert r; induction ops as [|ow ops IH]; intros r Hn; [done|]. cbn [foldl].
  rewrite put_Op_comm, IH; [done| |].
  - intros (ow' & Hin & E). apply Hn. exists ow'. split; [by right|done].
  - intros E. apply Hn. exists ow. split; [by left|done].
Qed.

Lemma write_ops_Op id p ops r :
  ¬ writes_op (id, unwinds p) ops → Op (Step (write_ops ops r) id) p = Op (Step r id) p.
Proof.
  unfold write_ops. revert r; induction ops as [|ow ops IH]; intros r Hn; [done|]. cbn [foldl].
  rewrite IH, Op_put_Op_ne; [done| |].
  - intros E. apply Hn. exists ow. split; [by left|done].
  - intros (ow' & Hin & E). apply Hn. exists ow'. split; [by right|done].
Qed.

(** The cursor's fields and the operations do not meet. *)
Lemma write_cursor_put_Op c id p op r : write_cursor c (put_Op id p op r) = put_Op id p op (write_cursor c r).
Proof. done. Qed.
Lemma write_cursor_ops c ops r : write_cursor c (write_ops ops r) = write_ops ops (write_cursor c r).
Proof. unfold write_ops. revert r; induction ops as [|ow ops IH]; intros r; [done|]. cbn [foldl]. by rewrite IH. Qed.
Lemma write_cursor_overlay c c' r : write_cursor c (overlay_cursor c' r) = overlay_cursor c' (write_cursor c r).
Proof. unfold overlay_cursor. by case_bool_decide. Qed.
Lemma write_cursor_twice c c' r : write_cursor c (write_cursor c' r) = write_cursor c r.
Proof. done. Qed.
Lemma write_failure_overlay f c r : write_failure f (overlay_cursor c r) = overlay_cursor c (write_failure f r).
Proof. unfold overlay_cursor. case_bool_decide; [done|]. by destruct f. Qed.
Lemma write_failure_cursor f c r : write_failure f (write_cursor c r) = write_cursor c (write_failure f r).
Proof. by destruct f. Qed.
Lemma write_failure_ops f ops r : write_failure f (write_ops ops r) = write_ops ops (write_failure f r).
Proof. unfold write_ops. revert r; induction ops as [|ow ops IH]; intros r; [done|]. cbn [foldl]. rewrite IH. by destruct f. Qed.

(** ** The transition covers the operation in flight *)

Definition covers (t : Transition) (c0 : Cursor) : Prop :=
  Cursor_StepID c0 = "" ∨ writes_op (Cursor_StepID c0, unwinds (Cursor_Phase c0)) (T_Ops t) ∨
  (Cursor_StepID (T_Cursor t) = Cursor_StepID c0 ∧
   unwinds (Cursor_Phase (T_Cursor t)) = unwinds (Cursor_Phase c0)).

Lemma overlay_covered t c0 r :
  covers t c0 →
  overlay_cursor (T_Cursor t) (write_ops (T_Ops t) (overlay_cursor c0 r)) =
    overlay_cursor (T_Cursor t) (write_ops (T_Ops t) r).
Proof.
  intros Hc. unfold overlay_cursor at 2. case_bool_decide as H0; [done|].
  destruct Hc as [?|[Hw|[Hs Hp]]]; [done|by rewrite write_ops_covered|].
  destruct (decide (Exists (λ ow, (OpWrite_StepID ow, unwinds (OpWrite_Phase ow)) =
    (Cursor_StepID c0, unwinds (Cursor_Phase c0))) (T_Ops t))) as [Hw|Hw].
  { rewrite write_ops_covered; [done|]. by apply Exists_exists in Hw. }
  rewrite write_ops_comm by (intros Hw'; by apply Hw, Exists_exists).
  unfold overlay_cursor. rewrite Hs, !bool_decide_false by done.
  rewrite (put_Op_phase _ (Cursor_Phase (T_Cursor t)) (Cursor_Phase c0)) by done.
  rewrite (put_Op_phase _ (Cursor_Phase (T_Cursor t)) (Cursor_Phase c0)) by done.
  rewrite put_Op_twice. f_equal.
  rewrite !(Op_phase (Cursor_Phase (T_Cursor t)) (Cursor_Phase c0)) by done.
  rewrite Op_put_Op. unfold unresolved_op. cbn.
  by rewrite write_ops_Op by (intros Hw'; by apply Hw, Exists_exists).
Qed.

(** ** The record of a stage after a write *)

Definition stored_ow (ow : OpWrite) : OpWrite :=
  mkOpWrite (OpWrite_StepID ow) (OpWrite_Phase ow) (stored_op (OpWrite_Record ow)).

Lemma steps_of_insert ops su op : steps_of (<[su := op]> ops) = add_op (steps_of ops) (su, op).
Proof.
  apply map_eq. intros step. destruct su as [step' u]. unfold add_op. cbn [fst snd].
  rewrite steps_of_lookup. destruct (decide (step = step')) as [->|Hne].
  - rewrite lookup_insert_eq, steps_of_lookup.
    destruct u; rewrite lookup_insert_eq, lookup_insert_ne by congruence;
      by destruct (ops !! (step', false)), (ops !! (step', true)).
  - rewrite !lookup_insert_ne by congruence. by rewrite steps_of_lookup.
Qed.
Lemma stage_record_put id su op sg :
  stage_record id (put_op su op sg) = put_Op su.1 (phase_of su.2) (stored_op op) (stage_record id sg).
Proof. unfold stage_record, put_op. cbn. rewrite steps_of_insert. by destruct su. Qed.
Lemma stage_record_ops id ops sg :
  stage_record id (foldl put_ow sg ops) = write_ops (stored_ow <$> ops) (stage_record id sg).
Proof.
  revert sg; induction ops as [|ow ops IH]; intros sg; [done|]. cbn [foldl fmap list_fmap].
  rewrite IH. unfold write_ops at 2. cbn [foldl]. unfold write_ops. f_equal.
  unfold put_ow. rewrite stage_record_put, ow_key_unwinds. cbn.
  apply put_Op_phase, phase_of_unwinds.
Qed.
Lemma put_ows_cursor ops sg : sg_cursor (foldl put_ow sg ops) = sg_cursor sg.
Proof. revert sg; induction ops as [|ow ops IH]; intros sg; [done|]. cbn [foldl]. by rewrite IH. Qed.

(** ** The encoding distributes over what a transition does *)

Lemma encoded_put_Op id p op r : encoded (put_Op id p op r) = put_Op id p (stored_op op) (encoded r).
Proof.
  unfold encoded, put_Op, put_Step, Step, set_Steps. cbn. f_equal. rewrite fmap_insert, lookup_fmap. f_equal.
  destruct (Run_Steps r !! id); by destruct p.
Qed.
Lemma encoded_Op id p r : Op (Step (encoded r) id) p = stored_op (Op (Step r id) p).
Proof. unfold encoded, Step. cbn. rewrite lookup_fmap. destruct (Run_Steps r !! id); by destruct p. Qed.
Lemma encoded_write_ops ops r : encoded (write_ops ops r) = write_ops (stored_ow <$> ops) (encoded r).
Proof.
  unfold write_ops. revert r; induction ops as [|ow ops IH]; intros r; [done|]. cbn [foldl fmap list_fmap].
  by rewrite IH, encoded_put_Op.
Qed.
Lemma encoded_overlay c r : encoded (overlay_cursor c r) = overlay_cursor c (encoded r).
Proof.
  unfold overlay_cursor. case_bool_decide; [done|]. by rewrite encoded_put_Op, encoded_Op.
Qed.
Lemma encoded_write_cursor c r : encoded (write_cursor c r) = write_cursor (stored_cursor c) (encoded r).
Proof. done. Qed.
Lemma encoded_write_failure f r : encoded (write_failure f r) = write_failure f (encoded r).
Proof. by destruct f. Qed.

(** A stage read from rows is encoded already. *)
Record stage_ok (sg : stage) : Prop := {
  so_input : wire_bytes (sg_input sg) = sg_input sg;
  so_ops su op : sg_ops sg !! su = Some op → stored_op op = op;
  so_cursor : stored_cursor (sg_cursor sg) = sg_cursor sg;
}.
Lemma encoded_stage id sg : stage_ok sg → encoded (stage_record id sg) = stage_record id sg.
Proof.
  intros [Hin Hops _]. unfold encoded, stage_record, set_Steps, set_Awaiting, set_Input. cbn. f_equal; [done|].
  apply map_eq. intros step. rewrite lookup_fmap, !steps_of_lookup.
  destruct (sg_ops sg !! (step, false)) as [f|] eqn:Ef, (sg_ops sg !! (step, true)) as [u|] eqn:Eu; cbn;
    unfold stored_step; cbn; by rewrite ?(Hops _ _ Ef), ?(Hops _ _ Eu).
Qed.
Lemma encoded_read id sg : stage_ok sg → encoded (read_record id sg) = read_record id sg.
Proof.
  intros Hok. unfold read_record, with_cursor. rewrite encoded_overlay, encoded_write_cursor.
  by rewrite encoded_stage, (so_cursor _ Hok).
Qed.

Lemma record_after_covered t c0 r :
  covers t c0 →
  record_before_outcome t (with_cursor c0 r) =
    overlay_cursor (T_Cursor t) (write_cursor (T_Cursor t) (write_ops (T_Ops t) (write_failure (T_Failure t) r))).
Proof.
  intros Hc. unfold record_before_outcome, with_cursor.
  rewrite write_failure_overlay, write_failure_cursor, write_failure_ops, write_failure_overlay,
    write_failure_cursor, write_cursor_ops, write_cursor_overlay, write_cursor_twice.
  by rewrite overlay_covered, <-write_cursor_ops.
Qed.

(** A transition without an outcome. *)
Lemma stage_after_record id t sg :
  stage_ok sg → T_Outcome t = None → covers t (sg_cursor sg) →
  read_record id (stage_after t sg) = encoded (record_after t (read_record id sg)).
Proof.
  intros Hok Ho Hc.
  assert (record_after t (read_record id sg) = record_before_outcome t (read_record id sg)) as ->.
  { unfold record_after. by rewrite Ho. }
  unfold read_record at 2. rewrite record_after_covered by done.
  rewrite encoded_overlay, encoded_write_cursor, encoded_write_ops, encoded_write_failure, encoded_stage by done.
  unfold read_record, stage_after, with_cursor. rewrite put_ows_cursor, stage_record_ops. cbn [sg_with sg_cursor].
  change (overlay_cursor (stored_cursor (T_Cursor t))) with (overlay_cursor (T_Cursor t)).
  do 3 f_equal. unfold stage_record. cbn. by destruct (T_Failure t).
Qed.

Lemma stored_op_twice op : stored_op (stored_op op) = stored_op op.
Proof. destruct op as [st at_ [[]|] f o]; done. Qed.
Lemma stored_cursor_twice c : stored_cursor (stored_cursor c) = stored_cursor c.
Proof. destruct c as [p s a [[[] ts dl cc]|] aw na le lr la ua sa]; done. Qed.
Lemma stage_ok_put su op sg : stage_ok sg → stage_ok (put_op su op sg).
Proof.
  intros [Hin Hops Hc]. split; [done| |done]. intros su' op'. cbn.
  rewrite lookup_insert_Some. intros [[_ <-]|[_ Hop]]; [apply stored_op_twice|by eapply Hops].
Qed.
Lemma stage_ok_put_ows ops sg : stage_ok sg → stage_ok (foldl put_ow sg ops).
Proof.
  revert sg; induction ops as [|ow ops IH]; intros sg Hok; [done|]. cbn [foldl]. by apply IH, stage_ok_put.
Qed.
Lemma stage_ok_after t sg : stage_ok sg → stage_ok (stage_after t sg).
Proof.
  intros [Hin Hops Hc]. apply stage_ok_put_ows. split; [done|done|apply stored_cursor_twice].
Qed.
Lemma stage_ok_of rec : stage_ok (stage_of rec).
Proof.
  assert (stage_ok (foldl put_ow (first_stage rec) (run_ows rec))) as [Hin Hops Hc]; [|by split].
  apply stage_ok_put_ows. split; [|intros su op; cbn; by rewrite lookup_empty|apply stored_cursor_twice].
  cbn. by destruct (Run_Input rec) as [[]|].
Qed.

(** A transition with an outcome and nothing in flight: the terminal records are the
    same. *)
Lemma terminal_record_after t oc r :
  T_Outcome t = Some oc → Cursor_StepID (T_Cursor t) = "" → terminal_record r t oc = record_after t r.
Proof.
  intros Ho Hs. unfold terminal_record, record_after. rewrite Ho. unfold overlay_terminal, overlay_cursor.
  rewrite !bool_decide_true by done. rewrite write_failure_cursor, write_failure_ops. done.
Qed.

(** The entry of a run after a transition, in terms of the contract. *)
Lemma entry_after_record id t sg :
  stage_ok sg → covers t (sg_cursor sg) →
  (T_Outcome t ≠ None → Cursor_StepID (T_Cursor t) = "") →
  match entry_after id t sg with
  | Live sg' => read_record id sg' = encoded (record_after t (read_record id sg))
  | Done rec => rec = stored_terminal (record_after t (read_record id sg)) false
  end.
Proof.
  intros Hok Hc Hs. unfold entry_after. destruct (T_Outcome t) as [oc|] eqn:Ho.
  - by rewrite terminal_record_after by auto.
  - by apply stage_after_record.
Qed.

(** A run just created reads back as its record, as far as it is written: a seeded
    operation without a status has no row. *)
Lemma first_record id rec :
  Run_RunID rec = id → Terminal rec = false → Run_Output rec = None →
  Run_Steps rec = ∅ → read_record id (stage_of rec) = encoded rec.
Proof.
  intros <- Hlive Hout Hsteps. apply Terminal_false in Hlive.
  unfold stage_of, run_ows. rewrite Hsteps, map_to_list_empty. cbn [foldl mbind list_bind].
  unfold read_record, with_cursor, overlay_cursor. cbn. unfold encoded. destruct rec. cbn in *. subst.
  unfold set_Steps. cbn. by f_equal.
Qed.
