(* ===== verification/BoltRefine.v ===== *)
(** * BoltRefine: the store over its histories (store/bbolt/store.go)

    [store_history] pairs every store reached from an empty file, reopened any number of
    times, with the view its operations built.  The reads answer from the view; a reap takes the oldest expired runs; a
    drain ends and leaves rows of nonterminal runs only; and the view of a run is the
    record the contract of the store says ([Driver.record_after]), up to what the
    encoding keeps. *)
From S2P Require Import Prelude Kernel Driver MemStore Wire Keys BlobCache Bolt BoltStore.
From S2P Require Import BoltStage BoltRead BoltWrite BoltView BoltOps BoltContract WireSample.
From S2P Require Import BoltSample.
#[local] Open Scope result_scope.

Section history.
Context {B : Type} `{BoltLaws B} `{ProtobufLaws} (blobRowMax : Z).
Context (Hmax : (0 <= blobRowMax)%Z).
Implicit Types (s : BoltStore (B:=B)) (d : DB B) (v : view) (t : Transition).
Abbreviation represents := (represents blobRowMax).
Abbreviation rep := (rep blobRowMax).

(** ** Listing the nonterminal runs *)

Lemma list_heads_view d v ids :
  rep d v → (∀ id, id ∈ ids → ∃ sg, v !! id = Some (Live sg)) →
  list_heads d ids = Ok (omap (λ id, match view_GetRunHead v id with Ok r => Some r | Err _ => None end) ids).
Proof.
  intros Hr. induction ids as [|id ids IH]; intros Hl; [done|]. cbn.
  destruct (Hl id) as [sg Hid]; [by left|].
  rewrite (getHead_view blobRowMax d v id Hr) by by eapply rep_free.
  destruct (view_GetRunHead v id) as [h|e] eqn:Eh; [|by unfold view_GetRunHead in Eh; rewrite Hid in Eh].
  rewrite IH; [done|]. intros id' Hin. apply Hl. by right.
Qed.
Lemma slot_rows d v :
  rep d v → NoDup (row_value <$> (Rows (db_slots d)).*2) ∧
  ∀ id, id ∈ (row_value <$> (Rows (db_slots d)).*2) ↔ ∃ sg, v !! id = Some (Live sg).
Proof.
  intros Hr.
  assert (∀ k c, (k, c) ∈ Rows (db_slots d) → ∃ sg, v !! row_value c = Some (Live sg) ∧ stage_slot sg = k) as Hrow.
  { intros k c Hin%Rows_cells. destruct c as [id|n]; [|by destruct (proj2 (rep_slots_of _ _ _ Hr) k n)].
    apply (rep_slots _ _ _ Hr). by rewrite Get_cells, Hin. }
  pose proof (sorted_NoDup _ (Rows_sorted (db_slots d))) as Hnd. split.
  - induction (Rows (db_slots d)) as [|[k c] rows IH]; [constructor|]. cbn in *.
    apply NoDup_cons in Hnd as [Hin Hnd]. constructor.
    + intros Hc. apply Hin. apply list_elem_of_fmap in Hc as (c' & Ec & Hc').
      apply list_elem_of_fmap in Hc' as ([k' c''] & -> & Hc').
      destruct (Hrow k c) as (sg & Hid & <-); [by left|].
      destruct (Hrow k' c'') as (sg' & Hid' & <-); [by right|]. cbn in Ec. rewrite Ec in Hid.
      assert (sg' = sg) as -> by congruence. apply elem_of_fst. by eexists.
    + apply IH; [|done]. intros k' c' Hc'. apply Hrow. by right.
  - intros id. split.
    + intros Hin. apply list_elem_of_fmap in Hin as (c & -> & Hin).
      apply list_elem_of_fmap in Hin as ([k c'] & -> & Hin). destruct (Hrow _ _ Hin) as (sg & ? & _).
      by exists sg.
    + intros [sg Hid]. assert (Get (db_slots d) (stage_slot sg) = Some id) as Hg.
      { apply (rep_slots _ _ _ Hr). by exists sg. }
      rewrite Get_cells in Hg. destruct (cells (db_slots d) (stage_slot sg)) as [[w|]|] eqn:E; simplify_eq.
      apply list_elem_of_fmap. exists (Row id). split; [done|].
      apply list_elem_of_fmap. exists (stage_slot sg, Row id). split; [done|]. by apply Rows_cells.
Qed.

(** ** Draining *)

Lemma drain_staged_cells d d' ids k :
  drain_ids d ids = Ok d' →
  cells (db_staged d') k = if decide (k ∈ ids) then None else cells (db_staged d) k.
Proof.
  revert d; induction ids as [|k0 ids IH]; intros d Hd; cbn in Hd.
  { injection Hd as <-. by rewrite decide_False by apply not_elem_of_nil. }
  apply let_Ok in Hd as (d1 & Hd1 & Hd). apply let_Ok in Hd as (st & Hst%bolt_Ok%Delete_set & Hd).
  apply deleteNonterminalStage_cells in Hd1 as [[_ _ _ _ Es _] _]. rewrite Es in Hst.
  rewrite (IH _ Hd). cbn. destruct (decide (k ∈ ids)) as [Hin|Hin].
  - by rewrite decide_True by (by right).
  - rewrite (Hst k). destruct (decide (k = k0)) as [->|Hne].
    + by rewrite decide_True by (by left).
    + by rewrite decide_False by (by intros [?|?]%elem_of_cons).
Qed.
Lemma drop_NoDup_elem {A} (l : list A) n x : NoDup l → x ∈ drop n l ↔ x ∈ l ∧ x ∉ take n l.
Proof.
  intros Hnd. rewrite <-(take_drop n l) in Hnd. apply NoDup_app in Hnd as (_ & Hd & _).
  rewrite <-(take_drop n l) at 2. rewrite elem_of_app. naive_solver.
Qed.
(** A drain takes the first rows of the staged bucket. *)
Lemma drainStaged_rows d d' n m :
  drainStaged d n = Ok (d', m) →
  (Rows (db_staged d')).*1 = drop n (Rows (db_staged d)).*1 ∧ m = min n (length (Rows (db_staged d))).
Proof.
  intros Hd. unfold drainStaged in Hd. apply let_Ok in Hd as (d1 & Hd1 & Hd). injection Hd as <- <-.
  split; [|by rewrite length_take, length_fmap]. pose proof (Rows_sorted (db_staged d)) as Hs.
  apply sorted_unique.
  - apply Rows_sorted.
  - rewrite <-(take_drop n (Rows (db_staged d)).*1) in Hs. by apply StronglySorted_app_1_r in Hs.
  - intros k. rewrite drop_NoDup_elem by by apply sorted_NoDup. rewrite !elem_of_fst.
    setoid_rewrite Rows_cells. rewrite (drain_staged_cells _ _ _ k Hd1).
    destruct (decide (k ∈ _)) as [Hin|Hin]; [|by naive_solver].
    split; [by intros []|by intros [_ []]].
Qed.

Lemma Drain_view fuel s s' v r :
  represents s v → Drain fuel s = Some (s', r) → represents s' v.
Proof.
  revert s; induction fuel as [|fuel IH]; intros s Hs Hd; [done|]. cbn in Hd.
  destruct (drainStaged (bo_db s) stageDrainPerSweep) as [[d n]|e] eqn:E; [|by injection Hd as <- _].
  assert (represents (mkBolt d (bo_staged s - Z.of_nat n) (bo_caches s)) v) as Hs'.
  { split; cbn; [by eapply rep_drainStaged; [apply Hs|]|apply Hs]. }
  case_bool_decide; [by injection Hd as <- _|by eapply IH].
Qed.
(** Enough fuel: a sweep that is full takes [stageDrainPerSweep] runs. *)
Lemma Drain_ends fuel s :
  length (Rows (db_staged (bo_db s))) < fuel * stageDrainPerSweep → is_Some (Drain fuel s).
Proof.
  revert s; induction fuel as [|fuel IH]; intros s Hl; [lia|]. cbn.
  destruct (drainStaged (bo_db s) stageDrainPerSweep) as [[d n]|e] eqn:E; [|by eexists].
  case_bool_decide as Hn; [by eexists|]. apply IH. cbn [bo_db].
  apply drainStaged_rows in E as [E ->]. apply (f_equal length) in E.
  rewrite length_drop, !length_fmap in E. unfold stageDrainPerSweep in *. lia.
Qed.
Lemma Drain_empties fuel s s' :
  Drain fuel s = Some (s', Ok tt) → ∀ k, cells (db_staged (bo_db s')) k = None.
Proof.
  revert s; induction fuel as [|fuel IH]; intros s Hd; [done|]. cbn in Hd.
  destruct (drainStaged (bo_db s) stageDrainPerSweep) as [[d n]|e] eqn:E; [|done].
  case_bool_decide as Hn; [|by eapply IH]. injection Hd as <-. cbn [bo_db].
  apply drainStaged_rows in E as [E ->]. intros k.
  destruct (cells (db_staged d) k) as [c|] eqn:Ec; [exfalso|done].
  assert (k ∈ (Rows (db_staged d)).*1) as Hin by (apply elem_of_fst; exists c; by apply Rows_cells).
  rewrite E, drop_ge in Hin; [by apply not_elem_of_nil in Hin|].
  rewrite length_fmap. unfold stageDrainPerSweep in *. lia.
Qed.

(** ** Histories *)

(** A fresh file. *)
Definition fresh (d : DB B) : Prop :=
  ∀ b, b ∈ [db_active d; db_cursor d; db_terminal d; db_expiry d; db_staged d; db_slots d] →
  ∀ k, cells b k = None.

(** The view after an operation, by its answer. *)
Definition after_create (rec : RunRecord) (v : view) (r : result StoreError (option RunRecord * bool))
    : view :=
  match r with Ok (None, _) => <[Run_RunID rec := Live (stage_of rec)]> v | _ => v end.
Definition after_apply (id : RunID) (t : Transition) (v : view) (r : result StoreError unit) : view :=
  match r, v !! id with Ok _, Some (Live sg) => <[id := entry_after id t sg]> v | _, _ => v end.
Definition after_cancel (id : RunID) (c : CancelRequest) (v : view) (r : result StoreError bool) : view :=
  match r, v !! id with Ok true, Some (Live sg) => <[id := Live (with_cancel c sg)]> v | _, _ => v end.
Definition after_reap (s : BoltStore (B:=B)) (before : Time) (limit : Z) (v : view)
    (r : result StoreError Z) : view :=
  match r with
  | Ok _ => reaped v (reap_victims limit (expiryPrefix before) (Rows (db_expiry (bo_db s))))
  | Err _ => v
  end.

(** The stores reached from a fresh file, with the view each represents.  A run is
    created under a new id; the operations of a transition can be keyed.  At any moment
    the process may end, and its file be opened again. *)
Inductive store_history : BoltStore (B:=B) → view → Prop :=
| h_open d blobs outputs : fresh d → store_history (opened d blobs outputs) ∅
| h_create s v rec ps : store_history s v → seed_ok rec → v !! Run_RunID rec = None →
    store_history (bolt_CreateRun blobRowMax s rec ps).1
      (after_create rec v (bolt_CreateRun blobRowMax s rec ps).2)
| h_apply s v id t : store_history s v → free id → Forall ow_ok (T_Ops t) →
    store_history (bolt_ApplyTransition blobRowMax s id t).1
      (after_apply id t v (bolt_ApplyTransition blobRowMax s id t).2)
| h_cancel s v id c : store_history s v → free id →
    store_history (bolt_RequestCancel s id c).1 (after_cancel id c v (bolt_RequestCancel s id c).2)
| h_read s v id : store_history s v → free id → store_history (bolt_GetRun s id).1 v
| h_reap s v before limit : store_history s v →
    store_history (bolt_ReapTerminal s before limit).1
      (after_reap s before limit v (bolt_ReapTerminal s before limit).2)
| h_drain s v fuel s' r : store_history s v → Drain fuel s = Some (s', r) → store_history s' v
| h_reopen s v blobs outputs : store_history s v → store_history (opened (bo_db s) blobs outputs) v.

Lemma opened_caches v blobs outputs : rep_caches blobRowMax (mkCaches (newBlobCache blobs) (newBlobCache outputs)) v.
Proof.
  split; cbn; [apply new_cache_ok|apply new_cache_ok| |]; by intros id rb; cbn; rewrite lookup_empty.
Qed.

Lemma opened_represents d blobs outputs : fresh d → represents (opened d blobs outputs) ∅.
Proof.
  intros Hf.
  assert (∀ b k, b ∈ [db_active d; db_cursor d; db_terminal d; db_expiry d; db_staged d; db_slots d] →
    is_Some (cells b k) → False) as Hn by (intros b k Hb; rewrite (Hf b Hb k); by intros []).
  split; [split; cbn|apply opened_caches].
  - by intros id e; rewrite lookup_empty.
  - by intros id sg; rewrite lookup_empty.
  - by intros id rec; rewrite lookup_empty.
  - intros k Hk. exfalso. eapply Hn, Hk. set_solver.
  - intros k Hk. exfalso. eapply Hn, Hk. set_solver.
  - intros k Hk. exfalso. eapply Hn, Hk. set_solver.
  - intros k Hk. exfalso. eapply Hn, Hk. set_solver.
  - intros k Hk. exfalso. eapply Hn, Hk. set_solver.
  - split; [|intros k n; rewrite (Hf (db_slots d)); [done|set_solver]]. intros k id.
    rewrite Get_cells, (Hf (db_slots d)) by set_solver. split; [done|].
    intros (sg & Hid & _). by rewrite lookup_empty in Hid.
Qed.

Lemma history_represents s v : store_history s v → represents s v.
Proof.
  induction 1 as [d bl ol Hf|s v rec ps _ IH Hseed Hid|s v id t _ IH Hf Hops|s v id c _ IH Hf|s v id _ IH Hf
    |s v before limit _ IH|s v fuel s' r _ IH Hd|s v bl ol _ IH].
  - by apply opened_represents.
  - destruct (bolt_CreateRun blobRowMax s rec ps) as [s' r] eqn:E. cbn.
    pose proof (bolt_Create_view blobRowMax Hmax _ _ _ _ _ _ IH Hseed Hid E) as Hv.
    destruct r as [[[existing|] created]|e]; cbn; tauto.
  - destruct (bolt_ApplyTransition blobRowMax s id t) as [s' r] eqn:E. cbn.
    pose proof (bolt_Apply_view blobRowMax Hmax _ _ _ _ _ _ IH Hf Hops E) as Hv.
    destruct r; [|done]. destruct Hv as (sg & Hid & Hv & _). cbn. by rewrite Hid.
  - destruct (bolt_RequestCancel s id c) as [s' r] eqn:E. cbn.
    pose proof (bolt_Cancel_view blobRowMax _ _ _ _ _ _ IH Hf E) as Hv.
    destruct r as [accepted|]; [|by rewrite Hv]. destruct Hv as (sg & Hid & -> & Hv). cbn.
    rewrite Hid. by destruct (bool_decide _).
  - by apply bolt_GetRun_view.
  - destruct (bolt_ReapTerminal s before limit) as [s' r] eqn:E. cbn.
    destruct (bolt_Reap_keys blobRowMax _ _ _ _ _ _ IH E) as [_ Hv].
    destruct r; cbn; tauto.
  - by eapply Drain_view.
  - split; [apply IH|apply opened_caches].
Qed.

(** The stages of a history are encoded. *)
Definition stages_ok (v : view) : Prop := ∀ id sg, v !! id = Some (Live sg) → stage_ok sg.
Lemma stages_ok_insert v id e :
  stages_ok v → (∀ sg, e = Live sg → stage_ok sg) → stages_ok (<[id := e]> v).
Proof. intros Hv He id' sg [[<- ->]|[_ Hid]]%lookup_insert_Some; [by apply He|by eapply Hv]. Qed.
Lemma reaped_sub v ks id e : reaped v ks !! id = Some e → v !! id = Some e.
Proof.
  revert v; induction ks as [|k ks IH]; intros v; [done|]. unfold reaped. cbn. intros Hid.
  apply IH in Hid. by apply lookup_delete_Some in Hid as [_ ?].
Qed.
Lemma history_stages_ok s v : store_history s v → stages_ok v.
Proof.
  induction 1 as [d bl ol Hf|s v rec ps _ IH Hseed Hid|s v id t _ IH Hf Hops|s v id c _ IH Hf|s v id _ IH Hf
    |s v before limit _ IH|s v fuel s' r _ IH Hd|s v bl ol _ IH]; try done.
  - unfold after_create. destruct (bolt_CreateRun _ _ _ _).2 as [[[]]|]; try done.
    apply stages_ok_insert; [done|]. intros sg [= <-]. apply stage_ok_of.
  - unfold after_apply. destruct (bolt_ApplyTransition _ _ _ _).2; [|done].
    destruct (v !! id) as [[sg|]|] eqn:Hid; [|done..]. apply stages_ok_insert; [done|].
    intros sg' E. unfold entry_after in E. destruct (T_Outcome t); [done|]. injection E as <-.
    apply stage_ok_after. by eapply IH.
  - unfold after_cancel. destruct (bolt_RequestCancel _ _ _).2 as [[]|]; [|done..].
    destruct (v !! id) as [[sg|]|] eqn:Hid; [|done..]. apply stages_ok_insert; [done|].
    intros sg' [= <-]. destruct (IH _ _ Hid). by split.
  - unfold after_reap. destruct (bolt_ReapTerminal _ _ _).2; [|done]. intros id sg Hid.
    apply reaped_sub in Hid. by eapply IH.
Qed.

(** ** Properties *)

Lemma GetRun_history s v id : store_history s v → free id → (bolt_GetRun s id).2 = view_GetRun v id.
Proof. intros Hs Hf. by apply (bolt_GetRun_view blobRowMax Hmax); [apply history_represents|]. Qed.

Lemma GetActiveRunID_history s v p res id :
  store_history s v → bolt_GetActiveRunID s p res = Ok (Some id) ↔ occupies v p res id.
Proof.
  intros Hs. unfold bolt_GetActiveRunID, occupies.
  rewrite <-(rep_slots _ _ _ (rs_db _ _ _ (history_represents _ _ Hs))).
  split; [by intros [= ->]|by intros ->].
Qed.

Lemma heads_of v ids heads :
  heads = omap (λ id, match view_GetRunHead v id with Ok r => Some r | Err _ => None end) ids →
  (∀ id, id ∈ ids → ∃ sg, v !! id = Some (Live sg)) →
  Forall2 (λ id h, view_GetRunHead v id = Ok h) ids heads.
Proof.
  intros ->. induction ids as [|id ids IH]; intros Hl; [constructor|]. cbn.
  destruct (Hl id) as [sg Hid]; [by left|].
  destruct (view_GetRunHead v id) as [h|e] eqn:Eh; [|by unfold view_GetRunHead in Eh; rewrite Hid in Eh].
  constructor; [done|]. apply IH. intros id' Hin. apply Hl. by right.
Qed.

(** C4: Over every history of the store, cached or not, drained or not, [GetRun] answers
    the record the history's writes amount to, [GetRunHead] its head, [GetActiveRunID]
    the nonterminal run of the slot and [ListNonterminal] every nonterminal run once. *)
Theorem reads_answer_history s v :
  store_history s v →
  (∀ id, free id → (bolt_GetRun s id).2 = view_GetRun v id ∧ bolt_GetRunHead s id = view_GetRunHead v id) ∧
  (∀ p res id, bolt_GetActiveRunID s p res = Ok (Some id) ↔ occupies v p res id) ∧
  ∃ ids heads, bolt_ListNonterminal s = Ok heads ∧ NoDup ids ∧
    (∀ id, id ∈ ids ↔ ∃ sg, v !! id = Some (Live sg)) ∧
    Forall2 (λ id h, view_GetRunHead v id = Ok h) ids heads.
Proof.
  intros Hs. pose proof (history_represents _ _ Hs) as Hr. split_and!.
  - intros id Hf. split; [by apply GetRun_history|]. by eapply bolt_GetRunHead_view.
  - intros p res id. by apply GetActiveRunID_history.
  - destruct (slot_rows _ _ (rs_db _ _ _ Hr)) as [Hnd Hids].
    set (ids := row_value <$> (Rows (db_slots (bo_db s))).*2) in *.
    assert (∀ id, id ∈ ids → ∃ sg, v !! id = Some (Live sg)) as Hl by (intros id Hin; by apply Hids).
    eexists ids, _. split_and!; [by apply (list_heads_view _ v), Hl; apply Hr|done|done|by apply heads_of].
Qed.

Lemma after_apply_other id t v r id' : id' ≠ id → after_apply id t v r !! id' = v !! id'.
Proof.
  intros Hne. unfold after_apply. destruct r; [|done]. destruct (v !! id) as [[sg|]|]; [|done..].
  by rewrite lookup_insert_ne.
Qed.
Lemma view_GetRun_lookup v v' id : v !! id = v' !! id → view_GetRun v id = view_GetRun v' id.
Proof. intros E. unfold view_GetRun. by rewrite E. Qed.
Lemma record_after_live id sg : Terminal (read_record id sg) = false.
Proof.
  apply Terminal_false. unfold read_record, with_cursor, overlay_cursor. by case_bool_decide.
Qed.

(** C3: A transition the store takes reads back as the contract of the store says: the
    record [record_after] gives, up to what the encoding keeps, and the terminal one
    when it has an outcome; the other runs read as before, and a transition refused
    changes no run.  The transition has to cover the operation in flight, and one with an
    outcome has a cursor that names no step, as the engine's terminal commits have
    ([idleCursor]); [terminal_overlay_diverges] shows the two stores differ otherwise. *)
Theorem transition_follows_contract s v id t s' r :
  store_history s v → free id → Forall ow_ok (T_Ops t) →
  (∀ sg, v !! id = Some (Live sg) → covers t (sg_cursor sg)) →
  (T_Outcome t ≠ None → Cursor_StepID (T_Cursor t) = "") →
  bolt_ApplyTransition blobRowMax s id t = (s', r) →
  match r with
  | Ok _ => ∃ rec, (bolt_GetRun s id).2 = Ok rec ∧ Terminal rec = false ∧
      (bolt_GetRun s' id).2 =
        Ok (match T_Outcome t with
            | None => encoded (record_after t rec)
            | Some _ => stored_terminal (record_after t rec) false
            end)
  | Err _ => (bolt_GetRun s' id).2 = (bolt_GetRun s id).2
  end ∧ ∀ id', free id' → id' ≠ id → (bolt_GetRun s' id').2 = (bolt_GetRun s id').2.
Proof.
  intros Hs Hf Hops Hc Ho Happ. pose proof (h_apply s v id t Hs Hf Hops) as Hs'.
  pose proof (bolt_Apply_view blobRowMax Hmax _ _ _ _ _ _ (history_represents _ _ Hs) Hf Hops Happ) as Hv.
  rewrite Happ in Hs'. cbn [fst snd] in Hs'. split.
  - rewrite !(GetRun_history _ _ id Hs), !(GetRun_history _ _ id Hs') by done. destruct r as [[]|e]; [|done].
    destruct Hv as (sg & Hid & _ & _). exists (read_record id sg).
    unfold view_GetRun, after_apply. rewrite Hid, lookup_insert_eq.
    split; [done|]. split; [apply record_after_live|].
    pose proof (entry_after_record id t sg (history_stages_ok _ _ Hs _ _ Hid) (Hc _ Hid) Ho) as He.
    unfold entry_after in *. destruct (T_Outcome t); by rewrite He.
  - intros id' Hf' Hne. rewrite (GetRun_history _ _ id' Hs), (GetRun_history _ _ id' Hs') by done.
    by apply view_GetRun_lookup, after_apply_other.
Qed.

Lemma read_record_cancel id sg : Run_Cancel (read_record id sg) = sg_cancel sg.
Proof. unfold read_record, with_cursor, overlay_cursor. by case_bool_decide. Qed.
Lemma read_with_cancel id c sg : read_record id (with_cancel c sg) = set_Cancel (Some c) (read_record id sg).
Proof. unfold read_record, with_cursor, overlay_cursor. cbn. by case_bool_decide. Qed.

(** The first cancel request wins: it is accepted exactly when the run has none, a
    request on a run that has one is answered false and changes nothing, and it reads
    back on the run. *)
Theorem first_cancel_wins s v id c s' accepted :
  store_history s v → free id → bolt_RequestCancel s id c = (s', Ok accepted) →
  ∃ rec, (bolt_GetRun s id).2 = Ok rec ∧ Terminal rec = false ∧
    accepted = bool_decide (Run_Cancel rec = None) ∧
    (bolt_GetRun s' id).2 = Ok (if accepted then set_Cancel (Some c) rec else rec).
Proof.
  intros Hs Hf Hq. pose proof (h_cancel s v id c Hs Hf) as Hs'. rewrite Hq in Hs'. cbn [fst snd] in Hs'.
  destruct (bolt_Cancel_view blobRowMax _ _ _ _ _ _ (history_represents _ _ Hs) Hf Hq) as (sg & Hid & Hacc & _).
  exists (read_record id sg). rewrite (GetRun_history _ _ id Hs), (GetRun_history _ _ id Hs') by done.
  unfold view_GetRun, after_cancel. rewrite Hid.
  rewrite read_record_cancel. split_and!; [done|apply record_after_live|done|].
  destruct accepted; [|by rewrite Hid]. by rewrite lookup_insert_eq, read_with_cancel.
Qed.

Lemma reaped_lookup v ks id : reaped v ks !! id = if decide (id ∈ key_run <$> ks) then None else v !! id.
Proof.
  revert v; induction ks as [|k ks IH]; intros v; [by rewrite decide_False by apply not_elem_of_nil|].
  unfold reaped. cbn [foldl fmap list_fmap]. fold (reaped (delete (key_run k) v) ks). rewrite IH.
  destruct (decide (id ∈ key_run <$> ks)) as [Hin|Hin]; [by rewrite decide_True by (by right)|].
  destruct (decide (id = key_run k)) as [->|Hne].
  - by rewrite lookup_delete_eq, decide_True by (by left).
  - rewrite lookup_delete_ne by done. by rewrite decide_False by (by intros [?|?]%elem_of_cons).
Qed.
Definition expired (v : view) (before : Time) (id : RunID) : Prop :=
  ∃ rec, v !! id = Some (Done rec) ∧ (Run_UpdatedAt rec < before)%Z.
Definition all_dated (v : view) (before : Time) : Prop :=
  dated before ∧ ∀ id rec, v !! id = Some (Done rec) → dated (Run_UpdatedAt rec).

(** C24: A reap takes the oldest terminal runs committed before the cutoff, as many as
    its limit lets it, counts them, and takes nothing else. *)
Theorem reap_takes_oldest s v before limit s' n :
  store_history s v → all_dated v before →
  bolt_ReapTerminal s before limit = (s', Ok n) →
  ∃ ids, NoDup ids ∧ n = Z.of_nat (length ids) ∧ (n <= Z.max 0 limit)%Z ∧
    (∀ id, id ∈ ids → expired v before id) ∧
    ((n < limit)%Z → ∀ id, expired v before id → id ∈ ids) ∧
    (∀ id id' rec rec', id ∈ ids → id' ∉ ids → v !! id = Some (Done rec) → v !! id' = Some (Done rec') →
      (Run_UpdatedAt rec <= Run_UpdatedAt rec')%Z) ∧
    ∀ id, free id → (bolt_GetRun s' id).2 =
      if decide (id ∈ ids) then Err ErrRunNotFound else (bolt_GetRun s id).2.
Proof.
  intros Hs [Hb Hd] Hreap. pose proof (h_reap s v before limit Hs) as Hs'. rewrite Hreap in Hs'.
  cbn [fst snd after_reap] in Hs'. pose proof (history_represents _ _ Hs) as [Hr _].
  destruct (bolt_Reap_keys blobRowMax _ _ _ _ _ _ (history_represents _ _ Hs) Hreap) as [(Eks & Hnd & Hks) [-> _]].
  set (ks := reap_victims limit (expiryPrefix before) (Rows (db_expiry (bo_db s)))) in *.
  set (old := filter (λ k, key_lt (take 8 k) (expiryPrefix before) = true) (Rows (db_expiry (bo_db s))).*1) in *.
  assert (∀ id rec, v !! id = Some (Done rec) →
    (expiryKey (Run_UpdatedAt rec) id ∈ old ↔ (Run_UpdatedAt rec < before)%Z)) as Hold.
  { intros id rec Hid. unfold old. rewrite list_elem_of_filter, take_expiry, (expiryPrefix_lt _ _ (Hd id rec Hid) Hb).
    rewrite Z.ltb_lt, elem_of_fst. split; [tauto|]. intros Hlt. split; [done|].
    destruct (proj2 (rep_done _ _ _ Hr _ _ Hid)) as [c Hc]. exists c. by apply Rows_cells. }
  assert (∀ id rec, v !! id = Some (Done rec) → (id ∈ key_run <$> ks ↔ expiryKey (Run_UpdatedAt rec) id ∈ ks)) as Hin.
  { intros id rec Hid. rewrite list_elem_of_fmap. split.
    - intros (k & -> & Hk). destruct (Hks _ Hk) as (id' & rec' & Hid' & ->). rewrite key_run_expiry in *.
      by assert (rec' = rec) as <- by congruence.
    - intros Hk. eexists. split; [|done]. by rewrite key_run_expiry. }
  exists (key_run <$> ks). rewrite length_fmap. split_and!; [|done| | | | |].
  - apply NoDup_fmap_2_strong; [|done]. intros k k' Hk Hk'. destruct (Hks _ Hk) as (i & r1 & Hi & ->),
      (Hks _ Hk') as (i' & r2 & Hi' & ->). rewrite !key_run_expiry. intros ->. congruence.
  - rewrite Eks, length_take. lia.
  - intros id Hid. pose proof Hid as (k & -> & Hk)%list_elem_of_fmap.
    destruct (Hks _ Hk) as (i & rec & Hi & ->). rewrite key_run_expiry. exists rec. split; [done|].
    apply (Hold i rec Hi). rewrite Eks in Hk. by apply elem_of_take in Hk as (j & Hk%list_elem_of_lookup_2 & _).
  - intros Hlt id (rec & Hid & Hbef). apply (Hin id rec Hid). rewrite Eks, take_ge; [by apply Hold|].
    rewrite Eks, length_take in Hlt. lia.
  - intros id id' rec rec' Hi Hi' Hid Hid'. apply (Hin _ _ Hid) in Hi. rewrite (Hin _ _ Hid') in Hi'.
    destruct (Z.le_gt_cases (Run_UpdatedAt rec) (Run_UpdatedAt rec')) as [|Hgt]; [done|exfalso].
    assert (expiryKey (Run_UpdatedAt rec) id ∈ old) as Hk.
    { rewrite Eks in Hi. by apply elem_of_take in Hi as (j & Hk%list_elem_of_lookup_2 & _). }
    apply (Hold _ _ Hid) in Hk. assert (expiryKey (Run_UpdatedAt rec') id' ∈ old) as Hk' by (apply Hold; [done|lia]).
    rewrite <-(take_drop (Z.to_nat limit) old), <-Eks in Hk'. apply elem_of_app in Hk' as [?|Hk']; [done|].
    assert (StronglySorted (λ a a', key_lt a a' = true) old) as Hsort.
    { apply filter_keys_sorted, Rows_sorted. }
    rewrite <-(take_drop (Z.to_nat limit) old), <-Eks in Hsort.
    pose proof (StronglySorted_app_1_elem_of _ _ _ _ _ Hsort Hi Hk') as Hlt.
    assert (key_lt (expiryKey (Run_UpdatedAt rec') id') (expiryKey (Run_UpdatedAt rec) id) = true) as Hx.
    { apply expiryKey_lt. rewrite (expiryPrefix_lt _ _ (Hd _ _ Hid') (Hd _ _ Hid)). by apply Z.ltb_lt. }
    exact (eq_true_false_abs _ Hlt (key_lt_asym _ _ Hx)).
  - intros id Hf. rewrite (GetRun_history _ _ id Hs), (GetRun_history _ _ id Hs') by done.
    unfold view_GetRun. rewrite reaped_lookup. by destruct (decide _).
Qed.

(** The sweeps a drain needs: one more than the full ones. *)
Definition sweeps s : nat := S (length (Rows (db_staged (bo_db s))) / stageDrainPerSweep).
Lemma Drain_within_sweeps s : is_Some (Drain (sweeps s) s).
Proof.
  apply Drain_ends. unfold sweeps.
  pose proof (Nat.div_mod_eq (length (Rows (db_staged (bo_db s)))) stageDrainPerSweep).
  pose proof (Nat.mod_upper_bound (length (Rows (db_staged (bo_db s)))) stageDrainPerSweep).
  unfold stageDrainPerSweep in *. lia.
Qed.
(** Only nonterminal runs have rows. *)
Definition lean (v : view) (d : DB B) : Prop :=
  (∀ k, is_Some (cells (db_active d) k) → ∃ id sg, v !! id = Some (Live sg) ∧ run_key id k) ∧
  (∀ k, is_Some (cells (db_cursor d) k) → ∃ id sg, v !! id = Some (Live sg) ∧ k = bs id).
Lemma drained_lean s v :
  store_history s v → (∀ k, cells (db_staged (bo_db s)) k = None) → lean v (bo_db s).
Proof.
  intros Hs He. pose proof (rs_db _ _ _ (history_represents _ _ Hs)) as Hr. split; intros k Hk.
  - destruct (rep_active _ _ _ Hr k Hk) as (id & [sg|rec] & Hid & Hk' & Hst); [by exists id, sg|].
    destruct (Hst rec eq_refl) as [c Hc]. by rewrite He in Hc.
  - destruct (rep_cursor _ _ _ Hr k Hk) as (id & [sg|rec] & Hid & Hk' & Hst); [by exists id, sg|].
    destruct (Hst rec eq_refl) as [c Hc]. by rewrite He in Hc.
Qed.

(** C25: A drain ends, changes no read, and unless the database fails leaves no row and
    no cursor of a run that is over: only nonterminal runs have rows. *)
Theorem drain_frees_stages s v :
  store_history s v →
  ∃ s' r, Drain (sweeps s) s = Some (s', r) ∧
    (∀ id, free id → (bolt_GetRun s' id).2 = (bolt_GetRun s id).2) ∧
    (r = Ok tt → lean v (bo_db s')).
Proof.
  intros Hs. destruct (Drain_within_sweeps s) as [[s' r] Hd].
  pose proof (h_drain s v _ s' r Hs Hd) as Hs'. exists s', r. split; [done|]. split.
  { intros id Hf. by rewrite (GetRun_history _ _ id Hs), (GetRun_history _ _ id Hs'). }
  intros ->. by apply drained_lean, (Drain_empties _ _ _ Hd).
Qed.
End history.

(** ** Examples *)

Definition ex_empty : DB bucket :=
  mkDB (mkBucket ∅) (mkBucket ∅) (mkBucket ∅) (mkBucket ∅) (mkBucket ∅) (mkBucket ∅).
Definition ex_noon : Time := (unix_epoch + 5 * second)%Z.
Definition ex_rec (id : RunID) : RunRecord :=
  mkRun id "p" "res" {["team" := "a"]} (Some "a long input") PhaseForward ∅ None None None 0 None None
    "" "" 0 None ex_noon ex_noon 0.
Definition ex_at (step : StepID) (attempts : Z) : Cursor :=
  mkCursor PhaseForward step attempts None None 0 "" "" 0 ex_noon ex_noon.
Definition ex_start : Transition := mkTransition (ex_at "one" 1) [] None None None.
Definition ex_resolve : Transition :=
  mkTransition (ex_at "" 0)
    [mkOpWrite "one" PhaseForward (mkOp OpSucceeded 1 (Some "a large state") None 1)] None None None.
Definition ex_end : Transition :=
  mkTransition (mkCursor PhaseDone "" 0 None None 0 "" "" 0 ex_noon ex_noon) [] None
    (Some "a large output") (Some OutcomeSuccess).

Definition ex_s0 : BoltStore (B:=bucket) := opened ex_empty 100 100.
Definition ex_s1 := (bolt_CreateRun 8 ex_s0 (ex_rec "r1") ["q"]).1.
Definition ex_s2 := (bolt_ApplyTransition 8 ex_s1 "r1" ex_start).1.
Definition ex_s3 := (bolt_ApplyTransition 8 ex_s2 "r1" ex_resolve).1.
Definition ex_s4 := (bolt_ApplyTransition 8 ex_s3 "r1" ex_end).1.
Definition ex_v1 : view := after_create (ex_rec "r1") ∅ (bolt_CreateRun 8 ex_s0 (ex_rec "r1") ["q"]).2.
Definition ex_v2 : view := after_apply "r1" ex_start ex_v1 (bolt_ApplyTransition 8 ex_s1 "r1" ex_start).2.
Definition ex_v3 : view := after_apply "r1" ex_resolve ex_v2 (bolt_ApplyTransition 8 ex_s2 "r1" ex_resolve).2.
Definition ex_v4 : view := after_apply "r1" ex_end ex_v3 (bolt_ApplyTransition 8 ex_s3 "r1" ex_end).2.

#[export] Instance free_dec id : Decision (free id).
Proof. unfold free. apply _. Defined.
#[export] Instance ow_ok_dec ow : Decision (ow_ok ow).
Proof. unfold ow_ok, order_ok. apply _. Defined.
Lemma ex_fresh : fresh ex_empty.
Proof. intros b Hb k. unfold ex_empty in Hb. cbn in Hb. set_unfold. by destruct_or!; subst. Qed.
Lemma ex_seed : seed_ok (ex_rec "r1").
Proof.
  split; [by apply (bool_decide_unpack _)|done|by apply (bool_decide_unpack _); vm_compute|].
  intros sid sr. cbn. by rewrite lookup_empty.
Qed.
Lemma ex_history1 : store_history 8 ex_s1 ex_v1.
Proof. apply h_create; [apply h_open, ex_fresh|apply ex_seed|done]. Qed.
Lemma ex_apply s v t :
  Forall ow_ok (T_Ops t) → store_history 8 s v →
  store_history 8 (bolt_ApplyTransition 8 s "r1" t).1
    (after_apply "r1" t v (bolt_ApplyTransition 8 s "r1" t).2).
Proof. intros Ht Hs. apply h_apply; [done| |done]. by apply (bool_decide_unpack _). Qed.
Lemma ex_resolve_ok : Forall ow_ok (T_Ops ex_resolve).
Proof. by apply (bool_decide_unpack _); vm_compute. Qed.
Lemma ex_history2 : store_history 8 ex_s2 ex_v2.
Proof. apply ex_apply; [constructor|apply ex_history1]. Qed.
Lemma ex_history3 : store_history 8 ex_s3 ex_v3.
Proof. apply ex_apply; [apply ex_resolve_ok|apply ex_history2]. Qed.
Lemma ex_history4 : store_history 8 ex_s4 ex_v4.
Proof. apply ex_apply; [constructor|apply ex_history3]. Qed.
Lemma ex_max : (0 <= 8)%Z.
Proof. done. Qed.
Lemma ex_free : free "r1".
Proof. by apply (bool_decide_unpack _). Qed.

Lemma reads_answer_history_witness :
  store_history 8 ex_s3 ex_v3 ∧ (bolt_GetRun ex_s3 "r1").2 = view_GetRun ex_v3 "r1" ∧
  is_Some (ex_v3 !! "r1").
Proof.
  split_and!; [apply ex_history3| |vm_compute; by eexists].
  apply (reads_answer_history 8 ex_max ex_s3 ex_v3 ex_history3). apply ex_free.
Defined.
Lemma transition_follows_contract_witness :
  (∃ rec, (bolt_GetRun ex_s2 "r1").2 = Ok rec ∧
    (bolt_GetRun ex_s3 "r1").2 = Ok (encoded (record_after ex_resolve rec))) ∧
  (∃ rec, (bolt_GetRun ex_s3 "r1").2 = Ok rec ∧ T_Outcome ex_end = Some OutcomeSuccess ∧
    (bolt_GetRun ex_s4 "r1").2 = Ok (stored_terminal (record_after ex_end rec) false)).
Proof.
  split.
  - destruct (transition_follows_contract 8 ex_max ex_s2 ex_v2 "r1" ex_resolve ex_s3 (Ok tt) ex_history2 ex_free
      ex_resolve_ok) as [(rec & Hr & _ & Hr') _].
    + intros sg Hid. right. left. eexists. split; [by left|]. vm_compute in Hid. by injection Hid as <-.
    + done.
    + vm_compute. reflexivity.
    + exists rec. by split.
  - destruct (transition_follows_contract 8 ex_max ex_s3 ex_v3 "r1" ex_end ex_s4 (Ok tt) ex_history3 ex_free
      (Forall_nil_2 _)) as [(rec & Hr & _ & Hr') _].
    + intros sg Hid. left. vm_compute in Hid. by injection Hid as <-.
    + done.
    + vm_compute. reflexivity.
    + exists rec. split; [exact Hr|split; [reflexivity|exact Hr']].
Defined.

(** A terminal transition whose cursor names a step: the database makes the forward
    operation unresolved, for the step has not succeeded, and keeps the failed unwind;
    the in-memory store overlays the unwind itself, which its terminal record drops.
    The engine makes no such transition. *)
Definition ex_overlaid : Transition :=
  mkTransition (mkCursor PhaseUnwind "one" 3 None None 0 "" "" 0 ex_noon ex_noon)
    [mkOpWrite "one" PhaseUnwind (mkOp OpFailed 3 None None 0)] None None (Some OutcomeFailure).
Definition ex_stuck := (bolt_ApplyTransition 8 ex_s2 "r1" ex_overlaid).1.
Theorem terminal_overlay_diverges :
  ∃ rec rec', (bolt_GetRun ex_s2 "r1").2 = Ok rec ∧ (bolt_GetRun ex_stuck "r1").2 = Ok rec' ∧
    Op_Status (Op (Step rec' "one") PhaseUnwind) = OpFailed ∧
    Op_Status (Op (Step (record_after ex_overlaid rec) "one") PhaseUnwind) = OpNone.
Proof.
  eexists _, _. split; [vm_compute; reflexivity|]. split; [vm_compute; reflexivity|].
  split; vm_compute; reflexivity.
Qed.
Definition ex_cancel : CancelRequest := mkCancel "why" ex_noon.
Definition ex_s5 := (bolt_RequestCancel ex_s3 "r1" ex_cancel).1.
Lemma first_cancel_wins_witness :
  ∃ rec, (bolt_GetRun ex_s3 "r1").2 = Ok rec ∧
    (bolt_GetRun ex_s5 "r1").2 = Ok (set_Cancel (Some ex_cancel) rec).
Proof.
  destruct (first_cancel_wins 8 ex_max ex_s3 ex_v3 "r1" ex_cancel ex_s5 true ex_history3 ex_free)
    as (rec & Hr & _ & _ & Hr').
  - vm_compute. reflexivity.
  - exists rec. by split.
Defined.
Definition ex_later : Time := (ex_noon + 1)%Z.
Definition ex_s6 := (bolt_ReapTerminal ex_s4 ex_later 10).1.
Lemma reap_takes_oldest_witness : ∃ ids, 1%Z = Z.of_nat (length ids) ∧ "r1" ∈ ids.
Proof.
  destruct (reap_takes_oldest 8 ex_max ex_s4 ex_v4 ex_later 10 ex_s6 1 ex_history4)
    as (ids & _ & Hn & _ & _ & Hall & _).
  - split; [right; done|]. intros id rec Hid.
    assert (id = "r1") as ->.
    { destruct (decide (id = "r1")) as [|Hne]; [done|]. exfalso. unfold ex_v4, ex_v3, ex_v2 in Hid.
      rewrite !after_apply_other in Hid by done.
      assert (ex_v1 = <["r1" := Live (stage_of (ex_rec "r1"))]> ∅) as E by (vm_compute; reflexivity).
      by rewrite E, lookup_insert_ne in Hid. }
    vm_compute in Hid. injection Hid as <-. right. done.
  - vm_compute. reflexivity.
  - exists ids. split; [done|]. apply Hall; [done|]. eexists. split; [vm_compute; reflexivity|]. done.
Defined.
Lemma drain_frees_stages_witness :
  store_history 8 ex_s4 ex_v4 ∧ length (Rows (db_staged (bo_db ex_s4))) = 1 ∧
  ∃ s', Drain 1 ex_s4 = Some (s', Ok tt) ∧ lean ex_v4 (bo_db s').
Proof.
  split; [apply ex_history4|]. split; [by vm_compute|].
  destruct (drain_frees_stages 8 ex_max ex_s4 ex_v4 ex_history4) as (s' & r & Hd & _ & Hl).
  assert (sweeps ex_s4 = 1) as E by (vm_compute; reflexivity). rewrite E in Hd.
  exists s'. assert (r = Ok tt) as ->.
  { destruct r as [[]|e]; [done|exfalso].
    assert (∃ x, Drain 1 ex_s4 = Some (x, Ok tt)) as [x Hx] by (eexists; vm_compute; reflexivity). congruence. }
  split; [exact Hd|]. by apply Hl.
Defined.
