(* ===== verification/BoltEngine.v ===== *)
(** * BoltEngine: the engine's transitions and the database (engine/engine.go, apply)

    The database keeps one operation in flight, in the cursor.  [apply] adds to a
    transition a row for every unresolved operation the transition does not cover, which
    is what lets the store overwrite the cursor: every transition a worker hands the
    store accounts for what is in flight ([Commits.accounts]), and the database takes
    such a transition as the contract of the store says. *)
From S2P Require Import Prelude Kernel Ledger Driver MemStore Wire Binding Engine Machine Carry Attempts.
From S2P Require Import Commits Keys BlobCache Bolt BoltStore BoltStage BoltRead.
From S2P Require Import BoltWrite BoltView BoltContract WireSample BoltSample BoltRefine.

(** ** The encoding and the operations in flight *)

Lemma writes_unwinds id phase ops : writes id phase ops → writes_op (id, unwinds phase) ops.
Proof.
  intros (ow & Hin & Hid & Hh). exists ow. split; [done|]. rewrite Hid. f_equal.
  by destruct (OpWrite_Phase ow), phase.
Qed.
Lemma encoded_op_of r id phase : op_of (Run_Steps (encoded r)) id phase = stored_op (op_of (Run_Steps r) id phase).
Proof. apply (encoded_Op id phase r). Qed.

(** The operation in flight is an unresolved one of the record. *)
Lemma read_in_flight id sg :
  let c := sg_cursor sg in
  Cursor_StepID c ≠ "" →
  Op_Status (op_of (Run_Steps (read_record id sg)) (Cursor_StepID c) (Cursor_Phase c)) = OpUnresolved.
Proof.
  intros c Hc. unfold read_record, with_cursor, overlay_cursor. fold c. rewrite bool_decide_false by done.
  rewrite put_Op_steps. cbn [Run_Steps set_Steps]. rewrite op_of_put, bool_decide_true by done.
  by rewrite eqb_reflx.
Qed.
Lemma accounts_covers id sg r t :
  read_record id sg = encoded r → accounts r t → covers t (sg_cursor sg).
Proof.
  intros Hr [Hac _]. unfold covers. destruct (decide (Cursor_StepID (sg_cursor sg) = "")) as [|Hne]; [by left|].
  pose proof (read_in_flight id sg Hne) as Hu. cbn zeta in Hu. rewrite Hr, encoded_op_of in Hu.
  destruct (Hac _ _ Hne Hu) as [Hw|[Hid Hh]]; right; [left; by apply writes_unwinds|right].
  split; [done|]. by destruct (Cursor_Phase (T_Cursor t)), (Cursor_Phase (sg_cursor sg)).
Qed.

(** *** What the encoding keeps of a record is kept again *)

Lemma stored_step_twice sr : stored_step (stored_step sr) = stored_step sr.
Proof. unfold stored_step. cbn. by rewrite !stored_op_twice. Qed.
Lemma stored_steps_twice (m : gmap StepID StepRecord) : stored_step <$> (stored_step <$> m) = stored_step <$> m.
Proof. rewrite <-map_fmap_compose. apply map_fmap_ext. intros i sr _. apply stored_step_twice. Qed.
Lemma stored_await_twice (a : option Await) : stored_await <$> (stored_await <$> a) = stored_await <$> a.
Proof. by destruct a as [[[] ts dl cc]|]. Qed.
Lemma wire_bytes_twice b : wire_bytes (wire_bytes b) = wire_bytes b.
Proof. by destruct b as [[]|]. Qed.
Lemma encoded_mk i p res ann inp ph st f out oc na aw awd le lr la c ca ua sa :
  encoded (mkRun i p res ann inp ph st f out oc na aw awd le lr la c ca ua sa) =
    mkRun i p res ann (wire_bytes inp) ph (stored_step <$> st) f out oc na (stored_await <$> aw) awd
      le lr la c ca ua sa.
Proof. reflexivity. Qed.
Lemma encoded_twice r : encoded (encoded r) = encoded r.
Proof. destruct r. by rewrite !encoded_mk, stored_steps_twice, stored_await_twice, wire_bytes_twice. Qed.
Lemma encoded_before_outcome t r :
  encoded (record_before_outcome t (encoded r)) = encoded (record_before_outcome t r).
Proof.
  unfold record_before_outcome.
  by rewrite !encoded_write_failure, !encoded_overlay, !encoded_write_cursor, !encoded_write_ops, encoded_twice.
Qed.
Lemma compact_stored_twice m :
  let f sr := mkStepRecord op_zero (stored_op (SR_Unwind sr)) in
  f <$> compact_steps (compact_steps (stored_step <$> m)) = f <$> compact_steps (compact_steps m).
Proof.
  intros f. apply map_eq. intros id. unfold compact_steps.
  rewrite !lookup_fmap, !map_lookup_filter, !lookup_fmap, !map_lookup_filter, lookup_fmap.
  destruct (m !! id) as [sr|]; [|done]. cbn.
  destruct (decide (Op_Status (SR_Unwind sr) = OpFailed)) as [E|E].
  - rewrite !(option_guard_True (Op_Status _ = _)) by done. cbn.
    rewrite !(option_guard_True (Op_Status _ = _)) by done. cbn. unfold f. cbn. by rewrite stored_op_twice.
  - by rewrite !(option_guard_False (Op_Status _ = _)) by done.
Qed.
Lemma stored_terminal_mk i p res ann inp ph st f out oc na aw awd le lr la c ca ua sa o b :
  stored_terminal (CompactTerminal (set_Output b (set_Outcome (Some o)
    (mkRun i p res ann inp ph st f out oc na aw awd le lr la c ca ua sa)))) false =
  mkRun i p res ann None ph
    ((λ sr, mkStepRecord op_zero (stored_op (SR_Unwind sr))) <$> compact_steps (compact_steps st))
    f (wire_bytes b) (Some o) time_zero None None "" "" time_zero c ca ua sa.
Proof. reflexivity. Qed.
Lemma stored_terminal_encoded oc b r :
  stored_terminal (CompactTerminal (set_Output b (set_Outcome (Some oc) (encoded r)))) false =
    stored_terminal (CompactTerminal (set_Output b (set_Outcome (Some oc) r))) false.
Proof. destruct r. rewrite encoded_mk, !stored_terminal_mk. by rewrite compact_stored_twice. Qed.
Lemma encoded_after t r :
  match T_Outcome t with
  | None => encoded (record_after t (encoded r)) = encoded (record_after t r)
  | Some _ => stored_terminal (record_after t (encoded r)) false = stored_terminal (record_after t r) false
  end.
Proof.
  pose proof (encoded_before_outcome t r) as E. unfold record_after. fold (record_before_outcome t r).
  fold (record_before_outcome t (encoded r)). destruct (T_Outcome t) as [oc|]; [|exact E].
  rewrite <-(stored_terminal_encoded oc _ (record_before_outcome t (encoded r))), E.
  apply stored_terminal_encoded.
Qed.

(** ** The property *)

Section theorems.
Context {S H : Type} `{St : Store S} (ok : S → Prop) `{!StoreLaws S ok}.
Context (cfg : Config (S:=S) (H:=H)).
Context (defs_bound : Binding.bound_registry (e_defs cfg)).
Context (calls_cancel_only : ∀ h inv w,
  let w' := (e_call cfg h inv w).1 in
  ok (w_store w) →
  ok (w_store w') ∧
  (inv_runID inv ∈ w_dirty w → inv_runID inv ∈ w_dirty w') ∧
  ∀ r, GetRun (w_store w) (inv_runID inv) = Ok r →
    ∃ c, GetRun (w_store w') (inv_runID inv) = Ok (set_Cancel c r) ∧
      (c = Run_Cancel r ∨ inv_runID inv ∈ w_dirty w')).
Context {B : Type} `{BoltLaws B} `{ProtobufLaws} (blobRowMax : Z) (Hmax : (0 <= blobRowMax)%Z).

End theorems.

(** A store that refuses the transitions that lose sight of an operation in flight. *)
Definition ex_strict (s : MemStore.MemStore) (id : RunID) (t : Transition)
    : MemStore.MemStore * result StoreError unit :=
  match GetRun s id with
  | Ok r => if decide (accounts r t) then ApplyTransition s id t else (s, Err ErrRunTerminal)
  | Err e => (s, Err e)
  end.
Definition ex_record (s : BoltStore) : RunRecord :=
  match (bolt_GetRun s "r1").2 with Ok r => r | Err _ => ex_rec "r1" end.

(** ** An empty state *)

Definition ex_empty_state : Transition :=
  mkTransition (ex_at "" 0) [mkOpWrite "one" PhaseForward (mkOp OpSucceeded 1 (Some "") None 1)] None None None.
(** A step that committed the empty state - a message without a field set - has none
    after its record is read from the file: the record in hand has the step among the
    committed states, the record read again does not. *)
Theorem empty_state_lost :
  ∃ rec rec', (bolt_GetRun ex_s2 "r1").2 = Ok rec ∧
    (bolt_GetRun (bolt_ApplyTransition 8 ex_s2 "r1" ex_empty_state).1 "r1").2 = Ok rec' ∧
    committedStates (record_after ex_empty_state rec) !! "one" = Some "" ∧
    Op_Status (Op (Driver.Step rec' "one") PhaseForward) = Driver.OpSucceeded ∧
    committedStates rec' !! "one" = None.
Proof.
  eexists _, _. split; [vm_compute; reflexivity|]. split; [vm_compute; reflexivity|].
  split_and!; vm_compute; reflexivity.
Qed.
