(* ===== verification/Opening.v ===== *)
(** * Opening: the registry of drivers and the options of a URI (store/store.go,
      store/bbolt/open.go)

    The registry is the map of openers by scheme; the bbolt driver's opener turns a
    parsed URI into a path and options, read as byte counts.  What net/url makes of the
    text of a URI is a parameter. *)
From S2P Require Import Prelude Keys.

(** What the openers read of a [url.URL]; [U_Query] is what [u.Query()] answers. *)
Record URL := mkURL {
  U_Scheme : string; U_Opaque : string; U_Host : string; U_Path : string;
  U_Query : gmap string (list string);
}.

Inductive OpenError :=
| ErrParsing (uri why : string)
| ErrNoScheme (uri : string) (registered : list string)
| ErrUnknownScheme (scheme : string) (registered : list string)
| ErrHost
| ErrMissingPath
| ErrOptionGiven (option : string) (times : nat)
| ErrByteCount (option value : string)
| ErrUnknownOption (option : string)
| ErrOpening (path why : string)
| ErrInitializing (why : string)
| ErrDraining (why : string).

(** ** The registry *)

Definition name_le (a b : string) : Prop := key_lt (bs b) (bs a) = false.
#[export] Instance name_le_dec : RelDecision name_le.
Proof. intros a b. unfold name_le. apply _. Defined.

Section registry.
Context {S : Type}.
Definition Opener : Type := URL → result OpenError S.
Implicit Types drivers : gmap string Opener.

(** [Register]: the map after it, or what it panics with.  A nil opener is [None]. *)
Definition Register drivers (scheme : string) (open : option Opener)
    : result string (gmap string Opener) :=
  match open with
  | None => Err "durable/store: Register with nil opener"
  | Some open =>
    match drivers !! scheme with
    | Some _ => Err ("durable/store: Register called twice for scheme " +:+ scheme)
    | None => Ok (<[scheme := open]> drivers)
    end
  end.
Definition Schemes drivers : list string := merge_sort name_le (map_to_list drivers).*1.
(** [store.Open]; [Parse] is [url.Parse]. *)
Definition Open (Parse : string → result string URL) drivers (uri : string)
    : result OpenError S :=
  match Parse uri with
  | Err why => Err (ErrParsing uri why)
  | Ok u =>
    if bool_decide (U_Scheme u = "") then Err (ErrNoScheme uri (Schemes drivers))
    else match drivers !! U_Scheme u with
         | None => Err (ErrUnknownScheme (U_Scheme u) (Schemes drivers))
         | Some open => open u
         end
  end.
End registry.

(** ** Byte counts *)

(** [strings.TrimSpace]: the encodings of the runes of [unicode.IsSpace]. *)
Definition at_bytes (l : list N) : key := ascii_of_N <$> l.
Definition spaces : list key :=
  (at_bytes <$> [[9]; [10]; [11]; [12]; [13]; [32]; [194; 133]; [194; 160]; [225; 154; 128];
    [226; 128; 168]; [226; 128; 169]; [226; 128; 175]; [226; 129; 159]; [227; 128; 128]]%N) ++
  ((λ n, at_bytes [226; 128; 128 + N.of_nat n]%N) <$> seq 0 11).
Definition skip_space (k : key) : option key :=
  match find (λ p, has_prefix p k) spaces with
  | Some p => Some (drop (length p) k)
  | None => None
  end.
Definition drop_space (k : key) : option key :=
  match find (λ p, has_suffix p k) spaces with
  | Some p => Some (take (length k - length p) k)
  | None => None
  end.
Fixpoint trim (next : key → option key) (fuel : nat) (k : key) : key :=
  match fuel with
  | 0 => k
  | S fuel => match next k with Some k => trim next fuel k | None => k end
  end.
Definition TrimSpace (k : key) : key :=
  let k := trim skip_space (length k) k in trim drop_space (length k) k.

(** [strings.ToLower], on the runes whose lower case is ASCII: the capital letters,
    the Kelvin sign and the dotted capital I.  The bytes of the others are left as they
    are; no byte count has one, before or after. *)
Definition lower (c : ascii) : ascii :=
  let n := N_of_ascii c in
  if decide (65 <= n ∧ n <= 90)%N then ascii_of_N (n + 32) else c.
Definition kelvin : key := at_bytes [226; 132; 170]%N.
Definition dotted_I : key := at_bytes [196; 176]%N.
Fixpoint ToLower (k : key) : key :=
  match k with
  | [] => []
  | c :: k' =>
    match k' with
    | c' :: k'' =>
      if bool_decide ([c; c'] = dotted_I) then "i"%char :: ToLower k''
      else match k'' with
           | c'' :: k''' =>
             if bool_decide ([c; c'; c''] = kelvin) then "k"%char :: ToLower k'''
             else lower c :: ToLower k'
           | [] => lower c :: ToLower k'
           end
    | [] => [lower c]
    end
  end.

(** [strconv.Atoi] on 64 bits: an optional sign, then decimal digits. *)
Definition digit (c : ascii) : option Z :=
  let n := N_of_ascii c in
  if decide (48 <= n ∧ n <= 57)%N then Some (Z.of_N n - 48)%Z else None.
Fixpoint digits_val (acc : Z) (k : key) : option Z :=
  match k with
  | [] => Some acc
  | c :: k => match digit c with Some d => digits_val (acc * 10 + d)%Z k | None => None end
  end.
Definition Atoi (k : key) : option Z :=
  let '(neg, ds) := match k with
                    | "-"%char :: ds => (true, ds)
                    | "+"%char :: ds => (false, ds)
                    | ds => (false, ds)
                    end in
  match ds, digits_val 0 ds with
  | _ :: _, Some n =>
    let n := (if neg then - n else n)%Z in
    if bool_decide (min_i64 <= n <= max_i64)%Z then Some n else None
  | _, _ => None
  end.

Definition units : list (key * Z) :=
  [(bs "kib", 1024); (bs "mib", 1048576); (bs "gib", 1073741824);
   (bs "k", 1024); (bs "m", 1048576); (bs "g", 1073741824)]%Z.
(** [parseBytes]: [None] is its error. *)
Definition parseBytes (v : string) : option Z :=
  let s := ToLower (TrimSpace (bs v)) in
  let '(s, unit) := match find (λ u, has_suffix u.1 s) units with
                    | Some u => (take (length s - length u.1) s, u.2)
                    | None => (s, 1%Z)
                    end in
  match Atoi (TrimSpace s) with
  | Some n => if (n <? 0)%Z then None else Some (wrap_i64 (n * unit))
  | None => None
  end.

Example sample_bytes :
  parseBytes " 128MiB " = Some 134217728%Z ∧ parseBytes "0" = Some 0%Z ∧
  parseBytes "12 kib" = Some 12288%Z ∧ parseBytes "+7g" = Some 7516192768%Z ∧
  parseBytes "-1" = None ∧ parseBytes "1.5M" = None ∧ parseBytes "k" = None ∧
  parseBytes "9223372036854775808" = None.
Proof. by vm_compute. Qed.

(** ** The options of a bbolt URI *)

Record config := mkConfig { blobCache : Z; outputCache : Z }.
Inductive Option := WithBlobCache (limit : Z) | WithOutputCache (limit : Z).
Definition apply_option (c : config) (o : Option) : config :=
  match o with
  | WithBlobCache n => mkConfig n (outputCache c)
  | WithOutputCache n => mkConfig (blobCache c) n
  end.
Definition DefaultBlobCache : Z := Z.shiftl 64 20.
Definition DefaultOutputCache : Z := Z.shiftl 16 20.
Definition configure (opts : list Option) : config :=
  foldl apply_option (mkConfig DefaultBlobCache DefaultOutputCache) opts.

(** The loop over the query, visiting its keys in the order [ord]. *)
Definition query_option (key : string) (values : list string) : result OpenError Option :=
  match values with
  | [v] =>
    match parseBytes v with
    | None => Err (ErrByteCount key v)
    | Some n =>
      if bool_decide (key = "blob_cache") then Ok (WithBlobCache n)
      else if bool_decide (key = "output_cache") then Ok (WithOutputCache n)
      else Err (ErrUnknownOption key)
    end
  | _ => Err (ErrOptionGiven key (length values))
  end.
Fixpoint query_options (ord : list (string * list string)) (opts : list Option)
    : result OpenError (list Option) :=
  match ord with
  | [] => Ok opts
  | (key, values) :: ord =>
    match query_option key values with
    | Err e => Err e
    | Ok o => query_options ord (opts ++ [o])
    end
  end.
(** The opener [init] registers, up to its call of [Open]: the path and the options. *)
Definition open_uri (ord : list (string * list string)) (u : URL)
    : result OpenError (string * list Option) :=
  let path := if bool_decide (U_Opaque u = "") then U_Path u else U_Opaque u in
  if negb (bool_decide (U_Host u = "")) then Err ErrHost
  else if bool_decide (path = "") then Err ErrMissingPath
  else match query_options ord [] with
       | Err e => Err e
       | Ok opts => Ok (path, opts)
       end.

(** ** Reading byte counts *)

Definition is_space (c : ascii) : Prop := [c] ∈ spaces.
(** Digits and ASCII letters. *)
Definition plain (c : ascii) : bool :=
  let n := N_of_ascii c in
  bool_decide ((48 <= n ∧ n <= 57) ∨ (65 <= n ∧ n <= 90) ∨ (97 <= n ∧ n <= 122))%N.
Definition count_of (ds : key) (n : Z) : Prop :=
  ds ≠ [] ∧ Forall (λ c, is_Some (digit c)) ds ∧ digits_val 0 ds = Some n.

Lemma find_None {A} (f : A → bool) l : (∀ x, x ∈ l → f x = false) → find f l = None.
Proof.
  induction l as [|x l IH]; intros Hf; [done|]. cbn. rewrite (Hf x) by by left.
  apply IH. intros y Hy. apply Hf. by right.
Qed.
Lemma digit_plain c : is_Some (digit c) → plain c = true.
Proof. unfold digit, plain. case_decide; [|by intros []]. intros _. apply bool_decide_eq_true. tauto. Qed.
Lemma lower_digit c : is_Some (digit c) → lower c = c.
Proof.
  unfold digit, lower. case_decide; [|by intros []]. intros _. rewrite decide_False by lia. done.
Qed.
Lemma lower_plain c : plain (lower c) = true → plain c = true.
Proof. destruct c as [[] [] [] [] [] [] [] []]; by vm_compute. Qed.

(** Every space begins and ends with a byte that is neither a digit nor a letter. *)
Definition apart (p : key) : bool :=
  match head p, last p with Some a, Some b => negb (plain a || plain b) | _, _ => false end.
Lemma spaces_apart p : p ∈ spaces → apart p = true.
Proof.
  intros Hp%list_elem_of_In. revert p Hp. apply forallb_forall. by vm_compute.
Qed.
Lemma skip_plain c k : plain c = true → skip_space (c :: k) = None.
Proof.
  intros Hc. unfold skip_space. rewrite find_None; [done|]. intros p Hp%spaces_apart.
  destruct p as [|a p]; [done|]. unfold apart in Hp. cbn [head] in Hp. cbn [has_prefix].
  case_bool_decide; [|done]. subst. rewrite Hc in Hp. by destruct (last _).
Qed.
Lemma drop_plain k c : plain c = true → drop_space (k ++ [c]) = None.
Proof.
  intros Hc. unfold drop_space. rewrite find_None; [done|]. intros p Hp%spaces_apart.
  destruct (has_suffix p (k ++ [c])) eqn:E; [|done]. apply has_suffix_spec in E as [x E].
  destruct p as [|b p _] using rev_ind; [done|].
  rewrite app_assoc in E. apply app_inj_tail in E as [_ <-]. unfold apart in Hp.
  rewrite last_snoc in Hp. destruct (head _); [|done]. by rewrite Hc, orb_true_r in Hp.
Qed.

(** The spaces of ASCII. *)
Definition blanks : key := at_bytes [9; 10; 11; 12; 13; 32]%N.
Lemma skip_blank c k : c ∈ blanks → skip_space (c :: k) = Some k.
Proof. intros Hc. repeat (apply elem_of_cons in Hc as [->|Hc]; [done|]). by apply not_elem_of_nil in Hc. Qed.
Lemma drop_blank k c : c ∈ blanks → drop_space (k ++ [c]) = Some k.
Proof.
  intros Hc. assert (find (λ p, has_suffix p (k ++ [c])) spaces = Some [c]) as E.
  { unfold has_suffix. rewrite reverse_snoc.
    repeat (apply elem_of_cons in Hc as [->|Hc]; [done|]). by apply not_elem_of_nil in Hc. }
  unfold drop_space. rewrite E. f_equal. rewrite length_app, Nat.add_sub. apply take_app_length.
Qed.
Lemma trim_skip pre c k fuel :
  Forall (.∈ blanks) pre → plain c = true → length pre ≤ fuel → trim skip_space fuel (pre ++ c :: k) = c :: k.
Proof.
  intros Hpre Hc. revert fuel; induction Hpre as [|x pre Hx _ IH]; intros fuel Hl; simpl in Hl.
  - destruct fuel; [done|]. cbn [trim app]. by rewrite skip_plain.
  - destruct fuel as [|fuel]; [lia|]. cbn [trim app]. rewrite skip_blank by done. apply IH. lia.
Qed.
Lemma trim_drop post c k fuel :
  Forall (.∈ blanks) post → plain c = true → length post ≤ fuel →
  trim drop_space fuel ((k ++ [c]) ++ post) = k ++ [c].
Proof.
  intros Hpost Hc. revert fuel; induction post as [|x post IH] using rev_ind; intros fuel Hl.
  - rewrite app_nil_r. destruct fuel; [done|]. cbn [trim]. by rewrite drop_plain.
  - apply Forall_app in Hpost as [Hpost Hx%Forall_inv]. rewrite length_app in Hl. simpl in Hl.
    destruct fuel as [|fuel]; [lia|]. rewrite app_assoc. cbn [trim]. rewrite drop_blank by done.
    apply IH; [done|lia].
Qed.
(** A text that begins and ends with a digit or a letter. *)
Definition solid (k : key) : Prop :=
  ∃ c, head k = Some c ∧ plain c = true ∧ ∃ d, last k = Some d ∧ plain d = true.
Lemma TrimSpace_around pre k post :
  Forall (.∈ blanks) pre → Forall (.∈ blanks) post → solid k → TrimSpace (pre ++ k ++ post) = k.
Proof.
  intros Hpre Hpost (c & Hc & Hpc & d & Hd & Hpd). unfold TrimSpace.
  destruct k as [|c' k]; [done|]. injection Hc as ->. cbn [app].
  rewrite trim_skip by (rewrite ?length_app; simpl; done || lia).
  change (c :: k ++ post) with ((c :: k) ++ post).
  destruct (c :: k) as [|d' k' _] using rev_ind; [done|]. rewrite last_snoc in Hd. injection Hd as ->.
  apply trim_drop; [done|done|]. rewrite !length_app. lia.
Qed.

Lemma ToLower_ascii k : Forall (λ c, (N_of_ascii c < 128)%N) k → ToLower k = lower <$> k.
Proof.
  induction 1 as [|c k Hc _ IH]; [done|]. cbn [ToLower fmap list_fmap]. rewrite <-IH.
  assert (∀ x l, (128 <= N_of_ascii x)%N → ∀ l', c :: l' ≠ x :: l) as Hne by (intros x l Hx l' [= -> _]; lia).
  destruct k as [|c' k]; [done|]. rewrite bool_decide_eq_false_2 by (by apply Hne).
  destruct k as [|c'' k]; [done|]. by rewrite bool_decide_eq_false_2 by (by apply Hne).
Qed.

(** The text of a unit, in any case, and its multiple. *)
Definition unit_text (su : key) (m : Z) : Prop :=
  (su = [] ∧ m = 1%Z) ∨ (lower <$> su, m) ∈ units.

Lemma find_unit k u m : (u, m) ∈ units → find (λ w, has_suffix w.1 (k ++ u)) units = Some (u, m).
Proof.
  intros Hu. unfold has_suffix. rewrite reverse_app. unfold units in *.
  repeat (apply elem_of_cons in Hu as [[= -> ->]|Hu]; [by vm_compute|]). by apply not_elem_of_nil in Hu.
Qed.
Lemma find_no_unit k d : is_Some (digit d) → find (λ w, has_suffix w.1 (k ++ [d])) units = None.
Proof.
  intros Hd. apply find_None. intros w Hw. unfold has_suffix. rewrite reverse_snoc. unfold units in Hw.
  repeat (apply elem_of_cons in Hw as [->|Hw];
    [cbn; case_bool_decide; [subst; by destruct Hd|done]|]). by apply not_elem_of_nil in Hw.
Qed.

Lemma digits_val_ge acc k n : (0 <= acc)%Z → digits_val acc k = Some n → (0 <= n)%Z.
Proof.
  revert acc; induction k as [|c k IH]; intros acc Ha; cbn; [intros [= <-]; lia|].
  destruct (digit c) as [d|] eqn:E; [|done]. apply IH. unfold digit in E.
  case_decide; [|done]. injection E as <-. lia.
Qed.
Lemma Atoi_count ds n : count_of ds n → Atoi ds = if (n <=? max_i64)%Z then Some n else None.
Proof.
  intros (Hne & Hd & Hn). pose proof (digits_val_ge 0 ds n ltac:(lia) Hn) as Hpos.
  assert (match ds with "-"%char :: ds0 => (true, ds0) | "+"%char :: ds0 => (false, ds0) | ds0 => (false, ds0) end
    = (false, ds)) as E.
  { destruct ds as [|c ds]; [done|]. apply Forall_inv in Hd.
    destruct c as [[] [] [] [] [] [] [] []]; try done; by destruct Hd. }
  unfold Atoi. rewrite E. destruct ds as [|c ds]; [done|]. rewrite Hn.
  destruct (n <=? max_i64)%Z eqn:Hm; zbool; [rewrite bool_decide_eq_true_2|rewrite bool_decide_eq_false_2]; try done;
    unfold min_i64, max_i64 in *; lia.
Qed.
Lemma Atoi_range k n : Atoi k = Some n → (min_i64 <= n <= max_i64)%Z.
Proof.
  unfold Atoi. destruct (match k with [] => _ | _ => _ end) as [neg ds]. destruct ds; [done|].
  destruct (digits_val _ _); [|done]. by case_bool_decide; intros [= <-].
Qed.

Lemma solid_count ds n : count_of ds n → solid ds.
Proof.
  intros (Hne & Hd & _). destruct ds as [|c ds]; [done|]. exists c.
  split; [done|]. split; [by apply Forall_inv in Hd; apply digit_plain|].
  destruct (c :: ds) as [|d l _] using rev_ind; [done|]. exists d. rewrite last_snoc. split; [done|].
  apply Forall_app in Hd as [_ Hd%Forall_inv]. by apply digit_plain.
Qed.
Lemma unit_plain su m : unit_text su m → Forall (λ c, plain c = true) su ∧
  Forall (λ c, (N_of_ascii c < 128)%N) su.
Proof.
  intros [[-> _]|Hu]; [by split; constructor|].
  assert (Forall (λ c, plain c = true) su) as Hp.
  { assert (Forall (λ c, plain c = true) (lower <$> su)) as Hl.
    { unfold units in Hu. repeat (apply elem_of_cons in Hu as [[= -> _]|Hu]; [by repeat constructor|]).
      by apply not_elem_of_nil in Hu. }
    apply Forall_fmap in Hl. eapply Forall_impl; [exact Hl|]. intros c. apply lower_plain. }
  split; [done|]. eapply Forall_impl; [exact Hp|]. intros c. unfold plain. rewrite bool_decide_eq_true. lia.
Qed.

Lemma lower_same k : Forall (λ c, lower c = c) k → lower <$> k = k.
Proof. induction 1 as [|c k Hc _ IH]; [done|]. by rewrite fmap_cons, Hc, IH. Qed.
Lemma blanks_lower k : Forall (.∈ blanks) k → lower <$> k = k.
Proof.
  intros Hk. apply lower_same. eapply Forall_impl; [exact Hk|]. intros c Hc.
  repeat (apply elem_of_cons in Hc as [->|Hc]; [done|]). by apply not_elem_of_nil in Hc.
Qed.
Lemma blanks_ascii k : Forall (.∈ blanks) k → Forall (λ c, (N_of_ascii c < 128)%N) k.
Proof.
  intros Hk. eapply Forall_impl; [exact Hk|]. intros c Hc.
  repeat (apply elem_of_cons in Hc as [->|Hc]; [done|]). by apply not_elem_of_nil in Hc.
Qed.
Lemma digits_lower ds : Forall (λ c, is_Some (digit c)) ds → lower <$> ds = ds.
Proof. intros Hd. apply lower_same. eapply Forall_impl; [exact Hd|]. intros c. apply lower_digit. Qed.
Lemma digits_ascii ds : Forall (λ c, is_Some (digit c)) ds → Forall (λ c, (N_of_ascii c < 128)%N) ds.
Proof.
  intros Hd. eapply Forall_impl; [exact Hd|]. intros c. unfold digit. case_decide; [lia|by intros []].
Qed.
(** The text between the blanks around it: the number alone, or with its unit. *)
Lemma solid_app a b : solid a → b ≠ [] → Forall (λ c, plain c = true) b → solid (a ++ b).
Proof.
  intros (c & Hc & Hpc & _) Hb Hp. exists c. destruct a as [|c' a]; [done|]. split; [done|]. split; [done|].
  destruct b as [|d b _] using rev_ind; [done|]. exists d. rewrite app_assoc, last_snoc. split; [done|].
  by apply Forall_app in Hp as [_ Hp%Forall_inv].
Qed.

Lemma parse_number pre ds n post :
  Forall (.∈ blanks) pre → Forall (.∈ blanks) post → count_of ds n →
  parseBytes (of_bs (pre ++ ds ++ post)) = if (n <=? max_i64)%Z then Some (wrap_i64 (n * 1)) else None.
Proof.
  intros Hpre Hpost Hn. pose proof (solid_count ds n Hn) as Hs. pose proof Hn as (Hne & Hd & Hv).
  unfold parseBytes. rewrite bs_of_bs, TrimSpace_around, ToLower_ascii, digits_lower by (done || by apply digits_ascii).
  assert (find (λ u, has_suffix u.1 ds) units = None) as ->.
  { destruct ds as [|d l _] using rev_ind; [done|]. apply Forall_app in Hd as [_ Hd%Forall_inv].
    by apply find_no_unit. }
  rewrite <-(app_nil_r ds) at 1. rewrite <-(app_nil_l (ds ++ [])).
  rewrite (TrimSpace_around [] ds []) by (done || constructor). rewrite (Atoi_count ds n Hn).
  destruct (n <=? max_i64)%Z; [|done]. pose proof (digits_val_ge 0 ds n ltac:(lia) Hv).
  by rewrite (proj2 (Z.ltb_ge n 0)).
Qed.
Lemma parse_unit pre ds n gap su m post :
  Forall (.∈ blanks) pre → Forall (.∈ blanks) gap → Forall (.∈ blanks) post → count_of ds n →
  (lower <$> su, m) ∈ units →
  parseBytes (of_bs (pre ++ (ds ++ gap ++ su) ++ post)) =
    if (n <=? max_i64)%Z then Some (wrap_i64 (n * m)) else None.
Proof.
  intros Hpre Hgap Hpost Hn Hu. pose proof (solid_count ds n Hn) as Hs. pose proof Hn as (Hne & Hd & Hv).
  destruct (unit_plain su m) as [Hp Ha]; [by right|].
  assert (su ≠ []) as Hsu by (intros ->; unfold units in Hu; set_unfold; naive_solver).
  assert (solid (ds ++ gap ++ su)) as Hsol.
  { destruct Hs as (c & Hc & Hpc & _). exists c. destruct ds as [|c' ds]; [done|]. split; [done|]. split; [done|].
    destruct su as [|d l _] using rev_ind; [done|]. exists d. rewrite !app_assoc, last_snoc. split; [done|].
    by apply Forall_app in Hp as [_ Hp%Forall_inv]. }
  unfold parseBytes. rewrite bs_of_bs, TrimSpace_around by done.
  rewrite ToLower_ascii by (rewrite !Forall_app; split_and!; [by apply digits_ascii|by apply blanks_ascii|done]).
  rewrite !fmap_app, digits_lower, blanks_lower, app_assoc, (find_unit _ _ _ Hu) by done. cbn [fst snd].
  rewrite length_app, Nat.add_sub, take_app_length.
  rewrite <-(app_nil_l (ds ++ gap)), TrimSpace_around by (done || constructor).
  rewrite (Atoi_count ds n Hn). destruct (n <=? max_i64)%Z; [|done].
  pose proof (digits_val_ge 0 ds n ltac:(lia) Hv). by rewrite (proj2 (Z.ltb_ge n 0)).
Qed.

(** ParseBytes reads a decimal count with an optional unit in any case, blanks
    around them left out, as the count times the unit, wrapped to 64 bits; it refuses a
    count past 64 bits, and whatever it reads is a count times a unit. *)
Theorem parseBytes_correct :
  (∀ pre ds n gap su m post,
    Forall (.∈ blanks) pre → Forall (.∈ blanks) gap → Forall (.∈ blanks) post →
    count_of ds n → unit_text su m →
    parseBytes (of_bs (pre ++ ds ++ gap ++ su ++ post)) =
      if (n <=? max_i64)%Z then Some (wrap_i64 (n * m)) else None) ∧
  ∀ v z, parseBytes v = Some z → ∃ n m, (0 <= n <= max_i64)%Z ∧
    m ∈ [1; 1024; 1048576; 1073741824]%Z ∧ z = wrap_i64 (n * m) ∧ ((n * m <= max_i64)%Z → z = (n * m)%Z).
Proof.
  split.
  - intros pre ds n gap su m post Hpre Hgap Hpost Hn [[-> ->]|Hu].
    + cbn [app]. apply parse_number; [done| |done]. by apply Forall_app.
    + rewrite <-(parse_unit pre ds n gap su m post) by done. by rewrite <-!app_assoc.
  - intros v z. unfold parseBytes. set (s := ToLower _).
    destruct (find (λ u, has_suffix u.1 s) units) as [[u m]|] eqn:Ef.
    + destruct (Atoi _) as [n|] eqn:En; [|done]. apply Atoi_range in En.
      destruct (n <? 0)%Z eqn:Hn; zbool; [done|]. intros [= <-]. exists n, m.
      apply find_some in Ef as [Hin%list_elem_of_In _]. split; [lia|]. split.
      { unfold units in Hin. set_unfold. naive_solver. }
      split; [done|]. intros. apply wrap_i64_small. split; [|done].
      assert (0 <= m)%Z by (unfold units in Hin; set_unfold; naive_solver lia). unfold min_i64. nia.
    + destruct (Atoi _) as [n|] eqn:En; [|done]. apply Atoi_range in En.
      destruct (n <? 0)%Z eqn:Hn; zbool; [done|]. intros [= <-]. exists n, 1%Z.
      split; [lia|]. split; [by left|]. split; [done|]. intros. apply wrap_i64_small. unfold min_i64. lia.
Qed.
Lemma parseBytes_correct_witness :
  count_of (bs "128") 128 ∧ unit_text (bs "MiB") 1048576 ∧ parseBytes " 128 MiB" = Some 134217728%Z.
Proof.
  assert (count_of (bs "128") 128) as Hn by (split_and!; [done|by repeat constructor|done]).
  assert (unit_text (bs "MiB") 1048576) as Hu by (right; do 1 right; by left).
  split; [done|]. split; [done|].
  rewrite <-(of_bs_bs " 128 MiB").
  apply (proj1 parseBytes_correct (bs " ") (bs "128") 128%Z (bs " ") (bs "MiB") 1048576%Z (bs "")); try done;
    repeat constructor.
Defined.
(** A count whose bytes do not fit 64 bits is not refused: sixteen exbibytes read as
    none, which disables a cache. *)
Theorem parseBytes_wraps :
  parseBytes "17179869184GiB" = Some 0%Z ∧ parseBytes "8589934592GiB" = Some min_i64.
Proof. by vm_compute. Qed.

(** ** The options a URI gives *)

(** The limit a query sets, over its default. *)
Definition limit_of (q : gmap string (list string)) (key : string) (d : Z) : Z :=
  match q !! key with Some [v] => default d (parseBytes v) | _ => d end.
Definition good_option (key : string) (values : list string) : Prop :=
  (∃ v n, values = [v] ∧ parseBytes v = Some n) ∧ (key = "blob_cache" ∨ key = "output_cache").

Lemma query_option_Ok key values o :
  query_option key values = Ok o ↔ ∃ v n, values = [v] ∧ parseBytes v = Some n ∧
    ((key = "blob_cache" ∧ o = WithBlobCache n) ∨ (key = "output_cache" ∧ o = WithOutputCache n)).
Proof.
  unfold query_option. split.
  - destruct values as [|v [|]]; [done| |done]. destruct (parseBytes v) as [n|] eqn:E; [|done].
    repeat case_bool_decide; intros [= <-]; naive_solver.
  - intros (v & n & -> & -> & [[-> ->]|[-> ->]]); [done|].
    rewrite bool_decide_eq_false_2 by done. done.
Qed.
Lemma query_option_good key values :
  good_option key values ↔ ∃ o, query_option key values = Ok o.
Proof.
  setoid_rewrite query_option_Ok. unfold good_option. split.
  - intros ((v & n & -> & Hv) & [Hk|Hk]); subst key;
      [exists (WithBlobCache n)|exists (WithOutputCache n)]; naive_solver.
  - intros (o & v & n & -> & Hv & Hk). split; [by exists v, n|naive_solver].
Qed.
Lemma query_options_spec ord acc :
  match query_options ord acc with
  | Ok opts => ∃ os, opts = acc ++ os ∧ Forall2 (λ e o, query_option e.1 e.2 = Ok o) ord os
  | Err _ => ¬ Forall (λ e, good_option e.1 e.2) ord
  end.
Proof.
  revert acc; induction ord as [|[key values] ord IH]; intros acc; cbn.
  { exists []. split; [by rewrite app_nil_r|constructor]. }
  destruct (query_option key values) as [o|e] eqn:E.
  - specialize (IH (acc ++ [o])). destruct (query_options ord _) as [opts|e].
    + destruct IH as (os & -> & Hos). exists (o :: os). rewrite <-app_assoc. split; [done|]. by constructor.
    + by intros [_ ?]%Forall_cons.
  - intros [Hg _]%Forall_cons. apply query_option_good in Hg as [o Ho]. cbn in Ho. congruence.
Qed.
Lemma apply_options ord os c :
  NoDup ord.*1 → Forall2 (λ e o, query_option e.1 e.2 = Ok o) ord os →
  foldl apply_option c os =
    mkConfig (limit_of (list_to_map ord) "blob_cache" (blobCache c))
      (limit_of (list_to_map ord) "output_cache" (outputCache c)).
Proof.
  intros Hnd Hos. revert c Hnd. induction Hos as [|[key values] o ord os Ho _ IH]; intros c Hnd; [by destruct c|].
  cbn [foldl fmap list_fmap fst] in *. apply NoDup_cons in Hnd as [Hk Hnd]. rewrite IH by done.
  apply not_elem_of_list_to_map_1 in Hk.
  apply query_option_Ok in Ho as (v & n & Hv & Hn & [[Hkey ->]|[Hkey ->]]); cbn in Hv, Hkey; subst;
    rewrite list_to_map_cons; unfold limit_of; rewrite lookup_insert_eq, lookup_insert_ne by done; rewrite Hk, Hn; done.
Qed.

(** The bbolt opener takes a URI exactly when it names no host, names a path and
    every option of its query is known, given once and a byte count; the caches then
    have the limits the query gives or their defaults, in whatever order the query's
    map is visited. *)
Theorem open_uri_correct ord u :
  ord ≡ₚ map_to_list (U_Query u) →
  let path := if bool_decide (U_Opaque u = "") then U_Path u else U_Opaque u in
  let good := U_Host u = "" ∧ path ≠ "" ∧ map_Forall good_option (U_Query u) in
  match open_uri ord u with
  | Ok (p, opts) => good ∧ p = path ∧
      configure opts = mkConfig (limit_of (U_Query u) "blob_cache" 67108864)
        (limit_of (U_Query u) "output_cache" 16777216)
  | Err _ => ¬ good
  end.
Proof.
  intros Hord path good. unfold open_uri. fold path.
  assert (Forall (λ e, good_option e.1 e.2) ord ↔ map_Forall good_option (U_Query u)) as Hall.
  { rewrite map_Forall_to_list, Hord. apply Forall_iff. by intros []. }
  assert (NoDup ord.*1) as Hnd by (rewrite Hord; apply NoDup_fst_map_to_list).
  assert (list_to_map ord = U_Query u) as Hmap.
  { rewrite (list_to_map_proper ord _ Hnd Hord). apply list_to_map_to_list. }
  destruct (decide (U_Host u = "")) as [Hh|Hh];
    [rewrite bool_decide_true by done|rewrite bool_decide_false by done]; cbn [negb]; [|by intros []].
  destruct (decide (path = "")) as [Hp|Hp];
    [rewrite bool_decide_true by done; by intros (_ & ? & _)|rewrite bool_decide_false by done].
  pose proof (query_options_spec ord []) as Hq. destruct (query_options ord []) as [opts|e]; [|by intros (_ & _ & ?%Hall)].
  destruct Hq as (os & -> & Hos).
  split; [split; [done|]; split; [done|]|split; [done|]].
  - apply Hall. clear -Hos. induction Hos as [|e o ord os Ho _ IH]; constructor; [|done].
    apply query_option_good. by exists o.
  - unfold configure. rewrite (apply_options ord os _ Hnd Hos), Hmap. done.
Qed.
Definition ex_url : URL :=
  mkURL "bbolt" "" "" "/tmp/db" {["blob_cache" := ["128MiB"]; "output_cache" := ["0"]]}.
Lemma open_uri_correct_witness :
  open_uri (map_to_list (U_Query ex_url)) ex_url = Ok ("/tmp/db", [WithOutputCache 0; WithBlobCache 134217728]) ∧
  configure [WithOutputCache 0; WithBlobCache 134217728] = mkConfig 134217728 0.
Proof.
  pose proof (open_uri_correct (map_to_list (U_Query ex_url)) ex_url (Permutation_refl _)) as Hu.
  assert (open_uri (map_to_list (U_Query ex_url)) ex_url =
    Ok ("/tmp/db", [WithOutputCache 0; WithBlobCache 134217728])) as E by (vm_compute; reflexivity).
  split; [exact E|]. rewrite E in Hu. destruct Hu as (_ & _ & Hc). rewrite Hc. vm_compute. reflexivity.
Defined.

(** A registered driver opens the URIs of its scheme, and keeps doing so: a scheme is
    registered once. *)
Lemma registered_driver_opens {S} Parse (drivers drivers' : gmap string (Opener (S:=S))) scheme open uri u :
  Register drivers scheme (Some open) = Ok drivers' → Parse uri = Ok u → U_Scheme u ≠ "" →
  (U_Scheme u = scheme → Open Parse drivers' uri = open u ∧
    Open Parse drivers uri = Err (ErrUnknownScheme scheme (Schemes drivers))) ∧
  (is_Some (drivers !! U_Scheme u) → Open Parse drivers' uri = Open Parse drivers uri) ∧
  ∀ open', ∃ panics, Register drivers' scheme open' = Err panics.
Proof.
  unfold Register, Open, Opener in *. destruct (drivers !! scheme) as [o|] eqn:E; [done|]. intros [= <-] -> Hs.
  rewrite bool_decide_eq_false_2 by done. split_and!.
  - intros Hu. rewrite Hu. by rewrite lookup_insert_eq, E.
  - intros [o Ho]. rewrite lookup_insert_ne by congruence. by rewrite Ho.
  - intros open'. destruct open'; [|by eexists]. rewrite lookup_insert_eq. by eexists.
Qed.
