(* ===== verification/BoltOpen.v ===== *)
(** * BoltOpen: the store's lifecycle (store/bbolt/store.go: Open, sweep, Close)

    [Open] reads a file, drains what the process before left staged and starts the
    sweep; the sweep is one tick at a time; [Close] drains and closes once.  What
    bolt.Open answers for a path - the buckets of the file, created when they are
    missing, and the page size - is a parameter.  A process that ends without [Close]
    leaves the file as its last transaction left it. *)
From S2P Require Import Prelude Kernel Driver MemStore Wire WireSample Keys BlobCache Bolt.
From S2P Require Import BoltSample BoltStore BoltStage BoltRead BoltWrite BoltView BoltOps.
From S2P Require Import BoltContract BoltRefine Opening.

(** [blobRowMaxFor], Go's division truncating towards zero. *)
Definition blobRowMaxFor (pageSize : Z) : Z := (pageSize ÷ 2)%Z.
Lemma blobRowMaxFor_nonneg pageSize : (0 <= pageSize)%Z → (0 <= blobRowMaxFor pageSize)%Z.
Proof. intros. unfold blobRowMaxFor. by apply Z.quot_pos. Qed.

Section lifecycle.
Context {B : Type} `{Bolt B} `{Protobuf}.
Implicit Types (s : BoltStore (B:=B)) (d : DB B).

(** [Open]: the store and its blobRowMax; [None] when the fuel of the drain runs out. *)
Definition bolt_Open (file : string → result OpenError (DB B * Z)) (fuel : nat)
    (path : string) (opts : list Option) : option (result OpenError (BoltStore (B:=B) * Z)) :=
  let cfg := configure opts in
  match file path with
  | Err e => Some (Err e)
  | Ok (d, pageSize) =>
    let s := opened d (blobCache cfg) (outputCache cfg) in
    match Drain fuel s with
    | None => None
    | Some (_, Err (ErrStore why)) => Some (Err (ErrDraining why))
    | Some (_, Err _) => Some (Err (ErrDraining ""))
    | Some (s, Ok _) => Some (Ok (s, blobRowMaxFor pageSize))
    end
  end.
(** One tick of [sweep]; the error of a failed drain is dropped. *)
Definition sweep_tick (fuel : nat) (s : BoltStore (B:=B)) : option (BoltStore (B:=B)) :=
  if (0 <? bo_staged s)%Z then
    match Drain fuel s with Some (s, _) => Some s | None => None end
  else Some s.
(** [Close]: [closed] is the state of [once]; [dbClose] what closing the file answers. *)
Definition bolt_Close (fuel : nat) (dbClose : result StoreError unit) (closed : bool)
    (s : BoltStore (B:=B)) : option (bool * BoltStore (B:=B) * result StoreError unit) :=
  if closed then Some (true, s, Ok tt)
  else match Drain fuel s with
       | None => None
       | Some (s, Ok _) => Some (true, s, dbClose)
       | Some (s, Err e) => Some (true, s, Err e)
       end.
End lifecycle.

Section reopening.
Context {B : Type} `{BoltLaws B} `{ProtobufLaws} (blobRowMax : Z).
Context (Hmax : (0 <= blobRowMax)%Z).
Implicit Types (s : BoltStore (B:=B)) (v : view).
Abbreviation store_history := (store_history blobRowMax).

(** The counter after a drain. *)
Lemma Drain_counts fuel s s' :
  Drain fuel s = Some (s', Ok tt) →
  bo_staged s' = (bo_staged s - Z.of_nat (length (Rows (db_staged (bo_db s)))))%Z.
Proof.
  revert s; induction fuel as [|fuel IH]; intros s Hd; [done|]. cbn in Hd.
  destruct (drainStaged (bo_db s) stageDrainPerSweep) as [[d n]|e] eqn:E; [|done].
  apply drainStaged_rows in E as [E ->]. apply (f_equal length) in E.
  rewrite length_drop, !length_fmap in E.
  case_bool_decide as Hn.
  - assert (s' = mkBolt d (bo_staged s - Z.of_nat (stageDrainPerSweep `min` length (Rows (db_staged (bo_db s)))))
      (bo_caches s)) as -> by congruence.
    cbn [bo_staged]. lia.
  - rewrite (IH _ Hd). cbn [bo_staged bo_db]. unfold stageDrainPerSweep in *. lia.
Qed.

(** C5: Whenever the process ends - closed, or killed between two transactions - the file
    opens again within the sweeps its staged runs need, and every run reads as before:
    nothing a transaction committed is lost, the caches of the old process held nothing
    the new one misses, and unless the database fails only nonterminal runs have rows. *)
Theorem reopening_keeps_runs s v file path opts pageSize :
  store_history s v → file path = Ok (bo_db s, pageSize) →
  ∃ r, bolt_Open file (sweeps s) path opts = Some r ∧
    match r with
    | Ok (s', max) => max = blobRowMaxFor pageSize ∧
        (∀ id, free id → (bolt_GetRun s' id).2 = (bolt_GetRun s id).2 ∧
          bolt_GetRunHead s' id = bolt_GetRunHead s id) ∧
        (∀ p res id, bolt_GetActiveRunID s' p res = Ok (Some id) ↔ bolt_GetActiveRunID s p res = Ok (Some id)) ∧
        lean v (bo_db s')
    | Err _ => True
    end.
Proof.
  intros Hs Hfile. unfold bolt_Open. rewrite Hfile.
  set (s0 := opened (bo_db s) (blobCache (configure opts)) (outputCache (configure opts))).
  assert (store_history s0 v) as Hs0 by by apply h_reopen.
  destruct (Drain_within_sweeps s0) as [[s' r] Hd]. change (sweeps s0) with (sweeps s) in Hd.
  rewrite Hd. pose proof (h_drain _ s0 v _ s' r Hs0 Hd) as Hs'.
  destruct r as [[]|[]]; try by eexists. eexists. split; [done|]. split; [done|]. split_and!.
  - intros id Hf. rewrite (GetRun_history blobRowMax Hmax _ _ id Hs), (GetRun_history blobRowMax Hmax _ _ id Hs') by done.
    split; [done|].
    rewrite (bolt_GetRunHead_view blobRowMax _ _ _ (history_represents blobRowMax Hmax _ _ Hs) Hf).
    by rewrite (bolt_GetRunHead_view blobRowMax _ _ _ (history_represents blobRowMax Hmax _ _ Hs') Hf).
  - intros p res id. rewrite (GetActiveRunID_history blobRowMax Hmax _ _ _ _ _ Hs).
    by rewrite (GetActiveRunID_history blobRowMax Hmax _ _ _ _ _ Hs').
  - apply (drained_lean blobRowMax Hmax _ _ Hs'), (Drain_empties _ _ _ Hd).
Qed.

(** The counter of staged runs does not start at zero: the drain of [Open] takes the
    runs it drained off it. *)
Lemma Open_counts file fuel path opts d pageSize s' max :
  file path = Ok (d, pageSize) → bolt_Open file fuel path opts = Some (Ok (s', max)) →
  bo_staged s' = (- Z.of_nat (length (Rows (db_staged d))))%Z.
Proof.
  intros Hfile. unfold bolt_Open. rewrite Hfile.
  destruct (Drain fuel _) as [[s1 [[]|[]]]|] eqn:Hd; try done. intros [= <- _].
  apply Drain_counts in Hd. by rewrite Hd.
Qed.
End reopening.

(** ** Examples *)

Definition ex_file (d : DB bucket) : string → result OpenError (DB bucket * Z) := λ _, Ok (d, 16%Z).
Lemma reopening_keeps_runs_witness :
  ∃ s', bolt_Open (ex_file (bo_db ex_s4)) 1 "/tmp/db" [] = Some (Ok (s', 8%Z)) ∧
    (bolt_GetRun s' "r1").2 = (bolt_GetRun ex_s4 "r1").2 ∧ lean ex_v4 (bo_db s').
Proof.
  destruct (reopening_keeps_runs 8 ex_max ex_s4 ex_v4 (ex_file (bo_db ex_s4)) "/tmp/db" [] 16
    ex_history4 eq_refl) as (r & Ho & Hr).
  assert (sweeps ex_s4 = 1) as E by (vm_compute; reflexivity). rewrite E in Ho.
  destruct r as [[s' max]|e].
  - destruct Hr as (-> & Hr & _ & Hl). exists s'. split; [exact Ho|]. split; [by apply Hr, ex_free|done].
  - exfalso. assert (∃ x, bolt_Open (ex_file (bo_db ex_s4)) 1 "/tmp/db" [] = Some (Ok x)) as [x Hx]
      by (eexists; vm_compute; reflexivity). congruence.
Defined.

(** A process dies with one terminal run staged; the next one opens the file, and ends
    a run of its own. *)
Definition ex_reopened : BoltStore (B:=bucket) :=
  match bolt_Open (ex_file (bo_db ex_s4)) 1 "/tmp/db" [] with Some (Ok (s, _)) => s | _ => ex_s0 end.
Definition ex_next : BoltStore (B:=bucket) :=
  let s := (bolt_CreateRun 8 ex_reopened (ex_rec "r2") []).1 in
  let s := (bolt_ApplyTransition 8 s "r2" ex_start).1 in
  let s := (bolt_ApplyTransition 8 s "r2" ex_resolve).1 in
  (bolt_ApplyTransition 8 s "r2" ex_end).1.

(** The store of a process that follows one that left a run staged: its counter is one
    short, so with a terminal run of its own staged the sweep's ticks do nothing. *)
Theorem reopened_sweep_sleeps :
  bo_staged ex_reopened = (-1)%Z ∧ length (Rows (db_staged (bo_db ex_reopened))) = 0 ∧
  length (Rows (db_staged (bo_db ex_next))) = 1 ∧ length (Rows (db_active (bo_db ex_next))) = 4 ∧
  ∀ fuel, sweep_tick fuel ex_next = Some ex_next.
Proof.
  split_and!; vm_compute; reflexivity.
Qed.
