(* ===== verification/BoltBatch.v ===== *)
(** * BoltBatch: writes that run more than once (store/bbolt/store.go, groupCommit)

    Concurrent writers commit through [bolt.DB.Batch], which runs the function of a write
    again when another of its batch fails: the transaction is rolled back, the variables
    the function captured and the counters of the store are not.  [CreateRun] is given
    here with the runs of its function that were rolled back; run once it is
    [BoltStore.bolt_CreateRun]. *)
From S2P Require Import Prelude Kernel Driver MemStore Wire WireSample Keys BlobCache Bolt.
From S2P Require Import BoltSample BoltStore BoltStage BoltRead BoltWrite BoltView BoltOps.
From S2P Require Import BoltContract BoltRefine BoltOpen.
#[local] Open Scope result_scope.

Inductive commit := Update | Batch.
(** [groupCommit]: the commit of a write, and the counter of those under way. *)
Definition groupCommit (pending : Z) : commit * Z :=
  let pending := (pending + 1)%Z in (if (1 <? pending)%Z then Batch else Update, pending).

Section batch.
Context {B : Type} `{Bolt B} `{Protobuf} (blobRowMax : Z).
Implicit Types (s : BoltStore (B:=B)) (d : DB B).

(** The variables of [CreateRun] its function assigns. *)
Record captured := mkCaptured { existing : option RunRecord; created : bool }.

(** The function [CreateRun] commits, run on a database: the counter, the caches and the
    captured variables are left as they are when the transaction is rolled back. *)
Definition create_fn d (staged : Z) (c : caches) (v : captured) (rec : RunRecord)
    (excluding : list PipelineID) : Z * caches * captured * result StoreError (DB B) :=
  let '(staged, r) := writeDrain (mkBolt d staged c) in
  match r with
  | Err e => (staged, c, v, Err e)
  | Ok d =>
    match occupant_of (db_slots d) rec excluding with
    | Some active =>
      match getRun d c active with
      | (c, Ok rec) => (staged, c, mkCaptured (Some rec) (created v), Ok d)
      | (c, Err e) => (staged, c, mkCaptured None (created v), Err e)
      end
    | None =>
      let r := let! d := putRun blobRowMax d rec in
               let! slots := bolt_ (Put (db_slots d) (slotKey rec) (Run_RunID rec)) in
               Ok (set_slots slots d) in
      match r with
      | Ok d => (staged, c, mkCaptured (existing v) true, Ok d)
      | Err e => (staged, c, v, Err e)
      end
    end
  end.

(** [CreateRun], its function run on the databases [earlier] and rolled back, then on
    the database of [s] and committed. *)
Definition create_again (rec : RunRecord) (excluding : list PipelineID)
    (st : Z * caches * captured) d : Z * caches * captured :=
  let '(staged, c, v) := st in (create_fn d staged c v rec excluding).1.
Definition CreateRun_batched (earlier : list (DB B)) s (rec : RunRecord)
    (excluding : list PipelineID) : BoltStore (B:=B) * result StoreError (option RunRecord * bool) :=
  let '(staged, c, v) :=
    foldl (create_again rec excluding) (bo_staged s, bo_caches s, mkCaptured None false) earlier in
  let '(staged, c, v, r) := create_fn (bo_db s) staged c v rec excluding in
  match r with
  | Err e => (mkBolt (bo_db s) staged c, Err e)
  | Ok d =>
    let c := if created v then
               let blobs := setInput (ca_blobs c) (Run_RunID rec) (Run_Input rec) in
               let blobs := cache_states blobRowMax blobs (Run_RunID rec) (map_to_list (Run_Steps rec)) in
               mkCaches blobs (ca_outputs c)
             else c in
    (mkBolt d staged c, Ok (existing v, created v))
  end.

Lemma CreateRun_once s rec excluding :
  CreateRun_batched [] s rec excluding = bolt_CreateRun blobRowMax s rec excluding.
Proof.
  unfold CreateRun_batched, bolt_CreateRun, create_fn, create_tx. cbn [foldl].
  replace (mkBolt (bo_db s) (bo_staged s) (bo_caches s)) with s by by destruct s.
  destruct (writeDrain s) as [staged [d|e]]; [|done].
  destruct (occupant_of (db_slots d) rec excluding) as [active|].
  - by destruct (getRun d (bo_caches s) active) as [c [existing|e]].
  - destruct (putRun blobRowMax d rec) as [d'|e]; [|done].
    by destruct (bolt_ (Put (db_slots d') _ _)) as [slots|e].
Qed.
End batch.

(** ** Admission *)

Section admission.
Context {B : Type} `{BoltLaws B} `{ProtobufLaws} (blobRowMax : Z).
Context (Hmax : (0 <= blobRowMax)%Z).
Implicit Types (s : BoltStore (B:=B)) (d : DB B) (v : view).
Abbreviation rep := (rep blobRowMax).

Lemma GetActiveRunID_rep s v p res id :
  rep (bo_db s) v → bolt_GetActiveRunID s p res = Ok (Some id) ↔ occupies v p res id.
Proof.
  intros Hr. unfold bolt_GetActiveRunID, occupies. rewrite <-(rep_slots _ _ _ Hr).
  split; [by intros [= ->]|by intros ->].
Qed.
Lemma GetActiveRunID_same s s' v p res :
  rep (bo_db s) v → rep (bo_db s') v → bolt_GetActiveRunID s' p res = bolt_GetActiveRunID s p res.
Proof.
  intros Hr Hr'. unfold bolt_GetActiveRunID. f_equal.
  apply option_eq. intros id. by rewrite (rep_slots _ _ _ Hr), (rep_slots _ _ _ Hr').
Qed.
(** The file, opened again, reads the runs of the view. *)
Lemma GetRun_reopened d v blobs outputs id :
  rep d v → free id → (bolt_GetRun (opened d blobs outputs) id).2 = view_GetRun v id.
Proof.
  intros Hr Hf. apply (bolt_GetRun_view blobRowMax Hmax); [|done]. split; [done|apply opened_caches].
Qed.

(** Whatever ran before, the run committed decides on the database it commits to. *)
Lemma CreateRun_batched_rep earlier s v rec ps s' r :
  rep (bo_db s) v → seed_ok rec → v !! Run_RunID rec = None →
  CreateRun_batched blobRowMax earlier s rec ps = (s', r) →
  match r with
  | Err _ => rep (bo_db s') v
  | Ok (ex, cr) =>
      (is_Some ex ∧ (∃ p id, p ∈ Run_PipelineID rec :: ps ∧ occupies v p (Run_ResourceID rec) id) ∧
        rep (bo_db s') v) ∨
      (cr = true ∧ (∀ p id, p ∈ Run_PipelineID rec :: ps → ¬ occupies v p (Run_ResourceID rec) id) ∧
        rep (bo_db s') (<[Run_RunID rec := Live (stage_of rec)]> v))
  end.
Proof.
  intros Hr Hseed Hid Hcr. unfold CreateRun_batched in Hcr.
  destruct (foldl _ _ earlier) as [[staged c] cv]. unfold create_fn in Hcr.
  destruct (writeDrain _) as [staged' [d|e]] eqn:Hd; [|by injection Hcr as <- <-].
  apply (writeDrain_rep_db blobRowMax _ v) in Hd; [|done].
  pose proof (occupant_of_view blobRowMax d v rec ps Hd) as Hocc.
  destruct (occupant_of (db_slots d) rec ps) as [id|].
  - destruct Hocc as (p & Hp & Hocc).
    destruct (getRun d c id) as [c' [existing|e]]; injection Hcr as <- <-; [|done].
    left. split; [by eexists|]. split; [by exists p, id|done].
  - destruct (let! d := putRun blobRowMax d rec in _) as [d'|e] eqn:Htx; injection Hcr as <- <-; [|done].
    apply let_Ok in Htx as (d1 & Hput & Htx). apply let_Ok in Htx as (slots & Hsl%bolt_Ok%Put_set & Htx).
    injection Htx as <-. right. split; [done|]. split; [done|].
    eapply (rep_create _ Hmax); [done|done|done| |done|done]. intros id. apply Hocc. by left.
Qed.

(** What a run of the store commits to the slots and runs of its file. *)
Lemma in_the_way_occupies s v rec ps p id :
  rep (bo_db s) v →
  (p ∈ Run_PipelineID rec :: ps ∧ bolt_GetActiveRunID s p (Run_ResourceID rec) = Ok (Some id)) ↔
  (p ∈ Run_PipelineID rec :: ps ∧ occupies v p (Run_ResourceID rec) id).
Proof. intros Hr. by rewrite (GetActiveRunID_rep s v). Qed.
Lemma first_read v rec :
  seed_ok rec → Run_Steps rec = ∅ → Run_Output rec = None →
  view_GetRun (<[Run_RunID rec := Live (stage_of rec)]> v) (Run_RunID rec) = Ok (encoded rec).
Proof.
  intros Hseed Hsteps Hout. unfold view_GetRun. rewrite lookup_insert_eq. f_equal.
  apply first_record; [done|apply Hseed|done|done].
Qed.
Lemma created_once s v rec ps s' r :
  store_history blobRowMax s v → seed_ok rec → v !! Run_RunID rec = None →
  bolt_CreateRun blobRowMax s rec ps = (s', r) →
  let in_the_way p id :=
    p ∈ Run_PipelineID rec :: ps ∧ bolt_GetActiveRunID s p (Run_ResourceID rec) = Ok (Some id) in
  match r with
  | Ok (Some existing, created) => created = false ∧
      ∃ p id, in_the_way p id ∧ (bolt_GetRun s id).2 = Ok existing
  | Ok (None, created) => created = true ∧ (∀ p id, ¬ in_the_way p id) ∧
      (Run_Steps rec = ∅ → Run_Output rec = None → (bolt_GetRun s' (Run_RunID rec)).2 = Ok (encoded rec))
  | Err _ => True
  end ∧
  ∀ id, free id → id ≠ Run_RunID rec ∨ (∀ o, r ≠ Ok (None, o)) →
    (bolt_GetRun s' id).2 = (bolt_GetRun s id).2.
Proof.
  intros Hs Hseed Hid Hcr in_the_way. pose proof (h_create _ s v rec ps Hs Hseed Hid) as Hs'.
  rewrite Hcr in Hs'. cbn [fst snd] in Hs'. pose proof (history_represents _ Hmax _ _ Hs) as Hr.
  pose proof (bolt_Create_view blobRowMax Hmax _ _ _ _ _ _ Hr Hseed Hid Hcr) as Hv.
  pose proof (λ p id, in_the_way_occupies s v rec ps p id (rs_db _ _ _ Hr)) as Hway. fold in_the_way in Hway.
  split.
  - destruct r as [[[existing|] created]|e]; [| |done].
    + destruct Hv as (-> & _ & p & id & Hp & Hocc & Hg). split; [done|]. exists p, id.
      split; [by apply Hway|]. rewrite (GetRun_history _ Hmax _ v); [done|done|]. destruct Hocc as (sg & Hsg & _).
      by eapply (rep_free _ _ _ (rs_db _ _ _ Hr)).
    + destruct Hv as (-> & Hno & _). split_and!; [done|by intros p id [Hp ?%Hno]%Hway|].
      intros Hsteps Hout. rewrite (GetRun_history _ Hmax _ _ _ Hs') by apply Hseed. by apply first_read.
  - intros id Hf Hne. rewrite (GetRun_history _ Hmax _ _ id Hs), (GetRun_history _ Hmax _ _ id Hs') by done.
    apply view_GetRun_lookup. unfold after_create. destruct r as [[[existing|] created]|e]; try done.
    destruct Hne as [Hne|Hne]; [by rewrite lookup_insert_ne|by destruct (Hne created)].
Qed.

(** C6: [CreateRun] admits a run exactly when no nonterminal run holds its slot or one of
    the excluded pipelines' on the resource.  However often its function ran on other
    databases and was rolled back, the database committed has the run, with its slot, when
    no run was in the way, and has the slots and runs it had when one was.  Run once, as
    when no other write is under way, it also answers so: a run admitted reads back as its
    record, and a run refused is answered with the run in its way, as a read of it would
    ([retried_create_answers_both] is the answer after a retry). *)
Theorem create_admits_exclusively earlier s v rec ps s' r :
  store_history blobRowMax s v → seed_ok rec → v !! Run_RunID rec = None →
  CreateRun_batched blobRowMax earlier s rec ps = (s', r) →
  let res := Run_ResourceID rec in
  let in_the_way p id := p ∈ Run_PipelineID rec :: ps ∧ bolt_GetActiveRunID s p res = Ok (Some id) in
  let reopened d := opened d 0 0 in
  match r with
  | Ok (ex, created) =>
      ((∃ p id, in_the_way p id) → is_Some ex ∧
        (∀ p res', bolt_GetActiveRunID s' p res' = bolt_GetActiveRunID s p res') ∧
        ∀ id, free id → (bolt_GetRun (reopened (bo_db s')) id).2 = (bolt_GetRun s id).2) ∧
      ((∀ p id, ¬ in_the_way p id) → created = true ∧
        bolt_GetActiveRunID s' (Run_PipelineID rec) res = Ok (Some (Run_RunID rec)) ∧
        (Run_Steps rec = ∅ → Run_Output rec = None →
          (bolt_GetRun (reopened (bo_db s')) (Run_RunID rec)).2 = Ok (encoded rec)) ∧
        ∀ id, free id → id ≠ Run_RunID rec →
          (bolt_GetRun (reopened (bo_db s')) id).2 = (bolt_GetRun s id).2)
  | Err _ => ∀ id, free id → (bolt_GetRun (reopened (bo_db s')) id).2 = (bolt_GetRun s id).2
  end ∧
  (earlier = [] →
    match r with
    | Ok (Some existing, created) => created = false ∧
        ∃ p id, in_the_way p id ∧ (bolt_GetRun s id).2 = Ok existing
    | Ok (None, created) => created = true ∧ (∀ p id, ¬ in_the_way p id) ∧
        (Run_Steps rec = ∅ → Run_Output rec = None → (bolt_GetRun s' (Run_RunID rec)).2 = Ok (encoded rec))
    | Err _ => True
    end ∧
    ∀ id, free id → id ≠ Run_RunID rec ∨ (∀ o, r ≠ Ok (None, o)) →
      (bolt_GetRun s' id).2 = (bolt_GetRun s id).2).
Proof.
  intros Hs Hseed Hid Hcr res in_the_way reopened.
  pose proof (rs_db _ _ _ (history_represents _ Hmax _ _ Hs)) as Hr.
  split; [|intros ->; rewrite CreateRun_once in Hcr; by eapply created_once].
  pose proof (CreateRun_batched_rep earlier s v rec ps s' r Hr Hseed Hid Hcr) as Hb.
  pose proof (λ p id, in_the_way_occupies s v rec ps p id Hr) as Hway. fold res in_the_way in Hway.
  unfold reopened.
  destruct r as [[ex created]|e].
  2:{ intros id Hf. by rewrite (GetRun_reopened _ v), (GetRun_history _ Hmax _ v). }
  destruct Hb as [(Hex & (p & id & Hp & Ho) & Hr')|(-> & Hno & Hr')]; split.
  - intros _. split_and!; [done|intros q res'; by apply (GetActiveRunID_same s s' v)|].
    intros id' Hf. by rewrite (GetRun_reopened _ v), (GetRun_history _ Hmax _ v).
  - intros Hno. destruct (Hno p id). by apply Hway.
  - intros (p & id & [Hp Ho]%Hway). by destruct (Hno p id).
  - intros _. split_and!; [done| | |].
    + apply (GetActiveRunID_rep _ _ _ _ _ Hr'). exists (stage_of rec). rewrite lookup_insert_eq.
      split; [done|]. apply stage_of_slot.
    + intros Hsteps Hout. rewrite (GetRun_reopened _ _ _ _ _ Hr') by apply Hseed. by apply first_read.
    + intros id Hf Hne. rewrite (GetRun_reopened _ _ _ _ _ Hr'), (GetRun_history _ Hmax _ v) by done.
      apply view_GetRun_lookup. by rewrite lookup_insert_ne.
Qed.
End admission.

(** ** What a retry leaves *)

Definition ex_other : BoltStore (B:=bucket) := (bolt_CreateRun 8 ex_s0 (ex_rec "r2") []).1.

(** A run is created, its batch rolled back, and before the batch runs again another
    run takes the slot: [CreateRun] answers the run in the way and that it created
    its own, which is not in the store, and caches its input. *)
Theorem retried_create_answers_both :
  let '(s, r) := CreateRun_batched 8 [bo_db ex_s0] ex_other (ex_rec "r1") [] in
  (∃ rec, r = Ok (Some rec, true) ∧ Run_RunID rec = "r2") ∧
  (bolt_GetRun s "r1").2 = Err ErrRunNotFound ∧
  (input (ca_blobs (bo_caches s)) "r1").2 = (Some "a long input", true).
Proof. vm_compute. split; [by eexists|done]. Qed.

(** The retry above leaves the run in the way where it was; and of the same write retried
    with nothing in the way, its run is admitted. *)
Lemma ex_history_other : store_history 8 ex_other (after_create (ex_rec "r2") ∅
  (bolt_CreateRun 8 ex_s0 (ex_rec "r2") []).2).
Proof.
  apply h_create; [apply h_open, ex_fresh| |done].
  split; [by apply (bool_decide_unpack _)|done|by apply (bool_decide_unpack _); vm_compute|].
  intros sid sr. cbn. by rewrite lookup_empty.
Qed.
Lemma create_admits_exclusively_witness :
  bolt_GetActiveRunID (CreateRun_batched 8 [bo_db ex_s0] ex_other (ex_rec "r1") []).1 "p" "res" = Ok (Some "r2") ∧
  bolt_GetActiveRunID (CreateRun_batched 8 [bo_db ex_s0] ex_s0 (ex_rec "r1") ["q"]).1 "p" "res" = Ok (Some "r1").
Proof.
  split.
  - destruct (create_admits_exclusively 8 ex_max [bo_db ex_s0] ex_other _ (ex_rec "r1") []
      (CreateRun_batched 8 [bo_db ex_s0] ex_other (ex_rec "r1") []).1
      (CreateRun_batched 8 [bo_db ex_s0] ex_other (ex_rec "r1") []).2 ex_history_other ex_seed) as [Hany _].
    + vm_compute. reflexivity.
    + apply surjective_pairing.
    + assert (∃ ans, (CreateRun_batched 8 [bo_db ex_s0] ex_other (ex_rec "r1") []).2 = Ok ans) as [[ex cr] E]
        by (eexists; vm_compute; reflexivity).
      rewrite E in Hany. destruct Hany as [Hheld _].
      destruct Hheld as (_ & Hslots & _); [|rewrite Hslots; vm_compute; reflexivity].
      exists "p", "r2". split; [by left|vm_compute; reflexivity].
  - destruct (create_admits_exclusively 8 ex_max [bo_db ex_s0] ex_s0 ∅ (ex_rec "r1") ["q"]
      (CreateRun_batched 8 [bo_db ex_s0] ex_s0 (ex_rec "r1") ["q"]).1
      (CreateRun_batched 8 [bo_db ex_s0] ex_s0 (ex_rec "r1") ["q"]).2 (h_open _ _ _ _ ex_fresh) ex_seed) as [Hany _].
    + done.
    + apply surjective_pairing.
    + assert (∃ ans, (CreateRun_batched 8 [bo_db ex_s0] ex_s0 (ex_rec "r1") ["q"]).2 = Ok ans) as [[ex cr] E]
        by (eexists; vm_compute; reflexivity).
      rewrite E in Hany. destruct Hany as [_ Hfree]. destruct Hfree as (_ & Hslot & _); [|exact Hslot].
      intros p id [Hp%list_elem_of_In Hg].
      destruct Hp as [<-|[<-|[]]]; vm_compute in Hg; discriminate Hg.
Defined.

(** A file with [stageDrainPerWrite] staged runs whose stages are gone. *)
Definition ex_staged : DB bucket :=
  set_staged (foldl (λ b n, match Put b [ascii_of_nat n] "" with Ok b => b | Err _ => b end)
    (mkBucket ∅) (seq 65 64)) ex_empty.
(** A drain rolled back stays taken off the counter: after one retry a batch of runs is
    staged and none is counted, so neither the writes nor the sweep drain them. *)
Theorem retried_drain_miscounts :
  let s := mkBolt ex_staged 64 (mkCaches (newBlobCache 100) (newBlobCache 100)) in
  let '(s', _) := CreateRun_batched 8 [ex_staged] s (ex_rec "r1") [] in
  length (Rows (db_staged (bo_db s'))) = 64 ∧ bo_staged s' = 0%Z.
Proof. vm_compute. split; reflexivity. Qed.
