(* ===== verification/Observe.v ===== *)
(** * Observe: events, the observed store and the occupancy snapshot
    (observe/observe.go, engine/observer.go)

    An observer is its callbacks, functions on a state of their own that may panic.
    Delivery reaches every subscribed observer in installation order whatever the others
    do; a store under a StoreOp subscription answers and keeps what the store itself
    does, one event per call; and [Stats] counts the runs it names.  The text of the log
    lines is left out, their number kept. *)
From S2P Require Import Signals TokenPool RunPool JoinSet MemStore.
From S2P Require Import Prelude Kernel Driver Engine.

(** ** Events *)

Definition AttemptResult_String (r : AttemptResult) : string :=
  match r with
  | AttemptSucceeded => "succeeded"
  | AttemptRetrying => "retrying"
  | AttemptFailed => "failed"
  | AttemptAwaiting => "awaiting"
  | AttemptInterrupted => "interrupted"
  | AttemptCanceled => "canceled"
  end.

Record RunEvent := mkRunEvent {
  RE_PipelineID : PipelineID; RE_ResourceID : ResourceID; RE_RunID : RunID;
  RE_StartAt : Time; RE_Annotations : option (gmap string string);
}.
Record AttemptEvent := mkAttemptEvent {
  AE_PipelineID : PipelineID; AE_ResourceID : ResourceID; AE_RunID : RunID;
  AE_StepID : StepID; AE_Phase : Phase; AE_Attempt : Z; AE_Duration : Duration;
  AE_Result : AttemptResult; AE_Err : option string; AE_RetryIn : Duration; AE_Panicked : bool;
}.
Record RunFailureEvent := mkRunFailureEvent {
  RF_PipelineID : PipelineID; RF_ResourceID : ResourceID; RF_RunID : RunID;
  RF_StepID : StepID; RF_Kind : FailureKind; RF_Reason : string; RF_Message : string;
}.
Record RunTerminalEvent := mkRunTerminalEvent {
  RT_PipelineID : PipelineID; RT_ResourceID : ResourceID; RT_RunID : RunID;
  RT_Outcome : Outcome; RT_Kind : FailureKind; RT_Reason : string; RT_Duration : Duration;
  RT_Annotations : option (gmap string string);
}.
Record WakeEvent := mkWakeEvent {
  WE_PipelineID : PipelineID; WE_ResourceID : ResourceID; WE_RunID : RunID;
  WE_Targets : list RunID; WE_Done : list RunID; WE_Expired : bool; WE_Duration : Duration;
}.
Inductive ClassScope := ClassScopeOperation | ClassScopeRun.
Definition ClassScope_String (s : ClassScope) : string :=
  match s with ClassScopeRun => "run" | ClassScopeOperation => "operation" end.
Record ClassWaitEvent := mkClassWaitEvent {
  CW_PipelineID : PipelineID; CW_ResourceID : ResourceID; CW_RunID : RunID;
  CW_Class : string; CW_Scope : ClassScope; CW_Duration : Duration;
}.
Record StoreOpEvent := mkStoreOpEvent {
  SO_Op : string; SO_Write : bool; SO_Duration : Duration; SO_Err : option StoreError;
}.

(** ** Delivery *)

Section observers.
Context {O : Type}.

(** A callback: the observers' state after it, and whether it panicked. *)
Definition callback (E : Type) : Type := E → O → O * bool.
Record Observer := mkObserver {
  RunScheduled : option (callback RunEvent);
  AttemptDone : option (callback AttemptEvent);
  RunUnwinding : option (callback RunFailureEvent);
  RunTerminal : option (callback RunTerminalEvent);
  RunInvalid : option (callback RunFailureEvent);
  WaiterWoken : option (callback WakeEvent);
  ClassWait : option (callback ClassWaitEvent);
  RunsReaped : option (callback Z);
  StoreOp : option (callback StoreOpEvent);
}.

(** The observers' state, and how many panics were logged. *)
Record Telemetry := mkTelemetry { t_state : O; t_panics : nat }.

Definition WithObserver (installed os : list Observer) : list Observer := installed ++ os.
Definition copyAnnotations (m : gmap string string) : option (gmap string string) :=
  if bool_decide (m = ∅) then None else Some m.

Definition emit {E} (f : option (callback E)) (ev : E) (t : Telemetry) : Telemetry :=
  match f with
  | None => t
  | Some f =>
    let '(o, panicked) := f ev (t_state t) in
    mkTelemetry o (if panicked then S (t_panics t) else t_panics t)
  end.
(** The loop of every [emit...] method over the installed observers. *)
Definition emit_all {E} (field : Observer → option (callback E)) (observers : list Observer)
    (ev : E) (t : Telemetry) : Telemetry :=
  foldl (λ t o, emit (field o) ev t) t observers.

Definition emitRunScheduled := emit_all RunScheduled.
Definition emitAttemptDone := emit_all AttemptDone.
Definition emitRunUnwinding := emit_all RunUnwinding.
Definition emitRunInvalid := emit_all RunInvalid.
Definition emitWaiterWoken := emit_all WaiterWoken.
Definition emitClassWait := emit_all ClassWait.
Definition emitRunsReaped := emit_all RunsReaped.
Definition emitStoreOp := emit_all StoreOp.
(** [emitRunTerminal]: [None] is the dereference of a nil Outcome. *)
Definition terminal_event (rec : RunRecord) (oc : Outcome) : RunTerminalEvent :=
  mkRunTerminalEvent (Run_PipelineID rec) (Run_ResourceID rec) (Run_RunID rec) oc
    (match Run_Failure rec with Some f => Failure_Kind f | None => FailureKindSystem end)
    (match Run_Failure rec with Some f => Failure_Reason f | None => "" end)
    (TimeSub (Run_UpdatedAt rec) (Run_CreatedAt rec)) (copyAnnotations (Run_Annotations rec)).
Definition emitRunTerminal (observers : list Observer) (rec : RunRecord) (t : Telemetry)
    : option Telemetry :=
  match observers with
  | [] => Some t
  | _ =>
    match Run_Outcome rec with
    | None => None
    | Some oc => Some (emit_all RunTerminal observers (terminal_event rec oc) t)
    end
  end.
Definition hasStoreObserver (observers : list Observer) : bool :=
  existsb (λ o, match StoreOp o with Some _ => true | None => false end) observers.

(** ** The observed store *)

Section store.
Context {S : Type} `{Store S} (observers : list Observer).

(** The inner store, the engine's clock with the readings taken of it, and the
    observers. *)
Record observedStore := mkObserved {
  inner : S; clock : nat → Time; readings : nat; telemetry : Telemetry;
}.
(** The event of a call that started at one reading and ends at the next. *)
Definition op (name : string) (write : bool) (err : option StoreError) (i : S)
    (s : observedStore) : observedStore :=
  let start := clock s (readings s) in
  let now := clock s (readings s + 1) in
  mkObserved i (clock s) (readings s + 2)
    (emitStoreOp observers (mkStoreOpEvent name write (TimeSub now start) err) (telemetry s)).
Definition err_of {A} (r : result StoreError A) : option StoreError :=
  match r with Ok _ => None | Err e => Some e end.

Definition observed_CreateRun (s : observedStore) rec excluding :=
  let '(i, r) := CreateRun (inner s) rec excluding in (op "CreateRun" true (err_of r) i s, r).
Definition observed_GetRun (s : observedStore) id :=
  let r := GetRun (inner s) id in (op "GetRun" false (err_of r) (inner s) s, r).
Definition observed_GetRunHead (s : observedStore) id :=
  let r := GetRunHead (inner s) id in (op "GetRunHead" false (err_of r) (inner s) s, r).
Definition observed_ApplyTransition (s : observedStore) id t :=
  let '(i, r) := ApplyTransition (inner s) id t in
  (op "ApplyTransition" true (err_of r) i s, r).
Definition observed_RequestCancel (s : observedStore) id req :=
  let '(i, r) := RequestCancel (inner s) id req in (op "RequestCancel" true (err_of r) i s, r).
Definition observed_ReapTerminal (s : observedStore) before limit :=
  let '(i, r) := ReapTerminal (inner s) before limit in
  (op "ReapTerminal" true (err_of r) i s, r).
Definition observed_ListNonterminal (s : observedStore) :=
  let r := ListNonterminal (inner s) in (op "ListNonterminal" false (err_of r) (inner s) s, r).
Definition observed_GetActiveRunID (s : observedStore) pipeline resource :=
  let r := GetActiveRunID (inner s) pipeline resource in
  (op "GetActiveRunID" false (err_of r) (inner s) s, r).
(** [Close], of whatever a store does when it is closed. *)
Definition observed_Close (Close : S → S * result StoreError unit) (s : observedStore) :=
  let '(i, r) := Close (inner s) in (op "Close" false (err_of r) i s, r).

(** The decorator is a store; the interface drops the event of a read. *)
#[export] Instance observed_Store : Store observedStore := {|
  CreateRun := observed_CreateRun;
  GetRun s id := (observed_GetRun s id).2;
  GetRunHead s id := (observed_GetRunHead s id).2;
  ApplyTransition := observed_ApplyTransition;
  ReapTerminal := observed_ReapTerminal;
  RequestCancel := observed_RequestCancel;
  ListNonterminal s := (observed_ListNonterminal s).2;
  GetActiveRunID s p res := (observed_GetActiveRunID s p res).2;
|}.
End store.
End observers.

(** ** Observation changes nothing *)

Section transparent.
Context {O S : Type} `{Store S} (observers : list (Observer (O:=O))).
Abbreviation observedStore := (observedStore (O:=O) (S:=S)).
Implicit Types (s : observedStore).

(** Of a delivery: every subscribed callback has run, in installation order, on the
    state the one before it left, whether or not it panicked; each panic is a line. *)
Definition heard {E} (field : Observer (O:=O) → option (callback E)) (ev : E) (o : O)
    (os : list (Observer (O:=O))) : O :=
  foldl (λ o ob, match field ob with Some f => (f ev o).1 | None => o end) o os.
Lemma emit_all_heard {E} (field : Observer (O:=O) → option (callback E)) os (ev : E) t :
  t_state (emit_all field os ev t) = heard field ev (t_state t) os ∧
  t_panics t ≤ t_panics (emit_all field os ev t) ≤ t_panics t + length os.
Proof.
  unfold emit_all, heard. revert t; induction os as [|ob os IH]; intros t; cbn [foldl length]; [split; [done|lia]|].
  destruct (IH (emit (field ob) ev t)) as [-> Hb].
  unfold emit in *. destruct (field ob) as [f|]; [|split; [done|lia]].
  destruct (f ev (t_state t)) as [o panicked]. cbn in *. split; [done|]. destruct panicked; lia.
Qed.

(** What a call leaves: the inner store of the call, one event and two readings of the
    clock. *)
Definition one_event (name : string) (write : bool) {A} (r : result StoreError A) (s s' : observedStore) : Prop :=
  clock s' = clock s ∧ readings s' = readings s + 2 ∧
  telemetry s' = emitStoreOp observers (mkStoreOpEvent name write
    (TimeSub (clock s (readings s + 1)) (clock s (readings s))) (err_of r)) (telemetry s).
Lemma op_one_event name write {A} (r : result StoreError A) i s :
  one_event name write r s (op observers name write (err_of r) i s).
Proof. done. Qed.

(** The laws of the store are those of the store inside: the theorems about an engine on
    a lawful store hold of one that is observed. *)
#[export] Instance observed_laws (ok : S → Prop) `{!StoreLaws S ok} :
  StoreLaws (H:=observed_Store observers) observedStore (λ s, ok (inner s)).
Proof.
  pose proof (λ s, @law_apply S _ ok _ (inner s)) as Happ.
  constructor; intros s; cbn -[record_after];
    unfold observed_ApplyTransition, observed_RequestCancel; intros *; intros Hok;
    try (destruct (ApplyTransition (inner s) _ _) as [? ?] eqn:Ha);
    try (destruct (RequestCancel (inner s) _ _) as [? ?] eqn:Hc); cbn -[record_after].
  - by apply law_id.
  - by apply law_head.
  - by apply law_head_missing.
  - intros Hg [= <- ->]. by eapply Happ.
  - intros [= <- _]. by eapply law_apply_ok.
  - intros [= <- ->]. by eapply law_apply_err.
  - intros [= <- _]. by eapply law_apply_other.
  - intros Hg Ht [= <- ->]. by eapply law_apply_terminal.
  - intros [= <- _]. by eapply law_cancel_ok.
  - intros [= <- ->]. by eapply law_cancel_err.
  - intros Hg [= <- ->]. by eapply law_cancel.
  - intros [= <- _]. by eapply law_cancel_other.
Qed.

(** A call of the observed store is the call of the store inside and one event. *)
Definition transparent {A} (name : string) (write : bool) (call : observedStore → observedStore * result StoreError A)
    (plain : S → S * result StoreError A) : Prop :=
  ∀ s, let '(s', r) := call s in (inner s', r) = plain (inner s) ∧ one_event name write r s s'.
Definition reading {A} (get : S → result StoreError A) (i : S) : S * result StoreError A := (i, get i).

(** C35: Observers change nothing and miss nothing.  Whatever callbacks are installed, and
    whether they panic, each event reaches every subscribed callback in installation
    order; each call of the observed store answers what the store answers, leaves the
    store as the call does and is reported once, by its name, as a write exactly when
    it is one; and the observed store keeps the contract the engine relies on. *)
Theorem observation_transparent :
  (∀ E field os (ev : E) (t : Telemetry (O:=O)), t_state (emit_all field os ev t) = heard field ev (t_state t) os) ∧
  (∀ rec ps, transparent "CreateRun" true (λ s, observed_CreateRun observers s rec ps) (λ i, CreateRun i rec ps)) ∧
  (∀ id, transparent "GetRun" false (λ s, observed_GetRun observers s id) (reading (λ i, GetRun i id))) ∧
  (∀ id, transparent "GetRunHead" false (λ s, observed_GetRunHead observers s id) (reading (λ i, GetRunHead i id))) ∧
  (∀ id tr, transparent "ApplyTransition" true (λ s, observed_ApplyTransition observers s id tr) (λ i, ApplyTransition i id tr)) ∧
  (∀ id c, transparent "RequestCancel" true (λ s, observed_RequestCancel observers s id c) (λ i, RequestCancel i id c)) ∧
  (∀ b n, transparent "ReapTerminal" true (λ s, observed_ReapTerminal observers s b n) (λ i, ReapTerminal i b n)) ∧
  transparent "ListNonterminal" false (observed_ListNonterminal observers) (reading ListNonterminal) ∧
  (∀ p res, transparent "GetActiveRunID" false (λ s, observed_GetActiveRunID observers s p res)
     (reading (λ i, GetActiveRunID i p res))) ∧
  (∀ Close, transparent "Close" false (observed_Close observers Close) Close) ∧
  ∀ ok, StoreLaws S ok → StoreLaws (H:=observed_Store observers) observedStore (λ s, ok (inner s)).
Proof.
  split; [intros; apply emit_all_heard|].
  split_and!; try (intros *; intros s; unfold observed_CreateRun, observed_ApplyTransition,
    observed_RequestCancel, observed_ReapTerminal; try destruct (CreateRun _ _ _); try destruct (ApplyTransition _ _ _);
    try destruct (RequestCancel _ _ _); try destruct (ReapTerminal _ _ _); by split);
    [by intros Close s; unfold observed_Close; destruct (Close (inner s)); split|].
  intros ok Hok. apply _.
Qed.
End transparent.

(** ** The occupancy snapshot *)

Record ClassStats := mkClassStats { CS_Capacity : Z; CS_InUse : Z; CS_Waiting : Z }.
Record RunClassStats := mkRunClassStats {
  RS_Capacity : Z; RS_InUse : Z; RS_Waiting : Z; RS_Queued : Z;
}.
Record EngineStats := mkEngineStats {
  ES_ActiveRuns : Z; ES_AwaitingRuns : Z; ES_ThrottledRuns : Z; ES_DelayedRuns : Z;
  ES_InvalidRuns : Z; ES_Classes : option (gmap string ClassStats);
  ES_QueuedRuns : Z; ES_RunClasses : option (gmap string RunClassStats);
}.

(** [Stats]; [disp] is the dispatcher's Active and Delayed, once the engine started. *)
Definition class_stats (u : TokenPool.Usage) : ClassStats :=
  mkClassStats (TokenPool.u_Capacity u) (TokenPool.u_InUse u) (TokenPool.u_Waiting u).
Definition run_class_stats (u : RunPool.Usage) : RunClassStats :=
  mkRunClassStats (RunPool.u_Capacity u) (RunPool.u_InUse u) (RunPool.u_Waiting u) (RunPool.u_Pending u).
Definition Stats {S} (disp : option (nat * nat)) (w : World S) : EngineStats :=
  let '(active, delayed) := default (0, 0) disp in
  let classes := TokenPool.Snapshot (w_pool w) in
  let runs := RunPool.Snapshot (w_runs w) in
  mkEngineStats (Z.of_nat active) (Z.of_nat (JoinSet.Len (w_joins w)))
    (map_fold (λ _ u n, (n + TokenPool.u_Waiting u)%Z) 0%Z (default ∅ classes)) (Z.of_nat delayed)
    (Z.of_nat (size (w_invalid w))) (fmap (M:=gmap string) class_stats <$> classes)
    (map_fold (λ _ u n, (n + RunPool.u_Waiting u)%Z) 0%Z (default ∅ runs)) (fmap (M:=gmap string) run_class_stats <$> runs).

(** A sum over the classes of the lengths of disjoint lists counts their members. *)
Lemma fold_lengths {V A} (m : gmap string V) (line : V → list A) (f : V → Z) (all : list A) :
  (∀ v, f v = Z.of_nat (length (line v))) →
  (∀ k v, m !! k = Some v → NoDup (line v)) →
  (∀ k k' v v' x, m !! k = Some v → m !! k' = Some v' → x ∈ line v → x ∈ line v' → k = k') →
  NoDup all → (∀ x, x ∈ all ↔ ∃ k v, m !! k = Some v ∧ x ∈ line v) →
  map_fold (λ _ v n, (n + f v)%Z) 0%Z m = Z.of_nat (length all).
Proof.
  intros Hf Hnd Hdis Hall Hin.
  assert (all ≡ₚ map_to_list m ≫= (λ e, line e.2)) as ->.
  { apply NoDup_Permutation; [done| |].
    - apply NoDup_bind; [|intros [k v] Hkv%elem_of_map_to_list; by eapply Hnd|apply NoDup_map_to_list].
      intros [k v] [k' v'] x Hkv%elem_of_map_to_list Hkv'%elem_of_map_to_list Hx Hx'. cbn in *.
      assert (k = k') as -> by by eapply Hdis. congruence.
    - intros x. rewrite Hin, list_elem_of_bind. split.
      + intros (k & v & Hkv & Hx). exists (k, v). split; [done|]. by apply elem_of_map_to_list.
      + intros ([k v] & Hx & Hkv%elem_of_map_to_list). by exists k, v. }
  rewrite map_fold_foldr. clear -Hf. induction (map_to_list m) as [|[k v] l IH]; [done|].
  cbn. rewrite IH, Hf, length_app. lia.
Qed.

Lemma token_usage (p : TokenPool.Pool (K:=string) (W:=RunID)) :
  default ∅ (TokenPool.Snapshot p) = (λ c, TokenPool.mkUsage (TokenPool.c_capacity c) (TokenPool.c_inUse c)
    (Z.of_nat (length (TokenPool.c_waiters c)))) <$> TokenPool.p_classes p.
Proof.
  unfold TokenPool.Snapshot. destruct (decide _) as [E|]; [|done]. cbn.
  apply map_size_empty_iff in E. by rewrite E, fmap_empty.
Qed.
Lemma run_usage (p : RunPool.Pool (K:=string) (W:=RunID) (O:=string)) :
  default ∅ (RunPool.Snapshot p) = (λ c, RunPool.mkUsage (RunPool.c_capacity c) (RunPool.c_inUse c)
    (Z.of_nat (length (filter (λ x, x.1 ∈ RunPool.p_parked p) (RunPool.c_line c)))) (RunPool.pendingCount c))
    <$> RunPool.p_classes p.
Proof.
  unfold RunPool.Snapshot. destruct (decide _) as [E|]; [|done]. cbn.
  apply map_size_empty_iff in E. by rewrite E, fmap_empty.
Qed.
Lemma throttled (p : TokenPool.Pool (K:=string) (W:=RunID)) :
  TokenPool.tp_ok p →
  map_fold (λ _ u n, (n + TokenPool.u_Waiting u)%Z) 0%Z (default ∅ (TokenPool.Snapshot p)) =
    Z.of_nat (size (TokenPool.p_parked p)).
Proof.
  intros Hp. rewrite token_usage, map_fold_fmap, <-length_map_to_list, <-length_fmap with (f:=fst).
  apply (fold_lengths _ TokenPool.c_waiters); [done|apply (TokenPool.ok_nodup _ Hp)| |apply NoDup_fst_map_to_list|].
  - intros k k' v v' x Hk Hk' Hx Hx'. apply (TokenPool.ok_line _ Hp _ _ _ Hk) in Hx as [s Hs].
    apply (TokenPool.ok_line _ Hp _ _ _ Hk') in Hx' as [s' Hs']. congruence.
  - intros x. rewrite list_elem_of_fmap. split.
    + intros ([x' [k s]] & -> & Hx%elem_of_map_to_list).
      destruct (TokenPool.ok_parked _ Hp _ _ _ Hx) as [c Hc]. exists k, c. split; [done|].
      apply (TokenPool.ok_line _ Hp _ _ _ Hc). by exists s.
    + intros (k & c & Hc & Hx). apply (TokenPool.ok_line _ Hp _ _ _ Hc) in Hx as [s Hs].
      exists (x, (k, s)). split; [done|]. by apply elem_of_map_to_list.
Qed.
Lemma parked_line (p : RunPool.Pool (K:=string) (W:=RunID) (O:=string)) cls k c w :
  RunPool.rp_ok String.le cls p → RunPool.p_classes p !! k = Some c →
  w ∈ (filter (λ x, x.1 ∈ RunPool.p_parked p) (RunPool.c_line c)).*1 ↔
    w ∈ RunPool.p_parked p ∧ RunPool.p_pending p !! w = Some k.
Proof.
  intros Hr Hc. rewrite list_elem_of_fmap. split.
  - intros ([x o] & -> & [Hx Hin]%list_elem_of_filter). split; [done|].
    by apply (RunPool.ok_line _ _ _ Hr _ _ _ Hc), (list_elem_of_fmap_2 fst (RunPool.c_line c) (x, o)).
  - intros [Hx Hpd]. destruct (RunPool.ok_parked _ _ _ Hr _ Hx) as [_ Hs].
    assert (w ∈ (RunPool.c_line c).*1) as Hin by by apply (RunPool.ok_line _ _ _ Hr _ _ _ Hc).
    apply list_elem_of_fmap in Hin as ([x o] & -> & Hin). exists (x, o). split; [done|].
    by apply list_elem_of_filter.
Qed.
Lemma queued (p : RunPool.Pool (K:=string) (W:=RunID) (O:=string)) cls :
  RunPool.rp_ok String.le cls p →
  map_fold (λ _ u n, (n + RunPool.u_Waiting u)%Z) 0%Z (default ∅ (RunPool.Snapshot p)) =
    Z.of_nat (size (RunPool.p_parked p)).
Proof.
  intros Hr. rewrite run_usage, map_fold_fmap. change (size (RunPool.p_parked p)) with (length (elements (RunPool.p_parked p))).
  apply (fold_lengths _ (λ c, (filter (λ x, x.1 ∈ RunPool.p_parked p) (RunPool.c_line c)).*1)).
  - intros c. cbn. by rewrite length_fmap.
  - intros k c Hc. eapply sublist_NoDup; [by apply (RunPool.ok_nodup _ _ _ Hr _ _ Hc)|].
    apply fmap_sublist, sublist_filter.
  - intros k k' c c' x Hc Hc' [_ Hx]%(parked_line _ _ _ _ _ Hr Hc) [_ Hx']%(parked_line _ _ _ _ _ Hr Hc'). congruence.
  - apply NoDup_elements.
  - intros x. rewrite elem_of_elements. split.
    + intros Hx. destruct (RunPool.ok_parked _ _ _ Hr _ Hx) as [[k Hk] _].
      destruct (RunPool.ok_pending _ _ _ Hr _ _ Hk) as [_ [c Hc]]. exists k, c. split; [done|].
      by apply (parked_line _ _ _ _ _ Hr Hc).
    + intros (k & c & Hc & Hx). by apply (parked_line _ _ _ _ _ Hr Hc) in Hx as [Hx _].
Qed.

(** The snapshot counts what it names: the throttled runs are the members parked on
    the token pool, the queued runs those parked in the lines of the run classes, each
    once, whatever order the classes are visited in; and no class is over its capacity in
    tokens of operations. *)
Theorem Stats_counts {S} disp (w : World S) (cls : RunID → string) :
  TokenPool.tp_ok (w_pool w) → RunPool.rp_ok String.le cls (w_runs w) →
  let st := Stats disp w in
  ES_ThrottledRuns st = Z.of_nat (size (TokenPool.p_parked (w_pool w))) ∧
  ES_QueuedRuns st = Z.of_nat (size (RunPool.p_parked (w_runs w))) ∧
  ∀ cs name c, ES_Classes st = Some cs → cs !! name = Some c →
    (0 <= CS_InUse c <= Z.max 0 (CS_Capacity c))%Z.
Proof.
  intros Hp Hr st. unfold st, Stats. destruct (default (0, 0) disp) as [active delayed].
  cbn [ES_ThrottledRuns ES_QueuedRuns ES_Classes]. split; [by apply throttled|]. split; [by eapply queued|].
  intros cs name c Hcs Hc. unfold TokenPool.Snapshot in Hcs. destruct (decide _); [done|]. cbn in Hcs.
  injection Hcs as <-. rewrite !lookup_fmap in Hc.
  destruct (TokenPool.p_classes (w_pool w) !! name) as [k|] eqn:Hk; [|done]. injection Hc as <-.
  by apply (TokenPool.ok_inUse _ Hp _ _ Hk).
Qed.

(** ** Examples *)

(** Two runs on a class of one token: one works, one is throttled. *)
Definition ex_pool : TokenPool.Pool (K:=string) (W:=RunID) :=
  let p := TokenPool.New {["gpu" := 1%Z]} in
  let p := (TokenPool.Acquire p "gpu" "r1" false 5).1 in (TokenPool.Acquire p "gpu" "r2" false 6).1.
Definition ex_busy : World MemStore :=
  mkWorld MemStore.New 7 ex_pool (RunPool.New ∅) js_empty ∅ 0 ∅ ∅ ∅ ∅ false false [].
Lemma Stats_counts_witness :
  ES_ThrottledRuns (Stats (Some (2, 0)) ex_busy) = 1%Z ∧
  ES_Classes (Stats (Some (2, 0)) ex_busy) = Some {["gpu" := mkClassStats 1 1 1]}.
Proof.
  destruct (Stats_counts (Some (2, 0)) ex_busy (λ _, "")) as (Ht & _).
  - apply TokenPool.Acquire_ok, TokenPool.Acquire_ok, TokenPool.tokenpool_New_ok.
  - apply RunPool.runpool_New_ok.
  - split; [rewrite Ht|]; vm_compute; reflexivity.
Defined.

(** One observer panics on every store call, the next one still hears of each. *)
Definition ex_observers : list (Observer (O:=list string)) :=
  let silent := mkObserver None None None None None None None None None in
  let hears who panics := mkObserver None None None None None None None None
    (Some (λ ev o, (o ++ [who +:+ SO_Op ev], panics))) in
  [hears "a:" true; silent; hears "b:" false].
Example observed_panic :
  let s := mkObserved MemStore.New (λ n, Z.of_nat n) 0 (mkTelemetry [] 0) in
  let '(s', r) := observed_GetRun ex_observers s "r1" in
  r = Err ErrRunNotFound ∧ telemetry s' = mkTelemetry ["a:GetRun"; "b:GetRun"] 1.
Proof. by vm_compute. Qed.
