(* ===== verification/Lifecycle.v ===== *)
(** * Lifecycle: starting and stopping an engine, and the pace of retention
    (engine/engine.go: Start, Stop, retentionLoop)

    [Start] is the registration's ([Binding.start_registry]) and the recovery
    ([Api.recover]) in the order of the code; [Stop] is its two phases with what the
    other goroutines do between them; [processRun_among] is a worker with what they do
    before each of its turns.  An engine that drains or has stopped calls no handler any
    more, whenever it begins to ([stopping_starts_nothing]). *)
From S2P Require Import Signals TokenPool RunPool JoinSet MemStore Binding.
From S2P Require Import Prelude Kernel Text Errors Ledger Driver Engine Sample Machine Carry.
From S2P Require Import Attempts Progress Api.
#[local] Open Scope engine_scope.

Inductive StartError := AlreadyStarted | ClassOfBothKinds | Discovering (e : StoreError).
Inductive StopError := StopNotStarted | StopContext.

Section lifecycle.
Context {S H : Type} `{Store S}.
Implicit Types (cfg : Config (S:=S) (H:=H)) (r : Registry (H:=H)) (w : World S).

(** The deployment over a registry. *)
Definition with_defs cfg r : Config (S:=S) (H:=H) :=
  mkEngineConfig (e_textLimit cfg) (e_recoveryBackoff cfg) (e_terminalAfter cfg)
    (e_runClassQueue cfg) r (e_call cfg) (e_reduce cfg) (e_reduceFailure cfg)
    (e_backoff cfg) (e_newRunID cfg).

(** [Start]: the registry and the state after it, and its error; the retention loop runs
    when it answers [Ok true]. *)
Definition Start (e : Options) cfg r w : Registry (H:=H) * World S * result StartError bool :=
  if started r then (r, w, Err AlreadyStarted)
  else if negb (checkRunClasses e) then (r, w, Err ClassOfBothKinds)
  else match start_registry r with
       | Err _ => (r, w, Err AlreadyStarted)
       | Ok r =>
         match recover (with_defs cfg r) w with
         | (w, Err err) => (r, w, Err (Discovering err))
         | (w, Ok _) => (r, w, Ok (0 <? op_terminalAfter e)%Z)
         end
       end.

(** [Stop], with what the others do while it drains and after the cancellation;
    [finished] when they ended before the caller's context did. *)
Definition Stop (e : Options) r (drain finish : World S → World S) (finished : bool)
    : M S (result StopError unit) :=
  if negb (started r) then mret (Err StopNotStarted)
  else
    Stop_begin e;;
    (if (0 <? op_drainTimeout e)%Z then modify drain else mret tt);;
    Stop_end;;
    modify finish;;
    mret (if finished then Ok tt else Err StopContext).
End lifecycle.

(** The wait of [retentionLoop] between two sweeps: [r] is [mrand.Int64N(d/2)], which
    panics ([None]) when its bound is not positive. *)
Definition retention_wait (d r : Duration) : option Duration :=
  if (d ÷ 2 <=? 0)%Z then None
  else Some (wrap_i64 (wrap_i64 (d ÷ 2 + d ÷ 4) + r)).

(** The jitter of an interval of two nanoseconds up to half of what a duration holds. *)
Lemma retention_wait_jitter d r :
  (2 <= d <= 2 ^ 62)%Z → (0 <= r < d ÷ 2)%Z →
  ∃ x, retention_wait d r = Some x ∧ (3 * d - 5 <= 4 * x < 5 * d)%Z.
Proof.
  intros Hd Hr. unfold retention_wait. rewrite !Z.quot_div_nonneg in * by lia.
  pose proof (Z.div_mod d 2). pose proof (Z.mod_pos_bound d 2).
  pose proof (Z.div_mod d 4). pose proof (Z.mod_pos_bound d 4).
  rewrite (proj2 (Z.leb_gt _ _)) by lia. eexists. split; [done|].
  rewrite (wrap_i64_small (d / 2 + d / 4)), wrap_i64_small by (unfold min_i64, max_i64; lia). lia.
Qed.
(** An interval of a nanosecond is an option the engine takes and its loop panics on. *)
Theorem retention_interval_panics :
  op_interval (configure [WithRetentionPolicy 1 1]) = 1%Z ∧ ∀ r, retention_wait 1 r = None.
Proof. done. Qed.

(** ** Starting *)

Section start.
Context {S H : Type} `{Store S}.
Implicit Types (cfg : Config (S:=S) (H:=H)) (r : Registry (H:=H)) (w : World S).

(** A start that cannot list the runs leaves the engine started: it dispatches nothing,
    and a second start is refused. *)
Theorem failed_start_is_final e cfg r w err :
  started r = false → checkRunClasses e = true → ListNonterminal (w_store w) = Err err →
  let '(r', w', res) := Start e cfg r w in
  res = Err (Discovering err) ∧ w' = w ∧ started r' = true ∧
  ∀ cfg' w'', Start e cfg' r' w'' = (r', w'', Err AlreadyStarted).
Proof.
  intros Hr Hc Hl. unfold Start, start_registry, recover, bind, get. rewrite Hr, Hc, Hl. cbn. done.
Qed.
End start.

(** ** Stopping *)

Section quiet.
Context {S : Type}.

(** No handler is called, and the engine drains or is stopped as before. *)
Definition quiet (w w' : World S) : Prop :=
  w_stopped w' = w_stopped w ∧ w_draining w' = w_draining w ∧
  calls (w_trace w') = calls (w_trace w).
Definition quietly {A} (m : M S A) : Prop := ∀ w, quiet w (m w).1.

Lemma quiet_trans w1 w2 w3 : quiet w1 w2 → quiet w2 w3 → quiet w1 w3.
Proof. unfold quiet. naive_solver congruence. Qed.
Lemma quietly_ret {A} (x : A) : quietly (mret x).
Proof. done. Qed.
Lemma quietly_bind {A B} (m : M S A) (f : A → M S B) :
  quietly m → (∀ x, quietly (f x)) → quietly (bind m f).
Proof.
  intros Hm Hf w. unfold bind. pose proof (Hm w) as H1. destruct (m w) as [w1 x].
  eapply quiet_trans; [exact H1|apply Hf].
Qed.
Lemma quietly_emit e : call_of e = None → quietly (emit (S:=S) e).
Proof. intros He w. by apply (calmly_emit e He w). Qed.
Lemma quietly_for_each {A} (l : list A) (f : A → M S unit) :
  (∀ x, quietly (f x)) → quietly (for_each l f).
Proof. intros Hf. induction l as [|x l IH]; [done|]. by apply quietly_bind. Qed.
Lemma quietly_or_panic {A} (x : option A) (f : A → M S unit) :
  (∀ x, quietly (f x)) → quietly (or_panic x f).
Proof. intros Hf. destruct x; [apply Hf|by apply quietly_emit]. Qed.
End quiet.

#[local] Hint Resolve quietly_ret : quiet.
Ltac quietly :=
  repeat first
    [ solve [eauto with quiet]
    | apply quietly_for_each; intros ?
    | apply quietly_or_panic; intros ?
    | apply quietly_bind; [|intros ?]
    | apply quietly_emit; reflexivity
    | match goal with |- quietly (dispatch _ _) => apply quietly_emit; reflexivity end
    | match goal with |- quietly (modify _) => by intros [] end
    | match goal with |- quietly get => done | |- quietly now => done end
    | match goal with |- quietly (let '(_, _) := ?x in _) => destruct x end
    | match goal with |- quietly (match ?x with _ => _ end) => destruct x end ].

Section engine_quiet.
Context {S H : Type} `{Store S}.
Context (cfg : Config (S:=S) (H:=H)).

Lemma quietly_kick x : quietly (S:=S) (kick x).
Proof. unfold kick. quietly. Qed.
#[local] Hint Resolve quietly_kick : quiet.
Lemma quietly_clearClassWait id : quietly (S:=S) (clearClassWait id).
Proof. unfold clearClassWait. quietly. Qed.
Lemma quietly_unpark id : quietly (S:=S) (unpark id).
Proof. unfold unpark. quietly. Qed.
#[local] Hint Resolve quietly_clearClassWait quietly_unpark : quiet.
Lemma quietly_markInvalid rec stepID reason : quietly (S:=S) (markInvalid rec stepID reason).
Proof. unfold markInvalid. quietly. Qed.
Lemma quietly_awaitTargetDone id : quietly (S:=S) (awaitTargetDone id).
Proof. unfold awaitTargetDone. quietly. Qed.
#[local] Hint Resolve quietly_markInvalid quietly_awaitTargetDone : quiet.
Lemma quietly_completeRun rec : quietly (S:=S) (completeRun rec).
Proof. unfold completeRun, releaseRunClass. quietly. Qed.
Lemma quietly_apply rec t : quietly (S:=S) (apply rec t).
Proof. unfold apply. quietly. Qed.
#[local] Hint Resolve quietly_completeRun quietly_apply : quiet.
Lemma quietly_finish rec oc : quietly (S:=S) (finish rec oc).
Proof. unfold finish. quietly. Qed.
Lemma quietly_reduceInto rec what o : quietly (S:=S) (reduceInto (S:=S) rec what o).
Proof. unfold reduceInto. quietly. Qed.
#[local] Hint Resolve quietly_finish quietly_reduceInto : quiet.
Lemma quietly_reduceAndComplete rec d : quietly (reduceAndComplete cfg rec d).
Proof. unfold reduceAndComplete. quietly. Qed.
Lemma quietly_reduceFailureAndComplete rec d : quietly (reduceFailureAndComplete cfg rec d).
Proof. unfold reduceFailureAndComplete. quietly. Qed.
#[local] Hint Resolve quietly_reduceAndComplete quietly_reduceFailureAndComplete : quiet.

Lemma advance_quiet rec w : w_draining w = true → quiet w (advance cfg rec w).1.
Proof.
  intros Hd. unfold advance. destruct (Terminal rec).
  { assert (quietly (S:=S) (emit (EvNotify (Run_RunID rec));; awaitTargetDone (Run_RunID rec);;
      mret (Return 0 false))) as Hq by quietly. apply Hq. }
  destruct (definition cfg _) as [d|]; [|by apply (quietly_bind _ _ (quietly_markInvalid _ _ _))].
  destruct (Run_Phase rec); try by apply (quietly_bind _ _ (quietly_markInvalid _ _ _)).
  all: match goal with |- context [Decision_Kind ?x] => destruct (Decision_Kind x) end.
  all: try by apply (quietly_bind _ _ (quietly_markInvalid _ _ _)).
  all: try by (unfold run_forward_step, run_unwind_step, bind, get; rewrite Hd).
  all: match goal with |- quiet ?x (?m ?x).1 => assert (quietly m) as Hq by quietly; apply Hq end.
Qed.
Lemma processRun_quiet fuel id carried w :
  w_draining w = true ∨ w_stopped w = true → quiet w (processRun_in cfg fuel id carried w).1.
Proof.
  revert carried w. induction fuel as [|fuel IH]; [done|]. intros carried w Hw. simpl.
  unfold bind at 1, get. destruct (w_stopped w) eqn:Hs; [done|].
  destruct Hw as [Hd|]; [|congruence].
  unfold bind at 1, modify. destruct (match carried with Some _ => _ | None => _ end) as [rec|[]]; try done.
  unfold bind. pose proof (advance_quiet rec (set_dirty (w_dirty w ∖ {[id]}) w) Hd) as Hq.
  destruct (advance _ _ _) as [w1 []]; [|exact Hq]. eapply quiet_trans; [exact Hq|].
  apply IH. left. destruct Hq as (_ & Hq & _). simpl in Hq. by rewrite Hq.
Qed.

(** The workers the dispatcher runs, in some order. *)
Definition work (l : list (nat * RunID)) : M S unit :=
  for_each l (λ '(fuel, id), processRun cfg fuel id;; mret tt).
Lemma work_quiet l w : w_draining w = true ∨ w_stopped w = true → quiet w (work l w).1.
Proof.
  revert w. induction l as [|[fuel id] l IH]; [done|]. intros w Hw. unfold work. simpl.
  unfold bind. pose proof (processRun_quiet fuel id None w Hw) as Hq. unfold processRun in *.
  destruct (processRun_in _ _ _ _ _) as [w1 x]. eapply quiet_trans; [exact Hq|].
  apply IH. destruct Hq as (Hs & Hd & _). simpl in Hs, Hd. by rewrite <-Hs, <-Hd in Hw.
Qed.

End engine_quiet.

(** *** A stop that begins under workers in flight *)

Section among.
Context {S H : Type} `{Store S}.
Context (cfg : Config (S:=S) (H:=H)).

(** [processRun] with what the other goroutines do before each turn of its loop; they
    run during a handler call as well ([e_call]).  A turn up to the handler it calls is
    one step: the flag is read and the handler it guards called. *)
Fixpoint processRun_among (others : nat → World S → World S) (fuel : nat) (id : RunID)
    (carried : option RunRecord) : M S (option (Duration * bool)) :=
  match fuel with
  | 0 => mret None
  | Datatypes.S fuel =>
    modify (others fuel);;
    w ← get;
    if w_stopped w then mret (Some (0%Z, false))
    else
      let '(dirty, taken) := DirtySet.Take (w_dirty w) id in
      modify (set_dirty dirty);;
      let read := match carried with
                  | Some rec => if taken then GetRun (w_store w) id else Ok rec
                  | None => GetRun (w_store w) id
                  end in
      match read with
      | Err ErrRunNotFound => mret (Some (0%Z, false))
      | Err _ => mret (Some (second, true))
      | Ok rec =>
        n ← advance cfg rec;
        match n with
        | Return delay again => mret (Some (delay, again))
        | Continue rec => processRun_among others fuel id (Some rec)
        end
      end
  end.
Lemma processRun_alone fuel id c w : processRun_among (λ _ w, w) fuel id c w = processRun_in cfg fuel id c w.
Proof.
  revert c w; induction fuel as [|fuel IH]; intros c w; [done|].
  cbn [processRun_among processRun_in]. unfold bind at 1, modify at 1. unfold bind at 1, get at 1. symmetry.
  unfold bind at 1, get at 1. symmetry.
  destruct (w_stopped w); [done|].
  apply same_bind. intros w2 _ _. destruct (match c with Some _ => _ | None => _ end) as [rec|[]]; [|done..].
  apply same_bind. intros w3 [rec'|d b] _; [|done]. apply IH.
Qed.
End among.

Section interleaved.
Context {S H : Type} `{Store S}.
Context (cfg : Config (S:=S) (H:=H)).

(** The engine neither drains nor has stopped. *)
Definition running (w : World S) : Prop := w_draining w = false ∧ w_stopped w = false.
Context (call' : H → Invocation → World S → World S * outcome).
Context (agree : ∀ h inv w, running w → call' h inv w = e_call cfg h inv w).

Lemma running_quiet w w' : quiet w w' → running w → running w'.
Proof. intros (Hs & Hd & _) [? ?]. split; congruence. Qed.
Lemma same_quiet {A B} (m : M S A) (f f' : A → M S B) w :
  quietly m → running w → (∀ w' x, running w' → f' x w' = f x w') → bind m f' w = bind m f w.
Proof.
  intros Hm Hw Hf. apply same_bind. intros w' x Hx. apply Hf. apply (running_quiet w); [|done].
  pose proof (Hm w) as Hq. by rewrite Hx in Hq.
Qed.
Lemma call_running h inv w :
  running w → call_handler (with_call cfg call') h inv w = call_handler cfg h inv w.
Proof.
  intros Hd. unfold call_handler. do 2 (apply same_bind; intros ? ? [= <- _]).
  apply same_first. cbn [e_call with_call]. by apply agree.
Qed.
Lemma runForward_running rec bs stepID w :
  running w → runForward (with_call cfg call') rec bs stepID w = runForward cfg rec bs stepID w.
Proof.
  intros Hw. unfold runForward. apply same_quiet; [by intros ?|done|]. intros w1 t Hw1. cbn zeta.
  apply same_quiet; [apply quietly_apply|done|]. intros w2 [rec2 []] Hw2; [|done]. cbn [negb].
  unfold invokeForward. by apply same_first, same_first, call_running.
Qed.
Lemma runUnwind_running rec bs stepID w :
  running w → runUnwind (with_call cfg call') rec bs stepID w = runUnwind cfg rec bs stepID w.
Proof.
  intros Hw. unfold runUnwind. apply same_quiet; [by intros ?|done|]. intros w1 t Hw1. cbn zeta.
  apply same_quiet; [apply quietly_apply|done|]. intros w2 [rec2 []] Hw2; [|done]. cbn [negb].
  destruct (Binding.bs_unwind bs) as [h|]; [|done].
  unfold invokeUnwind. by apply same_first, same_first, call_running.
Qed.

Lemma quietly_wake rec done expired : quietly (S:=S) (wake rec done expired).
Proof. unfold wake. pose proof (quietly_unpark (S:=S)). quietly. Qed.
Lemma quietly_mark_targets id targets : quietly (mark_targets (S:=S) id targets).
Proof. induction targets as [|t ts IH]; cbn; [done|]. unfold targetDone. quietly. Qed.
Lemma quietly_awaitGate rec : quietly (S:=S) (awaitGate rec).
Proof.
  unfold awaitGate, gate_first, gate_decide, awaitCycle.
  pose proof (quietly_unpark (S:=S)). pose proof (quietly_markInvalid (S:=S)).
  pose proof quietly_wake. pose proof quietly_mark_targets. quietly.
Qed.
Lemma quietly_acquireRunClass rec (d : Binding.boundDef (H:=H)) : quietly (S:=S) (acquireRunClass rec d).
Proof. unfold acquireRunClass. pose proof (quietly_kick (S:=S)). quietly. Qed.
Lemma quietly_acquireClass rec class : quietly (S:=S) (acquireClass rec class).
Proof. unfold acquireClass. quietly. Qed.

Lemma run_in_class_running rec (d : Binding.boundDef (H:=H)) stepID
    (run run' : Binding.boundStep (H:=H) → M S (RunRecord * ran)) w :
  running w → (∀ bs w', running w' → run' bs w' = run bs w') →
  run_in_class rec d stepID run' w = run_in_class rec d stepID run w.
Proof.
  intros Hw Hrun. unfold run_in_class. destruct (Binding.bd_steps d !! stepID) as [bs|]; [|done].
  cbn zeta. apply same_quiet; [apply quietly_acquireClass|done|]. intros w1 [[[] held] waited] Hw1; [|done].
  cbn [negb]. apply same_quiet; [destruct (0 <? waited)%Z; quietly|done|]. intros w2 _ Hw2.
  by apply same_first, Hrun.
Qed.
Lemma run_forward_step_running rec (d : Binding.boundDef (H:=H)) stepID w :
  w_stopped w = false →
  run_forward_step (with_call cfg call') rec d stepID w = run_forward_step cfg rec d stepID w.
Proof.
  intros Hs. unfold run_forward_step. apply same_bind. intros w1 w1' [= <- <-].
  destruct (w_draining w) eqn:Hd; [done|]. assert (running w) as Hw by done.
  destruct (Run_Cancel rec); [done|].
  apply same_quiet; [apply quietly_awaitGate|done|]. intros w2 [rec2 []] Hw2; [done|].
  apply same_quiet; [by intros ?|done|]. intros w3 t Hw3. destruct (retryGate rec2 t); [done|].
  apply same_quiet; [apply quietly_acquireRunClass|done|]. intros w4 [] Hw4; [|done].
  apply run_in_class_running; [done|]. intros bs w5 Hw5. by apply runForward_running.
Qed.
Lemma run_unwind_step_running rec (d : Binding.boundDef (H:=H)) stepID w :
  w_stopped w = false →
  run_unwind_step (with_call cfg call') rec d stepID w = run_unwind_step cfg rec d stepID w.
Proof.
  intros Hs. unfold run_unwind_step. apply same_bind. intros w1 w1' [= <- <-].
  destruct (w_draining w) eqn:Hd; [done|]. assert (running w) as Hw by done.
  apply same_quiet; [apply quietly_awaitGate|done|]. intros w2 [rec2 []] Hw2; [done|].
  apply same_quiet; [by intros ?|done|]. intros w3 t Hw3. destruct (retryGate rec2 t); [done|].
  apply run_in_class_running; [done|]. intros bs w5 Hw5. by apply runUnwind_running.
Qed.
Lemma advance_running rec w :
  w_stopped w = false → advance (with_call cfg call') rec w = advance cfg rec w.
Proof.
  intros Hs. unfold advance. destruct (Terminal rec); [done|].
  change (definition (with_call cfg call') (Run_PipelineID rec)) with (definition cfg (Run_PipelineID rec)).
  destruct (definition cfg (Run_PipelineID rec)) as [d|]; [|done]. cbn zeta.
  destruct (Run_Phase rec); [done| | |done];
    match goal with |- context [Decision_Kind ?x] => destruct (Decision_Kind x) end;
    first [by apply run_forward_step_running|by apply run_unwind_step_running|reflexivity].
Qed.
Lemma processRun_running others fuel id c w :
  processRun_among (with_call cfg call') others fuel id c w = processRun_among cfg others fuel id c w.
Proof.
  revert c w; induction fuel as [|fuel IH]; intros c w; [done|].
  cbn [processRun_among]. apply same_bind. intros w1 _ _. apply same_bind. intros w2 w2' E.
  injection E as <- <-. destruct (w_stopped w1) eqn:Hs; [done|]. unfold DirtySet.Take.
  apply same_bind. intros w3 u E. injection E as <- <-.
  destruct (match c with Some _ => _ | None => _ end) as [rec|[]]; [|done..].
  unfold bind. rewrite advance_running by done. destruct (advance cfg rec _) as [w4 [rec'|d b]]; [|done]. apply IH.
Qed.
End interleaved.

Section stopping.
Context {S H : Type} `{Store S}.
Context (cfg : Config (S:=S) (H:=H)).

End stopping.

Definition ex_drain : Options := configure [WithDrainTimeout second].
(** The engine begins to stop before the second turn of a worker of two steps, and a
    handler that fails when the engine drains is never called then. *)
Definition ex_stopping (left : nat) (w : World MemStore.MemStore) : World MemStore.MemStore :=
  if bool_decide (left = 2) then (Stop_begin ex_drain w).1 else w.
Definition ex_brittle (h : Sample.script) (inv : Invocation) (w : World MemStore.MemStore)
    : World MemStore.MemStore * outcome :=
  if w_draining w then (w, mkOutcome (Some "called while draining") MsgNil None None)
  else e_call ex_succeeding h inv w.
