(* ===== verification/Gen.v ===== *)
(** * Gen: what the code generator accepts, and the definitions it writes
    (cmd/protoc-gen-durable/internal/gen/gen.go)

    [Generate] collects the pipelines and steps of the descriptors, validates them and
    groups the pipelines by file; [definition_of] is the pipelinedef.Config the
    constructor it writes ([emitDefinition]) assembles.  The text around the constructor
    is left out.  Descriptors come from the protobuf compiler: a message is its names,
    its number of fields, its durable options and its nested messages. *)
From S2P Require Import Signals MemStore Binding.
From S2P Require Import Prelude Kernel Text Ledger Driver.

Record StepOptions := mkStepOptions {
  so_id : string; so_unwind : bool; so_retired : bool; so_class : string;
}.
Record PipelineOptions := mkPipelineOptions {
  po_id : string; po_input : string; po_output : string; po_failure_output : string;
  po_mutexes : list string; po_class : string; po_run_class : string;
}.
Inductive message := Message (name full : string) (fields : nat) (step : option StepOptions)
  (pipeline : option PipelineOptions) (nested : list message).
Definition m_name (m : message) : string := let 'Message n _ _ _ _ _ := m in n.
Definition m_full (m : message) : string := let 'Message _ f _ _ _ _ := m in f.
Definition m_fields (m : message) : nat := let 'Message _ _ n _ _ _ := m in n.
Definition stepOptions (m : message) : option StepOptions := let 'Message _ _ _ s _ _ := m in s.
Definition pipelineOptions (m : message) : option PipelineOptions :=
  let 'Message _ _ _ _ p _ := m in p.
Definition m_nested (m : message) : list message := let 'Message _ _ _ _ _ l := m in l.

Record file := mkFile { f_generate : bool; f_import : string; f_messages : list message }.

Record stepDecl := mkStepDecl { sd_msg : message; sd_opts : StepOptions; hasState : bool }.
Record pipelineDecl := mkPipelineDecl {
  pd_msg : message; pd_file : nat; pd_opts : PipelineOptions;
  pd_input : option message; pd_output : option message; pd_failureOutput : option message;
  pd_steps : list stepDecl;
}.

Inductive GenError :=
| StepNotNested (m : string)
| StepNotDirect (m : string)
| PipelineNotTop (m : string)
| NestedNotStep (pipeline m : string)
| NestedData (m : string)
| StepWithoutID (m : string)
| DuplicateStepID (id prev m : string)
| PipelineWithoutID (m : string)
| DuplicatePipelineID (id prev m : string)
| PipelineFields (m : string)
| PipelineWithoutSteps (m : string)
| TypeNotFound (m what name : string)
| MethodClaimed (m method prev by_ : string).

(** [walkMessages]: the messages visited, in order. *)
Fixpoint walk (m : message) : list message :=
  let 'Message _ _ _ _ _ nested := m in m :: flat_map walk nested.
Definition walkMessages (ms : list message) : list message := flat_map walk ms.
Definition indexMessages (fs : list file) : gmap string message :=
  foldl (λ idx m, <[m_full m := m]> idx) ∅ (fs ≫= λ f, walkMessages (f_messages f)).
Definition trimDot (s : string) : string :=
  match s with String "."%char s => s | _ => s end.

Definition is_step (m : message) : bool := bool_decide (is_Some (stepOptions m)).
Definition is_pipeline (m : message) : bool := bool_decide (is_Some (pipelineOptions m)).

(** ** Collection *)

Record gen_state := mkGen {
  g_errs : list GenError; g_pipelines : list pipelineDecl; g_byID : gmap string string;
}.
Definition fail (e : GenError) (st : gen_state) : gen_state :=
  mkGen (g_errs st ++ [e]) (g_pipelines st) (g_byID st).
Definition fail_if (b : bool) (e : GenError) (st : gen_state) : gen_state :=
  if b then fail e st else st.

(** A message nested in a pipeline: its step. *)
Definition claim_id (id full : string) (st : gen_state) : gen_state :=
  if bool_decide (id = "") then fail (StepWithoutID full) st
  else match g_byID st !! id with
       | Some prev => fail (DuplicateStepID id prev full) st
       | None => mkGen (g_errs st) (g_pipelines st) (<[id := full]> (g_byID st))
       end.
Definition collect_step (m : message) (st : gen_state * list stepDecl) (n : message)
    : gen_state * list stepDecl :=
  let '(st, steps) := st in
  match stepOptions n with
  | None => (fail (NestedNotStep (m_full m) (m_name n)) st, steps)
  | Some so =>
    let st := fail_if (is_pipeline n) (PipelineNotTop (m_full n)) st in
    let st := foldl (λ st x, fail_if (is_step x || is_pipeline x) (NestedData (m_full x)) st) st
                (walkMessages (m_nested n)) in
    (claim_id (so_id so) (m_full n) st,
     steps ++ [mkStepDecl n so (bool_decide (0 < m_fields n))])
  end.
(** A top-level message of a generated file. *)
Definition collect_message (i : nat) (st : gen_state) (m : message) : gen_state :=
  let st := fail_if (is_step m) (StepNotNested (m_full m)) st in
  match pipelineOptions m with
  | None =>
    foldl (λ st n, fail_if (is_pipeline n) (PipelineNotTop (m_full n))
                     (fail_if (is_step n) (StepNotDirect (m_full n)) st))
      st (walkMessages (m_nested m))
  | Some po =>
    let '(st, steps) := foldl (collect_step m) (st, []) (m_nested m) in
    mkGen (g_errs st) (g_pipelines st ++ [mkPipelineDecl m i po None None None steps]) (g_byID st)
  end.
Definition collect (fs : list file) : gen_state :=
  foldl (λ st e, if f_generate e.2 then foldl (collect_message e.1) st (f_messages e.2) else st)
    (mkGen [] [] ∅) (imap pair fs).

(** ** Validation *)

(** The message a type name names: none when the name is empty; an error otherwise when it
    is not in the index. *)
Definition resolve (idx : gmap string message) (m what name : string) (errs : list GenError)
    : list GenError * option message :=
  if bool_decide (name = "") then (errs, None)
  else match idx !! trimDot name with
       | Some t => (errs, Some t)
       | None => (errs ++ [TypeNotFound m what name], None)
       end.
Definition check_pipeline (idx : gmap string message)
    (st : list GenError * gmap string string * list pipelineDecl) (pl : pipelineDecl)
    : list GenError * gmap string string * list pipelineDecl :=
  let '(errs, ids, done) := st in
  let po := pd_opts pl in
  let full := m_full (pd_msg pl) in
  let '(errs, ids) :=
    if bool_decide (po_id po = "") then (errs ++ [PipelineWithoutID full], ids)
    else match ids !! po_id po with
         | Some prev => (errs ++ [DuplicatePipelineID (po_id po) prev full], ids)
         | None => (errs, <[po_id po := full]> ids)
         end in
  let errs := if bool_decide (0 < m_fields (pd_msg pl)) then errs ++ [PipelineFields full] else errs in
  let errs := if bool_decide (pd_steps pl = []) then errs ++ [PipelineWithoutSteps full] else errs in
  let '(errs, input) := resolve idx full "input" (po_input po) errs in
  let '(errs, output) := resolve idx full "output" (po_output po) errs in
  let '(errs, failure) := resolve idx full "failure_output" (po_failure_output po) errs in
  (errs, ids, done ++ [mkPipelineDecl (pd_msg pl) (pd_file pl) po input output failure (pd_steps pl)]).

(** The handler methods of a pipeline, with what each is for. *)
Definition methodName (s : stepDecl) : string := m_name (sd_msg s).
Definition step_methods (s : stepDecl) : list (string * string) :=
  (methodName s, "step " +:+ so_id (sd_opts s)) ::
  (if so_unwind (sd_opts s)
   then [("Unwind" +:+ methodName s, "the unwind of step " +:+ so_id (sd_opts s))] else []).
Definition methods (pl : pipelineDecl) : list (string * string) :=
  (match pd_output pl with Some _ => [("ReduceOutput", "the output reducer")] | None => [] end) ++
  (match pd_failureOutput pl with Some _ => [("ReduceFailure", "the failure reducer")] | None => [] end) ++
  (pd_steps pl ≫= step_methods).
Definition claim (full : string) (st : list GenError * gmap string string) (c : string * string)
    : list GenError * gmap string string :=
  let '(errs, ms) := st in
  (match ms !! c.1 with
   | Some prev => errs ++ [MethodClaimed full c.1 prev c.2]
   | None => errs
   end, <[c.1 := c.2]> ms).
Definition check_methods (errs : list GenError) (pl : pipelineDecl) : list GenError :=
  (foldl (claim (m_full (pd_msg pl))) (errs, ∅) (methods pl)).1.

(** ** Emission *)

(** The pipelines by file, with the files in the order of their first pipelines. *)
Definition by_file (st : gmap nat (list pipelineDecl) * list nat) (pl : pipelineDecl)
    : gmap nat (list pipelineDecl) * list nat :=
  let '(files, order) := st in
  (<[pd_file pl := default [] (files !! pd_file pl) ++ [pl]]> files,
   match files !! pd_file pl with Some _ => order | None => order ++ [pd_file pl] end).
Definition import_of (fs : list file) (i : nat) : string :=
  match fs !! i with Some f => f_import f | None => "" end.
(** The files written: the proto file, its pipelines, and whether the package's
    constructor options go in. *)
Definition emission : Type := nat * list pipelineDecl * bool.
Definition emit_file (fs : list file) (files : gmap nat (list pipelineDecl))
    (st : gset string * list emission) (i : nat) : gset string * list emission :=
  let '(optionsDone, out) := st in
  ({[import_of fs i]} ∪ optionsDone,
   out ++ [(i, default [] (files !! i), bool_decide (import_of fs i ∉ optionsDone))]).

(** [Generate]: all the errors, or the files. *)
Definition checked (fs : list file) : list GenError * list pipelineDecl :=
  let st := collect fs in
  let '(errs, _, pls) :=
    foldl (check_pipeline (indexMessages fs)) (g_errs st, ∅, []) (g_pipelines st) in
  (foldl check_methods errs pls, pls).
Definition Generate (fs : list file) : result (list GenError) (list emission) :=
  let '(errs, pls) := checked fs in
  match errs with
  | [] =>
    let '(files, order) := foldl by_file (∅, []) pls in
    Ok (foldl (emit_file fs files) (∅, []) order).2
  | _ => Err errs
  end.

(** *** The constructor of a definition *)

Section definition.
Context {H : Type}.
(** The adapters around the methods of the handlers. *)
Context (run unwind : stepDecl → H).

Definition step_of (s : stepDecl) : Binding.Step (H:=H) :=
  Binding.mkStep (so_id (sd_opts s)) (so_unwind (sd_opts s)) (so_retired (sd_opts s)) (hasState s)
    (so_class (sd_opts s)) (Some (run s)) (if so_unwind (sd_opts s) then Some (unwind s) else None).
(** [NewXxx]: the options installed [mw]. *)
Definition definition_of (pl : pipelineDecl) (mw : list (option (H → H))) : Binding.Config (H:=H) :=
  let po := pd_opts pl in
  Binding.New (Binding.mkConfig (po_id po) (step_of <$> pd_steps pl) (po_mutexes po) (po_class po)
    (po_run_class po) mw (bool_decide (is_Some (pd_input pl))) (bool_decide (is_Some (pd_output pl)))
    (bool_decide (is_Some (pd_failureOutput pl)))).
End definition.

(** ** What is well declared *)

(** The top-level messages of the generated files, with the file of each. *)
Definition tops (fs : list file) : list (nat * message) :=
  imap pair fs ≫= λ e, if f_generate e.2 then pair e.1 <$> f_messages e.2 else [].
Definition plain (m : message) : Prop := stepOptions m = None ∧ pipelineOptions m = None.
Definition step_id (n : message) : string :=
  match stepOptions n with Some so => so_id so | None => "" end.
Definition pipeline_id (m : message) : string :=
  match pipelineOptions m with Some po => po_id po | None => "" end.

(** A message nested in a pipeline is a step with an id, and holds plain data. *)
Definition step_declared (n : message) : Prop :=
  is_Some (stepOptions n) ∧ pipelineOptions n = None ∧ step_id n ≠ "" ∧
  ∀ x, x ∈ walkMessages (m_nested n) → plain x.
Definition top_declared (m : message) : Prop :=
  stepOptions m = None ∧
  match pipelineOptions m with
  | None => ∀ x, x ∈ walkMessages (m_nested m) → plain x
  | Some _ => ∀ n, n ∈ m_nested m → step_declared n
  end.
Definition top_steps (m : message) : list string :=
  match pipelineOptions m with Some _ => step_id <$> m_nested m | None => [] end.

Definition names_type (idx : gmap string message) (name : string) : Prop :=
  name = "" ∨ is_Some (idx !! trimDot name).
(** The methods the handlers of a pipeline have. *)
Definition step_handlers (n : message) : list string :=
  m_name n ::
  match stepOptions n with Some so => if so_unwind so then ["Unwind" +:+ m_name n] else [] | None => [] end.
Definition handlers (m : message) (po : PipelineOptions) : list string :=
  (if bool_decide (po_output po = "") then [] else ["ReduceOutput"]) ++
  (if bool_decide (po_failure_output po = "") then [] else ["ReduceFailure"]) ++
  (m_nested m ≫= step_handlers).
Definition pipeline_declared (idx : gmap string message) (m : message) (po : PipelineOptions) : Prop :=
  po_id po ≠ "" ∧ m_fields m = 0 ∧ m_nested m ≠ [] ∧
  names_type idx (po_input po) ∧ names_type idx (po_output po) ∧
  names_type idx (po_failure_output po) ∧ NoDup (handlers m po).

Record well_declared (fs : list file) : Prop := {
  wd_tops : ∀ e, e ∈ tops fs → top_declared e.2;
  wd_steps : NoDup (tops fs ≫= λ e, top_steps e.2);
  wd_pipelines : ∀ e po, e ∈ tops fs → pipelineOptions e.2 = Some po →
    pipeline_declared (indexMessages fs) e.2 po;
  wd_ids : NoDup (pipeline_id <$> (filter (λ e, is_pipeline e.2 = true) (tops fs)).*2);
}.

(** ** Checks that collect errors

    A check runs on a state, which is [clean] while nothing was reported.  It reports
    nothing exactly when the state was clean, its condition holds, and the names it claims
    are new and distinct; then it has claimed them and put out its results. *)
Section checks.
Context {St B : Type} (clean : St → Prop) (names : St → gset string) (out : St → list B).

Definition checks (f : St → St) (good : Prop) (ids : list string) (bs : list B) : Prop :=
  ∀ st, (clean (f st) ↔ clean st ∧ good ∧ NoDup ids ∧ ∀ id, id ∈ ids → id ∉ names st) ∧
    (clean (f st) → names (f st) = names st ∪ list_to_set ids ∧ out (f st) = out st ++ bs).

Lemma checks_id : checks (λ st, st) True [] [].
Proof.
  intros st. split; [|intros _; split; [set_solver|by rewrite app_nil_r]].
  split; [|naive_solver]. intros Hc. split; [done|]. split; [done|]. split; [constructor|set_solver].
Qed.
Lemma checks_comp f g good good' ids ids' bs bs' :
  checks f good ids bs → checks g good' ids' bs' →
  checks (λ st, g (f st)) (good ∧ good') (ids ++ ids') (bs ++ bs').
Proof.
  intros Hf Hg st. destruct (Hf st) as [Hfc Hfo], (Hg (f st)) as [Hgc Hgo]. split.
  - rewrite Hgc, Hfc, NoDup_app. setoid_rewrite elem_of_app. split.
    + intros ((Hc & Hg1 & Hn & Hi) & Hg2 & Hn' & Hi'). destruct Hfo as [Hnm _]; [by apply Hfc|].
      rewrite Hnm in Hi'. set_solver.
    + intros (Hc & [Hg1 Hg2] & (Hn & Hd & Hn') & Hi). destruct Hfo as [Hnm _].
      { apply Hfc. set_solver. }
      rewrite Hnm. set_solver.
  - intros Hc. destruct (Hgo Hc) as [-> ->]. apply Hgc in Hc as [Hc _].
    destruct (Hfo Hc) as [-> ->]. rewrite <-app_assoc. split; [|done].
    rewrite list_to_set_app_L. set_solver.
Qed.
Lemma checks_iff f good good' ids bs : (good ↔ good') → checks f good ids bs → checks f good' ids bs.
Proof. intros Hg Hf st. rewrite <-Hg. apply Hf. Qed.
Lemma checks_fold {A} (f : A → St → St) (good : A → Prop) (ids : A → list string) (bs : A → list B) l :
  (∀ x, x ∈ l → checks (f x) (good x) (ids x) (bs x)) →
  checks (λ st, foldl (λ st x, f x st) st l) (∀ x, x ∈ l → good x) (l ≫= ids) (l ≫= bs).
Proof.
  induction l as [|x l IH]; intros Hl.
  - eapply checks_iff; [|apply checks_id]. set_solver.
  - pose proof (checks_comp _ _ _ _ _ _ _ _ (Hl x ltac:(left)) (IH (λ y Hy, Hl y ltac:(by right)))) as Hc.
    eapply checks_iff; [|exact Hc]. setoid_rewrite elem_of_cons. naive_solver.
Qed.
(** Checks without names or results, of a condition that can be decided. *)
Lemma checks_when (b : bool) f good :
  (b = false ↔ good) → (∀ st, ¬ clean (f st)) →
  checks (λ st, if b then f st else st) good [] [].
Proof.
  intros Hb Hf. destruct b.
  - intros st. split; [|by intros ?%Hf]. split; [by intros ?%Hf|]. naive_solver.
  - eapply checks_iff; [|apply checks_id]. naive_solver.
Qed.
Lemma checks_plain f good st : checks f good [] [] →
  (clean (f st) ↔ clean st ∧ good) ∧ (clean (f st) → names (f st) = names st ∧ out (f st) = out st).
Proof.
  intros Hf. destruct (Hf st) as [Hc Ho]. split.
  - rewrite Hc. split; [tauto|]. intros [? ?]. split; [done|]. split; [done|].
    split; [constructor|set_solver].
  - intros Hcl. destruct (Ho Hcl) as [-> ->]. rewrite app_nil_r. split; [set_solver|done].
Qed.
Lemma checks_ext f f' good ids bs : (∀ st, f st = f' st) → checks f good ids bs → checks f' good ids bs.
Proof. intros Hff Hf st. rewrite <-Hff. apply Hf. Qed.
End checks.

(** *** Steps *)

Abbreviation steps_clean := (λ st : gen_state * list stepDecl, g_errs st.1 = []).
Abbreviation steps_names := (λ st : gen_state * list stepDecl, dom (g_byID st.1)).
Abbreviation steps_out := (@snd gen_state (list stepDecl)).
Abbreviation gen_clean := (λ st, g_errs st = []).
Abbreviation gen_names := (λ st, dom (g_byID st)).

(** The declaration of a step and of a pipeline. *)
Definition decl_of (n : message) : list stepDecl :=
  match stepOptions n with
  | Some so => [mkStepDecl n so (bool_decide (0 < m_fields n))]
  | None => []
  end.

Lemma fail_dirty e st : g_errs (fail e st) ≠ [].
Proof. simpl. by destruct (g_errs st). Qed.
Lemma not_step m : is_step m = false ↔ stepOptions m = None.
Proof. unfold is_step. rewrite bool_decide_eq_false. by rewrite eq_None_not_Some. Qed.
Lemma not_pipeline m : is_pipeline m = false ↔ pipelineOptions m = None.
Proof. unfold is_pipeline. rewrite bool_decide_eq_false. by rewrite eq_None_not_Some. Qed.
Abbreviation gen_checks := (checks gen_clean gen_names g_pipelines).

Lemma fold_checks {A} (f : A → gen_state → gen_state) (good : A → Prop) l :
  (∀ x, gen_checks (f x) (good x) [] []) →
  gen_checks (λ st, foldl (λ st x, f x st) st l) (∀ x, x ∈ l → good x) [] [].
Proof.
  intros Hf. pose proof (checks_fold gen_clean gen_names g_pipelines f good (λ _, []) (λ _, []) l
    (λ x _, Hf x)) as Hc. by rewrite !bind_nil in Hc.
Qed.
Lemma fail_if_checks b e good : (b = false ↔ good) → gen_checks (fail_if b e) good [] [].
Proof. intros Hb. apply (checks_when _ _ _ b (fail e)); [done|]. intros st. apply fail_dirty. Qed.
Lemma claim_id_checks id full : gen_checks (claim_id id full) (id ≠ "") [id] [].
Proof.
  intros st. unfold claim_id. case_bool_decide as Hid.
  { split; [|by intros ?%fail_dirty]. split; [by intros ?%fail_dirty|]. tauto. }
  destruct (g_byID st !! id) as [prev|] eqn:Hp.
  - split; [|by intros ?%fail_dirty]. split; [by intros ?%fail_dirty|]. intros (_ & _ & _ & Hn).
    destruct (Hn id); [left|]. by eapply elem_of_dom_2.
  - simpl. rewrite dom_insert_L, app_nil_r. split; [|intros _; split; [set_solver|done]].
    split; [|naive_solver]. intros Hc. split; [done|]. split; [done|]. split; [apply NoDup_singleton|].
    intros id' ->%list_elem_of_singleton. by apply not_elem_of_dom.
Qed.

Lemma step_or_pipeline x : is_step x || is_pipeline x = false ↔ plain x.
Proof. by rewrite orb_false_iff, not_step, not_pipeline. Qed.
Lemma plain_checks (b : message → bool) e n :
  (∀ x, b x = false ↔ plain x) →
  gen_checks (λ st, foldl (λ st x, fail_if (b x) (e (m_full x)) st) st (walkMessages (m_nested n)))
    (∀ x, x ∈ walkMessages (m_nested n) → plain x) [] [].
Proof.
  intros Hb. apply (fold_checks (λ x, fail_if (b x) (e (m_full x)))). intros x.
  by apply fail_if_checks.
Qed.

Abbreviation steps_checks := (checks steps_clean steps_names).
Lemma collect_step_checks m n :
  steps_checks snd (λ st, collect_step m st n) (step_declared n) [step_id n] (decl_of n) ∧
  steps_checks (λ st, g_pipelines st.1) (λ st, collect_step m st n) (step_declared n) [step_id n] [].
Proof.
  apply forall_and_distr. intros [st steps]. unfold collect_step, step_declared, step_id, decl_of.
  destruct (stepOptions n) as [so|] eqn:Hso; simpl.
  2:{ split; (split; [|by intros ?%fail_dirty]); (split; [by intros ?%fail_dirty|]);
      by intros (_ & [[? ?] _] & _). }
  destruct (checks_comp _ _ _ _ _ _ _ _ _ _ _
    (fail_if_checks (is_pipeline n) (PipelineNotTop (m_full n)) _ (not_pipeline n))
    (checks_comp _ _ _ _ _ _ _ _ _ _ _ (plain_checks _ NestedData n step_or_pipeline)
      (claim_id_checks (so_id so) (m_full n))) st) as [Hc Ho].
  simpl in Hc, Ho. split; (split; [rewrite Hc; naive_solver|]); intros Hcl;
    by destruct (Ho Hcl) as [Hn Hp]; rewrite Hn, ?Hp.
Qed.

(** A nested step list, and the rest of a top-level message. *)
Definition collected (i : nat) (m : message) : list pipelineDecl :=
  match pipelineOptions m with
  | Some po => [mkPipelineDecl m i po None None None (m_nested m ≫= decl_of)]
  | None => []
  end.
Lemma collect_message_checks i m :
  gen_checks (λ st, collect_message i st m) (top_declared m) (top_steps m) (collected i m).
Proof.
  unfold collect_message, top_declared, top_steps, collected.
  destruct (pipelineOptions m) as [po|] eqn:Hpo.
  - intros st. set (st1 := fail_if _ _ st).
    destruct (checks_plain _ _ _ _ _ st
      (fail_if_checks (is_step m) (StepNotNested (m_full m)) _ (not_step m))) as [Hc1 Ho1].
    fold st1 in Hc1, Ho1.
    destruct (checks_fold _ _ _ (λ n st, collect_step m st n) _ _ _ (m_nested m)
      (λ n _, proj1 (collect_step_checks m n)) (st1, [])) as [Hc2 Ho2].
    destruct (checks_fold _ _ _ (λ n st, collect_step m st n) _ _ _ (m_nested m)
      (λ n _, proj2 (collect_step_checks m n)) (st1, [])) as [_ Ho3].
    rewrite bind_nil in Ho3. simpl in *. destruct (foldl _ (st1, []) _) as [st2 steps]. simpl in *.
    rewrite (bind_singletons step_id) in *.
    split.
    + rewrite Hc2, Hc1. split.
      * intros ([? ?] & ? & ? & Hi). destruct Ho1 as [Hn _]; [by apply Hc1|]. by rewrite Hn in Hi.
      * intros (? & [? ?] & ? & Hi). destruct Ho1 as [Hn _]; [by apply Hc1|]. by rewrite Hn.
    + intros Hcl. destruct (Ho2 Hcl) as [-> ->], (Ho3 Hcl) as [_ ->].
      apply Hc2 in Hcl as [Hcl _]. destruct (Ho1 Hcl) as [-> ->]. by rewrite app_nil_r.
  - assert (∀ n, gen_checks (λ st, fail_if (is_pipeline n) (PipelineNotTop (m_full n))
      (fail_if (is_step n) (StepNotDirect (m_full n)) st)) (plain n) [] []) as Hn.
    { intros n. exact (checks_comp _ _ _ _ _ _ _ _ _ _ _ (fail_if_checks _ _ _ (not_step n))
        (fail_if_checks _ _ _ (not_pipeline n))). }
    exact (checks_comp _ _ _ _ _ _ _ _ _ _ _ (fail_if_checks _ _ _ (not_step m))
      (fold_checks _ plain (walkMessages (m_nested m)) Hn)).
Qed.

Lemma collect_checks fs :
  (g_errs (collect fs) = [] ↔
     (∀ e, e ∈ tops fs → top_declared e.2) ∧ NoDup (tops fs ≫= λ e, top_steps e.2)) ∧
  (g_errs (collect fs) = [] → g_pipelines (collect fs) = tops fs ≫= λ e, collected e.1 e.2).
Proof.
  assert (collect fs = foldl (λ st e, collect_message e.1 st e.2) (mkGen [] [] ∅) (tops fs)) as ->.
  { unfold collect, tops. generalize (mkGen [] [] ∅). induction (imap pair fs) as [|[i f] l IH]; [done|].
    intros st. simpl. rewrite foldl_app, IH. f_equal. destruct (f_generate f); [|done].
    by rewrite foldl_fmap. }
  destruct (checks_fold _ _ _ (λ e st, collect_message e.1 st e.2) _ _ _ (tops fs)
    (λ e _, collect_message_checks e.1 e.2) (mkGen [] [] ∅)) as [Hc Ho].
  simpl in Hc, Ho. split; [|intros Hcl; by apply Ho]. rewrite Hc, dom_empty_L. set_solver.
Qed.

(** *** Pipelines *)

Definition type_of (idx : gmap string message) (name : string) : option message :=
  if bool_decide (name = "") then None else idx !! trimDot name.
Definition resolved (idx : gmap string message) (pl : pipelineDecl) : pipelineDecl :=
  let po := pd_opts pl in
  mkPipelineDecl (pd_msg pl) (pd_file pl) po (type_of idx (po_input po)) (type_of idx (po_output po))
    (type_of idx (po_failure_output po)) (pd_steps pl).
Definition pipeline_good (idx : gmap string message) (pl : pipelineDecl) : Prop :=
  po_id (pd_opts pl) ≠ "" ∧ m_fields (pd_msg pl) = 0 ∧ pd_steps pl ≠ [] ∧
  names_type idx (po_input (pd_opts pl)) ∧ names_type idx (po_output (pd_opts pl)) ∧
  names_type idx (po_failure_output (pd_opts pl)).

Lemma resolve_spec idx m what name errs :
  ∃ es, resolve idx m what name errs = (errs ++ es, type_of idx name) ∧ (es = [] ↔ names_type idx name).
Proof.
  unfold resolve, type_of, names_type. case_bool_decide as Hn.
  { exists []. rewrite app_nil_r. naive_solver. }
  destruct (idx !! trimDot name) as [t|] eqn:Ht.
  - exists []. rewrite app_nil_r. split; [done|]. split; [intros _; right; by eexists|done].
  - eexists. split; [done|]. split; [done|]. by intros [?|[? [=]]].
Qed.

Abbreviation pl_clean := (λ st : list GenError * gmap string string * list pipelineDecl, st.1.1 = []).
Abbreviation pl_names := (λ st : list GenError * gmap string string * list pipelineDecl, dom st.1.2).
Lemma check_pipeline_checks idx pl :
  checks pl_clean pl_names snd (λ st, check_pipeline idx st pl) (pipeline_good idx pl)
    [po_id (pd_opts pl)] [resolved idx pl].
Proof.
  intros [[errs ids] done]. unfold check_pipeline, pipeline_good, resolved.
  destruct (if bool_decide (po_id (pd_opts pl) = "") then _ else _) as [errs1 ids1] eqn:H1.
  assert ((errs1 = [] ↔ errs = [] ∧ po_id (pd_opts pl) ≠ "" ∧ po_id (pd_opts pl) ∉ dom ids) ∧
    (errs1 = [] → dom ids1 = dom ids ∪ {[po_id (pd_opts pl)]})) as [He1 Hi1].
  { revert H1. case_bool_decide; [intros [= <- <-]|destruct (ids !! _) eqn:Hid; intros [= <- <-]];
      rewrite ?app_nil.
    - naive_solver.
    - split; [|naive_solver]. split; [naive_solver|]. intros (_ & _ & []). by eapply elem_of_dom_2.
    - rewrite dom_insert_L, <-not_elem_of_dom in *. split; [naive_solver|set_solver]. }
  clear H1. set (errs2 := if bool_decide (0 < m_fields _) then _ else _).
  assert (errs2 = [] ↔ errs1 = [] ∧ m_fields (pd_msg pl) = 0) as He2.
  { unfold errs2. case_bool_decide; rewrite ?app_nil; [split; [by intros []|intros [_ ?]; lia]|].
    split; [intros ->; split; [done|lia]|by intros []]. }
  set (errs3 := if bool_decide (pd_steps pl = []) then _ else _).
  assert (errs3 = [] ↔ errs2 = [] ∧ pd_steps pl ≠ []) as He3.
  { unfold errs3. case_bool_decide; rewrite ?app_nil; naive_solver. }
  clearbody errs2 errs3.
  destruct (resolve_spec idx (m_full (pd_msg pl)) "input" (po_input (pd_opts pl)) errs3) as (e1 & -> & Hr1).
  destruct (resolve_spec idx (m_full (pd_msg pl)) "output" (po_output (pd_opts pl)) (errs3 ++ e1))
    as (e2 & -> & Hr2).
  destruct (resolve_spec idx (m_full (pd_msg pl)) "failure_output" (po_failure_output (pd_opts pl))
    ((errs3 ++ e1) ++ e2)) as (e3 & -> & Hr3).
  simpl. rewrite !app_nil, He3, He2, Hr1, Hr2, Hr3. split.
  - rewrite He1. pose proof (NoDup_singleton (po_id (pd_opts pl))).
    setoid_rewrite list_elem_of_singleton. naive_solver.
  - intros Hcl. rewrite Hi1 by tauto. split; [set_solver|done].
Qed.

Abbreviation claims_clean := (λ st : list GenError * gmap string string, st.1 = []).
Abbreviation claims_names := (λ st : list GenError * gmap string string, dom st.2).
Lemma claim_checks full c :
  checks claims_clean claims_names (λ _, @nil unit) (λ st, claim full st c) True [c.1] [].
Proof.
  intros [errs ms]. unfold claim. simpl. rewrite dom_insert_L.
  split; [|intros _; split; [set_solver|done]].
  destruct (ms !! c.1) eqn:Hm; rewrite ?app_nil.
  - split; [naive_solver|]. intros (_ & _ & _ & Hn). destruct (Hn c.1); [left|]. by eapply elem_of_dom_2.
  - apply not_elem_of_dom in Hm. split; [|naive_solver]. intros ?. split; [done|]. split; [done|].
    split; [apply NoDup_singleton|]. by intros id ->%list_elem_of_singleton.
Qed.
Lemma check_methods_spec pls errs :
  foldl check_methods errs pls = [] ↔ errs = [] ∧ ∀ pl, pl ∈ pls → NoDup (methods pl).*1.
Proof.
  revert errs. induction pls as [|pl pls IH]; intros errs; simpl; [set_solver|].
  rewrite IH. destruct (checks_fold _ _ _ (λ c st, claim (m_full (pd_msg pl)) st c) _ _ _ (methods pl)
    (λ c _, claim_checks _ c) (errs, ∅)) as [Hc _].
  rewrite bind_singletons in Hc. simpl in Hc. unfold check_methods. rewrite Hc.
  setoid_rewrite elem_of_cons. rewrite dom_empty_L. set_solver.
Qed.

(** *** All the checks *)

(** The pipelines declared, in order. *)
Definition declared (fs : list file) : list pipelineDecl :=
  tops fs ≫= λ e, resolved (indexMessages fs) <$> collected e.1 e.2.

Lemma nested_steps ns :
  (∀ n, n ∈ ns → is_Some (stepOptions n)) →
  ((ns ≫= decl_of) = [] ↔ ns = []) ∧ ((ns ≫= decl_of) ≫= step_methods).*1 = ns ≫= step_handlers.
Proof.
  intros Hns. split.
  - destruct ns as [|n ns]; [done|]. simpl. destruct (Hns n ltac:(left)) as [so Hso].
    unfold decl_of at 1. by rewrite Hso.
  - induction ns as [|n ns IH]; [done|]. rewrite !bind_cons, bind_app, fmap_app.
    rewrite IH by (intros; apply Hns; by right). f_equal. destruct (Hns n ltac:(left)) as [so Hso].
    unfold decl_of, step_handlers. rewrite Hso. simpl. unfold step_methods. simpl.
    by destruct (so_unwind so).
Qed.
Lemma declared_methods idx i m po :
  top_declared m → pipelineOptions m = Some po →
  names_type idx (po_output po) → names_type idx (po_failure_output po) →
  (methods (resolved idx (mkPipelineDecl m i po None None None (m_nested m ≫= decl_of)))).*1 = handlers m po.
Proof.
  intros [_ Ht] Hpo Ho Hf. rewrite Hpo in Ht. unfold methods, handlers. rewrite !fmap_app. simpl.
  destruct (nested_steps (m_nested m)) as [_ ->]; [intros n Hn; by apply Ht|].
  f_equal; [|f_equal].
  - unfold type_of. case_bool_decide; [done|]. by destruct Ho as [|[t ->]].
  - unfold type_of. case_bool_decide; [done|]. by destruct Hf as [|[t ->]].
Qed.

Lemma elem_of_collected x i m :
  x ∈ collected i m ↔ ∃ po, pipelineOptions m = Some po ∧
    x = mkPipelineDecl m i po None None None (m_nested m ≫= decl_of).
Proof. unfold collected. destruct (pipelineOptions m); set_solver. Qed.
Lemma collected_ids fs :
  ((tops fs ≫= λ e, collected e.1 e.2) ≫= λ pl, [po_id (pd_opts pl)]) =
    pipeline_id <$> (filter (λ e, is_pipeline e.2 = true) (tops fs)).*2.
Proof.
  induction (tops fs) as [|[i m] l IH]; [done|]. rewrite filter_cons, bind_cons, bind_app, IH.
  unfold is_pipeline, collected, pipeline_id. simpl. destruct (pipelineOptions m) eqn:Hpo.
  - rewrite decide_True by done. simpl. by rewrite Hpo.
  - by rewrite decide_False.
Qed.

Lemma declared_collected fs :
  ((tops fs ≫= λ e, collected e.1 e.2) ≫= λ pl, [resolved (indexMessages fs) pl]) = declared fs.
Proof.
  unfold declared. generalize (indexMessages fs) as idx. intros idx.
  induction (tops fs) as [|e l IH]; [done|]. rewrite !bind_cons, bind_app, IH.
  by f_equal.
Qed.

Lemma checked_correct fs :
  let '(errs, pls) := checked fs in
  (errs = [] ↔ well_declared fs) ∧ (errs = [] → pls = declared fs).
Proof.
  unfold checked. destruct (collect_checks fs) as [Hcc Hcp].
  destruct (checks_fold _ _ _ (λ pl st, check_pipeline (indexMessages fs) st pl) _ _ _
    (g_pipelines (collect fs)) (λ pl _, check_pipeline_checks _ pl) (g_errs (collect fs), ∅, [])) as [Hc Ho].
  destruct (foldl _ (g_errs (collect fs), ∅, []) _) as [[errs ids] pls]. simpl in Hc, Ho.
  rewrite check_methods_spec.
  assert (errs = [] → pls = declared fs) as Hpls.
  { intros He. destruct (Ho He) as [_ ->]. apply Hc in He as [He _]. rewrite (Hcp He).
    apply declared_collected. }
  split; [|intros [He _]; by apply Hpls].
  split.
  - intros [He Hm]. rewrite (Hpls He) in Hm. apply Hc in He as (He & Hg & Hn & _).
    rewrite (Hcp He), collected_ids in Hn. rewrite (Hcp He) in Hg. apply Hcc in He as [Ht Hs].
    constructor; [done|done| |done]. intros [i m] po He Hpo. simpl in Hpo.
    set (pl := mkPipelineDecl m i po None None None (m_nested m ≫= decl_of)).
    assert (pl ∈ collected i m) as Hpl by (apply elem_of_collected; by exists po).
    destruct (Hg pl) as (H1 & H2 & H3 & H4 & H5 & H6); [apply list_elem_of_bind; by exists (i, m)|].
    simpl in *. repeat split; try done.
    + intros Hnil. by rewrite Hnil in H3.
    + rewrite <-(declared_methods (indexMessages fs) i m po) by (done || by apply (Ht (i, m))).
      apply Hm, list_elem_of_bind. exists (i, m). split; [|done]. by apply list_elem_of_fmap_2.
  - intros [Ht Hs Hp Hn]. assert (g_errs (collect fs) = []) as He by (by apply Hcc).
    assert (errs = []) as He'.
    { apply Hc. split; [done|]. rewrite (Hcp He), collected_ids. split; [|split; [done|set_solver]].
      intros pl ([i m] & (po & Hpo & ->)%elem_of_collected & Hin)%list_elem_of_bind.
      destruct (Hp (i, m) po Hin Hpo) as (? & ? & Hne & ? & ? & ? & _).
      repeat split; try done. simpl. destruct (Ht (i, m) Hin) as [_ Htm]. simpl in *.
      rewrite Hpo in Htm. intros Hnil%(proj1 (nested_steps (m_nested m) (λ n Hn, proj1 (Htm n Hn)))).
      done. }
    split; [done|]. rewrite (Hpls He').
    intros pl ([i m] & (pl' & -> & (po & Hpo & ->)%elem_of_collected)%list_elem_of_fmap & Hin)%list_elem_of_bind.
    destruct (Hp (i, m) po Hin Hpo) as (_ & _ & _ & _ & ? & ? & ?).
    rewrite declared_methods; try done. by apply (Ht (i, m)).
Qed.

(** ** What is written *)

Definition e_file (e : emission) : nat := e.1.1.
Definition e_pipelines (e : emission) : list pipelineDecl := e.1.2.
Definition e_options (e : emission) : bool := e.2.

Lemma filter_file_app i l (pl : pipelineDecl) :
  filter (λ x, pd_file x = i) (l ++ [pl]) =
    filter (λ x, pd_file x = i) l ++ (if decide (pd_file pl = i) then [pl] else []).
Proof. rewrite filter_app, filter_cons. by case_decide. Qed.

(** The grouping by file: each file once, with its pipelines in order. *)
Lemma by_file_spec pls :
  let '(files, order) := foldl by_file (∅, []) pls in
  NoDup order ∧ (∀ i, i ∈ order ↔ is_Some (files !! i)) ∧
  (∀ i, i ∈ order ↔ ∃ pl, pl ∈ pls ∧ pd_file pl = i) ∧
  ∀ i, default [] (files !! i) = filter (λ pl, pd_file pl = i) pls.
Proof.
  induction pls as [|pl pls IH] using rev_ind.
  { simpl. setoid_rewrite lookup_empty. setoid_rewrite elem_of_nil.
    split; [constructor|]. split; [intros i; split; [done|by intros []]|].
    split; [|done]. naive_solver. }
  rewrite foldl_app. simpl. destruct (foldl by_file _ pls) as [files order]. simpl.
  destruct IH as (Hnd & Hin & Hpl & Hf). rewrite Hf. setoid_rewrite filter_file_app.
  assert (∀ i, i ∈ (match files !! pd_file pl with Some _ => order | None => order ++ [pd_file pl] end) ↔
    i ∈ order ∨ i = pd_file pl) as Ho.
  { intros i. destruct (files !! pd_file pl) eqn:Hl.
    - split; [by left|]. intros [?| ->]; [done|]. apply Hin. by eexists.
    - by rewrite elem_of_app, list_elem_of_singleton. }
  setoid_rewrite Ho. split_and!.
  - destruct (files !! pd_file pl) eqn:Hl; [done|]. apply NoDup_app. split; [done|].
    split; [|apply NoDup_singleton]. intros i Hi ->%list_elem_of_singleton.
    apply Hin in Hi as [? ?]. congruence.
  - intros i. rewrite lookup_insert. case_decide; subst; [|rewrite Hin; naive_solver].
    split; [by eexists|by right].
  - intros i. rewrite Hpl. setoid_rewrite elem_of_app. setoid_rewrite list_elem_of_singleton.
    naive_solver.
  - intros i. rewrite lookup_insert. case_decide; [by subst|]. by rewrite Hf, app_nil_r.
Qed.

Section emitted.
Context (fs : list file) (files : gmap nat (list pipelineDecl)).

Lemma emit_file_spec order done out :
  let '(done', out') := foldl (emit_file fs files) (done, out) order in
  ∃ k, out' = out ++ k ∧ e_file <$> k = order ∧
    (∀ e, e ∈ k → e_pipelines e = default [] (files !! e_file e)) ∧
    ∀ p, length (filter (λ e, import_of fs (e_file e) = p ∧ e_options e = true) k) =
      if decide (p ∈ done) then 0 else if decide (p ∈ import_of fs <$> order) then 1 else 0.
Proof.
  revert done out. induction order as [|i order IH]; intros done out; simpl.
  { exists []. rewrite app_nil_r. split; [done|]. split; [done|]. split; [set_solver|].
    intros p. by repeat case_decide; try set_solver. }
  specialize (IH ({[import_of fs i]} ∪ done)
    (out ++ [(i, default [] (files !! i), bool_decide (import_of fs i ∉ done))])).
  destruct (foldl _ _ order) as [done' out']. destruct IH as (k & -> & Hfile & Hpl & Hopt).
  eexists (_ :: k). rewrite <-app_assoc. split; [done|]. split; [by simpl; f_equal|]. split.
  - intros e [->|He]%elem_of_cons; [done|by apply Hpl].
  - intros p. rewrite filter_cons. unfold e_options at 1, e_file at 1. cbn [fst snd].
    case_decide as Hd; rewrite ?length_cons, Hopt; rewrite bool_decide_eq_true in Hd;
      change (list_fmap nat string (import_of fs) order) with (import_of fs <$> order) in *;
      repeat case_decide; try done; exfalso;
      rewrite ?elem_of_union, ?elem_of_singleton, ?elem_of_cons in *; naive_solver.
Qed.
End emitted.

(** The files written: each once, with all and only the pipelines declared in it, and with
    the options of its Go package in exactly one file of the package. *)
Record emitted (fs : list file) (out : list emission) : Prop := {
  em_once : NoDup (e_file <$> out);
  em_pipelines : ∀ e, e ∈ out →
    e_pipelines e = filter (λ pl, pd_file pl = e_file e) (declared fs) ∧ e_pipelines e ≠ [];
  em_all : ∀ pl, pl ∈ declared fs → ∃ e, e ∈ out ∧ pl ∈ e_pipelines e;
  em_options : ∀ e, e ∈ out →
    length (filter (λ e', import_of fs (e_file e') = import_of fs (e_file e) ∧ e_options e' = true) out) = 1;
}.

Lemma emission_correct fs :
  let '(files, order) := foldl by_file (∅, []) (declared fs) in
  emitted fs (foldl (emit_file fs files) (∅, []) order).2.
Proof.
  pose proof (by_file_spec (declared fs)) as Hb. destruct (foldl by_file _ _) as [files order].
  destruct Hb as (Hnd & Hin & Hex & Hf). pose proof (emit_file_spec fs files order ∅ []) as He.
  destruct (foldl _ _ order) as [done out]. destruct He as (k & -> & Hfile & Hpl & Hopt). simpl.
  assert (∀ e, e ∈ k → e_file e ∈ order) as Hk by (intros e He; rewrite <-Hfile; by apply list_elem_of_fmap_2).
  constructor.
  - by rewrite Hfile.
  - intros e He. rewrite (Hpl e He), Hf. split; [done|]. intros Hnil.
    destruct (proj1 (Hex _) (Hk e He)) as (pl & Hin' & Hpf).
    assert (pl ∈ filter (λ pl, pd_file pl = e_file e) (declared fs)) as Hc by (by apply list_elem_of_filter).
    rewrite Hnil in Hc. by apply elem_of_nil in Hc.
  - intros pl Hd. assert (pd_file pl ∈ e_file <$> k) as (e & Hef & He)%list_elem_of_fmap.
    { rewrite Hfile, Hex. by exists pl. }
    exists e. split; [done|]. rewrite (Hpl e He), Hf. by apply list_elem_of_filter.
  - intros e He. rewrite Hopt, decide_False by set_solver. rewrite decide_True; [done|].
    by apply list_elem_of_fmap_2, Hk.
Qed.

(** C36: The generator accepts exactly the descriptors in which every step is a message nested
    directly in a top-level pipeline with data only inside it, the pipelines and steps have
    distinct ids, a pipeline has steps and no fields, its types exist and its handler
    methods do not clash; it then writes each file's pipelines once, and otherwise answers
    at least one error. *)
Theorem generate_correct fs :
  match Generate fs with
  | Ok out => well_declared fs ∧ emitted fs out
  | Err errs => errs ≠ [] ∧ ¬ well_declared fs
  end.
Proof.
  unfold Generate. pose proof (checked_correct fs) as Hc. destruct (checked fs) as [errs pls].
  destruct Hc as [He Hpls]. destruct errs as [|err errs].
  - rewrite Hpls by done. pose proof (emission_correct fs) as Hem.
    destruct (foldl by_file _ _) as [files order]. split; [by apply He|done].
  - split; [done|]. intros Hw. by apply He in Hw.
Qed.

(** ** Binding what is written *)

Section binding.
Context {H : Type} (run unwind : stepDecl → H).

(** The names that reach the store. *)
Definition usable (pl : pipelineDecl) : Prop :=
  invalidID (po_id (pd_opts pl)) = false ∧
  Forall (λ m, m ≠ "" ∧ invalidID m = false) (po_mutexes (pd_opts pl)) ∧
  Forall (λ s, invalidID (so_id (sd_opts s)) = false) (pd_steps pl).

(** The definitions of some pipelines bound to an engine, in order. *)
Fixpoint bind_all (r : Registry (H:=H)) (engineMW : list (H → H)) (mw : list (option (H → H)))
    (pls : list pipelineDecl) : option (result (BindFailure) (Registry (H:=H))) :=
  match pls with
  | [] => Some (Ok r)
  | pl :: pls =>
    match Bind r engineMW (Some (definition_of run unwind pl mw)) with
    | Some (Ok (r, _)) => bind_all r engineMW mw pls
    | Some (Err e) => Some (Err e)
    | None => None
    end
  end.

Definition pl_steps (pl : pipelineDecl) : list string := (λ s, so_id (sd_opts s)) <$> pd_steps pl.

Lemma definition_steps pl mw : S_ID <$> C_Steps (definition_of run unwind pl mw) = pl_steps pl.
Proof.
  unfold definition_of, New, pl_steps. simpl. rewrite <-!list_fmap_compose. apply list_fmap_ext.
  intros i s _. simpl. unfold inherit_class. by case_bool_decide.
Qed.
Lemma definition_step_valid s class :
  so_id (sd_opts s) ≠ "" → invalidID (so_id (sd_opts s)) = false →
  valid_step (inherit_class class (step_of run unwind s)).
Proof.
  intros. unfold inherit_class, valid_step. case_bool_decide; simpl;
    split_and!; try done; try (by eexists); try (by intros _; eexists); destruct (so_unwind _);
    (done || by intros [? [=]] || by eexists).
Qed.

(** A declared pipeline has an id, steps with distinct ids of their own. *)
Lemma declared_well_formed pl mw :
  po_id (pd_opts pl) ≠ "" → pd_steps pl ≠ [] → NoDup (pl_steps pl) → "" ∉ pl_steps pl →
  usable pl → Forall (λ m, is_Some m) mw → well_formed (definition_of run unwind pl mw).
Proof.
  intros Hid Hne Hnd Hempty (Hu & Hm & Hs) Hmw. unfold well_formed. rewrite definition_steps.
  unfold definition_of, New. simpl. split; [done|]. split; [done|]. split; [done|]. split; [done|].
  split; [by destruct (pd_steps pl)|]. split; [|done].
  rewrite !Forall_fmap. apply Forall_forall. intros s Hin. apply definition_step_valid.
  - intros He. apply Hempty, list_elem_of_fmap. by exists s.
  - by apply (proj1 (Forall_forall _ _) Hs).
Qed.

(** One pipeline binds when its id and its steps are new to the registry. *)
Lemma bind_one r engineMW mw pl :
  reg_ok r → well_formed (definition_of run unwind pl mw) →
  Frozen.Get (pipelines r) (po_id (pd_opts pl)) = None →
  (∀ s, s ∈ pl_steps pl → Frozen.Get (stepOwner r) s = None) →
  ∃ r' d, Bind r engineMW (Some (definition_of run unwind pl mw)) = Some (Ok (r', d)) ∧ reg_ok r' ∧
    bd_topo d = (λ s, Ledger.mkStep (so_id (sd_opts s)) (so_unwind (sd_opts s)) (so_retired (sd_opts s)))
                  <$> pd_steps pl ∧
    (∀ p, Frozen.Get (pipelines r') p =
       if decide (p = po_id (pd_opts pl)) then Some d else Frozen.Get (pipelines r) p) ∧
    ∀ s, is_Some (Frozen.Get (stepOwner r') s) → s ∈ pl_steps pl ∨ is_Some (Frozen.Get (stepOwner r) s).
Proof.
  intros Hr Hwf Hp Hs. unfold Bind.
  pose proof (bindDefinition_spec (definition_of run unwind pl mw) engineMW) as Hb.
  pose proof (bound_step_ids (definition_of run unwind pl mw) engineMW) as Hids.
  destruct (bindDefinition _ _) as [d|e]; [|by apply Hb in Hwf].
  destruct Hb as (_ & Hcfg & Htopo & _). setoid_rewrite definition_steps in Hids.
  destruct (register_new r d Hr) as (r' & -> & Hr' & Hget & Hown); [by rewrite Hcfg| |].
  { intros s Hin. apply Hs. by apply (Hids d). }
  exists r', d. split; [done|]. split; [done|]. split; [|split].
  - rewrite Htopo. unfold definition_of, New. simpl. rewrite <-!list_fmap_compose.
    apply list_fmap_ext. intros i s _. simpl. unfold inherit_class. by case_bool_decide.
  - intros p. rewrite Hget, Hcfg. done.
  - intros s [Hin|]%Hown; [left|by right]. by apply (Hids d).
Qed.

Lemma bind_all_binds engineMW mw pls r :
  reg_ok r → NoDup ((λ pl, po_id (pd_opts pl)) <$> pls) → NoDup (pls ≫= pl_steps) →
  (∀ pl, pl ∈ pls → well_formed (definition_of run unwind pl mw) ∧
     Frozen.Get (pipelines r) (po_id (pd_opts pl)) = None) →
  (∀ s, s ∈ pls ≫= pl_steps → Frozen.Get (stepOwner r) s = None) →
  ∃ r', bind_all r engineMW mw pls = Some (Ok r') ∧
    (∀ p d, Frozen.Get (pipelines r) p = Some d → Frozen.Get (pipelines r') p = Some d) ∧
    ∀ pl, pl ∈ pls → ∃ d, Frozen.Get (pipelines r') (po_id (pd_opts pl)) = Some d ∧
      bd_topo d = (λ s, Ledger.mkStep (so_id (sd_opts s)) (so_unwind (sd_opts s)) (so_retired (sd_opts s)))
                    <$> pd_steps pl.
Proof.
  revert r. induction pls as [|pl pls IH]; intros r Hr Hids Hsteps Hpl Hown.
  { exists r. split; [done|]. split; [done|]. set_solver. }
  rewrite bind_cons in *. apply NoDup_app in Hsteps as (_ & Hd & Hsteps).
  rewrite fmap_cons in Hids. apply NoDup_cons in Hids as [Hn Hids].
  destruct (Hpl pl ltac:(left)) as [Hwf Hnone].
  destruct (bind_one r engineMW mw pl Hr Hwf Hnone) as (r1 & d & Hb & Hr1 & Htopo & Hget & Ho1).
  { intros s Hs. apply Hown, elem_of_app. by left. }
  destruct (IH r1 Hr1 Hids Hsteps) as (r' & Hb' & Hkeep & Hall).
  { intros pl' Hin. destruct (Hpl pl' ltac:(by right)) as [? ?]. split; [done|].
    rewrite Hget, decide_False; [done|]. intros Heq. apply Hn. rewrite <-Heq.
    apply list_elem_of_fmap. by exists pl'. }
  { intros s Hs. apply eq_None_not_Some. intros [Hc|Hc]%Ho1; [by apply (Hd s)|].
    revert Hc. apply eq_None_not_Some, Hown, elem_of_app. by right. }
  exists r'. cbn [bind_all]. rewrite Hb. split; [done|]. split.
  - intros p e Hp. apply Hkeep. rewrite Hget. case_decide; [|done]. subst. congruence.
  - intros pl' [->|Hin]%elem_of_cons; [|by apply Hall]. exists d. split; [|done].
    apply Hkeep. by rewrite Hget, decide_True.
Qed.
End binding.

Lemma bind_NoDup_elem {A B} (f : A → list B) l x : NoDup (l ≫= f) → x ∈ l → NoDup (f x).
Proof.
  intros Hn (l1 & l2 & ->)%list_elem_of_split. rewrite bind_app, bind_cons in Hn.
  apply NoDup_app in Hn as (_ & _ & Hn). by apply NoDup_app in Hn as [Hn _].
Qed.
Lemma elem_of_declared pl fs :
  pl ∈ declared fs ↔ ∃ i m po, (i, m) ∈ tops fs ∧ pipelineOptions m = Some po ∧
    pl = resolved (indexMessages fs) (mkPipelineDecl m i po None None None (m_nested m ≫= decl_of)).
Proof.
  unfold declared. rewrite list_elem_of_bind. split.
  - intros ([i m] & (pl' & -> & (po & Hpo & ->)%elem_of_collected)%list_elem_of_fmap & Hin). by exists i, m, po.
  - intros (i & m & po & Hin & Hpo & ->). exists (i, m). split; [|done].
    apply list_elem_of_fmap_2, elem_of_collected. by exists po.
Qed.
Lemma nested_ids ns :
  (∀ n, n ∈ ns → is_Some (stepOptions n)) →
  (λ s, so_id (sd_opts s)) <$> (ns ≫= decl_of) = step_id <$> ns.
Proof.
  induction ns as [|n ns IH]; intros Hns; [done|]. rewrite bind_cons, fmap_app, IH, fmap_cons
    by (intros; apply Hns; by right).
  destruct (Hns n ltac:(left)) as [so Hso]. unfold decl_of, step_id. by rewrite Hso.
Qed.
Lemma declared_ids fs :
  (λ pl, po_id (pd_opts pl)) <$> declared fs =
    pipeline_id <$> (filter (λ e, is_pipeline e.2 = true) (tops fs)).*2.
Proof.
  rewrite <-collected_ids, <-declared_collected, bind_singletons, <-list_fmap_compose.
  by rewrite bind_singletons.
Qed.
Lemma declared_steps fs :
  (∀ e, e ∈ tops fs → top_declared e.2) → declared fs ≫= pl_steps = tops fs ≫= λ e, top_steps e.2.
Proof.
  unfold declared. generalize (indexMessages fs) as idx. intros idx.
  induction (tops fs) as [|[i m] l IH]; intros Ht; [done|].
  rewrite !bind_cons, bind_app, IH by (intros; apply Ht; by right). f_equal.
  destruct (Ht (i, m) ltac:(left)) as [_ Hm]. unfold collected, top_steps. simpl in *.
  destruct (pipelineOptions m); [|done]. simpl. rewrite app_nil_r. unfold pl_steps. simpl.
  apply nested_ids. intros n Hn. by apply Hm.
Qed.

(** C37: Of what the generator accepts, any pipelines bind together to one engine, in any
    order, as long as their names are ones the store takes and no middleware is nil; each
    is then registered under its id, with the steps it declares. *)
Theorem generated_binds {H} (run unwind : stepDecl → H) engineMW mw fs out pls :
  Generate fs = Ok out → pls ⊆+ declared fs → Forall usable pls → Forall (λ m, is_Some m) mw →
  ∃ r, bind_all run unwind empty_registry engineMW mw pls = Some (Ok r) ∧
    ∀ pl, pl ∈ pls → ∃ d, Frozen.Get (pipelines r) (po_id (pd_opts pl)) = Some d ∧
      bd_topo d = (λ s, Ledger.mkStep (so_id (sd_opts s)) (so_unwind (sd_opts s)) (so_retired (sd_opts s)))
                    <$> pd_steps pl.
Proof.
  intros Hgen [k Hk]%submseteq_Permutation Hu Hmw.
  pose proof (checked_correct fs) as Hc. unfold Generate in Hgen. destruct (checked fs) as [errs pls0].
  destruct errs as [|]; [|done]. destruct Hc as [Hw _]. destruct (proj1 Hw eq_refl) as [Ht Hs Hp Hn].
  rewrite <-declared_ids in Hn. rewrite <-declared_steps in Hs by done.
  rewrite Hk, fmap_app in Hn. rewrite Hk, bind_app in Hs.
  apply NoDup_app in Hn as (Hn & _ & _). apply NoDup_app in Hs as (Hs & _ & _).
  destruct (bind_all_binds run unwind engineMW mw pls empty_registry) as (r & Hr & _ & Hall); try done.
  - intros pl Hin. split; [|done]. assert (pl ∈ declared fs) as Hd by (rewrite Hk, elem_of_app; by left).
    apply elem_of_declared in Hd as (i & m & po & Htop & Hpo & Heq).
    destruct (Hp (i, m) po Htop Hpo) as (Hid & _ & Hne & _). destruct (Ht (i, m) Htop) as [_ Htm].
    simpl in *. rewrite Hpo in Htm. assert (pl_steps pl = step_id <$> m_nested m) as Hps.
    { rewrite Heq. apply nested_ids. intros n Hin'. by apply Htm. }
    apply declared_well_formed; [by rewrite Heq| | |rewrite Hps| |done].
    + rewrite Heq. simpl. intros Hnil%(proj1 (nested_steps _ (λ n Hn, proj1 (Htm n Hn)))). done.
    + by apply (bind_NoDup_elem _ pls).
    + intros (n & Hn' & Hin')%list_elem_of_fmap. by destruct (Htm n Hin') as (_ & _ & ? & _).
    + by apply (proj1 (Forall_forall _ _) Hu).
  - by exists r.
Qed.

(** *** Two files of a package *)

Definition ex_step (name id : string) (unwind : bool) : message :=
  Message name ("pkg." +:+ name) 1 (Some (mkStepOptions id unwind false "")) None [].
Definition ex_pipeline (name id : string) (mutexes : list string) (steps : list message) : message :=
  Message name ("pkg." +:+ name) 0 None (Some (mkPipelineOptions id "" ".pkg.Result" "" mutexes "" "")) steps.
Definition ex_result : message := Message "Result" "pkg.Result" 1 None None [].
Definition ex_files (mutexes : list string) : list file :=
  [mkFile false "google" [];
   mkFile true "pkg"
     [ex_result; ex_pipeline "Deploy" "deploy" mutexes
                   [ex_step "Build" "deploy.build" false; ex_step "Ship" "deploy.ship" true]];
   mkFile true "pkg" [ex_pipeline "Remove" "remove" mutexes [ex_step "Drop" "remove.drop" false]]].
Definition ex_accepted : list emission :=
  match Generate (ex_files ["disk"]) with Ok out => out | Err _ => [] end.

Lemma ex_written :
  (λ e, (e_file e, length (e_pipelines e), e_options e)) <$> ex_accepted = [(1, 1, true); (2, 1, false)].
Proof. vm_compute. reflexivity. Qed.

(** The second pipeline bound before the first. *)
Lemma generated_binds_witness :
  ∃ r, bind_all (λ _, 1) (λ _, 2) empty_registry [] [Some Datatypes.S]
         (rev (declared (ex_files ["disk"]))) = Some (Ok r) ∧
    ∀ pl, pl ∈ rev (declared (ex_files ["disk"])) → ∃ d,
      Frozen.Get (pipelines r) (po_id (pd_opts pl)) = Some d ∧
      bd_topo d = (λ s, Ledger.mkStep (so_id (sd_opts s)) (so_unwind (sd_opts s)) (so_retired (sd_opts s)))
                    <$> pd_steps pl.
Proof.
  apply (generated_binds (λ _, 1) (λ _, 2) [] [Some Datatypes.S] (ex_files ["disk"]) ex_accepted).
  - vm_compute. reflexivity.
  - apply Permutation_submseteq. by rewrite Permutation_rev.
  - vm_compute declared. repeat constructor; done.
  - repeat constructor. by eexists.
Defined.

(** A mutex without a name passes the generator, and its pipelines never bind. *)
Theorem unusable_name_accepted :
  (∃ out, Generate (ex_files [""]) = Ok out) ∧
  ∀ {H} (run unwind : stepDecl → H) r engineMW mw pl,
    pl ∈ declared (ex_files [""]) →
    Bind r engineMW (Some (definition_of run unwind pl mw)) = Some (Err (Unbindable (InvalidMutex ""))).
Proof.
  split; [eexists; vm_compute; reflexivity|]. intros H run unwind r engineMW mw pl Hpl.
  assert (Forall (λ pl, po_mutexes (pd_opts pl) = [""] ∧ po_id (pd_opts pl) ≠ "" ∧
    invalidID (po_id (pd_opts pl)) = false) (declared (ex_files [""]))) as Hall.
  { vm_compute declared. repeat constructor; done. }
  destruct (proj1 (Forall_forall _ _) Hall pl Hpl) as (Hm & Hid & Hv).
  unfold Bind, bindDefinition, definition_of, New. simpl. rewrite bool_decide_eq_false_2 by done.
  by rewrite Hv, Hm.
Qed.
