(* ===== verification/Views.v ===== *)
(** * Views: what a handler reads, and the violations its reads report
    (engine/invocation.go, and the accessors of invocation.go, state.go and typed.go)

    A handler or reducer sees its run through a view: the facts of the call, and a cell
    for the first violation.  Handlers here are programs of reads; a message of the input
    or of a state is decoded by [proto.Unmarshal], a parameter, which merges bytes into a
    message and answers an error. *)
From stdpp Require Import pretty.
From S2P Require Import Signals TokenPool RunPool JoinSet MemStore Binding.
From S2P Require Import Prelude Kernel Text Errors Ledger Driver Engine Sample Machine Carry.
#[local] Open Scope engine_scope.

(** ** [durable.StateSource] *)

(** A source of committed states that takes reports; [violation] is what
    [takeViolation] reads. *)
Class StateSource (V : Type) := {
  StateBytes : V → StepID → option string;
  ReportViolation : option string → V → V;
  takeViolation : V → option string;
}.
(** The first report stays, and the states are as they were. *)
Class StateSourceLaws (V : Type) `{StateSource V} := {
  report_states : ∀ v e id, StateBytes (ReportViolation e v) id = StateBytes v id;
  report_first : ∀ v e, takeViolation (ReportViolation e v) =
    match takeViolation v with Some x => Some x | None => e end;
}.

Section views.
Context {T : Type} (unmarshal : string → T → T * option string).

(** [attemptInvocation]: the facts of the call, the message its input decodes into, and
    the violation. *)
Record attemptInvocation := mkAttemptInvocation {
  av_inv : Invocation;
  av_newInput : option T;
  av_violation : option string;
}.
Definition attempt_report (err : option string) (v : attemptInvocation) : attemptInvocation :=
  mkAttemptInvocation (av_inv v) (av_newInput v)
    (match av_violation v with None => err | Some _ => av_violation v end).
#[export] Instance attempt_source : StateSource attemptInvocation := {|
  StateBytes v id := inv_states (av_inv v) !! id;
  ReportViolation := attempt_report;
  takeViolation := av_violation;
|}.

Definition Awaited (v : attemptInvocation) : option Wake := inv_awaited (av_inv v).
Definition AwaitedRunID (v : attemptInvocation) : option RunID :=
  match inv_awaited (av_inv v) with
  | Some w => match Wake_Targets w with [id] => Some id | _ => None end
  | None => None
  end.
Definition Annotations (v : attemptInvocation) : option (gmap string string) :=
  if bool_decide (inv_annotations (av_inv v) = ∅) then None else Some (inv_annotations (av_inv v)).
Definition attempt_Failure (v : attemptInvocation) : option Failure := inv_failure (av_inv v).

(** [inputDecodeError] and [stateDecodeError]. *)
Definition inputDecodeError (err : string) : string := "cannot decode pipeline input: " +:+ err.
Definition stateDecodeError (step : StepID) (err : string) : string :=
  "cannot decode committed state of step " +:+ step +:+ ": " +:+ err.

(** The input decoded into a fresh message; the message is handed out even then. *)
Definition input_message {V} `{StateSource V} (new : option T) (input : bytes) (v : V) : option T * V :=
  match new with
  | None => (None, v)
  | Some msg =>
    let '(msg, err) := unmarshal (default "" input) msg in
    (Some msg, match err with Some e => ReportViolation (Some (inputDecodeError e)) v | None => v end)
  end.
Definition InputMessage (v : attemptInvocation) : option T * attemptInvocation :=
  input_message (av_newInput v) (inv_input (av_inv v)) v.

(** [reduceView]. *)
Record reducer_view := mkReducerView {
  rv_view : reduceView;
  rv_newInput : option T;
  rv_violation : option string;
}.
Definition reduce_report (err : option string) (v : reducer_view) : reducer_view :=
  mkReducerView (rv_view v) (rv_newInput v)
    (match rv_violation v with None => err | Some _ => rv_violation v end).
#[export] Instance reduce_source : StateSource reducer_view := {|
  StateBytes v id := v_states (rv_view v) !! id;
  ReportViolation := reduce_report;
  takeViolation := rv_violation;
|}.
Definition reduce_Failure (v : reducer_view) : option Failure := v_failure (rv_view v).
Definition UnwindFailure (v : reducer_view) (step : StepID) : option Failure :=
  v_unwindFailures (rv_view v) !! step.
Definition reduce_InputMessage (v : reducer_view) : option T * reducer_view :=
  input_message (rv_newInput v) (v_input (rv_view v)) v.

(** [LookupState] at a reference: the step, and the message its state decodes into. *)
Record StateStepRef := mkStateStepRef { ref_Step : StepID; ref_New : T }.
Definition LookupState {V} `{StateSource V} (src : V) (ref : StateStepRef) : option T * V :=
  match StateBytes src (ref_Step ref) with
  | None => (None, src)
  | Some b =>
    match unmarshal b (ref_New ref) with
    | (msg, None) => (Some msg, src)
    | (_, Some err) => (None, ReportViolation (Some (stateDecodeError (ref_Step ref) err)) src)
    end
  end.

(** [TypedInvocation.Input]: the zero value when there is none of the type. *)
Definition typed_Input {In} (assert : T → option In) (zero : In) (v : attemptInvocation)
    : In * attemptInvocation :=
  let '(msg, v) := InputMessage v in
  (match msg ≫= assert with Some x => x | None => zero end, v).
Definition typed_State (v : attemptInvocation) (ref : StateStepRef) : option T * attemptInvocation :=
  LookupState v ref.

#[export] Instance attempt_source_laws : StateSourceLaws attemptInvocation.
Proof. constructor; [done|]. intros v e. simpl. by destruct (av_violation v). Qed.
#[export] Instance reduce_source_laws : StateSourceLaws reducer_view.
Proof. constructor; [done|]. intros v e. simpl. by destruct (rv_violation v). Qed.

(** ** Handlers as programs of reads *)

Inductive prog (R : Type) :=
| Done (r : R)
| Input (k : option T → prog R)
| State (ref : StateStepRef) (k : option T → prog R)
| Report (err : option string) (k : prog R).
Arguments Done {R}. Arguments Input {R}. Arguments State {R}. Arguments Report {R}.

(** The program on a source, with the source's own [InputMessage]. *)
Fixpoint run_prog {V R} `{StateSource V} (input : V → option T * V) (p : prog R) (v : V) : R * V :=
  match p with
  | Done r => (r, v)
  | Input k => let '(x, v) := input v in run_prog input (k x) v
  | State ref k => let '(x, v) := LookupState v ref in run_prog input (k x) v
  | Report err k => run_prog input k (ReportViolation err v)
  end.

(** What the program reads and reports, from the facts alone: the states, the input and
    the message it decodes into. *)
Section facts.
Context (states : StepID → option string) (new : option T) (input : bytes).
Definition read_input : option T := fst <$> (unmarshal (default "" input) <$> new).
Definition input_error : option string :=
  (unmarshal (default "" input) <$> new) ≫= λ r, inputDecodeError <$> snd r.
Definition read_state (ref : StateStepRef) : option T :=
  states (ref_Step ref) ≫= λ b,
    match unmarshal b (ref_New ref) with (msg, None) => Some msg | _ => None end.
Definition state_error (ref : StateStepRef) : option string :=
  states (ref_Step ref) ≫= λ b, stateDecodeError (ref_Step ref) <$> (unmarshal b (ref_New ref)).2.
(** The result, and the reports in order. *)
Fixpoint spec_prog {R} (p : prog R) : R * list string :=
  match p with
  | Done r => (r, [])
  | Input k => let '(r, es) := spec_prog (k read_input) in (r, option_list input_error ++ es)
  | State ref k => let '(r, es) := spec_prog (k (read_state ref)) in (r, option_list (state_error ref) ++ es)
  | Report err k => let '(r, es) := spec_prog k in (r, option_list err ++ es)
  end.
End facts.

(** The views of a source, given by what reports leave as it was, with the states and the
    input of the facts. *)
Section sources.
Context {V : Type} `{StateSourceLaws V} (states : StepID → option string) (new : option T) (input : bytes).
Context (shows : V → Prop) (shows_states : ∀ v id, shows v → StateBytes v id = states id).
Context (shows_report : ∀ v e, shows v → shows (ReportViolation e v)).

Definition reports (v v' : V) (err : option string) : Prop :=
  shows v' ∧ takeViolation v' = match takeViolation v with Some x => Some x | None => err end.
Definition answers (read : V → option T * V) : Prop :=
  ∀ v, shows v → (read v).1 = read_input new input ∧ reports v (read v).2 (input_error new input).

Lemma reports_none v : shows v → reports v v None.
Proof. intros Hv. split; [done|]. by destruct (takeViolation v). Qed.
Lemma reports_report v err : shows v → reports v (ReportViolation err v) err.
Proof. intros Hv. split; [by apply shows_report|apply report_first]. Qed.
Lemma reports_trans v1 v2 v3 err es :
  reports v1 v2 err → reports v2 v3 (head es) → reports v1 v3 (head (option_list err ++ es)).
Proof.
  intros [_ H1] [? H2]. split; [done|]. rewrite H2, H1. by destruct (takeViolation v1), err.
Qed.

Lemma input_message_answers v :
  shows v → let r := input_message new input v in
  r.1 = read_input new input ∧ reports v r.2 (input_error new input).
Proof.
  intros Hv. unfold input_message, read_input, input_error.
  destruct new as [msg|]; [|split; [done|by apply reports_none]].
  simpl. destruct (unmarshal (default "" input) msg) as [m [e|]]; simpl; (split; [done|]).
  - by apply reports_report.
  - by apply reports_none.
Qed.
Lemma LookupState_answers v ref :
  shows v → let r := LookupState v ref in
  r.1 = read_state states ref ∧ reports v r.2 (state_error states ref).
Proof.
  intros Hv. unfold LookupState, read_state, state_error. rewrite shows_states by done.
  destruct (states (ref_Step ref)) as [b|]; [|split; [done|by apply reports_none]].
  simpl. destruct (unmarshal b (ref_New ref)) as [m [e|]]; simpl; (split; [done|]).
  - by apply reports_report.
  - by apply reports_none.
Qed.

Lemma run_prog_spec {R} (read : V → option T * V) (p : prog R) v :
  answers read → shows v →
  let r := run_prog read p v in let s := spec_prog states new input p in
  r.1 = s.1 ∧ reports v r.2 (head s.2).
Proof.
  intros Hread. cbv zeta. revert v. induction p as [r|k IH|ref k IH|err p IH]; intros v Hv; simpl.
  - split; [done|by apply reports_none].
  - destruct (Hread v Hv) as [Hx Hr]. destruct (read v) as [x v1]. simpl in Hx, Hr. subst x.
    destruct (IH (read_input new input) v1 (proj1 Hr)) as [-> Ho].
    destruct (spec_prog _ _ _ _) as [r es]. split; [done|by eapply reports_trans].
  - destruct (LookupState_answers v ref Hv) as [Hx Hr]. destruct (LookupState v ref) as [x v1].
    simpl in Hx, Hr. subst x. destruct (IH (read_state states ref) v1 (proj1 Hr)) as [-> Ho].
    destruct (spec_prog _ _ _ _) as [r es]. split; [done|by eapply reports_trans].
  - pose proof (reports_report v err Hv) as Hr. destruct (IH _ (proj1 Hr)) as [-> Ho].
    destruct (spec_prog _ _ _ _) as [r es]. split; [done|by eapply reports_trans].
Qed.
End sources.

(** A handler or a reducer of reads gets what the run's facts say, whatever it read
    before, and leaves as its violation the first read or report that failed. *)
Definition attempt_shows inv new (v : attemptInvocation) : Prop := av_inv v = inv ∧ av_newInput v = new.
Definition reducer_shows view new (v : reducer_view) : Prop := rv_view v = view ∧ rv_newInput v = new.
Lemma attempt_shows_states inv new v id :
  attempt_shows inv new v → StateBytes v id = inv_states inv !! id.
Proof. by intros [<- _]. Qed.
Lemma reducer_shows_states view new v id :
  reducer_shows view new v → StateBytes v id = v_states view !! id.
Proof. by intros [<- _]. Qed.
Lemma attempt_shows_report inv new (v : attemptInvocation) e :
  attempt_shows inv new v → attempt_shows inv new (ReportViolation e v).
Proof. done. Qed.
Lemma reducer_shows_report view new (v : reducer_view) e :
  reducer_shows view new v → reducer_shows view new (ReportViolation e v).
Proof. done. Qed.
Lemma attempt_input_answers inv new :
  answers new (inv_input inv) (attempt_shows inv new) InputMessage.
Proof.
  intros v Hv. unfold InputMessage. pose proof Hv as [-> ->].
  apply input_message_answers; [apply attempt_shows_report|done].
Qed.
Lemma reducer_input_answers view new :
  answers new (v_input view) (reducer_shows view new) reduce_InputMessage.
Proof.
  intros v Hv. unfold reduce_InputMessage. pose proof Hv as [-> ->].
  apply input_message_answers; [apply reducer_shows_report|done].
Qed.

Lemma attempt_reads {R} (p : prog R) inv new :
  let r := run_prog InputMessage p (mkAttemptInvocation inv new None) in
  let s := spec_prog (λ id, inv_states inv !! id) new (inv_input inv) p in
  r.1 = s.1 ∧ takeViolation r.2 = head s.2 ∧ av_inv r.2 = inv.
Proof.
  destruct (run_prog_spec _ new _ _ (λ v id, attempt_shows_states inv new v id)
    (attempt_shows_report inv new) InputMessage p (mkAttemptInvocation inv new None)
    (attempt_input_answers inv new) (conj eq_refl eq_refl)) as (Hr & [Hi _] & Hv). by split_and!.
Qed.
Lemma reducer_reads {R} (p : prog R) view new :
  let r := run_prog reduce_InputMessage p (mkReducerView view new None) in
  let s := spec_prog (λ id, v_states view !! id) new (v_input view) p in
  r.1 = s.1 ∧ takeViolation r.2 = head s.2 ∧ rv_view r.2 = view.
Proof.
  destruct (run_prog_spec _ new _ _ (λ v id, reducer_shows_states view new v id)
    (reducer_shows_report view new) reduce_InputMessage p (mkReducerView view new None)
    (reducer_input_answers view new) (conj eq_refl eq_refl)) as (Hr & [Hi _] & Hv). by split_and!.
Qed.
End views.
Arguments Done {T R}. Arguments Input {T R}. Arguments State {T R}. Arguments Report {T R}.

(** ** A read that fails, in the engine *)

Section invalidation.
Context {S H T : Type} `{Store S} (unmarshal : string → T → T * option string).
Context (cfg : Config (S:=S) (H:=H)).

(** A handler of reads as the engine calls it. *)
Definition read_call (p : prog (T:=T) (Engine.message * option goerr)) (new : option T)
    (inv : Invocation) (w : World S) : World S * outcome :=
  let '((st, err), v) := run_prog unmarshal (InputMessage unmarshal) p (mkAttemptInvocation inv new None) in
  (w, mkOutcome None st err (takeViolation v)).

Lemma clear_kept_invalid id w : w_invalid (clearClassWait (S:=S) id w).1 = w_invalid w.
Proof.
  unfold clearClassWait, bind, get, modify. destruct (TokenPool.Clear _ _) as [pool [k|]]; done.
Qed.
Lemma unpark_kept_invalid id w : w_invalid (unpark (S:=S) id w).1 = w_invalid w.
Proof. unfold unpark, bind, get, modify. by destruct (JoinSet.Remove _ _). Qed.
Lemma markInvalid_marks rec stepID reason w :
  Ie_Reason <$> w_invalid (markInvalid (S:=S) rec stepID reason w).1 !! Run_RunID rec = Some reason.
Proof.
  unfold markInvalid, bind at 1, get. case_bool_decide as Hr; [done|].
  set (w1 := set_invalid (<[Run_RunID rec := mkInvalidRunError (Run_RunID rec) (Run_PipelineID rec) reason]>
    (w_invalid w)) w).
  assert (Ie_Reason <$> w_invalid w1 !! Run_RunID rec = Some reason) as Hw1.
  { simpl. by rewrite lookup_insert_eq. }
  unfold bind at 1, modify. fold w1. clearbody w1. unfold bind at 1.
  pose proof (clear_kept_invalid (Run_RunID rec) w1) as Hc.
  destruct (clearClassWait _ w1) as [w2 []]. simpl in Hc.
  unfold bind at 1, get. unfold bind at 1.
  destruct (or_panic _ _ w2) as [w3 []] eqn:Hp.
  assert (w_invalid w3 = w_invalid w2) as Hw3.
  { revert Hp. unfold or_panic. destruct (RunPool.Clear _ _) as [[runs [k|]]|]; by intros [= <-]. }
  unfold bind, emit, modify.
  pose proof (unpark_kept_invalid (Run_RunID rec) (set_trace (w_trace w3 ++ [EvRunInvalid (Run_RunID rec) stepID reason]) w3)) as Hu.
  destruct (unpark _ _) as [w4 x]. simpl in *. by rewrite Hu, Hw3, Hc.
Qed.

Lemma call_reads p new h inv w :
  (∀ w, e_call cfg h inv w = read_call p new inv w) →
  let '(w', (o, _)) := call_handler cfg h inv w in
  w_store w' = w_store w ∧
  o_violation o = head (spec_prog unmarshal (λ id, inv_states inv !! id) new (inv_input inv) p).2.
Proof.
  intros Hcall. unfold call_handler, bind, attemptContext, emit, modify.
  rewrite Hcall. unfold read_call.
  destruct (attempt_reads unmarshal p inv new) as (_ & Hv & _). cbv zeta in Hv.
  destruct (run_prog _ _ _ _) as [[st e] v]. split; [done|exact Hv].
Qed.
Lemma invoke_reads p new h inv w (invoke : H → Invocation → M S invoked) :
  invoke = invokeForward cfg ∨ invoke = invokeUnwind cfg →
  (∀ w, e_call cfg h inv w = read_call p new inv w) →
  let '(w', i) := invoke h inv w in
  w_store w' = w_store w ∧
  i_violation i = head (spec_prog unmarshal (λ id, inv_states inv !! id) new (inv_input inv) p).2.
Proof.
  intros Hi Hcall. pose proof (call_reads p new h inv w Hcall) as Hc.
  destruct Hi as [-> | ->]; unfold invokeForward, invokeUnwind, bind;
    destruct (call_handler cfg h inv w) as [w' [o cause]]; cbn; destruct Hc; by destruct (o_panic o).
Qed.
Lemma violation_invalidates rec stepID err (w : World S) :
  let '(w', (_, res)) :=
    (markInvalid rec stepID (Violation err);; mret (rec, stopped_run)) w in
  res = stopped_run ∧ w_store w' = w_store w ∧
  Ie_Reason <$> w_invalid w' !! Run_RunID rec = Some (Violation err).
Proof.
  unfold bind. pose proof (markInvalid_marks rec stepID (Violation err) w) as Hm.
  destruct (keeps_markInvalid rec stepID (Violation err) w) as [Hk _].
  destruct (markInvalid _ _ _ w) as [w' []]. done.
Qed.

(** The reservation of an attempt, and the attempt. *)
Definition reserve (phase : Phase) (rec : RunRecord) (stepID : StepID) (w : World S)
    : World S * (RunRecord * bool) :=
  let rec := reserved rec stepID phase (w_now w) in
  apply rec (mkTransition (activeCursor rec stepID (attempts_of rec stepID phase)) [] None None None) w.
Definition run_attempt (phase : Phase) : RunRecord → boundStep (H:=H) → StepID → M S (RunRecord * ran) :=
  match phase with PhaseUnwind => runUnwind cfg | _ => runForward cfg end.

(** C13: A handler, of a step or of its unwind, whose reads fail, be it on its input or on
    a state: the attempt reserved is the last the engine writes of the run, and the run is
    invalid with the first report, whatever the handler returned. *)
Theorem failed_read_invalidates p new rec bs stepID phase h w err :
  (phase = PhaseForward ∧ bs_forward bs = h) ∨ (phase = PhaseUnwind ∧ bs_unwind bs = Some h) →
  (∀ inv w, e_call cfg h inv w = read_call p new inv w) →
  let '(w1, (rec1, ok)) := reserve phase rec stepID w in
  ok = true →
  head (spec_prog unmarshal (λ id, committedStates rec1 !! id) new (Run_Input rec1) p).2 = Some err →
  let '(w', (_, res)) := run_attempt phase rec bs stepID w in
  res = stopped_run ∧ w_store w' = w_store w1 ∧
  Ie_Reason <$> w_invalid w' !! Run_RunID rec1 = Some (Violation err).
Proof.
  intros Hph Hcall. unfold reserve, run_attempt.
  destruct Hph as [[-> Hh]|[-> Hh]]; cbv zeta; unfold runForward, runUnwind, bind at 1, now;
    unfold bind at 1; (destruct (apply _ _ w) as [w1 [rec1 ok]]; intros -> Herr; cbn [negb]).
  - rewrite Hh. unfold bind at 1.
    pose proof (invoke_reads p new h (invocation rec1 stepID
      (attempts_of (reserved rec stepID PhaseForward (w_now w)) stepID PhaseForward) PhaseForward None)
      w1 _ (or_introl eq_refl) (Hcall _)) as Hi.
    destruct (invokeForward _ _ _ w1) as [w2 i]. destruct Hi as [<- Hv]. simpl in Hv. rewrite Herr in Hv.
    unfold forward_result. rewrite Hv. apply violation_invalidates.
  - rewrite Hh. unfold bind at 1.
    pose proof (invoke_reads p new h (invocation rec1 stepID
      (attempts_of (reserved rec stepID PhaseUnwind (w_now w)) stepID PhaseUnwind) PhaseUnwind (Run_Failure rec1))
      w1 _ (or_intror eq_refl) (Hcall _)) as Hi.
    destruct (invokeUnwind _ _ _ w1) as [w2 i]. destruct Hi as [<- Hv]. simpl in Hv. rewrite Herr in Hv.
    unfold unwind_result. rewrite Hv. apply violation_invalidates.
Qed.
End invalidation.

(** ** A step that reads a state of another schema *)

Definition ex_unmarshal (b msg : string) : string * option string :=
  if String.prefix "!" b then (msg, Some "bad wire") else (b, None).
Definition ex_reads : prog (T:=string) (Engine.message * option goerr) :=
  State (mkStateStepRef "a" "") (λ x,
    match x with Some s => Done (MsgBytes s, None) | None => Done (MsgNil, Some (other_error "no state")) end).
Definition ex_schema : Engine.Config (S:=MemStore) (H:=script) :=
  config_with (λ _, read_call ex_unmarshal ex_reads None) (sample_config "p" "" (Succeeds "") (Succeeds "")).
Definition ex_committed : RunRecord :=
  put_Op "a" PhaseForward (mkOp Driver.OpSucceeded 1 (Some "!old") None 1) (sample_run "r" "p" "x").
Definition ex_at_b : boundStep (H:=script) :=
  mkBoundStep (step_b (Succeeds "")) (Succeeds "") None.

Definition ex_unwinding : RunRecord :=
  set_Phase PhaseUnwind (put_Op "b" PhaseForward (mkOp Driver.OpSucceeded 1 (Some "") None 2) ex_committed).
Definition ex_at_b_unwind : boundStep (H:=script) :=
  mkBoundStep (step_b (Succeeds "")) (Succeeds "") (Some (Succeeds "")).
Definition ex_bad_wire : string := "cannot decode committed state of step a: bad wire".
Lemma failed_read_invalidates_witness :
  Ie_Reason <$> w_invalid (run_attempt ex_schema PhaseForward ex_committed ex_at_b "b"
    (sample_world [ex_committed])).1 !! "r" = Some (Violation ex_bad_wire) ∧
  Ie_Reason <$> w_invalid (run_attempt ex_schema PhaseUnwind ex_unwinding ex_at_b_unwind "b"
    (sample_world [ex_unwinding])).1 !! "r" = Some (Violation ex_bad_wire).
Proof.
  pose proof (failed_read_invalidates ex_unmarshal ex_schema ex_reads None ex_committed ex_at_b "b"
    PhaseForward (Succeeds "") (sample_world [ex_committed]) ex_bad_wire
    (or_introl (conj eq_refl eq_refl)) (λ _ _, eq_refl)) as Hf.
  pose proof (failed_read_invalidates ex_unmarshal ex_schema ex_reads None ex_unwinding ex_at_b_unwind "b"
    PhaseUnwind (Succeeds "") (sample_world [ex_unwinding]) ex_bad_wire
    (or_intror (conj eq_refl eq_refl)) (λ _ _, eq_refl)) as Hu.
  assert (let '(w1, (rec1, ok)) := reserve PhaseForward ex_committed "b" (sample_world [ex_committed]) in
    ok = true ∧ Run_RunID rec1 = "r" ∧
    head (spec_prog ex_unmarshal (λ id, committedStates rec1 !! id) None (Run_Input rec1) ex_reads).2 =
      Some ex_bad_wire) as Hok by (vm_compute; done).
  assert (let '(w1, (rec1, ok)) := reserve PhaseUnwind ex_unwinding "b" (sample_world [ex_unwinding]) in
    ok = true ∧ Run_RunID rec1 = "r" ∧
    head (spec_prog ex_unmarshal (λ id, committedStates rec1 !! id) None (Run_Input rec1) ex_reads).2 =
      Some ex_bad_wire) as Hok' by (vm_compute; done).
  split.
  - destruct (reserve _ _ _ _) as [w1 [rec1 ok]]. destruct Hok as (Hok & Hid & Herr).
    specialize (Hf Hok Herr). destruct (run_attempt _ _ _ _ _ _) as [w' [rec' res]].
    destruct Hf as (_ & _ & Hf). rewrite Hid in Hf. exact Hf.
  - clear Hf Hok. destruct (reserve _ _ _ _) as [w1 [rec1 ok]]. destruct Hok' as (Hok & Hid & Herr).
    specialize (Hu Hok Herr). destruct (run_attempt _ _ _ _ _ _) as [w' [rec' res]].
    destruct Hu as (_ & _ & Hu). rewrite Hid in Hu. exact Hu.
Defined.
