(* ===== verification/Fakes.v ===== *)
(** * Fakes: the test doubles of the library (durabletest/clock.go,
    durabletest/invocation.go)

    [FakeClock] keeps its time and the timers that wait for it; a channel is a number, and
    what was sent on it.  The fake [Invocation] is a third source of states beside the
    views of the engine (Views): a handler of reads gets from it what it gets from the
    engine's invocation and from a reducer's view of the same run. *)
From S2P Require Import Signals TokenPool RunPool JoinSet MemStore Binding.
From S2P Require Import Prelude Kernel Text Errors Ledger Driver Engine Views.

(** ** [FakeClock] *)

Record fakeTimer := mkTimer { ft_at : Time; ft_ch : nat }.
Record FakeClock := mkFakeClock {
  fc_now : Time;
  fc_timers : list fakeTimer;
  (** The channels made, and the time sent on each that has fired. *)
  fc_made : nat;
  fc_sent : gmap nat Time;
}.
Definition NewFakeClock (now : Time) : FakeClock := mkFakeClock now [] 0 ∅.
Definition Now (c : FakeClock) : Time := fc_now c.
Definition After (d : Duration) (c : FakeClock) : FakeClock * nat :=
  let ch := fc_made c in
  (if (d <=? 0)%Z then
     mkFakeClock (fc_now c) (fc_timers c) (fc_made c + 1) (<[ch := fc_now c]> (fc_sent c))
   else
     mkFakeClock (fc_now c) (fc_timers c ++ [mkTimer (TimeAdd (fc_now c) d) ch]) (fc_made c + 1)
       (fc_sent c),
   ch).
(** [Advance]: the loop over the timers; [t.at.After(c.now)] keeps one. *)
Definition advance_timer (now : Time) (st : list fakeTimer * gmap nat Time) (t : fakeTimer)
    : list fakeTimer * gmap nat Time :=
  let '(remaining, sent) := st in
  if (ft_at t <=? now)%Z then (remaining, <[ft_ch t := now]> sent) else (remaining ++ [t], sent).
Definition Advance (d : Duration) (c : FakeClock) : FakeClock :=
  let now := TimeAdd (fc_now c) d in
  let '(remaining, sent) := foldl (advance_timer now) ([], fc_sent c) (fc_timers c) in
  mkFakeClock now remaining (fc_made c) sent.

Inductive clock_op := OpAfter (d : Duration) | OpAdvance (d : Duration).
Definition clock_exec (c : FakeClock) (o : clock_op) : FakeClock :=
  match o with OpAfter d => (After d c).1 | OpAdvance d => Advance d c end.
Definition clock_run (now : Time) (ops : list clock_op) : FakeClock :=
  foldl clock_exec (NewFakeClock now) ops.

(** Every channel made waits for a time to come or was sent a time, not both. *)
Record clock_ok (c : FakeClock) : Prop := {
  ck_pending : ∀ t, t ∈ fc_timers c → (fc_now c < ft_at t)%Z ∧ ft_ch t < fc_made c ∧
    fc_sent c !! ft_ch t = None;
  ck_distinct : NoDup (ft_ch <$> fc_timers c);
  ck_made : ∀ ch, ch < fc_made c → is_Some (fc_sent c !! ch) ∨ ch ∈ ft_ch <$> fc_timers c;
  ck_sent : ∀ ch t, fc_sent c !! ch = Some t → ch < fc_made c;
}.

(** The timers that an advance to [now] fires. *)
Definition due (now : Time) (ts : list fakeTimer) : list fakeTimer := filter (λ t, (ft_at t <= now)%Z) ts.
Definition later (now : Time) (ts : list fakeTimer) : list fakeTimer :=
  filter (λ t, ¬ (ft_at t <= now)%Z) ts.

Lemma advance_timers now ts sent remaining :
  let st := foldl (advance_timer now) (remaining, sent) ts in
  st.1 = remaining ++ later now ts ∧
  ∀ ch, st.2 !! ch = if decide (ch ∈ ft_ch <$> due now ts) then Some now else sent !! ch.
Proof.
  revert sent remaining. unfold due, later. induction ts as [|t ts IH]; intros sent remaining.
  { simpl. by rewrite app_nil_r. }
  cbn [foldl advance_timer]. rewrite !filter_cons. destruct (Z.leb_spec (ft_at t) now).
  - rewrite decide_False, decide_True by lia. destruct (IH (<[ft_ch t := now]> sent) remaining) as [-> Hs].
    split; [done|]. intros ch. rewrite Hs, fmap_cons, lookup_insert.
    repeat case_decide; set_solver.
  - rewrite decide_True, decide_False by lia. destruct (IH sent (remaining ++ [t])) as [-> Hs].
    by rewrite <-app_assoc.
Qed.

Lemma Advance_ok d c : clock_ok c → clock_ok (Advance d c).
Proof.
  intros [Hp Hd Hm Hs]. unfold Advance.
  destruct (advance_timers (TimeAdd (fc_now c) d) (fc_timers c) (fc_sent c) []) as [Hr Hc].
  destruct (foldl _ _ _) as [remaining sent]. simpl in Hr, Hc. subst remaining.
  constructor; simpl.
  - intros t [Hn Ht]%list_elem_of_filter. destruct (Hp t Ht) as (_ & ? & Hnone).
    split; [lia|]. split; [done|]. rewrite Hc, decide_False; [done|].
    intros (t' & Heq & [Hn' Ht']%list_elem_of_filter)%list_elem_of_fmap.
    assert (t = t') as ->; [|done]. by eapply NoDup_fmap_elem.
  - eapply sublist_NoDup; [exact Hd|]. apply fmap_sublist, sublist_filter.
  - intros ch Hch. rewrite Hc. case_decide as Hdue; [left; by eexists|].
    destruct (Hm ch Hch) as [?|(t & -> & Ht)%list_elem_of_fmap]; [by left|]. right.
    apply list_elem_of_fmap_2, list_elem_of_filter. split; [|done]. intros Hle. apply Hdue.
    by apply list_elem_of_fmap_2, list_elem_of_filter.
  - intros ch x. rewrite Hc. case_decide as Hdue; [|apply Hs].
    apply list_elem_of_fmap in Hdue as (t & -> & [_ Ht]%list_elem_of_filter). intros _. by apply Hp.
Qed.
Lemma After_ok d c : clock_ok c → clock_ok (After d c).1.
Proof.
  intros [Hp Hd Hm Hs]. unfold After. destruct (Z.leb_spec d 0); constructor; simpl.
  - intros t Ht. destruct (Hp t Ht) as (? & ? & ?). split; [done|]. split; [lia|].
    rewrite lookup_insert_ne by lia. done.
  - done.
  - intros ch Hch. destruct (decide (ch = fc_made c)) as [->|Hne].
    + left. rewrite lookup_insert_eq. by eexists.
    + rewrite lookup_insert_ne by done. apply Hm. lia.
  - intros ch t. rewrite lookup_insert. case_decide; [lia|]. intros ?%Hs. lia.
  - intros t [Ht| ->%list_elem_of_singleton]%elem_of_app.
    + destruct (Hp t Ht) as (? & ? & ?). split_and!; [done|lia|done].
    + simpl. split; [unfold TimeAdd; lia|]. split; [lia|]. destruct (fc_sent c !! fc_made c) eqn:He; [|done].
      apply Hs in He. lia.
  - rewrite fmap_app. apply NoDup_app. split; [done|]. split; [|apply NoDup_singleton].
    intros ch (t & -> & Ht)%list_elem_of_fmap Heq%list_elem_of_singleton.
    destruct (Hp t Ht) as (_ & ? & _). simpl in *. lia.
  - intros ch Hch. rewrite fmap_app, elem_of_app. destruct (decide (ch = fc_made c)) as [->|Hne].
    + right. right. simpl. left.
    + destruct (Hm ch) as [?|?]; [lia|by left|]. right. by left.
  - intros ch t ?%Hs. lia.
Qed.
Lemma clock_exec_ok c o : clock_ok c → clock_ok (clock_exec c o).
Proof. destruct o; [apply After_ok|apply Advance_ok]. Qed.
Lemma NewFakeClock_ok now : clock_ok (NewFakeClock now).
Proof. constructor; simpl; [set_solver|constructor|lia|]. intros ch t. by rewrite lookup_empty. Qed.
Lemma clock_run_ok now ops : clock_ok (clock_run now ops).
Proof.
  unfold clock_run. pose proof (NewFakeClock_ok now) as Hc. revert Hc. generalize (NewFakeClock now) as c.
  induction ops as [|o ops IH]; intros c Hc; [done|]. by apply IH, clock_exec_ok.
Qed.

(** The times a clock shows, from [now] on. *)
Fixpoint clock_times (now : Time) (ops : list clock_op) : list Time :=
  now :: match ops with
         | [] => []
         | OpAfter _ :: ops => clock_times now ops
         | OpAdvance d :: ops => clock_times (TimeAdd now d) ops
         end.
Definition first_from (deadline : Time) (ts : list Time) : option Time :=
  head (filter (λ t, (deadline <= t)%Z) ts).

Lemma exec_now c o : fc_now (clock_exec c o) =
  match o with OpAfter _ => fc_now c | OpAdvance d => TimeAdd (fc_now c) d end.
Proof.
  destruct o as [d|d]; simpl.
  - unfold After. by destruct (d <=? 0)%Z.
  - unfold Advance. by destruct (foldl _ _ _).
Qed.
Lemma exec_sent c o ch t :
  clock_ok c → fc_sent c !! ch = Some t → fc_sent (clock_exec c o) !! ch = Some t.
Proof.
  intros Hok Hs. destruct o as [d|d]; simpl.
  - unfold After. destruct (d <=? 0)%Z; [|done]. simpl. rewrite lookup_insert_ne; [done|].
    pose proof (ck_sent _ Hok _ _ Hs). lia.
  - unfold Advance. destruct (advance_timers (TimeAdd (fc_now c) d) (fc_timers c) (fc_sent c) []) as [_ Hc].
    destruct (foldl _ _ _) as [remaining sent]. simpl in *. rewrite Hc, decide_False; [done|].
    intros (t' & -> & [_ Ht']%list_elem_of_filter)%list_elem_of_fmap.
    destruct (ck_pending _ Hok t' Ht') as (_ & _ & Hn). congruence.
Qed.
(** A pending timer after an operation: pending still, or sent the time. *)
Lemma exec_pending c o t :
  clock_ok c → t ∈ fc_timers c →
  let c' := clock_exec c o in
  if (ft_at t <=? fc_now c')%Z then fc_sent c' !! ft_ch t = Some (fc_now c') else t ∈ fc_timers c'.
Proof.
  intros Hok Ht. cbv zeta. rewrite exec_now. destruct o as [d|d]; simpl.
  - destruct (ck_pending _ Hok t Ht) as (Hlt & _). destruct (Z.leb_spec (ft_at t) (fc_now c)); [lia|].
    unfold After. destruct (d <=? 0)%Z; [done|]. simpl. apply elem_of_app. by left.
  - unfold Advance. destruct (advance_timers (TimeAdd (fc_now c) d) (fc_timers c) (fc_sent c) []) as [Hr Hc].
    destruct (foldl _ _ _) as [remaining sent]. simpl in *. subst remaining.
    destruct (Z.leb_spec (ft_at t) (TimeAdd (fc_now c) d)).
    + rewrite Hc, decide_True; [done|]. by apply list_elem_of_fmap_2, list_elem_of_filter.
    + apply list_elem_of_filter. split; [lia|done].
Qed.
Lemma run_sent ops c ch t :
  clock_ok c → fc_sent c !! ch = Some t → fc_sent (foldl clock_exec c ops) !! ch = Some t.
Proof.
  revert c. induction ops as [|o ops IH]; intros c Hok Hs; [done|].
  by apply IH; [apply clock_exec_ok|apply exec_sent].
Qed.
Lemma first_from_now deadline now ops :
  (deadline <= now)%Z → first_from deadline (clock_times now ops) = Some now.
Proof. intros Hle. unfold first_from. by destruct ops; simpl; rewrite filter_cons, decide_True. Qed.
Lemma run_pending ops c t :
  clock_ok c → t ∈ fc_timers c →
  fc_sent (foldl clock_exec c ops) !! ft_ch t = first_from (ft_at t) (clock_times (fc_now c) ops).
Proof.
  revert c. induction ops as [|o ops IH]; intros c Hok Ht;
    destruct (ck_pending _ Hok t Ht) as (Hlt & _ & Hnone); unfold first_from; simpl;
    rewrite filter_cons, decide_False by lia; [done|].
  assert (fc_sent (foldl clock_exec (clock_exec c o) ops) !! ft_ch t =
    first_from (ft_at t) (clock_times (fc_now (clock_exec c o)) ops)) as ->; [|by rewrite exec_now; destruct o].
  pose proof (exec_pending c o t Hok Ht) as Hp. cbv zeta in Hp.
  destruct (Z.leb_spec (ft_at t) (fc_now (clock_exec c o))).
  - rewrite first_from_now by done. by apply run_sent; [apply clock_exec_ok|].
  - apply IH; [by apply clock_exec_ok|done].
Qed.

(** A channel made at any point of a clock's use is sent exactly one time: the first the
    clock shows, from then on, at or after the deadline; none while it shows no such. *)
Theorem timer_fires_when_due now before d ops :
  let c := clock_run now before in
  let '(c1, ch) := After d c in
  clock_ok c ∧ fc_sent c !! ch = None ∧
  fc_sent (foldl clock_exec c1 ops) !! ch =
    first_from (TimeAdd (Now c) d) (clock_times (Now c) ops).
Proof.
  cbv zeta. pose proof (clock_run_ok now before) as Hok. set (c := clock_run now before) in *. clearbody c.
  pose proof (After_ok d c Hok) as Hok1. destruct (After d c) as [c1 ch] eqn:Ha. simpl in Hok1.
  assert (fc_sent c !! ch = None) as Hnone.
  { assert (ch = fc_made c) as -> by (by injection Ha as _ <-).
    destruct (fc_sent c !! _) eqn:He; [|done]. apply (ck_sent _ Hok) in He. lia. }
  split; [done|]. split; [done|]. unfold After in Ha. injection Ha as <- <-. unfold Now.
  destruct (Z.leb_spec d 0).
  - rewrite first_from_now by (unfold TimeAdd; lia). apply run_sent; [done|]. simpl. apply lookup_insert_eq.
  - refine (run_pending ops _ (mkTimer (TimeAdd (fc_now c) d) (fc_made c)) Hok1 _).
    simpl. apply elem_of_app. right. left.
Qed.

(** ** The fake [Invocation] *)

Section invocation.
Context {T : Type} (unmarshal : string → T → T * option string) (marshal : T → option string).

Record InvocationConfig := mkInvocationConfig {
  ic_pipelineID : PipelineID;
  ic_resourceID : ResourceID;
  ic_runID : RunID;
  ic_stepID : StepID;
  ic_attempt : Z;
  ic_phase : Phase;
  ic_input : option T;
  ic_state : gmap StepID T;
  ic_annotations : gmap string string;
  ic_awaited : option Wake;
  ic_failure : option Failure;
  ic_unwindFailures : gmap StepID Failure;
}.
Record FakeInvocation := mkFakeInvocation {
  fi_cfg : InvocationConfig;
  fi_states : gmap StepID string;
  fi_violation : option string;
}.
(** [NewInvocation]; [None] when a state does not marshal, where it panics. *)
Definition with_defaults (c : InvocationConfig) : InvocationConfig :=
  mkInvocationConfig (ic_pipelineID c) (ic_resourceID c) (ic_runID c) (ic_stepID c)
    (if (ic_attempt c =? 0)%Z then 1%Z else ic_attempt c)
    (match ic_phase c with PhaseZero => PhaseForward | p => p end)
    (ic_input c) (ic_state c) (ic_annotations c) (ic_awaited c) (ic_failure c) (ic_unwindFailures c).
Definition NewInvocation (c : InvocationConfig) : option FakeInvocation :=
  if bool_decide (map_Forall (λ _ m, is_Some (marshal m)) (ic_state c))
  then Some (mkFakeInvocation (with_defaults c) (omap marshal (ic_state c)) None)
  else None.

Definition fake_InputMessage (v : FakeInvocation) : option T * FakeInvocation := (ic_input (fi_cfg v), v).
Definition fake_Annotations (v : FakeInvocation) : option (gmap string string) :=
  if bool_decide (ic_annotations (fi_cfg v) = ∅) then None else Some (ic_annotations (fi_cfg v)).
Definition fake_Awaited (v : FakeInvocation) : option Wake := ic_awaited (fi_cfg v).
Definition fake_Failure (v : FakeInvocation) : option Failure := ic_failure (fi_cfg v).
Definition fake_UnwindFailure (v : FakeInvocation) (step : StepID) : option Failure :=
  ic_unwindFailures (fi_cfg v) !! step.
Definition fake_AwaitedRunID (v : FakeInvocation) : option RunID :=
  match ic_awaited (fi_cfg v) with
  | Some w => match Wake_Targets w with [id] => Some id | _ => None end
  | None => None
  end.
Definition fake_report (err : option string) (v : FakeInvocation) : FakeInvocation :=
  mkFakeInvocation (fi_cfg v) (fi_states v)
    (match fi_violation v with None => err | Some _ => fi_violation v end).
#[export] Instance fake_source : StateSource FakeInvocation := {|
  StateBytes v id := fi_states v !! id;
  ReportViolation := fake_report;
  takeViolation := fi_violation;
|}.
#[export] Instance fake_source_laws : StateSourceLaws FakeInvocation.
Proof. constructor; [done|]. intros v e. simpl. by destruct (fi_violation v). Qed.

(** The facts of an attempt, and of a reduction, as the engine presents the configured
    run: the input and the states on the wire, the rest as configured. *)
Definition same_attempt (c : InvocationConfig) (inv : Invocation) : Prop :=
  inv_input inv = (ic_input c ≫= marshal) ∧ inv_states inv = omap marshal (ic_state c) ∧
  inv_annotations inv = ic_annotations c ∧ inv_awaited inv = ic_awaited c ∧
  inv_failure inv = ic_failure c.
Definition same_reduction (c : InvocationConfig) (view : reduceView) : Prop :=
  v_input view = (ic_input c ≫= marshal) ∧ v_states view = omap marshal (ic_state c) ∧
  v_failure view = ic_failure c ∧ v_unwindFailures view = ic_unwindFailures c.
(** The input decodes to itself in the message the definition makes. *)
Definition input_decodes (c : InvocationConfig) (new : option T) : Prop :=
  match ic_input c, new with
  | None, None => True
  | Some m, Some x => ∃ b, marshal m = Some b ∧ unmarshal b x = (m, None)
  | _, _ => False
  end.

Definition fake_shows c (states : gmap StepID string) (v : FakeInvocation) : Prop :=
  fi_cfg v = c ∧ fi_states v = states.
Lemma fake_input_answers c new states :
  input_decodes c new → answers unmarshal new (ic_input c ≫= marshal) (fake_shows c states) fake_InputMessage.
Proof.
  intros Hd v [Hc Hs]. unfold fake_InputMessage, read_input, input_error. rewrite Hc. simpl.
  unfold input_decodes in Hd. destruct (ic_input c) as [m|], new as [x|]; try done; simpl.
  - destruct Hd as (b & -> & Hu). simpl. rewrite Hu. split; [done|]. by apply reports_none.
  - split; [done|]. by apply reports_none.
Qed.
Lemma fake_shows_states c states v id :
  fake_shows c states v → StateBytes v id = states !! id.
Proof. by intros [_ <-]. Qed.
Lemma fake_shows_report c states (v : FakeInvocation) e :
  fake_shows c states v → fake_shows c states (ReportViolation e v).
Proof. done. Qed.
Lemma fake_reads {R} (p : prog R) c new f :
  NewInvocation c = Some f → input_decodes c new →
  let r := run_prog unmarshal fake_InputMessage p f in
  let s := spec_prog unmarshal (λ id, omap marshal (ic_state c) !! id) new (ic_input c ≫= marshal) p in
  fi_cfg f = with_defaults c ∧ r.1 = s.1 ∧ takeViolation r.2 = head s.2.
Proof.
  unfold NewInvocation. case_bool_decide; [|done]. intros [= <-] Hd. split; [done|].
  set (states := omap marshal (ic_state c)).
  destruct (run_prog_spec unmarshal (λ id, states !! id) new (ic_input c ≫= marshal)
    (fake_shows (with_defaults c) states) (λ v id, fake_shows_states (with_defaults c) states v id)
    (fake_shows_report (with_defaults c) states) fake_InputMessage p
    (mkFakeInvocation (with_defaults c) states None)
    (fake_input_answers (with_defaults c) new states Hd) (conj eq_refl eq_refl)) as (Hr & _ & Hv).
  by split.
Qed.

(** C38: A handler tried on the fake, and a reducer, reads what the engine would show it of the
    same run, and reports the same violation; so do the accessors. *)
Theorem fake_matches_engine c new f :
  NewInvocation c = Some f → input_decodes c new →
  (∀ inv, same_attempt c inv → let v := mkAttemptInvocation inv new None in
     fake_Annotations f = Annotations v ∧ fake_Awaited f = Awaited v ∧
     fake_AwaitedRunID f = AwaitedRunID v ∧ fake_Failure f = attempt_Failure v ∧
     ∀ (R : Type) (p : prog R),
       let r := run_prog unmarshal fake_InputMessage p f in
       let r' := run_prog unmarshal (InputMessage unmarshal) p v in
       r.1 = r'.1 ∧ takeViolation r.2 = takeViolation r'.2) ∧
  (∀ view, same_reduction c view → let v := mkReducerView view new None in
     fake_Failure f = reduce_Failure v ∧ (∀ id, fake_UnwindFailure f id = UnwindFailure v id) ∧
     ∀ (R : Type) (p : prog R),
       let r := run_prog unmarshal fake_InputMessage p f in
       let r' := run_prog unmarshal (reduce_InputMessage unmarshal) p v in
       r.1 = r'.1 ∧ takeViolation r.2 = takeViolation r'.2).
Proof.
  intros Hf Hd. destruct (fake_reads (Done tt) c new f Hf Hd) as [Hc _].
  unfold fake_Annotations, fake_Awaited, fake_AwaitedRunID, fake_Failure, fake_UnwindFailure. rewrite Hc. cbn [with_defaults ic_annotations ic_awaited ic_failure ic_unwindFailures]. split.
  - intros inv (Hi & Hs & Ha & Hw & Hfl). unfold Annotations, Awaited, AwaitedRunID, attempt_Failure. cbn [av_inv].
    rewrite Ha, Hw, Hfl. split_and!; try done. intros R p.
    destruct (fake_reads p c new f Hf Hd) as (_ & Hr & Hv). cbv zeta in *. rewrite Hr, Hv.
    destruct (attempt_reads unmarshal p inv new) as (Hr' & Hv' & _).
    cbv zeta in *. by rewrite Hr', Hv', Hi, Hs.
  - intros view (Hi & Hs & Hfl & Hu). unfold reduce_Failure, UnwindFailure. cbn [rv_view].
    rewrite Hfl, Hu. split_and!; try done. intros R p.
    destruct (fake_reads p c new f Hf Hd) as (_ & Hr & Hv). cbv zeta in *. rewrite Hr, Hv.
    destruct (reducer_reads unmarshal p view new) as (Hr' & Hv' & _).
    cbv zeta in *. by rewrite Hr', Hv', Hi, Hs.
Qed.
End invocation.

(** *** A fixture with a state of another schema *)

Definition ex_fixture : InvocationConfig (T:=string) :=
  mkInvocationConfig "p" "x" "r" "b" 0 PhaseZero (Some "in") {["a" := "!old"]} ∅ None None ∅.
Lemma fake_matches_engine_witness :
  ∃ f, NewInvocation Some ex_fixture = Some f ∧
    takeViolation (run_prog ex_unmarshal fake_InputMessage ex_reads f).2 =
      Some "cannot decode committed state of step a: bad wire".
Proof.
  destruct (NewInvocation Some ex_fixture) as [f|] eqn:Hf; [|vm_compute in Hf; discriminate Hf].
  exists f. split; [done|].
  set (inv := mkInvocation "p" "x" "r" "b" 1 PhaseForward (Some "in") {["a" := "!old"]} ∅ None None).
  destruct (fake_matches_engine ex_unmarshal Some ex_fixture (Some "") f Hf) as [Ha _].
  { exists "in". split; reflexivity. }
  destruct (Ha inv) as (_ & _ & _ & _ & Hr); [repeat split|].
  destruct (Hr _ ex_reads) as [_ ->]. vm_compute. reflexivity.
Defined.
