(* ===== verification/Tracing.v ===== *)
(** * Tracing: the spans of attempts and the trace a run carries
    (contrib/durableotel/durableotel.go, middleware.go, loghandler.go)

    OpenTelemetry is not part of the repository: contexts, span contexts, baggage,
    propagators and what [Start] puts into a context are parameters.  A span is what the
    middleware tells it: how it is started, and the calls on it. *)
From S2P Require Import Signals TokenPool RunPool JoinSet MemStore Binding.
From S2P Require Import Prelude Kernel Text Errors Ledger Driver Engine Sample Api Views.

(** A [propagation.TextMapPropagator]. *)
Record Propagator (Ctx : Type) := mkPropagator {
  Inject : Ctx → gmap string string → gmap string string;
  Extract : Ctx → gmap string string → Ctx;
  Fields : list string;
}.
Arguments mkPropagator {Ctx}. Arguments Inject {Ctx}. Arguments Extract {Ctx}. Arguments Fields {Ctx}.

Inductive attr_value := AString (s : string) | AInt (z : Z) | ABool (b : bool) | AStrings (l : list string).
#[export] Instance attr_value_eq_dec : EqDecision attr_value.
Proof. solve_decision. Defined.
Definition attribute : Type := string * attr_value.

Definition AttrPipeline : string := "durable.pipeline".
Definition AttrResource : string := "durable.resource".
Definition AttrRunID : string := "durable.run_id".
Definition AttrStep : string := "durable.step".
Definition AttrPhase : string := "durable.phase".
Definition AttrAttempt : string := "durable.attempt".
Definition AttrFailureKind : string := "durable.failure_kind".
Definition AttrReason : string := "durable.reason".
Definition AttrRunFailureStep : string := "durable.run_failure.step".
Definition AttrRunFailureKind : string := "durable.run_failure.kind".
Definition AttrRunFailureReason : string := "durable.run_failure.reason".
Definition AttrAwaitTargets : string := "durable.await_targets".
Definition AttrAwaitMode : string := "durable.await_mode".
Definition AttrPanicked : string := "durable.panicked".

Section otel.
Context {Ctx SpanContext : Type}.
Context (SpanContextFromContext : Ctx → SpanContext) (IsValid : SpanContext → bool).
Context (Members : Ctx → list (string * string)) (Member : Ctx → string → option string).
Context (TraceContext Baggage : Propagator Ctx).
Context (composite : Propagator Ctx → Propagator Ctx → Propagator Ctx).

(** ** Configuration; a provider is its number. *)

Record config := mkTraceConfig {
  tracerProvider : nat;
  meterProvider : nat;
  propagator : Propagator Ctx;
  spanAnnotations : list string;
  baggage : bool;
  spanBaggage : list string;
  spanBaggageAll : bool;
}.
Inductive Option :=
| WithTracerProvider (tp : option nat)
| WithMeterProvider (mp : option nat)
| WithPropagator (p : option (Propagator Ctx))
| WithBaggagePropagation
| WithSpanBaggage (keys : list string)
| WithSpanAnnotations (keys : list string).
Definition named (keys : list string) : list string := filter (λ k, k ≠ "") keys.
Definition set_trace_option (c : config) (o : Option) : config :=
  let '(mkTraceConfig tp mp p sa b sb sba) := c in
  match o with
  | WithTracerProvider (Some tp) => mkTraceConfig tp mp p sa b sb sba
  | WithMeterProvider (Some mp) => mkTraceConfig tp mp p sa b sb sba
  | WithPropagator (Some p) => mkTraceConfig tp mp p sa b sb sba
  | WithTracerProvider None | WithMeterProvider None | WithPropagator None => c
  | WithBaggagePropagation => mkTraceConfig tp mp p sa true sb sba
  | WithSpanBaggage [] => mkTraceConfig tp mp p sa b sb true
  | WithSpanBaggage keys => mkTraceConfig tp mp p sa b (sb ++ named keys) sba
  | WithSpanAnnotations keys => mkTraceConfig tp mp p (sa ++ named keys) b sb sba
  end.
Definition newConfig (globals : nat * nat) (opts : list Option) : config :=
  let '(mkTraceConfig tp mp p sa b sb sba) :=
    foldl set_trace_option (mkTraceConfig globals.1 globals.2 TraceContext [] false [] false) opts in
  mkTraceConfig tp mp (if b then composite p Baggage else p) sa b sb sba.

(** ** Into the run *)

Definition inject (ctx : Ctx) (cfg : config) : gmap string string := Inject (propagator cfg) ctx ∅.
Definition WithTraceContext (globals : nat * nat) (ctx : Ctx) (opts : list Option) : Api.ScheduleOption :=
  Api.WithAnnotations (inject ctx (newConfig globals opts)).
Definition Annotator (globals : nat * nat) (opts : list Option) : Ctx → gmap string string :=
  λ ctx, inject ctx (newConfig globals opts).

(** ** Spans; every one is of kind consumer. *)

Record span_start := mkSpanStart {
  ss_name : string;
  ss_newRoot : bool;
  ss_attrs : list attribute;
  ss_links : list SpanContext;
}.
Inductive span_call :=
| SetAttributes (attrs : list attribute)
| RecordError (msg : string) (stack : bool)
| SetStatusError (msg : string)
| End_.
Record span := mkSpan { sp_tracer : nat; sp_start : span_start; sp_calls : list span_call }.
Context (Start : Ctx → span_start → Ctx).
(** Whether the value of a panic is an error; its text is in the outcome. *)
Context (is_error : string → bool).

(** The attributes at the start of a span. *)
Definition attempt_attrs (inv : Invocation) : list attribute :=
  [(AttrPipeline, AString (inv_pipelineID inv)); (AttrResource, AString (inv_resourceID inv));
   (AttrRunID, AString (inv_runID inv)); (AttrStep, AString (inv_stepID inv));
   (AttrPhase, AString (Phase_String (inv_phase inv)));
   (AttrAttempt, AInt (wrap_i64 (inv_attempt inv)))].
Definition failure_attrs (f : option Failure) : list attribute :=
  match f with
  | None => []
  | Some f =>
    [(AttrRunFailureStep, AString (Failure_StepID f));
     (AttrRunFailureKind, AString (FailureKind_String (Failure_Kind f)))] ++
    (if bool_decide (Failure_Reason f = "") then [] else [(AttrRunFailureReason, AString (Failure_Reason f))])
  end.
Definition annotation_attrs (keys : list string) (annotations : gmap string string) : list attribute :=
  omap (λ k, (λ v, (k, AString v)) <$> annotations !! k) keys.
Definition baggage_attrs (cfg : config) (ctx : Ctx) : list attribute :=
  if spanBaggageAll cfg then (λ m, (m.1, AString m.2)) <$> Members ctx
  else omap (λ k, (λ v, (k, AString v)) <$> Member ctx k) (spanBaggage cfg).

(** The calls on the span of an attempt that ended with [o]. *)
Definition error_calls (err : option goerr) : list span_call :=
  match err with
  | None => []
  | Some e =>
    match AwaitRequest err with
    | Some park =>
      [SetAttributes [(AttrAwaitTargets, AStrings (Await_Targets park));
                      (AttrAwaitMode, AString (AwaitMode_String (Await_Mode park)))]]
    | None =>
      [RecordError (Error e) false; SetStatusError (Error e)] ++
      match FailureInfo err with
      | (kind, reason, true) =>
        [SetAttributes [(AttrFailureKind, AString (FailureKind_String kind))]] ++
        (if bool_decide (reason = "") then [] else [SetAttributes [(AttrReason, AString reason)]])
      | (_, _, false) => []
      end
    end
  end.
Definition outcome_calls (o : outcome) : list span_call :=
  match o_panic o with
  | Some p => [SetAttributes [(AttrPanicked, ABool true)]; RecordError (if is_error p then p else "handler panic: " +:+ p) true;
                SetStatusError "handler panic"]
  | None => error_calls (o_err o)
  end ++ [End_].

(** [Middleware] around a handler: the state it acts on, the spans ended, the outcome. *)
Definition handler (A T : Type) : Type := Ctx → attemptInvocation (T:=T) → A → A * outcome.
Definition Middleware {A T} (globals : nat * nat) (opts : list Option) (next : handler A T)
    : handler (A * list span) T :=
  λ ctx inv '(a, spans),
    let cfg := newConfig globals opts in
    let annotations := default ∅ (Views.Annotations inv) in
    let ctx := Extract (propagator cfg) ctx annotations in
    let origin := SpanContextFromContext ctx in
    let start := mkSpanStart (inv_stepID (av_inv inv) +:+ " " +:+ Phase_String (inv_phase (av_inv inv))) true
      (attempt_attrs (av_inv inv) ++ failure_attrs (attempt_Failure inv) ++
       annotation_attrs (spanAnnotations cfg) annotations ++ baggage_attrs cfg ctx)
      (if IsValid origin then [origin] else []) in
    let '(a, o) := next (Start ctx start) inv a in
    ((a, spans ++ [mkSpan (tracerProvider cfg) start (outcome_calls o)]), o).

(** [logHandler.Handle]: the attributes it adds to a record. *)
Definition Handle (describe : SpanContext → list (string * string)) (ctx : Ctx)
    (attrs : list (string * string)) : list (string * string) :=
  let sc := SpanContextFromContext ctx in
  if IsValid sc then attrs ++ describe sc else attrs.

(** ** The trace a run carries *)

(** What the documentation of a propagator says: from a carrier that has what it wrote of a
    valid span context in its fields it extracts that context, marked remote by [remote],
    whatever else the carrier has. *)
Definition propagates (p : Propagator Ctx) (remote : SpanContext → SpanContext) : Prop :=
  ∀ base ctx m, IsValid (SpanContextFromContext ctx) = true →
    (∀ k, k ∈ Fields p → m !! k = Inject p ctx ∅ !! k) →
    SpanContextFromContext (Extract p base m) = remote (SpanContextFromContext ctx) ∧
    IsValid (remote (SpanContextFromContext ctx)) = true.

(** Options and annotators that leave a field to the propagator. *)
Definition leaves (k : string) (o : Api.ScheduleOption) : Prop :=
  match o with Api.WithAnnotations m => m !! k = None | _ => True end.

Lemma set_schedule_leaves k o s : leaves k o → SO_Annotations (set_schedule s o) !! k = SO_Annotations s !! k.
Proof. destruct o as [m| |]; simpl; [|done|done]. intros Hk. by rewrite lookup_union_r. Qed.
Lemma schedule_leaves k l s :
  Forall (leaves k) l → SO_Annotations (foldl set_schedule s l) !! k = SO_Annotations s !! k.
Proof.
  revert s. induction l as [|o l IH]; intros s Hl; [done|]. apply Forall_cons in Hl as [Ho Hl].
  simpl. rewrite IH by done. by apply set_schedule_leaves.
Qed.
Lemma schedule_carries k m before after opts :
  Forall (λ a, a !! k = None) (before ++ after) → Forall (leaves k) opts →
  SO_Annotations (schedule_options (before ++ m :: after) opts) !! k = (m : gmap string string) !! k.
Proof.
  intros [Hb Ha]%Forall_app Ho. unfold schedule_options.
  rewrite map_app, !foldl_app. cbn [map foldl]. rewrite schedule_leaves by done.
  rewrite schedule_leaves by (by apply Forall_fmap).
  cbn [set_schedule SO_Annotations]. rewrite lookup_union, schedule_leaves by (by apply Forall_fmap).
  simpl. rewrite lookup_empty. by destruct (m !! k).
Qed.

Lemma default_annotations {T} (v : attemptInvocation (T:=T)) :
  default ∅ (Views.Annotations v) = inv_annotations (av_inv v).
Proof. unfold Views.Annotations. by case_bool_decide as Hm. Qed.
Lemma error_status err :
  (∃ msg, SetStatusError msg ∈ error_calls err) ↔ is_Some err ∧ AwaitRequest err = None.
Proof.
  destruct err as [e|]; cbn [error_calls].
  2:{ split; [by intros (? & ?%elem_of_nil)|by intros [[? [=]] _]]. }
  destruct (AwaitRequest (Some e)) as [park|].
  - split; [by intros (? & [=]%list_elem_of_singleton)|by intros [_ [=]]].
  - split; [intros _; split; [by eexists|done]|]. intros _. exists (Error e).
    apply elem_of_app. left. right. left.
Qed.
Lemma outcome_status o :
  (∃ msg, SetStatusError msg ∈ outcome_calls o) ↔
    is_Some (o_panic o) ∨ (is_Some (o_err o) ∧ AwaitRequest (o_err o) = None).
Proof.
  unfold outcome_calls. setoid_rewrite elem_of_app. setoid_rewrite list_elem_of_singleton.
  destruct (o_panic o) as [p|].
  - split; [intros _; left; by eexists|]. intros _. exists "handler panic". left. do 2 right. left.
  - rewrite <-error_status. split.
    + intros (msg & [?|[=]]). right. by exists msg.
    + intros [[? [=]]|(msg & ?)]. exists msg. by left.
Qed.
Lemma outcome_ended o : last (outcome_calls o) = Some End_.
Proof. unfold outcome_calls. by rewrite last_snoc. Qed.

(** C39: Whatever an engine's other annotators and the call's options add beside it, a run
    scheduled under a valid span context carries it to each of its attempts, on every
    record of the run: the attempt's span is the root of a trace of its own and has the
    one link to the scheduling span.  It is ended, with an error status exactly when the
    handler panicked or failed otherwise than by a park, and the handler's result passes
    through. *)
Theorem attempts_link_to_scheduler {S H A T} `{Store S} (cfg : Engine.Config (S:=S) (H:=H))
    globals aopts mopts remote d resource input before after opts now sctx rec0 rec :
  let p := propagator (newConfig globals mopts) in
  propagates p remote → propagator (newConfig globals aopts) = p →
  IsValid (SpanContextFromContext sctx) = true →
  Forall (λ a, ∀ k, k ∈ Fields p → (a : gmap string string) !! k = None) (before ++ after) →
  Forall (λ o, ∀ k, k ∈ Fields p → leaves k o) opts →
  schedule_record cfg d resource input (before ++ Annotator globals aopts sctx :: after) opts now = Ok rec0 →
  Run_Annotations rec = Run_Annotations rec0 →
  ∀ (next : handler A T) ctx stepID attempt phase failure new violation a spans,
    let v := mkAttemptInvocation (invocation rec stepID attempt phase failure) new violation in
    let '((a', spans'), o) := Middleware globals mopts next ctx v (a, spans) in
    ∃ sp ctx', spans' = spans ++ [sp] ∧ ss_newRoot (sp_start sp) = true ∧
      ss_links (sp_start sp) = [remote (SpanContextFromContext sctx)] ∧
      (a', o) = next ctx' v a ∧ last (sp_calls sp) = Some End_ ∧
      ((∃ msg, SetStatusError msg ∈ sp_calls sp) ↔
         is_Some (o_panic o) ∨ (is_Some (o_err o) ∧ AwaitRequest (o_err o) = None)).
Proof.
  intros p Hx Hp Hv Hothers Hopts Hrec Hkeep next ctx stepID attempt phase failure new violation a spans.
  cbv zeta. set (v := mkAttemptInvocation _ new violation).
  assert (∀ k, k ∈ Fields p → inv_annotations (av_inv v) !! k = Inject p sctx ∅ !! k) as Hk.
  { intros k Hk. cbn. rewrite Hkeep. revert Hrec. unfold schedule_record.
    destruct (negb _); [done|]. destruct (invalidID _); [done|]. destruct (check_input _ _) as [b|]; [|done].
    destruct (existsb _ _); [done|]. intros [= <-]. cbn [new_record Run_Annotations].
    unfold Annotator, inject. rewrite Hp. apply schedule_carries.
    - eapply Forall_impl; [exact Hothers|]. intros m Hm. by apply Hm.
    - eapply Forall_impl; [exact Hopts|]. intros o Ho. by apply Ho. }
  destruct (Hx ctx sctx (inv_annotations (av_inv v)) Hv Hk) as [Horigin Hvalid].
  unfold Middleware. rewrite default_annotations. fold p. rewrite Horigin, Hvalid.
  destruct (next _ v a) as [a' o] eqn:Hn. eexists _, _. split; [done|]. split; [done|]. split; [done|].
  split; [by rewrite Hn|]. split; [apply outcome_ended|apply outcome_status].
Qed.
End otel.

(** *** A propagator of one field *)

(** A context is the name of its trace. *)
Definition ex_propagator : Propagator string :=
  mkPropagator (λ ctx m, if bool_decide (ctx = "") then m else <["traceparent" := ctx]> m)
    (λ base m, default base (m !! "traceparent")) ["traceparent"].
Definition ex_valid (sc : string) : bool := negb (bool_decide (sc = "")).
Definition ex_middleware (next : handler (Ctx:=string) nat nat) :=
  Middleware id ex_valid (λ _, []) (λ _ _, None) ex_propagator ex_propagator (λ p _, p)
    (λ _ _, "attempt") (λ _, false) (0, 0) [WithSpanAnnotations ["tenant"; ""]] next.
Definition ex_handler : handler (Ctx:=string) nat nat :=
  λ _ _ n, (n + 1, mkOutcome None MsgNil (Some (other_error "down")) None).

Lemma ex_propagates : propagates id ex_valid ex_propagator id.
Proof.
  intros base ctx m Hv Hm. specialize (Hm "traceparent" ltac:(left)). split; [|exact Hv].
  unfold ex_valid, id in Hv. apply negb_true_iff, bool_decide_eq_false in Hv.
  cbn in Hm. rewrite bool_decide_eq_false_2, lookup_insert_eq in Hm by done.
  unfold id. cbn. by rewrite Hm.
Qed.

Definition ex_cfg := sample (sample_config "p" "" (Succeeds "") (Succeeds "")).
Definition ex_record : result ScheduleError RunRecord :=
  match definition ex_cfg "p" with
  | Some d => schedule_record ex_cfg d "x" None
                ([{["tenant" := "t1"]}] ++ [Annotator ex_propagator ex_propagator (λ p _, p) (0, 0) [] "request"])
                [] 1000
  | None => Err NotStarted
  end.

Lemma attempts_link_to_scheduler_witness :
  ∃ rec sp, ex_record = Ok rec ∧
    ex_middleware ex_handler "engine"
      (mkAttemptInvocation (invocation rec "a" 1 PhaseForward None) None None) (0, []) =
      ((1, [sp]), mkOutcome None MsgNil (Some (other_error "down")) None) ∧
    ss_links (sp_start sp) = ["request"] ∧ last (sp_calls sp) = Some End_.
Proof.
  destruct (definition ex_cfg "p") as [d|] eqn:Hd; [|vm_compute in Hd; discriminate Hd].
  destruct ex_record as [rec|] eqn:Hr; [|vm_compute in Hr; discriminate Hr].
  pose proof Hr as Hr'. unfold ex_record in Hr'. rewrite Hd in Hr'.
  pose proof (attempts_link_to_scheduler (A:=nat) (T:=nat) id ex_valid (λ _, []) (λ _ _, None) ex_propagator ex_propagator
    (λ p _, p) (λ _ _, "attempt") (λ _, false) ex_cfg (0, 0) [] [WithSpanAnnotations ["tenant"; ""]] id d "x"
    None [{["tenant" := "t1"]}] [] [] 1000 "request" rec rec ex_propagates eq_refl eq_refl) as Hl.
  specialize (Hl ltac:(repeat constructor; intros k ->%list_elem_of_singleton; reflexivity)
    ltac:(constructor) Hr' eq_refl ex_handler "engine" "a" 1%Z PhaseForward None (None : option nat) None 0 []).
  cbv zeta in Hl. unfold ex_middleware. exists rec.
  destruct (Middleware _ _ _ _ _ _ _ _ _ _ _ _ _ _ _) as [[a' spans'] o].
  destruct Hl as (sp & ctx' & -> & _ & Hlinks & Hn & Hlast & _). injection Hn as -> ->.
  exists sp. split; [reflexivity|]. split; [reflexivity|]. exact (conj Hlinks Hlast).
Defined.
