(* ===== verification/Metrics.v ===== *)
(** * Metrics: what the OpenTelemetry observer records (contrib/durableotel/observer.go)

    A meter is the list of the measurements made of it, in order: the instrument, the
    attributes, and a count or a duration.  Creating an instrument may fail, which is a
    parameter; the bounds of the histograms are left out. *)
From S2P Require Import Signals TokenPool RunPool JoinSet MemStore Binding.
From S2P Require Import Prelude Kernel Driver Engine Observe Views Tracing.

Definition AttrResult : string := "durable.result".
Definition AttrOutcome : string := "durable.outcome".
Definition AttrClass : string := "durable.class".
Definition AttrClassScope : string := "durable.class.scope".
Definition AttrStoreOp : string := "durable.store.op".
Definition AttrStoreWrite : string := "durable.store.write".
Definition AttrError : string := "durable.error".

(** A counter's increment, a duration in a histogram ([Duration.Seconds]). *)
Inductive value := Count (n : Z) | Seconds (d : Duration).
Record measurement := mkMeasurement { ms_name : string; ms_value : value; ms_attrs : list attribute }.
Abbreviation meter := (list measurement).

(** [counter] and [histogram] of [NewObserver], by name. *)
Definition instruments : list string :=
  ["durable.runs.scheduled"; "durable.attempts"; "durable.attempt.duration"; "durable.runs.unwinding";
   "durable.runs.terminal"; "durable.run.duration"; "durable.runs.invalidated"; "durable.await.duration";
   "durable.class.wait.duration"; "durable.runs.reaped"; "durable.store.op.duration"].

(** The measurements of each event. *)
Definition on_scheduled (ev : RunEvent) : meter :=
  [mkMeasurement "durable.runs.scheduled" (Count 1) [(AttrPipeline, AString (RE_PipelineID ev))]].
Definition on_attempt (ev : AttemptEvent) : meter :=
  let set := [(AttrPipeline, AString (AE_PipelineID ev)); (AttrStep, AString (AE_StepID ev));
              (AttrPhase, AString (Phase_String (AE_Phase ev)));
              (AttrResult, AString (AttemptResult_String (AE_Result ev)));
              (AttrPanicked, ABool (AE_Panicked ev))] in
  [mkMeasurement "durable.attempts" (Count 1) set;
   mkMeasurement "durable.attempt.duration" (Seconds (AE_Duration ev)) set].
Definition on_unwinding (ev : RunFailureEvent) : meter :=
  [mkMeasurement "durable.runs.unwinding" (Count 1)
     [(AttrPipeline, AString (RF_PipelineID ev)); (AttrFailureKind, AString (FailureKind_String (RF_Kind ev)));
      (AttrReason, AString (RF_Reason ev))]].
Definition on_terminal (ev : RunTerminalEvent) : meter :=
  let set := [(AttrPipeline, AString (RT_PipelineID ev)); (AttrOutcome, AString (Outcome_String (RT_Outcome ev)))] in
  [mkMeasurement "durable.runs.terminal" (Count 1)
     (set ++ if bool_decide (RT_Outcome ev = OutcomeFailure)
             then [(AttrFailureKind, AString (FailureKind_String (RT_Kind ev))); (AttrReason, AString (RT_Reason ev))]
             else []);
   mkMeasurement "durable.run.duration" (Seconds (RT_Duration ev)) set].
Definition on_invalid (ev : RunFailureEvent) : meter :=
  [mkMeasurement "durable.runs.invalidated" (Count 1)
     [(AttrPipeline, AString (RF_PipelineID ev)); (AttrReason, AString (RF_Reason ev))]].
Definition on_woken (ev : WakeEvent) : meter :=
  [mkMeasurement "durable.await.duration" (Seconds (WE_Duration ev)) [(AttrPipeline, AString (WE_PipelineID ev))]].
Definition on_class_wait (ev : ClassWaitEvent) : meter :=
  [mkMeasurement "durable.class.wait.duration" (Seconds (CW_Duration ev))
     [(AttrClass, AString (CW_Class ev)); (AttrClassScope, AString (ClassScope_String (CW_Scope ev)))]].
Definition on_reaped (count : Z) : meter := [mkMeasurement "durable.runs.reaped" (Count count) []].
Definition on_store_op (ev : StoreOpEvent) : meter :=
  [mkMeasurement "durable.store.op.duration" (Seconds (SO_Duration ev))
     [(AttrStoreOp, AString (SO_Op ev)); (AttrStoreWrite, ABool (SO_Write ev));
      (AttrError, ABool (bool_decide (is_Some (SO_Err ev))))]].

(** [NewObserver]; [create] is the error of making an instrument, if any. *)
Definition record {E} (on : E → meter) : callback (O:=meter) E := λ ev m, (m ++ on ev, false).
Definition NewObserver (create : string → option string) : result (list string) (Observer (O:=meter)) :=
  match omap create instruments with
  | [] => Ok (mkObserver (Some (record on_scheduled)) (Some (record on_attempt)) (Some (record on_unwinding))
                (Some (record on_terminal)) (Some (record on_invalid)) (Some (record on_woken))
                (Some (record on_class_wait)) (Some (record on_reaped)) (Some (record on_store_op)))
  | errs => Err errs
  end.

(** What the callback of [RegisterStats] observes, the classes visited in the given orders. *)
Definition observe_stats (classes : list (string * ClassStats)) (runClasses : list (string * RunClassStats))
    (st : EngineStats) : list (string * Z * list attribute) :=
  [("durable.engine.runs.active", ES_ActiveRuns st, []);
   ("durable.engine.runs.awaiting", ES_AwaitingRuns st, []);
   ("durable.engine.runs.throttled", ES_ThrottledRuns st, []);
   ("durable.engine.runs.delayed", ES_DelayedRuns st, []);
   ("durable.engine.runs.invalid", ES_InvalidRuns st, []);
   ("durable.engine.runs.queued", ES_QueuedRuns st, [])] ++
  (classes ≫= λ e,
     let set := [(AttrClass, AString e.1)] in
     [("durable.engine.class.capacity", CS_Capacity e.2, set);
      ("durable.engine.class.in_use", CS_InUse e.2, set);
      ("durable.engine.class.waiting", CS_Waiting e.2, set)]) ++
  (runClasses ≫= λ e,
     let set := [(AttrClass, AString e.1)] in
     [("durable.engine.run_class.capacity", RS_Capacity e.2, set);
      ("durable.engine.run_class.in_use", RS_InUse e.2, set);
      ("durable.engine.run_class.waiting", RS_Waiting e.2, set);
      ("durable.engine.run_class.queued", RS_Queued e.2, set)]).

(** [gauge] of [RegisterStats], by name; the meter takes the callback with the gauges. *)
Definition gauges : list string :=
  ["durable.engine.runs.active"; "durable.engine.runs.awaiting"; "durable.engine.runs.throttled";
   "durable.engine.runs.delayed"; "durable.engine.runs.invalid"; "durable.engine.class.capacity";
   "durable.engine.class.in_use"; "durable.engine.class.waiting"; "durable.engine.runs.queued";
   "durable.engine.run_class.capacity"; "durable.engine.run_class.in_use";
   "durable.engine.run_class.waiting"; "durable.engine.run_class.queued"].
Definition stats_callback : Type :=
  list (string * ClassStats) → list (string * RunClassStats) → EngineStats → list (string * Z * list attribute).
Definition RegisterStats {R} (create : string → option string)
    (RegisterCallback : stats_callback → list string → result (list string) R) : result (list string) R :=
  match omap create gauges with
  | [] => RegisterCallback observe_stats gauges
  | errs => Err errs
  end.
(** The callback observes only gauges it is registered with. *)
Lemma observes_registered classes runClasses st x :
  x ∈ observe_stats classes runClasses st → x.1.1 ∈ gauges.
Proof.
  unfold observe_stats. rewrite !elem_of_app, !list_elem_of_bind, !elem_of_cons, elem_of_nil.
  intros [Hx|[(e & Hx & _)|(e & Hx & _)]]; rewrite ?elem_of_cons, ?elem_of_nil in Hx;
    destruct_or?; subst; try done; set_solver.
Qed.

(** ** What reaches a meter *)

(** An event as the engine emits it, to a list of observers. *)
Inductive emission :=
| Scheduled (ev : RunEvent)
| AttemptEnded (ev : AttemptEvent)
| Unwinding (ev : RunFailureEvent)
| Terminated (rec : RunRecord)
| Invalidated (ev : RunFailureEvent)
| Woken (ev : WakeEvent)
| Granted (ev : ClassWaitEvent)
| Reaped (count : Z)
| StoreCalled (ev : StoreOpEvent).
Definition deliver (os : list (Observer (O:=meter))) (t : Telemetry (O:=meter)) (e : emission)
    : Telemetry (O:=meter) :=
  match e with
  | Scheduled ev => emitRunScheduled os ev t
  | AttemptEnded ev => emitAttemptDone os ev t
  | Unwinding ev => emitRunUnwinding os ev t
  | Terminated rec => default t (emitRunTerminal os rec t)
  | Invalidated ev => emitRunInvalid os ev t
  | Woken ev => emitWaiterWoken os ev t
  | Granted ev => emitClassWait os ev t
  | Reaped n => emitRunsReaped os n t
  | StoreCalled ev => emitStoreOp os ev t
  end.
Definition measured (e : emission) : meter :=
  match e with
  | Scheduled ev => on_scheduled ev
  | AttemptEnded ev => on_attempt ev
  | Unwinding ev => on_unwinding ev
  | Terminated rec => match Run_Outcome rec with Some oc => on_terminal (terminal_event rec oc) | None => [] end
  | Invalidated ev => on_invalid ev
  | Woken ev => on_woken ev
  | Granted ev => on_class_wait ev
  | Reaped n => on_reaped n
  | StoreCalled ev => on_store_op ev
  end.

(** The total of a counter over the measurements whose attributes satisfy [P]. *)
Definition total (name : string) (P : list attribute → bool) (m : meter) : Z :=
  foldr (λ x n, match ms_value x with
                | Count k => if bool_decide (ms_name x = name) && P (ms_attrs x) then (k + n)%Z else n
                | Seconds _ => n
                end) 0%Z m.

Lemma total_app name P m m' : total name P (m ++ m') = (total name P m + total name P m')%Z.
Proof.
  induction m as [|x m IH]; [done|]. simpl. rewrite IH.
  destruct (ms_value x); [|done]. destruct (_ && _); lia.
Qed.
Lemma delivered create o evs t :
  NewObserver create = Ok o →
  foldl (deliver [o]) t evs = mkTelemetry (t_state t ++ (evs ≫= measured)) (t_panics t).
Proof.
  unfold NewObserver. destruct (omap create instruments); [|done]. intros [= <-].
  revert t. induction evs as [|e evs IH]; intros t.
  { simpl. rewrite app_nil_r. by destruct t. }
  cbn [foldl]. rewrite IH, bind_cons, app_assoc.
  destruct e; cbn; try done.
  unfold emitRunTerminal. destruct (Run_Outcome rec); cbn; [done|]. by rewrite app_nil_r.
Qed.

(** Whether an event is the end of a run of [p] with outcome [oc]. *)
Definition ends (p : PipelineID) (oc : Outcome) (e : emission) : bool :=
  match e with
  | Terminated rec => bool_decide (Run_PipelineID rec = p ∧ Run_Outcome rec = Some oc)
  | _ => false
  end.
Definition reaped (e : emission) : Z := match e with Reaped n => n | _ => 0%Z end.
Definition has (a : attribute) (attrs : list attribute) : bool := bool_decide (a ∈ attrs).
(** The attributes of a pipeline's runs that ended with an outcome. *)
Definition ended (p : PipelineID) (oc : Outcome) (attrs : list attribute) : bool :=
  has (AttrPipeline, AString p) attrs && has (AttrOutcome, AString (Outcome_String oc)) attrs.

Lemma total_events name P f evs :
  (∀ e, total name P (measured e) = f e) →
  total name P (evs ≫= measured) = foldr (λ e n, (f e + n)%Z) 0%Z evs.
Proof. intros Hf. induction evs as [|e evs IH]; [done|]. by rewrite bind_cons, total_app, Hf, IH. Qed.
Lemma ended_terminal p oc ev :
  ended p oc ([(AttrPipeline, AString (RT_PipelineID ev)); (AttrOutcome, AString (Outcome_String (RT_Outcome ev)))] ++
    if bool_decide (RT_Outcome ev = OutcomeFailure)
    then [(AttrFailureKind, AString (FailureKind_String (RT_Kind ev))); (AttrReason, AString (RT_Reason ev))]
    else []) = bool_decide (RT_PipelineID ev = p ∧ RT_Outcome ev = oc).
Proof.
  unfold ended, has. apply eq_true_iff_eq. rewrite andb_true_iff, !bool_decide_eq_true.
  rewrite !elem_of_app, !elem_of_cons. split.
  - intros [Hp Ho]. split.
    + destruct Hp as [[[= ->]|[[=]|Hn%elem_of_nil]]|Hp]; [done..|]. case_bool_decide; set_solver.
    + destruct Ho as [[[=]|[[= Ho]|Hn%elem_of_nil]]|Ho]; [|done|].
      * by destruct oc, (RT_Outcome ev).
      * case_bool_decide; set_solver.
  - intros [<- <-]. auto.
Qed.
Lemma on_terminal_counted p oc ev :
  total "durable.runs.terminal" (ended p oc) (on_terminal ev) =
    if bool_decide (RT_PipelineID ev = p ∧ RT_Outcome ev = oc) then 1%Z else 0%Z.
Proof.
  cbn [on_terminal total foldr ms_value ms_name ms_attrs].
  rewrite bool_decide_eq_true_2 by done. rewrite andb_true_l, ended_terminal.
  by destruct (bool_decide (_ ∧ _)).
Qed.
Lemma terminal_counted p oc e :
  total "durable.runs.terminal" (ended p oc) (measured e) = if ends p oc e then 1%Z else 0%Z.
Proof.
  destruct e as [| | |rec| | | | |]; try done. cbn [measured ends].
  destruct (Run_Outcome rec) as [o|]; [|by rewrite bool_decide_eq_false_2 by naive_solver].
  rewrite on_terminal_counted. cbn [terminal_event RT_PipelineID RT_Outcome].
  repeat case_bool_decide; naive_solver.
Qed.
Lemma reaped_counted e : total "durable.runs.reaped" (λ _, true) (measured e) = reaped e.
Proof.
  destruct e as [| | |rec| | | |n|]; try done; cbn.
  - by destruct (Run_Outcome rec).
  - rewrite bool_decide_eq_true_2 by done. simpl. lia.
Qed.
Lemma measured_labels e x k :
  x ∈ measured e → k ∈ (ms_attrs x).*1 → k ≠ AttrRunID ∧ k ≠ AttrResource.
Proof.
  assert (Forall (λ x, Forall (λ k, k ≠ AttrRunID ∧ k ≠ AttrResource) (ms_attrs x).*1) (measured e)) as Hall.
  { assert (∀ ev, Forall (λ x, Forall (λ k, k ≠ AttrRunID ∧ k ≠ AttrResource) (ms_attrs x).*1) (on_terminal ev))
      as Ht by (intros ev; unfold on_terminal; case_bool_decide; repeat constructor; done).
    destruct e as [| | |rec| | | | |]; cbn [measured]; try (repeat constructor; done).
    destruct (Run_Outcome rec); [apply Ht|constructor]. }
  rewrite Forall_forall in Hall. intros Hx Hk. specialize (Hall x Hx). rewrite Forall_forall in Hall. by apply Hall.
Qed.

(** Whatever events the engine emits to the observer, the counters say them: the runs of a
    pipeline that ended with an outcome, and the runs reaped; no callback panics; and no
    measurement is labelled with a run or a resource. *)
Theorem metrics_follow_events create o evs :
  NewObserver create = Ok o →
  let t := foldl (deliver [o]) (mkTelemetry [] 0) evs in
  t_panics t = 0 ∧
  (∀ p oc, total "durable.runs.terminal" (ended p oc) (t_state t) =
     Z.of_nat (length (filter (λ e, ends p oc e = true) evs))) ∧
  total "durable.runs.reaped" (λ _, true) (t_state t) = foldr (λ e n, (reaped e + n)%Z) 0%Z evs ∧
  ∀ x k, x ∈ t_state t → k ∈ (ms_attrs x).*1 → k ≠ AttrRunID ∧ k ≠ AttrResource.
Proof.
  intros Ho. cbv zeta. rewrite (delivered create o evs _ Ho). cbn [t_state t_panics app].
  split; [done|]. split; [|split].
  - intros p oc. rewrite (total_events _ _ _ evs (terminal_counted p oc)).
    induction evs as [|e evs IH]; [done|]. rewrite filter_cons. simpl. rewrite IH.
    destruct (ends p oc e); [rewrite decide_True by done|rewrite decide_False by done]; simpl; lia.
  - by apply total_events, reaped_counted.
  - intros x k (e & Hx & _)%list_elem_of_bind. by eapply measured_labels.
Qed.
